(* ===== verification/_CoqProject ===== *)
-Q . S2P
Prelude.v
Utf8.v
Containers.v
SigmaCondition.v
Core.v
SigmaMatcher.v
Yaml.v
SigmaEngine.v
SigmaCorrelation.v
Raft.v
RaftNet.v
Cluster.v
Serde.v
Store.v
Edr.v
EdrMap.v
Graph.v
Campaign.v
Columnar.v
Segments.v
Tiering.v
Text.v
Bus.v
Dsl.v
Config.v
Plan.v
Auth.v
ConfigExt.v
Api.v
ApiSpec.v
Codec.v
Cef.v
Leef.v
Tailer.v
Listen.v
Float.v
Template.v
Normalize.v
Plugin.v
Enrich.v
Detect.v
ColdTier.v
Pipeline.v
Vectors.v
Embed.v
Causal.v
Campaigns.v
Incident.v
Metrics.v
Harness.v
Host.v
Collect.v
Respond.v
Uplink.v
Link.v
Routes.v
Replay.v
Outputs.v
Cli.v
Startup.v
HotIndex.v
