(* ===== verification/Prelude.v ===== *)
(** * Sigil SIEM: a model of the Rust workspace under [src/crates], with proofs

    Sigil takes in logs and endpoint telemetry, normalises and enriches them,
    matches Sigma rules and detectors, keeps events in a searchable hot tier
    and a columnar cold tier, groups related events into incidents, and
    serves all of it over an HTTP interface.  Nodes form a Raft cluster.
    This library translates the program's own logic into executable
    definitions and proves what makes it correct.

    ** The parts, from the wire to the operator

    - Ingest.  [Tailer] is the file input and [Listen] the syslog listeners
      ([sigil-ingest/src/input.rs]); [Codec], [Cef] and [Leef] decode frames ([codec.rs], [cef.rs],
      [leef.rs]); [Template] mines message templates ([template.rs]);
      [Normalize] turns a record into an event ([sigil-normalize]); [Core] is
      the event model ([sigil-core]).
    - Enrichment and detection.  [Enrich] ([sigil-enrich]); [SigmaCondition],
      [SigmaMatcher], [SigmaEngine] and [SigmaCorrelation] ([sigil-sigma]:
      [condition.rs], [matcher.rs], [rule.rs], [engine.rs], [correlation.rs],
      [hunt.rs]); [Detect] ([sigil-detect]); [Plugin] ([sigil-plugin-wasm]).
    - Storage.  [Columnar], [Segments], [Tiering] ([sigil-index]:
      [columnar.rs], [catalog.rs], [store.rs], [object.rs]); [HotIndex]
      ([lib.rs], [analytics.rs]); [Store] ([sigil-store]); [ColdTier] is the
      interface the pipeline uses.
    - Correlation.  [Graph] ([sigil-graph]); [Vectors], [Embed], [Causal],
      [Campaign], [Campaigns], [Incident] ([sigil-correlate]: [vector.rs],
      [triplet.rs] and [embed.rs], [attack.rs], [causal.rs] and
      [pathselect.rs], [campaign.rs], [incident.rs]; [sigil-correlate-rl]);
      [Metrics] and [Harness] measure it ([sigil-eval]).
    - The node.  [Pipeline] composes all of the above as the loop of
      [sigil-cli/src/run.rs]; [Startup] is what a configuration starts and
      how the loop ends; [Replay] reads files instead ([replay_file],
      [analyze_file], [cmd_hunt]); [Outputs] delivers alerts ([output.rs],
      [output/]); [Cli] is the command line ([main.rs]).
    - Endpoint agents.  [Edr] and [EdrMap] ([sigil-edr]) are the gateway;
      [Host], [Collect], [Respond], [Uplink] the agent ([sigil-agent]: the
      host it runs on, [collector], [response], [config.rs] and
      [transport.rs]); [Link] joins the two.
    - Control.  [Config], [Plan] ([sigil-config]); [Auth], [ConfigExt],
      [Dsl], [Api], [ApiSpec], [Routes] ([sigil-api]; [Routes] is the router,
      the request bodies and the read handlers).
    - Cluster.  [Raft], [RaftNet], [Cluster], [Bus] ([sigil-cluster]:
      [raft.rs], its driver over a network, [shard.rs], [role.rs] and the
      framing of [transport.rs], the buses of [transport.rs]).
    - Shared.  This file (errors, the result monad, strings, lists), [Utf8],
      [Text], [Containers], [Yaml], [Serde], [Float].

    Definitions keep the names of the Rust items, with a prefix where two
    crates use one name.  The interfaces between components are classes:
    [SavedStore] (what [Edr] needs of [Store]), [ColdTier] (what [Pipeline]
    needs of the columnar store), [Embedder] and
    [PathSelector] (the traits of [sigil-correlate]), [Tantivy], [PathRouter]
    (what [HotIndex] and [Routes] need of the search library and of axum), [Serde], [JsonText], [JsonParse], [Arrow],
    [Casing], [FloatText] (what the components need of libraries).

    ** How code is modelled

    - A fallible function returns [result], or the error values the code
      distinguishes; the text inside an error is dropped, since no code reads
      it.  A panic (slice bounds, [unwrap], [unreachable]) is [None] or a
      constructor of its own, and the theorems say when it cannot happen.
    - A [&mut self] method takes the state and returns it; where calls of the
      file system, an object store or the index may fail, the operation runs
      in a monad that takes the outcome of each call from a list of faults
      ([Segments.IO], [Pipeline.M], [Tailer]).  Theorems quantify over that
      list.
    - Machine integers are [Z] with the wrap-around of the release profile
      where the code computes with them, and unbounded where only order or
      equality matters; [f32] and [f64] are the executable IEEE 754 numbers
      of the Standard Library, rounding to nearest even.  Strings are lists of
      bytes; code that works on characters is modelled on their UTF-8 form.
    - A [HashMap] is a [gmap]; where the order of its entries shows, that
      order is a parameter.  A [BTreeMap] is a sorted association list.
    - The clock, fresh identifiers and random numbers are arguments.
    - Code outside [src] is a parameter with its documented behaviour as a
      law of a class: [serde_json], [serde_yaml], [regex], Arrow and Parquet,
      argon2, the token library, ed25519, SHA-256, the WASM engine, Tantivy,
      DataFusion, axum's look-up of a path, the firewall tool, the order of
      process tables and hash maps, [DefaultHasher], logarithms, Unicode case
      tables, the decimal form of floating-point numbers.  Every
      theorem that uses such a law is applied to a concrete instance in its
      witness.

    ** What is proved

    - Safety of consensus: no two leaders of a term in any run over a network
      that loses and reorders messages; a node never panics on messages of
      such a run; the commit rule; a leader brings followers up to date.
      The bus under it delivers each message at most once over links that
      break and reconnect.
    - Nothing is lost or invented between the wire and storage: the tailer
      hands over each complete line, each record becomes an event with its
      raw bytes, the node loop keeps every routed event in both tiers, the
      tiered store reads back what was written through faults, migrations and
      retention, segments round-trip, the hot index implements the state the
      loop gives it and a search returns the newest matches.  A replay stores
      each record of a file, a hunt over the archive finds what live detection
      would have, and a node runs until it is interrupted or drained, with the
      last commit and roll done.
    - Detection means what the rule says: the condition parser is its
      grammar, a compiled rule fires iff its meaning holds, sliding windows
      equal a look-back over the whole history, detectors and enrichers do
      exactly what their settings say.
    - The agent tells the truth: what the gateway stores follows the processes
      that run, telemetry arrives once and in order, a quarantined file is
      never lost, the isolation flag is the state of the firewall, and the
      audit record of a command is settled by what the host did.
    - Alerts reach every configured service, whatever the others answer.
    - Control is guarded: every route but three is under the guard; roles, tokens, plugin signatures and capabilities,
      SQL from the query language, secrets of the configuration.
    - Correlation groups exactly what is linked: campaigns are the components
      of the link relation, incidents are chains in time order whose steps
      share entities, beam search is optimal where the beam is not cut, and
      the nearest-neighbour index never panics.
    - Round trips of the codecs, the condition printer and the secrets forms;
      exact fault conditions of the arithmetic that can panic.

    ** Bounds and fuel

    Loops that are not structural carry fuel that the theorems show to be
    enough: the condition parser (the number of tokens), [find] of the
    disjoint sets and the graph walks (the number of elements), the descent
    and the searches of the nearest-neighbour index, the beam search and the
    greedy rollout (the number of nodes and one more), readers of lines and
    frames (the number of bytes).  No theorem is
    of the form "if it returns": totality is part of the statement.

    ** Not modelled

    System calls, sockets, HTTP and gRPC transport, TLS, task scheduling and
    the time it takes: models take what these return.  The insides of Tantivy,
    DataFusion, axum and the YAML and JSON parsers.  The isolation of macOS
    and Windows hosts.  The contents of the event streams, of the OpenAPI
    document and of the JSON Schema, which are constants.  Parsing of command
    line arguments; texts of errors, logs and reports.  The machine-learning
    client, which forwards to generated code, and its sidecar; generated
    code; the web frontend; deployment files. *)
From stdpp Require Export base tactics numbers list gmap strings fin_maps.
From stdpp Require Export sorting.
From Stdlib Require Export Ascii Sorted.
From Stdlib Require Import Lia.

#[export] Set Default Goal Selector "!".

(** ** The error type of the workspace and the [Result] monad *)

(** The variants of [sigil_core::Error].  The human-readable payload of each
    variant is not modelled: no code path inspects it. *)
Inductive error : Set :=
  | Parse
  | Schema
  | Config
  | Io
  | Backend
  | Other.

#[export] Instance error_eq_dec : EqDecision error.
Proof. solve_decision. Defined.

(** [sigil_core::Result<T>]. *)
Inductive result (A : Type) : Type :=
  | Ok (a : A)
  | Err (e : error).
Arguments Ok {A} a.
Arguments Err {A} e.

#[export] Instance result_ret : MRet result := fun A a => Ok a.
#[export] Instance result_bind : MBind result := fun A B f m =>
  match m with Ok a => f a | Err e => Err e end.
#[export] Instance result_fmap : FMap result := fun A B f m =>
  match m with Ok a => Ok (f a) | Err e => Err e end.

#[export] Instance result_eq_dec {A} `{EqDecision A} : EqDecision (result A).
Proof. solve_decision. Defined.

(** [Option::ok_or_else]. *)
Definition ok_or {A} (o : option A) (e : error) : result A :=
  match o with Some a => Ok a | None => Err e end.

(** [Vec::is_empty]. *)
Definition is_nil {A} (l : list A) : bool := match l with [] => true | _ => false end.

Definition is_ok {A} (r : result A) : bool :=
  match r with Ok _ => true | Err _ => false end.

(** [iter().map(f).collect::<Result<Vec<_>>>()]: stops at the first error. *)
Fixpoint traverse {A B} (f : A -> result B) (l : list A) : result (list B) :=
  match l with
  | [] => Ok []
  | x :: l' => y ← f x; ys ← traverse f l'; Ok (y :: ys)
  end.

Lemma result_bind_Ok {A B} (f : A -> result B) (m : result A) b :
  (m ≫= f) = Ok b <-> exists a, m = Ok a /\ f a = Ok b.
Proof. destruct m; cbn; naive_solver. Qed.

Lemma result_bind_Err {A B} (f : A -> result B) (m : result A) e :
  (m ≫= f) = Err e <-> m = Err e \/ exists a, m = Ok a /\ f a = Err e.
Proof. destruct m; cbn; naive_solver. Qed.

Lemma traverse_Ok {A B} (f : A -> result B) (l : list A) (k : list B) :
  traverse f l = Ok k <-> Forall2 (fun x y => f x = Ok y) l k.
Proof.
  revert k. induction l as [|x l IH]; intros k; cbn.
  - split; [intros [= <-]; constructor | by inversion 1].
  - split.
    + intros (y & Hy & (ys & Hys & [= <-])%result_bind_Ok)%result_bind_Ok.
      constructor; [done | by apply IH].
    + inversion 1 as [|? y ? ys Hy Hys]; subst. rewrite Hy; cbn.
      by rewrite (proj2 (IH ys) Hys).
Qed.

Lemma traverse_total {A B} (f : A -> result B) (l : list A) :
  Forall (fun x => is_ok (f x)) l -> exists k, traverse f l = Ok k.
Proof.
  induction 1 as [|x l Hx _ [k IH]]; [by exists []|].
  destruct (f x) as [y|] eqn:Hf; [|done].
  exists (y :: k). cbn. by rewrite Hf; cbn; rewrite IH.
Qed.

(** ** Machine integers of the Rust code *)

Definition u64_max : Z := 2 ^ 64 - 1.
Definition u32_max : Z := 2 ^ 32 - 1.
Definition i64_min : Z := - 2 ^ 63.
Definition i64_max : Z := 2 ^ 63 - 1.

(** Two's-complement wrap-around of [i64] arithmetic (release profile). *)
Definition wrap_i64 (z : Z) : Z := (z + 2 ^ 63) `mod` 2 ^ 64 - 2 ^ 63.
Definition wrap_u64 (z : Z) : Z := z `mod` 2 ^ 64.

Definition in_i64 (z : Z) : Prop := (i64_min <= z <= i64_max)%Z.

#[export] Instance in_i64_dec z : Decision (in_i64 z).
Proof. unfold in_i64; apply _. Defined.

Lemma wrap_i64_id z : in_i64 z -> wrap_i64 z = z.
Proof. unfold in_i64, i64_min, i64_max, wrap_i64. intros. rewrite Z.mod_small; lia. Qed.

Lemma wrap_i64_range z : in_i64 (wrap_i64 z).
Proof.
  unfold in_i64, i64_min, i64_max, wrap_i64.
  pose proof (Z.mod_pos_bound (z + 2 ^ 63) (2 ^ 64)). lia.
Qed.

(** ** Strings

    A Rust [String] is its UTF-8 byte sequence: a Rocq [string], one [ascii]
    per byte. *)
Section strings.
Local Open Scope N_scope.

(** [char::to_ascii_lowercase] on a byte. *)
Definition ascii_lower (c : ascii) : ascii :=
  let n := N_of_ascii c in
  if (65 <=? n) && (n <=? 90) then ascii_of_N (n + 32) else c.

Definition ascii_upper (c : ascii) : ascii :=
  let n := N_of_ascii c in
  if (97 <=? n) && (n <=? 122) then ascii_of_N (n - 32) else c.

Definition is_ascii_digit (c : ascii) : bool :=
  let n := N_of_ascii c in (48 <=? n) && (n <=? 57).

(** A byte below 128, i.e. a one-byte UTF-8 character. *)
Definition is_ascii (c : ascii) : bool := N_of_ascii c <? 128.

(** Length in bytes of the [White_Space] character the string starts with,
    0 if it starts with another character ([char::is_whitespace] on the
    decoded character: U+0009..000D, 0020, 0085, 00A0, 1680, 2000..200A,
    2028, 2029, 202F, 205F, 3000). *)
Definition ws_len (s : string) : nat :=
  match s with
  | EmptyString => 0%nat
  | String c r =>
      let b := N_of_ascii c in
      if ((9 <=? b) && (b <=? 13)) || (b =? 32) then 1%nat
      else if b <? 128 then 0%nat
      else match r with
           | EmptyString => 0%nat
           | String d r' =>
               let b1 := N_of_ascii d in
               if (b =? 0xC2) && ((b1 =? 0x85) || (b1 =? 0xA0)) then 2%nat
               else match r' with
                    | EmptyString => 0%nat
                    | String e _ =>
                        let b2 := N_of_ascii e in
                        if ((b =? 0xE1) && (b1 =? 0x9A) && (b2 =? 0x80))
                           || ((b =? 0xE2) && (b1 =? 0x80)
                               && (((0x80 <=? b2) && (b2 <=? 0x8A))
                                   || (b2 =? 0xA8) || (b2 =? 0xA9) || (b2 =? 0xAF)))
                           || ((b =? 0xE2) && (b1 =? 0x81) && (b2 =? 0x9F))
                           || ((b =? 0xE3) && (b1 =? 0x80) && (b2 =? 0x80))
                        then 3%nat else 0%nat
                    end
           end
  end.
End strings.

(** [str::to_ascii_lowercase]. *)
Fixpoint to_ascii_lowercase (s : string) : string :=
  match s with
  | EmptyString => EmptyString
  | String c r => String (ascii_lower c) (to_ascii_lowercase r)
  end.

Fixpoint to_ascii_uppercase (s : string) : string :=
  match s with
  | EmptyString => EmptyString
  | String c r => String (ascii_upper c) (to_ascii_uppercase r)
  end.

Definition eq_ignore_ascii_case (a b : string) : bool :=
  bool_decide (to_ascii_lowercase a = to_ascii_lowercase b).

(** [str::is_empty]. *)
Definition is_empty_str (s : string) : bool :=
  match s with EmptyString => true | _ => false end.

(** [str::split_whitespace]: [skip] counts the remaining bytes of the
    white-space character being crossed, [cur] is the current word. *)
Definition flush_word (cur : string) : list string :=
  if is_empty_str cur then [] else [cur].

Fixpoint split_ws (s : string) (skip : nat) (cur : string) : list string :=
  match s with
  | EmptyString => flush_word cur
  | String c r =>
      match skip with
      | S k => split_ws r k cur
      | O => match ws_len s with
             | O => split_ws r 0 (cur +:+ String c EmptyString)
             | S k => flush_word cur ++ split_ws r k EmptyString
             end
      end
  end.

Definition split_whitespace (s : string) : list string := split_ws s 0 EmptyString.

(** [str::trim]. *)
Fixpoint all_ws (s : string) (skip : nat) : bool :=
  match s with
  | EmptyString => true
  | String _ r =>
      match skip with
      | S k => all_ws r k
      | O => match ws_len s with O => false | S k => all_ws r k end
      end
  end.

Fixpoint trim_start_aux (s : string) (skip : nat) : string :=
  match s with
  | EmptyString => EmptyString
  | String _ r =>
      match skip with
      | S k => trim_start_aux r k
      | O => match ws_len s with O => s | S k => trim_start_aux r k end
      end
  end.

Definition trim_start (s : string) : string := trim_start_aux s 0.

Fixpoint trim_end (s : string) : string :=
  match s with
  | EmptyString => EmptyString
  | String c r => if all_ws s 0 then EmptyString else String c (trim_end r)
  end.

Definition trim (s : string) : string := trim_end (trim_start s).

(** [str::replace] of one ASCII character by a string. *)
Fixpoint replace_char (c : ascii) (by_ : string) (s : string) : string :=
  match s with
  | EmptyString => EmptyString
  | String d r =>
      if bool_decide (c = d) then by_ +:+ replace_char c by_ r
      else String d (replace_char c by_ r)
  end.

(** [str::split(char)]. *)
Fixpoint split_on (c : ascii) (s : string) : list string :=
  match s with
  | EmptyString => [EmptyString]
  | String d r =>
      if bool_decide (c = d) then EmptyString :: split_on c r
      else match split_on c r with
           | [] => [String d EmptyString]
           | w :: ws => String d w :: ws
           end
  end.

(** [slice.join(sep)]. *)
Fixpoint join (sep : string) (l : list string) : string :=
  match l with
  | [] => EmptyString
  | [w] => w
  | w :: ws => w +:+ sep +:+ join sep ws
  end.

(** [str::strip_prefix], [starts_with], [strip_suffix], [ends_with],
    [contains] (all on bytes, as in Rust: UTF-8 is self-synchronising). *)
Fixpoint strip_prefix (p s : string) : option string :=
  match p, s with
  | EmptyString, _ => Some s
  | String a p', String b s' => if bool_decide (a = b) then strip_prefix p' s' else None
  | String _ _, EmptyString => None
  end.

Definition starts_with (p s : string) : bool := bool_decide (is_Some (strip_prefix p s)).

Fixpoint strip_suffix (p s : string) : option string :=
  if bool_decide (s = p) then Some EmptyString
  else match s with
       | EmptyString => None
       | String c r => String c <$> strip_suffix p r
       end.

Definition ends_with (p s : string) : bool := bool_decide (is_Some (strip_suffix p s)).

Fixpoint contains (p s : string) : bool :=
  starts_with p s ||
  match s with EmptyString => false | String _ r => contains p r end.

(** [chars().all(is_ascii_digit)] on a non-empty string and its value. *)
Fixpoint digits_value (s : string) (acc : Z) : option Z :=
  match s with
  | EmptyString => Some acc
  | String c r =>
      if is_ascii_digit c then digits_value r (10 * acc + (Z.of_N (N_of_ascii c) - 48))%Z
      else None
  end.

Definition digits (s : string) : option Z :=
  if is_empty_str s then None else digits_value s 0.

(** [str::parse::<u64>()] (and [usize] on 64-bit targets): an optional [+],
    then at least one digit, and no overflow. *)
Definition parse_u64 (s : string) : option Z :=
  let body := match s with String "+" r => r | _ => s end in
  match digits body with
  | Some n => if bool_decide (n <= u64_max)%Z then Some n else None
  | None => None
  end.

(** [str::parse::<i64>()]. *)
Definition parse_i64 (s : string) : option Z :=
  let '(neg, body) :=
    match s with String "+" r => (false, r) | String "-" r => (true, r) | _ => (false, s) end in
  match digits body with
  | Some n =>
      let v := if neg : bool then (- n)%Z else n in
      if bool_decide (in_i64 v) then Some v else None
  | None => None
  end.

(** Decimal rendering ([ToString] of an unsigned integer below [10^fuel]). *)
Definition digit_ascii (d : Z) : ascii := ascii_of_N (Z.to_N (48 + d)).

Fixpoint show_digits (fuel : nat) (n : Z) (acc : string) : string :=
  match fuel with
  | O => acc
  | S f =>
      if bool_decide (n < 10)%Z then String (digit_ascii n) acc
      else show_digits f (n / 10) (String (digit_ascii (n `mod` 10)) acc)
  end.

Definition show_u64 (n : Z) : string := show_digits 20 n EmptyString.

(** ** String lemmas *)

Lemma string_app_nil_l s : EmptyString +:+ s = s.
Proof. done. Qed.

Lemma string_app_cons c s t : String c s +:+ t = String c (s +:+ t).
Proof. done. Qed.

Lemma string_app_nil_r s : s +:+ EmptyString = s.
Proof. induction s as [|c s IH]; [done|]. by rewrite string_app_cons, IH. Qed.

Lemma string_app_assoc s t u : s +:+ (t +:+ u) = (s +:+ t) +:+ u.
Proof. induction s as [|c s IH]; [done|]. by rewrite !string_app_cons, IH. Qed.

Create Rewrite HintDb str.
#[export] Hint Rewrite string_app_nil_l string_app_nil_r string_app_cons : str.

Lemma replace_char_app c b s t :
  replace_char c b (s +:+ t) = replace_char c b s +:+ replace_char c b t.
Proof.
  induction s as [|d s IH]; [done|]. rewrite string_app_cons. cbn.
  case_bool_decide; rewrite IH; [by rewrite string_app_assoc|done].
Qed.

(** A byte that is a whole word character: ASCII, no white space, no [c]. *)
Definition word_byte (c : ascii) : bool :=
  is_ascii c && negb ((9 <=? N_of_ascii c)%N && (N_of_ascii c <=? 13)%N) &&
  negb (N_of_ascii c =? 32)%N.

Fixpoint all_bytes (f : ascii -> bool) (s : string) : bool :=
  match s with EmptyString => true | String c r => f c && all_bytes f r end.

Lemma all_bytes_app f s t : all_bytes f (s +:+ t) = all_bytes f s && all_bytes f t.
Proof. induction s as [|c s IH]; [done|]. rewrite string_app_cons. cbn. by rewrite IH, andb_assoc. Qed.

Lemma all_bytes_impl (f g : ascii -> bool) s :
  (forall c, f c = true -> g c = true) -> all_bytes f s = true -> all_bytes g s = true.
Proof.
  intros H. induction s as [|c s IH]; [done|]. cbn. rewrite !andb_true_iff. naive_solver.
Qed.

Lemma ws_len_word_byte c r : word_byte c = true -> ws_len (String c r) = 0.
Proof.
  unfold word_byte, is_ascii, ws_len. rewrite !andb_true_iff, !negb_true_iff.
  intros [[Ha Hw] Hs]. by rewrite Ha, Hw, Hs.
Qed.

Lemma ws_len_space r : ws_len (String " " r) = 1.
Proof. done. Qed.

Lemma replace_char_absent c b s :
  all_bytes (fun d => negb (bool_decide (c = d))) s = true -> replace_char c b s = s.
Proof.
  induction s as [|d s IH]; [done|]. cbn. rewrite andb_true_iff, negb_true_iff.
  intros [Hd Hs]. by rewrite Hd, IH.
Qed.

Lemma split_ws_word w r cur :
  all_bytes word_byte w = true -> split_ws (w +:+ r) 0 cur = split_ws r 0 (cur +:+ w).
Proof.
  revert cur. induction w as [|c w IH]; intros cur.
  - intros _. by rewrite string_app_nil_r.
  - cbn [all_bytes]. rewrite andb_true_iff. intros [Hc Hw].
    rewrite string_app_cons. cbn [split_ws]. rewrite ws_len_word_byte by done.
    rewrite IH by done. by rewrite <- string_app_assoc.
Qed.

Lemma split_ws_space r cur :
  split_ws (String " " r) 0 cur = flush_word cur ++ split_ws r 0 EmptyString.
Proof. done. Qed.

Lemma digit_ascii_digit d : (0 <= d < 10)%Z ->
  is_ascii_digit (digit_ascii d) = true /\ (Z.of_N (N_of_ascii (digit_ascii d)) - 48 = d)%Z.
Proof.
  intros Hd. unfold digit_ascii, is_ascii_digit. rewrite N_ascii_embedding by lia.
  split; [|lia]. rewrite andb_true_iff, !N.leb_le. lia.
Qed.

Lemma digits_value_show f n acc :
  (0 <= n < 10 ^ Z.of_nat f)%Z -> digits_value (show_digits f n acc) 0 = digits_value acc n.
Proof.
  revert n acc. induction f as [|f IH]; intros n acc Hn.
  - cbn in Hn. by replace n with 0%Z by lia.
  - cbn [show_digits]. pose proof digit_ascii_digit as Hd.
    case_bool_decide.
    + cbn. destruct (Hd n) as [-> Hv]; [lia|]. f_equal. lia.
    + rewrite Nat2Z.inj_succ, Z.pow_succ_r in Hn by lia.
      rewrite IH by (split; [apply Z.div_pos|apply Z.div_lt_upper_bound]; lia).
      cbn. destruct (Hd (n `mod` 10)%Z) as [-> Hv]; [apply Z.mod_pos_bound; lia|].
      f_equal. rewrite Hv. pose proof (Z.div_mod n 10). lia.
Qed.

Lemma show_digits_head f n acc :
  (0 <= n)%Z -> 0 < f -> exists d r, show_digits f n acc = String (digit_ascii d) r /\ (0 <= d < 10)%Z.
Proof.
  revert n acc. induction f as [|f IH]; intros n acc Hn Hf; [lia|]. cbn [show_digits].
  case_bool_decide; [eauto with lia|]. destruct f as [|f].
  - cbn. exists (n `mod` 10)%Z, acc. split; [done|]. apply Z.mod_pos_bound; lia.
  - apply IH; [apply Z.div_pos|]; lia.
Qed.

Lemma show_u64_head n :
  (0 <= n)%Z -> exists d r, show_u64 n = String (digit_ascii d) r /\ (0 <= d < 10)%Z.
Proof. intros Hn. apply show_digits_head; lia. Qed.

Lemma digit_ascii_cases d : (0 <= d < 10)%Z ->
  d = 0%Z \/ d = 1%Z \/ d = 2%Z \/ d = 3%Z \/ d = 4%Z \/ d = 5%Z \/ d = 6%Z \/ d = 7%Z \/ d = 8%Z \/ d = 9%Z.
Proof. lia. Qed.

Lemma all_bytes_show f n acc :
  (0 <= n)%Z -> all_bytes is_ascii_digit acc = true -> all_bytes is_ascii_digit (show_digits f n acc) = true.
Proof.
  pose proof digit_ascii_digit as Hd.
  revert n acc. induction f as [|f IH]; intros n acc Hn Ha; [done|]. cbn [show_digits].
  case_bool_decide.
  - cbn. rewrite (proj1 (Hd n ltac:(lia))). done.
  - apply IH; [apply Z.div_pos; lia|]. cbn. rewrite (proj1 (Hd (n `mod` 10)%Z (Z.mod_pos_bound n 10 ltac:(lia)))). done.
Qed.

Lemma digits_value_nonneg s acc n : (0 <= acc)%Z -> digits_value s acc = Some n -> (0 <= n)%Z.
Proof.
  revert acc. induction s as [|c s IH]; intros acc Ha; cbn; [by intros [= <-]|].
  destruct (is_ascii_digit c) eqn:E; [|done]. apply IH. unfold is_ascii_digit in E.
  apply andb_true_iff in E as [E _]. apply N.leb_le in E. lia.
Qed.

Lemma parse_u64_range s n : parse_u64 s = Some n -> (0 <= n <= u64_max)%Z.
Proof.
  unfold parse_u64, digits. destruct (is_empty_str _); [done|].
  destruct (digits_value _ _) as [m|] eqn:E; [|done]. case_bool_decide; [|done].
  intros [= <-]. split; [|done]. by eapply digits_value_nonneg.
Qed.

(** [parse::<u64>] inverts [to_string]. *)
Lemma parse_show_u64 n : (0 <= n <= u64_max)%Z -> parse_u64 (show_u64 n) = Some n.
Proof.
  intros Hn. destruct (show_u64_head n) as (d & r & Hs & Hd); [lia|].
  assert (Hv : digits_value (show_u64 n) 0 = Some n).
  { unfold show_u64. rewrite digits_value_show; [done|]. unfold u64_max in Hn. lia. }
  unfold parse_u64. assert (Hb : (match show_u64 n with String "+" r => r | _ => show_u64 n end) = show_u64 n).
  { rewrite Hs. destruct (digit_ascii_cases d Hd) as [->|[->|[->|[->|[->|[->|[->|[->|[->| ->]]]]]]]]]; done. }
  rewrite Hb. unfold digits. rewrite Hs at 1. cbn [is_empty_str]. rewrite Hv.
  by rewrite bool_decide_true by lia.
Qed.

Lemma strip_prefix_Some p s r : strip_prefix p s = Some r <-> s = p +:+ r.
Proof.
  revert s. induction p as [|a p IH]; intros s.
  - cbn. rewrite string_app_nil_l. naive_solver.
  - rewrite string_app_cons. destruct s as [|b s]; cbn; [naive_solver|].
    case_bool_decide; rewrite ?IH; naive_solver.
Qed.

Lemma starts_with_spec p s : starts_with p s = true <-> exists r, s = p +:+ r.
Proof.
  unfold starts_with. rewrite bool_decide_eq_true. unfold is_Some.
  by setoid_rewrite strip_prefix_Some.
Qed.

Lemma string_length_app s t : String.length (s +:+ t) = String.length s + String.length t.
Proof. induction s as [|c s IH]; [done|]. rewrite string_app_cons. cbn. by rewrite IH. Qed.

Lemma strip_suffix_Some p s r : strip_suffix p s = Some r <-> s = r +:+ p.
Proof.
  revert r. induction s as [|c s IH]; intros r; cbn; case_bool_decide as Hp.
  - split; [by intros [= <-]; rewrite string_app_nil_l|].
    subst p. rewrite string_app_nil_r. naive_solver.
  - split; [done|]. intros H. apply (f_equal String.length) in H as Hl.
    rewrite string_length_app in Hl. destruct r; [|done]. by destruct p.
  - split; [intros [= <-]; by rewrite string_app_nil_l|]. intros H.
    apply (f_equal String.length) in H. rewrite string_length_app, <- Hp in H. destruct r; [done|cbn in *; lia].
  - rewrite fmap_Some. split.
    + intros (r' & ->%IH & ->). done.
    + destruct r as [|d r]; [by rewrite string_app_nil_l|].
      rewrite string_app_cons. intros [= <- ->]. exists r. by rewrite IH.
Qed.

Lemma ends_with_spec p s : ends_with p s = true <-> exists r, s = r +:+ p.
Proof.
  unfold ends_with. rewrite bool_decide_eq_true. unfold is_Some.
  by setoid_rewrite strip_suffix_Some.
Qed.

Lemma contains_spec p s : contains p s = true <-> exists u v, s = u +:+ p +:+ v.
Proof.
  induction s as [|c s IH]; cbn [contains]; rewrite orb_true_iff, starts_with_spec.
  - split.
    + intros [[r Hr]|]; [|done]. by exists EmptyString, r.
    + intros (u & v & H). left. exists v. by destruct u.
  - rewrite IH. split.
    + intros [[r Hr]|(u & v & ->)]; [by exists EmptyString, r|]. by exists (String c u), v.
    + intros (u & v & H). destruct u as [|d u].
      * left. by exists v.
      * right. rewrite string_app_cons in H. injection H as [= -> ->]. eauto.
Qed.

(** ** Byte order of strings ([Ord for str]) *)

Lemma string_compare_refl s : String.compare s s = Eq.
Proof.
  induction s as [|c s IH]; [done|]. cbn. unfold Ascii.compare. by rewrite N.compare_refl.
Qed.

Lemma string_compare_lt_gt a b : String.compare a b = Lt <-> String.compare b a = Gt.
Proof. rewrite (String.compare_antisym a b). by destruct (String.compare b a). Qed.

Lemma ascii_compare_lt_trans a b c :
  Ascii.compare a b = Lt -> Ascii.compare b c = Lt -> Ascii.compare a c = Lt.
Proof. unfold Ascii.compare. rewrite !N.compare_lt_iff. lia. Qed.

Lemma string_compare_cons a s b t :
  String.compare (String a s) (String b t) =
  match Ascii.compare a b with Eq => String.compare s t | c => c end.
Proof. done. Qed.

Lemma string_compare_lt_trans a b c :
  String.compare a b = Lt -> String.compare b c = Lt -> String.compare a c = Lt.
Proof.
  revert b c. induction a as [|x a IH]; intros [|y b] [|z c]; try done.
  rewrite !string_compare_cons.
  destruct (Ascii.compare x y) eqn:E1; [|intros _|done].
  - apply Ascii.compare_eq_iff in E1 as ->. destruct (Ascii.compare y z); [apply IH|done|done].
  - destruct (Ascii.compare y z) eqn:E2; [|intros _|done].
    + apply Ascii.compare_eq_iff in E2 as ->. by rewrite E1.
    + by rewrite (ascii_compare_lt_trans _ _ _ E1 E2).
Qed.

Create HintDb str_order.
#[export] Hint Resolve string_compare_lt_trans : str_order.

(** ** [split] and [join] *)

Definition free_of (c : ascii) (s : string) : bool :=
  all_bytes (fun d => negb (bool_decide (c = d))) s.

Lemma free_of_app c s t : free_of c (s +:+ t) = free_of c s && free_of c t.
Proof. apply all_bytes_app. Qed.

Lemma split_on_free c w : free_of c w = true -> split_on c w = [w].
Proof.
  unfold free_of. induction w as [|d w IH]; [done|]. cbn. rewrite andb_true_iff, negb_true_iff.
  intros [-> Hw]. by rewrite IH.
Qed.

Lemma split_on_app c w r :
  free_of c w = true -> split_on c (w +:+ String c r) = w :: split_on c r.
Proof.
  unfold free_of. induction w as [|d w IH].
  - intros _. rewrite string_app_nil_l. cbn. by rewrite bool_decide_true.
  - cbn [all_bytes]. rewrite andb_true_iff, negb_true_iff. intros [Hd Hw].
    rewrite string_app_cons. cbn [split_on]. by rewrite Hd, IH.
Qed.

Lemma split_join c ws :
  ws <> [] -> Forall (fun w => free_of c w = true) ws ->
  split_on c (join (String c EmptyString) ws) = ws.
Proof.
  intros Hne H. induction H as [|w ws Hw Hws IH]; [done|].
  destruct ws as [|w' ws]; [by apply split_on_free|].
  change (join (String c EmptyString) (w :: w' :: ws)) with
    (w +:+ String c EmptyString +:+ join (String c EmptyString) (w' :: ws)).
  rewrite string_app_cons, string_app_nil_l, split_on_app by done. f_equal. by apply IH.
Qed.

Lemma all_bytes_ascii_contains c v :
  contains (String c EmptyString) v = negb (free_of c v).
Proof.
  unfold free_of. induction v as [|d v IH]; [done|]. cbn [contains all_bytes]. rewrite IH.
  rewrite negb_andb, negb_involutive. f_equal. unfold starts_with. cbn.
  destruct (decide (c = d)) as [->|Hd].
  - rewrite (bool_decide_true (d = d)) by done. by rewrite bool_decide_true by by eexists.
  - rewrite (bool_decide_false (c = d)) by done. by rewrite bool_decide_false by by inversion 1.
Qed.

(** ** Splitting at a space *)

Lemma ws_len_app_space c s r :
  ws_len (String c s +:+ String " " r) = ws_len (String c s).
Proof.
  rewrite string_app_cons. destruct s as [|d [|e s]]; [| |done].
  - rewrite string_app_nil_l. unfold ws_len. change (N_of_ascii " ") with 32%N.
    destruct (_ || _); [done|]. destruct (_ <? _)%N; [done|]. rewrite andb_false_r.
    destruct r as [|x r]; [done|]. rewrite !andb_false_r. done.
  - rewrite string_app_cons, string_app_nil_l. unfold ws_len. change (N_of_ascii " ") with 32%N.
    destruct (_ || _); [done|]. destruct (_ <? _)%N; [done|].
    destruct (_ && (_ || _)); [done|]. rewrite !andb_false_r. done.
Qed.

Lemma ws_len_le s : ws_len s <= String.length s.
Proof.
  unfold ws_len. destruct s as [|c [|d [|e s]]]; cbn; repeat case_match; lia.
Qed.

Lemma split_ws_app_space s r skip cur :
  skip <= String.length s ->
  split_ws (s +:+ String " " r) skip cur = split_ws s skip cur ++ split_ws r 0 EmptyString.
Proof.
  revert skip cur. induction s as [|c s IH]; intros skip cur Hs.
  - cbn in Hs. replace skip with 0 by lia. done.
  - pose proof (ws_len_app_space c s r) as Hw. rewrite string_app_cons in *. cbn [split_ws].
    cbn in Hs. destruct skip as [|k]; [|apply IH; lia]. rewrite Hw.
    pose proof (ws_len_le (String c s)) as Hl. cbn [String.length] in Hl.
    destruct (ws_len (String c s)) as [|k]; [apply IH; lia|].
    rewrite <- app_assoc. f_equal. apply IH. lia.
Qed.

Lemma split_whitespace_space s r :
  split_whitespace (s +:+ String " " r) = split_whitespace s ++ split_whitespace r.
Proof. apply split_ws_app_space. lia. Qed.

Lemma omap_list_cons {A B} (f : A -> option B) (x : A) (l : list A) :
  omap f (x :: l) = match f x with Some y => y :: omap f l | None => omap f l end.
Proof. done. Qed.

Lemma elem_concat_map {A B} (f : A -> list B) (l : list A) y :
  y ∈ List.concat (f <$> l) <-> exists x, x ∈ l /\ y ∈ f x.
Proof.
  induction l as [|x l IH]; cbn; [split; [by intros ?%not_elem_of_nil|by intros (? & ?%not_elem_of_nil & _)]|].
  rewrite elem_of_app, IH. setoid_rewrite elem_of_cons. naive_solver.
Qed.
