(* ===== verification/Utf8.v ===== *)
(** * UTF-8 as the decoders of the program see it

    [String::from_utf8_lossy] on raw bytes: well-formed sequences are kept,
    every maximal ill-formed prefix becomes U+FFFD.  Character boundaries,
    and Unicode casing as a parameter with its law on ASCII. *)

From stdpp Require Import strings.
From S2P Require Import Prelude.

Definition byte_val (c : ascii) : N := N_of_ascii c.
Definition in_range (lo hi : N) (c : ascii) : bool := (lo <=? byte_val c)%N && (byte_val c <=? hi)%N.
Definition is_cont : ascii -> bool := in_range 0x80 0xBF.

(** Width announced by a first byte; 0 for a byte that cannot start a
    character. *)
Definition utf8_width (c : ascii) : nat :=
  if in_range 0 0x7F c then 1
  else if in_range 0xC2 0xDF c then 2
  else if in_range 0xE0 0xEF c then 3
  else if in_range 0xF0 0xF4 c then 4
  else 0.

(** The second byte excludes overlong forms, surrogates and values above
    U+10FFFF. *)
Definition second_ok (c d : ascii) : bool :=
  if bool_decide (byte_val c = 0xE0%N) then in_range 0xA0 0xBF d
  else if bool_decide (byte_val c = 0xED%N) then in_range 0x80 0x9F d
  else if bool_decide (byte_val c = 0xF0%N) then in_range 0x90 0xBF d
  else if bool_decide (byte_val c = 0xF4%N) then in_range 0x80 0x8F d
  else is_cont d.

(** Is the head of the string a well-formed character, and how many bytes does
    it (or the ill-formed prefix) take? *)
Definition utf8_head (s : string) : bool * nat :=
  match s with
  | EmptyString => (true, 0)
  | String c r =>
      match utf8_width c with
      | 0 => (false, 1)
      | 1 => (true, 1)
      | w =>
          match r with
          | String d r' =>
              if negb (second_ok c d) then (false, 1)
              else if bool_decide (w = 2) then (true, 2)
              else match r' with
                   | String e r'' =>
                       if negb (is_cont e) then (false, 2)
                       else if bool_decide (w = 3) then (true, 3)
                       else match r'' with
                            | String f _ => if is_cont f then (true, 4) else (false, 3)
                            | EmptyString => (false, 3)
                            end
                   | EmptyString => (false, 2)
                   end
          | EmptyString => (false, 1)
          end
      end
  end.

Definition replacement : string :=
  String (ascii_of_N 0xEF) (String (ascii_of_N 0xBF) (String (ascii_of_N 0xBD) EmptyString)).

(** [keep] bytes are still to be copied, [drop] to be skipped. *)
Fixpoint lossy_from (s : string) (keep skip : nat) : string :=
  match s with
  | EmptyString => EmptyString
  | String c r =>
      match skip, keep with
      | S k, _ => lossy_from r 0 k
      | O, S k => String c (lossy_from r k 0)
      | O, O =>
          let '(ok, n) := utf8_head s in
          if ok : bool then String c (lossy_from r (n - 1) 0)
          else replacement +:+ lossy_from r 0 (n - 1)
      end
  end.

Definition from_utf8_lossy (s : string) : string := lossy_from s 0 0.

Fixpoint valid_from (s : string) (keep : nat) : bool :=
  match s with
  | EmptyString => true
  | String c r =>
      match keep with
      | S k => valid_from r k
      | O => let '(ok, n) := utf8_head s in ok && valid_from r (n - 1)
      end
  end.

(** What [str] guarantees of every Rust string. *)
Definition valid_utf8 (s : string) : bool := valid_from s 0.

Lemma lossy_valid_from s k : valid_from s k = true -> lossy_from s k 0 = s.
Proof.
  revert k. induction s as [|c r IH]; intros k H; [done|]. cbn [valid_from lossy_from] in *.
  destruct k; [|by rewrite IH].
  destruct (utf8_head (String c r)) as [ok n]. apply andb_true_iff in H as [-> H]. by rewrite IH.
Qed.

Lemma lossy_valid s : valid_utf8 s = true -> from_utf8_lossy s = s.
Proof. apply lossy_valid_from. Qed.

Lemma ascii_valid s : all_bytes is_ascii s = true -> valid_utf8 s = true.
Proof.
  unfold valid_utf8. induction s as [|c r IH]; [done|]. cbn [all_bytes valid_from].
  intros [Hc Hr]%andb_true_iff. assert (utf8_head (String c r) = (true, 1)) as ->; [|by apply IH].
  unfold utf8_head, utf8_width, in_range, byte_val. unfold is_ascii in Hc. apply N.ltb_lt in Hc.
  rewrite (proj2 (N.leb_le _ _)) by lia. by rewrite (proj2 (N.leb_le _ _)) by lia.
Qed.

(** The first [n] characters (UTF-8) of a string: [chars().take(n).collect()]. *)
Fixpoint take_chars (n : nat) (s : string) : string :=
  match s with
  | EmptyString => EmptyString
  | String c r =>
      if (128 <=? N_of_ascii c)%N && (N_of_ascii c <? 192)%N then String c (take_chars n r)
      else match n with O => EmptyString | S n => String c (take_chars n r) end
  end.

(** ** Character boundaries and casing *)

(** A UTF-8 continuation byte. *)
Definition is_continuation (c : ascii) : bool :=
  (128 <=? N_of_ascii c)%N && (N_of_ascii c <? 192)%N.

(** The characters of a UTF-8 string, each as its byte string. *)
Fixpoint chars (s : string) : list string :=
  match s with
  | EmptyString => []
  | String c r =>
      match chars r with
      | (String d w) :: ws =>
          if is_continuation d then String c (String d w) :: ws
          else String c EmptyString :: String d w :: ws
      | ws => String c EmptyString :: ws
      end
  end.

(** [str::is_char_boundary]. *)
Definition is_char_boundary (s : string) (i : nat) : bool :=
  bool_decide (i = 0) || bool_decide (i = String.length s) ||
  match String.get i s with Some c => negb (is_continuation c) | None => false end.

(** [str::to_lowercase] and [str::to_uppercase] (Unicode). *)
Class Casing := {
  to_lowercase : string -> string;
  to_uppercase : string -> string;
  to_lowercase_ascii s : all_bytes is_ascii s = true -> to_lowercase s = to_ascii_lowercase s;
  to_uppercase_ascii s : all_bytes is_ascii s = true -> to_uppercase s = to_ascii_uppercase s
}.

(** ASCII lowercasing alone, for concrete inputs. *)
Definition demo_lower : Casing :=
  {| to_lowercase := to_ascii_lowercase; to_uppercase := to_ascii_uppercase;
     to_lowercase_ascii s _ := eq_refl; to_uppercase_ascii s _ := eq_refl |}.
