(* ===== verification/Containers.v ===== *)
(** * Containers the components share

    [BTreeMap<String, _>] and the embedded tables as key-sorted association
    lists ([smap]), and [slice::sort_by_key], a stable sort by an integer
    key. *)

From stdpp Require Import list strings sorting.
From S2P Require Import Prelude.

(** ** Key-sorted maps *)

Abbreviation smap V := (list (string * V)).

Lemma sorted_impl {A} (R R' : A -> A -> Prop) l :
  (forall a b, R a b -> R' a b) -> StronglySorted R l -> StronglySorted R' l.
Proof.
  intros Hi. induction 1 as [|x l Hs IH Hf]; constructor; [done|]. eapply Forall_impl; [exact Hf|]. eauto.
Qed.

Section smap.
Context {V : Type}.
Implicit Types (m : smap V) (k : string) (v : V).

Fixpoint smap_get m k : option V :=
  match m with
  | [] => None
  | (k', v) :: m' => if bool_decide (k' = k) then Some v else smap_get m' k
  end.

(** Replaces the value of a present key, keeps the keys in byte order. *)
Fixpoint smap_insert k v m : smap V :=
  match m with
  | [] => [(k, v)]
  | (k', v') :: m' =>
      match String.compare k k' with
      | Eq => (k, v) :: m'
      | Lt => (k, v) :: (k', v') :: m'
      | Gt => (k', v') :: smap_insert k v m'
      end
  end.

Definition smap_remove k (m : list (string * V)) : smap V := filter (fun kv => kv.1 <> k) m.

(** Keys in strictly increasing byte order: the representation invariant. *)
Definition smap_wf m : Prop := StronglySorted (fun a b => String.compare a b = Lt) m.*1.

Lemma smap_get_insert m k v j :
  smap_get (smap_insert k v m) j = if decide (k = j) then Some v else smap_get m j.
Proof.
  induction m as [|[k' v'] m IH]; cbn.
  - case_bool_decide; case_decide; done.
  - destruct (String.compare k k') eqn:E; cbn.
    + apply String.compare_eq_iff in E as ->. by case_bool_decide; case_decide.
    + repeat case_bool_decide; case_decide; congruence.
    + rewrite IH. case_bool_decide; [|done]. subst. case_decide as Hk; [|done]. subst.
      by rewrite string_compare_refl in E.
Qed.

Lemma smap_insert_keys k v m x : x ∈ (smap_insert k v m).*1 -> x = k \/ x ∈ m.*1.
Proof.
  induction m as [|[k' v'] m IH]; cbn; [set_solver|].
  destruct (String.compare k k'); cbn; set_solver.
Qed.

Lemma smap_insert_elem k v m x : x ∈ (smap_insert k v m).*1 <-> x = k \/ x ∈ m.*1.
Proof.
  induction m as [|[k' v'] m IH]; cbn; [set_solver|].
  destruct (String.compare k k') eqn:E; cbn; [apply String.compare_eq_iff in E as ->|..]; set_solver.
Qed.

Lemma smap_insert_wf k v m : smap_wf m -> smap_wf (smap_insert k v m).
Proof.
  unfold smap_wf. induction m as [|[k' v'] m IH]; cbn; intros Hs; [repeat constructor|].
  apply StronglySorted_inv in Hs as [Hs Hf].
  destruct (String.compare k k') eqn:E; cbn.
  - apply String.compare_eq_iff in E as ->. by constructor.
  - constructor; [by constructor|]. constructor; [done|].
    eapply Forall_impl; [done|]. cbn. eauto with str_order.
  - constructor; [by apply IH|]. apply Forall_forall.
    intros x [->|Hx]%smap_insert_keys; [by apply string_compare_lt_gt|].
    rewrite Forall_forall in Hf. by apply Hf.
Qed.

Lemma smap_get_remove m k j : smap_get (smap_remove k m) j = if decide (k = j) then None else smap_get m j.
Proof.
  unfold smap_remove. induction m as [|[k' v'] m IH]; [by case_decide|]. rewrite filter_cons.
  cbn [fst]. destruct (decide (k' <> k)) as [Hne|Heq]; cbn.
  - rewrite IH. case_bool_decide; [|done]. subst. by rewrite decide_False.
  - apply dec_stable in Heq as ->. rewrite IH. case_decide; [done|]. by rewrite bool_decide_false.
Qed.

Lemma smap_remove_wf k m : smap_wf m -> smap_wf (smap_remove k m).
Proof.
  unfold smap_wf, smap_remove. induction m as [|[k' v'] m IH]; [done|]. cbn [fmap list_fmap].
  intros [Hs Hf]%StronglySorted_inv. rewrite filter_cons. cbn [fst].
  destruct (decide (k' <> k)); [|by apply IH]. cbn [fmap list_fmap fst]. constructor; [by apply IH|].
  apply Forall_forall. intros x ([y z] & -> & [_ Hy]%list_elem_of_filter)%list_elem_of_fmap.
  rewrite Forall_forall in Hf. apply Hf, list_elem_of_fmap. by exists (y, z).
Qed.

Lemma smap_wf_nodup m : smap_wf m -> NoDup m.*1.
Proof.
  unfold smap_wf. induction 1 as [|k l Hs IH Hf]; constructor; [|done].
  intros Hin. rewrite Forall_forall in Hf. specialize (Hf k Hin). by rewrite string_compare_refl in Hf.
Qed.

Lemma smap_get_elem m k v : smap_wf m -> smap_get m k = Some v <-> (k, v) ∈ m.
Proof.
  intros Hwf%smap_wf_nodup. induction m as [|[k' v'] m IH]; cbn.
  - split; [done|by intros ?%not_elem_of_nil].
  - cbn in Hwf. apply NoDup_cons in Hwf as [Hk Hwf]. rewrite elem_of_cons. case_bool_decide; subst.
    + split; [intros [= ->]; by left|]. intros [[= ->]|Hin]; [done|]. destruct Hk.
      apply list_elem_of_fmap. by exists (k, v).
    + rewrite IH by done. naive_solver.
Qed.
Lemma smap_insert_snoc m k v :
  Forall (fun a => String.compare a k = Lt) m.*1 -> smap_insert k v m = m ++ [(k, v)].
Proof.
  induction m as [|[a w] m IH]; [done|]. cbn. intros [Ha Hm]%Forall_cons.
  rewrite (proj1 (string_compare_lt_gt _ _) Ha). by rewrite IH.
Qed.

(** Collecting the pairs of a map in order rebuilds it. *)
Lemma smap_collect m (acc : smap V) :
  smap_wf (acc ++ m) -> foldl (fun f kv => smap_insert kv.1 kv.2 f) acc m = acc ++ m.
Proof.
  revert acc. induction m as [|[k v] m IH]; intros acc Hw; cbn; [by rewrite app_nil_r|].
  assert (acc ++ (k, v) :: m = (acc ++ [(k, v)]) ++ m) as He by by rewrite <- app_assoc.
  rewrite smap_insert_snoc.
  - rewrite IH; [by rewrite <- app_assoc|]. by rewrite <- He.
  - unfold smap_wf in Hw. rewrite fmap_app in Hw. clear -Hw. induction acc as [|[a w] acc IHa]; [constructor|].
    cbn in Hw |- *. apply StronglySorted_inv in Hw as [Hs Hf]. constructor; [|by apply IHa].
    apply Forall_app in Hf as [_ Hf]. by apply Forall_cons in Hf as [? _].
Qed.
End smap.

(** ** Stable sorting by a key *)

Section sort.
Context {A : Type} (key : A -> Z).

Fixpoint insert_by_key (e : A) (l : list A) : list A :=
  match l with
  | [] => [e]
  | e' :: l' => if (key e <=? key e')%Z then e :: l else e' :: insert_by_key e l'
  end.

Definition sort_by_key (l : list A) : list A := foldr insert_by_key [] l.

Definition key_sorted (l : list A) : Prop := StronglySorted (fun a b => key a <= key b)%Z l.

Lemma insert_by_key_perm e l : insert_by_key e l ≡ₚ e :: l.
Proof.
  induction l as [|e' l IH]; cbn; [done|]. destruct (_ <=? _)%Z; [done|]. by rewrite IH, Permutation_swap.
Qed.

Lemma sort_by_key_perm l : sort_by_key l ≡ₚ l.
Proof. induction l as [|e l IH]; [done|]. cbn. by rewrite insert_by_key_perm, IH. Qed.

Lemma insert_by_key_sorted e l : key_sorted l -> key_sorted (insert_by_key e l).
Proof.
  induction 1 as [|e' l Hs IH Hall]; [repeat constructor|]. cbn.
  destruct (key e <=? key e')%Z eqn:E.
  - constructor; [by constructor|]. constructor; [lia|]. eapply Forall_impl; [exact Hall|]. cbn. lia.
  - constructor; [done|]. rewrite insert_by_key_perm. constructor; [lia|done].
Qed.

Lemma sort_by_key_sorted l : key_sorted (sort_by_key l).
Proof. induction l as [|e l IH]; cbn; [constructor|]. by apply insert_by_key_sorted. Qed.

Lemma insert_by_key_comm a b l :
  key a <> key b -> insert_by_key a (insert_by_key b l) = insert_by_key b (insert_by_key a l).
Proof.
  intros Hab. induction l as [|e l IH]; cbn.
  - destruct (key a <=? key b)%Z eqn:E1, (key b <=? key a)%Z eqn:E2; try done; lia.
  - destruct (key b <=? key e)%Z eqn:Eb, (key a <=? key e)%Z eqn:Ea; cbn;
      rewrite ?Ea, ?Eb; try done.
    + destruct (key a <=? key b)%Z eqn:E1, (key b <=? key a)%Z eqn:E2;
        cbn; rewrite ?Ea, ?Eb; try done; lia.
    + destruct (key a <=? key b)%Z eqn:E1; [lia|]. cbn. by rewrite ?Ea.
    + destruct (key b <=? key a)%Z eqn:E1; [lia|]. cbn. by rewrite ?Eb.
    + by rewrite IH.
Qed.

Lemma sort_by_key_unique l l' : l ≡ₚ l' -> NoDup (key <$> l) -> sort_by_key l = sort_by_key l'.
Proof.
  intros Hp. induction Hp as [|e l l' Hp IH|a b l|l1 l2 l3 Hp1 IH1 Hp2 IH2]; intros Hnd.
  - done.
  - apply NoDup_cons in Hnd as [_ Hnd].
    change (insert_by_key e (sort_by_key l) = insert_by_key e (sort_by_key l')). by rewrite IH.
  - cbn in *. apply NoDup_cons in Hnd as [Hab _]. apply insert_by_key_comm.
    intros E. apply Hab. rewrite E. constructor.
  - rewrite IH1 by done. apply IH2. by rewrite <- Hp1.
Qed.

(** Elements of one key keep their order. *)
Lemma insert_by_key_stable e l z :
  filter (fun x => key x = z) (insert_by_key e l) = filter (fun x => key x = z) (e :: l).
Proof.
  induction l as [|e' l IH]; [done|]. cbn [insert_by_key]. destruct (key e <=? key e')%Z eqn:E; [done|].
  rewrite filter_cons, IH, !filter_cons. do 2 case_decide; try done. lia.
Qed.

Lemma sort_by_key_stable l z :
  filter (fun x => key x = z) (sort_by_key l) = filter (fun x => key x = z) l.
Proof.
  induction l as [|e l IH]; [done|].
  change (sort_by_key (e :: l)) with (insert_by_key e (sort_by_key l)).
  rewrite insert_by_key_stable, !filter_cons, IH. done.
Qed.
End sort.

(** ** Sorting by a total order: [slice::sort] *)

Section sort_by.
Context {A : Type} (leb : A -> A -> bool).

Fixpoint insert_by (e : A) (l : list A) : list A :=
  match l with
  | [] => [e]
  | e' :: l' => if leb e e' then e :: l else e' :: insert_by e l'
  end.
Definition sort_by (l : list A) : list A := foldr insert_by [] l.

Lemma insert_by_perm e l : insert_by e l ≡ₚ e :: l.
Proof. induction l as [|e' l IH]; cbn; [done|]. destruct (leb e e'); [done|]. by rewrite IH, Permutation_swap. Qed.
Lemma sort_by_perm l : sort_by l ≡ₚ l.
Proof. induction l as [|e l IH]; [done|]. cbn. by rewrite insert_by_perm, IH. Qed.

Context (Htot : forall a b, leb a b = true \/ leb b a = true).
Context (Htr : forall a b c, leb a b = true -> leb b c = true -> leb a c = true).

Lemma insert_by_sorted e l : StronglySorted (fun a b => leb a b = true) l ->
  StronglySorted (fun a b => leb a b = true) (insert_by e l).
Proof using Htot Htr.
  induction 1 as [|e' l Hs IH Hall]; [repeat constructor|]. cbn. destruct (leb e e') eqn:He.
  - constructor; [by constructor|]. constructor; [done|]. eapply Forall_impl; [exact Hall|]. cbn. eauto.
  - constructor; [done|]. rewrite insert_by_perm. constructor; [|done]. destruct (Htot e e'); congruence.
Qed.

Lemma sort_by_sorted l : StronglySorted (fun a b => leb a b = true) (sort_by l).
Proof using Htot Htr. induction l as [|e l IH]; cbn; [constructor|]. by apply insert_by_sorted. Qed.
End sort_by.

Lemma sort_by_fmap {A B} (f : A -> B) (leb : B -> B -> bool) (l : list A) :
  sort_by leb (f <$> l) = f <$> sort_by (fun a b => leb (f a) (f b)) l.
Proof.
  assert (forall e m, insert_by leb (f e) (f <$> m) = f <$> insert_by (fun a b => leb (f a) (f b)) e m) as H.
  { intros e m. induction m as [|e' m IH]; cbn; [done|]. destruct (leb (f e) (f e')); [done|]. cbn. by f_equal. }
  induction l as [|e l IH]; cbn; [done|]. unfold sort_by in IH. by rewrite IH, <- H.
Qed.
