(* ===== verification/SigmaCondition.v ===== *)
(** * [sigil-sigma/src/condition.rs]: the Sigma [condition] mini-language

    Tokens, the recursive-descent parser as a state-passing computation over
    [Parser] (token vector and cursor) with explicit fuel, and the evaluator.
    The grammar of the language is stated as inductive relations; the parser
    is proved to decide exactly that grammar, to terminate, and to invert the
    printer [print]. *)

From stdpp Require Import gmap strings list.
From S2P Require Import Prelude.

(** ** Tokens *)

Inductive Tok : Set :=
  | TAnd | TOr | TNot | TOf | TThem | TAll
  | TNum (n : Z)
  | TIdent (s : string)
  | TLParen | TRParen.

#[export] Instance Tok_eq_dec : EqDecision Tok.
Proof. solve_decision. Defined.

Definition tok_of_word (word : string) : Tok :=
  let lc := to_ascii_lowercase word in
  if bool_decide (lc = "and") then TAnd
  else if bool_decide (lc = "or") then TOr
  else if bool_decide (lc = "not") then TNot
  else if bool_decide (lc = "of") then TOf
  else if bool_decide (lc = "them") then TThem
  else if bool_decide (lc = "all") then TAll
  else if bool_decide (lc = "(") then TLParen
  else if bool_decide (lc = ")") then TRParen
  else match parse_u64 word with
       | Some n => TNum n
       | None => TIdent word
       end.

Definition tokenize (input : string) : result (list Tok) :=
  let spaced := replace_char ")" " ) " (replace_char "(" " ( " input) in
  match tok_of_word <$> split_whitespace spaced with
  | [] => Err Config
  | toks => Ok toks
  end.

(** ** Expressions *)

Inductive Target : Set :=
  | Them
  | Pattern (p : string).

Inductive Expr : Set :=
  | Ref (n : string)
  | Not (e : Expr)
  | And (a b : Expr)
  | Or (a b : Expr)
  | Quant (at_least : option Z) (target : Target).

#[export] Instance Target_eq_dec : EqDecision Target.
Proof. solve_decision. Defined.

#[export] Instance Expr_eq_dec : EqDecision Expr.
Proof. solve_decision. Defined.

(** ** The parser *)

Record Parser : Set := mkParser { toks : list Tok; pos : nat }.

(** A parser action: [None] is an exhausted fuel, proved unreachable below. *)
Definition parserM (A : Type) : Type := Parser -> option (result (A * Parser)).

#[export] Instance parserM_ret : MRet parserM := fun A a p => Some (Ok (a, p)).
#[export] Instance parserM_bind : MBind parserM := fun A B f m p =>
  match m p with
  | Some (Ok (a, p')) => f a p'
  | Some (Err e) => Some (Err e)
  | None => None
  end.
Definition throw {A} (e : error) : parserM A := fun _ => Some (Err e).
Definition no_fuel {A} : parserM A := fun _ => None.

Definition peek : parserM (option Tok) := fun p => Some (Ok (toks p !! pos p, p)).

Definition next : parserM (option Tok) := fun p =>
  Some (Ok (toks p !! pos p, mkParser (toks p) (S (pos p)))).

Definition expect (t : Tok) : parserM unit :=
  o ← next; if decide (o = Some t) then mret tt else throw Config.

Definition parse_target : parserM Target :=
  o ← next;
  match o with
  | Some TThem => mret Them
  | Some (TIdent p) => mret (Pattern p)
  | _ => throw Config
  end.

Fixpoint parse_or (fuel : nat) : parserM Expr :=
  match fuel with
  | O => no_fuel
  | S f => lhs ← parse_and f; or_loop f lhs
  end
(** The [while] loop of [parse_or]. *)
with or_loop (fuel : nat) (lhs : Expr) : parserM Expr :=
  match fuel with
  | O => no_fuel
  | S f =>
      o ← peek;
      match o with
      | Some TOr => _ ← next; rhs ← parse_and f; or_loop f (Or lhs rhs)
      | _ => mret lhs
      end
  end
with parse_and (fuel : nat) : parserM Expr :=
  match fuel with
  | O => no_fuel
  | S f => lhs ← parse_not f; and_loop f lhs
  end
(** The [while] loop of [parse_and]. *)
with and_loop (fuel : nat) (lhs : Expr) : parserM Expr :=
  match fuel with
  | O => no_fuel
  | S f =>
      o ← peek;
      match o with
      | Some TAnd => _ ← next; rhs ← parse_not f; and_loop f (And lhs rhs)
      | _ => mret lhs
      end
  end
with parse_not (fuel : nat) : parserM Expr :=
  match fuel with
  | O => no_fuel
  | S f =>
      o ← peek;
      match o with
      | Some TNot => _ ← next; e ← parse_not f; mret (Not e)
      | _ => parse_primary f
      end
  end
with parse_primary (fuel : nat) : parserM Expr :=
  match fuel with
  | O => no_fuel
  | S f =>
      o ← next;
      match o with
      | Some TLParen => e ← parse_or f; _ ← expect TRParen; mret e
      | Some TAll => _ ← expect TOf; t ← parse_target; mret (Quant None t)
      | Some (TNum n) => _ ← expect TOf; t ← parse_target; mret (Quant (Some n) t)
      | Some (TIdent name) => mret (Ref name)
      | _ => throw Config
      end
  end.

(** Enough fuel for any run on [n] tokens ([parse_fuel_enough]). *)
Definition parse_fuel (n : nat) : nat := 4 * n + 4.

(** [parse] after tokenisation. *)
Definition parse_toks (ts : list Tok) : option (result Expr) :=
  match parse_or (parse_fuel (length ts)) (mkParser ts 0) with
  | Some (Ok (e, p)) =>
      Some (if decide (pos p = length (toks p)) then Ok e else Err Config)
  | Some (Err e) => Some (Err e)
  | None => None
  end.

Definition parse (input : string) : result Expr :=
  ts ← tokenize input;
  match parse_toks ts with
  | Some r => r
  | None => Err Other
  end.

(** ** Evaluation *)

Definition target_hit (t : Target) (name : string) : bool :=
  match t with
  | Them => true
  | Pattern p =>
      match strip_suffix "*" p with
      | Some prefix => starts_with prefix name
      | None => bool_decide (name = p)
      end
  end.

(** [Target::select]. *)
Definition select (t : Target) (names : list string) : list string :=
  filter (fun n => target_hit t n = true) names.

Definition result_of (results : gmap string bool) (n : string) : bool :=
  default false (results !! n).

Fixpoint eval (e : Expr) (results : gmap string bool) (names : list string) : bool :=
  match e with
  | Ref n => result_of results n
  | Not e => negb (eval e results names)
  | And a b => eval a results names && eval b results names
  | Or a b => eval a results names || eval b results names
  | Quant at_least target =>
      let selected := select target names in
      let hits := length (filter (fun n => result_of results n = true) selected) in
      match at_least with
      | None => negb (bool_decide (selected = [])) && bool_decide (hits = length selected)
      | Some k => bool_decide (k <= Z.of_nat hits)%Z
      end
  end.

(** ** The grammar the parser implements *)

Inductive gram_target : list Tok -> Target -> Prop :=
  | g_them : gram_target [TThem] Them
  | g_pattern p : gram_target [TIdent p] (Pattern p).

Inductive gram_or : list Tok -> Expr -> Prop :=
  | g_or1 ts e : gram_and ts e -> gram_or ts e
  | g_or2 ts1 ts2 a b :
      gram_or ts1 a -> gram_and ts2 b -> gram_or (ts1 ++ TOr :: ts2) (Or a b)
with gram_and : list Tok -> Expr -> Prop :=
  | g_and1 ts e : gram_not ts e -> gram_and ts e
  | g_and2 ts1 ts2 a b :
      gram_and ts1 a -> gram_not ts2 b -> gram_and (ts1 ++ TAnd :: ts2) (And a b)
with gram_not : list Tok -> Expr -> Prop :=
  | g_not1 ts e : gram_primary ts e -> gram_not ts e
  | g_not2 ts e : gram_not ts e -> gram_not (TNot :: ts) (Not e)
with gram_primary : list Tok -> Expr -> Prop :=
  | g_paren ts e : gram_or ts e -> gram_primary (TLParen :: ts ++ [TRParen]) e
  | g_all ts t : gram_target ts t -> gram_primary (TAll :: TOf :: ts) (Quant None t)
  | g_num n ts t : gram_target ts t -> gram_primary (TNum n :: TOf :: ts) (Quant (Some n) t)
  | g_ref n : gram_primary [TIdent n] (Ref n).

Scheme gram_or_mind := Minimality for gram_or Sort Prop
  with gram_and_mind := Minimality for gram_and Sort Prop
  with gram_not_mind := Minimality for gram_not Sort Prop
  with gram_primary_mind := Minimality for gram_primary Sort Prop.
Combined Scheme gram_mutind from gram_or_mind, gram_and_mind, gram_not_mind, gram_primary_mind.

(** The minimally parenthesised printer: [lvl] is the binding strength the
    context requires (0 for [or], 1 for [and], 2 for [not], 3 for atoms). *)
Definition print_target (t : Target) : Tok :=
  match t with Them => TThem | Pattern p => TIdent p end.

Definition paren_if (b : bool) (ts : list Tok) : list Tok :=
  if b then TLParen :: ts ++ [TRParen] else ts.

Fixpoint print_toks (lvl : nat) (e : Expr) : list Tok :=
  match e with
  | Ref n => [TIdent n]
  | Quant None t => [TAll; TOf; print_target t]
  | Quant (Some n) t => [TNum n; TOf; print_target t]
  | Not a => paren_if (2 <? lvl)%nat (TNot :: print_toks 2 a)
  | And a b => paren_if (1 <? lvl)%nat (print_toks 1 a ++ TAnd :: print_toks 2 b)
  | Or a b => paren_if (0 <? lvl)%nat (print_toks 0 a ++ TOr :: print_toks 1 b)
  end.

(** ** Cursor lemmas *)

(** [p] stands in front of the tokens [l]. *)
Definition at_rest (p : Parser) (l : list Tok) : Prop := drop (pos p) (toks p) = l.

Definition advance (p : Parser) (n : nat) : Parser := mkParser (toks p) (pos p + n).

Lemma advance_0 p : advance p 0 = p.
Proof. destruct p. unfold advance; cbn. by rewrite Nat.add_0_r. Qed.

Lemma advance_advance p n m : advance (advance p n) m = advance p (n + m).
Proof. unfold advance; cbn. by rewrite Nat.add_assoc. Qed.

Lemma at_rest_head p l : at_rest p l -> toks p !! pos p = head l.
Proof.
  unfold at_rest. intros <-. rewrite head_lookup, lookup_drop. by rewrite Nat.add_0_r.
Qed.

Lemma at_rest_advance p l k : at_rest p (l ++ k) -> at_rest (advance p (length l)) k.
Proof.
  unfold at_rest, advance; cbn. intros H. rewrite <- drop_drop, H.
  by rewrite drop_app_length.
Qed.

Lemma at_rest_cons p t k : at_rest p (t :: k) -> at_rest (advance p 1) k.
Proof. apply (at_rest_advance p [t] k). Qed.

Lemma peek_run p l : at_rest p l -> peek p = Some (Ok (head l, p)).
Proof. intros H. unfold peek. by rewrite (at_rest_head p l). Qed.

Lemma next_run p l : at_rest p l -> next p = Some (Ok (head l, advance p 1)).
Proof.
  intros H. unfold next, advance. rewrite (at_rest_head p l) by done.
  by rewrite Nat.add_1_r.
Qed.

Lemma parser_bind_Ok {A B} (m : parserM A) (f : A -> parserM B) p b q :
  (m ≫= f) p = Some (Ok (b, q)) <->
  exists a p', m p = Some (Ok (a, p')) /\ f a p' = Some (Ok (b, q)).
Proof. unfold mbind, parserM_bind. destruct (m p) as [[[a p']|e]|]; naive_solver. Qed.

Lemma parser_bind_fuel {A B} (m : parserM A) (f : A -> parserM B) p :
  m p <> None ->
  (forall a p', m p = Some (Ok (a, p')) -> f a p' <> None) ->
  (m ≫= f) p <> None.
Proof. unfold mbind, parserM_bind. destruct (m p) as [[[a p']|e]|]; naive_solver. Qed.

Lemma parser_bind_run {A B} (m : parserM A) (f : A -> parserM B) p a p' :
  m p = Some (Ok (a, p')) -> (m ≫= f) p = f a p'.
Proof. unfold mbind, parserM_bind. by intros ->. Qed.

Create HintDb cursor.
#[export] Hint Resolve at_rest_cons at_rest_advance : cursor.

(** [eats p ts q]: the run from [p] to [q] consumed exactly the tokens [ts]. *)
Definition eats (p : Parser) (ts : list Tok) (q : Parser) : Prop :=
  q = advance p (length ts) /\ exists k, at_rest p (ts ++ k).

Lemma eats_nil p : eats p [] p.
Proof. split; [by rewrite advance_0|]. by exists (drop (pos p) (toks p)). Qed.

Lemma eats_app p q r ts1 ts2 : eats p ts1 q -> eats q ts2 r -> eats p (ts1 ++ ts2) r.
Proof.
  intros [-> [k1 H1]] [-> [k2 H2]]. split.
  - by rewrite advance_advance, length_app.
  - exists k2. rewrite <- (app_assoc ts1). apply at_rest_advance in H1 as H3.
    unfold at_rest in *. congruence.
Qed.

Lemma eats_cons p q r t ts : eats p [t] q -> eats q ts r -> eats p (t :: ts) r.
Proof. apply (eats_app p q r [t]). Qed.

Lemma peek_eats p o q : peek p = Some (Ok (o, q)) -> q = p /\ o = toks p !! pos p.
Proof. unfold peek. naive_solver. Qed.

Lemma next_eats p t q : next p = Some (Ok (Some t, q)) -> eats p [t] q.
Proof.
  unfold next. intros [= Hl <-]. split.
  - unfold advance; cbn. by rewrite Nat.add_1_r.
  - exists (drop (S (pos p)) (toks p)). unfold at_rest. by rewrite (drop_S _ t).
Qed.

Lemma next_at p t : toks p !! pos p = Some t -> exists q, next p = Some (Ok (Some t, q)).
Proof. unfold next. intros ->. eauto. Qed.

Lemma peek_next_eats p t o q : toks p !! pos p = Some t -> next p = Some (Ok (o, q)) -> eats p [t] q.
Proof. intros Hl Hn. apply next_eats. unfold next in *. congruence. Qed.

Lemma expect_eats p t u q : expect t p = Some (Ok (u, q)) -> eats p [t] q.
Proof.
  unfold expect. intros (o & p' & Hn & H)%parser_bind_Ok.
  destruct (decide (o = Some t)) as [->|]; [|done].
  apply next_eats in Hn. by injection H as [= _ <-].
Qed.

Lemma parse_target_eats p t q :
  parse_target p = Some (Ok (t, q)) -> exists ts, eats p ts q /\ gram_target ts t.
Proof.
  unfold parse_target. intros (o & p' & Hn & H)%parser_bind_Ok.
  destruct o as [[]|]; try done; injection H as [= <- <-];
    apply next_eats in Hn; eexists; split; eauto; constructor.
Qed.

#[export] Hint Resolve eats_nil eats_app eats_cons peek_next_eats next_eats expect_eats : cursor.

(** ** Soundness: what the parser accepts, the grammar derives *)

Definition sound_at (m : parserM Expr) (G : list Tok -> Expr -> Prop) : Prop :=
  forall p e q, m p = Some (Ok (e, q)) -> exists ts, eats p ts q /\ G ts e.

Definition loop_sound_at (m : Expr -> parserM Expr) (G : list Tok -> Expr -> Prop) : Prop :=
  forall lhs p e q ts0, m lhs p = Some (Ok (e, q)) -> G ts0 lhs ->
    exists ts, eats p ts q /\ G (ts0 ++ ts) e.

(** A chain [head loop] is sound when its two parts are. *)
Lemma chain_sound (m1 : parserM Expr) (loop : Expr -> parserM Expr) (G1 G : list Tok -> Expr -> Prop) :
  (forall ts e, G1 ts e -> G ts e) ->
  sound_at m1 G1 -> loop_sound_at loop G -> sound_at (lhs ← m1; loop lhs) G.
Proof.
  intros HG H1 H2 p e q (a & p' & Ha & Hl)%parser_bind_Ok.
  destruct (H1 _ _ _ Ha) as (ts1 & He1 & Hg1).
  destruct (H2 _ _ _ _ _ Hl (HG _ _ Hg1)) as (ts2 & He2 & Hg2).
  eauto with cursor.
Qed.

(** One turn of the [while] loop over the operator token [op]. *)
Lemma loop_sound (op : Tok) (mk : Expr -> Expr -> Expr) (m : parserM Expr)
    (loop : Expr -> parserM Expr) (G1 G : list Tok -> Expr -> Prop) lhs p e q ts0 :
  (forall ts1 ts2 a b, G ts1 a -> G1 ts2 b -> G (ts1 ++ op :: ts2) (mk a b)) ->
  sound_at m G1 -> loop_sound_at loop G ->
  toks p !! pos p = Some op ->
  (_ ← next; rhs ← m; loop (mk lhs rhs)) p = Some (Ok (e, q)) ->
  G ts0 lhs -> exists ts, eats p ts q /\ G (ts0 ++ ts) e.
Proof.
  intros HG Hm Hl Hop (o & p1 & Hn & (b & p2 & Hb & Hrest)%parser_bind_Ok)%parser_bind_Ok Hg0.
  destruct (Hm _ _ _ Hb) as (ts1 & He1 & Hg1).
  destruct (Hl _ _ _ _ (ts0 ++ op :: ts1) Hrest) as (ts2 & He2 & Hg2); [by apply HG|].
  exists (op :: ts1 ++ ts2). split; [eauto with cursor|].
  by rewrite <- (app_assoc ts0) in Hg2.
Qed.

Lemma parse_sound f :
  sound_at (parse_or f) gram_or /\ loop_sound_at (or_loop f) gram_or /\
  sound_at (parse_and f) gram_and /\ loop_sound_at (and_loop f) gram_and /\
  sound_at (parse_not f) gram_not /\ sound_at (parse_primary f) gram_primary.
Proof.
  induction f as [|f (IHo & IHol & IHa & IHal & IHn & IHp)]; [done|].
  split_and!.
  - apply (chain_sound _ _ gram_and); auto using gram_or.
  - intros lhs p e q ts0 (o & p1 & [-> ->]%peek_eats & H)%parser_bind_Ok Hg.
    destruct (toks p !! pos p) as [t|] eqn:Ht; [destruct t|].
    2: { by apply (loop_sound TOr Or (parse_and f) (or_loop f) gram_and gram_or lhs p e q ts0);
           auto using gram_or. }
    all: injection H as [= <- <-]; exists []; rewrite app_nil_r; auto with cursor.
  - apply (chain_sound _ _ gram_not); auto using gram_and.
  - intros lhs p e q ts0 (o & p1 & [-> ->]%peek_eats & H)%parser_bind_Ok Hg.
    destruct (toks p !! pos p) as [t|] eqn:Ht; [destruct t|].
    1: { by apply (loop_sound TAnd And (parse_not f) (and_loop f) gram_not gram_and lhs p e q ts0);
           auto using gram_and. }
    all: injection H as [= <- <-]; exists []; rewrite app_nil_r; auto with cursor.
  - intros p e q (o & p1 & [-> ->]%peek_eats & H)%parser_bind_Ok.
    destruct (decide (toks p !! pos p = Some TNot)) as [Ht|Ht].
    + rewrite Ht in H.
      apply parser_bind_Ok in H as (o & p1 & Hn & (a & p2 & Ha & [= <- <-])%parser_bind_Ok).
      destruct (IHn _ _ _ Ha) as (ts & He & Hg).
      exists (TNot :: ts); split; [eauto with cursor|by constructor].
    + assert (Hp : parse_primary f p = Some (Ok (e, q))) by
        (destruct (toks p !! pos p) as [[]|]; done).
      destruct (IHp _ _ _ Hp) as (ts & He & Hg). eauto using gram_not.
  - intros p e q (o & p1 & Hn & H)%parser_bind_Ok.
    destruct o as [[]|]; try done; apply next_eats in Hn.
    + apply parser_bind_Ok in H as (u & p2 & Hu & (t & p3 & Ht & [= <- <-])%parser_bind_Ok).
      destruct (parse_target_eats _ _ _ Ht) as (ts & He & Hg).
      exists (TAll :: TOf :: ts). split; [eauto 6 with cursor|by constructor].
    + apply parser_bind_Ok in H as (u & p2 & Hu & (t & p3 & Ht & [= <- <-])%parser_bind_Ok).
      destruct (parse_target_eats _ _ _ Ht) as (ts & He & Hg).
      exists (TNum n :: TOf :: ts). split; [eauto 6 with cursor|by constructor].
    + injection H as [= <- <-]. eexists; split; [done|constructor].
    + apply parser_bind_Ok in H as (a & p2 & Ha & (u & p3 & Hu & [= <- <-])%parser_bind_Ok).
      destruct (IHo _ _ _ Ha) as (ts & He & Hg).
      exists (TLParen :: ts ++ [TRParen]). split; [eauto 6 with cursor|by constructor].
Qed.

(** ** Termination: [parse_fuel] is always enough *)

(** Tokens left in front of the cursor. *)
Definition rem (p : Parser) : nat := length (toks p) - pos p.

Lemma eats_rem p ts q : eats p ts q -> rem q + length ts = rem p /\ toks q = toks p.
Proof.
  intros [-> [k Hk]]. unfold at_rest in Hk. apply (f_equal length) in Hk.
  rewrite length_drop, length_app in Hk. unfold rem, advance; cbn. split; [lia|done].
Qed.

Lemma gram_nonempty :
  (forall ts e, gram_or ts e -> 0 < length ts) /\ (forall ts e, gram_and ts e -> 0 < length ts) /\
  (forall ts e, gram_not ts e -> 0 < length ts) /\ (forall ts e, gram_primary ts e -> 0 < length ts).
Proof.
  apply (gram_mutind (fun ts _ => 0 < length ts) (fun ts _ => 0 < length ts)
           (fun ts _ => 0 < length ts) (fun ts _ => 0 < length ts));
    intros; cbn; rewrite ?length_app; lia.
Qed.

(** Progress of a successful run, as a bound on the tokens left. *)
Lemma sound_progress m G p e q :
  sound_at m G -> (forall ts e, G ts e -> 0 < length ts) ->
  m p = Some (Ok (e, q)) -> rem q < rem p.
Proof.
  intros Hm Hne H. destruct (Hm _ _ _ H) as (ts & He & Hg).
  apply eats_rem in He as [He _]. apply Hne in Hg. lia.
Qed.

Lemma expect_fuel t p : expect t p <> None.
Proof. unfold expect, mbind, parserM_bind, next. by case_decide. Qed.

Lemma parse_target_fuel p : parse_target p <> None.
Proof. unfold parse_target, mbind, parserM_bind, next. by destruct (toks p !! pos p) as [[]|]. Qed.

Lemma target_clause_fuel (mk : Target -> Expr) p : (_ ← expect TOf; t ← parse_target; mret (mk t)) p <> None.
Proof.
  apply parser_bind_fuel; [apply expect_fuel|]. intros _ q _.
  apply parser_bind_fuel; [apply parse_target_fuel|done].
Qed.

(** The two parts of a chain [head loop], and one turn of a loop. *)
Lemma chain_fuel (m : parserM Expr) (loop : Expr -> parserM Expr) G p :
  sound_at m G -> (forall ts e, G ts e -> 0 < length ts) ->
  m p <> None -> (forall a q, rem q < rem p -> loop a q <> None) ->
  (lhs ← m; loop lhs) p <> None.
Proof.
  intros Hm Hne Hp Hl. apply parser_bind_fuel; [done|]. intros a q Ha.
  apply Hl. by apply (sound_progress m G p a q).
Qed.

Lemma next_fuel {A} (m : parserM A) p t :
  toks p !! pos p = Some t -> (forall q, rem q < rem p -> m q <> None) ->
  (_ ← next; m) p <> None.
Proof.
  intros Ht H. apply parser_bind_fuel; [done|].
  intros o q [Hn _]%(peek_next_eats _ _ _ _ Ht)%eats_rem. apply H. cbn in Hn. lia.
Qed.

Lemma peek_fuel {A} (k : option Tok -> parserM A) p :
  k (toks p !! pos p) p <> None -> (o ← peek; k o) p <> None.
Proof. intros H. apply parser_bind_fuel; [done|]. by intros o q [-> ->]%peek_eats. Qed.

Lemma parse_fuel_enough f p :
  (4 * rem p + 4 <= f -> parse_or f p <> None) /\
  (4 * rem p + 3 <= f -> forall lhs, or_loop f lhs p <> None) /\
  (4 * rem p + 3 <= f -> parse_and f p <> None) /\
  (4 * rem p + 2 <= f -> forall lhs, and_loop f lhs p <> None) /\
  (4 * rem p + 2 <= f -> parse_not f p <> None) /\
  (4 * rem p + 1 <= f -> parse_primary f p <> None).
Proof.
  destruct gram_nonempty as (NEo & NEa & NEn & NEp).
  revert p. induction f as [|f IH]; intros p; [split_and!; lia|].
  destruct (parse_sound f) as (So & Sol & Sa & Sal & Sn & Sp).
  split_and!; intros Hf; [|intros lhs| |intros lhs| |];
    cbn [parse_or or_loop parse_and and_loop parse_not parse_primary].
  - apply (chain_fuel _ _ _ _ Sa NEa); [|intros a q ?]; apply IH; lia.
  - apply peek_fuel. destruct (toks p !! pos p) as [[]|] eqn:Ht; try done.
    apply (next_fuel _ _ _ Ht). intros q Hq.
    apply (chain_fuel _ (fun b => or_loop f (Or lhs b)) _ _ Sa NEa); [|intros a r ?]; apply IH; lia.
  - apply (chain_fuel _ _ _ _ Sn NEn); [|intros a q ?]; apply IH; lia.
  - apply peek_fuel. destruct (toks p !! pos p) as [[]|] eqn:Ht; try done.
    apply (next_fuel _ _ _ Ht). intros q Hq.
    apply (chain_fuel _ (fun b => and_loop f (And lhs b)) _ _ Sn NEn); [|intros a r ?]; apply IH; lia.
  - apply peek_fuel. destruct (toks p !! pos p) as [[]|] eqn:Ht; try (apply IH; lia).
    apply (next_fuel _ _ _ Ht). intros q Hq.
    apply parser_bind_fuel; [apply IH; lia|done].
  - apply parser_bind_fuel; [done|]. intros o q Hn.
    destruct o as [[]|]; try done; try apply target_clause_fuel.
    apply next_eats, eats_rem in Hn as [Hn _]; cbn in Hn.
    apply parser_bind_fuel; [apply IH; lia|]. intros a r _.
    apply parser_bind_fuel; [apply expect_fuel|done].
Qed.

(** ** Completeness: what the grammar derives, the parser returns *)

(** With enough fuel, [m] run on [p] gives the expression [e] at [q]. *)
Definition Runs (m : nat -> parserM Expr) (p : Parser) (e : Expr) (q : Parser) : Prop :=
  exists f0, forall f, f0 <= f -> m f p = Some (Ok (e, q)).

Lemma Runs_chain (m : nat -> parserM Expr) (loop : nat -> Expr -> parserM Expr) body p a p' e q :
  (forall f, body (S f) p = (x ← m f; loop f x) p) ->
  Runs m p a p' -> Runs (fun f => loop f a) p' e q -> Runs body p e q.
Proof.
  intros Hb [f1 H1] [f2 H2]. exists (S (f1 `max` f2)). intros [|f] Hf; [lia|].
  rewrite Hb. rewrite (parser_bind_run _ _ _ a p') by (apply H1; lia). apply H2. lia.
Qed.

Lemma Runs_ret body p e q :
  (forall f, body (S f) p = Some (Ok (e, q))) -> Runs body p e q.
Proof. intros H. exists 1. intros [|f] Hf; [lia|done]. Qed.

Lemma peek_bind {A} (k : option Tok -> parserM A) p l :
  at_rest p l -> (o ← peek; k o) p = k (head l) p.
Proof. intros H. by rewrite (parser_bind_run _ _ _ _ _ (peek_run _ _ H)). Qed.

Lemma next_bind {A} (k : option Tok -> parserM A) p l :
  at_rest p l -> (o ← next; k o) p = k (head l) (advance p 1).
Proof. intros H. by rewrite (parser_bind_run _ _ _ _ _ (next_run _ _ H)). Qed.

Lemma expect_bind {A} (k : unit -> parserM A) p t l :
  at_rest p (t :: l) -> (u ← expect t; k u) p = k tt (advance p 1).
Proof.
  intros H. apply parser_bind_run. unfold expect. rewrite (next_bind _ _ _ H). cbn.
  by rewrite decide_True.
Qed.

Lemma parse_target_run p ts t k :
  gram_target ts t -> at_rest p (ts ++ k) -> parse_target p = Some (Ok (t, advance p (length ts))).
Proof. intros [|s] H; unfold parse_target; rewrite (next_bind _ _ _ H); done. Qed.

Lemma target_clause_run (mk : Target -> Expr) p ts t k :
  gram_target ts t -> at_rest p (TOf :: ts ++ k) ->
  (_ ← expect TOf; t ← parse_target; mret (mk t)) p =
    Some (Ok (mk t, advance p (S (length ts)))).
Proof.
  intros Hg H. rewrite (expect_bind _ _ _ _ H).
  rewrite (parser_bind_run _ _ _ _ _ (parse_target_run _ _ _ _ Hg (at_rest_cons _ _ _ H))).
  by rewrite advance_advance.
Qed.

(** The [while] loops stop in front of a token that is not theirs. *)
Lemma or_loop_stop lhs p k :
  at_rest p k -> head k <> Some TOr -> Runs (fun f => or_loop f lhs) p lhs p.
Proof.
  intros H Hk. apply Runs_ret. intros f. cbn. rewrite (peek_bind _ _ _ H).
  by destruct k as [|[] k].
Qed.

Lemma and_loop_stop lhs p k :
  at_rest p k -> head k <> Some TAnd -> Runs (fun f => and_loop f lhs) p lhs p.
Proof.
  intros H Hk. apply Runs_ret. intros f. cbn. rewrite (peek_bind _ _ _ H).
  by destruct k as [|[] k].
Qed.

Lemma or_loop_more lhs p k b p' e q :
  at_rest p (TOr :: k) -> Runs parse_and (advance p 1) b p' ->
  Runs (fun f => or_loop f (Or lhs b)) p' e q -> Runs (fun f => or_loop f lhs) p e q.
Proof.
  intros H [f1 H1] [f2 H2]. exists (S (f1 `max` f2)). intros [|f] Hf; [lia|].
  cbn. rewrite (peek_bind _ _ _ H). cbn. rewrite (next_bind _ _ _ H).
  rewrite (parser_bind_run _ _ _ b p') by (apply H1; lia). apply H2. lia.
Qed.

Lemma and_loop_more lhs p k b p' e q :
  at_rest p (TAnd :: k) -> Runs parse_not (advance p 1) b p' ->
  Runs (fun f => and_loop f (And lhs b)) p' e q -> Runs (fun f => and_loop f lhs) p e q.
Proof.
  intros H [f1 H1] [f2 H2]. exists (S (f1 `max` f2)). intros [|f] Hf; [lia|].
  cbn. rewrite (peek_bind _ _ _ H). cbn. rewrite (next_bind _ _ _ H).
  rewrite (parser_bind_run _ _ _ b p') by (apply H1; lia). apply H2. lia.
Qed.

(** Completeness at each level; the left-recursive levels are stated with the
    rest of their loop as a continuation. *)
Definition compl_or (ts : list Tok) (a : Expr) : Prop := forall p k e q,
  at_rest p (ts ++ k) -> head k <> Some TAnd ->
  Runs (fun f => or_loop f a) (advance p (length ts)) e q -> Runs parse_or p e q.
Definition compl_and (ts : list Tok) (a : Expr) : Prop := forall p k e q,
  at_rest p (ts ++ k) ->
  Runs (fun f => and_loop f a) (advance p (length ts)) e q -> Runs parse_and p e q.
Definition compl_not (ts : list Tok) (a : Expr) : Prop := forall p k,
  at_rest p (ts ++ k) -> Runs parse_not p a (advance p (length ts)).
Definition compl_primary (ts : list Tok) (a : Expr) : Prop := forall p k,
  at_rest p (ts ++ k) ->
  (exists t ts', ts = t :: ts' /\ t <> TNot) /\ Runs parse_primary p a (advance p (length ts)).

Lemma compl_and_run ts a p k :
  compl_and ts a -> at_rest p (ts ++ k) -> head k <> Some TAnd ->
  Runs parse_and p a (advance p (length ts)).
Proof.
  intros Hc H Hk. apply (Hc p k); [done|]. apply (and_loop_stop _ _ k); [|done].
  by apply at_rest_advance.
Qed.

Lemma compl_paren ts e : compl_or ts e -> compl_primary (TLParen :: ts ++ [TRParen]) e.
Proof.
  intros Hc p k H. split; [by eauto|]. cbn in H. rewrite <- (app_assoc ts) in H. cbn in H.
  assert (Hr : at_rest (advance p 1) (ts ++ TRParen :: k)) by eauto with cursor.
  destruct (Hc (advance p 1) (TRParen :: k) e (advance (advance p 1) (length ts))) as [f0 Hf0];
    [done|done| |].
  { apply (or_loop_stop _ _ (TRParen :: k)); [by apply at_rest_advance|done]. }
  exists (S f0). intros [|f] Hf; [lia|]. cbn. rewrite (next_bind _ _ _ H). cbn.
  rewrite (parser_bind_run _ _ _ _ _ (Hf0 f ltac:(lia))).
  rewrite (expect_bind _ _ TRParen k) by (by apply at_rest_advance).
  rewrite !advance_advance, length_app; cbn. done.
Qed.

Lemma gram_complete :
  (forall ts e, gram_or ts e -> compl_or ts e) /\ (forall ts e, gram_and ts e -> compl_and ts e) /\
  (forall ts e, gram_not ts e -> compl_not ts e) /\
  (forall ts e, gram_primary ts e -> compl_primary ts e).
Proof.
  apply gram_mutind.
  - intros ts a _ IH p k e q H Hk Hl. eapply Runs_chain; [done| |done].
    by apply (compl_and_run ts a p k).
  - intros ts1 ts2 a b _ IH1 _ IH2 p k e q H Hk Hl. rewrite <- (app_assoc ts1) in H.
    apply (IH1 p (TOr :: ts2 ++ k)); [done|done|]. apply at_rest_advance in H.
    apply (or_loop_more a _ (ts2 ++ k) b (advance p (length (ts1 ++ TOr :: ts2)))); [done| |done].
    eapply compl_and_run in IH2; [|eauto with cursor|done].
    rewrite !advance_advance in *. by rewrite length_app, <- Nat.add_assoc in *.
  - intros ts a _ IH p k e q H Hl. eapply Runs_chain; [done| |done]. by apply (IH p k).
  - intros ts1 ts2 a b _ IH1 _ IH2 p k e q H Hl. rewrite <- (app_assoc ts1) in H.
    apply (IH1 p (TAnd :: ts2 ++ k)); [done|]. apply at_rest_advance in H.
    apply (and_loop_more a _ (ts2 ++ k) b (advance p (length (ts1 ++ TAnd :: ts2)))); [done| |done].
    specialize (IH2 (advance (advance p (length ts1)) 1) k (at_rest_cons _ _ _ H)).
    rewrite !advance_advance in *. by rewrite length_app, <- Nat.add_assoc in *.
  - intros ts e _ IH p k H. destruct (IH p k H) as [(t & ts' & -> & Ht) [f0 Hf0]].
    exists (S f0). intros [|f] Hf; [lia|]. cbn. rewrite (peek_bind _ _ _ H).
    cbn. destruct t; try done; apply Hf0; lia.
  - intros ts e _ IH p k H. destruct (IH (advance p 1) k) as [f0 Hf0]; [eauto with cursor|].
    exists (S f0). intros [|f] Hf; [lia|]. cbn. rewrite (peek_bind _ _ _ H). cbn.
    rewrite (next_bind _ _ _ H).
    rewrite (parser_bind_run _ _ _ _ _ (Hf0 f ltac:(lia))). by rewrite advance_advance.
  - intros ts e _ IH. by apply compl_paren.
  - intros ts t Hg p k H. split; [by eauto|]. apply Runs_ret. intros f. cbn.
    rewrite (next_bind _ _ _ H). cbn. rewrite (target_clause_run (Quant None) _ _ _ k Hg); [|eauto with cursor].
    by rewrite advance_advance.
  - intros n ts t Hg p k H. split; [by eauto|]. apply Runs_ret. intros f. cbn.
    rewrite (next_bind _ _ _ H). cbn. rewrite (target_clause_run (Quant (Some n)) _ _ _ k Hg); [|eauto with cursor].
    by rewrite advance_advance.
  - intros n p k H. split; [by eauto|]. apply Runs_ret. intros f. cbn. by rewrite (next_bind _ _ _ H).
Qed.

(** More fuel does not change a result. *)
Definition extends {A} (m m' : parserM A) : Prop := forall p r, m p = Some r -> m' p = Some r.

Lemma extends_refl {A} (m : parserM A) : extends m m.
Proof. by intros p r. Qed.

Lemma extends_bind {A B} (m m' : parserM A) (k k' : A -> parserM B) :
  extends m m' -> (forall a, extends (k a) (k' a)) -> extends (a ← m; k a) (a ← m'; k' a).
Proof.
  intros Hm Hk p r. unfold mbind, parserM_bind.
  destruct (m p) as [[[a q]|e]|] eqn:E; [|by rewrite (Hm _ _ E)|done].
  rewrite (Hm _ _ E). apply Hk.
Qed.

Lemma fuel_mono f :
  extends (parse_or f) (parse_or (S f)) /\
  (forall lhs, extends (or_loop f lhs) (or_loop (S f) lhs)) /\
  extends (parse_and f) (parse_and (S f)) /\
  (forall lhs, extends (and_loop f lhs) (and_loop (S f) lhs)) /\
  extends (parse_not f) (parse_not (S f)) /\
  extends (parse_primary f) (parse_primary (S f)).
Proof.
  induction f as [|f (IHo & IHol & IHa & IHal & IHn & IHp)]; [by split_and!|].
  split_and!; [|intros lhs| |intros lhs| |]; apply extends_bind; auto using @extends_refl.
  - intros [[]|]; auto using @extends_refl, @extends_bind.
  - intros [[]|]; auto using @extends_refl, @extends_bind.
  - intros [[]|]; auto using @extends_refl, @extends_bind.
  - intros [[]|]; auto using @extends_refl, @extends_bind.
Qed.

Lemma parse_or_mono f g p r : f <= g -> parse_or f p = Some r -> parse_or g p = Some r.
Proof. induction 1 as [|g _ IH]; [done|]. intros H. by apply fuel_mono, IH. Qed.

Lemma at_rest_start ts : at_rest (mkParser ts 0) ts.
Proof. done. Qed.

(** Every failure of the parser is a [Config] error. *)
Definition only_config {A} (m : parserM A) : Prop := forall p e, m p = Some (Err e) -> e = Config.

Lemma only_config_bind {A B} (m : parserM A) (k : A -> parserM B) :
  only_config m -> (forall a, only_config (k a)) -> only_config (a ← m; k a).
Proof.
  intros Hm Hk p e. unfold mbind, parserM_bind.
  destruct (m p) as [[[a q]|e']|] eqn:E; [apply Hk| |done]. intros [= ->]. by apply (Hm p).
Qed.

Lemma only_config_ret {A} (a : A) : only_config (mret a).
Proof. by intros p e. Qed.

Lemma only_config_throw {A} : only_config (@throw A Config).
Proof. by intros p e [= <-]. Qed.

Lemma only_config_expect t : only_config (expect t).
Proof. apply only_config_bind; [by intros p e|]. intros o. by case_decide; intros ? ? [= <-]. Qed.

Lemma only_config_target : only_config parse_target.
Proof. apply only_config_bind; [by intros p e|]. by intros [[]|] p e [= <-]. Qed.

Create HintDb config_only.
#[export] Hint Resolve only_config_bind only_config_ret only_config_throw only_config_expect
  only_config_target : config_only.

Lemma parse_errors f :
  only_config (parse_or f) /\ (forall lhs, only_config (or_loop f lhs)) /\
  only_config (parse_and f) /\ (forall lhs, only_config (and_loop f lhs)) /\
  only_config (parse_not f) /\ only_config (parse_primary f).
Proof.
  assert (Hpk : only_config peek) by by intros p e.
  assert (Hnx : only_config next) by by intros p e.
  induction f as [|f (IHo & IHol & IHa & IHal & IHn & IHp)]; [by split_and!|].
  split_and!; [|intros lhs| |intros lhs| |]; apply only_config_bind; auto;
    intros [[]|]; auto 10 with config_only.
Qed.

Lemma parse_toks_some ts : exists r, parse_toks ts = Some r.
Proof.
  unfold parse_toks.
  destruct (parse_or _ _) as [[[e p]|e]|] eqn:E; eauto.
  exfalso. revert E. apply parse_fuel_enough. unfold rem, parse_fuel; cbn. lia.
Qed.

Lemma parse_toks_gram ts e : parse_toks ts = Some (Ok e) -> gram_or ts e.
Proof.
  unfold parse_toks. intros H.
  destruct (parse_or _ _) as [[[e' p]|]|] eqn:E; [|done|done].
  case_decide as Hp; [|done]. injection H as [= <-].
  apply parse_sound in E as (ts' & [-> [k Hk]] & Hg). change (ts = ts' ++ k) in Hk. cbn in Hp.
  rewrite Hk, length_app in *. destruct k; [|cbn in Hp; lia]. by rewrite app_nil_r.
Qed.

Lemma gram_parse_toks ts e : gram_or ts e -> parse_toks ts = Some (Ok e).
Proof.
  intros Hg. pose proof (proj1 gram_complete _ _ Hg) as Hc.
  destruct (Hc (mkParser ts 0) [] e (advance (mkParser ts 0) (length ts))) as [f0 Hf0];
    [unfold at_rest; cbn; by rewrite app_nil_r|done| |].
  { apply (or_loop_stop _ _ []); [|done]. apply at_rest_advance. by rewrite app_nil_r. }
  destruct (parse_toks_some ts) as [r Hr]. rewrite Hr. revert Hr. unfold parse_toks.
  destruct (parse_or (parse_fuel _) _) as [r'|] eqn:E; [|done].
  apply (parse_or_mono _ (f0 `max` parse_fuel (length ts))) in E; [|lia].
  rewrite (Hf0 _ (Nat.le_max_l _ _)) in E. injection E as [= <-]. cbn.
  rewrite decide_True by done. by intros [= <-].
Qed.

Lemma parse_toks_iff ts e : parse_toks ts = Some (Ok e) <-> gram_or ts e.
Proof. split; [apply parse_toks_gram|apply gram_parse_toks]. Qed.

(** ** The printer *)

Lemma print_target_gram t : gram_target [print_target t] t.
Proof. destruct t; constructor. Qed.

Lemma print_gram e :
  gram_or (print_toks 0 e) e /\ gram_and (print_toks 1 e) e /\
  gram_not (print_toks 2 e) e /\ gram_primary (print_toks 3 e) e.
Proof.
  pose proof print_target_gram as Ht.
  induction e as [n|e (IH0 & IH1 & IH2 & IH3)|a (A0 & A1 & A2 & A3) b (B0 & B1 & B2 & B3)
                 |a (A0 & A1 & A2 & A3) b (B0 & B1 & B2 & B3)|[k|] t];
    cbn; split_and!;
    repeat first
      [ apply Ht | assumption
      | match goal with
        | |- gram_or (_ ++ TOr :: _) _ => apply g_or2
        | |- gram_and (_ ++ TAnd :: _) _ => apply g_and2
        | |- gram_not (TNot :: _) _ => apply g_not2
        | |- gram_primary (TLParen :: TNot :: ?l ++ [TRParen]) _ => apply (g_paren (TNot :: l))
        | |- gram_primary (TLParen :: _ ++ [TRParen]) _ => apply g_paren
        | |- gram_primary [TIdent _] _ => apply g_ref
        | |- gram_primary [TAll; TOf; ?t] _ => apply (g_all [t])
        | |- gram_primary [TNum _; TOf; ?t] _ => apply (g_num _ [t])
        | |- gram_or _ _ => apply g_or1
        | |- gram_and _ _ => apply g_and1
        | |- gram_not _ _ => apply g_not1
        end ].
Qed.

(** ** From tokens to text and back *)

Definition tok_word (t : Tok) : string :=
  match t with
  | TAnd => "and" | TOr => "or" | TNot => "not" | TOf => "of" | TThem => "them" | TAll => "all"
  | TNum n => show_u64 n
  | TIdent s => s
  | TLParen => "(" | TRParen => ")"
  end.

(** The canonical text of an expression. *)
Definition print (e : Expr) : string := join " " (tok_word <$> print_toks 0 e).

Definition no_paren (c : ascii) : bool :=
  negb (bool_decide ("("%char = c)) && negb (bool_decide (")"%char = c)).

(** A name that survives tokenisation: non-empty ASCII without white space or
    parentheses, and neither a keyword nor a number. *)
Definition ident_ok (s : string) : bool :=
  negb (is_empty_str s) && all_bytes word_byte s && all_bytes no_paren s &&
  bool_decide (tok_of_word s = TIdent s).

Definition target_ok (t : Target) : bool :=
  match t with Them => true | Pattern p => ident_ok p end.

Fixpoint expr_ok (e : Expr) : bool :=
  match e with
  | Ref n => ident_ok n
  | Not a => expr_ok a
  | And a b | Or a b => expr_ok a && expr_ok b
  | Quant k t =>
      target_ok t && match k with None => true | Some n => bool_decide (0 <= n <= u64_max)%Z end
  end.

Definition tok_ok (t : Tok) : bool :=
  match t with
  | TIdent s => ident_ok s
  | TNum n => bool_decide (0 <= n <= u64_max)%Z
  | _ => true
  end.

Definition spaced (s : string) : string := replace_char ")" " ) " (replace_char "(" " ( " s).

Lemma spaced_app s t : spaced (s +:+ t) = spaced s +:+ spaced t.
Proof. unfold spaced. by rewrite !replace_char_app. Qed.

Lemma spaced_plain w : all_bytes no_paren w = true -> spaced w = w.
Proof.
  intros H. unfold spaced. rewrite (replace_char_absent "("), (replace_char_absent ")"); [done| |];
    apply (all_bytes_impl no_paren); try done; intros c [? ?]%andb_true_iff; done.
Qed.

Lemma digit_word_byte c : is_ascii_digit c = true -> word_byte c = true /\ no_paren c = true.
Proof.
  unfold is_ascii_digit. rewrite andb_true_iff, !N.leb_le. intros Hc.
  rewrite <- (ascii_N_embedding c). revert Hc. generalize (N_of_ascii c). intros n Hn.
  assert (n = 48 \/ n = 49 \/ n = 50 \/ n = 51 \/ n = 52 \/ n = 53 \/ n = 54 \/ n = 55 \/ n = 56 \/ n = 57)%N as
    [->|[->|[->|[->|[->|[->|[->|[->|[->| ->]]]]]]]]] by lia; done.
Qed.

(** A word that is neither parenthesis is plain. *)
Lemma tok_word_plain t :
  tok_ok t = true -> t <> TLParen -> t <> TRParen ->
  is_empty_str (tok_word t) = false /\ all_bytes word_byte (tok_word t) = true /\
  all_bytes no_paren (tok_word t) = true.
Proof.
  intros Hok H1 H2. destruct t as [| | | | | |n|s| |]; try done; cbn [tok_ok tok_word] in Hok |- *.
  - rewrite bool_decide_eq_true in Hok. split_and!.
    + destruct (show_u64_head n) as (d & r & -> & _); [lia|done].
    + apply (all_bytes_impl is_ascii_digit); [by apply digit_word_byte|]. apply all_bytes_show; [lia|done].
    + apply (all_bytes_impl is_ascii_digit); [by apply digit_word_byte|]. apply all_bytes_show; [lia|done].
  - unfold ident_ok in Hok. rewrite !andb_true_iff, negb_true_iff in Hok. tauto.
Qed.

Lemma tok_of_tok_word t : tok_ok t = true -> tok_of_word (tok_word t) = t.
Proof.
  intros Hok. destruct t as [| | | | | |n|s| |]; try done; cbn [tok_ok tok_word] in Hok |- *.
  - rewrite bool_decide_eq_true in Hok. unfold tok_of_word. rewrite parse_show_u64 by done.
    destruct (show_u64_head n) as (d & r & -> & Hd); [lia|].
    destruct (digit_ascii_cases d Hd) as [->|[->|[->|[->|[->|[->|[->|[->|[->| ->]]]]]]]]];
      by rewrite !bool_decide_false by discriminate.
  - unfold ident_ok in Hok. rewrite !andb_true_iff, bool_decide_eq_true in Hok. tauto.
Qed.

Lemma flush_word_ne w : is_empty_str w = false -> flush_word w = [w].
Proof. unfold flush_word. by intros ->. Qed.

(** Splitting the spaced text of a token in front of a separator. *)
Lemma split_tok t r :
  tok_ok t = true ->
  split_ws (spaced (tok_word t) +:+ String " " r) 0 EmptyString =
  tok_word t :: split_ws r 0 EmptyString.
Proof.
  intros Hok. destruct (decide (t = TLParen)) as [->|H1]; [done|].
  destruct (decide (t = TRParen)) as [->|H2]; [done|].
  destruct (tok_word_plain t Hok H1 H2) as (Hne & Hb & Hp).
  rewrite spaced_plain, split_ws_word, split_ws_space by done.
  rewrite string_app_nil_l. by rewrite flush_word_ne.
Qed.

Lemma split_last_tok t :
  tok_ok t = true -> split_ws (spaced (tok_word t)) 0 EmptyString = [tok_word t].
Proof.
  intros Hok. destruct (decide (t = TLParen)) as [->|H1]; [done|].
  destruct (decide (t = TRParen)) as [->|H2]; [done|].
  destruct (tok_word_plain t Hok H1 H2) as (Hne & Hb & Hp).
  rewrite spaced_plain by done. rewrite <- (string_app_nil_r (tok_word t)) at 1.
  rewrite split_ws_word by done. cbn. by rewrite flush_word_ne.
Qed.

Lemma split_toks ts :
  Forall (fun t => tok_ok t = true) ts ->
  split_whitespace (spaced (join " " (tok_word <$> ts))) = tok_word <$> ts.
Proof.
  unfold split_whitespace. induction 1 as [|t ts Ht Hts IH]; [done|].
  destruct ts as [|t' ts].
  - by apply split_last_tok.
  - rewrite fmap_cons. change (join " " (tok_word t :: (tok_word <$> t' :: ts))) with
      (tok_word t +:+ " " +:+ join " " (tok_word <$> t' :: ts)).
    rewrite !spaced_app. change (spaced " " +:+ ?s) with (String " " s).
    rewrite split_tok by done. by f_equal.
Qed.

Lemma tokenize_print ts :
  ts <> [] -> Forall (fun t => tok_ok t = true) ts ->
  tokenize (join " " (tok_word <$> ts)) = Ok ts.
Proof.
  intros Hne Hok. unfold tokenize. fold (spaced (join " " (tok_word <$> ts))).
  rewrite split_toks by done. rewrite <- list_fmap_compose.
  assert (Heq : (tok_of_word ∘ tok_word) <$> ts = ts).
  { rewrite <- (list_fmap_id ts) at 2. apply Forall_fmap_ext_1.
    eapply Forall_impl; [done|]. intros t. apply tok_of_tok_word. }
  rewrite Heq. by destruct ts.
Qed.

Lemma print_toks_ok lvl e :
  expr_ok e = true -> Forall (fun t => tok_ok t = true) (print_toks lvl e).
Proof.
  assert (Hp : forall b ts, Forall (fun t => tok_ok t = true) ts ->
    Forall (fun t => tok_ok t = true) (paren_if b ts)).
  { intros [] ts H; cbn; [|done]. constructor; [done|]. apply Forall_app; auto. }
  revert lvl. induction e as [n|e IH|a IHa b IHb|a IHa b IHb|[k|] t]; intros lvl; cbn;
    rewrite ?andb_true_iff; intros; destruct_and?; try apply Hp;
    repeat first [apply Forall_app; split | constructor]; auto; by destruct t.
Qed.

Lemma print_toks_ne e : print_toks 0 e <> [].
Proof.
  intros H. destruct (print_gram e) as [Hg _]. rewrite H in Hg.
  apply gram_nonempty in Hg. cbn in Hg. lia.
Qed.

(** ** Meaning of a condition *)

(** Which selection names a quantifier target stands for. *)
Definition target_matches (t : Target) (name : string) : Prop :=
  match t with
  | Them => True
  | Pattern p =>
      (exists pre rest, p = pre +:+ "*" /\ name = pre +:+ rest) \/
      ((forall pre, p <> pre +:+ "*") /\ name = p)
  end.

(** The truth of a condition when the selections in [holds] match. *)
Fixpoint sat (e : Expr) (holds : string -> Prop) (names : list string) : Prop :=
  match e with
  | Ref n => holds n
  | Not e => ~ sat e holds names
  | And a b => sat a holds names /\ sat b holds names
  | Or a b => sat a holds names \/ sat b holds names
  | Quant None t =>
      (exists n, n ∈ names /\ target_matches t n) /\
      (forall n, n ∈ names -> target_matches t n -> holds n)
  | Quant (Some k) t =>
      exists S : list string, NoDup S /\ (k <= Z.of_nat (length S))%Z /\
        forall n, n ∈ S -> n ∈ names /\ target_matches t n /\ holds n
  end.

Lemma target_hit_spec t n : target_hit t n = true <-> target_matches t n.
Proof.
  destruct t as [|p]; cbn; [done|].
  destruct (strip_suffix "*" p) as [pre|] eqn:E.
  - apply strip_suffix_Some in E as ->. rewrite starts_with_spec. split.
    + intros [r ->]. left. eauto.
    + intros [(pre' & r & He & ->)|[Hn _]]; [|by destruct (Hn pre)].
      exists r. f_equal. apply (proj2 (strip_suffix_Some "*" _ pre')) in He.
      rewrite (proj2 (strip_suffix_Some "*" _ pre) eq_refl) in He. by injection He.
  - rewrite bool_decide_eq_true. split; [intros ->; right; split; [|done]|].
    + intros pre Hp. by rewrite (proj2 (strip_suffix_Some "*" p pre) Hp) in E.
    + intros [(pre & r & Hp & _)|[_ ->]]; [|done].
      by rewrite (proj2 (strip_suffix_Some "*" p pre) Hp) in E.
Qed.

Lemma elem_of_select t names n : n ∈ select t names <-> n ∈ names /\ target_matches t n.
Proof. unfold select. rewrite list_elem_of_filter, target_hit_spec. tauto. Qed.

Lemma result_of_true results n : result_of results n = true <-> results !! n = Some true.
Proof. unfold result_of. destruct (results !! n) as [[]|]; naive_solver. Qed.

Lemma filter_length_all {A} (P : A -> Prop) `{forall x, Decision (P x)} (l : list A) :
  length (filter P l) = length l <-> Forall P l.
Proof.
  induction l as [|x l IH]; [done|]. rewrite filter_cons, Forall_cons.
  pose proof (length_filter P l). case_decide; cbn; [|naive_solver lia].
  rewrite <- IH. naive_solver lia.
Qed.

Lemma all_of_spec t results names :
  eval (Quant None t) results names = true <->
  sat (Quant None t) (fun n => results !! n = Some true) names.
Proof.
  cbn. rewrite andb_true_iff, negb_true_iff, bool_decide_eq_false, bool_decide_eq_true.
  rewrite filter_length_all, Forall_forall. setoid_rewrite elem_of_select.
  setoid_rewrite result_of_true. split.
  - intros [Hne H]. split; [|naive_solver].
    destruct (select t names) as [|n l] eqn:E; [done|]. exists n.
    apply elem_of_select. rewrite E. set_solver.
  - intros [(n & Hn & Ht) H]. split; [|naive_solver]. intros E.
    assert (Hs : n ∈ select t names) by by apply elem_of_select.
    rewrite E in Hs. set_solver.
Qed.

Lemma n_of_spec k t results names :
  NoDup names ->
  eval (Quant (Some k) t) results names = true <->
  sat (Quant (Some k) t) (fun n => results !! n = Some true) names.
Proof.
  intros Hnd. cbn. rewrite bool_decide_eq_true. split.
  - intros Hk. eexists. split_and!; [|done|].
    + do 2 apply NoDup_filter. done.
    + intros n. rewrite list_elem_of_filter, elem_of_select, result_of_true. tauto.
  - intros (S & HS & Hk & H). etrans; [done|]. apply inj_le, submseteq_length.
    apply NoDup_submseteq; [done|]. intros n Hn. apply H in Hn as (? & ? & ?).
    by rewrite list_elem_of_filter, elem_of_select, result_of_true.
Qed.

Lemma eval_meaning e results names :
  NoDup names ->
  eval e results names = true <-> sat e (fun n => results !! n = Some true) names.
Proof.
  intros Hnd. induction e as [n|e IH|a IHa b IHb|a IHa b IHb|[k|] t].
  - apply result_of_true.
  - cbn. rewrite negb_true_iff, <- IH. by destruct (eval e _ _).
  - cbn. by rewrite andb_true_iff, IHa, IHb.
  - cbn. by rewrite orb_true_iff, IHa, IHb.
  - by apply n_of_spec.
  - apply all_of_spec.
Qed.

(** ** Theorems about conditions *)

(** C39: the condition parser accepts a token sequence with expression [e]
    exactly when the documented grammar ([or] binds weaker than [and], [and]
    weaker than [not], both binary operators left-associative, quantifiers
    [all of]/[N of] over [them] or a pattern) derives [e] from the whole
    sequence. *)
Theorem parser_is_grammar ts e : parse_toks ts = Some (Ok e) <-> gram_or ts e.
Proof. split; [apply parse_toks_gram|apply gram_parse_toks]. Qed.

(** [parse] terminates on every input within the fuel
    [4 * #tokens + 4] used by the model: the recursive descent always yields
    an expression or a [Config] error, never the out-of-fuel value. *)
Theorem parse_total input :
  (exists e, parse input = Ok e) \/ parse input = Err Config.
Proof.
  unfold parse, tokenize.
  destruct (tok_of_word <$> _) as [|t ts]; [by right|]. cbn [mbind result_bind].
  destruct (parse_toks_some (t :: ts)) as [r Hr]. rewrite Hr.
  destruct r as [e|e]; [by left; exists e|right]. revert Hr. unfold parse_toks.
  destruct (parse_or _ _) as [[[e' p]|e']|] eqn:E; [case_decide; congruence| |done].
  intros [= ->]. by apply parse_errors in E as ->.
Qed.

(** printing and re-reading a condition gives back the same expression:
    for every expression whose names are valid identifiers and whose counts
    fit [usize], parsing its minimally parenthesised text returns it. *)
Theorem parse_print e : expr_ok e = true -> parse (print e) = Ok e.
Proof.
  intros Hok. unfold parse, print.
  rewrite tokenize_print by auto using print_toks_ok, print_toks_ne. cbn.
  by rewrite (gram_parse_toks _ e) by apply print_gram.
Qed.

Lemma parse_print_witness :
  expr_ok (Or (And (Ref "sel") (Not (Ref "filter_1"))) (Quant (Some 2%Z) (Pattern "ioc*"))) = true /\
  parse (print (Or (And (Ref "sel") (Not (Ref "filter_1"))) (Quant (Some 2%Z) (Pattern "ioc*")))) =
    Ok (Or (And (Ref "sel") (Not (Ref "filter_1"))) (Quant (Some 2%Z) (Pattern "ioc*"))).
Proof. split; [vm_compute; reflexivity|]. apply parse_print. vm_compute; reflexivity. Defined.

(** [eval] computes the declarative meaning of a condition: names hold
    when their selection matched, connectives are boolean, [all of p] needs
    at least one selected name and all of them to hold, [N of p] needs [N]
    distinct selected names that hold; [p] selects by exact name or, with a
    trailing [*], by prefix. *)
Theorem eval_sat e results names :
  NoDup names ->
  eval e results names = true <-> sat e (fun n => results !! n = Some true) names.
Proof. apply eval_meaning. Qed.

Lemma eval_sat_witness :
  NoDup ["sel1"; "sel2"; "other"] /\
  (eval (Quant None (Pattern "sel*")) {["sel1" := true; "sel2" := true]} ["sel1"; "sel2"; "other"] = true <->
   sat (Quant None (Pattern "sel*"))
     (fun n => ({["sel1" := true; "sel2" := true]} : gmap string bool) !! n = Some true)
     ["sel1"; "sel2"; "other"]).
Proof.
  assert (H : NoDup ["sel1"; "sel2"; "other"]) by compute_done.
  split; [exact H|]. exact (eval_sat _ _ _ H).
Defined.

(** The result does not depend on the (unspecified) iteration order of the
    selection map that [names] lists. *)
Lemma eval_perm e results names names' :
  names ≡ₚ names' -> eval e results names = eval e results names'.
Proof.
  intros Hp. induction e as [n|e IH|a IHa b IHb|a IHa b IHb|k t]; cbn; [done|congruence..|].
  assert (Hs : select t names ≡ₚ select t names') by (unfold select; by rewrite Hp).
  assert (Hh : length (filter (fun n => result_of results n = true) (select t names)) =
               length (filter (fun n => result_of results n = true) (select t names')))
    by by rewrite Hs.
  destruct k; rewrite Hh; [done|]. rewrite (Permutation_length Hs). f_equal. f_equal.
  apply bool_decide_ext.
  split; intros E; rewrite E in Hs; [by apply Permutation_nil_l in Hs|by apply Permutation_nil_r in Hs].
Qed.

(** The meaning only depends on which names hold. *)
Lemma sat_ext e (P Q : string -> Prop) names :
  (forall n, P n <-> Q n) -> sat e P names <-> sat e Q names.
Proof.
  intros HPQ. induction e as [n|e IH|a IHa b IHb|a IHa b IHb|[k|] t]; cbn.
  - apply HPQ.
  - by rewrite IH.
  - by rewrite IHa, IHb.
  - by rewrite IHa, IHb.
  - by setoid_rewrite HPQ.
  - by setoid_rewrite HPQ.
Qed.

(** ** Disjunction of condition texts *)

Definition lex (s : string) : list Tok := tok_of_word <$> split_whitespace (spaced s).

Lemma lex_space s t : lex (s +:+ String " " t) = lex s ++ lex t.
Proof.
  unfold lex. rewrite spaced_app. change (spaced (String " " t)) with (String " " (spaced t)).
  by rewrite split_whitespace_space, fmap_app.
Qed.

Lemma lex_paren s : lex ("(" +:+ s +:+ ")") = TLParen :: lex s ++ [TRParen].
Proof.
  unfold lex. rewrite !spaced_app. change (spaced "(") with " ( ". change (spaced ")") with " ) ".
  change (" ( " +:+ (spaced s +:+ " ) ")) with (String " " ("(" +:+ String " " (spaced s +:+ String " " ") "))).
  change (String " " ?x) with ("" +:+ String " " x) at 1.
  rewrite !split_whitespace_space. by rewrite !fmap_app.
Qed.

Lemma parse_lex s e : parse s = Ok e <-> gram_or (lex s) e.
Proof.
  unfold parse, tokenize. fold (spaced s). fold (lex s).
  destruct (lex s) as [|t ts] eqn:E.
  - split; [done|]. intros Hg. apply gram_nonempty in Hg. cbn in Hg. lia.
  - cbn [mbind result_bind]. rewrite <- parse_toks_iff.
    destruct (parse_toks_some (t :: ts)) as [r ->]. naive_solver.
Qed.

(** [(s1) or (s2) or ...] means the left-nested disjunction of the parts. *)
Lemma parse_disjunction s e rest es :
  gram_or (lex s) e ->
  Forall2 (fun s e => gram_or (lex s) e) rest es ->
  gram_or (lex (join " or " ((fun s => "(" +:+ s +:+ ")") <$> s :: rest))) (foldl Or e es).
Proof.
  intros Hs Hrest.
  assert (Hprim : forall s e, gram_or (lex s) e -> gram_and (lex ("(" +:+ s +:+ ")")) e).
  { intros s' e' Hg. rewrite lex_paren. by do 2 constructor; constructor. }
  assert (Hjoin : forall x l, lex (join " or " (x :: l)) = lex x ++ concat ((fun y => TOr :: lex y) <$> l)).
  { intros x l. revert x. induction l as [|y l IH]; intros x; [by rewrite app_nil_r|].
    change (join " or " (x :: y :: l)) with (x +:+ String " " ("or" +:+ String " " (join " or " (y :: l)))).
    rewrite !lex_space, IH. done. }
  rewrite fmap_cons, Hjoin. apply Hprim in Hs. apply g_or1 in Hs. revert Hs.
  generalize (lex ("(" +:+ s +:+ ")")). revert e.
  induction Hrest as [|s' e' rest es Hs' _ IH]; intros e ts Hts; cbn.
  - by rewrite app_nil_r.
  - rewrite app_comm_cons, (app_assoc ts). apply IH. apply g_or2; [done|]. by apply Hprim.
Qed.
