(* ===== verification/Core.v ===== *)
(** * [sigil-core]: the event model shared by every crate

    [event.rs] (OCSF classes, severities, entities, records, events) and the
    alert type of [plugin.rs].  JSON values are those of the [serde_json]
    crate: their constructors are data here; their text form
    ([Value::to_string]) and the parser are parameters, classes [JsonText] and
    [JsonParse]. *)

From stdpp Require Import gmap strings list.
From S2P Require Import Prelude Containers.

(** Epoch microseconds, an [i64]. *)
Abbreviation Timestamp := Z (only parsing).

(** ** OCSF classes *)

Inductive OcsfClass : Set :=
  | FileSystemActivity
  | ProcessActivity
  | Authentication
  | NetworkActivity
  | HttpActivity
  | ApiActivity
  | DnsActivity
  | ModuleActivity
  | ScheduledJobActivity
  | RegistryKeyActivity
  | OtherClass (uid : Z).

#[export] Instance OcsfClass_eq_dec : EqDecision OcsfClass.
Proof. solve_decision. Defined.

Definition OcsfClass_default : OcsfClass := OtherClass 1008.

Definition class_uid (c : OcsfClass) : Z :=
  match c with
  | FileSystemActivity => 1001
  | ProcessActivity => 1007
  | Authentication => 3002
  | NetworkActivity => 4001
  | HttpActivity => 4002
  | ApiActivity => 6003
  | DnsActivity => 4003
  | ModuleActivity => 1005
  | ScheduledJobActivity => 1006
  | RegistryKeyActivity => 201002
  | OtherClass uid => uid
  end.

Definition from_uid (uid : Z) : OcsfClass :=
  match uid with
  | 1001 => FileSystemActivity
  | 1007 => ProcessActivity
  | 3002 => Authentication
  | 4001 => NetworkActivity
  | 4002 => HttpActivity
  | 6003 => ApiActivity
  | 4003 => DnsActivity
  | 1005 => ModuleActivity
  | 1006 => ScheduledJobActivity
  | 201002 => RegistryKeyActivity
  | other => OtherClass other
  end%Z.

(** ** Severities *)

Inductive Severity : Set :=
  | Unknown
  | Informational
  | Low
  | Medium
  | High
  | Critical
  | Fatal.

#[export] Instance Severity_eq_dec : EqDecision Severity.
Proof. solve_decision. Defined.

Definition Severity_default : Severity := Informational.

Definition severity_id (s : Severity) : Z :=
  match s with
  | Unknown => 0
  | Informational => 1
  | Low => 2
  | Medium => 3
  | High => 4
  | Critical => 5
  | Fatal => 6
  end.

Definition severity_from_id (id : Z) : Severity :=
  match id with
  | 0 => Unknown
  | 1 => Informational
  | 2 => Low
  | 3 => Medium
  | 4 => High
  | 5 => Critical
  | _ => Fatal
  end%Z.

(** ** Entities, values, records, events *)

Record EntityRef := mkEntity {
  kind : string;
  entity_id : string;
  entity_name : option string
}.

#[export] Instance EntityRef_eq_dec : EqDecision EntityRef.
Proof. solve_decision. Defined.

Definition EntityRef_new (k i : string) : EntityRef := mkEntity k i None.

(** [serde_json::Number]: an integer, or a float kept as its text. *)
Inductive number : Set :=
  | NInt (z : Z)
  | NFloat (text : string).

(** [serde_json::Value]. *)
#[warnings="-register-all"]
Inductive value : Set :=
  | VNull
  | VBool (b : bool)
  | VNumber (n : number)
  | VString (s : string)
  | VArray (l : list value)
  | VObject (m : list (string * value)).

(** [serde_json::Value::to_string], the compact JSON text. *)
Class JsonText := json_text : value -> string.

(** [serde_json::from_slice] and [from_str]: the value, or the text of the
    error. *)
Class JsonParse := json_parse : string -> value + string.

(** A [BTreeMap<String, Value>], with [get] and [insert]. *)
Definition fields_t : Type := smap value.
Abbreviation fields_get := smap_get (only parsing).
Abbreviation fields_insert := smap_insert (only parsing).

Record Rec := mkRec { rec_fields : fields_t; rec_raw : string }.

Record Event := mkEvent {
  ev_id : string;
  ev_ts : Timestamp;
  ingest_ts : Timestamp;
  ocsf_class : OcsfClass;
  tenant : string;
  severity : Severity;
  host : option EntityRef;
  actor : option EntityRef;
  target : option EntityRef;
  message : string;
  fields : fields_t;
  template_id : option Z;
  labels : list string;
  raw : string
}.

(** [Event::new]: [ulid] and [now] are the fresh identifier and the clock. *)
Definition Event_new (ulid : string) (now : Timestamp) (t : string) : Event :=
  mkEvent ulid now now OcsfClass_default t Severity_default None None None "" [] None [] "".

Record Alert := mkAlert {
  a_rule_id : string;
  a_title : string;
  a_severity : Severity;
  a_technique : option string;
  a_events : list string;
  a_ts : Timestamp
}.

Section json.
Context `{JsonText}.

Definition value_to_string (v : value) : string :=
  match v with
  | VString s => s
  | other => json_text other
  end.

(** [Record::from_pairs]. *)
Definition from_pairs (pairs : list (string * string)) : Rec :=
  mkRec (foldl (fun m kv => fields_insert kv.1 (VString kv.2) m) [] pairs) "".

(** [Record::get_str], [Event::field_str]. *)
Definition get_str (r : Rec) (key : string) : option string :=
  value_to_string <$> fields_get (rec_fields r) key.

Definition field_str (e : Event) (key : string) : option string :=
  value_to_string <$> fields_get (fields e) key.
End json.

(** ** Lemmas *)

(** [uid] inverts [from_uid]: unmapped classes round-trip. *)
Lemma class_uid_from_uid uid : class_uid (from_uid uid) = uid.
Proof. unfold from_uid. repeat case_match; subst; done. Qed.

(** Severity identifiers round-trip. *)
Lemma severity_id_roundtrip s : severity_from_id (severity_id s) = s.
Proof. by destruct s. Qed.
