(* ===== verification/SigmaMatcher.v ===== *)
(** * [sigil-sigma/src/matcher.rs]: selection matching

    String predicates, field modifiers, field resolution over an event, field
    conditions and selections.  The [regex] crate is a parameter (class
    [RegexEngine]); [str::to_lowercase] is a parameter (class [Casing]) with
    its documented agreement with ASCII lowercasing on ASCII text. *)

From stdpp Require Import gmap strings list.
From S2P Require Import Prelude Utf8 Core.

(** The [regex] crate: [Regex::new], [is_match], [escape]. *)
Class RegexEngine := {
  regex : Set;
  regex_new : string -> option regex;
  is_match : regex -> string -> bool;
  regex_escape : string -> string
}.

(** ** Modifiers *)

Inductive BaseMatch : Set :=
  | MEquals | MContains | MStartsWith | MEndsWith | MRegex.

#[export] Instance BaseMatch_eq_dec : EqDecision BaseMatch.
Proof. solve_decision. Defined.

Record Modifiers : Set := mkMods { base : BaseMatch; all : bool }.

#[export] Instance Modifiers_eq_dec : EqDecision Modifiers.
Proof. solve_decision. Defined.

(** The effect of one modifier word; [None] is an unsupported one. *)
Definition apply_modifier (m : string) (mods : Modifiers) : option Modifiers :=
  if bool_decide (m = "contains") then Some (mkMods MContains (all mods))
  else if bool_decide (m = "startswith") then Some (mkMods MStartsWith (all mods))
  else if bool_decide (m = "endswith") then Some (mkMods MEndsWith (all mods))
  else if bool_decide (m = "re") then Some (mkMods MRegex (all mods))
  else if bool_decide (m = "all") then Some (mkMods (base mods) true)
  else if bool_decide (m = "cased") then Some mods
  else None.

(** The [for m in parts] loop of [Modifiers::parse]. *)
Fixpoint apply_modifiers (parts : list string) (mods : Modifiers) : result Modifiers :=
  match parts with
  | [] => Ok mods
  | m :: parts' =>
      match apply_modifier m mods with
      | Some mods' => apply_modifiers parts' mods'
      | None => Err Config
      end
  end.

Definition Modifiers_parse (field_key : string) : result (string * Modifiers) :=
  let parts := split_on "|" field_key in
  let field := default "" (head parts) in
  mods ← apply_modifiers (tail parts) (mkMods MEquals false);
  Ok (field, mods).

(** ** The event fields a Sigma name resolves to *)

Definition push_nonempty (out : list string) (v : string) : list string :=
  if is_empty_str v then out else out ++ [v].

(** The alias arms of [resolve_field], on the ASCII-lowercased name. *)
Definition resolve_alias (ev : Event) (lname : string) : list string :=
  if bool_decide (lname ∈ ["message"; "msg"]) then push_nonempty [] (message ev)
  else if bool_decide (lname ∈ ["user"; "username"; "user.name"; "targetusername"; "subjectusername"]) then
    match actor ev with
    | Some a => if bool_decide (kind a = "user") then push_nonempty [] (entity_id a) else []
    | None => []
    end
  else if bool_decide (lname ∈ ["host"; "hostname"; "computer"; "computername"; "host.name"]) then
    match host ev with Some h => push_nonempty [] (entity_id h) | None => [] end
  else if bool_decide (lname ∈ ["image"; "process"; "process.name"; "processname"]) then
    match actor ev with
    | Some a => if bool_decide (kind a = "process") then push_nonempty [] (entity_id a) else []
    | None => []
    end
  else if bool_decide (lname ∈ ["actor"; "actor.name"]) then
    match actor ev with Some a => push_nonempty [] (entity_id a) | None => [] end
  else if bool_decide (lname ∈ ["target"; "target.name"; "targetobject"]) then
    match target ev with Some t => push_nonempty [] (entity_id t) | None => [] end
  else if bool_decide (lname ∈ ["commandline"; "command_line"; "cmd"]) then
    push_nonempty [] (message ev)
  else [].

Section matcher.
Context `{JsonText} `{RegexEngine} `{Casing}.

(** ** Predicates *)

Inductive StringPredicate : Set :=
  | Equals (v : string)
  | Contains (v : string)
  | StartsWith (v : string)
  | EndsWith (v : string)
  | Regex (re : regex)
  | IsNull.

Definition wildcard_text (pattern : string) (anchor_start anchor_end : bool) : string :=
  foldl (fun re ch =>
           re +:+ (if bool_decide (ch = "*") then ".*"
                   else if bool_decide (ch = "?") then "."
                   else regex_escape ch))
        ("(?i)" +:+ (if anchor_start then "^" else "")) (chars pattern)
  +:+ (if anchor_end then "$" else "").

Definition wildcard_regex (pattern : string) (anchor_start anchor_end : bool) : result regex :=
  ok_or (regex_new (wildcard_text pattern anchor_start anchor_end)) Config.

Definition has_wild (v : string) : bool := contains "*" v || contains "?" v.

Definition build (val : option string) (mods : Modifiers) : result StringPredicate :=
  match val with
  | None => Ok IsNull
  | Some v =>
      let wild := has_wild v in
      let lower := to_lowercase v in
      match base mods with
      | MEquals => if wild then Regex <$> wildcard_regex v true true else Ok (Equals lower)
      | MContains => if wild then Regex <$> wildcard_regex v false false else Ok (Contains lower)
      | MStartsWith => if wild then Regex <$> wildcard_regex v true false else Ok (StartsWith lower)
      | MEndsWith => if wild then Regex <$> wildcard_regex v false true else Ok (EndsWith lower)
      | MRegex => Regex <$> ok_or (regex_new ("(?i)" +:+ v)) Config
      end
  end.

Definition pred_matches (p : StringPredicate) (candidate : string) : bool :=
  let lc := to_lowercase candidate in
  match p with
  | Equals v => bool_decide (lc = v)
  | Contains v => contains v lc
  | StartsWith v => starts_with v lc
  | EndsWith v => ends_with v lc
  | Regex re => is_match re candidate
  | IsNull => false
  end.

Definition resolve_field (ev : Event) (name : string) : list string :=
  match fields_get (fields ev) name with
  | Some v => [value_to_string v]
  | None =>
      let hits := (fun kv => value_to_string kv.2) <$>
                    filter (fun kv => eq_ignore_ascii_case kv.1 name = true) (fields ev) in
      match hits with
      | [] => resolve_alias ev (to_ascii_lowercase name)
      | _ => hits
      end
  end.

(** ** Field conditions and selections *)

Record FieldCond : Set := mkCond {
  fc_field : string;
  fc_all : bool;
  fc_preds : list StringPredicate
}.

Definition pred_hit (candidates : list string) (p : StringPredicate) : bool :=
  match p with
  | IsNull => bool_decide (candidates = [])
  | _ => existsb (pred_matches p) candidates
  end.

Definition cond_eval (c : FieldCond) (ev : Event) : bool :=
  let candidates := resolve_field ev (fc_field c) in
  if fc_all c then forallb (pred_hit candidates) (fc_preds c)
  else existsb (pred_hit candidates) (fc_preds c).

#[warnings="-register-all"]
Inductive Selection : Set :=
  | Fields (conds : list FieldCond)
  | AnyOf (items : list Selection)
  | Keywords (preds : list StringPredicate).

Fixpoint sel_eval (s : Selection) (ev : Event) (haystack : string) : bool :=
  match s with
  | Fields conds => forallb (fun c => cond_eval c ev) conds
  | AnyOf items => existsb (fun i => sel_eval i ev haystack) items
  | Keywords preds => existsb (fun p => pred_matches p haystack) preds
  end.

Definition event_haystack (ev : Event) : string :=
  let s := foldl (fun s kv => s +:+ " " +:+ value_to_string kv.2) (message ev) (fields ev) in
  let s := foldl (fun s (e : option EntityRef) =>
                    match e with Some e => s +:+ " " +:+ entity_id e | None => s end)
                 s [actor ev; host ev; target ev] in
  to_lowercase s.
End matcher.

(** ** Lemmas *)

(** The base match a modifier word selects. *)
Definition base_word (m : string) : option BaseMatch :=
  if bool_decide (m = "contains") then Some MContains
  else if bool_decide (m = "startswith") then Some MStartsWith
  else if bool_decide (m = "endswith") then Some MEndsWith
  else if bool_decide (m = "re") then Some MRegex
  else None.

Definition supported_modifier (m : string) : Prop :=
  m ∈ ["contains"; "startswith"; "endswith"; "re"; "all"; "cased"].

Lemma apply_modifier_spec m mods :
  apply_modifier m mods =
  if decide (supported_modifier m) then
    Some (mkMods (default (base mods) (base_word m)) (all mods || bool_decide (m = "all")))
  else None.
Proof.
  unfold apply_modifier, base_word. destruct mods as [b a]; cbn.
  repeat match goal with
    | |- context [bool_decide (m = ?s)] =>
        destruct (decide (m = s)) as [->|]; [by destruct a|rewrite (bool_decide_false (m = s)) by done]
    end.
  rewrite decide_False; [done|]. unfold supported_modifier. set_solver.
Qed.

Lemma apply_modifiers_Ok parts mods :
  Forall supported_modifier parts ->
  apply_modifiers parts mods =
    Ok (mkMods (default (base mods) (last (omap base_word parts)))
               (all mods || bool_decide ("all" ∈ parts))).
Proof.
  intros H. revert mods. induction H as [|m parts Hm Hs IH]; intros [b a].
  - cbn. by rewrite orb_false_r.
  - cbn [apply_modifiers]. rewrite apply_modifier_spec, decide_True by done. rewrite IH. cbn [base all].
    assert (Ha : bool_decide ("all" ∈ m :: parts) = bool_decide (m = "all") || bool_decide ("all" ∈ parts)).
    { rewrite <- bool_decide_or. apply bool_decide_ext. set_solver. }
    rewrite Ha, <- orb_assoc. do 2 f_equal. cbn. destruct (base_word m) as [b'|]; [|done]. cbn.
    destruct (omap base_word parts) as [|x l] eqn:E; [done|]. rewrite last_cons_cons.
    destruct (last (x :: l)) eqn:El; [done|]. by apply last_None in El.
Qed.

Lemma apply_modifiers_Err parts mods :
  ~ Forall supported_modifier parts -> apply_modifiers parts mods = Err Config.
Proof.
  revert mods. induction parts as [|m parts IH]; intros mods H; [by destruct H|].
  cbn. rewrite apply_modifier_spec. case_decide as Hm; [|done]. apply IH. by contradict H; constructor.
Qed.

Lemma push_nonempty_nil v : push_nonempty [] v = if is_empty_str v then [] else [v].
Proof. done. Qed.

(** ** Theorems about matching *)

(** [Modifiers::parse] on [field|m1|...|mk]: it fails with a [Config]
    error exactly when some [mi] is not a supported modifier, and otherwise
    returns the field name, the last base modifier (default: equality) and
    whether [all] occurs. *)
Theorem modifiers_parse_spec field mods :
  Forall (fun w => free_of "|" w = true) (field :: mods) ->
  Modifiers_parse (join "|" (field :: mods)) =
  if decide (Forall supported_modifier mods) then
    Ok (field, mkMods (default MEquals (last (omap base_word mods))) (bool_decide ("all" ∈ mods)))
  else Err Config.
Proof.
  intros Hf. unfold Modifiers_parse. rewrite split_join by done. cbn [head tail default].
  case_decide; [by rewrite apply_modifiers_Ok|by rewrite apply_modifiers_Err].
Qed.

Lemma modifiers_parse_spec_witness :
  Forall (fun w => free_of "|" w = true) ["CommandLine"; "contains"; "all"] /\
  Modifiers_parse "CommandLine|contains|all" = Ok ("CommandLine", mkMods MContains true).
Proof.
  assert (H : Forall (fun w => free_of "|" w = true) ["CommandLine"; "contains"; "all"])
    by (repeat constructor).
  split; [exact H|]. exact (modifiers_parse_spec "CommandLine" ["contains"; "all"] H).
Defined.

Section theorems.
Context `{JsonText} `{RegexEngine} `{Casing}.

(** What a literal (wildcard-free, non-regex) predicate compares. *)
Definition literal_rel (b : BaseMatch) (v c : string) : Prop :=
  match b with
  | MEquals => c = v
  | MContains => exists x y, c = x +:+ v +:+ y
  | MStartsWith => exists y, c = v +:+ y
  | MEndsWith => exists x, c = x +:+ v
  | MRegex => False
  end.

Lemma build_literal v mods :
  has_wild v = false -> base mods <> MRegex ->
  exists p, build (Some v) mods = Ok p /\
    forall c, pred_matches p c = true <-> literal_rel (base mods) (to_lowercase v) (to_lowercase c).
Proof.
  intros Hw Hb. unfold build. rewrite Hw. destruct (base mods); try done;
    eexists; (split; [done|]); intros c; cbn.
  - by rewrite bool_decide_eq_true.
  - apply contains_spec.
  - apply starts_with_spec.
  - apply ends_with_spec.
Qed.

(** a wildcard-free Sigma value compiles to a predicate (it never needs
    the regex engine, so it never fails), and on ASCII text that predicate
    matches exactly when the two texts, lowercased byte by byte, are related
    as the modifier says: equal, infix, prefix or suffix. *)
Theorem literal_match_spec v mods :
  has_wild v = false -> base mods <> MRegex -> all_bytes is_ascii v = true ->
  exists p, build (Some v) mods = Ok p /\
    forall c, all_bytes is_ascii c = true ->
      pred_matches p c = true <->
      literal_rel (base mods) (to_ascii_lowercase v) (to_ascii_lowercase c).
Proof.
  intros Hw Hb Hv. destruct (build_literal v mods Hw Hb) as (p & Hp & Hm).
  exists p. split; [done|]. intros c Hc. by rewrite Hm, !to_lowercase_ascii.
Qed.

(** The value candidates of the fields whose key equals [name] up to ASCII case. *)
Definition case_hits (ev : Event) (name : string) : list string :=
  (fun kv => value_to_string kv.2) <$>
    filter (fun kv => eq_ignore_ascii_case kv.1 name = true) (fields ev).

Lemma resolve_alias_nonempty ev l c : c ∈ resolve_alias ev l -> c <> "".
Proof.
  assert (Hp : forall v, c ∈ push_nonempty [] v -> c <> "").
  { intros [|x v]; cbn; [set_solver|]. intros ->%list_elem_of_singleton. done. }
  unfold resolve_alias. repeat case_bool_decide; repeat case_match;
    repeat case_bool_decide; eauto; set_solver.
Qed.

Lemma resolve_alias_le1 ev l : length (resolve_alias ev l) <= 1.
Proof.
  assert (Hp : forall v, length (push_nonempty [] v) <= 1).
  { intros [|x v]; cbn; lia. }
  unfold resolve_alias. repeat case_bool_decide; repeat case_match;
    repeat case_bool_decide; auto; cbn; lia.
Qed.

(** field resolution tries the exact key, then every key equal up to
    ASCII case, and only when both fail the OCSF/ECS aliases, which give at
    most one, non-empty, candidate. *)
Theorem resolve_field_priority ev name :
  match fields_get (fields ev) name with
  | Some v => resolve_field ev name = [value_to_string v]
  | None =>
      (case_hits ev name <> [] -> resolve_field ev name = case_hits ev name) /\
      (case_hits ev name = [] ->
         length (resolve_field ev name) <= 1 /\
         forall c, c ∈ resolve_field ev name -> c <> "")
  end.
Proof.
  unfold resolve_field. destruct (fields_get _ _) as [v|]; [done|].
  change ((fun kv => value_to_string kv.2) <$> _) with (case_hits ev name).
  split.
  - by destruct (case_hits ev name).
  - intros ->. split; [apply resolve_alias_le1|]. intros c. apply resolve_alias_nonempty.
Qed.

(** The field condition's truth, quantifier by quantifier. *)
Definition pred_sat (ev : Event) (field : string) (p : StringPredicate) : Prop :=
  match p with
  | IsNull => resolve_field ev field = []
  | _ => exists c, c ∈ resolve_field ev field /\ pred_matches p c = true
  end.

Lemma pred_hit_spec ev field p :
  pred_hit (resolve_field ev field) p = true <-> pred_sat ev field p.
Proof.
  destruct p; cbn -[pred_matches]; rewrite ?bool_decide_eq_true; [..|done];
    rewrite existsb_exists; by setoid_rewrite list_elem_of_In.
Qed.

Definition cond_sat (ev : Event) (c : FieldCond) : Prop :=
  if fc_all c then forall p, p ∈ fc_preds c -> pred_sat ev (fc_field c) p
  else exists p, p ∈ fc_preds c /\ pred_sat ev (fc_field c) p.

Lemma cond_eval_spec c ev : cond_eval c ev = true <-> cond_sat ev c.
Proof.
  unfold cond_eval, cond_sat. destruct (fc_all c).
  - rewrite forallb_forall. setoid_rewrite list_elem_of_In. by setoid_rewrite pred_hit_spec.
  - rewrite existsb_exists. setoid_rewrite list_elem_of_In. by setoid_rewrite pred_hit_spec.
Qed.

(** The truth of a selection: AND of field conditions, OR of maps, OR of
    keywords against the whole event. *)
Inductive sel_sat (ev : Event) (hay : string) : Selection -> Prop :=
  | sat_fields conds : (forall c, c ∈ conds -> cond_sat ev c) -> sel_sat ev hay (Fields conds)
  | sat_any items s : s ∈ items -> sel_sat ev hay s -> sel_sat ev hay (AnyOf items)
  | sat_keywords preds p :
      p ∈ preds -> pred_matches p hay = true -> sel_sat ev hay (Keywords preds).

Lemma sel_eval_sat ev hay : forall s, sel_eval s ev hay = true <-> sel_sat ev hay s.
Proof.
  fix IH 1. intros [conds|items|preds]; cbn [sel_eval].
  - rewrite forallb_forall. setoid_rewrite cond_eval_spec. split.
    + intros Hc. constructor. intros c Hin. by apply Hc, list_elem_of_In.
    + inversion 1; subst. intros c Hin%list_elem_of_In. auto.
  - split.
    + induction items as [|i items IHi]; cbn; [done|].
      intros [Hi|Hi]%orb_true_iff.
      * eapply sat_any; [apply list_elem_of_here|]. by apply IH.
      * apply IHi in Hi. inversion Hi; subst. eapply sat_any; [|done]. by apply list_elem_of_further.
    + inversion 1 as [|? s Hin Hs|]; subst. apply existsb_exists. exists s.
      split; [by apply list_elem_of_In|]. clear -IH Hs Hin. induction items as [|i items IHi]; [set_solver|].
      apply elem_of_cons in Hin as [->|Hin]; [by apply IH|by apply IHi].
  - rewrite existsb_exists. setoid_rewrite <- list_elem_of_In. split.
    + intros (p & Hp & Hm). by eapply sat_keywords.
    + inversion 1; subst. eauto.
Qed.
End theorems.

(** A concrete environment for the witnesses: a text form
    that is constant, and an engine whose patterns are literals. *)
Definition demo_json : JsonText := fun _ => "null".
Definition demo_regex : RegexEngine :=
  {| regex := string; regex_new := Some; is_match r s := contains r s; regex_escape s := s |}.

Lemma literal_match_spec_witness :
  has_wild "/ETC/shadow" = false /\ all_bytes is_ascii "/ETC/shadow" = true /\
  exists p, @build demo_regex demo_lower (Some "/ETC/shadow") (mkMods MContains false) = Ok p /\
    forall c, all_bytes is_ascii c = true ->
      @pred_matches demo_regex demo_lower p c = true <->
      literal_rel MContains (to_ascii_lowercase "/ETC/shadow") (to_ascii_lowercase c).
Proof.
  split; [reflexivity|]. split; [reflexivity|].
  exact (@literal_match_spec demo_regex demo_lower "/ETC/shadow" (mkMods MContains false)
           eq_refl ltac:(discriminate) eq_refl).
Defined.
