(* ===== verification/Yaml.v ===== *)
(** * YAML values

    The [serde_yaml] values the rule engine and the configuration share, and
    the lookup of a mapping. *)

From stdpp Require Import strings list countable.
From S2P Require Import Prelude.

(** [serde_yaml::Value] without custom tags; a mapping is an ordered list of
    entries with distinct keys, a number is kept as its text. *)
#[warnings="-register-all"]
Inductive yaml : Set :=
  | YNull
  | YBool (b : bool)
  | YNumber (text : string)
  | YString (s : string)
  | YSequence (l : list yaml)
  | YMapping (m : list (yaml * yaml)).

(** [serde_yaml::to_string(v).ok()]. *)
Class YamlText := yaml_text : yaml -> option string.

(** ** Decidable equality, through trees *)

Section countable.
Local Abbreviation leaf := (option bool + (string + string))%type.

Fixpoint yaml_tree (y : yaml) : gen_tree leaf :=
  match y with
  | YNull => GenLeaf (inl None)
  | YBool b => GenLeaf (inl (Some b))
  | YNumber t => GenLeaf (inr (inl t))
  | YString s => GenLeaf (inr (inr s))
  | YSequence l => GenNode 0 (yaml_tree <$> l)
  | YMapping m => GenNode 1 (concat ((fun kv => [yaml_tree kv.1; yaml_tree kv.2]) <$> m))
  end.

Fixpoint tree_yaml (t : gen_tree leaf) : yaml :=
  match t with
  | GenLeaf (inl None) => YNull
  | GenLeaf (inl (Some b)) => YBool b
  | GenLeaf (inr (inl t)) => YNumber t
  | GenLeaf (inr (inr s)) => YString s
  | GenNode 0 l => YSequence (tree_yaml <$> l)
  | GenNode _ l =>
      YMapping ((fix pairs (l : list (gen_tree leaf)) : list (yaml * yaml) :=
                   match l with
                   | k :: v :: l => (tree_yaml k, tree_yaml v) :: pairs l
                   | _ => []
                   end) l)
  end.

Fixpoint tree_yaml_tree (y : yaml) : tree_yaml (yaml_tree y) = y.
Proof.
  destruct y as [|b|t|s|l|m]; cbn; try reflexivity.
  - f_equal. induction l as [|y l IH]; cbn; [reflexivity|]. f_equal; [apply tree_yaml_tree|exact IH].
  - f_equal. induction m as [|[k v] m IH]; cbn; [reflexivity|]. f_equal; [|exact IH].
    f_equal; apply tree_yaml_tree.
Defined.
End countable.

Lemma yaml_tree_inj : Inj (=) (=) yaml_tree.
Proof. intros a b H. by rewrite <- (tree_yaml_tree a), H, tree_yaml_tree. Qed.

#[export] Instance yaml_eq_dec : EqDecision yaml.
Proof. pose proof yaml_tree_inj. apply (inj_eq_dec yaml_tree). Defined.
#[export] Instance yaml_countable : Countable yaml := inj_countable' yaml_tree tree_yaml tree_yaml_tree.

(** ** Induction over nested values *)

Lemma yaml_nested_ind (P : yaml -> Prop) :
  P YNull -> (forall b, P (YBool b)) -> (forall t, P (YNumber t)) -> (forall s, P (YString s)) ->
  (forall l, Forall P l -> P (YSequence l)) ->
  (forall m : list (yaml * yaml), Forall (fun kv => P kv.2) m -> P (YMapping m)) ->
  forall y, P y.
Proof.
  intros Hn Hb Ht Hs Hl Hm. fix IH 1. intros [|b|t|s|l|m].
  - exact Hn.
  - apply Hb.
  - apply Ht.
  - apply Hs.
  - apply Hl. induction l as [|y l IHl]; constructor; [apply IH|exact IHl].
  - apply Hm. induction m as [|[k v] m IHm]; constructor; [apply IH|exact IHm].
Qed.

(** ** Lookup in a mapping ([Mapping::get]) *)

Fixpoint ymap_get (m : list (yaml * yaml)) (k : yaml) : option yaml :=
  match m with
  | [] => None
  | (k', v) :: m => if decide (k' = k) then Some v else ymap_get m k
  end.

Lemma ymap_get_elem m k v : NoDup m.*1 -> ymap_get m k = Some v <-> (k, v) ∈ m.
Proof.
  induction m as [|[k' v'] m IH]; cbn; [split; [done|by intros ?%not_elem_of_nil]|].
  intros [Hk Hnd]%NoDup_cons. rewrite elem_of_cons. case_decide as Hd; subst.
  - split; [intros [= ->]; by left|]. intros [[= ->]|Hin]; [done|]. destruct Hk.
    apply list_elem_of_fmap. by exists (k, v).
  - rewrite IH by done. naive_solver.
Qed.

Lemma ymap_get_None m k : ymap_get m k = None <-> k ∉ m.*1.
Proof.
  induction m as [|[k' v'] m IH]; cbn; [split; [by intros _ ?%not_elem_of_nil|done]|].
  rewrite elem_of_cons. case_decide as Hd; [subst; naive_solver|]. rewrite IH. naive_solver.
Qed.
