(* ===== verification/SigmaEngine.v ===== *)
(** * [sigil-sigma/src/engine.rs] (and [rule.rs], [harness.rs]): rule compilation

    A Sigma rule, already deserialised by the [serde_yaml] crate into a
    [SigmaRule], is compiled into selections and a condition, evaluated over
    events, and turned into alerts.  YAML values are data; the text form of a
    non-scalar value is a parameter ([YamlText]).  The clock of [to_alert] is
    the argument [now]. *)

From stdpp Require Import gmap strings list.
From S2P Require Import Prelude Utf8.
From S2P Require Import Core.
From S2P Require Import SigmaCondition.
From S2P Require Import SigmaMatcher.
From S2P Require Import Yaml.

Definition as_str (y : yaml) : option string :=
  match y with YString s => Some s | _ => None end.

Definition is_mapping (y : yaml) : bool :=
  match y with YMapping _ => true | _ => false end.

Record LogSource : Set := mkLogSource {
  category : option string; product : option string; service : option string
}.

Record SigmaRule : Set := mkSigmaRule {
  sr_title : string;
  sr_id : option string;
  sr_status : option string;
  sr_description : option string;
  sr_level : option string;
  sr_logsource : LogSource;
  sr_detection : list (yaml * yaml);
  sr_tags : list string
}.

(** ** Rule metadata helpers *)

Definition level_to_severity (level : option string) : Severity :=
  match to_ascii_lowercase <$> level with
  | None => Medium
  | Some s =>
      if bool_decide (s = "informational") then Informational
      else if bool_decide (s = "low") then Low
      else if bool_decide (s = "medium") then Medium
      else if bool_decide (s = "high") then High
      else if bool_decide (s = "critical") then Critical
      else Medium
  end.

Definition condition_to_string (v : yaml) : result string :=
  match v with
  | YString s => Ok s
  | YSequence seq =>
      let parts := omap (fun x => (fun s => "(" +:+ s +:+ ")") <$> as_str x) seq in
      match parts with
      | [] => Err Config
      | _ => Ok (join " or " parts)
      end
  | _ => Err Config
  end.

Record RuleInfo : Set := mkRuleInfo {
  ri_rule_id : string; ri_title : string; ri_severity : Severity;
  ri_technique : option string; ri_tags : list string
}.

Section engine.
Context `{JsonText} `{RegexEngine} `{Casing} `{YamlText}.

(** [technique_from_tags]: the tag that names a technique, rendered. *)
Definition technique_of_tag (tag : string) : option string :=
  match strip_prefix "attack.t" (to_ascii_lowercase tag) with
  | Some (String c r) =>
      if is_ascii_digit c then Some ("T" +:+ to_uppercase (String c r)) else None
  | _ => None
  end.

Fixpoint technique_from_tags (tags : list string) : option string :=
  match tags with
  | [] => None
  | tag :: tags' =>
      match technique_of_tag tag with
      | Some t => Some t
      | None => technique_from_tags tags'
      end
  end.

(** ** Compilation *)

Definition scalar_str (v : yaml) : option string :=
  match v with
  | YNull => None
  | YString s => Some s
  | YBool b => Some (if b then "true" else "false")
  | YNumber n => Some n
  | other => trim <$> yaml_text other
  end.

Definition keyword_pred (v : yaml) : result StringPredicate :=
  let s := default "" (scalar_str v) in
  Ok (Contains (to_lowercase s)).

Definition build_preds (v : yaml) (mods : Modifiers) : result (list StringPredicate) :=
  match v with
  | YSequence seq => traverse (fun x => build (scalar_str x) mods) seq
  | YNull => Ok [IsNull]
  | other => p ← build (scalar_str other) mods; Ok [p]
  end.

Definition compile_entry (kv : yaml * yaml) : result FieldCond :=
  key ← ok_or (as_str kv.1) Config;
  fm ← Modifiers_parse key;
  preds ← build_preds kv.2 fm.2;
  Ok (mkCond fm.1 (all fm.2) preds).

Definition compile_field_map (map : list (yaml * yaml)) : result Selection :=
  conds ← traverse compile_entry map; Ok (Fields conds).

Definition compile_selection (v : yaml) : result Selection :=
  match v with
  | YMapping map => compile_field_map map
  | YSequence seq =>
      if existsb is_mapping seq then
        items ← traverse (fun v =>
          match v with
          | YMapping m => compile_field_map m
          | other => p ← keyword_pred other; Ok (Keywords [p])
          end) seq;
        Ok (AnyOf items)
      else
        preds ← traverse keyword_pred seq; Ok (Keywords preds)
  | other => p ← keyword_pred other; Ok (Keywords [p])
  end.

Record CompiledRule : Set := mkCompiled {
  rule_id : string;
  title : string;
  rule_severity : Severity;
  technique : option string;
  tags : list string;
  selections : gmap string Selection;
  names : list string;
  condition : Expr
}.

(** The [for (k, v) in &rule.detection] loop. *)
Fixpoint detection_loop (entries : list (yaml * yaml)) (sels : gmap string Selection)
    (cond : option string) : result (gmap string Selection * option string) :=
  match entries with
  | [] => Ok (sels, cond)
  | (k, v) :: entries' =>
      key ← ok_or (as_str k) Config;
      if bool_decide (key = "condition") then
        c ← condition_to_string v;
        detection_loop entries' sels (Some c)
      else
        s ← compile_selection v;
        detection_loop entries' (<[key := s]> sels) cond
  end.

Definition from_rule (rule : SigmaRule) : result CompiledRule :=
  sc ← detection_loop (sr_detection rule) ∅ None;
  condition_str ← ok_or sc.2 Config;
  cond ← parse condition_str;
  Ok {| rule_id := default (sr_title rule) (sr_id rule);
        title := sr_title rule;
        rule_severity := level_to_severity (sr_level rule);
        technique := technique_from_tags (sr_tags rule);
        tags := sr_tags rule;
        selections := sc.1;
        names := (map_to_list sc.1).*1;
        condition := cond |}.

(** ** Evaluation *)

Definition matches (rule : CompiledRule) (ev : Event) : bool :=
  let haystack := event_haystack ev in
  let results := (fun sel => sel_eval sel ev haystack) <$> selections rule in
  eval (condition rule) results (names rule).

Definition to_alert (now : Timestamp) (rule : CompiledRule) (ev : Event) : Alert :=
  {| a_rule_id := rule_id rule;
     a_title := title rule;
     a_severity := rule_severity rule;
     a_technique := technique rule;
     a_events := [ev_id ev];
     a_ts := if bool_decide (ev_ts ev <> 0)%Z then ev_ts ev else now |}.

(** [SigmaEngine] is its rule vector. *)
Definition engine_eval (rules : list CompiledRule) (now : Timestamp) (ev : Event) : list Alert :=
  (fun r => to_alert now r ev) <$> filter (fun r => matches r ev = true) rules.

Definition rule_infos (rules : list CompiledRule) : list RuleInfo :=
  (fun r => mkRuleInfo (rule_id r) (title r) (rule_severity r) (technique r) (tags r)) <$> rules.

(** [LoadReport] and the per-file part of [SigmaEngine::load_dir]; files are
    the [(path, text)] pairs read, and the two [serde_yaml] calls on a text
    are arguments. *)
Record LoadReport : Set := mkReport { loaded : nat; failed : list (string * error) }.

Definition load_files (is_correlation_doc : string -> bool) (parse_yaml : string -> result SigmaRule)
    (files : list (string * string)) : list CompiledRule * LoadReport :=
  foldl (fun '(rules, report) '(path, text) =>
           if is_correlation_doc text then (rules, report)
           else match r ← parse_yaml text; from_rule r with
                | Ok rule => (rules ++ [rule], mkReport (S (loaded report)) (failed report))
                | Err e => (rules, mkReport (loaded report) (failed report ++ [(path, e)]))
                end)
        ([], mkReport 0 []) files.

(** [harness.rs]: [run_cases], each failure identified by its case name. *)
Definition run_cases (rule : CompiledRule) (cases : list (string * Event * bool)) : list string :=
  omap (fun '(name, ev, expect_match) =>
          if bool_decide (matches rule ev = expect_match) then None else Some name) cases.
End engine.

(** ** Lemmas *)

Section lemmas.
Context `{JsonText} `{RegexEngine} `{Casing} `{YamlText}.

Lemma keys_spec (m : gmap string Selection) n : n ∈ (map_to_list m).*1 <-> is_Some (m !! n).
Proof.
  rewrite list_elem_of_fmap. split.
  - intros ([k s] & -> & Hin%elem_of_map_to_list). by exists s.
  - intros [s Hs]. exists (n, s). by rewrite elem_of_map_to_list.
Qed.

(** What the detection loop accumulates. *)
Definition from_entries (entries : list (yaml * yaml)) (sels : gmap string Selection)
    (cond : option string) : Prop :=
  (forall n s, sels !! n = Some s ->
     n <> "condition" /\ exists v, (YString n, v) ∈ entries /\ compile_selection v = Ok s) /\
  (forall n v, (YString n, v) ∈ entries -> n <> "condition" -> is_Some (sels !! n)) /\
  (forall c, cond = Some c ->
     exists v, (YString "condition", v) ∈ entries /\ condition_to_string v = Ok c).

Lemma from_entries_add_sel entries n v s sels cond :
  n <> "condition" -> compile_selection v = Ok s ->
  from_entries entries sels cond ->
  from_entries (entries ++ [(YString n, v)]) (<[n := s]> sels) cond.
Proof.
  intros Hn Hs (Hsel & Hkey & Hcond). split_and!.
  - intros m t. rewrite lookup_insert. case_decide as Hm.
    + subst m. intros [= <-]. split; [done|]. exists v. set_solver.
    + intros (? & v' & ? & ?)%Hsel. split; [done|]. exists v'. set_solver.
  - intros m t. rewrite elem_of_app, list_elem_of_singleton, lookup_insert.
    case_decide; [done|]. intros [Hin|[= -> ->]]; eauto. done.
  - intros c (v' & ? & ?)%Hcond. exists v'. set_solver.
Qed.

Lemma from_entries_add_cond entries v c sels cond :
  condition_to_string v = Ok c ->
  from_entries entries sels cond ->
  from_entries (entries ++ [(YString "condition", v)]) sels (Some c).
Proof.
  intros Hc (Hsel & Hkey & Hcond). split_and!.
  - intros m t (? & v' & ? & ?)%Hsel. split; [done|]. exists v'. set_solver.
  - intros m t. rewrite elem_of_app, list_elem_of_singleton. intros [Hin|[= -> ->]]; eauto. done.
  - intros c' [= <-]. exists v. set_solver.
Qed.

Lemma detection_loop_spec done_ entries sels cond sels' cond' :
  from_entries done_ sels cond ->
  detection_loop entries sels cond = Ok (sels', cond') ->
  from_entries (done_ ++ entries) sels' cond'.
Proof.
  revert done_ sels cond. induction entries as [|[k v] entries IH]; intros done_ sels cond Hd; cbn.
  - intros [= -> ->]. by rewrite app_nil_r.
  - intros (key & Hk & Hrest)%result_bind_Ok. destruct k; try done. injection Hk as [= ->].
    rewrite (app_assoc done_ [_] entries : done_ ++ (YString key, v) :: entries = _).
    revert Hrest. case_bool_decide as Hc.
    + intros (c & Hcs & Hrest)%result_bind_Ok. subst key.
      eapply IH; [|done]. by eapply from_entries_add_cond.
    + intros (s & Hs & Hrest)%result_bind_Ok. eapply IH; [|done]. by apply from_entries_add_sel.
Qed.

Lemma from_rule_inv rule cr :
  from_rule rule = Ok cr ->
  exists str, from_entries (sr_detection rule) (selections cr) (Some str) /\
    parse str = Ok (condition cr) /\ names cr = (map_to_list (selections cr)).*1.
Proof.
  unfold from_rule.
  intros ([sels o] & Hl & (str & Ho & (c & Hp & [= <-])%result_bind_Ok)%result_bind_Ok)%result_bind_Ok.
  exists str. cbn in *. split_and!; [|done|done]. destruct o; [|done]. injection Ho as [= ->].
  apply (detection_loop_spec [] _ ∅ None); [|done]. split_and!; [done|set_solver|done].
Qed.

(** The names a compiled rule lists are distinct. *)
Lemma names_nodup (m : gmap string Selection) : NoDup (map_to_list m).*1.
Proof. apply NoDup_fst_map_to_list. Qed.

Lemma matches_meaning rule cr ev :
  names cr = (map_to_list (selections cr)).*1 -> from_rule rule = Ok cr ->
  matches cr ev = true <->
  sat (condition cr)
      (fun n => exists s, selections cr !! n = Some s /\ sel_sat ev (event_haystack ev) s) (names cr).
Proof.
  intros Hn _. unfold matches. rewrite eval_meaning by (rewrite Hn; apply names_nodup).
  apply sat_ext. intros n. rewrite lookup_fmap, fmap_Some. setoid_rewrite <- sel_eval_sat.
  split; intros (s & ? & ?); exists s; auto.
Qed.

Lemma omap_parens (l : list string) :
  omap (fun x => (fun s => "(" +:+ s +:+ ")") <$> as_str x) (YString <$> l) =
  (fun s => "(" +:+ s +:+ ")") <$> l.
Proof. induction l as [|s l IH]; [done|]. cbn. by f_equal. Qed.

(** ** Theorems about rules *)

(** C26: a rule that compiles means what its YAML says.  Its selection names
    are exactly the [detection] keys other than [condition], each compiled
    from an entry of that name; its condition is parsed from the
    [condition] entry; and it matches an event exactly when that condition
    holds of the selections the event satisfies. *)
Theorem compiled_rule_meaning rule cr :
  from_rule rule = Ok cr ->
  (forall n, n ∈ names cr <->
     n <> "condition" /\ exists v, (YString n, v) ∈ sr_detection rule) /\
  (forall n s, selections cr !! n = Some s ->
     exists v, (YString n, v) ∈ sr_detection rule /\ compile_selection v = Ok s) /\
  (exists v str, (YString "condition", v) ∈ sr_detection rule /\
     condition_to_string v = Ok str /\ parse str = Ok (condition cr)) /\
  (forall ev, matches cr ev = true <->
     sat (condition cr)
       (fun n => exists s, selections cr !! n = Some s /\ sel_sat ev (event_haystack ev) s)
       (names cr)).
Proof.
  intros Hr. destruct (from_rule_inv _ _ Hr) as (str & (Hsel & Hkey & Hcond) & Hp & Hn).
  split_and!.
  - intros n. rewrite Hn, keys_spec. split.
    + intros [s Hs]. destruct (Hsel n s Hs) as (? & v & ? & _). eauto.
    + intros [? [v ?]]. eauto.
  - intros n s (_ & v & ? & ?)%Hsel. eauto.
  - destruct (Hcond str eq_refl) as (v & ? & ?). eauto.
  - intros ev. by apply (matches_meaning rule).
Qed.

(** evaluating a rulepack yields one alert per matching rule, in rule
    order, and nothing else; each alert carries its rule's identifier,
    severity and technique, exactly the event's id, and the event's time
    (the clock's when the event has none). *)
Theorem engine_eval_spec rules now ev a :
  (a ∈ engine_eval rules now ev <->
     exists r, r ∈ rules /\ matches r ev = true /\ a = to_alert now r ev) /\
  a_rule_id <$> engine_eval rules now ev = rule_id <$> filter (fun r => matches r ev = true) rules /\
  (a ∈ engine_eval rules now ev -> a_events a = [ev_id ev] /\
     a_ts a = (if decide (ev_ts ev = 0%Z) then now else ev_ts ev)).
Proof.
  unfold engine_eval. split_and!.
  - rewrite list_elem_of_fmap. setoid_rewrite list_elem_of_filter. naive_solver.
  - by rewrite <- list_fmap_compose.
  - intros (r & -> & _)%list_elem_of_fmap. split; [done|]. cbn.
    case_bool_decide; case_decide; done.
Qed.

(** A list-valued [condition] is the disjunction of its entries: if
    every entry parses on its own, the rule's condition text parses to the
    left-nested [or] of the entries' expressions. *)
Lemma condition_list_or s e rest es :
  parse s = Ok e -> Forall2 (fun s e => parse s = Ok e) rest es ->
  exists str, condition_to_string (YSequence (YString <$> s :: rest)) = Ok str /\
    parse str = Ok (foldl Or e es).
Proof.
  intros He Hes. exists (join " or " ((fun s => "(" +:+ s +:+ ")") <$> s :: rest)). split.
  - unfold condition_to_string. rewrite omap_parens. done.
  - apply parse_lex, parse_disjunction; [by apply parse_lex|].
    eapply Forall2_impl; [done|]. intros ? ?. apply parse_lex.
Qed.

Definition load_step is_corr parse_yaml : list CompiledRule * LoadReport -> string * string -> _ :=
  fun '(rules, report) '(path, text) =>
    if is_corr text : bool then (rules, report)
    else match r ← parse_yaml text; from_rule r with
         | Ok rule => (rules ++ [rule], mkReport (S (loaded report)) (failed report))
         | Err e => (rules, mkReport (loaded report) (failed report ++ [(path, e)]))
         end.

(** The outcome of one file. *)
Definition load_one (is_corr : string -> bool) (parse_yaml : string -> result SigmaRule)
    (f : string * string) : option (result CompiledRule) :=
  if is_corr f.2 then None else Some (r ← parse_yaml f.2; from_rule r).

Definition loaded_of is_corr parse_yaml (f : string * string) : option CompiledRule :=
  match load_one is_corr parse_yaml f with Some (Ok r) => Some r | _ => None end.

Definition failed_of is_corr parse_yaml (f : string * string) : option (string * error) :=
  match load_one is_corr parse_yaml f with Some (Err e) => Some (f.1, e) | _ => None end.

Lemma loaded_of_eq is_corr parse_yaml path text :
  loaded_of is_corr parse_yaml (path, text) =
  if is_corr text then None
  else match r ← parse_yaml text; from_rule r with Ok r => Some r | Err _ => None end.
Proof. unfold loaded_of, load_one. cbn [fst snd]. by destruct (is_corr text). Qed.

Lemma failed_of_eq is_corr parse_yaml path text :
  failed_of is_corr parse_yaml (path, text) =
  if is_corr text then None
  else match r ← parse_yaml text; from_rule r with Ok _ => None | Err e => Some (path, e) end.
Proof. unfold failed_of, load_one. cbn [fst snd]. by destruct (is_corr text). Qed.

Lemma load_files_fold is_corr parse_yaml files rules rep :
  foldl (load_step is_corr parse_yaml) (rules, rep) files =
  (rules ++ omap (loaded_of is_corr parse_yaml) files,
   mkReport (loaded rep + length (omap (loaded_of is_corr parse_yaml) files))
     (failed rep ++ omap (failed_of is_corr parse_yaml) files)).
Proof.
  revert rules rep. induction files as [|[path text] files IH]; intros rules rep.
  - cbn. rewrite !app_nil_r, Nat.add_0_r. by destruct rep.
  - cbn [foldl]. rewrite !omap_list_cons, !loaded_of_eq, !failed_of_eq. cbn [load_step]. destruct (is_corr text); [apply IH|].
    destruct (r ← parse_yaml text; from_rule r); rewrite IH; cbn [loaded failed length];
      rewrite <- ?app_assoc; cbn [app]; [|done]. by rewrite Nat.add_succ_r.
Qed.

(** loading a rulepack never drops a file silently: the engine holds, in
    file order, exactly the rules that compile, the report counts them, and
    every other detection file is listed with its error. *)
Theorem load_report_complete is_corr parse_yaml files :
  let '(rules, report) := load_files is_corr parse_yaml files in
  rules = omap (loaded_of is_corr parse_yaml) files /\
  failed report = omap (failed_of is_corr parse_yaml) files /\
  loaded report = length rules /\
  loaded report + length (failed report) = length (filter (fun f => is_corr f.2 = false) files).
Proof.
  unfold load_files. change (foldl _ _ files) with (foldl (load_step is_corr parse_yaml) ([], mkReport 0 []) files).
  rewrite load_files_fold. cbn [loaded failed app]. split_and!; try done.
  induction files as [|[path text] files IH]; [done|].
  rewrite filter_cons, !omap_list_cons, loaded_of_eq, failed_of_eq. cbn [fst snd].
  destruct (is_corr text); [done|]. rewrite decide_True by done.
  destruct (r ← parse_yaml text; from_rule r); cbn [length]; lia.
Qed.
End lemmas.

(** ** Witnesses: the SSH rule of the unit tests *)

Definition demo_yaml : YamlText := fun _ => None.

Definition ssh_rule : SigmaRule := {|
  sr_title := "SSH Failed Password"; sr_id := Some "rule-ssh-failed"; sr_status := None;
  sr_description := None; sr_level := Some "medium";
  sr_logsource := mkLogSource None (Some "linux") (Some "sshd");
  sr_detection :=
    [(YString "selection",
       YMapping [(YString "app", YString "sshd");
                 (YString "message|contains", YString "Failed password")]);
     (YString "condition", YString "selection")];
  sr_tags := ["attack.credential_access"; "attack.t1110"] |}.

#[local] Existing Instance demo_json.
#[local] Existing Instance demo_lower.
#[local] Existing Instance demo_regex.
#[local] Existing Instance demo_yaml.

Definition ssh_event : Event :=
  {| ev_id := "e1"; ev_ts := 5%Z; ingest_ts := 5%Z; ocsf_class := Authentication; tenant := "acme";
     severity := Informational; host := None; actor := Some (EntityRef_new "user" "admin");
     target := None; message := "FAILED password for admin";
     fields := [("app", VString "sshd")]; template_id := None; labels := []; raw := "" |}.

Example ssh_rule_matches :
  match from_rule ssh_rule with
  | Ok cr => matches cr ssh_event = true /\ technique cr = Some "T1110"
  | Err _ => False
  end.
Proof. vm_compute. auto. Qed.

Lemma compiled_rule_meaning_witness :
  exists cr, from_rule ssh_rule = Ok cr /\
    (forall n, n ∈ names cr <-> n <> "condition" /\ exists v, (YString n, v) ∈ sr_detection ssh_rule).
Proof.
  pose proof (compiled_rule_meaning ssh_rule) as Hm.
  destruct (from_rule ssh_rule) as [cr|e] eqn:E.
  - exists cr. split; [reflexivity|]. exact (proj1 (Hm cr eq_refl)).
  - vm_compute in E. discriminate.
Defined.
