(* ===== verification/SigmaCorrelation.v ===== *)
(** * [sigil-sigma/src/correlation.rs] and [hunt.rs]: correlation rules

    Correlation rules aggregate base alerts over per-group sliding windows.
    The engine state is the vector of window maps, threaded through
    [process]; a panic of the Rust code is the value [None].  Integers are
    [i64] with the wrap-around of the release profile.  The reference
    semantics keeps the whole history of a group and looks back over
    [timespan]; the pruned deque is proved equivalent to it. *)

From stdpp Require Import gmap strings list sorting.
From S2P Require Import Prelude Utf8 Containers.
From S2P Require Import Core.
From S2P Require Import SigmaMatcher.
From S2P Require Import SigmaEngine.

(** ** Rules *)

Inductive CorrelationKind : Set :=
  | EventCount
  | ValueCount
  | Temporal
  | TemporalOrdered.

#[export] Instance CorrelationKind_eq_dec : EqDecision CorrelationKind.
Proof. solve_decision. Defined.

Record CountCondition : Set := mkCount {
  cc_field : option string;
  cc_gt : option Z; cc_gte : option Z; cc_lt : option Z; cc_lte : option Z; cc_eq : option Z
}.

Definition CountCondition_default : CountCondition := mkCount None None None None None None.

(** [Option::map_or(true, f)]. *)
Definition holds_or_true (f : Z -> bool) (o : option Z) : bool :=
  match o with Some v => f v | None => true end.

Definition satisfied (c : CountCondition) (n : Z) : bool :=
  holds_or_true (fun v => n >? v)%Z (cc_gt c) && holds_or_true (fun v => n >=? v)%Z (cc_gte c) &&
  holds_or_true (fun v => n <? v)%Z (cc_lt c) && holds_or_true (fun v => n <=? v)%Z (cc_lte c) &&
  holds_or_true (fun v => n =? v)%Z (cc_eq c).

Definition is_vacuous (c : CountCondition) : bool :=
  match cc_gt c, cc_gte c, cc_lt c, cc_lte c, cc_eq c with
  | None, None, None, None, None => true
  | _, _, _, _, _ => false
  end.

Record CorrelationSpec : Set := mkSpec {
  cs_kind : CorrelationKind;
  cs_rules : list string;
  cs_group_by : list string;
  cs_timespan : string;
  cs_condition : option CountCondition;
  cs_generate : bool
}.

Record CorrelationRule : Set := mkCorrRule {
  cr_title : string; cr_id : option string; cr_level : option string; cr_tags : list string;
  cr_correlation : CorrelationSpec
}.

(** ** Time spans *)

(** [str::split_at]: [None] is the panic off a character boundary. *)
Definition split_at (s : string) (i : nat) : option (string * string) :=
  if is_char_boundary s i then
    Some (String.substring 0 i s, String.substring i (String.length s - i) s)
  else None.

Definition unit_secs (n : Z) (unit : string) : option Z :=
  if bool_decide (unit = "s") then Some n
  else if bool_decide (unit = "m") then Some (wrap_i64 (n * 60))
  else if bool_decide (unit = "h") then Some (wrap_i64 (n * 3600))
  else if bool_decide (unit = "d") then Some (wrap_i64 (n * 86400))
  else None.

Definition parse_timespan (s : string) : option (result Z) :=
  let s := trim s in
  '(num, unit) ← split_at s (String.length s - 1);
  Some (n ← ok_or (parse_i64 num) Config;
        secs ← ok_or (unit_secs n unit) Config;
        if (secs <=? 0)%Z then Err Config else Ok (wrap_i64 (secs * 1000000))).

(** ** Compiled correlations, windows and the engine *)

Record CompiledCorrelation : Set := mkCorr {
  k_rule_id : string;
  k_title : string;
  k_severity : Severity;
  k_technique : option string;
  k_tags : list string;
  k_kind : CorrelationKind;
  k_rules : list string;
  k_group_by : list string;
  k_timespan : Z;
  k_condition : CountCondition;
  k_generate : bool
}.

Record WindowEntry : Set := mkEntry {
  w_ts : Z; w_rule_id : string; w_event_id : string; w_value : option string
}.

Definition window_map : Type := gmap string (list WindowEntry).

Record CorrelationEngine : Type := mkEngine {
  e_rules : list CompiledCorrelation;
  e_windows : list (gmap string (list WindowEntry));
  e_suppressed : gset string
}.

Definition CorrelationEngine_new (rules : list CompiledCorrelation) : CorrelationEngine :=
  {| e_rules := rules;
     e_windows := (fun _ => ∅) <$> rules;
     e_suppressed :=
       list_to_set (concat (k_rules <$> filter (fun r => k_generate r = false) rules)) |}.

Definition suppressed (e : CorrelationEngine) (base_rule_id : string) : bool :=
  bool_decide (base_rule_id ∈ e_suppressed e).

(** [Vec::dedup]: removes consecutive repetitions. *)
Fixpoint dedup (l : list string) : list string :=
  match l with
  | x :: ((y :: _) as l') => if bool_decide (x = y) then dedup l' else x :: dedup l'
  | l => l
  end.

(** The [while window.front() ...] pruning loop. *)
Fixpoint pop_old (limit : Z) (window : list WindowEntry) : list WindowEntry :=
  match window with
  | e :: window' => if (w_ts e <? limit)%Z then pop_old limit window' else window
  | [] => []
  end.

(** [want]: the referenced rules not yet seen, in order. *)
Definition ordered_step (want : list string) (e : WindowEntry) : list string :=
  match want with
  | r :: want' => if bool_decide (r = w_rule_id e) then want' else want
  | [] => []
  end.

Definition evaluate (rule : CompiledCorrelation) (window : list WindowEntry) : bool :=
  match k_kind rule with
  | EventCount => satisfied (k_condition rule) (Z.of_nat (length window))
  | ValueCount =>
      let distinct : gset string := list_to_set (omap w_value window) in
      satisfied (k_condition rule) (Z.of_nat (size distinct))
  | Temporal => forallb (fun r => existsb (fun e => bool_decide (w_rule_id e = r)) window) (k_rules rule)
  | TemporalOrdered => bool_decide (foldl ordered_step (k_rules rule) window = [])
  end.

Section correlation.
Context `{JsonText} `{Casing}.

Definition corr_from_rule (rule : CorrelationRule) : option (result CompiledCorrelation) :=
  let spec := cr_correlation rule in
  let condition := default CountCondition_default (cs_condition spec) in
  if bool_decide (cs_rules spec = []) then Some (Err Config)
  else if bool_decide (cs_kind spec = EventCount) && is_vacuous condition then Some (Err Config)
  else if bool_decide (cs_kind spec = ValueCount) && bool_decide (cc_field condition = None)
  then Some (Err Config)
  else
    r ← parse_timespan (cs_timespan spec);
    Some (timespan ← r;
          Ok {| k_rule_id := default (cr_title rule) (cr_id rule);
                k_title := cr_title rule;
                k_severity := level_to_severity (cr_level rule);
                k_technique := technique_from_tags (cr_tags rule);
                k_tags := cr_tags rule;
                k_kind := cs_kind spec;
                k_rules := cs_rules spec;
                k_group_by := cs_group_by spec;
                k_timespan := timespan;
                k_condition := condition;
                k_generate := cs_generate spec |}).

Definition group_key (rule : CompiledCorrelation) (ev : Event) : string :=
  join (String (ascii_of_N 31) EmptyString)
    ((fun f => join "," (merge_sort String.le (resolve_field ev f))) <$> k_group_by rule).

Definition matched (rule : CompiledCorrelation) (base_alerts : list Alert) : list Alert :=
  filter (fun a => a_rule_id a ∈ k_rules rule) base_alerts.

Definition event_now (clock : Z) (ev : Event) : Z :=
  if bool_decide (ev_ts ev <> 0)%Z then ev_ts ev else clock.

(** The entry pushed for one matched alert. *)
Definition new_entry (rule : CompiledCorrelation) (now : Z) (ev : Event) (a : Alert) : WindowEntry :=
  {| w_ts := now;
     w_rule_id := a_rule_id a;
     w_event_id := ev_id ev;
     w_value := f ← cc_field (k_condition rule); head (resolve_field ev f) |}.

Definition fired_alert (rule : CompiledCorrelation) (now : Z) (window : list WindowEntry) : Alert :=
  {| a_rule_id := k_rule_id rule;
     a_title := k_title rule;
     a_severity := k_severity rule;
     a_technique := k_technique rule;
     a_events := dedup (w_event_id <$> window);
     a_ts := now |}.

(** The body of the [for (rule, windows)] loop of [process]. *)
Definition process_rule (rule : CompiledCorrelation) (clock : Z) (ev : Event)
    (base_alerts : list Alert) (windows : gmap string (list WindowEntry)) :
    option Alert * gmap string (list WindowEntry) :=
  match matched rule base_alerts with
  | [] => (None, windows)
  | ms =>
      let key := group_key rule ev in
      let window := default [] (windows !! key) in
      let now := event_now clock ev in
      let window := window ++ (new_entry rule now ev <$> ms) in
      let window := pop_old (wrap_i64 (now - k_timespan rule)) window in
      if evaluate rule window
      then (Some (fired_alert rule now window), <[key := []]> windows)
      else (None, <[key := window]> windows)
  end.

Fixpoint process_rules (rules : list CompiledCorrelation) (windows : list (gmap string (list WindowEntry)))
    (clock : Z) (ev : Event) (base_alerts : list Alert) :
    list Alert * list (gmap string (list WindowEntry)) :=
  match rules, windows with
  | r :: rules', w :: windows' =>
      let '(o, w') := process_rule r clock ev base_alerts w in
      let '(fired, ws') := process_rules rules' windows' clock ev base_alerts in
      (option_list o ++ fired, w' :: ws')
  | _, _ => ([], windows)
  end.

Definition process (e : CorrelationEngine) (clock : Z) (ev : Event) (base_alerts : list Alert) :
    list Alert * CorrelationEngine :=
  let '(fired, ws) := process_rules (e_rules e) (e_windows e) clock ev base_alerts in
  (fired, mkEngine (e_rules e) ws (e_suppressed e)).

(** ** Reference semantics: the whole history, looked back over [timespan] *)

Definition live (rule : CompiledCorrelation) (now : Z) (hist : list WindowEntry) : list WindowEntry :=
  filter (fun e => now - k_timespan rule <= w_ts e)%Z hist.

Definition spec_rule (rule : CompiledCorrelation) (clock : Z) (ev : Event)
    (base_alerts : list Alert) (hists : gmap string (list WindowEntry)) :
    option Alert * gmap string (list WindowEntry) :=
  match matched rule base_alerts with
  | [] => (None, hists)
  | ms =>
      let key := group_key rule ev in
      let now := event_now clock ev in
      let hist := default [] (hists !! key) ++ (new_entry rule now ev <$> ms) in
      if evaluate rule (live rule now hist)
      then (Some (fired_alert rule now (live rule now hist)), <[key := []]> hists)
      else (None, <[key := hist]> hists)
  end.

Fixpoint spec_rules (rules : list CompiledCorrelation) (hists : list (gmap string (list WindowEntry)))
    (clock : Z) (ev : Event) (base_alerts : list Alert) :
    list Alert * list (gmap string (list WindowEntry)) :=
  match rules, hists with
  | r :: rules', w :: hists' =>
      let '(o, w') := spec_rule r clock ev base_alerts w in
      let '(fired, ws') := spec_rules rules' hists' clock ev base_alerts in
      (option_list o ++ fired, w' :: ws')
  | _, _ => ([], hists)
  end.

(** One call of [process]: clock reading, event, base alerts. *)
Definition input : Type := Z * Event * list Alert.
Definition input_now (i : input) : Z := event_now i.1.1 i.1.2.

Fixpoint run_process (e : CorrelationEngine) (inputs : list input) : list (list Alert) :=
  match inputs with
  | [] => []
  | (clock, ev, base) :: inputs' =>
      let '(fired, e') := process e clock ev base in fired :: run_process e' inputs'
  end.

Fixpoint run_spec (rules : list CompiledCorrelation) (hists : list (gmap string (list WindowEntry)))
    (inputs : list input) : list (list Alert) :=
  match inputs with
  | [] => []
  | (clock, ev, base) :: inputs' =>
      let '(fired, hists') := spec_rules rules hists clock ev base in
      fired :: run_spec rules hists' inputs'
  end.
End correlation.

(** ** Retro-hunt ([hunt.rs]) *)

Record HuntOutcome : Set := mkOutcome {
  scanned : nat; h_alerts : list Alert; h_correlation_alerts : list Alert
}.

Definition all_alerts (o : HuntOutcome) : list Alert := h_alerts o ++ h_correlation_alerts o.

(** [events.sort_by_key(|e| e.ts)], a stable sort. *)
Definition sort_by_ts (l : list Event) : list Event := sort_by_key ev_ts l.

Section hunt.
Context `{JsonText} `{RegexEngine} `{Casing}.

(** The replay loop; [clock] is the reading of [now_micros] at each event. *)
Fixpoint hunt_loop (engine : list CompiledRule) (corr : CorrelationEngine) (clock : nat -> Z)
    (n : nat) (events : list Event) (out : HuntOutcome) : HuntOutcome * CorrelationEngine :=
  match events with
  | [] => (out, corr)
  | ev :: events' =>
      let base := engine_eval engine (clock n) ev in
      let '(fired, corr') := process corr (clock n) ev base in
      hunt_loop engine corr' clock (S n) events'
        {| scanned := scanned out;
           h_alerts := h_alerts out ++
             filter (fun a => suppressed corr' (a_rule_id a) = false) base;
           h_correlation_alerts := h_correlation_alerts out ++ fired |}
  end.

Definition retro_hunt (engine : list CompiledRule) (corr : CorrelationEngine) (clock : nat -> Z)
    (events : list Event) : HuntOutcome * CorrelationEngine :=
  let events := sort_by_ts events in
  hunt_loop engine corr clock 0 events (mkOutcome (length events) [] []).
End hunt.

(** ** Sliding-window lemmas *)

Definition ts_sorted (w : list WindowEntry) : Prop :=
  StronglySorted (fun a b => w_ts a <= w_ts b)%Z w.

Lemma filter_all {A} (P : A -> Prop) `{forall x, Decision (P x)} (l : list A) :
  Forall P l -> filter P l = l.
Proof. induction 1; [done|]. rewrite filter_cons_True by done. by f_equal. Qed.

Lemma pop_old_filter limit w :
  ts_sorted w -> pop_old limit w = filter (fun e => limit <= w_ts e)%Z w.
Proof.
  intros Hs. induction Hs as [|e w Hs IH Hall]; [done|]. cbn [pop_old].
  destruct (w_ts e <? limit)%Z eqn:E.
  - rewrite filter_cons_False by lia. done.
  - rewrite filter_all; [done|]. constructor; [lia|].
    eapply Forall_impl; [done|]. cbn. lia.
Qed.

Lemma filter_filter_weaker {A} (P Q : A -> Prop) `{forall x, Decision (P x)} `{forall x, Decision (Q x)}
    (l : list A) :
  (forall x, P x -> Q x) -> filter P (filter Q l) = filter P l.
Proof.
  intros HPQ. induction l as [|x l IH]; [done|]. rewrite !filter_cons.
  destruct (decide (Q x)), (decide (P x)); rewrite ?filter_cons; repeat case_decide; naive_solver congruence.
Qed.

Lemma ts_sorted_app w1 w2 t :
  ts_sorted w1 -> Forall (fun e => w_ts e <= t)%Z w1 -> Forall (fun e => w_ts e = t) w2 ->
  ts_sorted (w1 ++ w2) /\ Forall (fun e => w_ts e <= t)%Z (w1 ++ w2).
Proof.
  intros H1 Hle H2. split.
  - induction H1 as [|e w1 Hs IH Hall]; cbn.
    + induction H2 as [|e w2 He Hs IH]; constructor; [done|].
      eapply Forall_impl; [exact Hs|]. cbn. lia.
    + apply Forall_cons in Hle as [He Hle]. constructor; [by apply IH|].
      apply Forall_app; split; [done|]. eapply Forall_impl; [exact H2|]. cbn. lia.
  - apply Forall_app; split; [done|]. eapply Forall_impl; [exact H2|]. cbn. lia.
Qed.

Lemma ts_sorted_filter limit w :
  ts_sorted w -> ts_sorted (filter (fun e => limit <= w_ts e)%Z w).
Proof.
  induction 1 as [|e w Hs IH Hall]; [constructor|]. rewrite filter_cons. case_decide; [|done].
  constructor; [done|]. apply Forall_forall. intros x [_ Hx]%list_elem_of_filter.
  rewrite Forall_forall in Hall. auto.
Qed.

Section refinement.
Context `{JsonText} `{Casing}.

(** A rule whose window length is a positive [i64]. *)
Definition span_ok (r : CompiledCorrelation) : Prop := (0 < k_timespan r <= i64_max)%Z.

(** The deque of a group against its history, last touched at [t0]. *)
Definition window_rel (r : CompiledCorrelation) (t : Z) (win hist : list WindowEntry) : Prop :=
  exists t0, (t0 <= t)%Z /\ win = live r t0 hist /\ ts_sorted hist /\
    Forall (fun e => w_ts e <= t0)%Z hist.

Definition map_rel (r : CompiledCorrelation) (t : Z) (wins hists : gmap string (list WindowEntry)) : Prop :=
  forall key, window_rel r t (default [] (wins !! key)) (default [] (hists !! key)).

Lemma window_rel_nil r t : window_rel r t [] [].
Proof. exists t. split_and!; [lia|done|constructor|constructor]. Qed.

Lemma window_rel_weaken r t t' win hist :
  (t <= t')%Z -> window_rel r t win hist -> window_rel r t' win hist.
Proof. intros Ht (t0 & ? & ?). exists t0. split; [lia|done]. Qed.

Lemma map_rel_insert r t wins hists key w h :
  map_rel r t wins hists -> window_rel r t w h -> map_rel r t (<[key := w]> wins) (<[key := h]> hists).
Proof. intros Hm Hw k. rewrite !lookup_insert. by case_decide. Qed.

Lemma map_rel_empty r t : map_rel r t ∅ ∅.
Proof. intros k. rewrite !lookup_empty. apply window_rel_nil. Qed.

(** Pushing and pruning the deque is looking back over the longer history. *)
Lemma window_rel_push r t now win hist new :
  span_ok r -> (t <= now)%Z -> (0 <= now <= i64_max)%Z ->
  Forall (fun e => w_ts e = now) new -> window_rel r t win hist ->
  pop_old (wrap_i64 (now - k_timespan r)) (win ++ new) = live r now (hist ++ new) /\
  window_rel r now (live r now (hist ++ new)) (hist ++ new).
Proof.
  intros [Hs1 Hs2] Ht Hnow Hnew (t0 & Ht0 & -> & Hsort & Hle).
  rewrite wrap_i64_id by (unfold in_i64, i64_min, i64_max in *; lia).
  assert (Hle' : Forall (fun e => w_ts e <= now)%Z hist).
  { eapply Forall_impl; [exact Hle|]. cbn. lia. }
  destruct (ts_sorted_app hist new now) as [Hs Hf]; [done|done|done|].
  split.
  - rewrite pop_old_filter.
    + unfold live. rewrite !filter_app. f_equal. apply filter_filter_weaker. intros x. lia.
    + apply (ts_sorted_app _ new now); [by apply ts_sorted_filter| |done].
      apply Forall_forall. intros x [_ Hx]%list_elem_of_filter. rewrite Forall_forall in Hle'. auto.
  - exists now. split_and!; [lia|done|done|done].
Qed.

Lemma new_entries_now r now ev ms : Forall (fun e => w_ts e = now) (new_entry r now ev <$> ms).
Proof. apply Forall_fmap, Forall_forall. done. Qed.

Lemma process_rule_refines r t clock ev base wins hists :
  span_ok r -> (t <= event_now clock ev)%Z -> (0 <= event_now clock ev <= i64_max)%Z ->
  map_rel r t wins hists ->
  (process_rule r clock ev base wins).1 = (spec_rule r clock ev base hists).1 /\
  map_rel r (event_now clock ev) (process_rule r clock ev base wins).2 (spec_rule r clock ev base hists).2.
Proof.
  intros Hs Ht Hnow Hm. unfold process_rule, spec_rule.
  assert (Hm' : map_rel r (event_now clock ev) wins hists)
    by (intros k; by apply (window_rel_weaken r t)).
  destruct (matched r base) as [|a ms]; [done|].
  destruct (window_rel_push r t (event_now clock ev) _ _ (new_entry r (event_now clock ev) ev <$> a :: ms)
              Hs Ht Hnow (new_entries_now _ _ _ _) (Hm (group_key r ev))) as [Heq Hw].
  rewrite Heq. destruct (evaluate r _); (split; [done|]); cbn;
    apply map_rel_insert; auto using window_rel_nil.
Qed.

Lemma process_rules_refines rules t clock ev base wins hists :
  Forall span_ok rules -> (t <= event_now clock ev)%Z -> (0 <= event_now clock ev <= i64_max)%Z ->
  Forall3 (fun r => map_rel r t) rules wins hists ->
  (process_rules rules wins clock ev base).1 = (spec_rules rules hists clock ev base).1 /\
  Forall3 (fun r => map_rel r (event_now clock ev)) rules
    (process_rules rules wins clock ev base).2 (spec_rules rules hists clock ev base).2.
Proof.
  intros Hok Ht Hnow HR. induction HR as [|r w h rules wins hists Hm HR IH]; [by repeat constructor|].
  apply Forall_cons in Hok as [Hr Hok]. destruct (IH Hok) as [IH1 IH2].
  destruct (process_rule_refines r t clock ev base w h Hr Ht Hnow Hm) as [H1 H2]. cbn.
  destruct (process_rule r clock ev base w) as [o w'], (spec_rule r clock ev base h) as [o' h'].
  destruct (process_rules rules wins clock ev base) as [fired ws].
  destruct (spec_rules rules hists clock ev base) as [fired' hs]. cbn in *.
  split; [by subst|]. by constructor.
Qed.

(** Event times that never go back, from [t] on, within [i64]. *)
Fixpoint times_from (t : Z) (inputs : list input) : Prop :=
  match inputs with
  | [] => True
  | i :: inputs' => (t <= input_now i)%Z /\ (0 <= input_now i <= i64_max)%Z /\ times_from (input_now i) inputs'
  end.

Lemma run_refines rules sup t wins hists inputs :
  Forall span_ok rules -> times_from t inputs ->
  Forall3 (fun r => map_rel r t) rules wins hists ->
  run_process (mkEngine rules wins sup) inputs = run_spec rules hists inputs.
Proof.
  intros Hok. revert t wins hists. induction inputs as [|[[clock ev] base] inputs IH]; [done|].
  intros t wins hists (Ht & Hnow & Hrest) HR. cbn in Ht, Hnow, Hrest.
  destruct (process_rules_refines rules t clock ev base wins hists Hok Ht Hnow HR) as [H1 H2].
  cbn. unfold process. cbn.
  destruct (process_rules rules wins clock ev base) as [fired ws].
  destruct (spec_rules rules hists clock ev base) as [fired' hs]. cbn in *. subst. f_equal.
  by apply (IH (event_now clock ev)).
Qed.

Lemma refines_from_empty rules inputs :
  Forall span_ok rules -> times_from 0 inputs ->
  run_process (CorrelationEngine_new rules) inputs = run_spec rules ((fun _ => ∅) <$> rules) inputs.
Proof.
  intros Hok Ht. apply (run_refines rules _ 0); [done|done|]. clear Hok.
  induction rules as [|r rules IH]; cbn; constructor; [apply map_rel_empty|done].
Qed.

(** C6: the sliding windows implement the correlation semantics.  For every
    set of correlation rules with positive windows and every stream of
    events whose times do not go back, the alerts fired by the pruned,
    per-group deques are those of the reference semantics that keeps each
    group's whole history since it last fired and evaluates the entries of
    the last [timespan] microseconds. *)
Theorem sliding_window_refines rules inputs :
  Forall span_ok rules -> times_from 0 inputs ->
  run_process (CorrelationEngine_new rules) inputs = run_spec rules ((fun _ => ∅) <$> rules) inputs.
Proof. apply refines_from_empty. Qed.
End refinement.

(** ** Aggregate conditions *)

(** [n] satisfies a comparison that is present. *)
Definition cmp_holds (R : Z -> Z -> Prop) (n : Z) (o : option Z) : Prop :=
  forall v, o = Some v -> R n v.

Definition count_holds (c : CountCondition) (n : Z) : Prop :=
  cmp_holds Z.gt n (cc_gt c) /\ cmp_holds Z.ge n (cc_gte c) /\ cmp_holds Z.lt n (cc_lt c) /\
  cmp_holds Z.le n (cc_lte c) /\ cmp_holds eq n (cc_eq c).

Lemma satisfied_spec c n : satisfied c n = true <-> count_holds c n.
Proof.
  assert (Hcmp : forall f (R : Z -> Z -> Prop) o, (forall v, f v = true <-> R n v) ->
    holds_or_true f o = true <-> cmp_holds R n o).
  { intros f R [v|] Hf; unfold cmp_holds; cbn; [|naive_solver]. rewrite Hf. naive_solver. }
  unfold satisfied, count_holds. rewrite !andb_true_iff.
  rewrite (Hcmp _ Z.gt), (Hcmp _ Z.ge), (Hcmp _ Z.lt), (Hcmp _ Z.le), (Hcmp _ eq); intros; try lia.
  tauto.
Qed.

Lemma ordered_scan_sublist want window :
  foldl ordered_step want window = [] <-> sublist want (w_rule_id <$> window).
Proof.
  revert want. induction window as [|e window IH]; intros want; cbn.
  - split; [intros ->; constructor|]. by intros ?%sublist_nil_r.
  - rewrite IH. destruct want as [|r want]; cbn; [split; intros; apply sublist_nil_l|].
    case_bool_decide as Hr.
    + subst r. split; [by constructor|]. intros Hs. inversion Hs; subst; [done|].
      etrans; [|done]. by apply sublist_cons.
    + split; [by constructor|]. intros Hs. by inversion Hs; subst.
Qed.

(** What it takes for a window to fire a rule. *)
Definition window_fires (rule : CompiledCorrelation) (window : list WindowEntry) : Prop :=
  match k_kind rule with
  | EventCount => count_holds (k_condition rule) (Z.of_nat (length window))
  | ValueCount =>
      exists vals : list string, NoDup vals /\
        (forall v, v ∈ vals <-> exists e, e ∈ window /\ w_value e = Some v) /\
        count_holds (k_condition rule) (Z.of_nat (length vals))
  | Temporal => forall r, r ∈ k_rules rule -> exists e, e ∈ window /\ w_rule_id e = r
  | TemporalOrdered => sublist (k_rules rule) (w_rule_id <$> window)
  end.

Lemma elem_of_values window v :
  v ∈ (list_to_set (omap w_value window) : gset string) <-> exists e, e ∈ window /\ w_value e = Some v.
Proof. by rewrite elem_of_list_to_set, list_elem_of_omap. Qed.

(** the aggregate test of a window: [event_count] compares the number of
    entries, [value_count] the number of distinct values, [temporal] wants
    every referenced rule, and the greedy scan of [temporal_ordered] succeeds
    exactly when the referenced rules occur in the listed order as a
    subsequence of the window. *)
Theorem evaluate_spec rule window : evaluate rule window = true <-> window_fires rule window.
Proof.
  unfold evaluate, window_fires. destruct (k_kind rule).
  - apply satisfied_spec.
  - rewrite satisfied_spec. split.
    + intros Hc. exists (elements (list_to_set (omap w_value window) : gset string)).
      split_and!; [apply NoDup_elements|intros v; by rewrite elem_of_elements, elem_of_values|done].
    + intros (vals & Hnd & Hv & Hc). replace (size _) with (length vals); [done|].
      rewrite <- (size_list_to_set (C := gset string) vals Hnd). f_equal. apply set_eq. intros v.
      by rewrite elem_of_list_to_set, Hv, elem_of_values.
  - rewrite forallb_forall. setoid_rewrite existsb_exists. setoid_rewrite <- list_elem_of_In.
    by setoid_rewrite bool_decide_eq_true.
  - rewrite bool_decide_eq_true. apply ordered_scan_sublist.
Qed.

(** A base alert is suppressed exactly when some correlation that
    references its rule does not ask for [generate]. *)
Lemma suppressed_spec rules id :
  suppressed (CorrelationEngine_new rules) id = true <->
  exists r, r ∈ rules /\ k_generate r = false /\ id ∈ k_rules r.
Proof.
  unfold suppressed, CorrelationEngine_new. cbn.
  rewrite bool_decide_eq_true, elem_of_list_to_set, list_elem_of_In, in_concat.
  setoid_rewrite <- list_elem_of_In. setoid_rewrite list_elem_of_fmap.
  setoid_rewrite list_elem_of_filter. naive_solver.
Qed.

(** ** Time spans *)

(** [parse_timespan] is neither total nor always positive, although it
    rejects non-positive spans: the multiplication to microseconds wraps
    around after the positivity test (a long span becomes negative in the
    release profile), and a multi-byte last character panics in [split_at]. *)
Theorem parse_timespan_faults :
  parse_timespan "9223372036855s" = Some (Ok (- 9223372036854551616)%Z) /\
  parse_timespan ("10" +:+ String (ascii_of_N 194) (String (ascii_of_N 181) EmptyString)) = None.
Proof. split; vm_compute; reflexivity. Qed.

(** ** Retro-hunt *)

Definition ev_sorted (l : list Event) : Prop := StronglySorted (fun a b => ev_ts a <= ev_ts b)%Z l.

Lemma sort_by_ts_perm l : sort_by_ts l ≡ₚ l.
Proof. apply sort_by_key_perm. Qed.

Lemma sort_by_ts_sorted l : ev_sorted (sort_by_ts l).
Proof. apply sort_by_key_sorted. Qed.

Lemma sort_by_ts_unique l l' :
  l ≡ₚ l' -> NoDup (ev_ts <$> l) -> sort_by_ts l = sort_by_ts l'.
Proof. apply sort_by_key_unique. Qed.

Section hunting.
Context `{JsonText} `{RegexEngine} `{Casing}.

(** The calls [retro_hunt] makes to [process], in order. *)
Fixpoint hunt_inputs (engine : list CompiledRule) (clock : nat -> Z) (n : nat) (events : list Event) :
    list input :=
  match events with
  | [] => []
  | ev :: events' => (clock n, ev, engine_eval engine (clock n) ev) :: hunt_inputs engine clock (S n) events'
  end.

Lemma process_suppressed e clock ev base id :
  suppressed (process e clock ev base).2 id = suppressed e id.
Proof. unfold process. by destruct (process_rules _ _ _ _ _). Qed.

Lemma hunt_loop_spec engine corr clock n events out :
  (hunt_loop engine corr clock n events out).1 =
  {| scanned := scanned out;
     h_alerts := h_alerts out ++
       filter (fun a => suppressed corr (a_rule_id a) = false) (concat (snd <$> hunt_inputs engine clock n events));
     h_correlation_alerts := h_correlation_alerts out ++ concat (run_process corr (hunt_inputs engine clock n events)) |}.
Proof.
  revert corr n out. induction events as [|ev events IH]; intros corr n out; cbn.
  - rewrite !app_nil_r. by destruct out.
  - pose proof (process_suppressed corr (clock n) ev (engine_eval engine (clock n) ev)) as Hsup.
    destruct (process corr (clock n) ev (engine_eval engine (clock n) ev)) as [fired corr'] eqn:E.
    rewrite IH. cbn in *. rewrite filter_app, <- !app_assoc. f_equal; f_equal.
    f_equal; apply list_filter_iff; intros a; by rewrite Hsup.
Qed.

Lemma hunt_inputs_times engine clock n t events :
  ev_sorted events -> (0 <= t)%Z -> Forall (fun e => t <= ev_ts e)%Z events ->
  Forall (fun e => 0 < ev_ts e <= i64_max)%Z events ->
  times_from t (hunt_inputs engine clock n events).
Proof.
  intros Hs. revert t n. induction Hs as [|e events Hs IH Hall]; intros t n Ht Hle Hr; [done|].
  apply Forall_cons in Hle as [Hle _]. apply Forall_cons in Hr as [He Hr].
  cbn. unfold input_now, event_now. cbn. rewrite bool_decide_true by lia.
  split_and!; [lia|lia|lia|]. apply IH; [lia|done|done].
Qed.

(** a retro-hunt replays history as the live stream would have seen it.
    Whatever the order of the input events (all stamped), it scans each
    once; its correlation alerts are those of the reference history
    semantics over the events in time order; and its base alerts are the
    detection alerts not suppressed by a correlation. *)
Theorem retro_hunt_spec engine rules clock events :
  Forall span_ok rules -> Forall (fun e => 0 < ev_ts e <= i64_max)%Z events ->
  let corr := CorrelationEngine_new rules in
  let inputs := hunt_inputs engine clock 0 (sort_by_ts events) in
  (retro_hunt engine corr clock events).1 =
  {| scanned := length events;
     h_alerts := filter (fun a => suppressed corr (a_rule_id a) = false) (concat (snd <$> inputs));
     h_correlation_alerts := concat (run_spec rules ((fun _ => ∅) <$> rules) inputs) |}.
Proof.
  intros Hok Hts corr inputs. unfold retro_hunt. rewrite hunt_loop_spec. cbn.
  f_equal; [by rewrite sort_by_ts_perm|]. f_equal. apply refines_from_empty; [done|].
  apply hunt_inputs_times; [apply sort_by_ts_sorted|lia| |];
    rewrite sort_by_ts_perm; [|done]. eapply Forall_impl; [exact Hts|]. cbn. lia.
Qed.

(** a retro-hunt does not depend on the order in which the index
    returns the events, as long as their times are distinct. *)
Theorem retro_hunt_order_independent engine corr clock events events' :
  events ≡ₚ events' -> NoDup (ev_ts <$> events) ->
  retro_hunt engine corr clock events = retro_hunt engine corr clock events'.
Proof. intros Hp Hnd. unfold retro_hunt. by rewrite (sort_by_ts_unique events events'). Qed.
End hunting.

(** ** Witnesses: the brute-force rule of the unit tests *)

#[local] Existing Instance demo_json.
#[local] Existing Instance demo_lower.
#[local] Existing Instance demo_regex.

Definition brute_rule : CompiledCorrelation := {|
  k_rule_id := "corr-brute"; k_title := "Brute force per user"; k_severity := High;
  k_technique := None; k_tags := []; k_kind := EventCount; k_rules := ["rule-ssh-failed"];
  k_group_by := ["user.name"]; k_timespan := 600000000;
  k_condition := mkCount None None (Some 3) None None None; k_generate := false |}%Z.

Definition failed_login (id user : string) (ts : Z) : Event :=
  {| ev_id := id; ev_ts := ts; ingest_ts := ts; ocsf_class := Authentication; tenant := "acme";
     severity := Informational; host := None; actor := Some (EntityRef_new "user" user);
     target := None; message := "Failed password"; fields := []; template_id := None;
     labels := []; raw := "" |}.

Definition failed_input (id user : string) (ts : Z) : input :=
  (0%Z, failed_login id user ts, [mkAlert "rule-ssh-failed" "t" Medium None [id] ts]).

Definition demo_inputs : list input :=
  [failed_input "e1" "root" 1; failed_input "e2" "root" 2; failed_input "e3" "alice" 3;
   failed_input "e4" "root" 4]%Z.

Example brute_fires_once :
  map (map a_events) (run_process (CorrelationEngine_new [brute_rule]) demo_inputs) =
    [[]; []; []; [["e1"; "e2"; "e4"]]].
Proof. vm_compute. reflexivity. Qed.

Lemma sliding_window_refines_witness :
  Forall span_ok [brute_rule] /\ times_from 0 demo_inputs /\
  run_process (CorrelationEngine_new [brute_rule]) demo_inputs =
    run_spec [brute_rule] ((fun _ => ∅) <$> [brute_rule]) demo_inputs.
Proof.
  assert (H1 : Forall span_ok [brute_rule]) by (repeat constructor; vm_compute; discriminate).
  assert (H2 : times_from 0 demo_inputs) by (repeat split; vm_compute; discriminate).
  split; [exact H1|]. split; [exact H2|]. exact (sliding_window_refines [brute_rule] demo_inputs H1 H2).
Defined.

Definition demo_events : list Event := [failed_login "e2" "root" 2; failed_login "e1" "root" 1]%Z.

Lemma retro_hunt_spec_witness :
  scanned (retro_hunt [] (CorrelationEngine_new [brute_rule]) (fun _ => 0%Z) demo_events).1 = 2.
Proof.
  assert (H1 : Forall span_ok [brute_rule]) by (repeat constructor; vm_compute; discriminate).
  assert (H2 : Forall (fun e => 0 < ev_ts e <= i64_max)%Z demo_events)
    by (repeat constructor; vm_compute; discriminate).
  pose proof (retro_hunt_spec [] [brute_rule] (fun _ => 0%Z) demo_events H1 H2) as H.
  cbn zeta in H. rewrite H. reflexivity.
Defined.

Lemma retro_hunt_order_independent_witness :
  retro_hunt [] (CorrelationEngine_new [brute_rule]) (fun _ => 0%Z) demo_events =
  retro_hunt [] (CorrelationEngine_new [brute_rule]) (fun _ => 0%Z) (reverse demo_events).
Proof.
  apply retro_hunt_order_independent.
  - symmetry. apply reverse_Permutation.
  - compute_done.
Defined.
