(* ===== verification/Raft.v ===== *)
(** * [sigil-cluster/src/raft.rs]: the Raft state machine of one node

    [RaftNode] is a pure state machine: [tick], [step] and [propose] take the
    node and return the new node with the envelopes to send.  Slice and index
    panics of the Rust code are the value [None].  Terms, log indices and tick
    counts are unbounded naturals ([u64]/[u32] in the code: overflow would
    need 2^32 ticks without a leader or 2^64 elections); the seed arithmetic
    of [RaftNode::new] is kept at 64 bits. *)

From stdpp Require Import gmap strings list.
From S2P Require Import Prelude.

(** ** Data *)

Record LogEntry : Set := mkLog { le_term : nat; le_data : string }.

#[export] Instance LogEntry_eq_dec : EqDecision LogEntry.
Proof. solve_decision. Defined.

Inductive RaftMsg : Set :=
  | RequestVote (term : nat) (candidate : string) (last_log_index last_log_term : nat)
  | VoteReply (term : nat) (from : string) (granted : bool)
  | AppendEntries (term : nat) (leader : string) (prev_index prev_term : nat)
      (entries : list LogEntry) (leader_commit : nat)
  | AppendReply (term : nat) (from : string) (success : bool) (match_index : nat).

Record Envelope : Set := mkEnv { env_to : option string; env_msg : RaftMsg }.

Inductive RaftState : Type :=
  | Follower
  | Candidate (votes : nat)
  | Leader (next_index match_index : gmap string nat).

Record RaftNode : Type := mkNode {
  id : string;
  peers : list string;
  state : RaftState;
  term : nat;
  voted_for : option string;
  log : list LogEntry;
  commit : nat;
  leader_hint : option string;
  quiet_ticks : nat;
  election_after : nat;
  heartbeat_every : nat
}.

(** Field updates. *)
Definition set_state (s : RaftState) (n : RaftNode) : RaftNode :=
  mkNode (id n) (peers n) s (term n) (voted_for n) (log n) (commit n) (leader_hint n)
    (quiet_ticks n) (election_after n) (heartbeat_every n).
Definition set_term (t : nat) (n : RaftNode) : RaftNode :=
  mkNode (id n) (peers n) (state n) t (voted_for n) (log n) (commit n) (leader_hint n)
    (quiet_ticks n) (election_after n) (heartbeat_every n).
Definition set_vote (v : option string) (n : RaftNode) : RaftNode :=
  mkNode (id n) (peers n) (state n) (term n) v (log n) (commit n) (leader_hint n)
    (quiet_ticks n) (election_after n) (heartbeat_every n).
Definition set_log (l : list LogEntry) (n : RaftNode) : RaftNode :=
  mkNode (id n) (peers n) (state n) (term n) (voted_for n) l (commit n) (leader_hint n)
    (quiet_ticks n) (election_after n) (heartbeat_every n).
Definition set_commit (c : nat) (n : RaftNode) : RaftNode :=
  mkNode (id n) (peers n) (state n) (term n) (voted_for n) (log n) c (leader_hint n)
    (quiet_ticks n) (election_after n) (heartbeat_every n).
Definition set_hint (h : option string) (n : RaftNode) : RaftNode :=
  mkNode (id n) (peers n) (state n) (term n) (voted_for n) (log n) (commit n) h
    (quiet_ticks n) (election_after n) (heartbeat_every n).
Definition set_quiet (q : nat) (n : RaftNode) : RaftNode :=
  mkNode (id n) (peers n) (state n) (term n) (voted_for n) (log n) (commit n) (leader_hint n)
    q (election_after n) (heartbeat_every n).

(** ** Construction and accessors *)

(** The hash that spreads election timeouts, on 64-bit words. *)
Fixpoint seed_mix (x : Z) (bytes : string) : Z :=
  match bytes with
  | EmptyString => x
  | String b r => seed_mix (wrap_u64 (wrap_u64 (x * 0x100000001b3) + Z.of_N (N_of_ascii b))) r
  end.

Definition RaftNode_new (i : string) (ps : list string) (seed : Z) : RaftNode :=
  let x := seed_mix (Z.lxor seed 0x5851f42d4c957f2d) i in
  {| id := i; peers := ps; state := Follower; term := 0; voted_for := None; log := [];
     commit := 0; leader_hint := None; quiet_ticks := 0;
     election_after := 10 + Z.to_nat (x `mod` 10); heartbeat_every := 3 |}.

Definition is_leader (n : RaftNode) : bool :=
  match state n with Leader _ _ => true | _ => false end.

(** The accessor [RaftNode::leader_hint]. *)
Definition leader_of (n : RaftNode) : option string :=
  if is_leader n then Some (id n) else leader_hint n.

(** [&self.log[..self.commit]]: panics when [commit] is past the end. *)
Definition committed (n : RaftNode) : option (list LogEntry) :=
  if commit n <=? length (log n) then Some (take (commit n) (log n)) else None.

Definition last_index (n : RaftNode) : nat := length (log n).

Definition last_term (n : RaftNode) : nat :=
  match last (log n) with Some e => le_term e | None => 0 end.

(** [peers.len().div_ceil(2) + 1]. *)
Definition majority (n : RaftNode) : nat := (length (peers n) + 1) / 2 + 1.

(** ** Transitions *)

Definition become_follower (t : nat) (n : RaftNode) : RaftNode :=
  set_quiet 0 (set_vote None (set_state Follower (set_term t n))).

(** The append for one peer; the log accesses may panic. *)
Definition append_for (n : RaftNode) (next_index : gmap string nat) (peer : string) : option Envelope :=
  let next := default 1 (next_index !! peer) in
  let prev_index := next - 1 in
  prev_term ← (if bool_decide (prev_index = 0) then Some 0
               else le_term <$> log n !! (prev_index - 1));
  entries ← (if prev_index <=? length (log n) then Some (drop prev_index (log n)) else None);
  Some (mkEnv (Some peer)
          (AppendEntries (term n) (id n) prev_index prev_term entries (commit n))).

Definition broadcast_appends (n : RaftNode) : option (list Envelope) :=
  match state n with
  | Leader next_index _ => mapM (append_for n next_index) (peers n)
  | _ => Some []
  end.

(** [1 + match_index.values().filter(|m| m >= n).count()]. *)
Definition replicas (match_index : gmap string nat) (k : nat) : nat :=
  1 + length (filter (fun kv => k <= kv.2) (map_to_list match_index)).

(** May index [k] be committed by the leader [n]? *)
Definition committable (n : RaftNode) (match_index : gmap string nat) (k : nat) : Prop :=
  le_term <$> log n !! (k - 1) = Some (term n) /\ majority n <= replicas match_index k.

#[export] Instance committable_dec n mi k : Decision (committable n mi k).
Proof. unfold committable. apply _. Defined.

Definition advance_commit (n : RaftNode) : RaftNode :=
  match state n with
  | Leader _ match_index =>
      let range := reverse (seq (commit n + 1) (last_index n - commit n)) in
      match list_find (committable n match_index) range with
      | Some (_, k) => set_commit k n
      | None => n
      end
  | _ => n
  end.

Definition become_leader (n : RaftNode) : option (RaftNode * list Envelope) :=
  let next := last_index n + 1 in
  let n := set_quiet 0 (set_hint None (set_state
             (Leader (list_to_map ((fun p => (p, next)) <$> peers n))
                     (list_to_map ((fun p => (p, 0)) <$> peers n))) n)) in
  out ← broadcast_appends n; Some (n, out).

Definition start_election (n : RaftNode) : option (RaftNode * list Envelope) :=
  let n := set_quiet 0 (set_state (Candidate 1) (set_vote (Some (id n)) (set_term (term n + 1) n))) in
  match peers n with
  | [] => become_leader n
  | _ => Some (n, [mkEnv None (RequestVote (term n) (id n) (last_index n) (last_term n))])
  end.

Definition tick (n : RaftNode) : option (RaftNode * list Envelope) :=
  let n := set_quiet (quiet_ticks n + 1) n in
  match state n with
  | Leader _ _ =>
      if heartbeat_every n <=? quiet_ticks n then
        let n := set_quiet 0 n in
        out ← broadcast_appends n; Some (n, out)
      else Some (n, [])
  | _ => if election_after n <=? quiet_ticks n then start_election n else Some (n, [])
  end.

(** [Ok]/[Err] of [propose], inside the panic option. *)
Definition propose (data : string) (n : RaftNode) : option (result (RaftNode * list Envelope)) :=
  if negb (is_leader n) then Some (Err Other)
  else
    let n := advance_commit (set_log (log n ++ [mkLog (term n) data]) n) in
    out ← broadcast_appends n; Some (Ok (n, out)).

Definition up_to_date (n : RaftNode) (last_log_index last_log_term : nat) : bool :=
  bool_decide (last_term n < last_log_term) ||
  (bool_decide (last_log_term = last_term n) && bool_decide (last_index n <= last_log_index)).

Definition vote_available (n : RaftNode) (candidate : string) : bool :=
  match voted_for n with None => true | Some v => bool_decide (v = candidate) end.

Definition handle_request_vote (n : RaftNode) (t : nat) (candidate : string)
    (last_log_index last_log_term : nat) : RaftNode * list Envelope :=
  let n := if bool_decide (term n < t) then become_follower t n else n in
  let granted := bool_decide (t = term n) && up_to_date n last_log_index last_log_term
                 && vote_available n candidate in
  let n := if granted then set_quiet 0 (set_vote (Some candidate) n) else n in
  (n, [mkEnv (Some candidate) (VoteReply (term n) (id n) granted)]).

Definition handle_vote_reply (n : RaftNode) (t : nat) (granted : bool) :
    option (RaftNode * list Envelope) :=
  if bool_decide (term n < t) then Some (become_follower t n, [])
  else
    match state n with
    | Candidate votes =>
        if bool_decide (t = term n) && granted then
          let n := set_state (Candidate (votes + 1)) n in
          if majority n <=? votes + 1 then become_leader n else Some (n, [])
        else Some (n, [])
    | _ => Some (n, [])
    end.

(** The reply of a follower to an append. *)
Definition append_reply (n : RaftNode) (leader : string) (success : bool) (m : nat) : list Envelope :=
  [mkEnv (Some leader) (AppendReply (term n) (id n) success m)].

Definition is_follower (n : RaftNode) : bool :=
  match state n with Follower => true | _ => false end.

(** The consistency check on the entry before the new ones. *)
Definition prev_ok (n : RaftNode) (prev_index prev_term : nat) : bool :=
  bool_decide (prev_index = 0) ||
  match log n !! (prev_index - 1) with Some e => bool_decide (le_term e = prev_term) | None => false end.

Definition handle_append (n : RaftNode) (t : nat) (leader : string) (prev_index prev_term : nat)
    (entries : list LogEntry) (leader_commit : nat) : RaftNode * list Envelope :=
  let n := if bool_decide (term n < t) || (bool_decide (t = term n) && negb (is_follower n))
           then become_follower t n else n in
  if bool_decide (t < term n) then (n, append_reply n leader false 0)
  else
    let n := set_hint (Some leader) (set_quiet 0 n) in
    if negb (prev_ok n prev_index prev_term) then (n, append_reply n leader false 0)
    else
      let n := set_log (take prev_index (log n) ++ entries) n in
      let n := if bool_decide (commit n < leader_commit)
               then set_commit (leader_commit `min` last_index n) n else n in
      (n, append_reply n leader true (last_index n)).

Definition handle_append_reply (n : RaftNode) (t : nat) (from : string) (success : bool) (m : nat) :
    RaftNode :=
  if bool_decide (term n < t) then become_follower t n
  else
    match state n with
    | Leader next_index match_index =>
        if success then
          advance_commit (set_state (Leader (<[from := m + 1]> next_index) (<[from := m]> match_index)) n)
        else
          let k := default 1 (next_index !! from) in
          set_state (Leader (<[from := (k - 1) `max` 1]> next_index) match_index) n
    | _ => n
    end.

Definition step (n : RaftNode) (m : RaftMsg) : option (RaftNode * list Envelope) :=
  match m with
  | RequestVote t candidate lli llt => Some (handle_request_vote n t candidate lli llt)
  | VoteReply t _ granted => handle_vote_reply n t granted
  | AppendEntries t leader prev_index prev_term entries leader_commit =>
      Some (handle_append n t leader prev_index prev_term entries leader_commit)
  | AppendReply t from success m => Some (handle_append_reply n t from success m, [])
  end.

(** ** The driver *)

(** [RaftDriver::decode_step] on a decoded message: a node does not answer
    its own broadcast vote request. *)
Definition decode_step (n : RaftNode) (m : RaftMsg) : option (RaftNode * list Envelope) :=
  match m with
  | RequestVote _ candidate _ _ =>
      if bool_decide (candidate = id n) then Some (n, []) else step n m
  | _ => step n m
  end.

Definition topic_for (cluster node : string) : string := "raft." +:+ cluster +:+ "." +:+ node.
Definition topic_bcast (cluster : string) : string := "raft." +:+ cluster +:+ ".bcast".

(** [RaftDriver::send]: the topic each message is published on. *)
Definition publications (cluster : string) (out : list Envelope) : list (string * RaftMsg) :=
  (fun e => (match env_to e with
             | Some node => topic_for cluster node
             | None => topic_bcast cluster
             end, env_msg e)) <$> out.

(** ** The transitions, one lemma each *)

Ltac raft_simpl :=
  cbn [id peers state term voted_for log commit leader_hint quiet_ticks election_after heartbeat_every
       set_state set_term set_vote set_log set_commit set_hint set_quiet become_follower is_leader
       is_follower last_index last_term majority env_to env_msg] in *.

(** Case analysis on every test of the handler at hand. *)
Ltac raft_cases :=
  repeat (raft_simpl; case_match); repeat case_bool_decide; simplify_option_eq; raft_simpl.

Lemma bind_Some_out {A} (o : option (list Envelope)) (n n' : A) out :
  (o ≫= fun out => Some (n, out)) = Some (n', out) -> n' = n /\ o = Some out.
Proof. destruct o; simpl; intros H; naive_solver. Qed.

Lemma Some_fst {A B} (p : A * B) a b : Some p = Some (a, b) -> a = p.1.
Proof. by intros [= ->]. Qed.

Lemma advance_commit_frame n :
  exists k, advance_commit n = set_commit k n /\ commit n <= k <= commit n `max` last_index n.
Proof.
  assert (exists k, n = set_commit k n /\ commit n <= k <= commit n `max` last_index n) as Hsame.
  { exists (commit n). split; [destruct n; done|lia]. }
  unfold advance_commit. destruct (state n) eqn:E; [done..|].
  case_match eqn:Hl; [|done].
  destruct p as [j k]. exists k. split; [done|].
  apply list_find_Some in Hl as (Hl & _).
  apply list_elem_of_lookup_2, elem_of_reverse, elem_of_seq in Hl. lia.
Qed.

Lemma become_leader_state n n' out : become_leader n = Some (n', out) ->
  exists ni mi, n' = set_quiet 0 (set_hint None (set_state (Leader ni mi) n)) /\
  broadcast_appends n' = Some out.
Proof. unfold become_leader. intros [-> H]%bind_Some_out. eauto. Qed.

Lemma start_election_state n n' out : start_election n = Some (n', out) ->
  (term n' = term n + 1 /\ voted_for n' = Some (id n) /\ log n' = log n /\ id n' = id n /\
   commit n' = commit n) /\ peers n' = peers n /\ election_after n' = election_after n /\
  ((peers n = [] /\ is_leader n' = true /\ out = []) \/
   (peers n <> [] /\ state n' = Candidate 1 /\
    out = [mkEnv None (RequestVote (term n') (id n) (last_index n) (last_term n))])).
Proof.
  unfold start_election. raft_simpl. destruct (peers n) eqn:E.
  - intros (ni & mi & -> & Hb)%become_leader_state. unfold broadcast_appends in Hb. raft_simpl.
    rewrite E in Hb. simpl in Hb. simplify_eq. rewrite E.
    split_and!; [done..|]. left. injection Hb as <-. done.
  - intros [= <- <-]. raft_simpl. rewrite E. split_and!; [done..|]. right. done.
Qed.

Lemma broadcast_appends_elem n out e : broadcast_appends n = Some out -> In e out ->
  exists p prev prev_t entries, In p (peers n) /\
    e = mkEnv (Some p) (AppendEntries (term n) (id n) prev prev_t entries (commit n)) /\
    is_leader n = true /\ entries = drop prev (log n) /\ prev <= length (log n) /\
    (prev = 0 \/ le_term <$> log n !! (prev - 1) = Some prev_t).
Proof.
  unfold broadcast_appends, is_leader. case_match; [intros [= <-]; done..|].
  intros Hm%mapM_Some Hin. apply list_elem_of_In in Hin.
  apply list_elem_of_lookup_1 in Hin as [j Hj].
  eapply Forall2_lookup_r in Hm as (p & Hp & Ha); [|done].
  apply list_elem_of_lookup_2, list_elem_of_In in Hp.
  apply bind_Some in Ha as (pt & Ht & (entries & He & [= <-])%bind_Some).
  destruct (_ <=? _) eqn:Hle in He; [|done]. injection He as <-. apply Nat.leb_le in Hle.
  eexists p, _, pt, _. split_and!; [done..|].
  case_bool_decide; simplify_eq; [left; lia|right; done].
Qed.

(** ** What one node does, whatever arrives *)

(** One reaction of a node, with the envelopes it sends. *)
Inductive moves (n n' : RaftNode) (out : list Envelope) : Prop :=
  | moves_tick : tick n = Some (n', out) -> moves n n' out
  | moves_propose data : propose data n = Some (Ok (n', out)) -> moves n n' out
  | moves_step m : decode_step n m = Some (n', out) -> moves n n' out.

(** Term, vote, role and log of a node do not go backwards: the only way to
    lose a vote inside a term is to step down from candidate or leader. *)
Definition forward (n n' : RaftNode) : Prop :=
  (term n < term n' \/
   (term n' = term n /\
    (voted_for n = None \/ voted_for n' = voted_for n \/
     (is_follower n = false /\ is_follower n' = true)) /\
    (is_leader n = true -> is_leader n' = true -> exists new, log n' = log n ++ new))) /\
  id n' = id n /\ peers n' = peers n /\ election_after n' = election_after n.

Lemma forward_refl n : forward n n.
Proof. split; [|done]. right. split_and!; [done|auto|]. exists []. by rewrite app_nil_r. Qed.

Lemma forward_same n n' :
  term n' = term n -> voted_for n' = voted_for n -> log n' = log n -> id n' = id n ->
  peers n' = peers n -> election_after n' = election_after n -> forward n n'.
Proof.
  intros. split; [|done]. right. split_and!; [done|auto|]. exists []. by rewrite app_nil_r.
Qed.

Lemma forward_tick n n' out : tick n = Some (n', out) -> forward n n'.
Proof.
  unfold tick. raft_simpl. intros H.
  assert (forall m, start_election (set_quiet (quiet_ticks n + 1) n) = Some (m, out) -> forward n m) as He.
  { intros m (Hs & Hp & He & _)%start_election_state. destruct_and!. raft_simpl.
    split; [left; lia|done]. }
  repeat case_match; simplify_eq; try (by apply He); try (by apply forward_same).
  apply bind_Some_out in H as [-> _]. by apply forward_same.
Qed.

Lemma forward_propose data n n' out : propose data n = Some (Ok (n', out)) -> forward n n'.
Proof.
  unfold propose. case_match eqn:Hl; [done|]. intros (o & Hb & [= <- <-])%bind_Some.
  edestruct advance_commit_frame as (k & -> & _). split; [|done]. right. raft_simpl.
  split_and!; [done|auto|eauto].
Qed.

Lemma forward_request_vote n t c lli llt : forward n (handle_request_vote n t c lli llt).1.
Proof.
  unfold handle_request_vote. cbn [fst]. destruct (decide (term n < t)) as [Ht|Ht].
  - rewrite (bool_decide_true _ Ht). case_match; (split; [left; raft_simpl; lia|done]).
  - rewrite (bool_decide_false _ Ht). case_match eqn:Hg; [|apply forward_refl].
    apply andb_true_iff in Hg as [_ Hg]. unfold vote_available in Hg.
    split; [right; raft_simpl|done]. split_and!; [done| |intros; exists []; by rewrite app_nil_r].
    case_match eqn:Hv; [right; left|by left]. apply bool_decide_eq_true in Hg. by subst.
Qed.

Lemma forward_vote_reply n t g n' out : handle_vote_reply n t g = Some (n', out) -> forward n n'.
Proof.
  unfold handle_vote_reply. case_bool_decide; [intros [= <- <-]; split; [left; done|done]|].
  repeat case_match; intros Hb; simplify_eq; try apply forward_refl; try by apply forward_same.
  apply become_leader_state in Hb as (ni & mi & -> & _). by apply forward_same.
Qed.

Lemma forward_append n t l pi pt es lc : forward n (handle_append n t l pi pt es lc).1.
Proof.
  unfold handle_append. destruct (bool_decide (term n < t) || _) eqn:Hdown.
  - apply orb_true_iff in Hdown as [Hlt%bool_decide_eq_true | [He%bool_decide_eq_true Hf]%andb_true_iff].
    + repeat case_match; (split; [left; done|done]).
    + apply negb_true_iff in Hf.
      repeat case_match; (split; [right; raft_simpl|done]); (split_and!; [done|auto|done]).
  - destruct (is_leader n) eqn:Hl.
    + (* a leader that does not step down rejects the append *)
      assert (is_follower n = false) as Hf by (unfold is_leader, is_follower in *; by destruct (state n)).
      rewrite Hf, andb_true_r in Hdown. apply orb_false_iff in Hdown as [H1 H2].
      apply bool_decide_eq_false in H1, H2. rewrite bool_decide_true by lia. apply forward_refl.
    + repeat case_match; (split; [right|done]); (split_and!; [done|auto|congruence]).
Qed.

Lemma forward_append_reply n t f s m : forward n (handle_append_reply n t f s m).
Proof.
  unfold handle_append_reply. case_bool_decide; [split; [left; done|done]|].
  repeat case_match; try apply forward_refl; [|by apply forward_same].
  edestruct advance_commit_frame as (k & -> & _). by apply forward_same.
Qed.

Lemma moves_forward n n' out : moves n n' out -> forward n n'.
Proof.
  intros [H|d H|m H]; [by eapply forward_tick|by eapply forward_propose|].
  assert (step n m = Some (n', out) -> forward n n') as Hs.
  { destruct m; simpl; intros Hm.
    - rewrite (Some_fst _ _ _ Hm). apply forward_request_vote.
    - by eapply forward_vote_reply.
    - rewrite (Some_fst _ _ _ Hm). apply forward_append.
    - injection Hm as <- _. apply forward_append_reply. }
  unfold decode_step in H. repeat case_match; auto. simplify_eq. apply forward_refl.
Qed.

(** ** Commitment *)

Lemma advance_commit_cases n ni mi : state n = Leader ni mi ->
  (advance_commit n = n /\ forall k, commit n < k <= last_index n -> ~ committable n mi k) \/
  (exists k, advance_commit n = set_commit k n /\ commit n < k <= last_index n /\ committable n mi k /\
     forall j, k < j <= last_index n -> ~ committable n mi j).
Proof.
  intros Hs. unfold advance_commit. rewrite Hs.
  set (r := seq (commit n + 1) (last_index n - commit n)).
  assert (forall k, k ∈ reverse r <-> commit n < k <= last_index n) as Hin.
  { intros k. rewrite elem_of_reverse. unfold r. rewrite elem_of_seq. lia. }
  destruct (list_find _ _) as [[i k]|] eqn:Hf.
  - right. exists k. apply list_find_Some in Hf as (Hi & Hc & Hmax).
    split_and!; [done|apply Hin; by eapply list_elem_of_lookup_2..|done|].
    intros j Hj. assert (exists i', reverse r !! i' = Some j) as [i' Hi'].
    { apply list_elem_of_lookup_1, Hin. apply list_elem_of_lookup_2 in Hi. apply Hin in Hi. lia. }
    eapply Hmax; [done|].
    (* the reversed range is decreasing *)
    assert (forall p x, reverse r !! p = Some x -> x + p = last_index n /\ p < last_index n - commit n) as Hval.
    { intros p x Hp. apply reverse_lookup_Some in Hp as [Hp Hlt]. unfold r in *.
      rewrite length_seq in *. apply lookup_seq in Hp. lia. }
    apply Hval in Hi, Hi'. lia.
  - left. split; [done|]. intros k Hk. apply list_find_None in Hf.
    rewrite Forall_forall in Hf. apply Hf. by apply Hin.
Qed.

(** [rounds] of the replication of the leader's log to one follower: the
    leader's append, the follower's answer, the leader's reaction. *)
Definition exchange (nf : RaftNode * RaftNode) : option (RaftNode * RaftNode) :=
  match state nf.1 with
  | Leader next_index _ =>
      env ← append_for nf.1 next_index (id nf.2);
      '(f, replies) ← step nf.2 (env_msg env);
      reply ← head replies;
      '(n, _) ← step nf.1 (env_msg reply);
      Some (n, f)
  | _ => None
  end.

Fixpoint exchanges (k : nat) (nf : RaftNode * RaftNode) : option (RaftNode * RaftNode) :=
  match k with
  | O => Some nf
  | S k => nf ← exchange nf; exchanges k nf
  end.

(** Raft's log matching property for two logs. *)
Definition log_match (l1 l2 : list LogEntry) : Prop :=
  forall k e1 e2, l1 !! k = Some e1 -> l2 !! k = Some e2 -> le_term e1 = le_term e2 ->
    take (S k) l1 = take (S k) l2.

(** Every peer's cursor is inside the leader's log. *)
Definition cursors_ok (n : RaftNode) : Prop :=
  match state n with
  | Leader next_index _ => forall p k, next_index !! p = Some k -> 1 <= k <= length (log n) + 1
  | _ => True
  end.

Lemma append_for_spec n ni p k :
  ni !! p = Some k -> 1 <= k <= length (log n) + 1 ->
  exists pt, append_for n ni p = Some (mkEnv (Some p)
    (AppendEntries (term n) (id n) (k - 1) pt (drop (k - 1) (log n)) (commit n))) /\
    (k - 1 = 0 \/ le_term <$> log n !! (k - 1 - 1) = Some pt).
Proof.
  intros Hk Hr. unfold append_for. rewrite Hk. simpl. case_bool_decide as H0; simpl.
  - rewrite H0. exists 0. auto.
  - destruct (lookup_lt_is_Some_2 (log n) (k - 1 - 1)) as [e He]; [lia|]. rewrite He. simpl.
    destruct (_ <=? _) eqn:Hle; [|apply Nat.leb_gt in Hle; lia]. simpl. eauto.
Qed.

(** What a follower of the leader's term (or older) does with an append. *)
Lemma handle_append_accepts f t l pi pt es lc :
  term f < t \/ (term f = t /\ is_follower f = true) ->
  exists f', handle_append f t l pi pt es lc = (f', append_reply f' l (prev_ok f pi pt)
      (if prev_ok f pi pt then last_index f' else 0)) /\
    id f' = id f /\ term f' = t /\ is_follower f' = true /\
    log f' = (if prev_ok f pi pt then take pi (log f) ++ es else log f) /\
    commit f' = (if prev_ok f pi pt
                 then (if bool_decide (commit f < lc) then lc `min` length (take pi (log f) ++ es)
                       else commit f)
                 else commit f).
Proof.
  intros H. unfold handle_append.
  assert (exists f0, (if bool_decide (term f < t) || bool_decide (t = term f) && negb (is_follower f)
                      then become_follower t f else f) = f0 /\ term f0 = t /\ is_follower f0 = true /\
    log f0 = log f /\ commit f0 = commit f /\ id f0 = id f) as (f0 & -> & Ht & Hf & Hl & Hc & Hi).
  { destruct H as [H|[H1 H2]]; [rewrite bool_decide_true by done; eexists; done|].
    rewrite bool_decide_false, H2 by lia. rewrite andb_false_r. simpl. by exists f. }
  rewrite bool_decide_false by lia.
  replace (prev_ok (set_hint (Some l) (set_quiet 0 f0)) pi pt) with (prev_ok f pi pt)
    by (unfold prev_ok; raft_simpl; by rewrite Hl).
  destruct (prev_ok f pi pt); simpl; [|eexists; split_and!; done].
  eexists. split; [reflexivity|]. rewrite <- Hc, <- Hl. unfold last_index. raft_simpl.
  case_bool_decide; raft_simpl; done.
Qed.

(** The state of one replication pair between two rounds. *)
Record pair_ok (n f : RaftNode) (k : nat) : Prop := {
  po_leader : exists ni mi, state n = Leader ni mi /\ ni !! id f = Some k;
  po_cursor : 1 <= k <= length (log n) + 1;
  po_term : term f < term n \/ (term f = term n /\ is_follower f = true);
  po_match : log_match (log f) (log n)
}.

Definition caught_up (n n' f' : RaftNode) : Prop :=
  log f' = log n /\ log n' = log n /\ is_follower f' = true /\ term f' = term n /\
  exists ni mi, state n' = Leader ni mi /\ mi !! id f' = Some (length (log n)) /\
    ni !! id f' = Some (length (log n) + 1).

Lemma prev_ok_match f n pi pt : log_match (log f) (log n) ->
  (pi = 0 \/ le_term <$> log n !! (pi - 1) = Some pt) -> prev_ok f pi pt = true ->
  take pi (log f) ++ drop pi (log n) = log n.
Proof.
  intros Hm Hpt Hok. rewrite <- (take_drop pi (log n)) at 2. f_equal.
  destruct Hpt as [->|Hpt]; [done|]. unfold prev_ok in Hok.
  destruct (decide (pi = 0)) as [->|Hpi]; [done|]. rewrite bool_decide_false in Hok by done.
  simpl in Hok. case_match eqn:Hf; [|done]. apply bool_decide_eq_true in Hok.
  apply fmap_Some in Hpt as (e' & Hn & ->).
  replace pi with (S (pi - 1)) by lia. by eapply Hm.
Qed.

Lemma exchange_round n f k : pair_ok n f k ->
  exists n' f', exchange (n, f) = Some (n', f') /\
    (caught_up n n' f' \/
     (1 < k /\ pair_ok n' f' (k - 1) /\ log n' = log n /\ term n' = term n /\ id f' = id f)).
Proof.
  intros [(ni & mi & Hs & Hk) Hr Ht Hm]. unfold exchange. cbn [fst snd]. rewrite Hs.
  destruct (append_for_spec n ni (id f) k Hk Hr) as (pt & -> & Hpt). simpl.
  destruct (handle_append_accepts f (term n) (id n) (k - 1) pt (drop (k - 1) (log n)) (commit n) Ht)
    as (f' & -> & Hid & Ht' & Hf' & Hl & _). simpl.
  unfold handle_append_reply. rewrite bool_decide_false, Hs by lia.
  destruct (prev_ok f (k - 1) pt) eqn:Hok; simpl.
  - rewrite (prev_ok_match f n _ pt) in Hl by done.
    eexists _, f'. split; [reflexivity|]. left. unfold caught_up.
    edestruct (advance_commit_frame (set_state (Leader (<[id f':=last_index f' + 1]> ni)
      (<[id f':=last_index f']> mi)) n)) as (c & -> & _). raft_simpl.
    split_and!; [done..|]. eexists _, _. split; [reflexivity|]. unfold last_index. rewrite Hl.
    by rewrite !lookup_insert_eq.
  - eexists _, f'. split; [reflexivity|]. right.
    assert (1 < k) as Hk1.
    { destruct (decide (k = 1)) as [->|]; [done|lia]. }
    split; [done|]. split; [|raft_simpl; done].
    rewrite Hid, Hk. cbn [default from_option].
    replace (default 1 (Some k)) with k by done. split; raft_simpl.
    + eexists _, _. rewrite Hid, lookup_insert_eq. split; [done|]. f_equal. unfold Datatypes.id. lia.
    + lia.
    + auto.
    + by rewrite Hl.
Qed.

Lemma exchanges_catch_up k n f : pair_ok n f k ->
  exists j n' f', 1 <= j <= k /\ exchanges j (n, f) = Some (n', f') /\ caught_up n n' f'.
Proof.
  revert n f. induction k as [|k IH]; intros n f Hp; [destruct (po_cursor _ _ _ Hp); lia|].
  destruct (exchange_round n f (S k) Hp) as (n1 & f1 & He & [Hc|(Hk & Hp1 & Hl & Ht & Hi)]).
  - exists 1, n1, f1. split; [lia|]. simpl. rewrite He. done.
  - rewrite Nat.sub_succ, Nat.sub_0_r in Hp1.
    destruct (IH n1 f1 Hp1) as (j & n2 & f2 & Hj & He2 & Hc). exists (S j), n2, f2.
    split; [lia|]. simpl. rewrite He. simpl. split; [done|].
    unfold caught_up in *. by rewrite Hl, Ht in Hc.
Qed.

(** ** Freedom from panics *)

Lemma prev_ok_le n pi pt : prev_ok n pi pt = true -> pi <= length (log n).
Proof.
  unfold prev_ok. intros [->%bool_decide_eq_true|H]%orb_true_iff; [lia|].
  case_match eqn:He; [|done]. apply lookup_lt_Some in He. lia.
Qed.

Record node_ok (n : RaftNode) : Prop := {
  no_commit : commit n <= length (log n);
  no_cursors : cursors_ok n
}.

(** What a node needs of a message: a leader, that the index it acknowledges
    is in its log; a follower, that an append does not end before its commit
    index. *)
Definition msg_ok (n : RaftNode) (m : RaftMsg) : Prop :=
  match m with
  | AppendReply _ _ true k => k <= length (log n)
  | AppendEntries t _ prev_index _ entries _ =>
      term n <= t -> commit n <= prev_index + length entries
  | _ => True
  end.

Lemma broadcast_appends_total n : cursors_ok n -> is_Some (broadcast_appends n).
Proof.
  unfold cursors_ok, broadcast_appends. case_match; [done..|]. intros Hc.
  apply mapM_is_Some, Forall_forall. intros p _. change (is_Some (append_for n next_index p)).
  destruct (next_index !! p) as [k|] eqn:Hk.
  - destruct (append_for_spec n next_index p k Hk (Hc _ _ Hk)) as (pt & -> & _). done.
  - unfold append_for. rewrite Hk. simpl. done.
Qed.

Lemma cursors_ok_same n n' : state n' = state n -> log n' = log n -> cursors_ok n -> cursors_ok n'.
Proof. unfold cursors_ok. by intros -> ->. Qed.

Lemma advance_commit_ok n : node_ok n -> node_ok (advance_commit n).
Proof.
  intros [Hc Hk]. destruct (advance_commit_frame n) as (k & -> & Hr).
  unfold last_index in Hr. split; [raft_simpl; lia|]. by eapply cursors_ok_same.
Qed.

Lemma become_leader_ok n : commit n <= length (log n) ->
  exists n' out, become_leader n = Some (n', out) /\ node_ok n'.
Proof.
  intros Hc. unfold become_leader.
  match goal with |- context [broadcast_appends ?m] => set (n1 := m) end.
  assert (node_ok n1) as Hn.
  { split; [done|]. unfold cursors_ok, n1. raft_simpl. intros p k Hp.
    apply elem_of_list_to_map_2, list_elem_of_fmap in Hp as (q & [= -> ->] & _).
    unfold last_index. lia. }
  destruct (broadcast_appends_total n1) as [o ->]; [by destruct Hn|]. simpl. eauto.
Qed.

Lemma tick_ok n : node_ok n -> exists n' out, tick n = Some (n', out) /\ node_ok n'.
Proof.
  intros [Hc Hk].
  assert (forall q, node_ok (set_quiet q n)) as Hq by (intros q; split; [done|by eapply cursors_ok_same]).
  assert (exists n' out, start_election (set_quiet (quiet_ticks n + 1) n) = Some (n', out) /\ node_ok n')
    as He.
  { unfold start_election. raft_simpl. case_match; [by apply become_leader_ok|].
    eexists _, _. split; [reflexivity|]. by split. }
  unfold tick. raft_simpl. repeat case_match; eauto.
  destruct (broadcast_appends_total (set_quiet 0 (set_quiet (quiet_ticks n + 1) n))) as [o ->].
  - by eapply cursors_ok_same.
  - simpl. eexists _, _. split; [reflexivity|]. apply Hq.
Qed.

Lemma propose_ok data n : node_ok n -> is_leader n = true ->
  exists n' out, propose data n = Some (Ok (n', out)) /\ node_ok n'.
Proof.
  intros [Hc Hk] Hl. unfold propose. rewrite Hl. cbn [negb].
  match goal with |- context [advance_commit ?m] => assert (node_ok (advance_commit m)) as Hn end.
  { apply advance_commit_ok. split; raft_simpl; [rewrite length_app; lia|].
    unfold cursors_ok in *. raft_simpl. case_match; [done..|]. intros p k Hp.
    apply Hk in Hp. rewrite length_app. lia. }
  edestruct broadcast_appends_total as [o ->]; [by destruct Hn|]. simpl. eauto.
Qed.

Lemma accept_ok n pi es lc : is_follower n = true -> pi <= length (log n) ->
  commit n <= pi + length es ->
  node_ok (let n := set_log (take pi (log n) ++ es) n in
           if bool_decide (commit n < lc) then set_commit (lc `min` last_index n) n else n).
Proof.
  intros Hf Hpi Hm. assert (length (take pi (log n) ++ es) = pi + length es) as Hlen.
  { rewrite length_app, length_take. lia. }
  split.
  - cbv zeta. destruct (bool_decide _); unfold last_index; raft_simpl; lia.
  - unfold cursors_ok, is_follower in *. cbv zeta. destruct (bool_decide _); raft_simpl; by destruct (state n).
Qed.

Lemma handle_append_ok n t l pi pt es lc : node_ok n ->
  (term n <= t -> commit n <= pi + length es) -> node_ok (handle_append n t l pi pt es lc).1.
Proof.
  intros [Hc Hk] Hm. unfold handle_append.
  destruct (bool_decide (term n < t) || _) eqn:Hd.
  - assert (term n <= t) as Ht.
    { apply orb_true_iff in Hd as [?%bool_decide_eq_true | [?%bool_decide_eq_true _]%andb_true_iff]; lia. }
    rewrite bool_decide_false by (raft_simpl; lia).
    destruct (prev_ok _ _ _) eqn:Hp; cbn [negb fst]; [|by split].
    apply accept_ok; [done|by eapply prev_ok_le|raft_simpl; auto].
  - apply orb_false_iff in Hd as [Hd1%bool_decide_eq_false Hd2].
    destruct (decide (t < term n)) as [Ht|Ht]; [by rewrite (bool_decide_true _ Ht)|].
    rewrite (bool_decide_false _ Ht). assert (is_follower n = true) as Hf.
    { destruct (is_follower n); [done|]. rewrite bool_decide_true in Hd2 by lia. done. }
    destruct (prev_ok _ _ _) eqn:Hp; cbn [negb fst]; [|by split].
    apply accept_ok; [done|by eapply prev_ok_le|raft_simpl; apply Hm; lia].
Qed.

Lemma decode_step_ok n m : node_ok n -> msg_ok n m ->
  exists n' out, decode_step n m = Some (n', out) /\ node_ok n'.
Proof.
  intros Hn Hm. assert (exists n' out, step n m = Some (n', out) /\ node_ok n') as Hs.
  { destruct Hn as [Hc Hk]. destruct m as [t c lli llt|t f g|t l pi pt es lc|t f s k]; cbn [step].
    - eexists _, _. split; [reflexivity|].
      repeat case_match; split; raft_simpl; done.
    - unfold handle_vote_reply. repeat case_match; try (eexists _, _; split; [reflexivity|]; by split).
      by apply become_leader_ok.
    - destruct (handle_append n t l pi pt es lc) as [n' out] eqn:He. eexists _, _.
      split; [reflexivity|]. change n' with (n', out).1. rewrite <- He. by apply handle_append_ok.
    - eexists _, _. split; [reflexivity|]. unfold handle_append_reply.
      case_match; [by split|]. case_match eqn:Hst; try by split. unfold cursors_ok in Hk. rewrite Hst in Hk.
      simpl in Hm. destruct s.
      + apply advance_commit_ok. split; raft_simpl; [done|]. unfold cursors_ok. raft_simpl.
        intros p j [[_ <-]|[_ Hp]]%lookup_insert_Some; [lia|eauto].
      + split; [done|]. unfold cursors_ok. raft_simpl. intros p j [[_ <-]|[_ Hp]]%lookup_insert_Some; [|eauto].
        destruct (next_index !! f) as [q|] eqn:Hq; simpl; [apply Hk in Hq|]; unfold Datatypes.id; lia. }
  unfold decode_step. destruct m; try done. case_bool_decide; eauto.
Qed.

(** ** The election timer *)

(** [k] ticks without a message. *)
Fixpoint ticks (k : nat) (n : RaftNode) : option (RaftNode * list Envelope) :=
  match k with
  | O => Some (n, [])
  | S k => '(n, out) ← tick n; '(n', out') ← ticks k n; Some (n', out ++ out')
  end.

Lemma quiet_tick n : is_leader n = false -> quiet_ticks n + 1 < election_after n ->
  tick n = Some (set_quiet (quiet_ticks n + 1) n, []).
Proof.
  intros Hl Hq. unfold tick, is_leader in *. raft_simpl.
  rewrite (proj2 (Nat.leb_gt _ _)) by lia. by destruct (state n).
Qed.

Lemma election_tick n : is_leader n = false -> election_after n <= quiet_ticks n + 1 ->
  tick n = start_election (set_quiet (quiet_ticks n + 1) n).
Proof.
  intros Hl Hq. unfold tick, is_leader in *. raft_simpl.
  rewrite (proj2 (Nat.leb_le _ _)) by lia. by destruct (state n).
Qed.

Lemma set_quiet_quiet a b n : set_quiet a (set_quiet b n) = set_quiet a n.
Proof. done. Qed.

Lemma quiet_ticks_run k n : is_leader n = false -> quiet_ticks n + k < election_after n ->
  ticks k n = Some (set_quiet (quiet_ticks n + k) n, []).
Proof.
  revert n. induction k as [|k IH]; intros n Hl Hq.
  - rewrite Nat.add_0_r. by destruct n.
  - cbn [ticks]. rewrite quiet_tick by (done || lia). cbn [mbind option_bind].
    rewrite IH; raft_simpl; [|done|lia]. cbn [mbind option_bind]. rewrite set_quiet_quiet.
    by rewrite <- Nat.add_assoc.
Qed.

Lemma ticks_snoc k n n1 out1 : ticks k n = Some (n1, out1) ->
  ticks (S k) n = '(n2, out2) ← tick n1; Some (n2, out1 ++ out2).
Proof.
  revert n n1 out1. induction k as [|k IH]; intros n n1 out1 H.
  - injection H as <- <-. cbn [ticks]. destruct (tick n) as [[n2 out2]|]; [|done]. simpl.
    by rewrite app_nil_r.
  - cbn [ticks] in H. destruct (tick n) as [[n0 o0]|] eqn:Ht; [|done]. cbn [mbind option_bind] in H.
    destruct (ticks k n0) as [[n' o']|] eqn:Hk; [|done]. simpl in H. simplify_eq.
    change (ticks (S (S k)) n) with ('(n, out) ← tick n; '(n', out') ← ticks (S k) n; Some (n', out ++ out')).
    rewrite Ht. cbn [mbind option_bind]. rewrite (IH _ _ _ Hk).
    destruct (tick n1) as [[n2 o2]|]; [|done]. simpl. by rewrite app_assoc.
Qed.

Lemma election_after_range i ps seed :
  10 <= election_after (RaftNode_new i ps seed) <= 19.
Proof.
  unfold RaftNode_new. cbn [election_after].
  pose proof (Z.mod_pos_bound (seed_mix (Z.lxor seed 0x5851f42d4c957f2d) i) 10 ltac:(lia)). lia.
Qed.

(** ** Properties *)

(** No reaction of a node (tick, proposal, message) lowers its term or
    changes its identity, peers or election timeout.  Inside a term the vote is
    kept, unless the node steps down from candidate or leader, and the log of
    a node that leads before and after only grows at its end. *)
Theorem term_vote_log_forward n n' out : moves n n' out ->
  term n <= term n' /\
  id n' = id n /\ peers n' = peers n /\ election_after n' = election_after n /\
  (term n' = term n -> forall c, voted_for n = Some c ->
     voted_for n' = Some c \/ (is_follower n = false /\ is_follower n' = true)) /\
  (term n' = term n -> is_leader n = true -> is_leader n' = true -> log n `prefix_of` log n').
Proof.
  intros ([Ht | (Ht & Hv & Hl)] & Hrest)%moves_forward; (split; [lia|]); (split_and!; try apply Hrest).
  - lia.
  - lia.
  - intros _ c Hc. destruct Hv as [Hv|[Hv|Hv]]; [congruence|left; congruence|by right].
  - intros _ H1 H2. by apply Hl.
Qed.

Definition demo_leader : RaftNode :=
  mkNode "a" ["b"; "c"] (Leader {["b" := 3; "c" := 3]} {["b" := 0; "c" := 0]}) 2 (Some "a"%string)
    [mkLog 1 "x"; mkLog 2 "y"] 0 None 0 12 3.
Definition demo_follower : RaftNode :=
  mkNode "b" ["a"; "c"] Follower 1 None [mkLog 1 "x"; mkLog 1 "w"; mkLog 1 "v"] 0 None 0 14 3.

Example term_vote_log_forward_witness :
  exists n', term demo_follower <= term n' /\ term n' = 2 /\ voted_for n' = Some "a"%string.
Proof.
  eexists. split.
  - eapply (term_vote_log_forward demo_follower), (moves_step _ _ _ (RequestVote 2 "a" 2 2)). reflexivity.
  - vm_compute. split; reflexivity.
Defined.

(** C2: Replication catches up.  A leader whose cursor for a follower is [k]
    and a follower whose log satisfies log matching reach, after at most [k]
    rounds of append and reply without loss, a state in which the follower's
    log is the leader's and the leader knows it ([match_index] is its last
    index, [next_index] the one after); no round panics. *)
Theorem replication_catches_up n f k : pair_ok n f k ->
  exists j n' f', 1 <= j <= k /\ exchanges j (n, f) = Some (n', f') /\ caught_up n n' f'.
Proof. apply exchanges_catch_up. Qed.

Example replication_catches_up_witness :
  exists j n' f', 1 <= j <= 3 /\ exchanges j (demo_leader, demo_follower) = Some (n', f') /\
    caught_up demo_leader n' f'.
Proof.
  apply (replication_catches_up demo_leader demo_follower 3). split; simpl.
  - eexists _, _. split; reflexivity.
  - lia.
  - lia.
  - intros [|[|[|k]]] e1 e2; simpl; intros [= <-] [= <-]; simpl; try done.
Defined.

(** The commit rule.  [advance_commit] moves the commit index only
    forward, to the highest index whose entry is of the leader's own term and
    which a majority (the leader and [match_index]) holds; when there is none
    it leaves the node as it was. *)
Theorem advance_commit_spec n ni mi : state n = Leader ni mi ->
  let n' := advance_commit n in
  n' = set_commit (commit n') n /\
  (forall k, commit n < k <= last_index n ->
     (le_term <$> log n !! (k - 1) = Some (term n) /\ majority n <= replicas mi k) -> k <= commit n') /\
  (commit n' = commit n \/
   (commit n < commit n' <= last_index n /\ le_term <$> log n !! (commit n' - 1) = Some (term n) /\
    majority n <= replicas mi (commit n'))).
Proof.
  intros Hs. cbv zeta. destruct (advance_commit_cases n ni mi Hs) as [[-> Hno]|(k & -> & Hk & [Ht Hr] & Hmax)].
  - split_and!; [by destruct n| |by left]. intros k Hk Hc. by destruct (Hno k Hk).
  - raft_simpl. split_and!; [done| |right; destruct Hk; by split_and!].
    intros j Hj Hc. destruct (decide (k < j)); [|lia]. destruct (Hmax j); [lia|done].
Qed.

Example advance_commit_spec_witness :
  let n := handle_append_reply demo_leader 2 "b" true 2 in commit n = 2 /\ commit n <= 2.
Proof.
  split; [reflexivity|].
  destruct (advance_commit_spec demo_leader _ _ eq_refl) as (_ & _ & [H|H]); vm_compute; lia.
Defined.

(** C3: Freedom from panics.  A node whose commit index and peer cursors lie
    inside its log never panics and stays such a node, on a tick, on a
    proposal, and on any message that does not acknowledge entries the leader
    never had and, for an append, does not end before the commit index; its
    committed prefix can be read. *)
Theorem no_panic n : node_ok n ->
  (exists n' out, tick n = Some (n', out) /\ node_ok n') /\
  (forall data, is_leader n = true -> exists n' out, propose data n = Some (Ok (n', out)) /\ node_ok n') /\
  (forall data, is_leader n = false -> propose data n = Some (Err Other)) /\
  (forall m, msg_ok n m -> exists n' out, decode_step n m = Some (n', out) /\ node_ok n') /\
  committed n = Some (take (commit n) (log n)).
Proof.
  intros Hn. split_and!; eauto using tick_ok, propose_ok, decode_step_ok.
  - intros data Hl. unfold propose. by rewrite Hl.
  - unfold committed. by rewrite (proj2 (Nat.leb_le _ _) (no_commit _ Hn)).
Qed.

Example no_panic_witness :
  node_ok (RaftNode_new "a" ["b"] 7) /\ is_Some (committed (RaftNode_new "a" ["b"] 7)).
Proof.
  assert (node_ok (RaftNode_new "a" ["b"] 7)) as H by (split; [done|exact I]). split; [done|].
  destruct (no_panic _ H) as (_ & _ & _ & _ & ->). done.
Defined.

(** An append of the node's own term that passes the consistency check
    cuts the log at its [prev_index] even when the existing entries agree with
    it: one that arrives late and ends before the commit index removes
    committed entries, and reading the committed prefix then panics. *)
Theorem late_append_drops_committed f l pi pt es lc :
  is_follower f = true -> prev_ok f pi pt = true -> pi + length es < commit f -> lc <= commit f ->
  let f' := (handle_append f (term f) l pi pt es lc).1 in
  log f' = take pi (log f) ++ es /\ committed f' = None.
Proof.
  intros Hf Hok Hlen Hlc.
  destruct (handle_append_accepts f (term f) l pi pt es lc) as (f' & -> & _ & _ & _ & Hl & Hc); [by right|].
  rewrite Hok, bool_decide_false in Hc by lia. rewrite Hok in Hl. cbn. split; [done|].
  unfold committed. rewrite Hc, Hl.
  rewrite (proj2 (Nat.leb_gt _ _)); [done|]. rewrite length_app, length_take. lia.
Qed.

Example late_append_drops_committed_witness :
  let f := mkNode "b" ["a"] Follower 2 None [mkLog 1 "x"; mkLog 2 "y"] 2 None 0 14 3 in
  committed f = Some [mkLog 1 "x"; mkLog 2 "y"] /\
  committed (handle_append f 2 "a" 1 1 [] 1).1 = None.
Proof.
  split; [reflexivity|]. eapply late_append_drops_committed; [reflexivity|reflexivity|simpl; lia|simpl; lia].
Defined.

(** The election timer.  A new node that hears nothing stays a silent
    follower of term 0 for between 9 and 18 ticks, and the next tick starts
    the election of term 1: it votes for itself and broadcasts one vote
    request, or, without peers, leads at once. *)
Theorem election_timer i ps seed :
  let n := RaftNode_new i ps seed in
  10 <= election_after n <= 19 /\
  (forall k, k < election_after n -> ticks k n = Some (set_quiet k n, [])) /\
  exists n' out, ticks (election_after n) n = Some (n', out) /\
    term n' = 1 /\ voted_for n' = Some i /\
    (if bool_decide (ps = []) then is_leader n' = true /\ out = []
     else state n' = Candidate 1 /\ out = [mkEnv None (RequestVote 1 i 0 0)]).
Proof.
  intros n. pose proof (election_after_range i ps seed) as Hr. fold n in Hr.
  assert (forall k, k < election_after n -> ticks k n = Some (set_quiet k n, [])) as Hq.
  { intros k Hk. by apply (quiet_ticks_run k n). }
  split_and!; [lia..|exact Hq|].
  assert (node_ok n) as Hn by (split; [done|exact I]).
  set (e := election_after n) in *. replace e with (S (e - 1)) by lia.
  rewrite (ticks_snoc _ _ _ _ (Hq (e - 1) ltac:(lia))).
  assert (node_ok (set_quiet (e - 1) n)) as Hn1 by (split; [done|exact I]).
  destruct (tick_ok _ Hn1) as (n' & out & Ht & _).
  rewrite Ht. exists n', out. split; [done|].
  rewrite election_tick in Ht by (done || (raft_simpl; fold e; lia)).
  apply start_election_state in Ht as ((Hterm & Hv & _) & Hp & _ & H). raft_simpl.
  split_and!; [done..|].
  destruct H as [(Hps & Hl & ->)|(Hps & Hst & ->)]; cbn in Hps.
  - by rewrite bool_decide_true.
  - rewrite bool_decide_false by done. by rewrite Hterm.
Qed.
