(* ===== verification/RaftNet.v ===== *)
(** * A Raft cluster over a transport: election safety

    The nodes of [Raft.v] run over a network that delivers each published
    message at most once to each subscriber, in any order, and may lose it
    ([sigil-cluster/src/raft.rs], [RaftDriver]; [transport.rs]).  The first
    half abstracts every node to its term, role and vote and every message to
    what an election reads of it, and proves the invariant there; the second
    half shows that the concrete nodes refine that protocol. *)

From stdpp Require Import gmap strings list.
From S2P Require Import Prelude Raft.

(** ** The election protocol *)

Inductive role : Set := F | C (votes : nat) | L.
Record view : Set := mkView { vt : nat; vr : role; vv : option string }.

(** Vote requests, grants and appends, with their destination first. *)
Inductive amsg : Set :=
  | ARv (dest candidate : string) (t : nat)
  | AGrant (dest voter : string) (t : nat)
  | AApp (dest leader : string) (t : nat).

#[export] Instance amsg_eq_dec : EqDecision amsg.
Proof. solve_decision. Defined.

Record sys : Type := mkSys {
  vs : gmap string view;
  flying : list amsg;
  history : list amsg;
  elected : list (nat * string)
}.

Definition leads (i : string) (n : view) : list (nat * string) :=
  match vr n with L => [(vt n, i)] | _ => [] end.

Section protocol.
Context (ids : list string) (maj : nat).
Context (ids_nodup : NoDup ids).
(** Two majorities of the cluster intersect. *)
Context (maj_quorum : length ids < 2 * maj).

(** What a node does on the messages [inp] it takes from the network (none or
    one). *)
Inductive atrans (i : string) (n : view) : list amsg -> view -> list amsg -> Prop :=
  | at_quiet inp out :
      (forall m, m ∈ out -> vr n = L /\ exists d, m = AApp d i (vt n) /\ d <> i) ->
      atrans i n inp n out
  | at_newer inp t : vt n < t -> atrans i n inp (mkView t F None) []
  | at_stepdown l : vr n <> F -> atrans i n [AApp i l (vt n)] (mkView (vt n) F None) []
  | at_grant_newer c t : vt n < t -> c <> i ->
      atrans i n [ARv i c t] (mkView t F (Some c)) [AGrant c i t]
  | at_grant_same c : c <> i -> vv n = None \/ vv n = Some c ->
      atrans i n [ARv i c (vt n)] (mkView (vt n) (vr n) (Some c)) [AGrant c i (vt n)]
  | at_elect :
      atrans i n [] (mkView (vt n + 1) (C 1) (Some i)) ((fun d => ARv d i (vt n + 1)) <$> ids)
  | at_solo : maj <= 1 -> atrans i n [] (mkView (vt n + 1) L (Some i)) []
  | at_vote v k : vr n = C k ->
      atrans i n [AGrant i v (vt n)] (mkView (vt n) (C (k + 1)) (vv n)) []
  | at_lead v k out : vr n = C k -> maj <= k + 1 ->
      (forall m, m ∈ out -> exists d, m = AApp d i (vt n) /\ d <> i) ->
      atrans i n [AGrant i v (vt n)] (mkView (vt n) L (vv n)) out.

Inductive astep (s : sys) : sys -> Prop :=
  | as_node i n inp rest n' out :
      vs s !! i = Some n -> i ∈ ids -> flying s ≡ₚ inp ++ rest -> atrans i n inp n' out ->
      astep s (mkSys (<[i := n']> (vs s)) (rest ++ out) (history s ++ out) (leads i n' ++ elected s))
  | as_drop m rest : flying s ≡ₚ m :: rest ->
      astep s (mkSys (vs s) rest (history s) (elected s)).

(** ** Counting grants *)

Definition occ (m : amsg) (l : list amsg) : nat := length (filter (m =.) l).

Definition vote_of (c : string) (t : nat) (m : amsg) : option string :=
  match m with
  | AGrant c' v t' => if bool_decide (c' = c /\ t' = t) then Some v else None
  | _ => None
  end.
Definition voters (c : string) (t : nat) (l : list amsg) : list string := omap (vote_of c t) l.

Lemma occ_app m l k : occ m (l ++ k) = occ m l + occ m k.
Proof. unfold occ. by rewrite filter_app, length_app. Qed.

Lemma occ_cons m x l : occ m (x :: l) = (if decide (m = x) then 1 else 0) + occ m l.
Proof. unfold occ. rewrite filter_cons. by destruct (decide (m = x)). Qed.

Lemma occ_perm m l k : l ≡ₚ k -> occ m l = occ m k.
Proof. unfold occ. by intros ->. Qed.

Lemma occ_zero m l : m ∉ l -> occ m l = 0.
Proof.
  induction l as [|x l IH]; [done|]. rewrite not_elem_of_cons, occ_cons. intros [Hx Hl].
  rewrite decide_False by done. by rewrite IH.
Qed.

Lemma occ_pos m l : m ∈ l -> 1 <= occ m l.
Proof. induction 1; rewrite occ_cons; [rewrite decide_True by done|]; lia. Qed.

Lemma elem_of_voters c t v l : v ∈ voters c t l <-> AGrant c v t ∈ l.
Proof.
  unfold voters. rewrite list_elem_of_omap. split.
  - intros (m & Hm & Hv). destruct m; simpl in Hv; try done. case_bool_decide; naive_solver.
  - intros Hm. exists (AGrant c v t). simpl. by rewrite bool_decide_true.
Qed.

Lemma voters_app c t l k : voters c t (l ++ k) = voters c t l ++ voters c t k.
Proof. apply omap_app. Qed.

Lemma voters_nodup c t l : (forall v, occ (AGrant c v t) l <= 1) -> NoDup (voters c t l).
Proof.
  induction l as [|m l IH]; intros H; [constructor|].
  assert (NoDup (voters c t l)) as Hl.
  { apply IH. intros v. specialize (H v). rewrite occ_cons in H. lia. }
  unfold voters. simpl. destruct (vote_of c t m) as [v|] eqn:Hv; [|done]. constructor; [|done].
  intros Hin%elem_of_voters%occ_pos. specialize (H v).
  destruct m; simpl in Hv; try done. case_bool_decide; simplify_eq. destruct_and!; subst.
  rewrite occ_cons, decide_True in H by done. lia.
Qed.

Lemma voters_perm_length c t l k : l ≡ₚ k -> length (voters c t l) = length (voters c t k).
Proof. intros H. apply Permutation_length. unfold voters. by rewrite H. Qed.

Lemma quorum_intersect (q1 q2 : list string) : NoDup q1 -> NoDup q2 -> q1 ⊆ ids -> q2 ⊆ ids ->
  maj <= length q1 -> maj <= length q2 -> exists x, x ∈ q1 /\ x ∈ q2.
Proof.
  intros H1 H2 S1 S2 L1 L2.
  destruct (decide (Exists (fun x => x ∈ q2) q1)) as [Hx|Hx].
  { apply Exists_exists in Hx as (x & ? & ?). eauto. }
  exfalso. assert (NoDup (q1 ++ q2)) as Hn.
  { apply NoDup_app. split_and!; [done| |done]. intros x Hx1 Hx2. apply Hx, Exists_exists. eauto. }
  assert (length (q1 ++ q2) <= length ids) as Hlen.
  { apply submseteq_length, NoDup_submseteq; [done|]. intros x [?|?]%elem_of_app; auto. }
  rewrite length_app in Hlen. lia.
Qed.

(** ** The invariant *)

Record inv (s : sys) : Prop := {
  inv_ids : forall i n, vs s !! i = Some n -> i ∈ ids;
  inv_self : forall i n, vs s !! i = Some n -> vr n <> F -> vv n = Some i;
  inv_cand : forall i n k, vs s !! i = Some n -> vr n = C k ->
    k + length (voters i (vt n) (flying s)) <= 1 + length (voters i (vt n) (history s));
  inv_leader : forall i n, vs s !! i = Some n -> vr n = L -> (vt n, i) ∈ elected s;
  inv_sent : forall m, m ∈ flying s -> m ∈ history s;
  inv_once : forall v c t, occ (ARv v c t) (flying s) + occ (AGrant c v t) (history s) <= 1;
  inv_request : forall v c t, ARv v c t ∈ history s -> exists n, vs s !! c = Some n /\ t <= vt n;
  inv_grant : forall c v t, AGrant c v t ∈ history s ->
    c <> v /\ (exists n, vs s !! c = Some n /\ t <= vt n) /\
    exists n, vs s !! v = Some n /\ t <= vt n /\ (t = vt n -> vr n = F /\ vv n = Some c);
  inv_grant_fun : forall c c' v t, AGrant c v t ∈ history s -> AGrant c' v t ∈ history s -> c = c';
  inv_app : forall d l t, AApp d l t ∈ history s -> d <> l /\ (t, l) ∈ elected s;
  inv_elected : forall t l, (t, l) ∈ elected s ->
    (exists n, vs s !! l = Some n /\ t <= vt n /\ (t = vt n -> vr n = L)) /\
    maj <= 1 + length (voters l t (history s)) /\
    (forall c, AGrant c l t ∉ history s)
}.

(** Two leaders of one term are one node. *)
Lemma inv_unique s t a b : inv s -> (t, a) ∈ elected s -> (t, b) ∈ elected s -> a = b.
Proof.
  intros Hi Ha Hb.
  assert (forall l, (t, l) ∈ elected s -> NoDup (l :: voters l t (history s)) /\
    l :: voters l t (history s) ⊆ ids) as Hq.
  { intros l Hl. split.
    - constructor.
      + intros H%elem_of_voters. by apply (inv_grant _ Hi) in H as [].
      + apply voters_nodup. intros v. pose proof (inv_once _ Hi v l t). lia.
    - intros x [->|H%elem_of_voters]%elem_of_cons.
      + destruct (inv_elected _ Hi _ _ Hl) as [(n & Hn & _) _]. by eapply inv_ids.
      + apply (inv_grant _ Hi) in H as (_ & _ & n & Hn & _). by eapply inv_ids. }
  destruct (Hq _ Ha) as [Na Sa]. destruct (Hq _ Hb) as [Nb Sb].
  destruct (inv_elected _ Hi _ _ Ha) as (_ & Ma & Ga). destruct (inv_elected _ Hi _ _ Hb) as (_ & Mb & Gb).
  destruct (quorum_intersect _ _ Na Nb Sa Sb) as (x & Hxa & Hxb); [simpl; lia..|].
  apply elem_of_cons in Hxa as [->|Hxa%elem_of_voters]; apply elem_of_cons in Hxb as [->|Hxb%elem_of_voters].
  - done.
  - by destruct (Ga b).
  - by destruct (Gb a).
  - by eapply (inv_grant_fun _ Hi).
Qed.

(** *** What every transition has in common *)

Record tfacts (i : string) (n : view) (inp : list amsg) (n' : view) (out : list amsg) : Prop := {
  tf_term : vt n <= vt n';
  tf_self : vr n' <> F -> vv n' = Some i;
  tf_stay : vt n' = vt n -> vr n = L -> vr n' = L;
  tf_vote : forall c, vt n' = vt n -> vr n = F -> vv n = Some c -> vr n' = F /\ vv n' = Some c;
  tf_cand : forall k, vr n' = C k ->
    (vt n' = vt n /\ exists k0, vr n = C k0 /\ k <= k0 + length (voters i (vt n) inp)) \/
    (vt n < vt n' /\ k = 1);
  tf_lead : vr n' = L ->
    (vt n' = vt n /\ vr n = L) \/
    (vt n' = vt n /\ exists k, vr n = C k /\ maj <= k + length (voters i (vt n) inp)) \/
    (vt n < vt n' /\ maj <= 1);
  tf_out :
    (forall m, m ∈ out -> exists d, m = AApp d i (vt n') /\ d <> i /\ vr n' = L) \/
    (exists c, inp = [ARv i c (vt n')] /\ out = [AGrant c i (vt n')] /\ c <> i /\ vr n' = F /\
       vv n' = Some c /\ (vt n < vt n' \/ (vr n = F /\ (vv n = None \/ vv n = Some c)))) \/
    (out = (fun d => ARv d i (vt n')) <$> ids /\ vt n < vt n')
}.

Lemma voters_grant1 i v t : voters i t [AGrant i v t] = [v].
Proof. unfold voters. simpl. by rewrite bool_decide_true. Qed.

Lemma atrans_facts s i n inp rest n' out : inv s -> vs s !! i = Some n -> flying s ≡ₚ inp ++ rest ->
  atrans i n inp n' out -> tfacts i n inp n' out.
Proof.
  intros Hi Hn Hf Ht. pose proof (inv_self _ Hi _ _ Hn) as Hself.
  destruct Ht as [inp out Ho|inp t Ht|l Hr|c t Ht Hc|c Hc Hv| |Hm|v k Hk|v k out Hk Hm Ho];
    split; cbn [vt vr vv]; try lia; try done; try (intros; exfalso; lia).
  - intros k Hk. left. split; [done|]. exists k. split; [done|lia].
  - intros Hl. left. done.
  - left. intros m Hm. destruct (Ho m Hm) as (Hl & d & -> & Hd). eauto.
  - left. intros m Hm. by apply not_elem_of_nil in Hm.
  - intros _ Hl. assert (AApp i l (vt n) ∈ history s) as Ha.
    { apply (inv_sent _ Hi). rewrite Hf. set_solver. }
    destruct (inv_app _ Hi _ _ _ Ha) as [Hne He]. destruct Hne.
    eapply (inv_unique s); [done| |done]. by eapply inv_leader.
  - left. intros m Hm. by apply not_elem_of_nil in Hm.
  - right; left. exists c. split_and!; auto.
  - intros Hr. destruct Hv as [Hv|Hv]; specialize (Hself Hr); congruence.
  - intros c' _ Hr Hc'. split; [done|]. destruct Hv; congruence.
  - intros k Hk. exfalso. specialize (Hself ltac:(congruence)). destruct Hv; congruence.
  - intros Hl. by left.
  - right; left. assert (vr n = F) as Hr.
    { destruct (vr n) eqn:E; [done|exfalso..]; specialize (Hself ltac:(congruence)); destruct Hv; congruence. }
    exists c. split_and!; auto.
  - intros k [= <-]. right. lia.
  - right; right. split; [done|lia].
  - left. intros m Hm1. by apply not_elem_of_nil in Hm1.
  - intros _. apply Hself. congruence.
  - congruence.
  - congruence.
  - intros k' [= <-]. left. split; [done|]. exists k. rewrite voters_grant1. simpl. split; [done|lia].
  - left. intros m Hm. by apply not_elem_of_nil in Hm.
  - intros _. apply Hself. congruence.
  - congruence.
  - intros _. right; left. split; [done|]. exists k. rewrite voters_grant1. simpl. split; [done|lia].
  - left. intros m Hm'. destruct (Ho m Hm') as (d & -> & Hd). eauto.
Qed.

(** *** Preservation, one group of fields at a time *)

(** One node transition in a state that satisfies the invariant. *)
Record moved (s : sys) (i : string) (n : view) (inp rest : list amsg) (n' : view) (out : list amsg)
    (s' : sys) : Prop := {
  mv_inv : inv s;
  mv_node : vs s !! i = Some n;
  mv_id : i ∈ ids;
  mv_taken : flying s ≡ₚ inp ++ rest;
  mv_facts : tfacts i n inp n' out;
  mv_after : s' = mkSys (<[i := n']> (vs s)) (rest ++ out) (history s ++ out) (leads i n' ++ elected s)
}.

Section moved.
Context (s : sys) (i : string) (n : view) (inp rest : list amsg) (n' : view) (out : list amsg).
Context (s' : sys) (Hm : moved s i n inp rest n' out s').

(** A node of the old state is in the new one, at the same or a later term. *)
Lemma mv_old_node j m : vs s !! j = Some m -> exists m', vs s' !! j = Some m' /\ vt m <= vt m'.
Proof.
  destruct Hm as [_ Hn _ _ Hf ->]. cbn. intros Hj. destruct (decide (j = i)) as [->|Hne].
  - rewrite lookup_insert_eq. simplify_eq. eexists. split; [done|apply Hf].
  - rewrite lookup_insert_ne by done. eauto.
Qed.

Lemma mv_new_node j m : vs s' !! j = Some m -> (j = i /\ m = n') \/ (j <> i /\ vs s !! j = Some m).
Proof.
  destruct Hm as [_ _ _ _ _ ->]. cbn. intros [[<- <-]|[Hne Hj]]%lookup_insert_Some; auto.
Qed.

Lemma mv_rest m : m ∈ rest -> m ∈ history s.
Proof. destruct Hm as [Hi _ _ Hf _ _]. intros H. apply (inv_sent _ Hi). rewrite Hf. set_solver. Qed.

Lemma mv_history m : m ∈ history s' <-> m ∈ history s \/ m ∈ out.
Proof. destruct Hm as [_ _ _ _ _ ->]. cbn. apply elem_of_app. Qed.

Lemma mv_elected t l : (t, l) ∈ elected s' <->
  (t, l) ∈ elected s \/ (vr n' = L /\ t = vt n' /\ l = i).
Proof.
  destruct Hm as [_ _ _ _ _ ->]. cbn. rewrite elem_of_app. unfold leads.
  destruct (vr n'); rewrite ?elem_of_nil, ?list_elem_of_singleton; naive_solver.
Qed.

Lemma mv_grant_out c v t : AGrant c v t ∈ out ->
  v = i /\ t = vt n' /\ inp = [ARv i c t] /\ out = [AGrant c i t] /\ c <> i /\ vr n' = F /\
  vv n' = Some c /\ (vt n < vt n' \/ (vr n = F /\ (vv n = None \/ vv n = Some c))).
Proof.
  destruct (tf_out _ _ _ _ _ (mv_facts _ _ _ _ _ _ _ _ Hm)) as [Ho|[(c' & Hi & Ho & H)|[Ho _]]].
  - intros (d & ? & _)%Ho. done.
  - rewrite Ho at 1. intros [= -> -> ->]%list_elem_of_singleton. split; [done|]. split; [done|].
    split; [done|]. by split.
  - rewrite Ho at 1. intros (d & ? & _)%list_elem_of_fmap. done.
Qed.

Lemma mv_request_out v c t : ARv v c t ∈ out ->
  c = i /\ t = vt n' /\ vt n < vt n' /\ out = (fun d => ARv d i t) <$> ids.
Proof.
  destruct (tf_out _ _ _ _ _ (mv_facts _ _ _ _ _ _ _ _ Hm)) as [Ho|[(c' & _ & Ho & _)|[Ho Ht]]].
  - intros (d & ? & _)%Ho. done.
  - rewrite Ho at 1. intros ?%list_elem_of_singleton. done.
  - rewrite Ho at 1. intros (d & [= -> -> ->] & _)%list_elem_of_fmap. done.
Qed.

Lemma mv_app_out d l t : AApp d l t ∈ out -> d <> l /\ l = i /\ t = vt n' /\ vr n' = L.
Proof.
  destruct (tf_out _ _ _ _ _ (mv_facts _ _ _ _ _ _ _ _ Hm)) as [Ho|[(c' & _ & Ho & _)|[Ho _]]].
  - intros (d' & [= -> -> ->] & ? & ?)%Ho. done.
  - rewrite Ho. intros ?%list_elem_of_singleton. done.
  - rewrite Ho. intros (d' & ? & _)%list_elem_of_fmap. done.
Qed.

(** Nothing of a term the node has not reached is in the history. *)
Lemma mv_no_request v t : vt n < t -> ARv v i t ∉ history s.
Proof.
  destruct Hm as [Hi Hn _ _ _ _]. intros Ht (m & Hj & Hle)%(inv_request _ Hi). simplify_eq. lia.
Qed.

Lemma mv_no_grant_to v t : vt n < t -> AGrant i v t ∉ history s.
Proof.
  destruct Hm as [Hi Hn _ _ _ _].
  intros Ht (_ & (m & Hj & Hle) & _)%(inv_grant _ Hi). simplify_eq. lia.
Qed.

Lemma mv_no_votes t : vt n < t -> voters i t (history s) = [] /\ voters i t rest = [].
Proof.
  intros Ht. split; apply elem_of_nil_inv; intros v Hv%elem_of_voters;
    eapply mv_no_grant_to; eauto using mv_rest.
Qed.

Lemma occ_requests v c t t' : occ (ARv v c t) ((fun d => ARv d i t') <$> ids) <= 1.
Proof.
  clear - ids_nodup. induction ids_nodup as [|x l Hx Hl IH]; [cbn; lia|]. rewrite fmap_cons, occ_cons.
  case_decide as He; [|by apply IH]. injection He as -> -> ->. rewrite occ_zero; [lia|].
  intros (d & [= ->] & Hd)%list_elem_of_fmap. done.
Qed.

Lemma mv_once v c t : occ (ARv v c t) (rest ++ out) + occ (AGrant c v t) (history s ++ out) <= 1.
Proof.
  pose proof Hm as [Hi Hn _ Hf Hfs _]. pose proof (inv_once _ Hi v c t) as H1.
  rewrite (occ_perm _ _ _ Hf) in H1. rewrite !occ_app in *.
  destruct (decide (AGrant c v t ∈ out)) as [(-> & -> & Hin & Ho & _)%mv_grant_out|Hg].
  - rewrite Ho, (occ_zero (ARv _ _ _) [_]) by (by intros ?%list_elem_of_singleton).
    rewrite Hin in H1. rewrite occ_cons, decide_True in H1 by done.
    rewrite occ_cons, decide_True by done. change (occ _ []) with 0 in *. lia.
  - rewrite (occ_zero _ out Hg).
    destruct (decide (ARv v c t ∈ out)) as [(-> & -> & Ht & Ho)%mv_request_out|Hr].
    + rewrite (occ_zero (AGrant i v (vt n')) (history s)) by (by apply mv_no_grant_to).
      rewrite (occ_zero (ARv v i (vt n')) rest) by (intros ?%mv_rest; by eapply mv_no_request).
      rewrite Ho. pose proof (occ_requests v i (vt n') (vt n')). lia.
    + rewrite (occ_zero _ out Hr). lia.
Qed.

Lemma mv_cand j m k : vs s' !! j = Some m -> vr m = C k ->
  k + length (voters j (vt m) (rest ++ out)) <= 1 + length (voters j (vt m) (history s ++ out)).
Proof.
  pose proof Hm as [Hi Hn _ Hf Hfs _]. rewrite !voters_app, !length_app.
  assert (forall t, length (voters j t (flying s)) = length (voters j t inp) + length (voters j t rest)) as Hl.
  { intros t. rewrite (voters_perm_length _ _ _ _ Hf), voters_app, length_app. done. }
  intros [[-> ->]|[Hne Hj]]%mv_new_node Hk.
  - destruct (tf_cand _ _ _ _ _ Hfs k Hk) as [(Ht & k0 & Hk0 & Hle)|[Ht ->]].
    + pose proof (inv_cand _ Hi _ _ _ Hn Hk0) as H. rewrite Ht, Hl in *. lia.
    + destruct (mv_no_votes _ Ht) as [-> ->]. simpl. lia.
  - pose proof (inv_cand _ Hi _ _ _ Hj Hk) as H. rewrite Hl in H. lia.
Qed.

Lemma mv_grant c v t : AGrant c v t ∈ history s' ->
  c <> v /\ (exists m, vs s' !! c = Some m /\ t <= vt m) /\
  exists m, vs s' !! v = Some m /\ t <= vt m /\ (t = vt m -> vr m = F /\ vv m = Some c).
Proof.
  pose proof Hm as [Hi Hn _ Hf Hfs Hs']. intros [Hg|Hg]%mv_history.
  - destruct (inv_grant _ Hi _ _ _ Hg) as (Hne & (mc & Hc & Htc) & mv & Hv & Htv & Hsame).
    destruct (mv_old_node _ _ Hc) as (mc' & Hc' & Hle). split; [done|].
    split; [exists mc'; split; [done|lia]|].
    destruct (mv_old_node _ _ Hv) as (mv' & Hv' & Hle'). exists mv'. split_and!; [done|lia|].
    intros ->. apply mv_new_node in Hv' as [[-> ->]|[_ Hv']]; [|simplify_eq; auto].
    simplify_eq. assert (vt n' = vt n) as Heq by lia.
    destruct (Hsame Heq) as [Hr Hvv]. by apply (tf_vote _ _ _ _ _ Hfs).
  - apply mv_grant_out in Hg as (-> & -> & Hin & _ & Hne & Hr & Hvv & _). split; [done|]. split.
    + assert (ARv i c (vt n') ∈ history s) as (m & Hc & Ht)%(inv_request _ Hi).
      { apply (inv_sent _ Hi). rewrite Hf, Hin. set_solver. }
      destruct (mv_old_node _ _ Hc) as (m' & Hc' & Hle). exists m'. split; [done|lia].
    + exists n'. rewrite Hs'. cbn. by rewrite lookup_insert_eq.
Qed.

Lemma mv_grant_fun c c' v t : AGrant c v t ∈ history s -> AGrant c' v t ∈ out -> c = c'.
Proof.
  pose proof Hm as [Hi Hn _ Hf Hfs _].
  intros Hold (-> & -> & _ & _ & _ & _ & _ & Hw)%mv_grant_out.
  destruct (inv_grant _ Hi _ _ _ Hold) as (_ & _ & m & Hv & Hle & Hsame). simplify_eq.
  pose proof (tf_term _ _ _ _ _ Hfs). assert (vt n' = vt n) as Heq by lia.
  destruct (Hsame Heq) as [_ Hvv]. destruct Hw as [Hw|(_ & Hw)]; [lia|destruct Hw; congruence].
Qed.

Lemma mv_elected_inv t l : (t, l) ∈ elected s' ->
  (exists m, vs s' !! l = Some m /\ t <= vt m /\ (t = vt m -> vr m = L)) /\
  maj <= 1 + length (voters l t (history s')) /\ (forall c, AGrant c l t ∉ history s').
Proof.
  pose proof Hm as [Hi Hn _ Hf Hfs Hs']. pose proof (tf_term _ _ _ _ _ Hfs) as Hle.
  assert (forall t l, length (voters l t (history s)) <= length (voters l t (history s'))) as Hmono.
  { intros. rewrite Hs'. cbn [history]. rewrite voters_app, length_app. lia. }
  intros [Hold|(Hl & -> & ->)]%mv_elected.
  - destruct (inv_elected _ Hi _ _ Hold) as ((m & Hlm & Ht & Hlead) & Hmaj & Hno).
    destruct (mv_old_node _ _ Hlm) as (m' & Hm' & Hle'). specialize (Hmono t l). split_and!; [|lia|].
    + exists m'. split_and!; [done|lia|]. intros ->.
      apply mv_new_node in Hm' as [[-> ->]|[_ Hm']]; [|simplify_eq; auto].
      simplify_eq. apply (tf_stay _ _ _ _ _ Hfs); [lia|apply Hlead; lia].
    + intros c [Hg|Hg]%mv_history; [by eapply Hno|].
      apply mv_grant_out in Hg as (-> & -> & _ & _ & _ & Hr & _ & _). simplify_eq.
      assert (vr n' = L) by (apply (tf_stay _ _ _ _ _ Hfs); [lia|apply Hlead; lia]). congruence.
  - split_and!.
    + exists n'. rewrite Hs'. cbn. rewrite lookup_insert_eq. by split_and!.
    + specialize (Hmono (vt n') i). destruct (tf_lead _ _ _ _ _ Hfs Hl) as [[Ht Hr]|[(Ht & k & Hk & Hmj)|[_ H1]]].
      * destruct (inv_elected _ Hi _ _ (inv_leader _ Hi _ _ Hn Hr)) as (_ & Hmaj & _). rewrite Ht in *. lia.
      * pose proof (inv_cand _ Hi _ _ _ Hn Hk) as Hc.
        rewrite (voters_perm_length _ _ _ _ Hf), voters_app, length_app in Hc. rewrite Ht in *. lia.
      * lia.
    + intros c [Hg|Hg]%mv_history.
      * destruct (inv_grant _ Hi _ _ _ Hg) as (_ & _ & m & Hv & Ht & Hsame). simplify_eq.
        destruct (Hsame ltac:(lia)) as [Hr _].
        destruct (tf_lead _ _ _ _ _ Hfs Hl) as [[_ Hr']|[(_ & k & Hk & _)|[Hlt _]]]; [congruence..|lia].
      * apply mv_grant_out in Hg as (_ & _ & _ & _ & _ & Hr & _). congruence.
Qed.

Lemma moved_inv : inv s'.
Proof.
  pose proof Hm as [Hi Hn Hid Hf Hfs Hs']. split.
  - intros j m [[-> ->]|[_ Hj]]%mv_new_node; [done|by eapply inv_ids].
  - intros j m [[-> ->]|[_ Hj]]%mv_new_node; [apply Hfs|by eapply inv_self].
  - intros j m k Hj Hk. pose proof (mv_cand j m k Hj Hk) as H. by rewrite Hs'.
  - intros j m [[-> ->]|[_ Hj]]%mv_new_node Hl; apply mv_elected; [by right|left].
    by eapply inv_leader.
  - intros m. rewrite mv_history, Hs'. cbn. rewrite elem_of_app. intros [Hr|Ho]; [left; by apply mv_rest|auto].
  - intros v c t. rewrite Hs'. apply mv_once.
  - intros v c t [Hr|Hr]%mv_history.
    + destruct (inv_request _ Hi _ _ _ Hr) as (m & Hc & Ht).
      destruct (mv_old_node _ _ Hc) as (m' & Hc' & Hle). exists m'. split; [done|lia].
    + apply mv_request_out in Hr as (-> & -> & _). exists n'. rewrite Hs'. cbn. by rewrite lookup_insert_eq.
  - apply mv_grant.
  - intros c c' v t [H1|H1]%mv_history [H2|H2]%mv_history.
    + by eapply (inv_grant_fun _ Hi).
    + by eapply mv_grant_fun.
    + symmetry. by eapply mv_grant_fun.
    + apply mv_grant_out in H1 as (_ & _ & H1 & _), H2 as (_ & _ & H2 & _). congruence.
  - intros d l t [Ha|Ha]%mv_history.
    + destruct (inv_app _ Hi _ _ _ Ha). split; [done|]. apply mv_elected. by left.
    + apply mv_app_out in Ha as (Hne & -> & -> & Hl). split; [done|]. apply mv_elected. by right.
  - apply mv_elected_inv.
Qed.
End moved.

Lemma astep_inv s s' : inv s -> astep s s' -> inv s'.
Proof.
  intros Hi [i n inp rest n' out Hn Hid Hf Ht|m rest Hf].
  - eapply moved_inv. split; [done|done|done|done| |reflexivity]. by eapply atrans_facts.
  - assert (forall x, x ∈ rest -> x ∈ flying s) as Hsub by (intros; rewrite Hf; set_solver).
    destruct Hi. split; cbn [vs flying history elected]; auto.
    + intros i n k Hn Hk. specialize (inv_cand0 i n k Hn Hk).
      rewrite (voters_perm_length _ _ _ _ Hf) in inv_cand0.
      assert (length (voters i (vt n) rest) <= length (voters i (vt n) (m :: rest))); [|lia].
      unfold voters. cbn [omap list_omap]. destruct (vote_of _ _ m); cbn; lia.
    + intros v c t. specialize (inv_once0 v c t). rewrite (occ_perm _ _ _ Hf), occ_cons in inv_once0. lia.
Qed.
End protocol.

(** ** The cluster *)

Record net : Type := mkNet {
  nodes : gmap string RaftNode;
  pkts : list (string * RaftMsg);
  (** What was ever put on the network, and who ever led which term. *)
  sent : list (string * RaftMsg);
  leaders : list (nat * string)
}.

(** [RaftDriver::spawn]: the two topics a node listens to. *)
Definition subscriptions (cluster node : string) : list string :=
  [topic_for cluster node; topic_bcast cluster].

(** What a transport hands to whom: each publication once per subscription of
    its topic. *)
Definition deliveries (cluster : string) (ids : list string) (out : list Envelope) :
    list (string * RaftMsg) :=
  '(topic, m) ← publications cluster out;
  i ← ids;
  sub ← subscriptions cluster i;
  if bool_decide (sub = topic) then [(i, m)] else [].

(** [peers] excludes the node itself. *)
Definition peers_of (ids : list string) (i : string) : list string := filter (fun j => j <> i) ids.

Definition spawn_net (ids : list string) (seed : string -> Z) : net :=
  mkNet (list_to_map ((fun i => (i, RaftNode_new i (peers_of ids i) (seed i))) <$> ids)) [] [] [].

(** The network after node [i] became [n'] and sent [out]. *)
Definition after (cluster : string) (ids : list string) (s : net) (i : string) (n' : RaftNode)
    (out : list Envelope) (rest : list (string * RaftMsg)) : net :=
  let ds := deliveries cluster ids out in
  mkNet (<[i := n']> (nodes s)) (rest ++ ds) (sent s ++ ds)
    ((if is_leader n' then [(term n', i)] else []) ++ leaders s).

(** The pump of [RaftDriver]: a tick, a client's proposal, or a message from
    the network; messages may also be lost. *)
Inductive net_step (cluster : string) (ids : list string) (s : net) : net -> Prop :=
  | ns_tick i n n' out : nodes s !! i = Some n -> tick n = Some (n', out) ->
      net_step cluster ids s (after cluster ids s i n' out (pkts s))
  | ns_propose i n data n' out : nodes s !! i = Some n -> propose data n = Some (Ok (n', out)) ->
      net_step cluster ids s (after cluster ids s i n' out (pkts s))
  | ns_deliver i n m rest n' out : nodes s !! i = Some n -> pkts s ≡ₚ (i, m) :: rest ->
      decode_step n m = Some (n', out) ->
      net_step cluster ids s (after cluster ids s i n' out rest)
  | ns_lose p rest : pkts s ≡ₚ p :: rest ->
      net_step cluster ids s (mkNet (nodes s) rest (sent s) (leaders s)).

(** *** Topics *)

Lemma string_app_inj a b c : a +:+ b = a +:+ c -> b = c.
Proof. induction a as [|x a IH]; [done|]. rewrite !string_app_cons. intros [= H]. auto. Qed.

Lemma topic_for_inj c i j : topic_for c i = topic_for c j -> i = j.
Proof. unfold topic_for. by intros H%string_app_inj%string_app_inj%string_app_inj. Qed.

Lemma topic_bcast_for c : topic_bcast c = topic_for c "bcast".
Proof. done. Qed.

Section deliveries.
Context (cluster : string) (ids : list string).
Context (ids_nodup : NoDup ids) (no_bcast : "bcast"%string ∉ ids).

Lemma deliveries_cons e out :
  deliveries cluster ids (e :: out) = deliveries cluster ids [e] ++ deliveries cluster ids out.
Proof. unfold deliveries, publications. simpl. by rewrite app_nil_r. Qed.

Lemma deliver_topic l (d : string) (m : RaftMsg) (P : string -> list string) :
  NoDup l -> d ∈ l -> (forall i, i ∈ l -> (sub ← P i; if bool_decide (sub = topic_for cluster d)
     then [(i, m)] else []) = if bool_decide (i = d) then [(i, m)] else []) ->
  (i ← l; sub ← P i; if bool_decide (sub = topic_for cluster d) then [(i, m)] else []) = [(d, m)].
Proof.
  intros Hl Hd HP.
  assert (forall k, NoDup k -> k ⊆ l -> (i ← k; sub ← P i; if bool_decide (sub = topic_for cluster d)
    then [(i, m)] else []) = if bool_decide (d ∈ k) then [(d, m)] else []) as H.
  { induction k as [|x k IH]; [done|]. intros [Hx Hk]%NoDup_cons Hsub.
    rewrite bind_cons, (HP x) by set_solver. rewrite IH by set_solver.
    repeat case_bool_decide; subst; simpl; set_solver. }
  rewrite H by done. by rewrite bool_decide_true.
Qed.

Lemma deliver_one d m : d ∈ ids -> deliveries cluster ids [mkEnv (Some d) m] = [(d, m)].
Proof.
  intros Hd. unfold deliveries, publications. simpl. rewrite app_nil_r.
  apply (deliver_topic ids d m (subscriptions cluster)); [done|done|]. intros i Hi.
  unfold subscriptions. simpl. rewrite !app_nil_r.
  rewrite (bool_decide_false (topic_bcast cluster = _))
    by (rewrite topic_bcast_for; intros ?%topic_for_inj; subst; done).
  rewrite app_nil_r. destruct (decide (i = d)) as [->|Hne]; [by rewrite !bool_decide_true|].
  rewrite !bool_decide_false; [done|done|]. by intros ?%topic_for_inj.
Qed.

Lemma deliver_bcast m : deliveries cluster ids [mkEnv None m] = (fun i => (i, m)) <$> ids.
Proof.
  unfold deliveries, publications. simpl. rewrite app_nil_r.
  clear ids_nodup. induction ids as [|x l IH]; [done|]. rewrite bind_cons, IH by set_solver.
  unfold subscriptions. simpl. rewrite (bool_decide_true (topic_bcast cluster = _)) by done.
  rewrite bool_decide_false; [done|]. rewrite topic_bcast_for. intros ->%topic_for_inj. set_solver.
Qed.

Lemma elem_deliveries d m out : (d, m) ∈ deliveries cluster ids out ->
  exists e, In e out /\ env_msg e = m /\ d ∈ ids /\
    (env_to e = None \/ env_to e = Some d \/ env_to e = Some "bcast"%string).
Proof.
  unfold deliveries. rewrite list_elem_of_bind. intros ([topic m'] & Hd & Hp).
  apply list_elem_of_bind in Hd as (i & Hd & Hi). apply list_elem_of_bind in Hd as (sub & Hd & Hs).
  case_bool_decide; [|by apply not_elem_of_nil in Hd]. apply list_elem_of_singleton in Hd.
  simplify_eq. unfold publications in Hp.
  apply list_elem_of_fmap in Hp as (e & [= -> ->] & He). exists e. rewrite <- list_elem_of_In.
  split_and!; [done..|]. destruct (env_to e) as [t|]; [right|by left].
  unfold subscriptions in Hs. rewrite topic_bcast_for in Hs.
  apply elem_of_cons in Hs as [->%topic_for_inj|Hs]; [by left|right].
  apply list_elem_of_singleton in Hs. by apply topic_for_inj in Hs as ->.
Qed.
End deliveries.

(** ** The cluster refines the election protocol *)

Definition role_of (s : RaftState) : role :=
  match s with Follower => F | Candidate k => C k | Leader _ _ => L end.
Definition view_of (n : RaftNode) : view := mkView (term n) (role_of (state n)) (voted_for n).

Definition absm (p : string * RaftMsg) : option amsg :=
  match p.2 with
  | RequestVote t c _ _ => Some (ARv p.1 c t)
  | VoteReply t from true => Some (AGrant p.1 from t)
  | AppendEntries t l _ _ _ _ => Some (AApp p.1 l t)
  | _ => None
  end.

Definition absn (s : net) : sys :=
  mkSys (view_of <$> nodes s) (omap absm (pkts s)) (omap absm (sent s)) (leaders s).

(** The majority of the whole cluster. *)
Definition quorum (ids : list string) : nat := length ids / 2 + 1.

Section refinement.
Context (cluster : string) (ids : list string).
Context (ids_nodup : NoDup ids) (no_bcast : "bcast"%string ∉ ids).

Definition node_of (i : string) (n : RaftNode) : Prop :=
  i ∈ ids /\ id n = i /\ peers n = peers_of ids i.

Lemma peers_elem i p : p ∈ peers_of ids i <-> p <> i /\ p ∈ ids.
Proof. unfold peers_of. by rewrite list_elem_of_filter. Qed.

Lemma peers_absent i l : i ∉ l -> peers_of l i = l.
Proof.
  unfold peers_of. induction l as [|x l IH]; [done|]. intros [Hx Hl]%not_elem_of_cons.
  by rewrite filter_cons_True, IH.
Qed.

Lemma peers_length i : i ∈ ids -> length ids = S (length (peers_of ids i)).
Proof.
  unfold peers_of. clear no_bcast. induction ids_nodup as [|x l Hx Hl IH].
  - by intros ?%not_elem_of_nil.
  - intros Hi. rewrite filter_cons. destruct (decide (x = i)) as [->|Hne].
    + rewrite decide_False by auto. simpl. f_equal. symmetry. f_equal.
      by apply peers_absent.
    + rewrite decide_True by done. simpl. f_equal. apply IH; [done|]. set_solver.
Qed.

Lemma majority_quorum i n : node_of i n -> majority n = quorum ids.
Proof.
  intros (Hi & _ & Hp). unfold majority, quorum. rewrite Hp, (peers_length i Hi).
  f_equal. f_equal. lia.
Qed.

Lemma abs_none out : (forall e d, In e out -> absm (d, env_msg e) = None) ->
  omap absm (deliveries cluster ids out) = [].
Proof.
  intros H. apply elem_of_nil_inv. intros m ([d m'] & Hd & Hm)%list_elem_of_omap.
  apply elem_deliveries in Hd as (e & He & <- & _); [|done..]. rewrite H in Hm; done.
Qed.

Lemma abs_appends i n out : node_of i n -> broadcast_appends n = Some out ->
  forall m, m ∈ omap absm (deliveries cluster ids out) ->
    is_leader n = true /\ exists d, m = AApp d i (term n) /\ d <> i.
Proof.
  intros (Hi & Hid & Hp) Hb m ([d m'] & Hd & Hm)%list_elem_of_omap.
  apply elem_deliveries in Hd as (e & He & <- & Hdi & Hto); [|done..].
  eapply broadcast_appends_elem in He as (p & pr & pt & es & Hpin & Heq & Hl & _); [|done].
  subst e. cbn in Hm, Hto. rewrite Hid in Hm. injection Hm as <-.
  rewrite Hp in Hpin. apply list_elem_of_In, peers_elem in Hpin as [Hne Hpi].
  split; [done|]. exists d. split; [done|]. destruct Hto as [H|[H|H]]; congruence.
Qed.

Lemma role_leader n : is_leader n = true <-> role_of (state n) = L.
Proof. unfold is_leader. by destruct (state n). Qed.

Lemma role_follower n : is_follower n = true <-> role_of (state n) = F.
Proof. unfold is_follower. by destruct (state n). Qed.

Abbreviation trans := (atrans ids (quorum ids)).
Abbreviation outs out := (omap absm (deliveries cluster ids out)).

Lemma sim_quiet i n n' inp out :
  view_of n' = view_of n -> (forall e d, In e out -> absm (d, env_msg e) = None) ->
  trans i (view_of n) inp (view_of n') (outs out).
Proof.
  intros -> Hout. rewrite abs_none by done. apply at_quiet. by intros m ?%not_elem_of_nil.
Qed.

Lemma at_quiet_view i n n' inp : view_of n' = view_of n -> trans i (view_of n) inp (view_of n') [].
Proof. intros ->. apply at_quiet. by intros m ?%not_elem_of_nil. Qed.

Lemma sim_appends i n n' inp out :
  node_of i n' -> view_of n' = view_of n -> broadcast_appends n' = Some out ->
  trans i (view_of n) inp (view_of n') (outs out).
Proof.
  intros Hok Hv Hb. rewrite Hv. apply at_quiet. intros m Hm.
  destruct (abs_appends i n' out Hok Hb m Hm) as [Hl%role_leader (d & -> & Hd)].
  assert (vr (view_of n) = L) as Hr by (rewrite <- Hv; done). split; [done|].
  exists d. rewrite <- Hv. done.
Qed.

Lemma sim_tick i n n' out : node_of i n -> tick n = Some (n', out) ->
  trans i (view_of n) [] (view_of n') (outs out).
Proof.
  intros (Hi & Hid & Hp) Ht.
  assert (start_election (set_quiet (quiet_ticks n + 1) n) = Some (n', out) ->
    trans i (view_of n) [] (view_of n') (outs out)) as Hel.
  { intros (Hs & Hps & _ & [(Hnil & Hl & ->)|(Hne & Hst & ->)])%start_election_state;
      destruct Hs as (Hterm & Hv & _); raft_simpl.
    - rewrite abs_none by done. unfold view_of. rewrite Hterm, Hv, Hid.
      apply role_leader in Hl as ->. apply at_solo. unfold quorum.
      rewrite (peers_length i Hi), <- Hp, Hnil. simpl. lia.
    - rewrite deliver_bcast by done. unfold view_of. rewrite Hterm, Hv, Hid, Hst. cbn [role_of].
      replace (omap absm _) with ((fun d => ARv d i (term n + 1)) <$> ids); [apply at_elect|].
      clear. induction ids as [|x l IH]; [done|]. simpl. f_equal. apply IH. }
  unfold tick in Ht. raft_simpl. repeat case_match; auto; simplify_eq;
    try (apply sim_quiet; [done|by intros ? ? []]).
  apply bind_Some_out in Ht as [-> Hb]. by eapply sim_appends.
Qed.

Lemma sim_propose i n data n' out : node_of i n -> propose data n = Some (Ok (n', out)) ->
  trans i (view_of n) [] (view_of n') (outs out).
Proof.
  intros (Hi & Hid & Hp) H. unfold propose in H. case_match; [done|].
  apply bind_Some in H as (o & Hb & [= <- <-]).
  edestruct advance_commit_frame as (k & Heq & _). rewrite Heq in *. by eapply sim_appends.
Qed.

(** A vote request of another node [c] of the cluster. *)
Lemma sim_request i n c t lli llt : node_of i n -> c ∈ ids -> c <> i ->
  let r := handle_request_vote n t c lli llt in
  trans i (view_of n) [ARv i c t] (view_of r.1) (outs r.2).
Proof.
  intros (Hi & Hid & Hp) Hc Hne r. unfold r, handle_request_vote.
  set (n1 := if bool_decide (term n < t) then become_follower t n else n).
  destruct (bool_decide (t = term n1) && _ && _) eqn:Hg; cbn [fst snd].
  - apply andb_true_iff in Hg as [Hg Hav]. apply andb_true_iff in Hg as [Ht%bool_decide_eq_true _].
    rewrite deliver_one by done. unfold n1 in *. case_bool_decide as Hlt; raft_simpl.
    + rewrite Hid. apply (at_grant_newer ids (quorum ids) i (view_of n)); done.
    + rewrite Hid, Ht. apply (at_grant_same ids (quorum ids) i (view_of n)); [done|].
      unfold vote_available in Hav. cbn [vv view_of]. destruct (voted_for n); [right|by left].
      apply bool_decide_eq_true in Hav. by subst.
  - rewrite abs_none by (by intros e d [<-|[]]). unfold n1.
    destruct (decide (term n < t)) as [Hlt|Hlt]; [rewrite bool_decide_true by done|rewrite bool_decide_false by done].
    + apply at_newer. done.
    + apply at_quiet. by intros m ?%not_elem_of_nil.
Qed.

Lemma sim_reply i n v t g n' out : node_of i n -> handle_vote_reply n t g = Some (n', out) ->
  trans i (view_of n) (if g then [AGrant i v t] else []) (view_of n') (outs out).
Proof.
  intros Hok H. unfold handle_vote_reply in H.
  case_bool_decide as Hlt; [simplify_eq; rewrite abs_none by done; by apply at_newer|].
  destruct (state n) as [|k|ni mi] eqn:Hst; [simplify_eq; by apply sim_quiet| |simplify_eq; by apply sim_quiet].
  destruct (bool_decide (t = term n) && g) eqn:Hg; [|simplify_eq; by apply sim_quiet].
  apply andb_true_iff in Hg as [->%bool_decide_eq_true ->].
  change (majority (set_state (Candidate (k + 1)) n)) with (majority n) in H.
  rewrite (majority_quorum i n Hok) in H. destruct (_ <=? _) eqn:Hmaj; simplify_eq.
  - apply become_leader_state in H as (ni & mi & -> & Hb). apply Nat.leb_le in Hmaj.
    apply (at_lead ids (quorum ids) i (view_of n) v k); [cbn; by rewrite Hst|done|].
    match type of Hb with broadcast_appends ?q = _ => assert (node_of i q) as Hq by exact Hok end.
    intros m Hm. by destruct (abs_appends i _ out Hq Hb m Hm) as [_ Hm1].
  - rewrite abs_none by done.
    apply (at_vote ids (quorum ids) i (view_of n) v k). cbn. by rewrite Hst.
Qed.

Lemma sim_append i n t l pi pt es lc : node_of i n ->
  let r := handle_append n t l pi pt es lc in
  trans i (view_of n) [AApp i l t] (view_of r.1) (outs r.2).
Proof.
  intros Hok r.
  assert (forall e d, In e r.2 -> absm (d, env_msg e) = None) as Hnone.
  { unfold r, handle_append, append_reply. intros e d.
    repeat case_match; cbn [snd]; intros [<-|[]]; done. }
  rewrite abs_none by done. unfold r in *. clear Hnone.
  assert (forall n1, (term n1 = t /\ is_follower n1 = true /\ voted_for n1 = None) ->
    view_of n1 = mkView t F None) as Hview.
  { intros n1 (<- & Hf%role_follower & Hv). unfold view_of. by rewrite Hf, Hv. }
  unfold handle_append. destruct (bool_decide (term n < t)) eqn:Hlt; cbn [orb].
  - apply bool_decide_eq_true in Hlt. rewrite bool_decide_false by (raft_simpl; lia).
    match goal with |- atrans _ _ _ _ _ (view_of ?m) _ => rewrite (Hview m) end; [by apply at_newer|].
    destruct (prev_ok _ _ _); [|done]; cbn [negb fst]; by destruct (bool_decide (commit _ < _)).
  - apply bool_decide_eq_false in Hlt. destruct (bool_decide (t = term n) && _) eqn:Hd.
    + apply andb_true_iff in Hd as [->%bool_decide_eq_true Hf%negb_true_iff].
      rewrite bool_decide_false by (raft_simpl; lia).
      match goal with |- atrans _ _ _ _ _ (view_of ?m) _ => rewrite (Hview m) end; [|destruct (prev_ok _ _ _); [|done]; cbn [negb fst]; by destruct (bool_decide (commit _ < _))].
      apply (at_stepdown ids (quorum ids) i (view_of n)). cbn. intros Hr%role_follower. congruence.
    + apply at_quiet_view. destruct (bool_decide (t < term n)); [done|].
      destruct (prev_ok _ _ _); [|done]. cbn [negb fst].
      by destruct (bool_decide (commit _ < _)).
Qed.

Lemma sim_append_reply i n t f su m inp : node_of i n ->
  trans i (view_of n) inp (view_of (handle_append_reply n t f su m)) [].
Proof.
  intros Hok. unfold handle_append_reply. case_bool_decide as Hlt; [by apply at_newer|].
  apply at_quiet_view. destruct (state n) as [|k|ni mi] eqn:Hst; [done..|].
  destruct su.
  - edestruct advance_commit_frame as (c & -> & _). unfold view_of. cbn. by rewrite Hst.
  - unfold view_of. cbn. by rewrite Hst.
Qed.

(** A message taken from the network; [requesters] says the candidate of a
    vote request is a node of the cluster. *)
Lemma sim_deliver i n m n' out : node_of i n ->
  (forall t c lli llt, m = RequestVote t c lli llt -> c ∈ ids) ->
  decode_step n m = Some (n', out) ->
  trans i (view_of n) (omap absm [(i, m)]) (view_of n') (outs out).
Proof.
  intros Hok Hreq H. pose proof Hok as (Hi & Hid & Hp).
  destruct m as [t c lli llt|t v g|t l pi pt es lc|t f su k]; cbn [decode_step step] in H.
  - rewrite Hid in H. case_bool_decide as Hc; [simplify_eq; by apply sim_quiet|].
    pose proof (sim_request i n c t lli llt Hok (Hreq _ _ _ _ eq_refl) Hc) as Hs.
    destruct (handle_request_vote n t c lli llt). injection H as <- <-. exact Hs.
  - pose proof (sim_reply i n v t g n' out Hok H) as Hs. by destruct g.
  - pose proof (sim_append i n t l pi pt es lc Hok) as Hs.
    destruct (handle_append n t l pi pt es lc). injection H as <- <-. exact Hs.
  - injection H as <- <-. rewrite abs_none by done. by apply sim_append_reply.
Qed.

(** *** The invariant of the cluster *)

Definition net_ok (s : net) : Prop :=
  (forall i n, nodes s !! i = Some n -> node_of i n) /\ inv ids (quorum ids) (absn s).

Lemma quorum_majority : length ids < 2 * quorum ids.
Proof. unfold quorum. pose proof (Nat.div_mod (length ids) 2). pose proof (Nat.mod_upper_bound (length ids) 2). lia. Qed.

Lemma view_lookup s i n : nodes s !! i = Some n -> vs (absn s) !! i = Some (view_of n).
Proof. intros H. cbn. by rewrite lookup_fmap, H. Qed.

Lemma leads_view i n : (if is_leader n then [(term n, i)] else []) = leads i (view_of n).
Proof. unfold leads, is_leader, view_of. cbn. by destruct (state n). Qed.

Lemma absn_after s i n' out rest : absn (after cluster ids s i n' out rest) =
  mkSys (<[i := view_of n']> (vs (absn s))) (omap absm rest ++ outs out)
    (history (absn s) ++ outs out) (leads i (view_of n') ++ elected (absn s)).
Proof.
  unfold absn, after. cbn [nodes pkts sent leaders vs history elected].
  by rewrite fmap_insert, !omap_app, leads_view.
Qed.

Lemma after_ok s i n n' inp out rest : net_ok s -> nodes s !! i = Some n -> forward n n' ->
  omap absm (pkts s) ≡ₚ inp ++ omap absm rest -> trans i (view_of n) inp (view_of n') (outs out) ->
  net_ok (after cluster ids s i n' out rest).
Proof.
  intros [Hn Hinv] Hi (_ & Hid & Hp & _) Hin Ht. pose proof (Hn _ _ Hi) as (Hii & Hnid & Hnp). split.
  - cbn. intros j m [[<- <-]|[_ Hj]]%lookup_insert_Some; [|by apply Hn].
    unfold node_of. by rewrite Hid, Hp.
  - rewrite absn_after. eapply astep_inv; [done|apply quorum_majority|exact Hinv|].
    eapply as_node; [by apply view_lookup|done|exact Hin|exact Ht].
Qed.

Lemma net_step_ok s s' : net_ok s -> net_step cluster ids s s' -> net_ok s'.
Proof.
  intros Hok Hst. pose proof Hok as [Hn Hinv].
  destruct Hst as [i n n' out Hi Ht|i n data n' out Hi Ht|i n m rest n' out Hi Hp Ht|p rest Hp].
  - eapply (after_ok _ _ _ _ []); [done|done|by eapply forward_tick|done|]. apply sim_tick; [by apply Hn|done].
  - eapply (after_ok _ _ _ _ []); [done|done|by eapply forward_propose|done|].
    eapply sim_propose; [by apply Hn|done].
  - assert (omap absm (pkts s) ≡ₚ omap absm [(i, m)] ++ omap absm rest) as Hperm.
    { rewrite Hp, <- omap_app. done. }
    eapply after_ok; [done|done|by eapply moves_forward, moves_step|exact Hperm|].
    apply sim_deliver; [by apply Hn| |done]. intros t c lli llt ->.
    assert (ARv i c t ∈ history (absn s)) as (v & Hv & _)%(inv_request _ _ _ Hinv).
    { apply (inv_sent _ _ _ Hinv). cbn. rewrite Hperm. cbn. by left. }
    by eapply (inv_ids _ _ _ Hinv).
  - split; [done|]. destruct (absm p) as [a|] eqn:Ha.
    + eapply (astep_inv _ _ ids_nodup quorum_majority); [exact Hinv|].
      apply (as_drop _ _ (absn s) a (omap absm rest)). cbn. rewrite Hp. cbn. by rewrite Ha.
    + destruct Hinv as [I1 I2 I3 I4 I5 I6 I7 I8 I9 I10 I11].
      assert (omap absm (pkts s) ≡ₚ omap absm rest) as Hperm.
      { rewrite Hp. cbn. by rewrite Ha. }
      split; cbn [vs flying history elected absn nodes pkts sent leaders] in *; try done.
      * intros i n k Hi Hk. specialize (I3 i n k Hi Hk). by rewrite (voters_perm_length _ _ _ _ Hperm) in I3.
      * intros m. rewrite <- Hperm. apply I5.
      * intros v c t. rewrite <- (occ_perm _ _ _ Hperm). apply I6.
Qed.

Lemma spawn_ok seed : net_ok (spawn_net ids seed).
Proof.
  assert (forall i n, nodes (spawn_net ids seed) !! i = Some n ->
    i ∈ ids /\ n = RaftNode_new i (peers_of ids i) (seed i)) as Hn.
  { cbn. intros i n H. apply elem_of_list_to_map_2, list_elem_of_fmap in H as (j & [= -> ->] & Hj). done. }
  assert (forall i v, vs (absn (spawn_net ids seed)) !! i = Some v -> i ∈ ids /\ v = mkView 0 F None) as Hv.
  { intros i v H. cbn [vs absn] in H. rewrite lookup_fmap in H.
    apply fmap_Some in H as (n & [Hi ->]%Hn & ->). done. }
  split; [intros i n [Hi ->]%Hn; done|].
  split; try (intros *; cbn [flying history elected absn spawn_net pkts sent leaders omap list_omap];
              by intros ?%not_elem_of_nil).
  - intros i v H. by apply Hv in H as [].
  - intros i v H. apply Hv in H as [_ ->]. done.
  - intros i v k H. apply Hv in H as [_ ->]. done.
  - intros i v H. apply Hv in H as [_ ->]. done.
  - cbn. lia.
Qed.

End refinement.

(** ** Properties *)

(** Runs of the cluster. *)
Definition runs (cluster : string) (ids : list string) : net -> net -> Prop :=
  rtc (net_step cluster ids).

Lemma runs_ok cluster ids s s' : NoDup ids -> "bcast"%string ∉ ids -> net_ok ids s -> runs cluster ids s s' ->
  net_ok ids s'.
Proof. intros Hd Hb Hok Hr. induction Hr; [done|]. eauto using net_step_ok. Qed.

Lemma net_step_leaders cluster ids s s' x : net_step cluster ids s s' -> x ∈ leaders s -> x ∈ leaders s'.
Proof. intros [] Hx; cbn; rewrite ?elem_of_app; auto. Qed.

Lemma runs_leaders cluster ids s s' x : runs cluster ids s s' -> x ∈ leaders s -> x ∈ leaders s'.
Proof. induction 1; eauto using net_step_leaders. Qed.

Lemma leader_recorded ids s i n : net_ok ids s -> nodes s !! i = Some n -> is_leader n = true ->
  (term n, i) ∈ leaders s.
Proof.
  intros [_ Hinv] Hn Hl. apply (inv_leader _ _ _ Hinv i (view_of n)); [by apply view_lookup|].
  by apply role_leader.
Qed.

(** *** Executing a schedule *)

Inductive action : Set :=
  | DoTick (i : string) | DoPropose (i data : string) | DoDeliver (k : nat) | DoLose (k : nat).

Definition exec1 (cluster : string) (ids : list string) (s : net) (a : action) : option net :=
  match a with
  | DoTick i =>
      n ← nodes s !! i; '(n', out) ← tick n; Some (after cluster ids s i n' out (pkts s))
  | DoPropose i data =>
      n ← nodes s !! i; r ← propose data n;
      match r with
      | Ok (n', out) => Some (after cluster ids s i n' out (pkts s))
      | Err _ => None
      end
  | DoDeliver k =>
      '(i, m) ← pkts s !! k; n ← nodes s !! i; '(n', out) ← decode_step n m;
      Some (after cluster ids s i n' out (delete k (pkts s)))
  | DoLose k =>
      _ ← pkts s !! k; Some (mkNet (nodes s) (delete k (pkts s)) (sent s) (leaders s))
  end.

Fixpoint exec (cluster : string) (ids : list string) (s : net) (acts : list action) : option net :=
  match acts with
  | [] => Some s
  | a :: acts => s ← exec1 cluster ids s a; exec cluster ids s acts
  end.

Lemma exec_runs cluster ids acts s s' : exec cluster ids s acts = Some s' -> runs cluster ids s s'.
Proof.
  revert s. induction acts as [|a acts IH]; intros s H; [by injection H as <-|].
  apply bind_Some in H as (s1 & H1 & H). eapply rtc_l; [|by apply IH]. clear H IH.
  destruct a as [i|i data|k|k]; cbn [exec1] in H1.
  - apply bind_Some in H1 as (n & Hn & H1). apply bind_Some in H1 as ([n' out] & Ht & [= <-]).
    by eapply ns_tick.
  - apply bind_Some in H1 as (n & Hn & H1). apply bind_Some in H1 as ([[n' out]|] & Ht & H1); [|done].
    injection H1 as <-. by eapply ns_propose.
  - apply bind_Some in H1 as ([i m] & Hk & H1). apply bind_Some in H1 as (n & Hn & H1).
    apply bind_Some in H1 as ([n' out] & Ht & [= <-]).
    eapply ns_deliver; [done| |done]. by apply delete_Permutation.
  - apply bind_Some in H1 as (p & Hk & [= <-]). eapply ns_lose. by apply delete_Permutation.
Qed.

(** C1: Election safety.  However the messages of a cluster are delayed,
    reordered or lost (each is delivered at most once, no node is called
    [bcast]), no two nodes ever lead the same term: a leader of term [t] in
    one state of a run and a leader of [t] in any later state are the same
    node. *)
Theorem election_safety cluster ids seed s1 s2 a b na nb :
  NoDup ids -> "bcast"%string ∉ ids ->
  runs cluster ids (spawn_net ids seed) s1 -> runs cluster ids s1 s2 ->
  nodes s1 !! a = Some na -> nodes s2 !! b = Some nb ->
  is_leader na = true -> is_leader nb = true -> term na = term nb -> a = b.
Proof.
  intros Hd Hb H1 H2 Ha Hnb La Lb Ht.
  assert (net_ok ids s1) as O1 by (eapply runs_ok; eauto using spawn_ok).
  assert (net_ok ids s2) as O2 by (eapply runs_ok; eauto).
  pose proof (leader_recorded _ _ _ _ O1 Ha La) as R1. pose proof (leader_recorded _ _ _ _ O2 Hnb Lb) as R2.
  eapply runs_leaders in R1; [|done]. rewrite Ht in R1.
  eapply (inv_unique ids (quorum ids) (quorum_majority ids) (absn s2)); [apply O2|exact R1|exact R2].
Qed.

Definition demo_ids : list string := ["a"; "b"; "c"].
Definition demo_seed (i : string) : Z := if bool_decide (i = "a"%string) then 3 else 8.
(** Node [a] times out, asks for votes, [b] grants and the vote arrives. *)
Definition demo_election : list action :=
  replicate (election_after (RaftNode_new "a" ["b"; "c"] (demo_seed "a"))) (DoTick "a") ++
  [DoDeliver 0; DoDeliver 0; DoDeliver 1].
(** Then [a] takes a proposal, and its appends to [b] are answered. *)
Definition demo_replication : list action :=
  [DoPropose "a" "x"; DoLose 0; DoDeliver 0; DoDeliver 0; DoDeliver 0].

(** Role and term of a node after a schedule. *)
Definition outcome (i : string) (o : option net) : option (bool * nat) :=
  s ← o; n ← nodes s !! i; Some (is_leader n, term n).

Lemma outcome_Some i o r : outcome i o = Some r ->
  exists s n, o = Some s /\ nodes s !! i = Some n /\ is_leader n = r.1 /\ term n = r.2.
Proof.
  unfold outcome. intros (s & -> & H)%bind_Some. apply bind_Some in H as (n & Hn & [= <-]). eauto 10.
Qed.

Lemma exec_app cluster ids s l k : exec cluster ids s (l ++ k) = s ← exec cluster ids s l; exec cluster ids s k.
Proof.
  revert s. induction l as [|a l IH]; intros s; [done|]. simpl.
  destruct (exec1 cluster ids s a); [apply IH|done].
Qed.

Example election_safety_witness :
  exists s1 s2 na nb, nodes s1 !! "a"%string = Some na /\ nodes s2 !! "a"%string = Some nb /\
    is_leader na = true /\ is_leader nb = true /\ term na = 1 /\ term nb = 1 /\
    (forall b n, nodes s2 !! b = Some n -> is_leader n = true -> term n = 1 -> b = "a"%string).
Proof.
  assert (outcome "a" (exec "k" demo_ids (spawn_net demo_ids demo_seed) demo_election) = Some (true, 1)) as H1
    by (vm_compute; reflexivity).
  assert (outcome "a" (exec "k" demo_ids (spawn_net demo_ids demo_seed) (demo_election ++ demo_replication))
          = Some (true, 1)) as H2 by (vm_compute; reflexivity).
  apply outcome_Some in H1 as (s1 & na & E1 & Ha & La & Ta).
  apply outcome_Some in H2 as (s2 & nb & E2 & Hb & Lb & Tb).
  rewrite exec_app, E1 in E2. cbn [mbind option_bind] in E2. cbn [fst snd] in *.
  apply exec_runs in E1, E2.
  exists s1, s2, na, nb. refine (conj Ha (conj Hb (conj La (conj Lb (conj Ta (conj Tb _)))))).
  intros b n Hn Ln Tn. symmetry.
  refine (election_safety "k" demo_ids demo_seed s1 s2 "a" b na n _ _ E1 E2 Ha Hn La Ln _).
  - apply (bool_decide_unpack _). vm_compute. exact I.
  - apply (bool_decide_unpack _). vm_compute. exact I.
  - by rewrite Ta, Tn.
Defined.
