(* ===== verification/Cluster.v ===== *)
(** * Sharding, roles and the wire framing of the transport

    [sigil-cluster/src/shard.rs], [role.rs] and the parts of [transport.rs]
    that are not socket I/O.  The node of the consensus protocol is in
    [Raft.v]. *)

From stdpp Require Import strings list.
From S2P Require Import Prelude Utf8.

(** ** [shard.rs] *)

Module Shard.

(** Counts are [u32], the bucket an [i64]. *)
Record ShardMap : Set := mkShardMap {
  shards : Z;
  replication : Z;
  time_bucket_micros : Z;
  nodes : list string
}.

Definition ShardMap_new (sh re : Z) (ns : list string) : ShardMap :=
  mkShardMap (sh `max` 1) (re `max` 1) 0 ns.

Definition with_time_bucket (micros : Z) (m : ShardMap) : ShardMap :=
  mkShardMap (shards m) (replication m) (micros `max` 0) (nodes m).

Section hasher.
(** The standard library's [DefaultHasher]: its algorithm is unspecified, so
    the hash of the written key and time bucket is a parameter ([u64]). *)
Context (finish : string -> option Z -> Z).

Definition shard_for (m : ShardMap) (key : string) (ts : Z) : Z :=
  finish key (if bool_decide (0 < time_bucket_micros m)%Z
              then Some (Z.quot ts (time_bucket_micros m)) else None) `mod` shards m.

Definition nodes_for (m : ShardMap) (shard : Z) : list string :=
  match nodes m with
  | [] => []
  | _ =>
      let n := length (nodes m) in
      let copies := Z.to_nat (replication m) `min` n in
      let start := Z.to_nat shard `mod` n in
      omap (fun i => nodes m !! ((start + i) `mod` n)) (seq 0 copies)
  end.

Definition primary_for (m : ShardMap) (key : string) (ts : Z) : option string :=
  head (nodes_for m (shard_for m key ts)).
End hasher.

(** *** Lemmas *)

Lemma ring_inj n start i j : i < n -> j < n -> (start + i) `mod` n = (start + j) `mod` n -> i = j.
Proof.
  intros Hi Hj H. pose proof (Nat.div_mod (start + i) n ltac:(lia)) as Di.
  pose proof (Nat.div_mod (start + j) n ltac:(lia)) as Dj. rewrite H in Di.
  set (p := (start + i) / n) in *. set (q := (start + j) / n) in *.
  assert (p = q) by (destruct (Nat.lt_trichotomy p q) as [?|[?|?]]; [nia|done|nia]). nia.
Qed.

Lemma ring_lookup {A} (l : list A) start k (Hl : l <> []) : k <= length l ->
  exists ns, omap (fun i => l !! ((start + i) `mod` length l)) (seq 0 k) = ns /\ length ns = k /\
    forall i, i < k -> ns !! i = l !! ((start + i) `mod` length l).
Proof.
  intros Hk. eexists. split; [reflexivity|].
  assert (forall i, is_Some (l !! ((start + i) `mod` length l))) as Hsome.
  { intros i. apply lookup_lt_is_Some_2, Nat.mod_upper_bound. by destruct l. }
  clear Hk. induction k as [|k [IHl IH]]; [split; [done|lia]|].
  rewrite seq_S, omap_app. change (0 + k) with k. cbn [omap list_omap].
  destruct (Hsome k) as [x Hx]. rewrite Hx.
  rewrite length_app, IHl. simpl. split; [lia|]. intros i Hi.
  destruct (decide (i < k)).
  - rewrite lookup_app_l by lia. auto.
  - replace i with k by lia. rewrite lookup_app_r by lia. rewrite IHl, Nat.sub_diag. by rewrite Hx.
Qed.

Lemma nodes_for_spec m shard : nodes m <> [] ->
  length (nodes_for m shard) = Z.to_nat (replication m) `min` length (nodes m) /\
  forall i, i < Z.to_nat (replication m) `min` length (nodes m) ->
    nodes_for m shard !! i = nodes m !! ((Z.to_nat shard `mod` length (nodes m) + i) `mod` length (nodes m)).
Proof.
  intros Hn. destruct (ring_lookup (nodes m) (Z.to_nat shard `mod` length (nodes m))
    (Z.to_nat (replication m) `min` length (nodes m)) Hn) as (ns & Hns & Hl & Hi); [lia|].
  unfold nodes_for. destruct (nodes m) as [|x l] eqn:E; [done|]. rewrite <- E in *. rewrite Hns.
  split; [done|]. intros i Hi'. by apply Hi.
Qed.

(** Placement.  A shard id lies below the shard count; a shard of a
    non-empty cluster is placed on exactly [min replication n] nodes, at
    distinct positions (so on distinct nodes when the list has no
    duplicates), the primary being the node at [shard mod n]; an empty
    cluster has no placement. *)
Theorem placement_spec finish sh re bucket ns key ts :
  (forall k b, 0 <= finish k b)%Z ->
  let m := with_time_bucket bucket (ShardMap_new sh re ns) in
  let s := shard_for finish m key ts in
  (0 <= s < sh `max` 1)%Z /\
  length (nodes_for m s) = Z.to_nat (re `max` 1) `min` length ns /\
  (NoDup ns -> NoDup (nodes_for m s)) /\
  (forall x, x ∈ nodes_for m s -> x ∈ ns) /\
  primary_for finish m key ts = ns !! (Z.to_nat s `mod` length ns).
Proof.
  intros Hf m s. split; [apply Z.mod_pos_bound; simpl; lia|].
  destruct (decide (ns = [])) as [->|Hne].
  { cbn. rewrite Nat.min_0_r. split_and!; [done|constructor|by intros ? ?%not_elem_of_nil|done]. }
  destruct (nodes_for_spec m s Hne) as [Hl Hi]. cbn [m with_time_bucket ShardMap_new replication nodes] in *.
  split; [done|]. assert (0 < length ns) as Hpos by (by destruct ns; simpl; [|lia]). split_and!.
  - intros Hnd. apply NoDup_alt. intros i j x H1 H2.
    pose proof (lookup_lt_Some _ _ _ H1). pose proof (lookup_lt_Some _ _ _ H2).
    rewrite Hi in H1 by lia. rewrite Hi in H2 by lia.
    eapply (ring_inj (length ns)); [lia..|]. by eapply NoDup_lookup.
  - intros x [i H]%list_elem_of_lookup_1. pose proof (lookup_lt_Some _ _ _ H).
    rewrite Hi in H by lia. by eapply list_elem_of_lookup_2.
  - unfold primary_for. fold s. assert (nodes_for m s !! 0 = head (nodes_for m s)) as <-
      by (by destruct (nodes_for m s)).
    rewrite Hi by lia. rewrite Nat.add_0_r, Nat.Div0.mod_mod. done.
Qed.

Definition demo_hash (key : string) (bucket : option Z) : Z :=
  Z.abs (Z.of_nat (String.length key) + default 0%Z bucket).

Example placement_spec_witness :
  let m := with_time_bucket 60 (ShardMap_new 8 2 ["n1"; "n2"; "n3"]) in
  nodes_for m (shard_for demo_hash m "host" 125) = ["n1"; "n2"]%string /\
  NoDup (nodes_for m (shard_for demo_hash m "host" 125)).
Proof.
  split; [reflexivity|].
  apply (placement_spec demo_hash 8 2 60 ["n1"; "n2"; "n3"] "host" 125).
  - intros. apply Z.abs_nonneg.
  - apply (bool_decide_unpack _). vm_compute. exact I.
Defined.
End Shard.

(** ** [role.rs] *)

Module Roles.

Inductive Role : Set := Ingest | Index | Correlate | Query | Coordinator.

#[export] Instance Role_eq_dec : EqDecision Role.
Proof. solve_decision. Defined.

Definition ALL : list Role := [Ingest; Index; Correlate; Query; Coordinator].

Definition role_parse (s : string) : option Role :=
  let t := to_ascii_lowercase (trim s) in
  if bool_decide (t = "ingest"%string) then Some Ingest
  else if bool_decide (t = "index"%string) then Some Index
  else if bool_decide (t = "correlate"%string) || bool_decide (t = "correlation"%string) then Some Correlate
  else if bool_decide (t = "query"%string) then Some Query
  else if bool_decide (t = "coordinator"%string) then Some Coordinator
  else None.

Definition role_as_str (r : Role) : string :=
  match r with
  | Ingest => "ingest" | Index => "index" | Correlate => "correlate"
  | Query => "query" | Coordinator => "coordinator"
  end.

Definition RoleSet : Set := list Role.

(** One turn of the loop over the targets. *)
Definition add_target (acc : RoleSet * list string) (t : string) : RoleSet * list string :=
  match role_parse t with
  | Some r => if bool_decide (r ∈ acc.1) then acc else (acc.1 ++ [r], acc.2)
  | None => (acc.1, acc.2 ++ [t])
  end.

Definition from_targets (targets : list string) : RoleSet * list string :=
  if is_nil targets || existsb (fun t => eq_ignore_ascii_case t "all") targets then (ALL, [])
  else fold_left add_target targets ([], []).

Definition role_runs (s : RoleSet) (r : Role) : bool := bool_decide (r ∈ s).
Definition is_monolith (s : RoleSet) : bool := bool_decide (length s = length ALL).

Lemma add_target_run targets acc :
  let r := fold_left add_target targets acc in
  (NoDup acc.1 -> NoDup r.1) /\
  (forall x, x ∈ r.1 <-> x ∈ acc.1 \/ exists t, t ∈ targets /\ role_parse t = Some x) /\
  r.2 = acc.2 ++ filter (fun t => role_parse t = None) targets.
Proof.
  revert acc. induction targets as [|t ts IH]; intros [rs us].
  - cbn. split_and!; [done| |by rewrite app_nil_r]. intros x. split; [by left|].
    intros [?|(t & Ht & _)]; [done|by apply not_elem_of_nil in Ht].
  - cbn [fold_left]. destruct (IH (add_target (rs, us) t)) as (Hn & Hx & Hu). clear IH.
    unfold add_target in *. destruct (role_parse t) as [r|] eqn:Hp; cbn [fst snd] in *.
    + assert (forall x, x ∈ (if bool_decide (r ∈ rs) then (rs, us) else (rs ++ [r], us)).1 <-> x ∈ rs \/ x = r) as Hin.
      { intros x. case_bool_decide; cbn [fst]; [naive_solver|]. rewrite elem_of_app, list_elem_of_singleton. done. }
      split_and!.
      * intros Hrs. apply Hn. case_bool_decide; [done|]. cbn [fst]. apply NoDup_app.
        split_and!; [done| |apply NoDup_singleton]. by intros x Hxr ->%list_elem_of_singleton.
      * intros x. rewrite Hx, Hin. setoid_rewrite elem_of_cons. naive_solver.
      * rewrite Hu. rewrite filter_cons_False by congruence. by case_bool_decide.
    + split_and!; [done| |].
      * intros x. rewrite Hx. setoid_rewrite elem_of_cons. naive_solver.
      * rewrite Hu, filter_cons_True by done. by rewrite <- app_assoc.
Qed.

(** Roles from the configuration.  An empty target list, or one that
    names [all] in any case, gives every role and no complaint.  Any other
    list gives, without duplicates, exactly the roles its entries parse to,
    and reports exactly the entries that parse to no role, in order. *)
Theorem from_targets_spec targets :
  let '(rs, unknown) := from_targets targets in
  NoDup rs /\
  if bool_decide (targets = [] \/ Exists (fun t => eq_ignore_ascii_case t "all" = true) targets)
  then rs = ALL /\ unknown = []
  else (forall r, role_runs rs r = true <-> exists t, t ∈ targets /\ role_parse t = Some r) /\
       unknown = filter (fun t => role_parse t = None) targets.
Proof.
  unfold from_targets. destruct (is_nil targets || existsb _ targets) eqn:Hall.
  - split; [by repeat (constructor; [set_solver|]); constructor|]. rewrite bool_decide_true; [done|].
    apply orb_true_iff in Hall as [H|H]; [left; by destruct targets|right].
    apply existsb_exists in H as (t & Ht & He). apply Exists_exists. exists t. by rewrite list_elem_of_In.
  - apply orb_false_iff in Hall as [Hnil Hall].
    destruct (add_target_run targets ([], [])) as (Hn & Hx & Hu).
    destruct (fold_left add_target targets ([], [])) as [rs us]. cbn in *.
    split; [apply Hn; constructor|]. rewrite bool_decide_false.
    + split; [|done]. intros r. unfold role_runs. rewrite bool_decide_eq_true, Hx.
      split; [intros [H|H]; [by apply not_elem_of_nil in H|done]|by right].
    + intros [->|(t & Ht & He)%Exists_exists]; [done|]. rewrite list_elem_of_In in Ht.
      assert (existsb (fun t => eq_ignore_ascii_case t "all") targets = true) by (apply existsb_exists; eauto).
      congruence.
Qed.
End Roles.

(** ** [transport.rs]: backend names and the TCP framing *)

Module Transport.

Inductive TransportKind : Set := Inproc | Tcp | Redpanda | Nats.

Definition kind_parse (s : string) : option TransportKind :=
  let t := to_ascii_lowercase (trim s) in
  if bool_decide (t ∈ ["inproc"; "in-proc"; "in_proc"]%string) then Some Inproc
  else if bool_decide (t = "tcp"%string) then Some Tcp
  else if bool_decide (t ∈ ["redpanda"; "kafka"]%string) then Some Redpanda
  else if bool_decide (t = "nats"%string) then Some Nats
  else None.

Definition MAX_FRAME : Z := 16 * 1024 * 1024.

(** [write_u32]: [n as u32], big-endian. *)
Definition be32 (n : Z) : string :=
  let b k := ascii_of_N (Z.to_N (Z.shiftr (n `mod` 2 ^ 32) k `mod` 256)) in
  String (b 24%Z) (String (b 16%Z) (String (b 8%Z) (String (b 0%Z) EmptyString))).

Definition read_u32 (s : string) : option (Z * string) :=
  match s with
  | String a (String b (String c (String d r))) =>
      let v x := Z.of_N (N_of_ascii x) in
      Some (((v a * 256 + v b) * 256 + v c) * 256 + v d, r)%Z
  | _ => None
  end.

(** [read_exact] into a buffer of [n] bytes. *)
Fixpoint read_exact (n : nat) (s : string) : option (string * string) :=
  match n, s with
  | O, _ => Some (EmptyString, s)
  | S n, String c r => '(b, r') ← read_exact n r; Some (String c b, r')
  | S _, EmptyString => None
  end.

Definition write_frame (topic payload : string) : string :=
  be32 (Z.of_nat (String.length topic)) +:+ topic +:+
  be32 (Z.of_nat (String.length payload)) +:+ payload.

(** A length-prefixed field.  The stream ends ([Io]) or the length is above
    the cap ([Other]). *)
Definition read_field (s : string) : result (string * string) :=
  '(n, r) ← ok_or (read_u32 s) Io;
  if bool_decide (MAX_FRAME < n)%Z then Err Other else ok_or (read_exact (Z.to_nat n) r) Io.

Definition read_frame (s : string) : result (string * string * string) :=
  '(topic, r) ← read_field s;
  '(payload, r) ← read_field r;
  Ok (from_utf8_lossy topic, payload, r).

(** [TcpBus::read_frames] on everything a peer sends: what it publishes
    locally, and how the link ends.  Every frame takes at least eight bytes,
    so the number of bytes bounds the loop. *)
Fixpoint read_frames_fuel (fuel : nat) (s : string) : list (string * string) * error :=
  match fuel with
  | O => ([], Io)
  | S f =>
      match read_frame s with
      | Ok (t, p, r) => let '(l, e) := read_frames_fuel f r in ((t, p) :: l, e)
      | Err e => ([], e)
      end
  end.

Definition read_frames (s : string) : list (string * string) * error :=
  read_frames_fuel (S (String.length s)) s.

(** A frame the bus writes: a Rust string for the topic, and lengths within
    the cap. *)
Definition frame_ok (f : string * string) : Prop :=
  valid_utf8 f.1 = true /\ (Z.of_nat (String.length f.1) <= MAX_FRAME)%Z /\
  (Z.of_nat (String.length f.2) <= MAX_FRAME)%Z.

Definition write_frames (l : list (string * string)) : string :=
  foldr (fun f s => write_frame f.1 f.2 +:+ s) EmptyString l.

(** *** Lemmas *)

Lemma byte_roundtrip z : (0 <= z < 256)%Z -> Z.of_N (N_of_ascii (ascii_of_N (Z.to_N z))) = z.
Proof. intros. rewrite N_ascii_embedding; lia. Qed.

Lemma read_be32 n s : (0 <= n < 2 ^ 32)%Z -> read_u32 (be32 n +:+ s) = Some (n, s).
Proof.
  intros Hn. unfold be32. rewrite !string_app_cons, string_app_nil_l. cbn [read_u32].
  rewrite !byte_roundtrip by (apply Z.mod_pos_bound; lia).
  rewrite (Z.mod_small n) by lia. rewrite !Z.shiftr_div_pow2 by lia. do 2 f_equal.
  rewrite Z.div_1_r. change (2 ^ 24)%Z with (256 * 256 * 256)%Z.
  change (2 ^ 16)%Z with (256 * 256)%Z. change (2 ^ 8)%Z with 256%Z.
  rewrite <- !Z.div_div by lia.
  pose proof (Z.div_mod n 256). pose proof (Z.div_mod (n / 256) 256).
  pose proof (Z.div_mod (n / 256 / 256) 256).
  assert (0 <= n / 256 / 256 / 256 < 256)%Z as Hq.
  { rewrite !Z.div_div by lia. split; [apply Z.div_pos; lia|apply Z.div_lt_upper_bound; lia]. }
  rewrite (Z.mod_small (n / 256 / 256 / 256)) by done. lia.
Qed.

Lemma read_exact_app a s : read_exact (String.length a) (a +:+ s) = Some (a, s).
Proof. induction a as [|c a IH]; [done|]. rewrite string_app_cons. simpl. by rewrite IH. Qed.

Lemma read_exact_short n s : String.length s < n -> read_exact n s = None.
Proof.
  revert s. induction n as [|n IH]; intros s H; [lia|]. destruct s as [|c s]; [done|].
  simpl in *. by rewrite IH by lia.
Qed.

Lemma read_exact_rest n s b r : read_exact n s = Some (b, r) -> String.length r <= String.length s.
Proof.
  revert s b r. induction n as [|n IH]; intros s b r H; [by injection H as <- <-|].
  destruct s as [|c s]; [done|]. simpl in H. destruct (read_exact n s) as [[b' r']|] eqn:E; [|done].
  simpl in H. injection H as <- <-. apply IH in E. simpl. lia.
Qed.

Lemma read_u32_rest s n r : read_u32 s = Some (n, r) -> String.length s = 4 + String.length r.
Proof. do 4 (destruct s as [|? s]; [done|]). intros [= _ <-]. done. Qed.

Lemma read_field_rest s t r : read_field s = Ok (t, r) -> 4 + String.length r <= String.length s.
Proof.
  unfold read_field. destruct (read_u32 s) as [[n r0]|] eqn:E; [|done]. cbn.
  apply read_u32_rest in E. case_bool_decide; [done|].
  destruct (read_exact (Z.to_nat n) r0) as [[b r']|] eqn:Ex; [|done]. cbn. intros [= <- <-].
  apply read_exact_rest in Ex. lia.
Qed.

Lemma read_field_app a s : (Z.of_nat (String.length a) <= MAX_FRAME)%Z ->
  read_field (be32 (Z.of_nat (String.length a)) +:+ a +:+ s) = Ok (a, s).
Proof.
  unfold MAX_FRAME. intros Ha. unfold read_field. rewrite read_be32 by lia. cbn.
  rewrite bool_decide_false by (unfold MAX_FRAME; lia). by rewrite Nat2Z.id, read_exact_app.
Qed.

Lemma read_frame_app f s : frame_ok f -> read_frame (write_frame f.1 f.2 +:+ s) = Ok (f, s).
Proof.
  intros (Hv & Ht & Hp). unfold read_frame, write_frame. rewrite <- !string_app_assoc.
  rewrite (read_field_app f.1) by done. cbn. rewrite (read_field_app f.2) by done. cbn.
  rewrite lossy_valid by done. by destruct f.
Qed.

Lemma read_frame_rest s t p r : read_frame s = Ok (t, p, r) -> String.length r < String.length s.
Proof.
  unfold read_frame. destruct (read_field s) as [[t0 r0]|] eqn:E; [|done]. cbn.
  destruct (read_field r0) as [[p0 r1]|] eqn:E2; [|done]. cbn. intros [= _ _ <-].
  apply read_field_rest in E, E2. lia.
Qed.

Lemma read_frames_enough s k k' : String.length s < k -> String.length s < k' ->
  read_frames_fuel k s = read_frames_fuel k' s.
Proof.
  revert s k'. induction k as [|k IH]; intros s k' Hk Hk'; [lia|]. destruct k' as [|k']; [lia|].
  cbn [read_frames_fuel]. destruct (read_frame s) as [[[t p] r]|] eqn:E; [|done].
  apply read_frame_rest in E. by rewrite (IH r k') by lia.
Qed.

Lemma read_frames_cons f s : frame_ok f ->
  read_frames (write_frame f.1 f.2 +:+ s) = (let '(l, e) := read_frames s in (f :: l, e)).
Proof.
  intros Hf. unfold read_frames at 1. cbn [read_frames_fuel]. rewrite read_frame_app by done.
  destruct f as [t p]. cbn [fst snd].
  rewrite (read_frames_enough s _ (S (String.length s))); [done| |lia].
  unfold write_frame. rewrite !string_length_app. unfold be32. cbn [String.length]. lia.
Qed.

(** A prefix of a field followed by more either stops short of the field, or
    contains it. *)
Lemma string_app_split a b c d : a +:+ b = c +:+ d -> String.length c <= String.length a ->
  exists a', a = c +:+ a' /\ a' +:+ b = d.
Proof.
  revert a. induction c as [|x c IH]; intros a H Hl; [by exists a|].
  destruct a as [|y a]; [simpl in Hl; lia|]. rewrite !string_app_cons in H. injection H as -> H.
  apply IH in H as (a' & -> & H); [|simpl in Hl; lia]. exists a'. by rewrite string_app_cons.
Qed.

Lemma be32_length n : String.length (be32 n) = 4.
Proof. done. Qed.

Lemma read_field_cut s u a t : (Z.of_nat (String.length a) <= MAX_FRAME)%Z ->
  s +:+ u = be32 (Z.of_nat (String.length a)) +:+ a +:+ t ->
  read_field s = Err Io \/
  exists s', s = be32 (Z.of_nat (String.length a)) +:+ a +:+ s' /\ s' +:+ u = t.
Proof.
  intros Ha H. destruct (decide (4 <= String.length s)) as [Hs|Hs].
  - apply string_app_split in H as (s1 & -> & H); [|done].
    destruct (decide (String.length a <= String.length s1)) as [Hl|Hl].
    + apply string_app_split in H as (s2 & -> & H); [|done]. right. eauto.
    + left. unfold read_field, MAX_FRAME in *. rewrite read_be32 by lia. cbn.
      rewrite bool_decide_false by (unfold MAX_FRAME; lia). rewrite read_exact_short by lia. done.
  - left. unfold read_field. assert (read_u32 s = None) as ->; [|done].
    do 4 (destruct s as [|? s]; [done|]). simpl in Hs. lia.
Qed.

Lemma read_frame_cut s u f : frame_ok f -> s +:+ u = write_frame f.1 f.2 -> u <> EmptyString ->
  read_frame s = Err Io.
Proof.
  intros (Hv & Ht & Hp) H Hu. unfold write_frame in H. unfold read_frame.
  rewrite <- (string_app_nil_r f.2) in H at 2.
  destruct (read_field_cut _ _ _ _ Ht H) as [->|(s1 & -> & H1)]; [done|].
  rewrite read_field_app by done. cbn.
  destruct (read_field_cut _ _ _ _ Hp H1) as [->|(s2 & -> & H2)]; [done|].
  by destruct s2, u.
Qed.

(** The TCP framing.  Whatever frames a peer writes (topics are Rust
    strings, fields at most [MAX_FRAME] bytes), the reader publishes exactly
    those frames, in order, with their payloads unchanged, and then reports
    the end of the stream; a connection cut anywhere inside a further frame
    publishes the whole frames before it and nothing of the cut one. *)
Theorem read_write_frames l s u f :
  Forall frame_ok l -> frame_ok f -> s +:+ u = write_frame f.1 f.2 -> u <> EmptyString ->
  read_frames (write_frames l +:+ s) = (l, Io).
Proof.
  intros Hl Hf Hs Hu. induction Hl as [|g l Hg Hl IH].
  - cbn [write_frames foldr]. rewrite string_app_nil_l. unfold read_frames. cbn [read_frames_fuel].
    by rewrite (read_frame_cut _ _ _ Hf Hs Hu).
  - change (write_frames (g :: l)) with (write_frame g.1 g.2 +:+ write_frames l).
    rewrite <- string_app_assoc, read_frames_cons by done.
    by rewrite IH.
Qed.

Example read_write_frames_witness :
  read_frames (write_frames [("raft.k.b", "{}"); ("t", EmptyString)] +:+ be32 2 +:+ "x")
    = ([("raft.k.b", "{}"); ("t", EmptyString)], Io)%string.
Proof.
  apply (read_write_frames [("raft.k.b", "{}"); ("t", EmptyString)] _ ("y" +:+ be32 0) ("xy", EmptyString))%string.
  - repeat constructor; vm_compute; done.
  - repeat constructor; vm_compute; done.
  - reflexivity.
  - done.
Defined.
End Transport.
