(* ===== verification/Serde.v ===== *)
(** * Serialisation

    The text and JSON forms the program's records get from [serde] and
    [serde_json] are parameters: the classes state their round-trip law.  Any
    countable type has a codec with that law; it stands in for [serde_json]
    where a theorem is applied to a concrete state. *)

From stdpp Require Import countable strings list.
From S2P Require Import Prelude Core.

(** ** The classes *)

(** [serde_json::to_string], [from_str]. *)
Class Serde (A : Type) := { ser : A -> string; de : string -> option A }.
Class SerdeLaws (A : Type) `{Serde A} := de_ser : forall a : A, de (ser a) = Some a.

(** [serde_json::to_value], [from_value]. *)
Class SerdeValue (A : Type) := { to_value : A -> value; from_value : value -> option A }.
Class SerdeValueLaws (A : Type) `{SerdeValue A} := from_to_value : forall a : A, from_value (to_value a) = Some a.

(** ** A concrete codec *)

Fixpoint bits (p : positive) : string :=
  match p with
  | xH => EmptyString
  | xO p => String "0" (bits p)
  | xI p => String "1" (bits p)
  end.
Fixpoint unbits (s : string) : positive :=
  match s with
  | EmptyString => xH
  | String "0" s => xO (unbits s)
  | String _ s => xI (unbits s)
  end.

Lemma unbits_bits p : unbits (bits p) = p.
Proof. induction p; cbn; congruence. Qed.

Definition countable_serde (A : Type) `{Countable A} : Serde A :=
  {| ser := fun a => bits (encode a); de := fun s => decode (unbits s) |}.

Lemma countable_serde_laws A `{Countable A} : @SerdeLaws A (countable_serde A).
Proof. intros a. cbn. by rewrite unbits_bits, decode_encode. Qed.

Definition countable_value (A : Type) `{Countable A} : SerdeValue A :=
  {| to_value := fun a => VString (bits (encode a));
     from_value := fun v => match v with VString s => decode (unbits s) | _ => None end |}.

Lemma countable_value_laws A `{Countable A} : @SerdeValueLaws A (countable_value A).
Proof. intros a. cbn. by rewrite unbits_bits, decode_encode. Qed.

(** ** JSON values are countable *)

Section value_countable.
Local Abbreviation leaf := (bool + (Z + string) + string)%type.

Fixpoint value_tree (v : value) : gen_tree leaf :=
  match v with
  | VNull => GenNode 0 []
  | VBool b => GenLeaf (inl (inl b))
  | VNumber (NInt z) => GenLeaf (inl (inr (inl z)))
  | VNumber (NFloat t) => GenLeaf (inl (inr (inr t)))
  | VString s => GenLeaf (inr s)
  | VArray l => GenNode 1 (value_tree <$> l)
  | VObject m => GenNode 2 (mjoin ((fun kv => [GenLeaf (inr kv.1); value_tree kv.2]) <$> m))
  end.

Fixpoint tree_value (t : gen_tree leaf) : value :=
  match t with
  | GenLeaf (inl (inl b)) => VBool b
  | GenLeaf (inl (inr (inl z))) => VNumber (NInt z)
  | GenLeaf (inl (inr (inr s))) => VNumber (NFloat s)
  | GenLeaf (inr s) => VString s
  | GenNode 0 _ => VNull
  | GenNode 1 l => VArray (tree_value <$> l)
  | GenNode _ l =>
      VObject ((fix pairs (l : list (gen_tree leaf)) : list (string * value) :=
                  match l with
                  | GenLeaf (inr k) :: t :: l => (k, tree_value t) :: pairs l
                  | _ => []
                  end) l)
  end.

Fixpoint tree_value_tree (v : value) : tree_value (value_tree v) = v.
Proof.
  destruct v as [|b|[z|t]|s|l|m]; cbn; try reflexivity.
  - f_equal. induction l as [|v l IH]; cbn; [reflexivity|]. f_equal; [apply tree_value_tree|exact IH].
  - f_equal. induction m as [|[k v] m IH]; cbn; [reflexivity|]. f_equal; [|exact IH].
    f_equal. apply tree_value_tree.
Defined.
End value_countable.

Lemma value_tree_inj : Inj (=) (=) value_tree.
Proof. intros a b H. by rewrite <- (tree_value_tree a), H, tree_value_tree. Qed.

#[export] Instance value_eq_dec : EqDecision value.
Proof. pose proof value_tree_inj. apply (inj_eq_dec value_tree). Defined.
#[export] Instance value_countable : Countable value := inj_countable' value_tree tree_value tree_value_tree.
