(* ===== verification/Store.v ===== *)
(** * [sigil-store]: triage state and saved objects

    The two tables of the embedded database ([sigil-store/src/lib.rs]) as
    key-sorted maps from strings to JSON text; each operation is one committed
    transaction.  The text form of a record ([serde_json]) is a parameter with
    its round-trip law, the standard library's [DefaultHasher] a parameter
    without one.  A database failure surfaces as [Backend] and leaves the
    tables as they were; it is not modelled further.

    The class [SavedStore] states what the EDR components use of the store;
    the store implements it. *)

From stdpp Require Import gmap strings list sorting.
From S2P Require Import Prelude Containers Core Serde.

(** ** Data *)

Inductive TriageStatus : Set := Open | Acknowledged | Closed.

#[export] Instance TriageStatus_eq_dec : EqDecision TriageStatus.
Proof. solve_decision. Defined.

Definition triage_parse (s : string) : option TriageStatus :=
  let t := to_ascii_lowercase s in
  if bool_decide (t = "open"%string) then Some Open
  else if bool_decide (t ∈ ["acknowledged"; "ack"]%string) then Some Acknowledged
  else if bool_decide (t ∈ ["closed"; "close"]%string) then Some Closed
  else None.

Record Note : Type := mkNote { note_ts : Timestamp; note_author : string; note_text : string }.

Record AlertRecord : Type := mkAlertRecord {
  ar_fingerprint : string;
  ar_alert : Alert;
  ar_status : TriageStatus;
  ar_assignee : option string;
  ar_notes : list Note;
  ar_created_ts : Timestamp;
  ar_updated_ts : Timestamp
}.

Record SavedObject : Type := mkSaved {
  so_kind : string;
  so_id : string;
  so_name : string;
  so_owner : option string;
  so_updated_ts : Timestamp;
  so_body : value
}.

(** [assignee]: [Some (Some n)] sets, [Some None] clears, [None] keeps. *)
Record AlertPatch : Type := mkPatch {
  p_status : option TriageStatus;
  p_assignee : option (option string);
  p_note : option Note
}.

Record Store : Type := mkStore { alerts : smap string; saved : smap string }.

(** ** Keys *)

(** ["{:016x}"] of a [u64]. *)
Definition hex_digit (d : Z) : ascii :=
  ascii_of_N (Z.to_N (if bool_decide (d < 10)%Z then 48 + d else 87 + d)).

Fixpoint hex (n : nat) (z : Z) (acc : string) : string :=
  match n with
  | O => acc
  | S n => hex n (z / 16) (String (hex_digit (z `mod` 16)) acc)
  end.

Definition SEP : ascii := "031".

Definition saved_key (k i : string) : string := k +:+ String SEP i.

Section store.
(** The hash of the rule id, the time and the event ids, in this order. *)
Context (default_hasher : string -> Timestamp -> list string -> Z).
Context `{Serde AlertRecord} `{Serde SavedObject}.

Definition fingerprint (a : Alert) : string :=
  hex 16 (default_hasher (a_rule_id a) (a_ts a) (a_events a)) EmptyString.

Definition AlertRecord_new (now : Timestamp) (a : Alert) : AlertRecord :=
  mkAlertRecord (fingerprint a) a Open None [] now now.

(** ** Alerts *)

Definition write_alert (s : Store) (r : AlertRecord) : Store :=
  mkStore (smap_insert (ar_fingerprint r) (ser r) (alerts s)) (saved s).

Definition get_alert (s : Store) (fp : string) : result (option AlertRecord) :=
  match smap_get (alerts s) fp with
  | Some v => r ← ok_or (de v) Backend; Ok (Some r)
  | None => Ok None
  end.

Definition upsert_alert (now : Timestamp) (s : Store) (a : Alert) : result (Store * AlertRecord) :=
  old ← get_alert s (fingerprint a);
  match old with
  | Some existing => Ok (s, existing)
  | None => let r := AlertRecord_new now a in Ok (write_alert s r, r)
  end.

(** Newest first: a stable sort by [Reverse(ts)]. *)
Definition list_alerts (s : Store) (limit : nat) (technique : option string) : result (list AlertRecord) :=
  rows ← traverse (fun kv => ok_or (de kv.2) Backend) (alerts s);
  let out := match technique with
             | Some t => filter (fun r => a_technique (ar_alert r) = Some t) rows
             | None => rows
             end in
  Ok (take limit (sort_by_key (fun r => - a_ts (ar_alert r))%Z out)).

Definition alert_count (s : Store) : nat := length (alerts s).

Definition apply_patch (now : Timestamp) (p : AlertPatch) (r : AlertRecord) : AlertRecord :=
  mkAlertRecord (ar_fingerprint r) (ar_alert r)
    (default (ar_status r) (p_status p))
    (default (ar_assignee r) (p_assignee p))
    (match p_note p with Some n => ar_notes r ++ [n] | None => ar_notes r end)
    (ar_created_ts r) now.

Definition patch_alert (now : Timestamp) (s : Store) (fp : string) (p : AlertPatch) :
    result (Store * option AlertRecord) :=
  old ← get_alert s fp;
  match old with
  | None => Ok (s, None)
  | Some r => let r := apply_patch now p r in Ok (write_alert s r, Some r)
  end.

(** ** Saved objects *)

Definition put_saved (s : Store) (o : SavedObject) : Store :=
  mkStore (alerts s) (smap_insert (saved_key (so_kind o) (so_id o)) (ser o) (saved s)).

Definition get_saved (s : Store) (k i : string) : result (option SavedObject) :=
  match smap_get (saved s) (saved_key k i) with
  | Some v => o ← ok_or (de v) Backend; Ok (Some o)
  | None => Ok None
  end.

Definition list_saved (s : Store) (k : string) : result (list SavedObject) :=
  out ← traverse (fun kv => ok_or (de kv.2) Backend)
          (filter (fun kv => starts_with (k +:+ String SEP EmptyString) kv.1 = true) (saved s));
  Ok (sort_by_key (fun o => - so_updated_ts o)%Z out).

Definition delete_saved (s : Store) (k i : string) : Store * bool :=
  let key := saved_key k i in
  (mkStore (alerts s) (smap_remove key (saved s)), bool_decide (is_Some (smap_get (saved s) key))).
End store.

(** ** The interface the EDR components use *)

(** Kinds are program constants without the separator. *)
Definition plain (k : string) : Prop := free_of SEP k = true.

Class SavedStore (S : Type) := {
  st_get : S -> string -> string -> result (option SavedObject);
  st_put : S -> SavedObject -> S;
  st_delete : S -> string -> string -> S * bool;
  st_list : S -> string -> result (list SavedObject)
}.

(** A map from kind and id to objects, that lists a kind newest first. *)
Class SavedStoreLaws (S : Type) `{SavedStore S} := {
  st_wf : S -> Prop;
  st_get_wf s k i : st_wf s -> plain k ->
    exists o, st_get s k i = Ok o /\ forall o', o = Some o' -> so_kind o' = k /\ so_id o' = i;
  st_put_wf s o : st_wf s -> plain (so_kind o) -> st_wf (st_put s o);
  st_get_put s o k i : st_wf s -> plain (so_kind o) -> plain k ->
    st_get (st_put s o) k i =
      if decide ((k, i) = (so_kind o, so_id o)) then Ok (Some o) else st_get s k i;
  st_delete_wf s k i : st_wf s -> plain k -> st_wf (st_delete s k i).1;
  st_delete_found s k i : st_wf s -> plain k ->
    (st_delete s k i).2 = true <-> exists o, st_get s k i = Ok (Some o);
  st_get_delete s k i k' i' : st_wf s -> plain k -> plain k' ->
    st_get (st_delete s k i).1 k' i' =
      if decide ((k', i') = (k, i)) then Ok None else st_get s k' i';
  st_list_spec s k : st_wf s -> plain k ->
    exists l, st_list s k = Ok l /\ NoDup (so_id <$> l) /\
      StronglySorted (fun a b => so_updated_ts b <= so_updated_ts a)%Z l /\
      forall o, o ∈ l <-> so_kind o = k /\ st_get s k (so_id o) = Ok (Some o)
}.

(** ** The store implements it *)

Lemma saved_key_inj k i k' i' : plain k -> plain k' -> saved_key k i = saved_key k' i' -> k = k' /\ i = i'.
Proof.
  unfold plain, saved_key. revert k'. induction k as [|c k IH]; intros k' Hk Hk' He.
  - destruct k' as [|c' k']; [by injection He|]. cbn in *. injection He as <- _. done.
  - destruct k' as [|c' k']; cbn in *; [injection He as -> _; done|]. injection He as -> He.
    apply andb_true_iff in Hk as [_ Hk], Hk' as [_ Hk']. by destruct (IH k' Hk Hk' He) as [-> ->].
Qed.

Lemma starts_with_key k k' i : plain k -> plain k' ->
  starts_with (k +:+ String SEP EmptyString) (saved_key k' i) = true <-> k' = k.
Proof.
  intros Hk Hk'. rewrite starts_with_spec. split.
  - intros [r He]. rewrite <- string_app_assoc in He. by apply (saved_key_inj k' i k r) in He as [-> _].
  - intros ->. exists i. by rewrite <- string_app_assoc.
Qed.

Section laws.
Context (default_hasher : string -> Timestamp -> list string -> Z).
Context `{!Serde AlertRecord} `{!Serde SavedObject} `{!SerdeLaws AlertRecord} `{!SerdeLaws SavedObject}.

Record saved_ok (s : Store) : Prop := {
  sk_sorted : smap_wf (saved s);
  sk_rows : forall key v, (key, v) ∈ saved s ->
    exists o, de v = Some o /\ key = saved_key (so_kind o) (so_id o) /\ plain (so_kind o)
}.

Lemma get_saved_ok s k i : saved_ok s -> plain k ->
  (exists v o, smap_get (saved s) (saved_key k i) = Some v /\ de v = Some o /\
     get_saved s k i = Ok (Some o) /\ so_kind o = k /\ so_id o = i) \/
  (smap_get (saved s) (saved_key k i) = None /\ get_saved s k i = Ok None).
Proof.
  intros [Hs Hr] Hk. unfold get_saved. destruct (smap_get _ _) as [v|] eqn:E; [left|by right].
  apply smap_get_elem in E; [|done]. destruct (Hr _ _ E) as (o & Hd & Hkey & Hp). rewrite Hd. cbn.
  apply saved_key_inj in Hkey as [-> ->]; [|done..]. eauto 10.
Qed.

Lemma put_saved_ok s o : saved_ok s -> plain (so_kind o) -> saved_ok (put_saved s o).
Proof.
  intros [Hs Hr] Hk. pose proof (smap_insert_wf (saved_key (so_kind o) (so_id o)) (ser o) _ Hs) as Hw.
  split; [done|]. intros key v Hin. cbn in Hin. apply smap_get_elem in Hin; [|done].
  rewrite smap_get_insert in Hin. case_decide; simplify_eq.
  - exists o. by rewrite de_ser.
  - apply Hr. by apply smap_get_elem.
Qed.

Lemma get_put_saved s o k i : plain (so_kind o) -> plain k ->
  get_saved (put_saved s o) k i =
    if decide ((k, i) = (so_kind o, so_id o)) then Ok (Some o) else get_saved s k i.
Proof.
  intros Ho Hk. unfold get_saved. cbn [saved put_saved]. rewrite smap_get_insert.
  destruct (decide ((k, i) = (so_kind o, so_id o))) as [[= -> ->]|Hne].
  - rewrite decide_True by done. by rewrite de_ser.
  - rewrite decide_False; [done|]. intros [<- <-]%saved_key_inj; done.
Qed.

Lemma delete_saved_ok s k i : saved_ok s -> saved_ok (delete_saved s k i).1.
Proof.
  intros [Hs Hr]. split; [by apply smap_remove_wf|]. intros key v Hin. cbn in Hin. apply Hr.
  unfold smap_remove in Hin. by apply list_elem_of_filter in Hin as [_ Hin].
Qed.

Lemma get_delete_saved s k i k' i' : plain k -> plain k' ->
  get_saved (delete_saved s k i).1 k' i' =
    if decide ((k', i') = (k, i)) then Ok None else get_saved s k' i'.
Proof.
  intros Hk Hk'. unfold get_saved, delete_saved. cbn [saved fst]. rewrite smap_get_remove.
  destruct (decide ((k', i') = (k, i))) as [[= -> ->]|Hne].
  - by rewrite decide_True.
  - rewrite decide_False; [done|]. intros [<- <-]%saved_key_inj; done.
Qed.

Lemma traverse_rows {A} (f : A -> result SavedObject) l :
  (forall x, x ∈ l -> exists o, f x = Ok o) ->
  exists k, traverse f l = Ok k /\ Forall2 (fun x o => f x = Ok o) l k.
Proof.
  induction l as [|x l IH]; intros Hf; [by exists []|].
  destruct (Hf x) as [o Ho]; [by left|]. destruct IH as (k & Hk & H2); [intros; apply Hf; by right|].
  exists (o :: k). cbn. rewrite Ho. cbn. rewrite Hk. cbn. split; [done|by constructor].
Qed.

(** The rows of one kind, decoded. *)
Lemma list_rows s k : saved_ok s -> plain k ->
  exists out, traverse (fun kv => ok_or (de kv.2) Backend)
      (filter (fun kv => starts_with (k +:+ String SEP EmptyString) kv.1 = true) (saved s)) = Ok out /\
    NoDup (so_id <$> out) /\ forall o, o ∈ out <-> so_kind o = k /\ get_saved s k (so_id o) = Ok (Some o).
Proof.
  intros [Hs Hr] Hk. set (rows := filter _ (saved s)).
  assert (forall kv, kv ∈ rows -> exists o, de kv.2 = Some o /\ kv.1 = saved_key k (so_id o) /\ so_kind o = k) as Hrow.
  { intros [key v] [Hst Hin]%list_elem_of_filter. destruct (Hr _ _ Hin) as (o & Hd & -> & Hp).
    apply starts_with_key in Hst; [|done..]. subst. eauto. }
  destruct (traverse_rows (fun kv : string * string => ok_or (de kv.2) Backend) rows) as (out & Ht & H2).
  { intros kv Hin. destruct (Hrow kv Hin) as (o & Hd & _). exists o. by rewrite Hd. }
  exists out. split; [done|].
  assert (forall key v o, (key, v) ∈ rows -> ok_or (de v) Backend = Ok o ->
    so_kind o = k /\ key = saved_key k (so_id o) /\ get_saved s k (so_id o) = Ok (Some o)) as Hget.
  { intros key v o Hin Hd. destruct (Hrow _ Hin) as (o' & Hd' & Hkey & Hko). cbn in *.
    rewrite Hd' in Hd. injection Hd as <-. split; [done|]. split; [done|].
    apply list_elem_of_filter in Hin as [_ Hin]. unfold get_saved. subst key.
    apply smap_get_elem in Hin as ->; [|done]. by rewrite Hd'. }
  split.
  - assert (NoDup (rows.*1)) as Hnd.
    { apply smap_wf_nodup in Hs. unfold rows. clear -Hs.
      induction (saved s) as [|[key v] m IH]; [constructor|]. cbn in Hs. apply NoDup_cons in Hs as [Hk Hs].
      rewrite filter_cons. case_decide; [|by apply IH]. cbn. constructor; [|by apply IH].
      intros ([? ?] & -> & [_ Hin]%list_elem_of_filter)%list_elem_of_fmap. apply Hk, list_elem_of_fmap. eauto. }
    clear Ht. induction H2 as [|[key v] o rows' out' Hd H2 IH]; [constructor|]. cbn in Hnd |- *.
    apply NoDup_cons in Hnd as [Hkey Hnd]. constructor.
    + intros (o' & Hid & Ho')%list_elem_of_fmap. apply list_elem_of_lookup_1 in Ho' as [j Hj].
      eapply Forall2_lookup_r in H2 as ([key' v'] & Hj' & Hd'); [|done].
      apply list_elem_of_lookup_2 in Hj'. apply Hkey. apply list_elem_of_fmap. exists (key', v').
      destruct (Hget key v o) as (_ & -> & _); [by left|done|].
      destruct (Hget key' v' o') as (_ & Hkey' & _); [by right|done|].
      split; [cbn; by rewrite Hkey', Hid|done].
    + apply IH; [intros; apply Hrow; by right| |done]. intros key' v' o' Hin. apply Hget. by right.
  - intros o. split.
    + intros [j Hj]%list_elem_of_lookup_1. eapply Forall2_lookup_r in H2 as ([key v] & Hin & Hd); [|done].
      apply list_elem_of_lookup_2 in Hin. by destruct (Hget _ _ _ Hin Hd) as (? & _ & ?).
    + intros [Hko Hg]. unfold get_saved in Hg. case_match eqn:E; [|done]. cbn in Hg.
      destruct (de s0) as [o'|] eqn:Hd; [|done]. cbn in Hg. injection Hg as ->.
      apply smap_get_elem in E; [|done].
      assert ((saved_key k (so_id o), s0) ∈ rows) as Hin.
      { apply list_elem_of_filter. split; [|done]. by apply starts_with_key. }
      apply list_elem_of_lookup_1 in Hin as [j Hj].
      eapply Forall2_lookup_l in H2 as (o'' & Ho & Hd''); [|done]. cbn in Hd''. rewrite Hd in Hd''.
      injection Hd'' as <-. by eapply list_elem_of_lookup_2.
Qed.

Lemma list_saved_ok s k : saved_ok s -> plain k ->
  exists l, list_saved s k = Ok l /\ NoDup (so_id <$> l) /\
    StronglySorted (fun a b => so_updated_ts b <= so_updated_ts a)%Z l /\
    forall o, o ∈ l <-> so_kind o = k /\ get_saved s k (so_id o) = Ok (Some o).
Proof.
  intros Hok Hk. destruct (list_rows s k Hok Hk) as (out & Ht & Hnd & Hin).
  exists (sort_by_key (fun o => - so_updated_ts o)%Z out). unfold list_saved. rewrite Ht. cbn.
  split; [done|]. rewrite (sort_by_key_perm _ out) at 1. split; [done|]. split.
  - pose proof (sort_by_key_sorted (fun o => - so_updated_ts o)%Z out) as Hs.
    unfold key_sorted in Hs. eapply sorted_impl; [|exact Hs]. cbn. lia.
  - intros o. by rewrite sort_by_key_perm.
Qed.

#[export] Instance Store_saved : SavedStore Store := {
  st_get := get_saved; st_put := put_saved; st_delete := delete_saved; st_list := list_saved
}.

#[export] Instance Store_saved_laws : SavedStoreLaws Store.
Proof.
  refine {| st_wf := saved_ok |}.
  - intros s k i Hs Hk. cbn. destruct (get_saved_ok s k i Hs Hk) as [(v & o & _ & _ & -> & <- & <-)|[_ ->]].
    + exists (Some o). split; [done|]. by intros o' [= <-].
    + by exists None.
  - apply put_saved_ok.
  - intros s o k i _. apply get_put_saved.
  - intros s k i Hs _. by apply delete_saved_ok.
  - intros s k i Hs Hk. cbn. rewrite bool_decide_eq_true.
    destruct (get_saved_ok s k i Hs Hk) as [(v & o & -> & _ & -> & _)|[-> ->]].
    + split; [eauto|by eexists].
    + split; [by intros [? ?]|by intros (? & ?)].
  - intros s k i k' i' _. apply get_delete_saved.
  - apply list_saved_ok.
Defined.
End laws.

(** ** A concrete codec

    The record types are countable, so that [Serde.countable_serde] gives the
    codec with which the theorems are applied to a concrete store. *)

#[export] Instance SavedObject_eq_dec : EqDecision SavedObject.
Proof. solve_decision. Defined.
#[export] Instance SavedObject_countable : Countable SavedObject.
Proof.
  refine (inj_countable' (fun o => (so_kind o, so_id o, so_name o, so_owner o, so_updated_ts o, so_body o))
    (fun '(k, i, n, o, u, b) => mkSaved k i n o u b) _). by intros [].
Defined.

#[export] Instance Severity_countable : Countable Severity :=
  inj_countable' severity_id severity_from_id severity_id_roundtrip.

Definition triage_tag (t : TriageStatus) : nat := match t with Open => 0 | Acknowledged => 1 | Closed => 2 end.
#[export] Instance TriageStatus_countable : Countable TriageStatus.
Proof.
  refine (inj_countable' triage_tag (fun n => match n with 0 => Open | 1 => Acknowledged | _ => Closed end) _).
  by intros [].
Defined.

Definition alert_tuple (a : Alert) :=
  (a_rule_id a, a_title a, a_severity a, a_technique a, a_events a, a_ts a).
Definition tuple_alert (t : string * string * Severity * option string * list string * Z) : Alert :=
  let '(i, n, v, q, e, u) := t in mkAlert i n v q e u.
Definition note_tuple (n : Note) := (note_ts n, note_author n, note_text n).
Definition tuple_note (t : Z * string * string) : Note := let '(u, a, x) := t in mkNote u a x.

#[export] Instance Alert_eq_dec : EqDecision Alert.
Proof. solve_decision. Defined.
#[export] Instance Alert_countable : Countable Alert.
Proof. refine (inj_countable' alert_tuple tuple_alert _). by intros []. Defined.
#[export] Instance Note_eq_dec : EqDecision Note.
Proof. solve_decision. Defined.
#[export] Instance Note_countable : Countable Note.
Proof. refine (inj_countable' note_tuple tuple_note _). by intros []. Defined.
#[export] Instance AlertRecord_eq_dec : EqDecision AlertRecord.
Proof. solve_decision. Defined.
#[export] Instance AlertRecord_countable : Countable AlertRecord.
Proof.
  refine (inj_countable' (fun r => (ar_fingerprint r, ar_alert r, ar_status r, ar_assignee r, ar_notes r,
      ar_created_ts r, ar_updated_ts r))
    (fun '(f, a, t, g, n, c, u) => mkAlertRecord f a t g n c u) _). by intros [].
Defined.

(** ** The saved objects are a finite map *)

Inductive sop : Type := SPut (o : SavedObject) | SDelete (k i : string).

Definition sop_plain (op : sop) : Prop :=
  match op with SPut o => plain (so_kind o) | SDelete k _ => plain k end.

(** The specification. *)
Definition spec_op (m : gmap (string * string) SavedObject) (op : sop) : gmap (string * string) SavedObject :=
  match op with
  | SPut o => <[(so_kind o, so_id o) := o]> m
  | SDelete k i => delete (k, i) m
  end.

Section refinement.
Context {S : Type} `{SavedStoreLaws S}.

Definition store_op (s : S) (op : sop) : S :=
  match op with SPut o => st_put s o | SDelete k i => (st_delete s k i).1 end.

Definition represents (s : S) (m : gmap (string * string) SavedObject) : Prop :=
  st_wf s /\ forall k i, plain k -> st_get s k i = Ok (m !! (k, i)).

Lemma represents_op s m op : represents s m -> sop_plain op -> represents (store_op s op) (spec_op m op).
Proof.
  intros [Hw Hg] Hp. destruct op as [o|k i]; cbn in *; (split; [auto using st_put_wf, st_delete_wf|]).
  - intros k' i' Hk'. rewrite st_get_put by done. case_decide as He.
    + rewrite He. by rewrite lookup_insert_eq.
    + rewrite lookup_insert_ne by congruence. auto.
  - intros k' i' Hk'. rewrite st_get_delete by done. case_decide as He.
    + rewrite He. by rewrite lookup_delete_eq.
    + rewrite lookup_delete_ne by congruence. auto.
Qed.

Lemma represents_ops ops s m : represents s m -> Forall sop_plain ops ->
  represents (foldl store_op s ops) (foldl spec_op m ops).
Proof.
  intros Hr Hf. revert s m Hr. induction Hf as [|op ops Hop Hf IH]; intros s m Hr; [done|].
  cbn. apply IH. by apply represents_op.
Qed.

Lemma represents_list s m k : represents s m -> plain k ->
  exists l, st_list s k = Ok l /\ NoDup (so_id <$> l) /\
    StronglySorted (fun a b => so_updated_ts b <= so_updated_ts a)%Z l /\
    forall o, o ∈ l <-> so_kind o = k /\ m !! (k, so_id o) = Some o.
Proof.
  intros [Hw Hg] Hk. destruct (st_list_spec s k Hw Hk) as (l & Hl & Hnd & Hs & Hin).
  exists l. split_and!; [done..|]. intros o. rewrite Hin, Hg by done.
  split; intros [? ?]; split; congruence.
Qed.

Lemma represents_delete s m k i : represents s m -> plain k ->
  (st_delete s k i).2 = bool_decide (is_Some (m !! (k, i))).
Proof.
  intros [Hw Hg] Hk. apply eq_bool_prop_intro. rewrite !Is_true_true, bool_decide_eq_true.
  rewrite st_delete_found by done. rewrite Hg by done. split; [intros [? [= ->]]; done|].
  intros [o Ho]. exists o. by rewrite Ho.
Qed.
End refinement.

(** ** Triage *)

Section triage.
Context (default_hasher : string -> Timestamp -> list string -> Z).
Context `{!Serde AlertRecord} `{!SerdeLaws AlertRecord}.

Lemma get_write_alert s r fp : get_alert (write_alert s r) fp =
  if decide (ar_fingerprint r = fp) then Ok (Some r) else get_alert s fp.
Proof.
  unfold get_alert. cbn [alerts write_alert]. rewrite smap_get_insert. case_decide; [|done]. by rewrite de_ser.
Qed.
End triage.

(** ** Properties *)

Definition empty_store : Store := mkStore [] [].



(** Triage state survives re-derivation.  [upsert_alert] of an alert whose
    fingerprint is stored returns the stored record and changes nothing; of a
    new one it stores an open, unassigned record without notes under its
    fingerprint.  [patch_alert] changes exactly the patched parts of the one
    record (a note is appended, the alert and its creation time never change),
    so a later [upsert_alert] of the same alert returns the patched record. *)
Theorem triage_survives hasher `{SerdeLaws AlertRecord} now s a :
  let fp := fingerprint hasher a in
  (forall r, get_alert s fp = Ok (Some r) -> upsert_alert hasher now s a = Ok (s, r)) /\
  (get_alert s fp = Ok None ->
     exists s', upsert_alert hasher now s a = Ok (s', mkAlertRecord fp a Open None [] now now) /\
       saved s' = saved s /\
       (forall fp', get_alert s' fp' = if decide (fp = fp')
          then Ok (Some (mkAlertRecord fp a Open None [] now now)) else get_alert s fp')) /\
  (forall r p now', get_alert s fp = Ok (Some r) -> ar_fingerprint r = fp ->
     exists s' r', patch_alert now' s fp p = Ok (s', Some r') /\
       ar_alert r' = ar_alert r /\ ar_created_ts r' = ar_created_ts r /\ ar_updated_ts r' = now' /\
       ar_status r' = default (ar_status r) (p_status p) /\
       ar_assignee r' = default (ar_assignee r) (p_assignee p) /\
       ar_notes r' = ar_notes r ++ option_list (p_note p) /\
       (forall fp', fp' <> fp -> get_alert s' fp' = get_alert s fp') /\
       upsert_alert hasher now s' a = Ok (s', r')) /\
  (forall p now', get_alert s fp = Ok None -> patch_alert now' s fp p = Ok (s, None)).
Proof.
  intros fp. split_and!.
  - intros r Hr. unfold upsert_alert. fold fp. by rewrite Hr.
  - intros Hn. unfold upsert_alert. fold fp. rewrite Hn. cbn. eexists. split; [reflexivity|].
    split; [done|]. intros fp'. by rewrite get_write_alert.
  - intros r p now' Hr Hfp. unfold patch_alert. rewrite Hr. cbn.
    eexists _, _. split; [reflexivity|]. split_and!; try done.
    + cbn. destruct (p_note p); cbn; [done|by rewrite app_nil_r].
    + intros fp' Hne. rewrite get_write_alert. rewrite decide_False; [done|].
      cbn. rewrite Hfp. by intros <-.
    + unfold upsert_alert. fold fp. rewrite get_write_alert.
      by rewrite decide_True.
  - intros p now' Hn. unfold patch_alert. by rewrite Hn.
Qed.

Definition demo_alert : Alert := mkAlert "r1" "Rule" High (Some "T1059"%string) ["e1"; "e2"] 1000.
Definition demo_hasher (r : string) (t : Timestamp) (es : list string) : Z := Z.of_nat (String.length r) + t.

Example triage_survives_witness :
  let ser := countable_serde AlertRecord in
  let fp := fingerprint demo_hasher demo_alert in
  exists s r s' r', upsert_alert demo_hasher 7 empty_store demo_alert = Ok (s, r) /\
    patch_alert 9 s fp (mkPatch (Some Closed) None (Some (mkNote 9 "ann" "fp"))) = Ok (s', Some r') /\
    ar_status r' = Closed /\ upsert_alert demo_hasher 11 s' demo_alert = Ok (s', r').
Proof.
  intros ser fp.
  destruct (@triage_survives demo_hasher ser (countable_serde_laws AlertRecord) 7 empty_store demo_alert)
    as (_ & Hnew & _). destruct (Hnew eq_refl) as (s & Hs & _ & Hg).
  destruct (@triage_survives demo_hasher ser (countable_serde_laws AlertRecord) 11 s demo_alert)
    as (_ & _ & Hp & _).
  destruct (Hp (mkAlertRecord fp demo_alert Open None [] 7 7)
              (mkPatch (Some Closed) None (Some (mkNote 9 "ann" "fp"))) 9%Z) as (s' & r' & Hpatch & Hr).
  - rewrite Hg. by rewrite decide_True.
  - reflexivity.
  - exists s, (mkAlertRecord fp demo_alert Open None [] 7 7), s', r'.
    destruct Hr as (_ & _ & _ & Hst & _ & _ & _ & Hup). by split_and!.
Defined.
