(* ===== verification/Edr.v ===== *)
(** * [sigil-edr]: enrollment tokens, the agent registry, the command queue
      and the control streams

    [tokens.rs], [registry.rs], [queue.rs] and the gateway of [server.rs],
    over any store that satisfies [SavedStoreLaws].  The clock and fresh
    identifiers (ULIDs) are arguments.  A bounded channel of the code is a
    queue with an open or dropped receiver; waiting for room in it is not
    modelled.  The messages of [sigil_edr.proto] are records. *)

From stdpp Require Import gmap strings list sorting.
From S2P Require Import Prelude Utf8 Containers Core Serde Store.

(** ** Messages *)

Record EnrollRequest : Type := mkEnrollReq {
  enrollment_token : string; er_hostname : string; er_os : string; er_os_version : string;
  er_agent_version : string; er_fingerprint : string
}.
Record EnrollReply : Type := mkEnrollReply { rp_agent_id : string; rp_session_token : string; heartbeat_secs : Z }.

Inductive CommandType : Set :=
  | CmdUnspecified | KillProcess | QuarantineFile | IsolateHost | UnisolateHost | FetchFile.

Record Command : Type := mkCommand {
  c_id : string;
  c_type : CommandType;
  c_kill : option (Z * string);
  c_quarantine : option (string * string);
  c_isolate : option (list string);
  c_fetch : option (string * Z)
}.

Record CommandResult : Type := mkResult { cr_id : string; cr_ok : bool; cr_message : string; cr_payload : string }.

(** ** Records kept in the store *)

Record TokenRecord : Type := mkToken {
  t_token : string; t_label : string; t_created_ts : Timestamp; t_created_by : option string
}.

Record TokenInfo : Type := mkTokenInfo {
  ti_prefix : string; ti_label : string; ti_created_ts : Timestamp; ti_created_by : option string
}.

Record AgentRecord : Type := mkAgent {
  ag_id : string; ag_hostname : string; ag_os : string; ag_os_version : string; ag_version : string;
  ag_fingerprint : string; ag_session_token : string; ag_enrolled_ts : Timestamp;
  ag_last_seen : Timestamp; ag_isolated : bool
}.

Record AgentView : Type := mkAgentView {
  av_id : string; av_hostname : string; av_os : string; av_os_version : string; av_version : string;
  av_enrolled_ts : Timestamp; av_last_seen : Timestamp; av_connected : bool; av_isolated : bool
}.

Record CommandParams : Type := mkParams {
  cp_pid : option Z; cp_hash_sha256 : option string; cp_path : option string; cp_max_bytes : option Z;
  cp_allowlist_cidrs : option (list string)
}.

Record CommandRecord : Type := mkCommandRecord {
  rc_id : string; rc_agent : string; rc_type : string; rc_params : CommandParams; rc_status : string;
  rc_issued_by : string; rc_issued_ts : Timestamp; rc_result_ok : option bool;
  rc_result_message : option string; rc_result_bytes : option nat; rc_completed_ts : option Timestamp
}.

Definition TOKEN_KIND : string := "edr-token".
Definition AGENT_KIND : string := "edr-agent".
Definition COMMAND_KIND : string := "edr-command".

(** ** Live state *)

Record LiveSession : Type := mkLive { command_tx : nat; ls_last_seen : Timestamp; ls_isolated : bool }.
Record Channel : Type := mkChannel { queued : list Command; rx_open : bool }.

(** [EdrState] with its channels (numbered as they are created) and the
    running session loops: the channel a loop reads and the agent it serves. *)
Record Edr (S : Type) : Type := mkEdr {
  store : S;
  live : gmap string LiveSession;
  channels : gmap nat Channel;
  loops : gmap nat string;
  next_channel : nat
}.
Arguments mkEdr {S}.
Arguments store {S}.
Arguments live {S}.
Arguments channels {S}.
Arguments loops {S}.
Arguments next_channel {S}.

Definition set_store {S} (st : S) (e : Edr S) : Edr S := mkEdr st (live e) (channels e) (loops e) (next_channel e).
Definition set_live {S} l (e : Edr S) : Edr S := mkEdr (store e) l (channels e) (loops e) (next_channel e).
Definition set_channels {S} c (e : Edr S) : Edr S := mkEdr (store e) (live e) c (loops e) (next_channel e).
Definition set_loops {S} l (e : Edr S) : Edr S := mkEdr (store e) (live e) (channels e) l (next_channel e).

(** ** Command construction ([queue.rs]) *)

Definition parse_command_type (s : string) : result CommandType :=
  let t := to_ascii_lowercase s in
  if bool_decide (t ∈ ["kill_process"; "kill"]%string) then Ok KillProcess
  else if bool_decide (t ∈ ["quarantine_file"; "quarantine"]%string) then Ok QuarantineFile
  else if bool_decide (t ∈ ["isolate_host"; "isolate"]%string) then Ok IsolateHost
  else if bool_decide (t ∈ ["unisolate_host"; "unisolate"]%string) then Ok UnisolateHost
  else if bool_decide (t ∈ ["fetch_file"; "fetch"]%string) then Ok FetchFile
  else Err Config.

Definition build_command (i : string) (t : CommandType) (p : CommandParams) : Command :=
  match t with
  | KillProcess =>
      mkCommand i t (Some (default 0%Z (cp_pid p), default ""%string (cp_hash_sha256 p))) None None None
  | QuarantineFile =>
      mkCommand i t None (Some (default ""%string (cp_path p), default ""%string (cp_hash_sha256 p))) None None
  | IsolateHost => mkCommand i t None None (Some (default [] (cp_allowlist_cidrs p))) None
  | FetchFile =>
      mkCommand i t None None None (Some (default ""%string (cp_path p), default (1024 * 1024)%Z (cp_max_bytes p)))
  | UnisolateHost | CmdUnspecified => mkCommand i t None None None None
  end.

Section edr.
Context {S : Type} `{SavedStore S}.
Context `{SerdeValue TokenRecord} `{SerdeValue AgentRecord} `{SerdeValue CommandRecord}.

(** ** [tokens.rs] *)

Definition token_write (s : S) (r : TokenRecord) : S :=
  st_put s (mkSaved TOKEN_KIND (t_token r) (t_label r) (t_created_by r) (t_created_ts r) (to_value r)).

Fixpoint token_seed (now : Timestamp) (s : S) (tokens : list string) : result S :=
  match tokens with
  | [] => Ok s
  | t :: ts =>
      if is_empty_str t then token_seed now s ts
      else
        old ← st_get s TOKEN_KIND t;
        match old with
        | None => token_seed now (token_write s (mkToken t "config" now (Some "config"%string))) ts
        | Some _ => token_seed now s ts
        end
  end.

(** [ulids]: the two fresh identifiers, concatenated. *)
Definition token_issue (now : Timestamp) (ulids : string) (s : S) (label : string) (by_ : option string) :
    S * string :=
  (token_write s (mkToken ulids label now by_), ulids).

Definition token_valid (s : S) (t : string) : result bool :=
  if is_empty_str t then Ok false else o ← st_get s TOKEN_KIND t; Ok (bool_decide (is_Some o)).

Definition token_revoke (s : S) (t : string) : S * bool := st_delete s TOKEN_KIND t.

Definition token_list (s : S) : result (list TokenInfo) :=
  l ← st_list s TOKEN_KIND;
  let out := (fun r => mkTokenInfo (take_chars 8 (t_token r)) (t_label r) (t_created_ts r) (t_created_by r))
               <$> omap (fun o => from_value (so_body o)) l in
  Ok (sort_by_key (fun t => - ti_created_ts t)%Z out).

(** ** [registry.rs] *)

Definition agent_record (s : S) (i : string) : result (option AgentRecord) :=
  o ← st_get s AGENT_KIND i; Ok (o ≫= fun o => from_value (so_body o)).

Definition agent_persist (now : Timestamp) (s : S) (r : AgentRecord) : S :=
  st_put s (mkSaved AGENT_KIND (ag_id r) (ag_hostname r) None now (to_value r)).

Definition registry_enroll (now : Timestamp) (ulid : string) (s : S) (req : EnrollRequest)
    (session_token : string) : S * AgentRecord :=
  let r := mkAgent ulid (er_hostname req) (er_os req) (er_os_version req) (er_agent_version req)
             (er_fingerprint req) session_token now now false in
  (agent_persist now s r, r).

Definition validate_session (s : S) (i token : string) : result bool :=
  r ← agent_record s i;
  Ok (match r with
      | Some r => negb (is_empty_str token) && bool_decide (ag_session_token r = token)
      | None => false
      end).

(** A new channel; the previous session of the agent, if any, is replaced and
    its sender dropped. *)
Definition registry_connect (now : Timestamp) (e : Edr S) (i : string) : Edr S * nat :=
  let isolated := match live e !! i with Some s => ls_isolated s | None => false end in
  let c := next_channel e in
  (mkEdr (store e) (<[i := mkLive c now isolated]> (live e)) (<[c := mkChannel [] true]> (channels e))
     (loops e) (c + 1), c).

Definition registry_disconnect (now : Timestamp) (e : Edr S) (i : string) : Edr S :=
  match live e !! i with
  | Some session =>
      let e := set_live (delete i (live e)) e in
      match agent_record (store e) i with
      | Ok (Some r) =>
          let r := mkAgent (ag_id r) (ag_hostname r) (ag_os r) (ag_os_version r) (ag_version r)
                     (ag_fingerprint r) (ag_session_token r) (ag_enrolled_ts r)
                     (ls_last_seen session) (ls_isolated session) in
          set_store (agent_persist now (store e) r) e
      | _ => e
      end
  | None => e
  end.

Definition registry_heartbeat (now : Timestamp) (e : Edr S) (i : string) (isolated : bool) : Edr S :=
  match live e !! i with
  | Some s => set_live (<[i := mkLive (command_tx s) now isolated]> (live e)) e
  | None => e
  end.

Definition command_sender (e : Edr S) (i : string) : option nat := command_tx <$> live e !! i.
Definition is_connected (e : Edr S) (i : string) : bool := bool_decide (is_Some (live e !! i)).

Definition agent_view (e : Edr S) (r : AgentRecord) : AgentView :=
  let l := live e !! ag_id r in
  mkAgentView (ag_id r) (ag_hostname r) (ag_os r) (ag_os_version r) (ag_version r) (ag_enrolled_ts r)
    (match l with Some s => ls_last_seen s | None => ag_last_seen r end)
    (bool_decide (is_Some l))
    (match l with Some s => ls_isolated s | None => ag_isolated r end).

Definition registry_get (e : Edr S) (i : string) : result (option AgentView) :=
  r ← agent_record (store e) i; Ok (option_map (agent_view e) r).

Definition registry_list (e : Edr S) : result (list AgentView) :=
  l ← st_list (store e) AGENT_KIND;
  Ok (sort_by_key (fun v => - av_enrolled_ts v)%Z
        (agent_view e <$> omap (fun o => from_value (so_body o)) l)).

(** ** [queue.rs] *)

Definition command_persist (now : Timestamp) (s : S) (r : CommandRecord) : S :=
  st_put s (mkSaved COMMAND_KIND (rc_id r) (rc_type r +:+ " → " +:+ rc_agent r) (Some (rc_issued_by r)) now
              (to_value r)).

Definition command_get (s : S) (i : string) : result (option CommandRecord) :=
  o ← st_get s COMMAND_KIND i; Ok (o ≫= fun o => from_value (so_body o)).

(** [Sender::send]: fails when the receiver is gone. *)
Definition channel_send (e : Edr S) (c : nat) (cmd : Command) : Edr S * bool :=
  match channels e !! c with
  | Some (mkChannel q true) => (set_channels (<[c := mkChannel (q ++ [cmd]) true]> (channels e)) e, true)
  | _ => (e, false)
  end.

Definition set_status (st : string) (r : CommandRecord) : CommandRecord :=
  mkCommandRecord (rc_id r) (rc_agent r) (rc_type r) (rc_params r) st (rc_issued_by r) (rc_issued_ts r)
    (rc_result_ok r) (rc_result_message r) (rc_result_bytes r) (rc_completed_ts r).

(** [enqueue] up to the delivery: the record, and whether it was sent. *)
Definition enqueue_deliver (now : Timestamp) (ulid : string) (e : Edr S) (agent ctype : string)
    (p : CommandParams) (by_ : string) : result (Edr S * CommandRecord * bool) :=
  t ← parse_command_type ctype;
  let r := mkCommandRecord ulid agent ctype p "pending" by_ now None None None None in
  let e := set_store (command_persist now (store e) r) e in
  match command_sender e agent with
  | Some tx => let '(e, ok) := channel_send e tx (build_command ulid t p) in Ok (e, r, ok)
  | None => Ok (e, r, false)
  end.

(** The rest of [enqueue], after the [await]: the task writes back the record
    it holds. *)
Definition enqueue_mark (now : Timestamp) (e : Edr S) (r : CommandRecord) (sent : bool) : Edr S * CommandRecord :=
  if sent then
    let r := set_status "sent" r in (set_store (command_persist now (store e) r) e, r)
  else (e, r).

Definition enqueue (now : Timestamp) (ulid : string) (e : Edr S) (agent ctype : string)
    (p : CommandParams) (by_ : string) : result (Edr S * CommandRecord) :=
  '(e, r, ok) ← enqueue_deliver now ulid e agent ctype p by_;
  Ok (enqueue_mark now e r ok).

Definition apply_result (now : Timestamp) (res : CommandResult) (r : CommandRecord) : CommandRecord :=
  mkCommandRecord (rc_id r) (rc_agent r) (rc_type r) (rc_params r)
    (if cr_ok res then "completed" else "failed") (rc_issued_by r) (rc_issued_ts r)
    (Some (cr_ok res)) (Some (cr_message res))
    (if is_empty_str (cr_payload res) then rc_result_bytes r else Some (String.length (cr_payload res)))
    (Some now).

Definition record_result (now : Timestamp) (e : Edr S) (res : CommandResult) : result (Edr S) :=
  o ← command_get (store e) (cr_id res);
  match o with
  | Some r => Ok (set_store (command_persist now (store e) (apply_result now res r)) e)
  | None => Ok e
  end.

Definition command_list (s : S) (limit : nat) (agent : option string) : result (list CommandRecord) :=
  l ← st_list s COMMAND_KIND;
  let rs := omap (fun o => from_value (so_body o)) l in
  let rs := match agent with Some a => filter (fun r => rc_agent r = a) rs | None => rs end in
  Ok (take limit (sort_by_key (fun r => - rc_issued_ts r)%Z rs)).

(** ** [server.rs] *)

(** [EdrState::new]. *)
Definition edr_new (now : Timestamp) (s : S) (tokens : list string) : result (Edr S) :=
  s ← token_seed now s tokens; Ok (mkEdr s ∅ ∅ ∅ 0).

(** The enrollment call; [None] is the status [unauthenticated]. *)
Definition gateway_enroll (now : Timestamp) (ulid session_token : string) (e : Edr S) (req : EnrollRequest) :
    result (Edr S * option EnrollReply) :=
  ok ← token_valid (store e) (enrollment_token req);
  if ok : bool then
    let '(s, r) := registry_enroll now ulid (store e) req session_token in
    Ok (set_store s e, Some (mkEnrollReply (ag_id r) session_token 30))
  else Ok (e, None).

(** The first frame of a control stream: a valid [Hello] starts a session
    loop on a new channel. *)
Definition gateway_hello (now : Timestamp) (e : Edr S) (i token : string) : Edr S * bool :=
  match validate_session (store e) i token with
  | Ok true =>
      let '(e, c) := registry_connect now e i in
      (set_loops (<[c := i]> (loops e)) e, true)
  | _ => (e, false)
  end.

(** Leaving the loop: the receiver is dropped and the agent disconnected. *)
Definition loop_end (now : Timestamp) (e : Edr S) (c : nat) (i : string) : Edr S :=
  let q := match channels e !! c with Some ch => queued ch | None => [] end in
  registry_disconnect now
    (set_loops (delete c (loops e)) (set_channels (<[c := mkChannel q false]> (channels e)) e)) i.

(** Is some sender of the channel alive?  The registry holds the only one. *)
Definition sender_alive (e : Edr S) (c : nat) : Prop :=
  exists i s, live e !! i = Some s /\ command_tx s = c.

(** The steps of the server: API calls, the enrollment call, a new stream, and
    the turns of a session loop [c] for agent [i]. *)
Inductive edr_step (e : Edr S) : Edr S -> Prop :=
  | es_enroll now ulid tok req e' r :
      gateway_enroll now ulid tok e req = Ok (e', r) -> edr_step e e'
  | es_hello now i tok : edr_step e (gateway_hello now e i tok).1
  | es_heartbeat c i now iso : loops e !! c = Some i -> edr_step e (registry_heartbeat now e i iso)
  | es_result c i now res e' : loops e !! c = Some i -> record_result now e res = Ok e' -> edr_step e e'
  | es_stream_end c i now : loops e !! c = Some i -> edr_step e (loop_end now e c i)
  | es_command c i ch cmd q : loops e !! c = Some i -> channels e !! c = Some ch -> queued ch = cmd :: q ->
      edr_step e (set_channels (<[c := mkChannel q (rx_open ch)]> (channels e)) e)
  | es_channel_closed c i ch now : loops e !! c = Some i -> channels e !! c = Some ch -> queued ch = [] ->
      ~ sender_alive e c -> edr_step e (loop_end now e c i)
  | es_deliver now ulid agent ctype p by_ e' r ok :
      enqueue_deliver now ulid e agent ctype p by_ = Ok (e', r, ok) -> edr_step e e'
  | es_mark now r ok : edr_step e (enqueue_mark now e r ok).1
  | es_token_issue now ulids label by_ : edr_step e (set_store (token_issue now ulids (store e) label by_).1 e)
  | es_token_revoke t : edr_step e (set_store (token_revoke (store e) t).1 e).
End edr.

(** ** Lemmas *)

Lemma kinds_plain : plain TOKEN_KIND /\ plain AGENT_KIND /\ plain COMMAND_KIND.
Proof. done. Qed.

Section lemmas.
Context {S : Type} `{SavedStoreLaws S}.
Context `{SerdeValueLaws TokenRecord} `{SerdeValueLaws AgentRecord} `{SerdeValueLaws CommandRecord}.
Implicit Types (s : S) (e : Edr S).

(** *** Tokens *)

Lemma token_write_wf s r : st_wf s -> st_wf (token_write s r).
Proof. intros. by apply st_put_wf. Qed.

Lemma get_token_write s r t : st_wf s ->
  st_get (token_write s r) TOKEN_KIND t =
    if decide (t = t_token r) then Ok (Some (mkSaved TOKEN_KIND (t_token r) (t_label r) (t_created_by r)
                                              (t_created_ts r) (to_value r)))
    else st_get s TOKEN_KIND t.
Proof.
  intros Hw. unfold token_write. rewrite st_get_put by done. cbn [so_kind so_id].
  repeat case_decide; try done; congruence.
Qed.

Lemma token_valid_spec s t : st_wf s ->
  exists o, st_get s TOKEN_KIND t = Ok o /\ token_valid s t = Ok (negb (is_empty_str t) && bool_decide (is_Some o)).
Proof.
  intros Hw. destruct (st_get_wf s TOKEN_KIND t Hw) as (o & Ho & _); [done|]. exists o. split; [done|].
  unfold token_valid. rewrite Ho. by destruct (is_empty_str t).
Qed.

Lemma token_seed_spec now ts s : st_wf s ->
  exists s', token_seed now s ts = Ok s' /\ st_wf s' /\
    (forall t o, st_get s TOKEN_KIND t = Ok (Some o) -> st_get s' TOKEN_KIND t = Ok (Some o)) /\
    (forall t, st_get s TOKEN_KIND t = Ok None ->
       exists o, st_get s' TOKEN_KIND t = Ok o /\ (is_Some o <-> t ∈ ts /\ is_empty_str t = false)).
Proof.
  revert s. induction ts as [|t ts IH]; intros s Hw.
  - exists s. split_and!; [done|done|done|]. intros t Ht. exists None. split; [done|].
    split; [by intros []|by intros [?%not_elem_of_nil _]].
  - cbn [token_seed]. destruct (is_empty_str t) eqn:He.
    { destruct (IH s Hw) as (s' & -> & Hw' & Hold & Hnew). exists s'. split_and!; [done..|].
      intros t' Ht'. destruct (Hnew t' Ht') as (o & Ho & Hiff). exists o. split; [done|].
      rewrite Hiff, elem_of_cons. split; [naive_solver|]. intros [[->|?] Hne]; [congruence|done]. }
    destruct (st_get_wf s TOKEN_KIND t Hw) as (o & Ho & _); [done|]. rewrite Ho. cbn [mbind result_bind].
    destruct o as [o|].
    + destruct (IH s Hw) as (s' & -> & Hw' & Hold & Hnew). exists s'. split_and!; [done..|].
      intros t' Ht'. destruct (Hnew t' Ht') as (o' & Ho' & Hiff). exists o'. split; [done|].
      rewrite Hiff, elem_of_cons. split; [naive_solver|]. intros [[->|?] Hne]; [congruence|done].
    + set (r := mkToken t "config" now (Some "config"%string)).
      destruct (IH _ (token_write_wf s r Hw)) as (s' & -> & Hw' & Hold & Hnew). exists s'.
      split; [done|]. split; [done|]. split.
      * intros t' o' Ht'. apply Hold. rewrite get_token_write by done. case_decide as Heq; [|done].
        cbn in Heq. congruence.
      * intros t' Ht'. destruct (decide (t' = t)) as [->|Hne].
        -- eexists. split; [apply Hold; rewrite get_token_write by done; by rewrite decide_True|].
           split; [|done]. intros _. split; [by left|done].
        -- destruct (Hnew t') as (o' & Ho' & Hiff).
           { rewrite get_token_write by done. by rewrite decide_False. }
           exists o'. split; [done|]. rewrite Hiff, elem_of_cons. naive_solver.
Qed.

(** *** Agents *)

Lemma agent_record_total s i : st_wf s -> exists r, agent_record s i = Ok r.
Proof.
  intros Hw. unfold agent_record. destruct (st_get_wf s AGENT_KIND i Hw) as (o & -> & _); [done|]. by eexists.
Qed.

Lemma agent_persist_wf now s r : st_wf s -> st_wf (agent_persist now s r).
Proof. intros. by apply st_put_wf. Qed.

Lemma get_agent_persist now s r i : st_wf s ->
  agent_record (agent_persist now s r) i = if decide (i = ag_id r) then Ok (Some r) else agent_record s i.
Proof.
  intros Hw. unfold agent_record, agent_persist. rewrite st_get_put by done. cbn [so_kind so_id].
  repeat case_decide; simplify_eq; try done. cbn. by rewrite from_to_value.
Qed.

(** *** Commands *)

Lemma command_persist_wf now s r : st_wf s -> st_wf (command_persist now s r).
Proof. intros. by apply st_put_wf. Qed.

Lemma get_command_persist now s r i : st_wf s ->
  command_get (command_persist now s r) i = if decide (i = rc_id r) then Ok (Some r) else command_get s i.
Proof.
  intros Hw. unfold command_get, command_persist. rewrite st_get_put by done. cbn [so_kind so_id].
  repeat case_decide; simplify_eq; try done. cbn. by rewrite from_to_value.
Qed.

(** *** Live sessions *)

(** Every live session is read by a running loop of its agent, whose receiver
    is open. *)
Record served e : Prop := {
  sv_live : forall i l, live e !! i = Some l -> loops e !! command_tx l = Some i;
  sv_open : forall c i, loops e !! c = Some i -> exists q, channels e !! c = Some (mkChannel q true);
  sv_fresh : forall c, next_channel e <= c -> channels e !! c = None /\ loops e !! c = None
}.

Lemma served_store st e : served e -> served (set_store st e).
Proof. intros [Hv1 Hv2 Hv3]. by split. Qed.

Lemma disconnect_frame now e i :
  live (registry_disconnect now e i) = delete i (live e) /\
  channels (registry_disconnect now e i) = channels e /\
  loops (registry_disconnect now e i) = loops e /\
  next_channel (registry_disconnect now e i) = next_channel e.
Proof.
  unfold registry_disconnect. destruct (live e !! i) as [s|] eqn:E.
  - by repeat case_match.
  - by rewrite delete_id.
Qed.

Lemma served_disconnect_end now e c i : served e -> loops e !! c = Some i -> served (loop_end now e c i).
Proof.
  intros [Hv1 Hv2 Hv3] Hc. unfold loop_end.
  match goal with |- served (registry_disconnect _ ?x _) => set (e1 := x) end.
  destruct (disconnect_frame now e1 i) as (Hl & Hch & Hlo & Hn). unfold e1 in *. cbn in *.
  destruct (Hv2 _ _ Hc) as [q Hq]. rewrite Hq in *. split.
  - intros j s. rewrite Hl, Hlo. intros [Hne Hj]%lookup_delete_Some. pose proof (Hv1 _ _ Hj) as Hjc.
    rewrite lookup_delete_ne; [done|]. intros ->. congruence.
  - intros c' j. rewrite Hlo, Hch. intros [Hne Hj]%lookup_delete_Some.
    rewrite lookup_insert_ne by done. by eapply Hv2.
  - intros c'. rewrite Hn, Hch, Hlo. intros Hle. destruct (Hv3 c' Hle) as [Hc1 Hc2].
    split; [rewrite lookup_insert_ne; [done|]; congruence|]. apply lookup_delete_None. by right.
Qed.

Lemma served_hello now e i tok : served e -> served (gateway_hello now e i tok).1.
Proof.
  intros [Hv1 Hv2 Hv3]. unfold gateway_hello. repeat case_match; try by split.
  unfold registry_connect in *. simplify_eq/=. split; cbn.
  - intros j s [[<- <-]|[Hne Hj]]%lookup_insert_Some; cbn; [by rewrite lookup_insert_eq|].
    pose proof (Hv1 _ _ Hj) as Hc. rewrite lookup_insert_ne; [done|]. intros Heq.
    destruct (Hv3 (next_channel e)) as [_ Hf]; [lia|]. congruence.
  - intros c j [[<- <-]|[Hne Hj]]%lookup_insert_Some; [rewrite lookup_insert_eq; eauto|].
    rewrite lookup_insert_ne by done. by eapply Hv2.
  - intros c Hle. rewrite !lookup_insert_ne by lia. apply Hv3. lia.
Qed.

Lemma channel_send_spec e c cmd q : channels e !! c = Some (mkChannel q true) ->
  channel_send e c cmd = (set_channels (<[c := mkChannel (q ++ [cmd]) true]> (channels e)) e, true).
Proof. intros H'. unfold channel_send. by rewrite H'. Qed.

Lemma served_channel e c q ch : served e -> channels e !! c = Some ch ->
  served (set_channels (<[c := mkChannel q (rx_open ch)]> (channels e)) e).
Proof.
  intros [Hv1 Hv2 Hv3] Hch. split; cbn; [done| |].
  - intros c' j Hj. destruct (Hv2 _ _ Hj) as [q' Hq']. destruct (decide (c = c')) as [<-|Hne].
    + rewrite lookup_insert_eq. simplify_eq. eauto.
    + rewrite lookup_insert_ne by done. eauto.
  - intros c' Hle. destruct (Hv3 _ Hle) as [Hc1 Hc2]. rewrite lookup_insert_ne; [done|]. congruence.
Qed.

Lemma edr_step_served e e' : served e -> edr_step e e' -> served e'.
Proof.
  intros Hs [now ulid tok req e1 r Hen|now i tok|c i now iso Hc|c i now res e1 Hc Hr|c i now Hc
    |c i ch cmd q Hc Hch Hq|c i ch now Hc Hch Hq Hno|now ulid agent ctype p by_ e1 r ok Hd|now r ok
    |now ulids label by_|t].
  - unfold gateway_enroll in Hen. destruct (token_valid _ _) as [[]|]; cbn in Hen; simplify_eq; [|done].
    by apply served_store.
  - by apply served_hello.
  - unfold registry_heartbeat. destruct (live e !! i) as [s|] eqn:E; [|done].
    destruct Hs as [Hv1 Hv2 Hv3]. split; cbn; [|done..].
    intros j s' [[<- <-]|[Hne Hj]]%lookup_insert_Some; cbn; by apply Hv1.
  - unfold record_result in Hr. destruct (command_get _ _) as [[r|]|]; cbn in Hr; simplify_eq; [|done].
    by apply served_store.
  - by apply served_disconnect_end.
  - by apply served_channel.
  - by apply served_disconnect_end.
  - unfold enqueue_deliver in Hd. destruct (parse_command_type ctype) as [t|]; [|done]. cbn [mbind result_bind] in Hd.
    set (e0 := set_store _ e) in *. assert (served e0) as Hs0 by by apply served_store.
    destruct (command_sender e0 agent) as [tx|]; [|by simplify_eq].
    unfold channel_send in Hd. destruct (channels e0 !! tx) as [[q []]|] eqn:E; simplify_eq; try done.
    by apply (served_channel e0 tx _ _ Hs0 E).
  - unfold enqueue_mark. case_match; [by apply served_store|done].
  - by apply served_store.
  - by apply served_store.
Qed.

Definition pending_record (now : Timestamp) (ulid agent ctype : string) (p : CommandParams) (by_ : string) :
    CommandRecord := mkCommandRecord ulid agent ctype p "pending" by_ now None None None None.

Lemma enqueue_deliver_live now ulid e agent ctype p by_ t l q :
  parse_command_type ctype = Ok t -> live e !! agent = Some l ->
  channels e !! command_tx l = Some (mkChannel q true) ->
  let r := pending_record now ulid agent ctype p by_ in
  enqueue_deliver now ulid e agent ctype p by_ =
    Ok (set_channels (<[command_tx l := mkChannel (q ++ [build_command ulid t p]) true]> (channels e))
          (set_store (command_persist now (store e) r) e), r, true).
Proof.
  intros Ht Hl Hq r. unfold enqueue_deliver. rewrite Ht. cbn [mbind result_bind]. unfold command_sender.
  cbn [live set_store]. rewrite Hl. cbn [fmap option_fmap option_map].
  by rewrite (channel_send_spec _ _ _ q).
Qed.
End lemmas.

(** ** Properties *)

Section properties.
Context {S : Type} `{SavedStoreLaws S}.
Context `{SerdeValueLaws TokenRecord} `{SerdeValueLaws AgentRecord} `{SerdeValueLaws CommandRecord}.
Implicit Types (s : S) (e : Edr S).

(** The life of an enrollment token.  The empty string is never valid;
    seeding makes exactly the non-empty configured tokens valid besides those
    that were, and does not touch the record of a token already present;
    issuing makes the new token valid and changes no other; revoking makes it
    invalid, changes no other, and reports whether it existed. *)
Theorem token_lifecycle now s : st_wf s ->
  token_valid s "" = Ok false /\
  (forall ts, exists s', token_seed now s ts = Ok s' /\ st_wf s' /\
     (forall t o, st_get s TOKEN_KIND t = Ok (Some o) -> st_get s' TOKEN_KIND t = Ok (Some o)) /\
     forall t, token_valid s' t = Ok true <->
       token_valid s t = Ok true \/ (t ∈ ts /\ is_empty_str t = false)) /\
  (forall t label by_ u, token_valid (token_issue now t s label by_).1 u =
     if decide (u = t) then Ok (negb (is_empty_str t)) else token_valid s u) /\
  (forall t u, token_valid (token_revoke s t).1 u = if decide (u = t) then Ok false else token_valid s u) /\
  (forall t, (token_revoke s t).2 = true <-> exists o, st_get s TOKEN_KIND t = Ok (Some o)).
Proof.
  intros Hw. split_and!.
  - done.
  - intros ts. destruct (token_seed_spec now ts s Hw) as (s' & Hs & Hw' & Hold & Hnew).
    exists s'. split_and!; [done..|]. intros t.
    destruct (token_valid_spec s t Hw) as (o & Ho & ->). destruct (token_valid_spec s' t Hw') as (o' & Ho' & ->).
    destruct o as [o|].
    + rewrite (Hold _ _ Ho) in Ho'. injection Ho' as <-. destruct (is_empty_str t); cbn; [|naive_solver].
      split; [done|]. intros [?|[_ ?]]; done.
    + destruct (Hnew t Ho) as (o2 & Ho2 & Hiff). rewrite Ho' in Ho2. injection Ho2 as <-.
      destruct (is_empty_str t); cbn.
      * split; [done|]. intros [?|[_ ?]]; done.
      * rewrite <- Hiff. split; [intros [= Hb%bool_decide_eq_true]; by right|].
        intros [?|Hb]; [done|]. by rewrite bool_decide_true.
  - intros t label by_ u. unfold token_issue, token_valid. cbn [fst]. rewrite get_token_write by done.
    cbn [t_token]. case_decide; [subst; by destruct (is_empty_str t)|done].
  - intros t u. unfold token_revoke, token_valid. rewrite st_get_delete by done.
    repeat case_decide; simplify_eq; try done. by destruct (is_empty_str _).
  - intros t. by apply st_delete_found.
Qed.

(** Enrollment and authentication.  An enrollment call with an invalid
    token is refused and changes nothing.  With a valid one it stores the
    agent under its fresh identifier and answers with its session token; from
    then on exactly that non-empty token opens a session for the agent, and
    what opens a session for any other agent is unchanged.  A [Hello] that
    does not validate changes nothing. *)
Theorem enroll_authenticates now ulid tok e req : st_wf (store e) ->
  (token_valid (store e) (enrollment_token req) = Ok false -> gateway_enroll now ulid tok e req = Ok (e, None)) /\
  (token_valid (store e) (enrollment_token req) = Ok true ->
     exists e', gateway_enroll now ulid tok e req = Ok (e', Some (mkEnrollReply ulid tok 30)) /\
       (forall t, validate_session (store e') ulid t = Ok (negb (is_empty_str t) && bool_decide (tok = t))) /\
       (forall i t, i <> ulid -> validate_session (store e') i t = validate_session (store e) i t) /\
       live e' = live e /\ loops e' = loops e) /\
  (forall i t, validate_session (store e) i t <> Ok true -> gateway_hello now e i t = (e, false)).
Proof.
  intros Hw. split_and!.
  - intros Hv. unfold gateway_enroll. by rewrite Hv.
  - intros Hv. unfold gateway_enroll. rewrite Hv. cbn. eexists. split; [reflexivity|]. cbn.
    split_and!; [| |done..].
    + intros t. unfold validate_session. rewrite get_agent_persist by done. by rewrite decide_True.
    + intros i t Hne. unfold validate_session. rewrite get_agent_persist by done. by rewrite decide_False.
  - intros i t Hv. unfold gateway_hello. by destruct (validate_session (store e) i t) as [[]|].
Qed.

(** The audit trail of a command.  An unknown command type is refused and
    changes nothing.  Otherwise the command is recorded under its identifier
    with the status of the record returned: [sent], with the built command
    appended to the agent's live channel, exactly when the agent is connected,
    and [pending] otherwise; no other command's record changes.  A later
    result turns the record into [completed] or [failed] with the result's
    data, and a result for an unknown command changes nothing. *)
Theorem command_audit now ulid e agent ctype p by_ : st_wf (store e) -> served e ->
  (parse_command_type ctype = Err Config -> enqueue now ulid e agent ctype p by_ = Err Config) /\
  (forall t, parse_command_type ctype = Ok t ->
     exists e' r, enqueue now ulid e agent ctype p by_ = Ok (e', r) /\
       command_get (store e') ulid = Ok (Some r) /\
       (forall i, i <> ulid -> command_get (store e') i = command_get (store e) i) /\
       r = mkCommandRecord ulid agent ctype p (if is_connected e agent then "sent" else "pending") by_ now
             None None None None /\
       match live e !! agent with
       | Some l => exists q, channels e !! command_tx l = Some (mkChannel q true) /\
           channels e' = <[command_tx l := mkChannel (q ++ [build_command ulid t p]) true]> (channels e)
       | None => channels e' = channels e
       end /\
       forall now' res, cr_id res = ulid ->
         exists e2, record_result now' e' res = Ok e2 /\
           command_get (store e2) ulid = Ok (Some (apply_result now' res r))) /\
  (forall now' res, command_get (store e) (cr_id res) = Ok None -> record_result now' e res = Ok e).
Proof.
  intros Hw Hs. split_and!.
  - intros Hp. unfold enqueue, enqueue_deliver. by rewrite Hp.
  - intros t Hp. unfold enqueue, enqueue_deliver. rewrite Hp. cbn [mbind result_bind].
    set (r0 := mkCommandRecord _ _ _ _ _ _ _ _ _ _ _).
    set (e0 := set_store (command_persist now (store e) r0) e).
    assert (st_wf (store e0)) as Hw0 by by apply command_persist_wf.
    assert (forall r, rc_id r = ulid -> forall i, i <> ulid ->
      command_get (command_persist now (store e0) r) i = command_get (store e) i) as Hother.
    { intros r Hr i Hi. rewrite get_command_persist, decide_False by congruence. cbn.
      by rewrite get_command_persist, decide_False by (cbn; congruence). }
    assert (forall e' r, st_wf (store e') -> command_get (store e') ulid = Ok (Some r) ->
      forall now' res, cr_id res = ulid -> rc_id r = ulid -> exists e2, record_result now' e' res = Ok e2 /\
        command_get (store e2) ulid = Ok (Some (apply_result now' res r))) as Hres.
    { intros e' r Hw' Hg now' res Hid Hrid. unfold record_result. rewrite Hid, Hg. cbn. eexists.
      split; [reflexivity|]. cbn. rewrite get_command_persist by done. by rewrite decide_True. }
    unfold command_sender, is_connected. cbn [live e0 set_store].
    destruct (live e !! agent) as [l|] eqn:Hl; cbn [fmap option_fmap option_map].
    + destruct (sv_open _ Hs _ _ (sv_live _ Hs _ _ Hl)) as [q Hq].
      rewrite (channel_send_spec e0 _ _ q) by done. cbn [mbind result_bind enqueue_mark].
      eexists _, _. split; [reflexivity|]. cbn [store set_store set_channels].
      split; [rewrite get_command_persist by done; by rewrite decide_True|].
      split; [by apply Hother|]. split; [done|]. split; [eauto|].
      intros now' res Hid. apply Hres; [by apply command_persist_wf| |done|done].
      cbn. rewrite get_command_persist by done. by rewrite decide_True.
    + eexists _, _. split; [reflexivity|]. cbn [store].
      assert (command_get (store e0) ulid = Ok (Some r0)) as Hg0.
      { cbn. rewrite get_command_persist by done. by rewrite decide_True. }
      split; [done|]. split.
      { intros i Hi. cbn. by rewrite get_command_persist, decide_False by done. }
      split; [done|]. split; [done|]. intros now' res Hid. by apply Hres.
  - intros now' res Hn. unfold record_result. by rewrite Hn.
Qed.

(** C10: Live sessions are served.  Whatever calls, streams, results and
    commands the server handles, an agent that counts as connected has a
    running session loop reading its channel, so a command sent to it is not
    lost for want of a receiver. *)
Theorem live_sessions_served now s tokens e0 e : edr_new now s tokens = Ok e0 -> rtc edr_step e0 e ->
  forall i, is_connected e i = true ->
    exists c q, command_sender e i = Some c /\ loops e !! c = Some i /\ channels e !! c = Some (mkChannel q true).
Proof.
  intros He0 Hr. assert (served e) as Hs.
  { assert (served e0) as Hs0.
    { unfold edr_new in He0. destruct (token_seed now s tokens); [|done]. cbn in He0. injection He0 as <-.
      by split. }
    clear He0. induction Hr; eauto using edr_step_served. }
  intros i [l Hl]%bool_decide_eq_true. pose proof (sv_live _ Hs _ _ Hl) as Hc.
  destruct (sv_open _ Hs _ _ Hc) as [q Hq]. exists (command_tx l), q. unfold command_sender. by rewrite Hl.
Qed.

(** A reconnecting agent loses its new session.  When an agent with a
    live session opens a second stream, the first loop finds its channel
    closed, leaves, and unregisters the agent by name: the session the new
    stream registered is gone although its loop runs, its own channel is
    closed in turn, and commands to the agent stay pending. *)
Theorem reconnect_drops_new_session now now' e i tok l ulid ctype p by_ t :
  served e -> live e !! i = Some l -> channels e !! command_tx l = Some (mkChannel [] true) ->
  validate_session (store e) i tok = Ok true -> parse_command_type ctype = Ok t ->
  let e1 := (gateway_hello now e i tok).1 in
  let e2 := loop_end now' e1 (command_tx l) i in
  is_connected e1 i = true /\ edr_step e1 e2 /\ is_connected e2 i = false /\
  loops e2 !! next_channel e = Some i /\ ~ sender_alive e2 (next_channel e) /\
  exists e3 r, enqueue now' ulid e2 i ctype p by_ = Ok (e3, r) /\ rc_status r = "pending"%string.
Proof.
  intros Hs Hl Hch Hv Ht e1 e2.
  assert (command_tx l <> next_channel e) as Hne.
  { intros Heq. destruct (sv_fresh _ Hs (next_channel e)) as [Hf _]; [lia|]. congruence. }
  pose proof (sv_live _ Hs _ _ Hl) as Hloop.
  assert (served e1) as Hs1 by by apply served_hello.
  assert (loops e1 = <[next_channel e := i]> (loops e) /\
    live e1 = <[i := mkLive (next_channel e) now (ls_isolated l)]> (live e) /\
    channels e1 = <[next_channel e := mkChannel [] true]> (channels e)) as (Hlo & Hli & Hc1).
  { unfold e1, gateway_hello. rewrite Hv. cbn. by rewrite Hl. }
  assert (loops e1 !! command_tx l = Some i) as Hloop1 by by rewrite Hlo, lookup_insert_ne.
  destruct (disconnect_frame now' (set_loops (delete (command_tx l) (loops e1))
    (set_channels (<[command_tx l := mkChannel [] false]> (channels e1)) e1)) i) as (Fl & Fc & Fo & _).
  assert (e2 = registry_disconnect now' (set_loops (delete (command_tx l) (loops e1))
    (set_channels (<[command_tx l := mkChannel [] false]> (channels e1)) e1)) i) as He2.
  { unfold e2, loop_end. by rewrite Hc1, lookup_insert_ne, Hch. }
  rewrite <- He2 in Fl, Fo. cbn in Fl, Fo.
  assert (live e2 !! i = None) as Hgone by by rewrite Fl, lookup_delete_eq.
  split_and!.
  - unfold is_connected. rewrite Hli, lookup_insert_eq. done.
  - apply (es_channel_closed e1 _ _ (mkChannel [] true)); [done| |reflexivity|].
    + by rewrite Hc1, lookup_insert_ne.
    + intros (j & l' & Hj & Htx). rewrite Hli in Hj.
      apply lookup_insert_Some in Hj as [[<- <-]|[Hij Hj]]; [done|].
      apply (sv_live _ Hs) in Hj. rewrite Htx in Hj. congruence.
  - unfold is_connected. by rewrite Hgone.
  - rewrite Fo, lookup_delete_ne by done. by rewrite Hlo, lookup_insert_eq.
  - intros (j & l' & Hj & Htx). rewrite Fl, Hli in Hj.
    apply lookup_delete_Some in Hj as [Hij Hj]. rewrite lookup_insert_ne in Hj by done.
    apply (sv_live _ Hs) in Hj. rewrite Htx in Hj.
    destruct (sv_fresh _ Hs (next_channel e)) as [_ Hf]; [lia|]. congruence.
  - unfold enqueue, enqueue_deliver. rewrite Ht. cbn [mbind result_bind]. unfold command_sender.
    cbn [live set_store]. rewrite Hgone. cbn.
    eexists _, _. split; reflexivity.
Qed.

(** A result that arrives while [enqueue] is still sending is lost: the
    call then writes back the record it holds, with status [sent] and no
    result. *)
Theorem early_result_overwritten now now' now'' ulid e agent ctype p by_ e1 r res e2 :
  st_wf (store e) -> enqueue_deliver now ulid e agent ctype p by_ = Ok (e1, r, true) ->
  cr_id res = ulid -> record_result now' e1 res = Ok e2 ->
  command_get (store e2) ulid = Ok (Some (apply_result now' res r)) /\
  let '(e3, r3) := enqueue_mark now'' e2 r true in
  command_get (store e3) ulid = Ok (Some r3) /\ rc_status r3 = "sent"%string /\ rc_result_ok r3 = None.
Proof.
  intros Hw Hd Hid Hr. unfold enqueue_deliver in Hd.
  destruct (parse_command_type ctype) as [t|]; [|done]. cbn [mbind result_bind] in Hd.
  set (r0 := mkCommandRecord _ _ _ _ _ _ _ _ _ _ _) in Hd.
  set (e0 := set_store (command_persist now (store e) r0) e) in Hd.
  assert (r = r0 /\ store e1 = command_persist now (store e) r0) as [-> Hst].
  { destruct (command_sender e0 agent) as [tx|]; [|done]. unfold channel_send in Hd.
    destruct (channels e0 !! tx) as [[q []]|]; simplify_eq; done. }
  assert (st_wf (store e1)) as Hw1 by (rewrite Hst; by apply command_persist_wf).
  assert (command_get (store e1) ulid = Ok (Some r0)) as Hg.
  { rewrite Hst, get_command_persist by done. by rewrite decide_True. }
  unfold record_result in Hr. rewrite Hid, Hg in Hr. cbn in Hr. injection Hr as <-. cbn [store set_store].
  split; [rewrite get_command_persist by done; by rewrite decide_True|].
  cbn. split; [|done]. rewrite get_command_persist by by apply command_persist_wf. by rewrite decide_True.
Qed.
End properties.

(** ** Concrete runs, on the store of [Store.v] *)

#[export] Instance TokenRecord_eq_dec : EqDecision TokenRecord.
Proof. solve_decision. Defined.
#[export] Instance TokenRecord_countable : Countable TokenRecord.
Proof.
  refine (inj_countable' (fun r => (t_token r, t_label r, t_created_ts r, t_created_by r))
    (fun '(t, l, c, b) => mkToken t l c b) _). by intros [].
Defined.
#[export] Instance AgentRecord_eq_dec : EqDecision AgentRecord.
Proof. solve_decision. Defined.
#[export] Instance AgentRecord_countable : Countable AgentRecord.
Proof.
  refine (inj_countable' (fun r => (ag_id r, ag_hostname r, ag_os r, ag_os_version r, ag_version r,
      ag_fingerprint r, ag_session_token r, ag_enrolled_ts r, ag_last_seen r, ag_isolated r))
    (fun '(a, b, c, d, e, f, g, h, i, j) => mkAgent a b c d e f g h i j) _). by intros [].
Defined.
#[export] Instance CommandParams_eq_dec : EqDecision CommandParams.
Proof. solve_decision. Defined.
#[export] Instance CommandParams_countable : Countable CommandParams.
Proof.
  refine (inj_countable' (fun p => (cp_pid p, cp_hash_sha256 p, cp_path p, cp_max_bytes p, cp_allowlist_cidrs p))
    (fun '(a, b, c, d, e) => mkParams a b c d e) _). by intros [].
Defined.
#[export] Instance CommandRecord_eq_dec : EqDecision CommandRecord.
Proof. solve_decision. Defined.
#[export] Instance CommandRecord_countable : Countable CommandRecord.
Proof.
  refine (inj_countable' (fun r => (rc_id r, rc_agent r, rc_type r, rc_params r, rc_status r, rc_issued_by r,
      rc_issued_ts r, rc_result_ok r, rc_result_message r, rc_result_bytes r, rc_completed_ts r))
    (fun '(a, b, c, d, e, f, g, h, i, j, k) => mkCommandRecord a b c d e f g h i j k) _). by intros [].
Defined.

Section demo.
#[local] Instance demo_so : Serde SavedObject := countable_serde SavedObject.
#[local] Instance demo_so_laws : SerdeLaws SavedObject := countable_serde_laws SavedObject.
#[local] Instance demo_token : SerdeValue TokenRecord := countable_value TokenRecord.
#[local] Instance demo_token_laws : SerdeValueLaws TokenRecord := countable_value_laws TokenRecord.
#[local] Instance demo_agent : SerdeValue AgentRecord := countable_value AgentRecord.
#[local] Instance demo_agent_laws : SerdeValueLaws AgentRecord := countable_value_laws AgentRecord.
#[local] Instance demo_cmd : SerdeValue CommandRecord := countable_value CommandRecord.
#[local] Instance demo_cmd_laws : SerdeValueLaws CommandRecord := countable_value_laws CommandRecord.

Lemma empty_store_wf : st_wf empty_store.
Proof. split; [constructor|]. by intros ? ? ?%not_elem_of_nil. Qed.

Example token_lifecycle_witness :
  token_valid (token_issue 3 "t0k" empty_store "lab" None).1 "t0k" = Ok true.
Proof.
  destruct (token_lifecycle 3 empty_store empty_store_wf) as (_ & _ & Hi & _). by rewrite Hi.
Defined.

(** A server seeded with one token, and one agent enrolled with it. *)
Definition demo_edr0 : Edr Store := mkEdr (token_write empty_store (mkToken "t0k" "lab" 1 None)) ∅ ∅ ∅ 0.
Definition demo_req : EnrollRequest := mkEnrollReq "t0k" "web-1" "linux" "6.1" "0.3" "fp".

Lemma demo_edr0_wf : st_wf (store demo_edr0).
Proof. by apply token_write_wf, empty_store_wf. Qed.

Lemma demo_token_valid : token_valid (store demo_edr0) (enrollment_token demo_req) = Ok true.
Proof.
  unfold token_valid. cbn [store demo_edr0 enrollment_token demo_req is_empty_str].
  rewrite get_token_write by apply empty_store_wf. by rewrite decide_True.
Qed.

Example enroll_authenticates_witness :
  exists e', gateway_enroll 5 "agent1" "sess" demo_edr0 demo_req = Ok (e', Some (mkEnrollReply "agent1" "sess" 30)) /\
    validate_session (store e') "agent1" "sess" = Ok true /\
    validate_session (store e') "agent1" "guess" = Ok false.
Proof.
  destruct (enroll_authenticates 5 "agent1" "sess" demo_edr0 demo_req demo_edr0_wf) as (_ & He & _).
  destruct (He demo_token_valid) as (e' & Hen & Hv & _). exists e'. split; [done|]. by rewrite !Hv.
Defined.

Definition demo_params : CommandParams := mkParams (Some 42%Z) None None None None.
Definition demo_live : Edr Store :=
  mkEdr (agent_persist 5 empty_store (mkAgent "agent1" "web-1" "linux" "6.1" "0.3" "fp" "sess" 5 5 false))
    {["agent1"%string := mkLive 0 6 false]} {[0 := mkChannel [] true]} {[0 := "agent1"%string]} 1.

Lemma demo_live_wf : st_wf (store demo_live).
Proof. by apply agent_persist_wf, empty_store_wf. Qed.

Lemma demo_live_served : served demo_live.
Proof.
  split; cbn.
  - intros i l [<- <-]%lookup_singleton_Some. cbn. by rewrite lookup_singleton_eq.
  - intros c i [<- <-]%lookup_singleton_Some. exists []. by rewrite lookup_singleton_eq.
  - intros c Hc. by rewrite !lookup_singleton_ne by lia.
Qed.

Lemma demo_live_valid : validate_session (store demo_live) "agent1" "sess" = Ok true.
Proof.
  unfold validate_session. cbn [store demo_live]. rewrite get_agent_persist by apply empty_store_wf.
  by rewrite decide_True.
Qed.

Example command_audit_witness :
  exists e' r, enqueue 7 "cmd1" demo_live "agent1" "kill" demo_params "ann" = Ok (e', r) /\
    rc_status r = "sent"%string /\ command_get (store e') "cmd1" = Ok (Some r).
Proof.
  destruct (command_audit 7 "cmd1" demo_live "agent1" "kill" demo_params "ann" demo_live_wf demo_live_served)
    as (_ & Hc & _).
  destruct (Hc KillProcess eq_refl) as (e' & r & He & Hg & _ & Hr & _). exists e', r.
  split; [done|]. split; [by rewrite Hr|done].
Defined.

Example live_sessions_served_witness :
  let e1 := (gateway_hello 8 (mkEdr (store demo_live) ∅ ∅ ∅ 0) "agent1" "sess").1 in
  exists c q, command_sender e1 "agent1" = Some c /\ loops e1 !! c = Some "agent1"%string /\
    channels e1 !! c = Some (mkChannel q true).
Proof.
  intros e1.
  apply (live_sessions_served 8 (store demo_live) [] (mkEdr (store demo_live) ∅ ∅ ∅ 0) e1).
  - reflexivity.
  - eapply rtc_once, es_hello.
  - unfold e1, gateway_hello, is_connected. pose proof demo_live_valid as Hv. cbn [store]. rewrite Hv. cbn.
    by rewrite lookup_insert_eq.
Defined.

Example reconnect_drops_new_session_witness :
  let e1 := (gateway_hello 8 demo_live "agent1" "sess").1 in
  is_connected e1 "agent1" = true /\ is_connected (loop_end 9 e1 0 "agent1") "agent1" = false.
Proof.
  destruct (reconnect_drops_new_session 8 9 demo_live "agent1" "sess" (mkLive 0 6 false) "cmd1" "kill"
    demo_params "ann" KillProcess demo_live_served) as (H1 & _ & H2 & _).
  - by cbn; rewrite lookup_singleton_eq.
  - by cbn; rewrite lookup_singleton_eq.
  - apply demo_live_valid.
  - reflexivity.
  - by split.
Defined.

Example early_result_overwritten_witness :
  exists e1 r e2, enqueue_deliver 7 "cmd1" demo_live "agent1" "kill" demo_params "ann" = Ok (e1, r, true) /\
    record_result 8 e1 (mkResult "cmd1" true "done" "") = Ok e2 /\
    let '(e3, r3) := enqueue_mark 9 e2 r true in
    command_get (store e3) "cmd1" = Ok (Some r3) /\ rc_status r3 = "sent"%string /\ rc_result_ok r3 = None.
Proof.
  pose proof (enqueue_deliver_live 7 "cmd1" demo_live "agent1" "kill" demo_params "ann" KillProcess
    (mkLive 0 6 false) [] eq_refl eq_refl eq_refl) as Hd.
  eexists _, _, _. split; [exact Hd|]. split.
  - unfold record_result. cbn [store set_channels set_store cr_id].
    rewrite get_command_persist by apply demo_live_wf. rewrite decide_True by done. reflexivity.
  - eapply (early_result_overwritten 7 8 9 "cmd1" demo_live "agent1" "kill" demo_params "ann" _ _
      (mkResult "cmd1" true "done" "")); [apply demo_live_wf|exact Hd|reflexivity|].
    unfold record_result. cbn [store set_channels set_store cr_id].
    rewrite get_command_persist by apply demo_live_wf. rewrite decide_True by done. reflexivity.
Defined.
End demo.
