(* ===== verification/EdrMap.v ===== *)
(** * [sigil-edr/src/map.rs]: endpoint telemetry as normalised events

    The messages of [sigil_edr.proto] are records, an enum field its number.
    The protobuf encoding kept in [raw] is a parameter. *)

From stdpp Require Import strings list.
From S2P Require Import Prelude Containers Core.

(** ** Messages *)

Inductive EventKind : Set :=
  | Unspecified | ProcessStart | ProcessStop | FileCreate | FileModify | FileDelete
  | NetworkConnect | DnsQuery | ModuleLoad | RegistrySet | PersistenceAdd.

Record Process : Set := mkProcess {
  pid : Z; ppid : Z; p_name : string; p_path : string; p_cmdline : string; p_hash_sha256 : string; p_user : string
}.
Record FileInfo : Set := mkFile { f_path : string; f_hash_sha256 : string; f_size : Z; f_mode : string }.
Record NetworkInfo : Set := mkNetwork {
  n_proto : string; local_addr : string; local_port : Z; remote_addr : string; remote_port : Z; direction : string
}.
Record DnsInfo : Set := mkDns { query : string; qtype : string; answers : list string }.
Record ModuleInfo : Set := mkModule { m_path : string; m_hash_sha256 : string; m_pid : Z }.
Record RegistryInfo : Set := mkRegistry { r_key : string; r_value_name : string; r_value_data : string }.
Record PersistenceInfo : Set := mkPersistence { ps_kind : string; ps_name : string; ps_target : string }.

(** [extra] is a map: its keys are distinct, their order is arbitrary. *)
Record EndpointEvent : Set := mkEndpoint {
  ee_id : string; ee_ts : Z; ee_kind : Z;
  ee_process : option Process; ee_parent : option Process; ee_file : option FileInfo;
  ee_network : option NetworkInfo; ee_dns : option DnsInfo; ee_module : option ModuleInfo;
  ee_registry : option RegistryInfo; ee_persistence : option PersistenceInfo;
  ee_user : string; ee_extra : list (string * string)
}.

(** The accessor of an enum field: unknown numbers are the default. *)
Definition event_kind (z : Z) : EventKind :=
  match z with
  | 1 => ProcessStart | 2 => ProcessStop | 3 => FileCreate | 4 => FileModify | 5 => FileDelete
  | 6 => NetworkConnect | 7 => DnsQuery | 8 => ModuleLoad | 9 => RegistrySet | 10 => PersistenceAdd
  | _ => Unspecified
  end%Z.

(** ** Classes and names *)

Definition class_for (k : EventKind) : OcsfClass :=
  match k with
  | ProcessStart | ProcessStop => ProcessActivity
  | FileCreate | FileModify | FileDelete => FileSystemActivity
  | NetworkConnect => NetworkActivity
  | DnsQuery => DnsActivity
  | ModuleLoad => ModuleActivity
  | RegistrySet => RegistryKeyActivity
  | PersistenceAdd => ScheduledJobActivity
  | Unspecified => OtherClass 1008
  end.

Definition event_kind_name (k : EventKind) : string :=
  match k with
  | Unspecified => "unspecified"
  | ProcessStart => "process_start"
  | ProcessStop => "process_stop"
  | FileCreate => "file_create"
  | FileModify => "file_modify"
  | FileDelete => "file_delete"
  | NetworkConnect => "network_connect"
  | DnsQuery => "dns_query"
  | ModuleLoad => "module_load"
  | RegistrySet => "registry_set"
  | PersistenceAdd => "persistence_add"
  end.

(** ** Fields *)

(** [Fields::put_str] skips empty values; [Fields::put] does not look. *)
Definition put_str (k v : string) (f : fields_t) : fields_t :=
  if is_empty_str v then f else fields_insert k (VString v) f.
Definition put (k : string) (v : value) (f : fields_t) : fields_t := fields_insert k v f.

(** A positive number is put, zero is skipped. *)
Definition put_pos (k : string) (z : Z) (f : fields_t) : fields_t :=
  if bool_decide (0 < z)%Z then put k (VNumber (NInt z)) f else f.

Definition put_process (prefix : string) (p : Process) (f : fields_t) : fields_t :=
  let f := put_str (prefix +:+ ".name") (p_name p) f in
  let f := put_str (prefix +:+ ".executable") (p_path p) f in
  let f := put_str (prefix +:+ ".command_line") (p_cmdline p) f in
  let f := put_str (prefix +:+ ".hash.sha256") (p_hash_sha256 p) f in
  let f := put_str (prefix +:+ ".user") (p_user p) f in
  put_pos (prefix +:+ ".ppid") (ppid p) (put_pos (prefix +:+ ".pid") (pid p) f).

Definition process_entity (agent_id : string) (p : Process) : EntityRef :=
  mkEntity "process" (agent_id +:+ ":" +:+ show_u64 (pid p))
    (if is_empty_str (p_name p) then None else Some (p_name p)).

(** The target entity and the fields of the activity. *)
Definition put_activity (k : EventKind) (ee : EndpointEvent) (f : fields_t) : option EntityRef * fields_t :=
  match k with
  | FileCreate | FileModify | FileDelete =>
      match ee_file ee with
      | Some file =>
          (Some (mkEntity "file" (f_path file) None),
           put_pos "file.size" (f_size file)
             (put_str "file.mode" (f_mode file)
               (put_str "file.hash.sha256" (f_hash_sha256 file) (put_str "file.path" (f_path file) f))))
      | None => (None, f)
      end
  | NetworkConnect =>
      match ee_network ee with
      | Some n =>
          (Some (mkEntity "ip" (remote_addr n) None),
           put_pos "destination.port" (remote_port n)
             (put_pos "source.port" (local_port n)
               (put_str "destination.ip" (remote_addr n)
                 (put_str "source.ip" (local_addr n)
                   (put_str "network.direction" (direction n) (put_str "network.proto" (n_proto n) f))))))
      | None => (None, f)
      end
  | DnsQuery =>
      match ee_dns ee with
      | Some d =>
          let f := put_str "dns.question.type" (qtype d) (put_str "dns.question.name" (query d) f) in
          (Some (mkEntity "domain" (query d) None),
           if is_nil (answers d) then f else put "dns.answers" (VArray (VString <$> answers d)) f)
      | None => (None, f)
      end
  | ModuleLoad =>
      match ee_module ee with
      | Some m =>
          (Some (mkEntity "file" (m_path m) None),
           put_str "module.hash.sha256" (m_hash_sha256 m) (put_str "module.path" (m_path m) f))
      | None => (None, f)
      end
  | RegistrySet =>
      match ee_registry ee with
      | Some r =>
          (Some (mkEntity "registry" (r_key r) (Some (r_value_name r))),
           put_str "registry.value.data" (r_value_data r)
             (put_str "registry.value.name" (r_value_name r) (put_str "registry.key" (r_key r) f)))
      | None => (None, f)
      end
  | PersistenceAdd =>
      match ee_persistence ee with
      | Some p =>
          (Some (mkEntity "file" (ps_target p) (Some (ps_name p))),
           put_str "persistence.target" (ps_target p)
             (put_str "persistence.name" (ps_name p) (put_str "persistence.kind" (ps_kind p) f)))
      | None => (None, f)
      end
  | _ => (None, f)
  end.

Definition put_extra (extra : list (string * string)) (f : fields_t) : fields_t :=
  foldl (fun f kv => put_str kv.1 kv.2 f) f extra.

Definition summarize (hostname : string) (k : EventKind) (ee : EndpointEvent) : string :=
  let proc := match ee_process ee with
              | Some p => if is_empty_str (p_cmdline p) then p_name p else p_cmdline p
              | None => ""
              end in
  hostname +:+ ": " +:+
  match k with
  | ProcessStart => "process start " +:+ proc
  | ProcessStop => "process stop " +:+ proc
  | FileCreate | FileModify | FileDelete =>
      event_kind_name k +:+ " " +:+ from_option f_path "" (ee_file ee) +:+ " by " +:+ proc
  | NetworkConnect =>
      "connect " +:+ from_option (fun n => remote_addr n +:+ ":" +:+ show_u64 (remote_port n)) "" (ee_network ee)
        +:+ " by " +:+ proc
  | DnsQuery => "dns " +:+ from_option query "" (ee_dns ee) +:+ " by " +:+ proc
  | ModuleLoad => "module load " +:+ from_option m_path "" (ee_module ee) +:+ " by " +:+ proc
  | RegistrySet => "registry set " +:+ from_option r_key "" (ee_registry ee) +:+ " by " +:+ proc
  | PersistenceAdd =>
      "persistence add " +:+ from_option (fun p => ps_kind p +:+ "/" +:+ ps_name p) "" (ee_persistence ee)
        +:+ " by " +:+ proc
  | Unspecified => "endpoint event"
  end.

Section to_event.
Context (encode_to_vec : EndpointEvent -> string).

(** [now] and [now'] are the two readings of the clock, [ulid] the event's
    identifier.  [ee.ts as i64] wraps. *)
Definition to_event (ulid : string) (now now' : Timestamp) (agent_id hostname tenant : string)
    (ee : EndpointEvent) : Event :=
  let k := event_kind (ee_kind ee) in
  let f := put_str "event.kind" (event_kind_name k)
             (put_str "host.name" hostname (put_str "agent.id" agent_id [])) in
  let f := put_str "user.name" (ee_user ee) f in
  let f := match ee_process ee with Some p => put_process "process" p f | None => f end in
  let f := match ee_parent ee with Some p => put_process "parent" p f | None => f end in
  let '(target, f) := put_activity k ee f in
  mkEvent ulid (if bool_decide (0 < ee_ts ee)%Z then wrap_i64 (ee_ts ee) else now) now' (class_for k)
    tenant Informational (Some (mkEntity "host" agent_id (Some hostname)))
    (process_entity agent_id <$> ee_process ee) target (summarize hostname k ee)
    (put_extra (ee_extra ee) f) None ["edr"%string; "agent:" +:+ agent_id] (encode_to_vec ee).
End to_event.

(** ** Lemmas *)

(** What every sequence of puts keeps: the key order, and no empty string. *)
Record tidy (f : fields_t) : Prop := {
  td_wf : smap_wf f;
  td_nonempty : forall k, fields_get f k <> Some (VString EmptyString)
}.

Lemma get_put_str f k v j :
  fields_get (put_str k v f) j =
    if bool_decide (k = j) && negb (is_empty_str v) then Some (VString v) else fields_get f j.
Proof.
  unfold put_str. destruct (is_empty_str v); cbn [negb]; [by rewrite andb_false_r|].
  rewrite smap_get_insert, andb_true_r. by case_decide; case_bool_decide.
Qed.

Lemma get_put f k v j : fields_get (put k v f) j = if decide (k = j) then Some v else fields_get f j.
Proof. apply smap_get_insert. Qed.

Lemma get_put_pos f k z j :
  fields_get (put_pos k z f) j =
    if bool_decide (k = j) && bool_decide (0 < z)%Z then Some (VNumber (NInt z)) else fields_get f j.
Proof.
  unfold put_pos. case_bool_decide as Hz; [|by rewrite andb_false_r].
  rewrite get_put, andb_true_r. by case_decide; case_bool_decide.
Qed.

Lemma tidy_nil : tidy [].
Proof. split; [constructor|done]. Qed.

Lemma tidy_put_str k v f : tidy f -> tidy (put_str k v f).
Proof.
  intros [Hw Hn]. split.
  - unfold put_str. case_match; [done|by apply smap_insert_wf].
  - intros j. rewrite get_put_str. case_bool_decide; [|apply Hn]. destruct v; cbn; [apply Hn|done].
Qed.

Lemma tidy_put k v f : v <> VString EmptyString -> tidy f -> tidy (put k v f).
Proof.
  intros Hv [Hw Hn]. split; [by apply smap_insert_wf|]. intros j. rewrite get_put. case_decide; [congruence|done].
Qed.

Lemma tidy_put_pos k z f : tidy f -> tidy (put_pos k z f).
Proof. intros Ht. unfold put_pos. case_bool_decide; [by apply tidy_put|done]. Qed.

Lemma tidy_put_process pre p f : tidy f -> tidy (put_process pre p f).
Proof. intros. unfold put_process. by repeat first [apply tidy_put_pos | apply tidy_put_str]. Qed.

Lemma tidy_put_activity k ee f : tidy f -> tidy (put_activity k ee f).2.
Proof.
  intros Ht. unfold put_activity.
  repeat case_match; cbn [snd]; try done; repeat first [apply tidy_put_pos | apply tidy_put_str];
    try done; by apply tidy_put; [|repeat apply tidy_put_str].
Qed.

Lemma tidy_put_extra ex f : tidy f -> tidy (put_extra ex f).
Proof.
  revert f. induction ex as [|[k v] ex IH]; intros f Ht; [done|]. cbn. by apply IH, tidy_put_str.
Qed.

Lemma get_put_extra ex f j : NoDup ex.*1 ->
  fields_get (put_extra ex f) j =
    match list_find (fun kv => kv.1 = j) ex with
    | Some (_, (_, v)) => if is_empty_str v then fields_get f j else Some (VString v)
    | None => fields_get f j
    end.
Proof.
  revert f. induction ex as [|[k v] ex IH]; intros f Hnd; [done|]. cbn in Hnd. apply NoDup_cons in Hnd as [Hk Hnd].
  change (put_extra ((k, v) :: ex) f) with (put_extra ex (put_str k v f)). rewrite IH by done.
  cbn [list_find]. cbn [fst]. destruct (decide (k = j)) as [->|Hne].
  - assert (list_find (fun kv : string * string => kv.1 = j) ex = None) as ->.
    { apply list_find_None, Forall_forall. intros [k' v'] Hin <-. apply Hk, list_elem_of_fmap. by exists (k', v'). }
    rewrite get_put_str, bool_decide_true by done. by destruct (is_empty_str v).
  - rewrite get_put_str, bool_decide_false by done. cbn [andb].
    by destruct (list_find _ ex) as [[i [k' v']]|].
Qed.

(** The fields every event starts with, before the agent's own [extra]. *)
Lemma activity_keeps k ee f j :
  j ∈ ["agent.id"; "host.name"; "event.kind"; "user.name"]%string ->
  fields_get (put_activity k ee f).2 j = fields_get f j.
Proof.
  intros Hj. unfold put_activity.
  assert (forall key v g, j <> key -> fields_get (put_str key v g) j = fields_get g j) as Hs.
  { intros key v g Hne. rewrite get_put_str. by rewrite bool_decide_false by congruence. }
  assert (forall key z g, j <> key -> fields_get (put_pos key z g) j = fields_get g j) as Hp.
  { intros key z g Hne. rewrite get_put_pos. by rewrite bool_decide_false by congruence. }
  assert (forall key v g, j <> key -> fields_get (put key v g) j = fields_get g j) as Hv.
  { intros key v g Hne. rewrite get_put. by rewrite decide_False by congruence. }
  repeat case_match; cbn [snd]; try done;
    rewrite ?Hv, ?Hp, ?Hs; try done; intros ->;
    repeat (apply elem_of_cons in Hj as [Hj|Hj]; [discriminate|]); by apply not_elem_of_nil in Hj.
Qed.

Lemma process_keeps pre p f j :
  (pre = "process"%string \/ pre = "parent"%string) ->
  j ∈ ["agent.id"; "host.name"; "event.kind"; "user.name"]%string ->
  fields_get (put_process pre p f) j = fields_get f j.
Proof.
  intros Hpre Hj. unfold put_process.
  assert (forall suf, j <> pre +:+ String "." suf) as Hne.
  { intros suf ->. destruct Hpre as [-> | ->]; repeat (apply elem_of_cons in Hj as [Hj|Hj]; [vm_compute in Hj; discriminate|]);
      by apply not_elem_of_nil in Hj. }
  rewrite !get_put_pos, !get_put_str. by rewrite !(bool_decide_false (_ = j)) by (intros He; by eapply Hne).
Qed.

(** ** Properties *)

(** The mapping of endpoint telemetry.  The event is attributed to the
    agent that sent it (host entity, labels, tenant), has the class of its
    kind and the agent's time as an [i64] (the clock when it has none); its
    fields are a well-formed sorted map without empty strings.  Each field the
    agent adds in [extra] with a non-empty value is in the event as given;
    [agent.id], [host.name], [event.kind] and [user.name] are the gateway's
    and the record's own values exactly as long as [extra] does not name them:
    an agent can overwrite its identity fields. *)
Theorem to_event_spec enc ulid now now' agent hostname tn ee : NoDup (ee_extra ee).*1 ->
  let ev := to_event enc ulid now now' agent hostname tn ee in
  let k := event_kind (ee_kind ee) in
  (host ev = Some (mkEntity "host" agent (Some hostname)) /\ tenant ev = tn /\
   labels ev = ["edr"%string; "agent:" +:+ agent] /\ ocsf_class ev = class_for k /\
   (in_i64 now -> in_i64 (ev_ts ev)) /\
   ((0 < ee_ts ee <= i64_max)%Z -> ev_ts ev = ee_ts ee)) /\
  tidy (fields ev) /\
  (forall key v, (key, v) ∈ ee_extra ee -> v <> EmptyString -> fields_get (fields ev) key = Some (VString v)) /\
  (forall key own, (key, own) ∈ [("agent.id", agent); ("host.name", hostname);
       ("event.kind", event_kind_name k); ("user.name", ee_user ee)]%string ->
     key ∉ (ee_extra ee).*1 ->
     fields_get (fields ev) key = if is_empty_str own then None else Some (VString own)).
Proof.
  intros Hnd ev k.
  set (f0 := put_str "event.kind" (event_kind_name k) (put_str "host.name" hostname (put_str "agent.id" agent []))).
  set (f1 := put_str "user.name" (ee_user ee) f0).
  set (f2 := match ee_process ee with Some p => put_process "process" p f1 | None => f1 end).
  set (f3 := match ee_parent ee with Some p => put_process "parent" p f2 | None => f2 end).
  assert (fields ev = put_extra (ee_extra ee) (put_activity k ee f3).2 /\
    (host ev = Some (mkEntity "host" agent (Some hostname)) /\ tenant ev = tn /\
     labels ev = ["edr"%string; "agent:" +:+ agent] /\ ocsf_class ev = class_for k /\
     ev_ts ev = if bool_decide (0 < ee_ts ee)%Z then wrap_i64 (ee_ts ee) else now)) as (Hf & Hh & Ht & Hl & Hc & Hts).
  { unfold ev, to_event. fold k. fold f0. fold f1. fold f2. fold f3.
    by destruct (put_activity k ee f3) as [tg f4]. }
  assert (tidy f3) as Htidy.
  { assert (tidy f1) by by repeat apply tidy_put_str; apply tidy_nil.
    unfold f3, f2. repeat case_match; by repeat apply tidy_put_process. }
  split; [|split; [|split]].
  - split_and!; [done..| |]; rewrite Hts.
    + intros Hn. case_bool_decide; [apply wrap_i64_range|done].
    + intros Hr. rewrite bool_decide_true by lia. apply wrap_i64_id. unfold in_i64, i64_min. lia.
  - rewrite Hf. by apply tidy_put_extra, tidy_put_activity.
  - intros key v Hin Hv. rewrite Hf, get_put_extra by done.
    destruct (list_find (fun kv : string * string => kv.1 = key) (ee_extra ee)) as [[i [k' v']]|] eqn:E.
    + apply list_find_Some in E as (Hi & Hk & _). cbn in Hk. subst k'.
      apply list_elem_of_lookup_1 in Hin as [j Hj]. assert (i = j) as ->.
      { eapply (NoDup_lookup (ee_extra ee).*1); [done| |]; rewrite list_lookup_fmap; by rewrite ?Hi, ?Hj. }
      rewrite Hi in Hj. injection Hj as ->. by destruct v.
    + apply list_find_None in E. rewrite Forall_forall in E. by destruct (E (key, v) Hin).
  - intros key own Hin Hno. rewrite Hf, get_put_extra by done.
    assert (list_find (fun kv : string * string => kv.1 = key) (ee_extra ee) = None) as ->.
    { apply list_find_None, Forall_forall. intros [k' v'] Hkv <-. apply Hno, list_elem_of_fmap. by exists (k', v'). }
    assert (key ∈ ["agent.id"; "host.name"; "event.kind"; "user.name"]%string) as Hkey.
    { repeat (apply elem_of_cons in Hin as [Hin|Hin]; [injection Hin as -> _; set_solver|]).
      by apply not_elem_of_nil in Hin. }
    rewrite activity_keeps by done.
    assert (fields_get f3 key = fields_get f1 key) as ->.
    { unfold f3, f2. repeat case_match; rewrite ?process_keeps by auto; done. }
    unfold f1, f0. rewrite !get_put_str.
    repeat (apply elem_of_cons in Hin as [Hin|Hin];
      [injection Hin as -> ->; repeat first [rewrite bool_decide_false by done | rewrite bool_decide_true by done];
       cbn [andb smap_get]; by destruct (is_empty_str _)|]).
    by apply not_elem_of_nil in Hin.
Qed.

Example to_event_spec_witness :
  let ee := mkEndpoint "e1" 0 1 (Some (mkProcess 7 1 "sh" "/bin/sh" "sh -c id" "" "root")) None None None None
              None None None "root" [("host.name", "other")]%string in
  let ev := to_event (fun _ => EmptyString) "u" 5 6 "agent1" "web-1" "t" ee in
  fields_get (fields ev) "host.name" = Some (VString "other") /\
  fields_get (fields ev) "agent.id" = Some (VString "agent1").
Proof.
  intros ee ev. destruct (to_event_spec (fun _ => EmptyString) "u" 5 6 "agent1" "web-1" "t" ee) as (_ & _ & He & Ho).
  - repeat constructor. by intros ?%not_elem_of_nil.
  - split; [apply He; [by left|done]|]. apply (Ho "agent.id" "agent1")%string; [by left|].
    cbn. intros [Hk|Hk]%elem_of_cons; [done|by apply not_elem_of_nil in Hk].
Defined.
