(* ===== verification/Graph.v ===== *)
(** * [sigil-graph]: the provenance graph

    [ProvenanceGraph] over [petgraph]'s directed graph, of which the model
    uses the documented part: nodes are numbered in insertion order, a node's
    edges are listed from the most recent one.  The result sets do not depend
    on that order. *)

From stdpp Require Import gmap strings list relations.
From S2P Require Import Prelude Core.

(** ** Data *)

Record EntityNode : Set := mkNodeE { nd_kind : string; nd_id : string }.
Record EventEdge : Set := mkEdge { eg_event_id : string; eg_action : string; eg_ts : Timestamp }.
Record EventRef : Set := mkRef { ref_event_id : string; ref_ts : Timestamp }.

Record ProvenanceGraph : Type := mkGraph {
  g_nodes : list EntityNode;
  g_edges : list (nat * nat * EventEdge);
  index : gmap string nat;
  entity_events : gmap string (list EventRef)
}.

Definition empty_graph : ProvenanceGraph := mkGraph [] [] ∅ ∅.

(** ** Operations *)

Definition entity_key (e : EntityRef) : string := kind e +:+ ":" +:+ entity_id e.
Definition node_key (n : EntityNode) : string := nd_kind n +:+ ":" +:+ nd_id n.

Definition node_for (g : ProvenanceGraph) (e : EntityRef) : ProvenanceGraph * nat :=
  let key := entity_key e in
  match index g !! key with
  | Some i => (g, i)
  | None =>
      let i := length (g_nodes g) in
      (mkGraph (g_nodes g ++ [mkNodeE (kind e) (entity_id e)]) (g_edges g) (<[key := i]> (index g))
         (entity_events g), i)
  end.

Definition action_for (ev : Event) : string :=
  match ocsf_class ev with
  | Authentication => "authenticate"
  | ProcessActivity => "execute"
  | FileSystemActivity => "access"
  | NetworkActivity => "connect"
  | HttpActivity => "request"
  | ApiActivity => "invoke"
  | DnsActivity => "resolve"
  | ModuleActivity => "load"
  | ScheduledJobActivity => "schedule"
  | RegistryKeyActivity => "modify"
  | OtherClass _ => "event"
  end.

(** The entities of an event: host, actor, target. *)
Definition chain (ev : Event) : list EntityRef :=
  option_list (host ev) ++ option_list (actor ev) ++ option_list (target ev).

Definition touch (ev : Event) (g : ProvenanceGraph) (e : EntityRef) : ProvenanceGraph :=
  let g := (node_for g e).1 in
  let key := entity_key e in
  mkGraph (g_nodes g) (g_edges g) (index g)
    (<[key := default [] (entity_events g !! key) ++ [mkRef (ev_id ev) (ev_ts ev)]]> (entity_events g)).

(** [slice::windows(2)]. *)
Fixpoint windows2 {A} (l : list A) : list (A * A) :=
  match l with
  | a :: ((b :: _) as l') => (a, b) :: windows2 l'
  | _ => []
  end.

Definition link_pair (ev : Event) (g : ProvenanceGraph) (p : EntityRef * EntityRef) : ProvenanceGraph :=
  let '(g, a) := node_for g p.1 in
  let '(g, b) := node_for g p.2 in
  mkGraph (g_nodes g) (g_edges g ++ [(a, b, mkEdge (ev_id ev) (action_for ev) (ev_ts ev))]) (index g)
    (entity_events g).

Definition add_event (g : ProvenanceGraph) (ev : Event) : ProvenanceGraph :=
  foldl (link_pair ev) (foldl (touch ev) g (chain ev)) (windows2 (chain ev)).

Definition events_on (g : ProvenanceGraph) (e : EntityRef) : list EventRef :=
  default [] (entity_events g !! entity_key e).

Definition co_entity_events (g : ProvenanceGraph) (ev : Event) : gset string :=
  list_to_set (filter (fun i => i <> ev_id ev) (chain ev ≫= fun e => ref_event_id <$> events_on g e)).

(** Neighbours of a node: targets of its outgoing edges, then sources of the
    incoming ones. *)
Definition neighbours (g : ProvenanceGraph) (i : nat) : list nat :=
  omap (fun e => if bool_decide (e.1.1 = i) then Some e.1.2 else None) (reverse (g_edges g)) ++
  omap (fun e => if bool_decide (e.1.2 = i) then Some e.1.1 else None) (reverse (g_edges g)).

Definition key_at (g : ProvenanceGraph) (i : nat) : string :=
  match g_nodes g !! i with Some n => node_key n | None => EmptyString end.

(** One neighbour in the inner loop: the set of keys seen and the next
    frontier. *)
Definition visit (g : ProvenanceGraph) (acc : gset string * list nat) (nb : nat) : gset string * list nat :=
  if bool_decide (key_at g nb ∈ acc.1) then acc else ({[key_at g nb]} ∪ acc.1, acc.2 ++ [nb]).

Definition hop (g : ProvenanceGraph) (st : gset string * list nat) : gset string * list nat :=
  foldl (visit g) (st.1, []) (st.2 ≫= neighbours g).

Fixpoint hops_loop (g : ProvenanceGraph) (n : nat) (st : gset string * list nat) : gset string * list nat :=
  match n with O => st | S n => hops_loop g n (hop g st) end.

Definition khop (g : ProvenanceGraph) (start : EntityRef) (hops : nat) : gset string :=
  match index g !! entity_key start with
  | None => ∅
  | Some i => (hops_loop g hops (∅, [i])).1 ∖ {[key_at g i]}
  end.

Definition build (es : list Event) : ProvenanceGraph := foldl add_event empty_graph es.

(** ** The representation invariant *)

Record graph_ok (g : ProvenanceGraph) : Prop := {
  gk_index : forall k i, index g !! k = Some i <-> exists n, g_nodes g !! i = Some n /\ node_key n = k;
  gk_edges : forall a b e, (a, b, e) ∈ g_edges g -> a < length (g_nodes g) /\ b < length (g_nodes g)
}.

(** The edges, by the keys of their ends. *)
Definition linked (g : ProvenanceGraph) (k1 k2 : string) : Prop :=
  exists a b e, (a, b, e) ∈ g_edges g /\ key_at g a = k1 /\ key_at g b = k2.

Lemma key_at_Some g i n : g_nodes g !! i = Some n -> key_at g i = node_key n.
Proof. unfold key_at. by intros ->. Qed.

Lemma key_at_inj g i j : graph_ok g -> i < length (g_nodes g) -> j < length (g_nodes g) ->
  key_at g i = key_at g j -> i = j.
Proof.
  intros [Hx _] [n Hn]%lookup_lt_is_Some_2 [m Hm]%lookup_lt_is_Some_2.
  rewrite (key_at_Some _ _ _ Hn), (key_at_Some _ _ _ Hm). intros Hk.
  assert (index g !! node_key n = Some i) as H1 by (apply Hx; eauto).
  assert (index g !! node_key n = Some j) as H2 by (apply Hx; eauto). congruence.
Qed.

(** [node_for] finds or makes the node of the entity and changes nothing else. *)
Lemma node_for_spec g e : graph_ok g ->
  let '(g', i) := node_for g e in
  graph_ok g' /\ i < length (g_nodes g') /\ key_at g' i = entity_key e /\
  index g' !! entity_key e = Some i /\
  g_edges g' = g_edges g /\ entity_events g' = entity_events g /\
  (forall j, j < length (g_nodes g) -> j < length (g_nodes g') /\ key_at g' j = key_at g j).
Proof.
  intros Hok. pose proof Hok as [Hx He]. unfold node_for. destruct (index g !! entity_key e) as [i|] eqn:E.
  - apply Hx in E as H. destruct H as (n & Hn & Hk). split_and!; try done.
    + by eapply lookup_lt_Some.
    + by rewrite (key_at_Some _ _ _ Hn).
  - assert (forall k, key_at (mkGraph (g_nodes g ++ [mkNodeE (kind e) (entity_id e)]) (g_edges g)
      (<[entity_key e := length (g_nodes g)]> (index g)) (entity_events g)) k =
      if decide (k < length (g_nodes g)) then key_at g k
      else if decide (k = length (g_nodes g)) then entity_key e else EmptyString) as Hkey.
    { intros k. unfold key_at. cbn [g_nodes]. case_decide as Hlt.
      - by rewrite lookup_app_l.
      - rewrite lookup_app_r by lia. case_decide as Heq; [subst; by rewrite Nat.sub_diag|].
        destruct (k - length (g_nodes g)) eqn:Hd; [lia|done]. }
    split_and!.
    + split; cbn [index g_nodes g_edges].
      * intros k i. destruct (decide (k = entity_key e)) as [->|Hne].
        -- rewrite lookup_insert_eq. split.
           ++ intros [= <-]. eexists. split; [by apply list_lookup_middle|done].
           ++ intros (n & Hn & Hk). apply lookup_app_Some in Hn as [Hn|[Hlen Hn]].
              ** exfalso. assert (index g !! entity_key e = Some i) by (apply Hx; eauto). congruence.
              ** destruct (i - length (g_nodes g)) eqn:Hd; [|by destruct n0]. f_equal. lia.
        -- rewrite lookup_insert_ne by done. rewrite Hx. split; intros (n & Hn & Hk).
           ++ exists n. split; [by apply lookup_app_l_Some|done].
           ++ apply lookup_app_Some in Hn as [Hn|[Hlen Hn]]; [eauto|].
              destruct (i - length (g_nodes g)) as [|d] eqn:Hd; [|by destruct d].
              injection Hn as <-. by destruct Hne.
      * intros a b ed Hin. apply He in Hin. rewrite length_app. lia.
    + cbn. rewrite length_app. cbn. lia.
    + rewrite Hkey, decide_False by lia. by rewrite decide_True.
    + cbn. by rewrite lookup_insert_eq.
    + done.
    + done.
    + intros j Hj. cbn [g_nodes]. rewrite length_app. split; [lia|]. by rewrite Hkey, decide_True.
Qed.

(** Nodes and links of [g] are still there in [g'], under the same indices. *)
Record extends (g g' : ProvenanceGraph) : Prop := {
  ex_ok : graph_ok g';
  ex_index : forall k i, index g !! k = Some i -> index g' !! k = Some i;
  ex_keys : forall j, j < length (g_nodes g) -> j < length (g_nodes g') /\ key_at g' j = key_at g j
}.

Lemma graph_extends_refl g : graph_ok g -> extends g g.
Proof. by split. Qed.

Lemma extends_trans g1 g2 g3 : extends g1 g2 -> extends g2 g3 -> extends g1 g3.
Proof.
  intros [O1 I1 K1] [O2 I2 K2]. split; [done|auto|]. intros j Hj.
  destruct (K1 j Hj) as [Hj2 <-]. by apply K2.
Qed.

Lemma node_for_extends g e : graph_ok g -> extends g (node_for g e).1.
Proof.
  intros Hok. pose proof (node_for_spec g e Hok) as H. destruct (node_for g e) as [g' i] eqn:E.
  destruct H as (Hok' & _ & _ & _ & _ & _ & Hk). split; [done| |done]. cbn.
  intros k j Hkj. apply (gk_index _ Hok) in Hkj as (n & Hn & Hkey). apply (gk_index _ Hok').
  pose proof (lookup_lt_Some _ _ _ Hn) as Hlt. destruct (Hk j Hlt) as [Hlt' Hkk].
  apply lookup_lt_is_Some_2 in Hlt' as [m Hm]. exists m. split; [done|].
  by rewrite <- (key_at_Some _ _ _ Hm), Hkk, (key_at_Some _ _ _ Hn).
Qed.

Lemma linked_extends g g' k1 k2 : graph_ok g -> extends g g' -> g_edges g' = g_edges g ->
  linked g' k1 k2 <-> linked g k1 k2.
Proof.
  intros Hok [_ _ Hk] He. unfold linked. rewrite He.
  split; intros (a & b & e & Hin & <- & <-); destruct (gk_edges _ Hok _ _ _ Hin) as [Ha Hb];
    exists a, b, e; (split; [done|]); destruct (Hk _ Ha), (Hk _ Hb); by split.
Qed.

Lemma touch_spec ev g e : graph_ok g ->
  extends g (touch ev g e) /\
  (forall k1 k2, linked (touch ev g e) k1 k2 <-> linked g k1 k2) /\
  is_Some (index (touch ev g e) !! entity_key e) /\
  forall x, events_on (touch ev g e) x =
    events_on g x ++ (if decide (entity_key x = entity_key e) then [mkRef (ev_id ev) (ev_ts ev)] else []).
Proof.
  intros Hok. pose proof (node_for_extends g e Hok) as Hx. pose proof (node_for_spec g e Hok) as Hs.
  unfold touch. destruct (node_for g e) as [g' i] eqn:E. cbn [fst] in *.
  destruct Hs as (Hok' & _ & _ & Hi & He & Hee & _). split; [|split; [|split]].
  - destruct Hx as [[O1 O2] I K]. split; [split|..]; done.
  - intros k1 k2. rewrite <- (linked_extends g g') by done. done.
  - by exists i.
  - intros x. unfold events_on. cbn [entity_events]. rewrite Hee. case_decide as Hxe.
    + rewrite Hxe, lookup_insert_eq. done.
    + rewrite lookup_insert_ne by done. by rewrite app_nil_r.
Qed.

Lemma touch_all_spec ev es g : graph_ok g ->
  let g' := foldl (touch ev) g es in
  extends g g' /\ (forall k1 k2, linked g' k1 k2 <-> linked g k1 k2) /\
  (forall e, e ∈ es -> is_Some (index g' !! entity_key e)) /\
  forall x, events_on g' x = events_on g x ++
    ((fun _ => mkRef (ev_id ev) (ev_ts ev)) <$> filter (fun e => entity_key e = entity_key x) es).
Proof.
  revert g. induction es as [|e es IH]; intros g Hok; cbn [foldl].
  - split_and!; [by apply graph_extends_refl|done|by intros ? ?%not_elem_of_nil|]. intros x. by rewrite app_nil_r.
  - destruct (touch_spec ev g e Hok) as (Hx & Hl & Hi & Hev).
    destruct (IH _ (ex_ok _ _ Hx)) as (Hx' & Hl' & Hi' & Hev'). split_and!.
    + by eapply extends_trans.
    + intros. by rewrite Hl', Hl.
    + intros e' [->|Hin]%elem_of_cons; [|by apply Hi'].
      destruct Hi as [i Hi]. exists i. by apply (ex_index _ _ Hx').
    + intros x. rewrite Hev', Hev, <- app_assoc, filter_cons.
      destruct (decide (entity_key x = entity_key e)) as [H1|H1], (decide (entity_key e = entity_key x));
        try congruence; done.
Qed.

Lemma link_pair_spec ev g p : graph_ok g ->
  let g' := link_pair ev g p in
  extends g g' /\ entity_events g' = entity_events g /\
  forall k1 k2, linked g' k1 k2 <-> linked g k1 k2 \/ (k1 = entity_key p.1 /\ k2 = entity_key p.2).
Proof.
  intros Hok. unfold link_pair. destruct p as [e1 e2]. cbn [fst snd].
  pose proof (node_for_extends g e1 Hok) as X1. pose proof (node_for_spec g e1 Hok) as S1.
  destruct (node_for g e1) as [g1 a]. cbn [fst] in X1.
  destruct S1 as (Ok1 & La & Ka & _ & E1 & EE1 & _).
  pose proof (node_for_extends g1 e2 Ok1) as X2. pose proof (node_for_spec g1 e2 Ok1) as S2.
  destruct (node_for g1 e2) as [g2 b]. cbn [fst] in X2.
  destruct S2 as (Ok2 & Lb & Kb & _ & E2 & EE2 & K12).
  destruct (K12 a La) as [La2 Ka2]. rewrite Ka in Ka2.
  pose proof (extends_trans _ _ _ X1 X2) as X. split_and!.
  - destruct X as [[O1 O2] I K]. split; [split|..]; try done. cbn.
    intros a' b' e' [Hin|[= -> -> ->]%list_elem_of_singleton]%elem_of_app; [by eapply O2|done].
  - cbn. by rewrite EE2, EE1.
  - intros k1 k2. rewrite <- (linked_extends g g2) by (done || by rewrite E2, E1). unfold linked. cbn [g_edges].
    split.
    + intros (a' & b' & e' & [Hin|[= -> -> ->]%list_elem_of_singleton]%elem_of_app & <- & <-).
      * left. by exists a', b', e'.
      * right. by split.
    + intros [(a' & b' & e' & Hin & <- & <-)|[-> ->]].
      * exists a', b', e'. split; [apply elem_of_app; by left|done].
      * exists a, b, (mkEdge (ev_id ev) (action_for ev) (ev_ts ev)).
        split; [apply elem_of_app; right; by left|done].
Qed.

Lemma link_all_spec ev ps g : graph_ok g ->
  let g' := foldl (link_pair ev) g ps in
  extends g g' /\ entity_events g' = entity_events g /\
  forall k1 k2, linked g' k1 k2 <->
    linked g k1 k2 \/ exists p, p ∈ ps /\ k1 = entity_key p.1 /\ k2 = entity_key p.2.
Proof.
  revert g. induction ps as [|p ps IH]; intros g Hok; cbn [foldl].
  - split_and!; [by apply graph_extends_refl|done|]. intros k1 k2. split; [by left|].
    intros [?|(p & ?%not_elem_of_nil & _)]; done.
  - destruct (link_pair_spec ev g p Hok) as (Hx & He & Hl).
    destruct (IH _ (ex_ok _ _ Hx)) as (Hx' & He' & Hl'). split_and!.
    + by eapply extends_trans.
    + by rewrite He', He.
    + intros k1 k2. rewrite Hl', Hl. setoid_rewrite elem_of_cons. naive_solver.
Qed.

(** The links of an event: consecutive entities of its chain, by key. *)
Definition event_link (ev : Event) (k1 k2 : string) : Prop :=
  exists p, p ∈ windows2 (chain ev) /\ k1 = entity_key p.1 /\ k2 = entity_key p.2.

Lemma add_event_spec g ev : graph_ok g ->
  let g' := add_event g ev in
  extends g g' /\
  (forall k1 k2, linked g' k1 k2 <-> linked g k1 k2 \/ event_link ev k1 k2) /\
  (forall e, e ∈ chain ev -> is_Some (index g' !! entity_key e)) /\
  forall x, events_on g' x = events_on g x ++
    ((fun _ => mkRef (ev_id ev) (ev_ts ev)) <$> filter (fun e => entity_key e = entity_key x) (chain ev)).
Proof.
  intros Hok. unfold add_event. destruct (touch_all_spec ev (chain ev) g Hok) as (X1 & L1 & I1 & E1).
  destruct (link_all_spec ev (windows2 (chain ev)) _ (ex_ok _ _ X1)) as (X2 & E2 & L2). split_and!.
  - by eapply extends_trans.
  - intros k1 k2. by rewrite L2, L1.
  - intros e He. destruct (I1 e He) as [i Hi]. exists i. by apply (ex_index _ _ X2).
  - intros x. rewrite <- E1. unfold events_on. by rewrite E2.
Qed.

Lemma empty_graph_ok : graph_ok empty_graph.
Proof.
  split; [|by intros ? ? ? ?%not_elem_of_nil]. intros k i. cbn. rewrite lookup_empty.
  split; [done|by intros (n & Hn & _)].
Qed.

(** The graph of a batch of events. *)
Lemma build_from_spec es g : graph_ok g ->
  let g' := foldl add_event g es in
  extends g g' /\
  (forall k1 k2, linked g' k1 k2 <-> linked g k1 k2 \/ exists ev, ev ∈ es /\ event_link ev k1 k2) /\
  (forall ev e, ev ∈ es -> e ∈ chain ev -> is_Some (index g' !! entity_key e)) /\
  forall x, events_on g' x = events_on g x ++ (es ≫= fun ev =>
    (fun _ => mkRef (ev_id ev) (ev_ts ev)) <$> filter (fun e => entity_key e = entity_key x) (chain ev)).
Proof.
  revert g. induction es as [|ev es IH]; intros g Hok; cbn [foldl].
  - split_and!; [by apply graph_extends_refl| |by intros ? ? ?%not_elem_of_nil|].
    + intros k1 k2. split; [by left|]. intros [?|(ev & ?%not_elem_of_nil & _)]; done.
    + intros x. by rewrite app_nil_r.
  - destruct (add_event_spec g ev Hok) as (X1 & L1 & I1 & E1).
    destruct (IH _ (ex_ok _ _ X1)) as (X2 & L2 & I2 & E2). split_and!.
    + by eapply extends_trans.
    + intros k1 k2. rewrite L2, L1. setoid_rewrite elem_of_cons. naive_solver.
    + intros ev' e [->|Hin]%elem_of_cons He; [|by eapply I2].
      destruct (I1 e He) as [i Hi]. exists i. by apply (ex_index _ _ X2).
    + intros x. by rewrite E2, E1, bind_cons, app_assoc.
Qed.

(** ** The traversal *)

Section bfs.
Context (g : ProvenanceGraph) (Hok : graph_ok g).

Definition adj (i j : nat) : Prop := exists e, (i, j, e) ∈ g_edges g \/ (j, i, e) ∈ g_edges g.

Lemma elem_of_neighbours i j : j ∈ neighbours g i <-> adj i j.
Proof.
  unfold neighbours, adj. rewrite elem_of_app, !list_elem_of_omap. setoid_rewrite elem_of_reverse. split.
  - intros [([[a b] e] & Hin & Hb)|([[a b] e] & Hin & Hb)]; cbn in Hb; case_bool_decide; simplify_eq; eauto.
  - intros (e & [Hin|Hin]); [left; exists (i, j, e)|right; exists (j, i, e)]; cbn;
      by rewrite bool_decide_true.
Qed.

Lemma adj_range i j : adj i j -> i < length (g_nodes g) /\ j < length (g_nodes g).
Proof. intros (e & [H|H]); apply (gk_edges _ Hok) in H; tauto. Qed.

Lemma visit_all nbs seen next : (forall j, j ∈ nbs -> j < length (g_nodes g)) ->
  let r := foldl (visit g) (seen, next) nbs in
  (forall k, k ∈ r.1 <-> k ∈ seen \/ exists j, j ∈ nbs /\ key_at g j = k) /\
  (forall j, j ∈ r.2 -> j ∈ next \/ j ∈ nbs) /\
  (forall j, j ∈ next \/ (j ∈ nbs /\ key_at g j ∉ seen) -> j ∈ r.2).
Proof.
  revert seen next. induction nbs as [|nb nbs IH]; intros seen next Hr; cbn [foldl].
  - cbn. split_and!; [|by left|].
    + intros k. split; [by left|]. intros [?|(j & ?%not_elem_of_nil & _)]; done.
    + intros j [?|[?%not_elem_of_nil _]]; done.
  - destruct (visit g (seen, next) nb) as [seen1 next1] eqn:E.
    destruct (IH seen1 next1) as (H1 & H2 & H3); [intros; apply Hr; by right|].
    unfold visit in E. cbn [fst snd] in E. case_bool_decide as Hin; simplify_eq.
    + split_and!.
      * intros k. rewrite H1. setoid_rewrite elem_of_cons. naive_solver.
      * intros j Hj. destruct (H2 j Hj); [by left|right; by right].
      * intros j [?|[[->|?]%elem_of_cons ?]]; apply H3; auto. done.
    + split_and!.
      * intros k. rewrite H1, elem_of_union, elem_of_singleton. setoid_rewrite elem_of_cons. naive_solver.
      * intros j Hj. destruct (H2 j Hj) as [Hn|?]; [|right; by right].
        apply elem_of_app in Hn as [?|Hn]; [by left|]. apply list_elem_of_singleton in Hn as ->. right; by left.
      * intros j Hj. apply H3. destruct (decide (j = nb)) as [->|Hne].
        { left. apply elem_of_app. right. by left. }
        destruct Hj as [?|[[->|Hj]%elem_of_cons Hk]]; [left; by apply elem_of_app; left|done|].
        right. split; [done|]. rewrite elem_of_union, elem_of_singleton. intros [Heq|?]; [|done].
        apply key_at_inj in Heq; [done|done|apply Hr; by right|apply Hr; by left].
Qed.

(** Reachable from [i0] in at least one and at most [h] steps. *)
Definition within (i0 h j : nat) : Prop := exists h' p, h = S h' /\ bsteps adj h' i0 p /\ adj p j.

Lemma within_S i0 h j : within i0 h j -> within i0 (S h) j.
Proof. intros (h' & p & -> & Hp & Hj). exists (S h'), p. split_and!; [done|by apply bsteps_S|done]. Qed.

Lemma within_bsteps i0 h j : within i0 h j -> bsteps adj h i0 j.
Proof. intros (h' & p & -> & Hp & Hj). by eapply bsteps_r. Qed.

Lemma bsteps_cases i0 h j : bsteps adj h i0 j -> j = i0 \/ within i0 h j.
Proof.
  intros (n & Hn & Hs)%bsteps_nsteps. destruct n as [|n]; [inversion Hs; by left|right].
  apply nsteps_inv_r in Hs as (p & Hp & Hj). destruct h as [|h]; [lia|]. exists h, p.
  split; [done|]. split; [|done]. apply bsteps_nsteps. exists n. split; [lia|done].
Qed.

Record bfs_inv (i0 h : nat) (st : gset string * list nat) : Prop := {
  bi_seen : forall k, k ∈ st.1 <-> exists j, within i0 h j /\ key_at g j = k;
  bi_front : forall j, j ∈ st.2 -> bsteps adj h i0 j;
  bi_done : forall j, bsteps adj h i0 j -> j ∈ st.2 \/ forall nb, adj j nb -> within i0 h nb
}.

Lemma hop_inv i0 h st : bfs_inv i0 h st -> bfs_inv i0 (S h) (hop g st).
Proof.
  destruct st as [seen fr]. intros [Hs Hf Hd]. cbn [fst snd] in *. unfold hop. cbn [fst snd].
  set (nbs := fr ≫= neighbours g).
  assert (forall j, j ∈ nbs <-> exists p, p ∈ fr /\ adj p j) as Hn.
  { intros j. unfold nbs. rewrite list_elem_of_bind. setoid_rewrite elem_of_neighbours. naive_solver. }
  destruct (visit_all nbs seen []) as (V1 & V2 & V3).
  { intros j (p & _ & Hj)%Hn. by destruct (adj_range _ _ Hj). }
  set (r := foldl (visit g) (seen, []) nbs) in *.
  assert (forall j, within i0 (S h) j -> within i0 h j \/ j ∈ nbs) as Hw.
  { intros j (h' & p & [= <-] & Hp & Hj). destruct (Hd p Hp) as [Hfr|Hall]; [right|left; by apply Hall].
    apply Hn. eauto. }
  assert (forall j, j ∈ nbs -> within i0 (S h) j) as Hw'.
  { intros j (p & Hp & Hj)%Hn. exists h, p. auto. }
  split.
  - intros k. rewrite V1, Hs. split.
    + intros [(j & Hj & Hk)|(j & Hj & Hk)]; exists j; split; auto using within_S.
    + intros (j & Hj & Hk). destruct (Hw j Hj); [left|right]; eauto.
  - intros j Hj. apply V2 in Hj as [?%not_elem_of_nil|Hj]; [done|]. by apply within_bsteps, Hw'.
  - intros j Hj. apply bsteps_cases in Hj as Hc.
    assert (bsteps adj h i0 j \/ (j ∈ nbs /\ key_at g j ∉ seen)) as [Hold|Hnew].
    { destruct Hc as [->|Hj1]; [left; constructor|]. destruct (Hw j Hj1) as [?|Hin]; [left; by apply within_bsteps|].
      destruct (decide (key_at g j ∈ seen)) as [Hk|Hk]; [left|by right].
      apply Hs in Hk as (j' & Hj' & Hk). apply within_bsteps.
      destruct Hj1 as (? & ? & _ & _ & [_ Hr]%adj_range). pose proof Hj' as (? & ? & _ & _ & [_ Hr']%adj_range).
      by apply key_at_inj in Hk as ->. }
    + right. intros nb Hnb. destruct (Hd j Hold) as [Hfr|Hall]; [|by apply within_S, Hall].
      apply Hw', Hn. eauto.
    + left. apply V3. by right.
Qed.

Lemma hops_inv i0 n h st : bfs_inv i0 h st -> bfs_inv i0 (h + n) (hops_loop g n st).
Proof.
  revert h st. induction n as [|n IH]; intros h st Hi; cbn [hops_loop]; [by rewrite Nat.add_0_r|].
  rewrite Nat.add_succ_r. apply (IH (S h)). by apply hop_inv.
Qed.

Lemma bfs_start i0 : bfs_inv i0 0 (∅, [i0]).
Proof.
  split; cbn [fst snd].
  - intros k. split; [by intros ?%not_elem_of_empty|]. by intros (j & (h' & p & ? & _) & _).
  - intros j ->%list_elem_of_singleton. constructor.
  - intros j Hj. left. inversion Hj; subst. by left.
Qed.

Lemma khop_nodes start i hops : index g !! entity_key start = Some i ->
  forall k, k ∈ khop g start hops <-> exists j, bsteps adj hops i j /\ key_at g j = k /\ k <> entity_key start.
Proof.
  intros Hi k. unfold khop. rewrite Hi. apply (gk_index _ Hok) in Hi as (n & Hn & Hk).
  rewrite (key_at_Some _ _ _ Hn), Hk. rewrite elem_of_difference, elem_of_singleton.
  pose proof (hops_inv i hops 0 _ (bfs_start i)) as [Hs _ _]. rewrite Hs. split.
  - intros [(j & Hj & Hkj) Hne]. exists j. split; [by apply within_bsteps|done].
  - intros (j & Hj & Hkj & Hne). split; [|done]. exists j. split; [|done].
    destruct (bsteps_cases _ _ _ Hj) as [->|?]; [|done].
    by rewrite (key_at_Some _ _ _ Hn), Hk in Hkj.
Qed.

(** Walks over nodes and walks over keys. *)
Definition key_link (k1 k2 : string) : Prop := linked g k1 k2 \/ linked g k2 k1.

Lemma adj_key_link i j : adj i j -> key_link (key_at g i) (key_at g j).
Proof. intros (e & [H|H]); [left; by exists i, j, e|right; by exists j, i, e]. Qed.

Lemma key_link_adj i k : i < length (g_nodes g) -> key_link (key_at g i) k ->
  exists j, adj i j /\ key_at g j = k /\ j < length (g_nodes g).
Proof.
  intros Hi [(a & b & e & Hin & Ha & Hb)|(a & b & e & Hin & Hb & Ha)];
    destruct (gk_edges _ Hok _ _ _ Hin) as [Ra Rb]; apply key_at_inj in Ha; try done; subst.
  - exists b. split_and!; [by exists e; left|done..].
  - exists a. split_and!; [by exists e; right|done..].
Qed.

Lemma walk_keys n i k : i < length (g_nodes g) ->
  bsteps key_link n (key_at g i) k <-> exists j, bsteps adj n i j /\ key_at g j = k.
Proof.
  intros Hi. split.
  - intros H. remember (key_at g i) as k0 eqn:Hk. revert i Hi Hk.
    induction H as [n k|n k1 k2 k3 H12 H IH]; intros i Hi ->; [by exists i; split; [constructor|]|].
    destruct (key_link_adj i k2 Hi H12) as (j & Hj & <- & Hjr).
    destruct (IH j Hjr eq_refl) as (l & Hl & Hk). exists l. split; [by eapply bsteps_l|done].
  - intros (j & Hj & <-). eapply (bsteps_congruence (R := adj) (key_at g)); [|exact Hj].
    apply adj_key_link.
Qed.
End bfs.

(** ** Properties *)

(** Two entity keys are linked by a batch when some event has them next to
    each other on its host, actor, target chain. *)
Definition batch_link (es : list Event) (k1 k2 : string) : Prop :=
  exists ev, ev ∈ es /\ (event_link ev k1 k2 \/ event_link ev k2 k1).

Definition batch_touches (es : list Event) (k : string) : Prop :=
  exists ev e, ev ∈ es /\ e ∈ chain ev /\ entity_key e = k.

Lemma windows2_elem {A} (l : list A) p : p ∈ windows2 l -> p.1 ∈ l /\ p.2 ∈ l.
Proof.
  induction l as [|a [|b l] IH]; [by intros ?%not_elem_of_nil..|].
  cbn [windows2]. intros [->|H]%elem_of_cons; [cbn; split; [by left|right; by left]|].
  apply IH in H as [H1 H2]. split; by right.
Qed.

(** K-hop traversal.  In the graph of a batch of events, the keys [khop]
    returns for a start entity and a number of hops are exactly the keys,
    other than the start's, reachable in at most that many undirected links
    between neighbouring entities of the batch's events (none when no event
    mentions the start). *)
Theorem khop_spec es start hops k :
  k ∈ khop (build es) start hops <->
    bsteps (batch_link es) hops (entity_key start) k /\ k <> entity_key start.
Proof.
  destruct (build_from_spec es empty_graph empty_graph_ok) as (Hx & Hl & Hi & _). fold (build es) in *.
  pose proof (ex_ok _ _ Hx) as Hok.
  assert (forall k1 k2, key_link (build es) k1 k2 <-> batch_link es k1 k2) as Hkl.
  { intros k1 k2. unfold key_link, batch_link. rewrite !Hl.
    assert (forall a b, ~ linked empty_graph a b) as Hno by (intros ? ? (? & ? & ? & ?%not_elem_of_nil & _); done).
    split; [intros [[?|(ev & ? & ?)]|[?|(ev & ? & ?)]]; naive_solver|]. intros (ev & He & [H|H]); eauto. }
  destruct (index (build es) !! entity_key start) as [i|] eqn:E.
  - rewrite (khop_nodes _ Hok start i hops E). pose proof E as E2.
    apply (gk_index _ Hok) in E2 as (n & Hn & Hk).
    assert (key_at (build es) i = entity_key start) as Hki by by rewrite (key_at_Some _ _ _ Hn).
    pose proof (walk_keys _ Hok hops i k (lookup_lt_Some _ _ _ Hn)) as Hw. rewrite Hki in Hw.
    assert (bsteps (batch_link es) hops (entity_key start) k <-> bsteps (key_link (build es)) hops (entity_key start) k)
      as -> by (split; apply (bsteps_congruence (fun x => x)); intros; by apply Hkl).
    rewrite Hw. naive_solver.
  - unfold khop. rewrite E. split; [by intros ?%not_elem_of_empty|]. intros [Hs Hne]. exfalso.
    destruct Hs as [n x|n x y z Hxy Hs]; [done|].
    destruct Hxy as (ev & Hev & [(p & Hp & -> & _)|(p & Hp & _ & ->)]); apply windows2_elem in Hp as [Hp1 Hp2].
    + destruct (Hi ev p.1 Hev Hp1) as [? ?]. congruence.
    + destruct (Hi ev p.2 Hev Hp2) as [? ?]. congruence.
Qed.

(** Shared-entity links.  [co_entity_events] of an event returns exactly
    the identifiers, other than its own, of the events of the batch that touch
    one of its entities. *)
Theorem co_entity_events_spec es ev i :
  i ∈ co_entity_events (build es) ev <->
    i <> ev_id ev /\
    exists ev' e e', ev' ∈ es /\ ev_id ev' = i /\ e ∈ chain ev /\ e' ∈ chain ev' /\ entity_key e' = entity_key e.
Proof.
  destruct (build_from_spec es empty_graph empty_graph_ok) as (_ & _ & _ & He). fold (build es) in *.
  unfold co_entity_events. rewrite elem_of_list_to_set, list_elem_of_filter, list_elem_of_bind.
  setoid_rewrite list_elem_of_fmap. setoid_rewrite He. cbn [events_on empty_graph].
  setoid_rewrite list_elem_of_bind. setoid_rewrite list_elem_of_fmap. setoid_rewrite list_elem_of_filter.
  split.
  - intros (Hne & e & (r & -> & ev' & (e' & -> & Hk & Hin) & Hev') & Hc). split; [done|].
    exists ev', e, e'. by split_and!.
  - intros (Hne & ev' & e & e' & Hev' & <- & Hc & Hin & Hk). split; [done|].
    exists e. split; [|done]. exists (mkRef (ev_id ev') (ev_ts ev')). split; [done|]. exists ev'. split; [|done].
    exists e'. by split_and!.
Qed.
