(* ===== verification/Campaign.v ===== *)
(** * [sigil-correlate/src/campaign.rs]: grouping linked events

    The disjoint-set union of the campaign builder, with its two loops, and
    the grouping of event positions into components.  [None] is an index out
    of bounds (or a loop that does not end: the fuel is one more than the
    number of elements, and the theorems show that it suffices). *)

From stdpp Require Import gmap list relations.
From S2P Require Import Prelude.

Module Dsu.

(** The parent of each element. *)
Abbreviation Dsu := (list nat).

Definition dsu_new (n : nat) : Dsu := seq 0 n.

(** [while parent[root] != root { root = parent[root] }]. *)
Fixpoint find_root (fuel : nat) (d : Dsu) (x : nat) : option nat :=
  match fuel with
  | O => None
  | S f => p ← d !! x; if bool_decide (p = x) then Some x else find_root f d p
  end.

(** [while parent[cur] != root { .. }]: path compression. *)
Fixpoint compress (fuel : nat) (d : Dsu) (cur root : nat) : option Dsu :=
  match fuel with
  | O => None
  | S f => next ← d !! cur; if bool_decide (next = root) then Some d else compress f (<[cur := root]> d) next root
  end.

Definition find (d : Dsu) (x : nat) : option (Dsu * nat) :=
  root ← find_root (S (length d)) d x; d' ← compress (S (length d)) d x root; Some (d', root).

Definition union (d : Dsu) (a b : nat) : option Dsu :=
  '(d, ra) ← find d a; '(d, rb) ← find d b;
  if bool_decide (ra = rb) then Some d else Some (<[ra := rb]> d).

Fixpoint unions (d : Dsu) (links : list (nat * nat)) : option Dsu :=
  match links with
  | [] => Some d
  | (a, b) :: links => d ← union d a b; unions d links
  end.

(** [for i in 0..n { comps.entry(dsu.find(i)).or_default().push(i) }]. *)
Fixpoint comps_loop (is_ : list nat) (d : Dsu) (comps : gmap nat (list nat)) : option (gmap nat (list nat)) :=
  match is_ with
  | [] => Some comps
  | i :: is_ =>
      '(d, r) ← find d i; comps_loop is_ d (<[r := default [] (comps !! r) ++ [i]]> comps)
  end.

Definition components (n : nat) (links : list (nat * nat)) : option (gmap nat (list nat)) :=
  d ← unions (dsu_new n) links; comps_loop (seq 0 n) d ∅.

(** ** The forest *)

(** [rooted d x r k]: following parents from [x] reaches the root [r] after
    [k] steps. *)
Inductive rooted (d : Dsu) : nat -> nat -> nat -> Prop :=
  | rooted_root x : d !! x = Some x -> rooted d x x 0
  | rooted_step x p r k : d !! x = Some p -> p <> x -> rooted d p r k -> rooted d x r (S k).

Definition forest (d : Dsu) : Prop := forall x, x < length d -> exists r k, rooted d x r k.

Lemma rooted_det d x r k r' k' : rooted d x r k -> rooted d x r' k' -> r = r' /\ k = k'.
Proof.
  intros H. revert r' k'. induction H as [x Hx|x p r k Hx Hne H IH]; intros r' k' H'; inversion H'; simplify_eq; try done.
  destruct (IH _ _ ltac:(eassumption)) as [-> ->]. done.
Qed.

Lemma rooted_is_root d x r k : rooted d x r k -> d !! r = Some r.
Proof. by induction 1. Qed.

Lemma rooted_lt d x r k : rooted d x r k -> x < length d.
Proof. inversion 1; by eapply lookup_lt_Some. Qed.

(** The nodes of a path are distinct, so a path is shorter than the forest. *)
Lemma rooted_path d x r k : rooted d x r k ->
  exists l, length l = S k /\ NoDup l /\ forall y, y ∈ l -> exists j, j <= k /\ rooted d y r j.
Proof.
  induction 1 as [x Hx|x p r k Hx Hne H (l & Hl & Hnd & Hall)].
  - exists [x]. split; [done|]. split; [apply NoDup_singleton|].
    intros y ->%list_elem_of_singleton. exists 0. split; [done|by constructor].
  - exists (x :: l). split; [by simpl; rewrite Hl|]. split.
    + constructor; [|done]. intros (j & Hj & Hy)%Hall.
      destruct (rooted_det _ _ _ _ _ _ Hy (rooted_step _ _ _ _ _ Hx Hne H)). lia.
    + intros y [->|(j & Hj & Hy)%Hall]%elem_of_cons; [exists (S k); split; [done|by econstructor]|].
      exists j. split; [lia|done].
Qed.

Lemma rooted_bound d x r k : rooted d x r k -> k < length d.
Proof.
  intros (l & Hl & Hnd & Hall)%rooted_path.
  assert (length l <= length (seq 0 (length d))) as Hlen; [|rewrite length_seq in Hlen; lia].
  apply submseteq_length, NoDup_submseteq; [done|]. intros y (j & _ & Hy)%Hall.
  apply elem_of_seq. apply rooted_lt in Hy. lia.
Qed.

Lemma find_root_spec d x r k fuel : rooted d x r k -> k < fuel -> find_root fuel d x = Some r.
Proof.
  intros H. revert fuel. induction H as [x Hx|x p r k Hx Hne H IH]; intros fuel Hf; (destruct fuel; [lia|]).
  - cbn. rewrite Hx. cbn. by rewrite bool_decide_true.
  - cbn. rewrite Hx. cbn. rewrite bool_decide_false by done. apply IH. lia.
Qed.

(** Pointing a node at its own root keeps every node's root. *)
Lemma shortcut_rooted d c rt k x r j : rooted d c rt k -> c <> rt -> rooted d x r j ->
  exists j', j' <= j /\ rooted (<[c := rt]> d) x r j'.
Proof.
  intros Hc Hne H. assert (rooted (<[c := rt]> d) rt rt 0) as Hrt.
  { constructor. rewrite list_lookup_insert_ne by done. by eapply rooted_is_root. }
  induction H as [x Hx|x p r j Hx Hpx H IH].
  - exists 0. split; [done|]. constructor. destruct (decide (x = c)) as [->|Hxc].
    + destruct (rooted_det _ _ _ _ _ _ Hc (rooted_root _ _ Hx)). congruence.
    + by rewrite list_lookup_insert_ne.
  - destruct IH as (j' & Hj' & Hp). destruct (decide (x = c)) as [->|Hxc].
    + destruct (rooted_det _ _ _ _ _ _ Hc (rooted_step _ _ _ _ _ Hx Hpx H)) as [-> _].
      exists 1. split; [lia|]. econstructor; [|by apply not_eq_sym|exact Hrt].
      apply list_lookup_insert_eq. by eapply lookup_lt_Some.
    + exists (S j'). split; [lia|]. econstructor; [by rewrite list_lookup_insert_ne|done|done].
Qed.

(** [d'] has the elements and roots of [d]. *)
Definition same_roots (d d' : Dsu) : Prop :=
  length d' = length d /\ forall x r k, rooted d x r k -> exists k', rooted d' x r k'.

Lemma compress_spec d x r k fuel : rooted d x r k -> k < fuel ->
  exists d', compress fuel d x r = Some d' /\ same_roots d d'.
Proof.
  revert d x k. induction fuel as [|f IH]; intros d x k H Hf; [lia|]. cbn [compress].
  assert (same_roots d d) as Hsame by (split; [done|eauto]).
  inversion H as [? Hx|? p ? k' Hx Hne Hp]; subst; rewrite Hx; cbn.
  - rewrite bool_decide_true by done. eauto.
  - case_bool_decide as Hpr; [eauto|].
    assert (x <> r) as Hxr.
    { intros ->. pose proof (rooted_is_root _ _ _ _ H). congruence. }
    destruct (shortcut_rooted d x r _ p r k' H Hxr Hp) as (j & Hj & Hp').
    destruct (IH (<[x := r]> d) p j Hp' ltac:(lia)) as (d' & -> & Hl & Hr). exists d'. split; [done|].
    split; [by rewrite Hl, length_insert|]. intros y ry ky Hy.
    destruct (shortcut_rooted d x r _ y ry ky H Hxr Hy) as (j' & _ & Hy'). by eapply Hr.
Qed.

Lemma find_spec d x : forest d -> x < length d ->
  exists d' r k, find d x = Some (d', r) /\ rooted d x r k /\ same_roots d d' /\ forest d'.
Proof.
  intros Hd Hx. destruct (Hd x Hx) as (r & k & H). pose proof (rooted_bound _ _ _ _ H) as Hk.
  unfold find. rewrite (find_root_spec d x r k) by (done || lia). cbn [mbind option_bind].
  destruct (compress_spec d x r k (S (length d)) H ltac:(lia)) as (d' & -> & Hs). cbn.
  exists d', r, k. split_and!; [done..|]. destruct Hs as [Hl Hs]. intros y Hy. rewrite Hl in Hy.
  destruct (Hd y Hy) as (ry & ky & Hry). destruct (Hs _ _ _ Hry) as [k' Hk']. eauto.
Qed.

(** Hanging one root below another. *)
Lemma hang_rooted d ra rb x r k : d !! ra = Some ra -> d !! rb = Some rb -> ra <> rb -> rooted d x r k ->
  exists k', rooted (<[ra := rb]> d) x (if decide (r = ra) then rb else r) k'.
Proof.
  intros Ha Hb Hne H. assert (rooted (<[ra := rb]> d) rb rb 0) as Hrb.
  { constructor. by rewrite list_lookup_insert_ne. }
  induction H as [x Hx|x p r k Hx Hpx H [k' IH]].
  - case_decide as Hxa; [subst|exists 0; constructor; by rewrite list_lookup_insert_ne].
    exists 1. econstructor; [|by apply not_eq_sym|exact Hrb].
    apply list_lookup_insert_eq. by eapply lookup_lt_Some.
  - exists (S k'). econstructor; [|exact Hpx|exact IH]. rewrite list_lookup_insert_ne; [done|].
    intros ->. congruence.
Qed.

(** The partition of a forest: two elements with one root. *)
Definition joined (d : Dsu) (x y : nat) : Prop := exists r k k', rooted d x r k /\ rooted d y r k'.

Lemma joined_same_roots d d' x y : forest d -> same_roots d d' -> x < length d -> y < length d ->
  joined d' x y <-> joined d x y.
Proof.
  intros Hd [Hl Hs] Hx Hy. destruct (Hd x Hx) as (rx & kx & Rx). destruct (Hd y Hy) as (ry & ky & Ry).
  destruct (Hs _ _ _ Rx) as [kx' Rx']. destruct (Hs _ _ _ Ry) as [ky' Ry']. split; intros (r & k & k' & H1 & H2).
  - destruct (rooted_det _ _ _ _ _ _ H1 Rx') as [-> _]. destruct (rooted_det _ _ _ _ _ _ H2 Ry') as [-> _].
    by exists ry, kx, ky.
  - destruct (rooted_det _ _ _ _ _ _ H1 Rx) as [-> _]. destruct (rooted_det _ _ _ _ _ _ H2 Ry) as [-> _].
    by exists ry, kx', ky'.
Qed.

Lemma union_spec d a b : forest d -> a < length d -> b < length d ->
  exists d', union d a b = Some d' /\ forest d' /\ length d' = length d /\
    forall x y, x < length d -> y < length d ->
      joined d' x y <-> joined d x y \/ (joined d x a /\ joined d y b) \/ (joined d x b /\ joined d y a).
Proof.
  intros Hd Ha Hb. unfold union.
  destruct (find_spec d a Hd Ha) as (d1 & ra & ka & -> & Ra & S1 & F1). cbn [mbind option_bind].
  pose proof S1 as [L1 S1']. destruct (find_spec d1 b F1 ltac:(lia)) as (d2 & rb & kb & -> & Rb & S2 & F2).
  cbn [mbind option_bind]. pose proof S2 as [L2 S2'].
  assert (forall x y, x < length d -> y < length d -> joined d2 x y <-> joined d x y) as Hj.
  { intros x y Hx Hy. rewrite (joined_same_roots d1 d2) by (done || lia). by apply joined_same_roots. }
  assert (exists k, rooted d b rb k) as [kb' Rb'].
  { destruct (Hd b Hb) as (r & k & R). destruct (S1' _ _ _ R) as [k' R'].
    destruct (rooted_det _ _ _ _ _ _ Rb R') as [-> _]. eauto. }
  assert (forall x r k, rooted d x r k -> exists k', rooted d2 x r k') as Hroots.
  { intros x r k H. destruct (S1' _ _ _ H) as [k1 H1]. by eapply S2'. }
  destruct (Hroots _ _ _ Ra) as [ka2 Ra2]. destruct (Hroots _ _ _ Rb') as [kb2 Rb2].
  case_bool_decide as Heq.
  - subst rb. exists d2. split; [done|]. split; [done|]. split; [lia|]. intros x y Hx Hy. rewrite Hj by done.
    split; [by left|]. assert (joined d a b) as (r & k & k' & J1 & J2) by (by exists ra, ka, kb').
    intros [?|[[(r1 & k1 & k2 & X1 & X2) (r2 & k3 & k4 & X3 & X4)]|[(r1 & k1 & k2 & X1 & X2) (r2 & k3 & k4 & X3 & X4)]]];
      [done|..]; exists ra.
    + destruct (rooted_det _ _ _ _ _ _ X2 Ra) as [-> _], (rooted_det _ _ _ _ _ _ X4 Rb') as [-> _]. eauto.
    + destruct (rooted_det _ _ _ _ _ _ X2 Rb') as [-> _], (rooted_det _ _ _ _ _ _ X4 Ra) as [-> _]. eauto.
  - exists (<[ra := rb]> d2).
    assert (forall x r k, rooted d x r k ->
      exists k', rooted (<[ra := rb]> d2) x (if decide (r = ra) then rb else r) k') as Hnew.
    { intros x r k H. destruct (Hroots _ _ _ H) as [k' H']. eapply hang_rooted; [| |done|exact H'].
      - by eapply rooted_is_root.
      - by eapply rooted_is_root. }
    split; [done|]. split.
    { intros x Hx. rewrite length_insert in Hx. destruct (Hd x ltac:(lia)) as (r & k & H).
      destruct (Hnew _ _ _ H) as [k' H']. eauto. }
    split; [rewrite length_insert; lia|]. intros x y Hx Hy.
    destruct (Hd x Hx) as (rx & kx & Rx). destruct (Hd y Hy) as (ry & ky & Ry).
    destruct (Hnew _ _ _ Rx) as [kx' Nx]. destruct (Hnew _ _ _ Ry) as [ky' Ny].
    assert (forall u v ru rv ku kv, rooted d u ru ku -> rooted d v rv kv -> joined d u v <-> ru = rv) as Hjr.
    { intros u v ru rv ku kv U V. split; [|intros ->; by exists rv, ku, kv].
      intros (r & k1 & k2 & U' & V'). destruct (rooted_det _ _ _ _ _ _ U U') as [-> _].
      by destruct (rooted_det _ _ _ _ _ _ V V') as [-> _]. }
    rewrite (Hjr x y rx ry kx ky), (Hjr x a rx ra kx ka), (Hjr y b ry rb ky kb'), (Hjr x b rx rb kx kb'),
      (Hjr y a ry ra ky ka) by done.
    assert (joined (<[ra := rb]> d2) x y <->
      (if decide (rx = ra) then rb else rx) = (if decide (ry = ra) then rb else ry)) as ->.
    { split; [|intros He; rewrite He in Nx; by eexists _, _, _].
      intros (r & k1 & k2 & U & V). destruct (rooted_det _ _ _ _ _ _ Nx U) as [-> _].
      by destruct (rooted_det _ _ _ _ _ _ Ny V) as [-> _]. }
    repeat case_decide; subst; naive_solver.
Qed.

Lemma rtc_map {A} (R R' : relation A) x y : (forall u v, R u v -> rtc R' u v) -> rtc R x y -> rtc R' x y.
Proof. intros H. induction 1 as [|x y z Hxy Hyz IH]; [constructor|]. etransitivity; [by apply H|done]. Qed.

Lemma joined_range d x y : joined d x y -> x < length d /\ y < length d.
Proof. intros (r & k & k' & H1 & H2). split; by eapply rooted_lt. Qed.

Lemma joined_refl d x : forest d -> x < length d -> joined d x x.
Proof. intros Hd Hx. destruct (Hd x Hx) as (r & k & H). by exists r, k, k. Qed.

Lemma joined_sym d x y : joined d x y -> joined d y x.
Proof. intros (r & k & k' & H1 & H2). by exists r, k', k. Qed.

Lemma joined_trans d x y z : joined d x y -> joined d y z -> joined d x z.
Proof.
  intros (r & k & k' & H1 & H2) (r' & k1 & k2 & H3 & H4). destruct (rooted_det _ _ _ _ _ _ H2 H3) as [-> _].
  by exists r', k, k2.
Qed.

(** Joined already, or linked, in either direction. *)
Definition step_of (d : Dsu) (links : list (nat * nat)) (x y : nat) : Prop :=
  joined d x y \/ (x, y) ∈ links \/ (y, x) ∈ links.

Lemma unions_spec links d : forest d -> Forall (fun l => l.1 < length d /\ l.2 < length d) links ->
  exists d', unions d links = Some d' /\ forest d' /\ length d' = length d /\
    forall x y, x < length d -> joined d' x y <-> rtc (step_of d links) x y.
Proof.
  revert d. induction links as [|[a b] links IH]; intros d Hd Hl.
  - exists d. split_and!; [done..|]. intros x y Hx. split; [intros; apply rtc_once; by left|].
    intros H. revert Hx. induction H as [x|x y z Hxy Hyz IH]; intros Hx; [by apply joined_refl|].
    destruct Hxy as [Hxy|[H|H]]; [|by apply not_elem_of_nil in H..].
    eapply joined_trans; [done|]. apply IH. by destruct (joined_range _ _ _ Hxy).
  - apply Forall_cons in Hl as [[Ha Hb] Hl]. cbn [fst snd] in *. cbn [unions].
    destruct (union_spec d a b Hd Ha Hb) as (d1 & -> & F1 & L1 & J1). cbn [mbind option_bind].
    destruct (IH d1 F1) as (d' & -> & F' & L' & J'); [by rewrite L1|].
    exists d'. split; [done|]. split; [done|]. split; [lia|]. intros x y Hx. rewrite J' by lia.
    assert (forall u, u < length d -> joined d u u) as Hrefl by (intros; by apply joined_refl).
    split; apply rtc_map; intros u v.
    + intros [Huv|[H|H]]; [|apply rtc_once; right; left; by right|apply rtc_once; right; right; by right].
      destruct (joined_range _ _ _ Huv) as [Hu Hv]. rewrite L1 in Hu, Hv. apply J1 in Huv; [|done..].
      destruct Huv as [Huv|[[U V]|[U V]]]; [by apply rtc_once; left| |].
      * eapply rtc_l; [by left|]. eapply rtc_l; [right; left; by left|]. apply rtc_once. left. by apply joined_sym.
      * eapply rtc_l; [by left|]. eapply rtc_l; [right; right; by left|]. apply rtc_once. left. by apply joined_sym.
    + intros [Huv|[[[= -> ->]|H]%elem_of_cons|[[= -> ->]|H]%elem_of_cons]].
      * apply rtc_once. left. destruct (joined_range _ _ _ Huv). apply J1; auto.
      * apply rtc_once. left. apply J1; auto.
      * apply rtc_once; right; by left.
      * apply rtc_once. left. apply J1; auto.
      * apply rtc_once; right; by right.
Qed.

Lemma new_forest n : forest (dsu_new n).
Proof.
  intros x Hx. unfold dsu_new in *. rewrite length_seq in Hx. exists x, 0. constructor. by rewrite lookup_seq_lt.
Qed.

Lemma new_joined n x y : joined (dsu_new n) x y -> x = y.
Proof.
  assert (forall z r k, rooted (dsu_new n) z r k -> r = z) as H.
  { induction 1 as [z Hz|z p r k Hz Hne H IH]; [done|]. unfold dsu_new in Hz.
    apply lookup_seq in Hz as [Hz _]. cbn in Hz. congruence. }
  intros (r & k & k' & H1 & H2). apply H in H1, H2. congruence.
Qed.

(** The root of an element. *)
Definition root_of (d : Dsu) (x : nat) : option nat := find_root (S (length d)) d x.

Lemma root_of_spec d x r k : rooted d x r k -> root_of d x = Some r.
Proof. intros H. eapply find_root_spec; [done|]. pose proof (rooted_bound _ _ _ _ H). lia. Qed.

Lemma root_of_joined d x y : forest d -> x < length d -> y < length d ->
  joined d x y <-> root_of d x = root_of d y.
Proof.
  intros Hd Hx Hy. destruct (Hd x Hx) as (rx & kx & Rx). destruct (Hd y Hy) as (ry & ky & Ry).
  rewrite (root_of_spec _ _ _ _ Rx), (root_of_spec _ _ _ _ Ry). split.
  - intros (r & k & k' & H1 & H2). destruct (rooted_det _ _ _ _ _ _ Rx H1) as [-> _].
    by destruct (rooted_det _ _ _ _ _ _ Ry H2) as [-> _].
  - intros [= ->]. by exists ry, kx, ky.
Qed.

Lemma same_roots_root_of d d' x : forest d -> same_roots d d' -> x < length d -> root_of d' x = root_of d x.
Proof.
  intros Hd [_ Hs] Hx. destruct (Hd x Hx) as (r & k & H). destruct (Hs _ _ _ H) as [k' H'].
  by rewrite (root_of_spec _ _ _ _ H), (root_of_spec _ _ _ _ H').
Qed.

Lemma comps_loop_spec is_ d comps : forest d -> Forall (fun i => i < length d) is_ ->
  exists comps', comps_loop is_ d comps = Some comps' /\
    forall r, comps' !! r =
      match filter (fun i => root_of d i = Some r) is_ with
      | [] => comps !! r
      | l => Some (default [] (comps !! r) ++ l)
      end.
Proof.
  revert d comps. induction is_ as [|i is_ IH]; intros d comps Hd Hr; [by exists comps|].
  apply Forall_cons in Hr as [Hi Hr]. cbn [comps_loop].
  destruct (find_spec d i Hd Hi) as (d1 & ri & k & -> & Hri & S1 & F1). cbn [mbind option_bind].
  pose proof S1 as [L1 _].
  destruct (IH d1 (<[ri := default [] (comps !! ri) ++ [i]]> comps) F1) as (comps' & -> & Hc).
  { by rewrite L1. }
  exists comps'. split; [done|]. intros r. rewrite Hc.
  assert (filter (fun j => root_of d1 j = Some r) is_ = filter (fun j => root_of d j = Some r) is_) as ->.
  { clear Hc IH. induction Hr as [|j is_ Hj Hr IH]; [done|]. rewrite !filter_cons, IH.
    by rewrite (same_roots_root_of d d1) by done. }
  rewrite filter_cons. rewrite (root_of_spec _ _ _ _ Hri).
  destruct (decide (Some ri = Some r)) as [[= ->]|Hne].
  - rewrite lookup_insert_eq. cbn [default from_option].
    destruct (filter _ is_) as [|j l]; [done|]. cbn. f_equal. exact (eq_sym (app_assoc _ [i] (j :: l))).
  - by rewrite lookup_insert_ne by congruence.
Qed.

(** Campaign grouping.  For links between positions of a batch of [n]
    events, the union-find and the grouping end without leaving their bounds,
    and give the connected components: every position is in exactly one
    group, a group lists its members in increasing order, and two positions
    are in one group exactly when a path of links, in either direction, joins
    them. *)
Theorem components_spec n links : Forall (fun l => l.1 < n /\ l.2 < n) links ->
  exists comps, components n links = Some comps /\
    (forall x, x < n -> exists r l, comps !! r = Some l /\ x ∈ l) /\
    (forall r l, comps !! r = Some l -> l <> [] /\ StronglySorted lt l) /\
    (forall r l r' l' x, comps !! r = Some l -> comps !! r' = Some l' -> x ∈ l -> x ∈ l' -> r = r') /\
    (forall r l x y, comps !! r = Some l -> x ∈ l ->
       y ∈ l <-> y < n /\ rtsc (fun a b => (a, b) ∈ links) x y).
Proof.
  intros Hl. assert (length (dsu_new n) = n) as Hn by apply length_seq.
  destruct (unions_spec links (dsu_new n)) as (d & Hu & Fd & Ld & Jd); [apply new_forest|by rewrite Hn|].
  rewrite Hn in *. destruct (comps_loop_spec (seq 0 n) d ∅ Fd) as (comps & Hc & Hval).
  { apply Forall_forall. intros i Hi%elem_of_seq. lia. }
  assert (forall r, comps !! r = match filter (fun i => root_of d i = Some r) (seq 0 n) with
    | [] => None | l => Some l end) as Hv.
  { intros r. rewrite Hval, lookup_empty. by destruct (filter _ _). }
  assert (forall r l x, comps !! r = Some l -> x ∈ l <-> x < n /\ root_of d x = Some r) as Hin.
  { intros r l x Hr. rewrite Hv in Hr.
    assert (l = filter (fun i => root_of d i = Some r) (seq 0 n)) as -> by by case_match; simplify_eq.
    rewrite list_elem_of_filter, elem_of_seq. split; intros [? ?]; split; auto; lia. }
  exists comps. split; [unfold components; by rewrite Hu|]. split_and!.
  - intros x Hx. destruct (Fd x ltac:(lia)) as (r & k & Hr).
    assert (x ∈ filter (fun i => root_of d i = Some r) (seq 0 n)) as Hxf.
    { apply list_elem_of_filter. split; [by eapply root_of_spec|]. apply elem_of_seq. lia. }
    exists r, (filter (fun i => root_of d i = Some r) (seq 0 n)). split; [|done]. rewrite Hv.
    destruct (filter _ _); [by apply not_elem_of_nil in Hxf|done].
  - intros r l Hr. rewrite Hv in Hr.
    assert (forall m, StronglySorted lt m -> StronglySorted lt (filter (fun i => root_of d i = Some r) m)) as Hsf.
    { induction 1 as [|a m Hs IH Hf]; [constructor|]. rewrite filter_cons. case_decide; [|done].
      constructor; [done|]. rewrite Forall_forall in *. intros b [_ Hb]%list_elem_of_filter. by apply Hf. }
    assert (StronglySorted lt (seq 0 n)) as Hseq.
    { clear. generalize 0. induction n as [|n IH]; intros a; [constructor|]. cbn. constructor; [done|].
      apply Forall_forall. intros b Hb%elem_of_seq. lia. }
    specialize (Hsf _ Hseq). by destruct (filter _ _); simplify_eq.
  - intros r l r' l' x Hr Hr' Hx Hx'. apply (Hin _ _ _ Hr) in Hx as [_ Hx]. apply (Hin _ _ _ Hr') in Hx' as [_ Hx'].
    congruence.
  - intros r l x y Hr Hx. rewrite (Hin _ _ y Hr). apply (Hin _ _ _ Hr) in Hx as [Hxn Hx].
    split; intros [Hy H]; (split; [done|]).
    + assert (joined d x y) as Hj by (apply root_of_joined; try lia; [done|congruence]).
      apply Jd in Hj; [|done]. revert Hj. apply rtc_map. intros u v [->%new_joined|Huv]; [done|].
      by apply rtc_once.
    + assert (joined d x y) as Hj; [|apply root_of_joined in Hj; try lia; [congruence|done]].
      apply Jd; [done|]. revert H. apply rtc_map. intros u v Huv. apply rtc_once. by right.
Qed.

Example components_spec_witness :
  exists comps r l, components 5 [(0, 3); (4, 3); (1, 2)] = Some comps /\ comps !! r = Some l /\ 0 ∈ l /\ 4 ∈ l.
Proof.
  destruct (components_spec 5 [(0, 3); (4, 3); (1, 2)]) as (comps & Hc & Hcov & _ & _ & Hcl).
  - repeat constructor; cbn; lia.
  - destruct (Hcov 0) as (r & l & Hr & H0); [lia|]. exists comps, r, l. split_and!; [done..|].
    apply (Hcl r l 0 4 Hr H0). split; [lia|].
    eapply rtc_l; [left; by left|]. eapply rtc_l; [right; right; by left|]. constructor.
Defined.
End Dsu.
