(* ===== verification/Columnar.v ===== *)
(** * [sigil-index]: the columnar form of events

    [columnar.rs]: the Arrow schema of a segment, the conversion of events to
    a record batch, the Parquet write, and the reconstruction of the events
    from the batches a reader returns.  Arrow and Parquet are the class
    [Arrow]: a batch is checked against the schema, written to bytes, and read
    back as consecutive batches.  [serde_json::from_str] is [JsonParse]. *)

From stdpp Require Import gmap strings list countable.
From S2P Require Import Prelude Containers Core Serde.

(** ** Arrow data *)

Inductive DataType : Set := Utf8 | Int64 | UInt32 | Int32.

#[export] Instance DataType_eq_dec : EqDecision DataType.
Proof. solve_decision. Defined.

(** Name, type, nullable. *)
Definition Field : Type := string * DataType * bool.

Inductive column : Set :=
  | StringArray (l : list (option string))
  | Int64Array (l : list Z)
  | UInt32Array (l : list Z)
  | Int32Array (l : list Z).

#[export] Instance column_eq_dec : EqDecision column.
Proof. solve_decision. Defined.

Definition batch : Type := list (string * column).

Definition col_type (c : column) : DataType :=
  match c with
  | StringArray _ => Utf8 | Int64Array _ => Int64 | UInt32Array _ => UInt32 | Int32Array _ => Int32
  end.

Definition col_len (c : column) : nat :=
  match c with
  | StringArray l => length l
  | Int64Array l | UInt32Array l | Int32Array l => length l
  end.

Definition col_nulls (c : column) : bool :=
  match c with StringArray l => existsb (fun o => bool_decide (o = None)) l | _ => false end.

(** [RecordBatch::num_rows], [column_by_name]. *)
Definition num_rows (b : batch) : nat := match b with [] => 0 | (_, c) :: _ => col_len c end.

Definition column_by_name (b : batch) (name : string) : option column :=
  snd <$> find (fun nc => bool_decide (nc.1 = name)) b.

(** The first [n] rows, and the others. *)
Definition map_rows (f : forall A, list A -> list A) (b : batch) : batch :=
  (fun nc => (nc.1, match nc.2 with
                    | StringArray l => StringArray (f _ l)
                    | Int64Array l => Int64Array (f _ l)
                    | UInt32Array l => UInt32Array (f _ l)
                    | Int32Array l => Int32Array (f _ l)
                    end)) <$> b.

Definition take_rows (n : nat) : batch -> batch := map_rows (fun A => take n).
Definition drop_rows (n : nat) : batch -> batch := map_rows (fun A => drop n).

Fixpoint split_rows (ns : list nat) (b : batch) : list batch :=
  match ns with [] => [] | n :: ns => take_rows n b :: split_rows ns (drop_rows n b) end.

(** A column fits a field; the columns fit a schema of as many fields, with
    one length. *)
Definition fits (n : nat) (f : Field) (c : column) : bool :=
  bool_decide (col_type c = f.1.2) && bool_decide (col_len c = n) && (f.2 || negb (col_nulls c)).

Definition fits_schema (n : nat) (sc : list Field) (cs : list column) : bool :=
  bool_decide (length sc = length cs) && forallb (fun fc => fits n fc.1 fc.2) (zip sc cs).

Class Arrow := {
  try_new : list Field -> list column -> result batch;
  pq_write : batch -> string;
  pq_read : string -> option (list batch)
}.

Class ArrowLaws `{Arrow} := {
  try_new_fits n sc cs : fits_schema n sc cs = true -> try_new sc cs = Ok (zip sc.*1.*1 cs);
  pq_read_write b : exists ns, sum_list ns = num_rows b /\ pq_read (pq_write b) = Some (split_rows ns b)
}.

(** ** JSON *)

(** No float, every object a map: the values [serde_json] prints and reads
    back unchanged (floats may lose precision without [float_roundtrip]). *)
Fixpoint exact (v : value) : Prop :=
  match v with
  | VNumber (NFloat _) => False
  | VArray l => (fix all l := match l with [] => True | v :: l => exact v /\ all l end) l
  | VObject m =>
      smap_wf m /\ (fix all m := match m with [] => True | (_, v) :: m => exact v /\ all m end) m
  | _ => True
  end.

Class JsonLaws `{JsonText} `{JsonParse} :=
  parse_text : forall v, exact v -> json_parse (json_text v) = inl v.

(** ** Writing a segment *)

Local Open Scope string_scope.

Definition event_schema : list Field :=
  [("id", Utf8, false);
   ("ts", Int64, false);
   ("ingest_ts", Int64, false);
   ("ocsf_class", UInt32, false);
   ("ocsf_class_name", Utf8, false);
   ("severity", Utf8, false);
   ("severity_id", Int32, false);
   ("tenant", Utf8, false);
   ("host", Utf8, true);
   ("actor", Utf8, true);
   ("actor_kind", Utf8, true);
   ("target", Utf8, true);
   ("target_kind", Utf8, true);
   ("message", Utf8, false);
   ("fields_json", Utf8, false)].

Definition class_name (c : OcsfClass) : string :=
  match c with
  | FileSystemActivity => "file_system_activity"
  | ProcessActivity => "process_activity"
  | Authentication => "authentication"
  | NetworkActivity => "network_activity"
  | HttpActivity => "http_activity"
  | ApiActivity => "api_activity"
  | DnsActivity => "dns_activity"
  | ModuleActivity => "module_activity"
  | ScheduledJobActivity => "scheduled_job_activity"
  | RegistryKeyActivity => "registry_key_activity"
  | OtherClass _ => "other"
  end.

Definition severity_name (s : Severity) : string :=
  match s with
  | Unknown => "unknown"
  | Informational => "informational"
  | Low => "low"
  | Medium => "medium"
  | High => "high"
  | Critical => "critical"
  | Fatal => "fatal"
  end.

Section columnar.
Context `{JsonText} `{JsonParse} `{Arrow}.

Definition req (l : list string) : column := StringArray (Some <$> l).

Definition event_columns (events : list Event) : list column :=
  [req (ev_id <$> events);
   Int64Array (ev_ts <$> events);
   Int64Array (ingest_ts <$> events);
   UInt32Array ((fun e => class_uid (ocsf_class e)) <$> events);
   req ((fun e => class_name (ocsf_class e)) <$> events);
   req ((fun e => severity_name (severity e)) <$> events);
   Int32Array ((fun e => severity_id (severity e)) <$> events);
   req (tenant <$> events);
   StringArray ((fun e => entity_id <$> host e) <$> events);
   StringArray ((fun e => entity_id <$> actor e) <$> events);
   StringArray ((fun e => kind <$> actor e) <$> events);
   StringArray ((fun e => entity_id <$> target e) <$> events);
   StringArray ((fun e => kind <$> target e) <$> events);
   req (message <$> events);
   req ((fun e => json_text (VObject (fields e))) <$> events)].

Definition events_to_batch (events : list Event) : result batch :=
  try_new event_schema (event_columns events).

(** The bytes [write_segment] leaves in the file, and the rows written. *)
Definition segment_bytes (events : list Event) : result (string * nat) :=
  b ← events_to_batch events;
  Ok (pq_write b, length events).

(** ** Reading it back *)

Definition str_col (b : batch) (name : string) : option (list (option string)) :=
  match column_by_name b name with Some (StringArray l) => Some l | _ => None end.
Definition i64_col (b : batch) (name : string) : option (list Z) :=
  match column_by_name b name with Some (Int64Array l) => Some l | _ => None end.
Definition u32_col (b : batch) (name : string) : option (list Z) :=
  match column_by_name b name with Some (UInt32Array l) => Some l | _ => None end.
Definition i32_col (b : batch) (name : string) : option (list Z) :=
  match column_by_name b name with Some (Int32Array l) => Some l | _ => None end.

(** [StringArray::value]: the empty string where the row is null. *)
Definition str_value (c : list (option string)) (row : nat) : string := default "" (mjoin (c !! row)).
Definition int_value (c : list Z) (row : nat) : Z := default 0%Z (c !! row).

Definition opt (c : option (list (option string))) (row : nat) : option string :=
  l ← c; mjoin (l !! row).

(** [clamp(0, 255) as u8]. *)
Definition clamp_u8 (z : Z) : Z := Z.max 0 (Z.min z 255).

Definition fields_of_json (text : string) : fields_t :=
  match json_parse text with
  | inl (VObject m) => foldl (fun f kv => fields_insert kv.1 kv.2 f) [] m
  | _ => []
  end.

Definition batch_into_events (b : batch) : result (list Event) :=
  id ← ok_or (str_col b "id") Backend;
  ts ← ok_or (i64_col b "ts") Backend;
  ingest ← ok_or (i64_col b "ingest_ts") Backend;
  class ← ok_or (u32_col b "ocsf_class") Backend;
  sev_id ← ok_or (i32_col b "severity_id") Backend;
  tenant ← ok_or (str_col b "tenant") Backend;
  message ← ok_or (str_col b "message") Backend;
  fields_json ← ok_or (str_col b "fields_json") Backend;
  let host := str_col b "host" in
  let actor := str_col b "actor" in
  let target := str_col b "target" in
  let actor_kind := str_col b "actor_kind" in
  let target_kind := str_col b "target_kind" in
  Ok ((fun row =>
         mkEvent (str_value id row) (int_value ts row) (int_value ingest row)
           (from_uid (int_value class row)) (str_value tenant row)
           (severity_from_id (clamp_u8 (int_value sev_id row)))
           (EntityRef_new "host" <$> opt host row)
           ((fun a => EntityRef_new (default "user" (opt actor_kind row)) a) <$> opt actor row)
           ((fun t => EntityRef_new (default "host" (opt target_kind row)) t) <$> opt target row)
           (str_value message row) (fields_of_json (str_value fields_json row)) None [] "")
        <$> seq 0 (num_rows b)).

Definition read_parquet_events (data : string) : result (list Event) :=
  bs ← ok_or (pq_read data) Backend;
  ess ← traverse batch_into_events bs;
  Ok (concat ess).
End columnar.

Local Close Scope string_scope.

(** ** What a segment keeps of an event *)

(** Everything but the raw text, the labels, the template, the entities'
    names and the kind of the host. *)
Definition columnar_event (e : Event) : Event :=
  mkEvent (ev_id e) (ev_ts e) (ingest_ts e) (from_uid (class_uid (ocsf_class e))) (tenant e) (severity e)
    ((fun h => EntityRef_new "host" (entity_id h)) <$> host e)
    ((fun a => EntityRef_new (kind a) (entity_id a)) <$> actor e)
    ((fun t => EntityRef_new (kind t) (entity_id t)) <$> target e)
    (message e) (fields e) None [] "".

Definition exact_event (e : Event) : Prop := exact (VObject (fields e)).

Lemma fmap_seq {A B} (f : A -> B) (g : nat -> B) (l : list A) :
  (forall i x, l !! i = Some x -> g i = f x) -> g <$> seq 0 (length l) = f <$> l.
Proof.
  intros Hg. apply list_eq. intros i. rewrite !list_lookup_fmap.
  destruct (l !! i) as [x|] eqn:E.
  - rewrite lookup_seq_lt by by eapply lookup_lt_Some. cbn. by rewrite (Hg _ _ E).
  - by rewrite lookup_seq_ge by by apply lookup_ge_None.
Qed.

Section laws.
Context `{JsonLaws} `{ArrowLaws}.

Definition batch_of (es : list Event) : batch := zip event_schema.*1.*1 (event_columns es).

Lemma col_nulls_req l : col_nulls (req l) = false.
Proof. unfold req. cbn. by induction l as [|x l IH]; cbn. Qed.

Lemma length_req l : col_len (req l) = length l.
Proof. cbn. apply length_fmap. Qed.

Lemma events_to_batch_ok es : events_to_batch es = Ok (batch_of es).
Proof.
  apply (try_new_fits (length es)). unfold fits_schema. apply andb_true_iff. split; [done|].
  unfold event_columns, event_schema. cbn [zip zip_with forallb]. unfold fits.
  cbn [fst snd]. rewrite !col_nulls_req, !length_req. cbn [col_len]. rewrite !length_fmap.
  by rewrite !(bool_decide_eq_true_2 (length es = length es)) by done.
Qed.

Lemma take_rows_of n es : take_rows n (batch_of es) = batch_of (take n es).
Proof. unfold batch_of, event_columns, req, take_rows, map_rows. cbn. by rewrite !fmap_take. Qed.

Lemma drop_rows_of n es : drop_rows n (batch_of es) = batch_of (drop n es).
Proof. unfold batch_of, event_columns, req, drop_rows, map_rows. cbn. by rewrite !fmap_drop. Qed.

Lemma fields_of_text e : exact_event e -> fields_of_json (json_text (VObject (fields e))) = fields e.
Proof.
  intros He. unfold fields_of_json. rewrite parse_text by done. apply (smap_collect _ []). apply He.
Qed.

Lemma num_rows_of es : num_rows (batch_of es) = length es.
Proof. cbn. by rewrite !length_fmap. Qed.

(** Every column by its name. *)
Lemma columns_of es :
  str_col (batch_of es) "id" = Some (Some <$> (ev_id <$> es)) /\
  i64_col (batch_of es) "ts" = Some (ev_ts <$> es) /\
  i64_col (batch_of es) "ingest_ts" = Some (ingest_ts <$> es) /\
  u32_col (batch_of es) "ocsf_class" = Some ((fun e => class_uid (ocsf_class e)) <$> es) /\
  i32_col (batch_of es) "severity_id" = Some ((fun e => severity_id (severity e)) <$> es) /\
  str_col (batch_of es) "tenant" = Some (Some <$> (tenant <$> es)) /\
  str_col (batch_of es) "message" = Some (Some <$> (message <$> es)) /\
  str_col (batch_of es) "fields_json" = Some (Some <$> ((fun e => json_text (VObject (fields e))) <$> es)) /\
  str_col (batch_of es) "host" = Some ((fun e => entity_id <$> host e) <$> es) /\
  str_col (batch_of es) "actor" = Some ((fun e => entity_id <$> actor e) <$> es) /\
  str_col (batch_of es) "actor_kind" = Some ((fun e => kind <$> actor e) <$> es) /\
  str_col (batch_of es) "target" = Some ((fun e => entity_id <$> target e) <$> es) /\
  str_col (batch_of es) "target_kind" = Some ((fun e => kind <$> target e) <$> es).
Proof. repeat split. Qed.

Lemma batch_events es : Forall exact_event es -> batch_into_events (batch_of es) = Ok (columnar_event <$> es).
Proof.
  intros He. unfold batch_into_events. rewrite num_rows_of.
  destruct (columns_of es) as (-> & -> & -> & -> & -> & -> & -> & -> & -> & -> & -> & -> & ->).
  cbn [ok_or mbind result_bind]. apply (f_equal Ok), fmap_seq.
  intros i e Hi. rewrite Forall_lookup in He. specialize (He i e Hi).
  unfold str_value, int_value, opt, columnar_event. cbn [mbind option_bind].
  rewrite !list_lookup_fmap, Hi. cbn -[fields_of_json clamp_u8]. rewrite fields_of_text by done.
  by destruct (host e), (actor e), (target e), (severity e).
Qed.

Lemma batches_events ns es : Forall exact_event es ->
  exists ess, traverse batch_into_events (split_rows ns (batch_of es)) = Ok ess /\
    concat ess = columnar_event <$> take (sum_list ns) es.
Proof.
  revert es. induction ns as [|n ns IH]; intros es He; [by exists []|]. cbn [split_rows traverse].
  rewrite take_rows_of, drop_rows_of, batch_events by by apply Forall_take. cbn [mbind result_bind].
  destruct (IH (drop n es)) as (ess & -> & Hc); [by apply Forall_drop|]. eexists. split; [done|].
  cbn [concat sum_list sum_list_with]. rewrite Hc, <- fmap_app. by rewrite take_take_drop.
Qed.
End laws.

(** ** The round trip *)

Lemma segment_read `{JsonLaws} `{ArrowLaws} es : Forall exact_event es ->
  exists data, segment_bytes es = Ok (data, length es) /\
    read_parquet_events data = Ok (columnar_event <$> es).
Proof.
  intros He. unfold segment_bytes. rewrite events_to_batch_ok. cbn [mbind result_bind].
  eexists. split; [done|]. unfold read_parquet_events.
  destruct (pq_read_write (batch_of es)) as (ns & Hn & ->). cbn [ok_or mbind result_bind].
  destruct (batches_events ns es He) as (ess & -> & Hc). cbn [mbind result_bind]. rewrite Hc, Hn, num_rows_of.
  by rewrite take_ge.
Qed.

Lemma columnar_event_id e :
  columnar_event e = e <->
    template_id e = None /\ labels e = [] /\ raw e = ""%string /\
    (forall h, host e = Some h -> kind h = "host"%string /\ entity_name h = None) /\
    (forall a, actor e = Some a -> entity_name a = None) /\
    (forall t, target e = Some t -> entity_name t = None) /\
    (forall u, ocsf_class e = OtherClass u -> from_uid u = OtherClass u).
Proof.
  destruct e as [i ts ing c ten sev h a t m f ti l r]; unfold columnar_event; cbn.
  split.
  - intros [= Hc Hh Ha Ht <- <- <-]. do 3 (split; [done|]).
    split; [|split; [|split]].
    all: intros x ->; try destruct x; unfold EntityRef_new in *; cbn in *; simplify_eq; auto.
  - intros (-> & -> & -> & Hh & Ha & Ht & Hc).
    assert (from_uid (class_uid c) = c) as -> by (destruct c; try done; by apply Hc).
    f_equal.
    + destruct h as [[]|]; [|done]. destruct (Hh _ eq_refl) as [Hk Hn]. cbn in *. by subst.
    + destruct a as [[]|]; [|done]. specialize (Ha _ eq_refl). cbn in *. by subst.
    + destruct t as [[]|]; [|done]. specialize (Ht _ eq_refl). cbn in *. by subst.
Qed.

Lemma columnar_event_idem e : columnar_event (columnar_event e) = columnar_event e.
Proof.
  unfold columnar_event. cbn. rewrite class_uid_from_uid. by destruct (host e), (actor e), (target e).
Qed.

(** A segment file reads back, in order and in as many batches as the
    reader makes, as the events written, [columnar_event] apart; an event is
    unchanged exactly when it has no raw text, label, template or entity name,
    its host is of kind [host] and its class is not an [Other] carrying the
    number of a modelled class.  Reading twice loses nothing more. *)
Theorem segment_roundtrip `{JsonLaws} `{ArrowLaws} es : Forall exact_event es ->
  (exists data, segment_bytes es = Ok (data, length es) /\
     read_parquet_events data = Ok (columnar_event <$> es)) /\
  (forall e, columnar_event e = e <->
     template_id e = None /\ labels e = [] /\ raw e = ""%string /\
     (forall h, host e = Some h -> kind h = "host"%string /\ entity_name h = None) /\
     (forall a, actor e = Some a -> entity_name a = None) /\
     (forall t, target e = Some t -> entity_name t = None) /\
     (forall u, ocsf_class e = OtherClass u -> from_uid u = OtherClass u)) /\
  (forall e, columnar_event (columnar_event e) = columnar_event e).
Proof.
  intros He. split; [by apply segment_read|]. split; [apply columnar_event_id|].
  apply columnar_event_idem.
Qed.

(** ** A concrete reader and writer

    Batches as the text of their encoding, read back one row first. *)

Definition col_sum (c : column) : list (option string) + (list Z + (list Z + list Z)) :=
  match c with
  | StringArray l => inl l
  | Int64Array l => inr (inl l)
  | UInt32Array l => inr (inr (inl l))
  | Int32Array l => inr (inr (inr l))
  end.
Definition sum_col (s : list (option string) + (list Z + (list Z + list Z))) : column :=
  match s with
  | inl l => StringArray l
  | inr (inl l) => Int64Array l
  | inr (inr (inl l)) => UInt32Array l
  | inr (inr (inr l)) => Int32Array l
  end.
#[export] Instance column_countable : Countable column.
Proof. refine (inj_countable' col_sum sum_col _). by intros []. Defined.

Definition demo_batches (b : batch) : list nat :=
  match num_rows b with O => [] | S n => [1; n] end.

Definition demo_arrow : Arrow := {|
  try_new sc cs :=
    if fits_schema (match cs with [] => 0 | c :: _ => col_len c end) sc cs then Ok (zip sc.*1.*1 cs)
    else Err Backend;
  pq_write b := bits (encode b);
  pq_read s := (fun b : batch => split_rows (demo_batches b) b) <$> decode (unbits s)
|}.

Lemma demo_arrow_laws : @ArrowLaws demo_arrow.
Proof.
  split.
  - intros n sc cs Hf. cbn. destruct cs as [|c cs].
    + destruct sc; done.
    + destruct sc as [|f sc]; [done|].
      assert (col_len c = n) as ->; [|by rewrite Hf].
      unfold fits_schema in Hf. cbn in Hf. unfold fits in Hf. cbn in Hf.
      repeat (apply andb_true_iff in Hf as [Hf ?] || apply bool_decide_eq_true in Hf).
      repeat match goal with H : _ && _ = true |- _ => apply andb_true_iff in H as [??] end.
      by repeat match goal with H : bool_decide _ = true |- _ => apply bool_decide_eq_true in H end.
  - intros b. exists (demo_batches b). unfold pq_read, pq_write, demo_arrow.
    rewrite unbits_bits, decode_encode. split; [|done].
    unfold demo_batches. destruct (num_rows b) as [|n]; [done|]. cbn. lia.
Qed.

Definition demo_json_text : JsonText := fun v => bits (encode v).
Definition demo_json_parse : JsonParse := fun s => match decode (unbits s) with Some v => inl v | None => inr EmptyString end.
Lemma demo_json_laws : @JsonLaws demo_json_text demo_json_parse.
Proof. intros v _. unfold json_parse, json_text, demo_json_text, demo_json_parse. by rewrite unbits_bits, decode_encode. Qed.

Definition demo_event (i : string) (ts : Z) (h : string) : Event :=
  mkEvent i ts 7 Authentication "acme" High (Some (EntityRef_new "host" h)) (Some (EntityRef_new "user" "root"))
    None "hello" [("k", VNumber (NInt 5))] None [] "".

Lemma demo_event_exact i ts h : exact_event (demo_event i ts h).
Proof. unfold exact_event, smap_wf. cbn. repeat constructor. Qed.

Lemma segment_roundtrip_witness :
  exists data, @segment_bytes demo_json_text demo_arrow [demo_event "a" 1 "web"; demo_event "b" 2 "db"] = Ok (data, 2) /\
    @read_parquet_events demo_json_parse demo_arrow data =
      Ok [demo_event "a" 1 "web"; demo_event "b" 2 "db"].
Proof.
  exact (proj1 (@segment_roundtrip _ _ demo_json_laws _ demo_arrow_laws
    [demo_event "a" 1 "web"; demo_event "b" 2 "db"]
    (Forall_cons_2 _ _ _ (demo_event_exact _ _ _) (Forall_cons_2 _ _ _ (demo_event_exact _ _ _) (Forall_nil_2 _))))).
Defined.
