(* ===== verification/Segments.v ===== *)
(** * [sigil-index]: the segment catalog and the tiered columnar store

    [catalog.rs], [store.rs] and the operations of [object.rs].  The world is
    the in-memory catalog, the catalog file, the local files and the archive;
    an operation runs in the monad [IO], where each call of the file system or
    of the object store takes its outcome from a list of faults (an exhausted
    list is a run without failure), and keeps what was changed before an
    error.  Reads of a segment go through [Columnar]. *)

From stdpp Require Import gmap strings list countable.
From S2P Require Import Prelude Containers Core Serde Store Columnar.

(** ** Data *)

Inductive Tier : Set := Hot | Warm | Cold.

#[export] Instance Tier_eq_dec : EqDecision Tier.
Proof. solve_decision. Defined.

Record SegmentMeta : Set := mkSegment {
  sm_id : string;
  sm_path : string;
  sm_tier : Tier;
  sm_min_ts : Z;
  sm_max_ts : Z;
  sm_rows : nat;
  sm_created_ts : Z
}.

#[export] Instance SegmentMeta_eq_dec : EqDecision SegmentMeta.
Proof. solve_decision. Defined.

(** The catalog file: absent, unreadable, or its text. *)
Inductive disk_text : Set := Missing | Unreadable | Text (t : string).

Record ObjectColdStore : Type := mkArchive { oc_prefix : string; oc_objects : gmap string string }.

Record ColumnarStore : Type := mkColumnar {
  cold_dir : string;
  segments : list SegmentMeta;
  cat_file : disk_text;
  files : gmap string string;
  archive : option ObjectColdStore
}.

Definition set_segments (l : list SegmentMeta) (w : ColumnarStore) : ColumnarStore :=
  mkColumnar (cold_dir w) l (cat_file w) (files w) (archive w).
Definition set_cat (t : string) (w : ColumnarStore) : ColumnarStore :=
  mkColumnar (cold_dir w) (segments w) (Text t) (files w) (archive w).
Definition set_files (f : gmap string string) (w : ColumnarStore) : ColumnarStore :=
  mkColumnar (cold_dir w) (segments w) (cat_file w) f (archive w).
Definition set_objects (f : gmap string string -> gmap string string) (w : ColumnarStore) : ColumnarStore :=
  mkColumnar (cold_dir w) (segments w) (cat_file w) (files w)
    ((fun a => mkArchive (oc_prefix a) (f (oc_objects a))) <$> archive w).

(** ** Effects *)

(** A call succeeds, or fails and may leave a partly written file. *)
Inductive fault : Set := Good | Bad (left_ : option string).

Definition IO (A : Type) : Type := list fault * ColumnarStore -> list fault * ColumnarStore * result A.

#[export] Instance IO_ret : MRet IO := fun A a s => (s, Ok a).
#[export] Instance IO_bind : MBind IO := fun A B f m s =>
  match m s with
  | (s', Ok a) => f a s'
  | (s', Err e) => (s', Err e)
  end.

Definition lift {A} (r : result A) : IO A := fun s => (s, r).
Definition get_ : IO ColumnarStore := fun s => (s, Ok s.2).
Definition modify (f : ColumnarStore -> ColumnarStore) : IO unit := fun s => ((s.1, f s.2), Ok ()).
Definition next_fault : IO fault := fun s =>
  match s.1 with [] => (s, Ok Good) | f :: fs => ((fs, s.2), Ok f) end.

(** [std::fs::write], [read], [remove_file] (its result ignored). *)
Definition fs_write (put : string -> ColumnarStore -> ColumnarStore) (data : string) : IO unit :=
  f ← next_fault;
  match f with
  | Good => modify (put data)
  | Bad None => lift (Err Io)
  | Bad (Some torn) => modify (put torn) ;; lift (Err Io)
  end.
Definition put_file (p data : string) (w : ColumnarStore) : ColumnarStore :=
  set_files (<[p := data]> (files w)) w.
Definition fs_read (p : string) : IO string :=
  f ← next_fault; w ← get_;
  match f with Good => lift (ok_or (files w !! p) Io) | Bad _ => lift (Err Io) end.
Definition fs_remove (p : string) : IO unit :=
  f ← next_fault;
  match f with Good => modify (fun w => set_files (delete p (files w)) w) | Bad _ => mret () end.

(** [ObjectColdStore::put], [get], [delete] (a missing object is no error), [key]. *)
Definition obj_put (key data : string) : IO unit :=
  f ← next_fault;
  match f with Good => modify (set_objects (<[key := data]>)) | Bad _ => lift (Err Backend) end.
Definition obj_get (key : string) : IO string :=
  f ← next_fault; w ← get_;
  match f with
  | Good => lift (ok_or (a ← archive w; oc_objects a !! key) Backend)
  | Bad _ => lift (Err Backend)
  end.
Definition obj_delete (key : string) : IO unit :=
  f ← next_fault;
  match f with Good => modify (set_objects (delete key)) | Bad _ => lift (Err Backend) end.
Definition archive_key (prefix segment_id : string) : string :=
  (prefix +:+ "/" +:+ segment_id +:+ ".parquet")%string.

(** ** The catalog *)

(** [Catalog::overlapping], [expired], [total_rows], [is_empty]. *)
Definition overlapping (segs : list SegmentMeta) (start end_ : Z) : list SegmentMeta :=
  filter (fun s => sm_min_ts s <= end_ /\ start <= sm_max_ts s)%Z segs.

Definition is_expired (now age : Z) (s : SegmentMeta) : bool := (wrap_i64 (now - sm_max_ts s) >? age)%Z.
Definition expired (segs : list SegmentMeta) (now age : Z) : list SegmentMeta :=
  filter (fun s => is_expired now age s = true) segs.

Definition total_rows (segs : list SegmentMeta) : nat := sum_list (sm_rows <$> segs).
Definition catalog_is_empty (segs : list SegmentMeta) : bool := is_nil segs.

(** [segments.iter_mut().find(id)], updated in place. *)
Fixpoint relocate (id : string) (tier : Tier) (path : string) (segs : list SegmentMeta) :
    option (list SegmentMeta) :=
  match segs with
  | [] => None
  | s :: segs =>
      if bool_decide (sm_id s = id) then
        Some (mkSegment (sm_id s) path tier (sm_min_ts s) (sm_max_ts s) (sm_rows s) (sm_created_ts s) :: segs)
      else cons s <$> relocate id tier path segs
  end.

Definition segment_meta (now : Z) (id path : string) (min_ts max_ts : Z) (rows : nat) : SegmentMeta :=
  mkSegment id path Warm min_ts max_ts rows now.

(** [parse_duration_micros]; the product is a release-profile [i64] one. *)
Fixpoint split_digits (s : string) : string * string :=
  match s with
  | String c r => if is_ascii_digit c then let '(n, u) := split_digits r in (String c n, u)
                  else (EmptyString, s)
  | EmptyString => (EmptyString, EmptyString)
  end.

Definition unit_micros (unit : string) : option Z :=
  match unit with
  | "s" => Some 1000000
  | "m" => Some (60 * 1000000)
  | "h" => Some (3600 * 1000000)
  | "d" => Some (86400 * 1000000)
  | "w" => Some (7 * 86400 * 1000000)
  | _ => None
  end%string%Z.

Definition parse_duration_micros (s : string) : option Z :=
  let '(num, unit) := split_digits (trim s) in
  if is_empty_str unit then None else
  n ← parse_i64 num;
  per ← unit_micros unit;
  Some (wrap_i64 (n * per)).

Section catalog.
Context `{Serde (list SegmentMeta)}.

(** [Catalog::open]. *)
Definition open_catalog (f : disk_text) : result (list SegmentMeta) :=
  match f with
  | Text t => ok_or (de t) Backend
  | Missing => Ok []
  | Unreadable => Err Io
  end.

Definition save : IO unit := w ← get_; fs_write set_cat (ser (segments w)).

Definition add (seg : SegmentMeta) : IO unit :=
  modify (fun w => set_segments (segments w ++ [seg]) w) ;; save.

Definition migrate (id : string) (tier : Tier) (path : string) : IO bool :=
  w ← get_;
  match relocate id tier path (segments w) with
  | None => mret false
  | Some segs => modify (set_segments segs) ;; save ;; mret true
  end.

Fixpoint remove_files (segs : list SegmentMeta) : IO unit :=
  match segs with [] => mret () | s :: segs => fs_remove (sm_path s) ;; remove_files segs end.

Definition remove (ids : list string) : IO nat :=
  w ← get_;
  let gone := filter (fun s => sm_id s ∈ ids) (segments w) in
  remove_files gone ;;
  modify (set_segments (filter (fun s => sm_id s ∉ ids) (segments w))) ;;
  (if is_nil gone then mret () else save) ;;
  mret (length gone).
End catalog.

(** ** The store *)

(** [cold_dir.join(name)]. *)
Definition join_path (dir name : string) : string :=
  if is_empty_str dir || ends_with "/" dir then dir +:+ name else (dir +:+ "/" +:+ name)%string.

(** [format!("seg-{:016x}", now_micros())]. *)
Definition ulid_like (now : Z) : string := ("seg-" +:+ hex 16 (wrap_u64 now) EmptyString)%string.

Definition segment_path (dir id : string) : string := join_path dir (id +:+ ".parquet")%string.

Definition min_ts (l : list Z) : Z := match l with [] => 0 | x :: l => foldl Z.min x l end.
Definition max_ts (l : list Z) : Z := match l with [] => 0 | x :: l => foldl Z.max x l end.

Section store.
Context `{JsonText} `{JsonParse} `{Arrow} `{Serde (list SegmentMeta)}.

(** [ColumnarStore::open] with [with_archive]: the catalog read from its file. *)
Definition reopen (a : option ObjectColdStore) (w : ColumnarStore) : result ColumnarStore :=
  segs ← open_catalog (cat_file w);
  Ok (mkColumnar (cold_dir w) segs (cat_file w) (files w) a).

(** [now_id] and [now]: the clock read for the identifier and the metadata. *)
Definition write_segment (now_id now : Z) (events : list Event) : IO (option SegmentMeta) :=
  if is_nil events then mret None else
  w ← get_;
  let id := ulid_like now_id in
  let path := segment_path (cold_dir w) id in
  dr ← lift (segment_bytes events);
  fs_write (put_file path) dr.1 ;;
  let meta := segment_meta now id path (min_ts (ev_ts <$> events)) (max_ts (ev_ts <$> events)) dr.2 in
  add meta ;;
  mret (Some meta).

Definition read_one (seg : SegmentMeta) : IO (list Event) :=
  w ← get_;
  data ← match sm_tier seg, archive w with
         | Cold, Some _ => obj_get (sm_path seg)
         | _, _ => fs_read (sm_path seg)
         end;
  lift (read_parquet_events data).

Definition in_range (start end_ : Z) (e : Event) : Prop := (start <= ev_ts e /\ ev_ts e <= end_)%Z.
#[export] Instance in_range_dec start end_ e : Decision (in_range start end_ e).
Proof. unfold in_range. apply _. Defined.

Fixpoint read_all (start end_ : Z) (segs : list SegmentMeta) : IO (list Event) :=
  match segs with
  | [] => mret []
  | seg :: segs =>
      events ← read_one seg;
      rest ← read_all start end_ segs;
      mret (filter (in_range start end_) events ++ rest)
  end.

Definition read_range (start end_ : Z) : IO (list Event) :=
  w ← get_; read_all start end_ (overlapping (segments w) start end_).

Definition is_aged (now age : Z) (s : SegmentMeta) : bool :=
  bool_decide (sm_tier s = Warm) && is_expired now age s.

(** The body of the migration loop, and the loop. *)
Definition migrate_one (prefix : string) (seg : SegmentMeta) : IO unit :=
  data ← fs_read (sm_path seg);
  let key := archive_key prefix (sm_id seg) in
  obj_put key data ;;
  migrate (sm_id seg) Cold key ;;
  fs_remove (sm_path seg).

Fixpoint migrate_all (prefix : string) (segs : list SegmentMeta) : IO nat :=
  match segs with
  | [] => mret 0
  | seg :: segs => migrate_one prefix seg ;; n ← migrate_all prefix segs; mret (S n)
  end.

Definition migrate_warm (now age : Z) : IO nat :=
  w ← get_;
  match archive w with
  | None => mret 0
  | Some a => migrate_all (oc_prefix a) (filter (fun s => is_aged now age s = true) (segments w))
  end.

Fixpoint delete_objects (segs : list SegmentMeta) : IO unit :=
  match segs with [] => mret () | seg :: segs => obj_delete (sm_path seg) ;; delete_objects segs end.

Definition enforce_retention (now age : Z) : IO nat :=
  w ← get_;
  let old := expired (segments w) now age in
  match archive w with
  | Some _ => delete_objects (filter (fun s => sm_tier s = Cold) old)
  | None => mret ()
  end ;;
  remove (sm_id <$> old).

Definition segment_count (w : ColumnarStore) : nat := length (segments w).
Definition count_tier (t : Tier) (w : ColumnarStore) : nat :=
  length (filter (fun s => sm_tier s = t) (segments w)).
Definition tier_counts (w : ColumnarStore) : nat * nat * nat :=
  (count_tier Hot w, count_tier Warm w, count_tier Cold w).
End store.
