(* ===== verification/Tiering.v ===== *)
(** * The tiered store implements a plain archive

    The store of [Segments] refines a list of batches: reads return what was
    written, whatever tier a segment is in and whatever call of a migration or
    of a retention run failed before. *)

From stdpp Require Import gmap strings list countable.
From S2P Require Import Prelude Containers Core Serde Store Columnar Segments.

(** Runs the primitives of [IO] on a known world. *)
Ltac io :=
  cbv beta iota zeta delta [mbind IO_bind mret IO_ret get_ modify lift next_fault option_bind
    ok_or result_bind fs_write fs_read fs_remove obj_put obj_get obj_delete]; cbn [fst snd].

(** Only the binds: the primitives have equations below. *)
Ltac iob := cbv beta iota zeta delta [mbind IO_bind mret IO_ret get_ modify lift ok_or]; cbn [fst snd].

(** ** File names determine segments *)

(** The text after the last slash. *)
Fixpoint base (s : string) : string :=
  match s with
  | EmptyString => EmptyString
  | String c r => if free_of "/" r then (if bool_decide (c = "/"%char) then r else s) else base r
  end.

Local Arguments free_of : simpl never.

Lemma base_free s : free_of "/" s = true -> base s = s.
Proof.
  unfold free_of. destruct s as [|c s]; [done|]. cbn. intros [Hc Hs]%andb_true_iff. unfold free_of. rewrite Hs.
  rewrite bool_decide_false; [done|]. by intros ->.
Qed.

Lemma base_dir d n : free_of "/" n = true -> base (d +:+ String "/" n) = n.
Proof.
  intros Hn. induction d as [|c d IH]; [change (base (String "/" n) = n); cbn; by rewrite Hn|].
  change (base (String c (d +:+ String "/" n)) = n). cbn. rewrite IH.
  replace (free_of "/" (d +:+ String "/" n)) with false; [done|].
  rewrite free_of_app. by rewrite andb_false_r.
Qed.

Definition plain_id (i : string) : Prop := free_of "/" i = true.

Lemma file_free i : plain_id i -> free_of "/" (i +:+ ".parquet") = true.
Proof. unfold plain_id. intros Hi. by rewrite free_of_app, Hi. Qed.

Lemma base_segment_path d i : plain_id i -> base (segment_path d i) = i +:+ ".parquet".
Proof.
  intros Hi%file_free. unfold segment_path, join_path. destruct (is_empty_str d) eqn:E; cbn.
  - destruct d; [|done]. by apply base_free.
  - destruct (ends_with "/" d) eqn:Ee; [|by apply base_dir].
    apply ends_with_spec in Ee as [r ->]. rewrite <- string_app_assoc. by apply base_dir.
Qed.

Lemma base_archive_key p i : plain_id i -> base (archive_key p i) = i +:+ ".parquet".
Proof. intros Hi%file_free. by apply base_dir. Qed.

Lemma app_inj_r (s t u : string) : s +:+ u = t +:+ u -> s = t.
Proof.
  intros He. apply (f_equal (strip_suffix u)) in He.
  assert (forall s, strip_suffix u (s +:+ u) = Some s) as Hs by (intros; by apply strip_suffix_Some).
  rewrite !Hs in He. by injection He.
Qed.

Lemma segment_path_inj d i j : plain_id i -> plain_id j -> segment_path d i = segment_path d j -> i = j.
Proof. intros Hi Hj He%(f_equal base). rewrite !base_segment_path in He by done. by apply app_inj_r in He. Qed.

Lemma archive_key_inj p i j : plain_id i -> plain_id j -> archive_key p i = archive_key p j -> i = j.
Proof. intros Hi Hj He%(f_equal base). rewrite !base_archive_key in He by done. by apply app_inj_r in He. Qed.

Lemma path_key_inj d p i j : plain_id i -> plain_id j -> segment_path d i = archive_key p j -> i = j.
Proof.
  intros Hi Hj He%(f_equal base). rewrite base_segment_path, base_archive_key in He by done.
  by apply app_inj_r in He.
Qed.

Lemma hex_plain n z acc : (0 <= z)%Z -> free_of "/" acc = true -> free_of "/" (hex n z acc) = true.
Proof.
  revert z acc. induction n as [|n IH]; intros z acc Hz Ha; [done|]. cbn. apply IH; [by apply Z.div_pos|].
  unfold free_of in *. cbn. rewrite Ha, andb_true_r. unfold hex_digit.
  pose proof (Z.mod_pos_bound z 16). assert (exists k : nat, (z `mod` 16)%Z = Z.of_nat k /\ k < 16) as (k & -> & Hk) by (exists (Z.to_nat (z `mod` 16)); lia).
  do 16 (destruct k as [|k]; [done|]). lia.
Qed.

Lemma ulid_plain now : plain_id (ulid_like now).
Proof.
  unfold plain_id, ulid_like. rewrite free_of_app. apply andb_true_iff. split; [done|].
  apply hex_plain; [|done].
  unfold wrap_u64. apply Z.mod_pos_bound. lia.
Qed.

(** ** Time ranges *)

Lemma foldl_min_spec l x : (forall t, t ∈ x :: l -> foldl Z.min x l <= t)%Z.
Proof.
  revert x. induction l as [|y l IH]; intros x t; cbn; [by intros ->%list_elem_of_singleton|].
  intros Ht. assert (foldl Z.min (Z.min x y) l <= Z.min x y)%Z by (apply IH; by left).
  apply elem_of_cons in Ht as [->|[->|Ht]%elem_of_cons]; [lia..|]. apply IH. by right.
Qed.

Lemma foldl_max_spec l x : (forall t, t ∈ x :: l -> t <= foldl Z.max x l)%Z.
Proof.
  revert x. induction l as [|y l IH]; intros x t; cbn; [by intros ->%list_elem_of_singleton|].
  intros Ht. assert (Z.max x y <= foldl Z.max (Z.max x y) l)%Z by (apply IH; by left).
  apply elem_of_cons in Ht as [->|[->|Ht]%elem_of_cons]; [lia..|]. apply IH. by right.
Qed.

Lemma range_spec l t : t ∈ l -> (min_ts l <= t <= max_ts l)%Z.
Proof. destruct l; [by intros ?%not_elem_of_nil|]. intros Ht. split; [by apply foldl_min_spec|by apply foldl_max_spec]. Qed.

(** ** The specification

    A list of batches, oldest first, each with its identifier. *)

Abbreviation lib := (list (string * list Event)).

Definition batch_ts (ie : string * list Event) : list Z := ev_ts <$> ie.2.

Definition lib_read (start end_ : Z) (l : lib) : list Event :=
  concat ((fun ie : string * list Event => filter (in_range start end_) (columnar_event <$> ie.2)) <$> l).

Definition batch_expired (now age : Z) (ie : string * list Event) : Prop :=
  (now - max_ts (batch_ts ie) > age)%Z.
#[export] Instance batch_expired_dec now age ie : Decision (batch_expired now age ie).
Proof. unfold batch_expired. apply _. Defined.

Definition lib_retain (now age : Z) (l : lib) : lib := filter (fun ie => ~ batch_expired now age ie) l.

(** The clock and the times of the batches are apart by an [i64]. *)
Definition clock_ok (now : Z) (l : lib) : Prop := Forall (fun ie => in_i64 (now - max_ts (batch_ts ie))) l.

(** No call tears a file. *)
Definition clean (f : fault) : Prop := match f with Bad (Some _) => False | _ => True end.

Section spec.
Context `{Jt : JsonText} `{Jp : JsonParse} `{Ar : Arrow} `{Se : Serde (list SegmentMeta)}.

(** Where the bytes of a segment are. *)
Definition seg_data (w : ColumnarStore) (s : SegmentMeta) : option string :=
  match sm_tier s, archive w with
  | Cold, Some a => oc_objects a !! sm_path s
  | _, _ => files w !! sm_path s
  end.

Definition readable (w : ColumnarStore) (s : SegmentMeta) (es : list Event) : Prop :=
  exists data, seg_data w s = Some data /\ read_parquet_events data = Ok (columnar_event <$> es).

Record describes (w : ColumnarStore) (s : SegmentMeta) (ie : string * list Event) : Prop := {
  de_id : sm_id s = ie.1;
  de_plain : plain_id ie.1;
  de_min : sm_min_ts s = min_ts (batch_ts ie);
  de_max : sm_max_ts s = max_ts (batch_ts ie);
  de_rows : sm_rows s = length ie.2;
  de_place : match sm_tier s with
             | Cold => exists a, archive w = Some a /\ sm_path s = archive_key (oc_prefix a) (sm_id s)
             | _ => sm_path s = segment_path (cold_dir w) (sm_id s)
             end
}.

(** The catalog [segs] holds the library, with the bytes of the batches that
    [need] still asks for. *)
Definition holds (need : string * list Event -> Prop) (w : ColumnarStore) (segs : list SegmentMeta) (l : lib) : Prop :=
  NoDup l.*1 /\ Forall2 (fun s ie => describes w s ie /\ (need ie -> readable w s ie.2)) segs l.

Definition all_batches (ie : string * list Event) : Prop := True.

(** The catalog in memory and the one in the file both hold the library. *)
Definition stored (w : ColumnarStore) (l : lib) : Prop :=
  holds all_batches w (segments w) l /\
  exists segs, open_catalog (cat_file w) = Ok segs /\ holds all_batches w segs l.

Lemma holds_impl need need' w w' segs l :
  (forall s ie, s ∈ segs -> ie ∈ l -> describes w s ie -> (need ie -> readable w s ie.2) ->
     describes w' s ie /\ (need' ie -> readable w' s ie.2)) ->
  holds need w segs l -> holds need' w' segs l.
Proof.
  intros Hi [Hnd H2]. split; [done|]. clear Hnd. induction H2 as [|s ie segs l [Hd Hr] H2 IH]; constructor.
  - apply Hi; [by left..|done|done].
  - apply IH. intros s' ie' Hs Hl. apply Hi; by right.
Qed.

Lemma holds_lookup need w segs l s : holds need w segs l -> s ∈ segs ->
  exists ie, ie ∈ l /\ describes w s ie /\ (need ie -> readable w s ie.2).
Proof.
  intros [_ H2] [i Hi]%list_elem_of_lookup_1. destruct (Forall2_lookup_l _ _ _ _ _ H2 Hi) as (ie & Hie & Hp).
  exists ie. split; [by eapply list_elem_of_lookup_2|done].
Qed.

Lemma holds_ids need w segs l : holds need w segs l -> sm_id <$> segs = l.*1.
Proof.
  intros [_ H2]. induction H2 as [|s ie segs l [Hd _] H2 IH]; [done|]. cbn. by rewrite IH, (de_id _ _ _ Hd).
Qed.

(** Two batches of a library with the same identifier are the same. *)
Lemma lib_unique (l : lib) ie ie' : NoDup l.*1 -> ie ∈ l -> ie' ∈ l -> ie.1 = ie'.1 -> ie = ie'.
Proof.
  intros Hnd [i Hi]%list_elem_of_lookup_1 [j Hj]%list_elem_of_lookup_1 He.
  assert (i = j) as ->; [|congruence].
  eapply (NoDup_lookup l.*1); [done|by rewrite list_lookup_fmap, Hi|by rewrite list_lookup_fmap, Hj, He].
Qed.

(** ** Reads *)

Lemma read_one_ok w s es : readable w s es -> read_one s ([], w) = ([], w, Ok (columnar_event <$> es)).
Proof.
  intros (data & Hd & Hr). unfold read_one, seg_data in *. io.
  destruct (sm_tier s); [| |destruct (archive w) as [a|] eqn:Ea]; io.
  1,2,4: by rewrite Hd; io; rewrite Hr.
  rewrite Ea. io. rewrite Hd. io. by rewrite Hr.
Qed.

Lemma filter_pruned start end_ es :
  ~ (min_ts (ev_ts <$> es) <= end_ /\ start <= max_ts (ev_ts <$> es))%Z ->
  filter (in_range start end_) (columnar_event <$> es) = [].
Proof.
  intros Hp. destruct (filter _ _) as [|e' k] eqn:Ef; [done|].
  assert (e' ∈ filter (in_range start end_) (columnar_event <$> es)) as Hin by (rewrite Ef; by left).
  apply list_elem_of_filter in Hin as [[Hl Hu] (e & -> & He)%list_elem_of_fmap]. destruct Hp.
  cbn in *. pose proof (range_spec (ev_ts <$> es) (ev_ts e)) as Hr.
  destruct Hr as [H1 H2]; [apply list_elem_of_fmap; eauto|]. lia.
Qed.

Lemma read_range_ok w l start end_ : holds all_batches w (segments w) l ->
  read_range start end_ ([], w) = ([], w, Ok (lib_read start end_ l)).
Proof.
  intros [_ H2]. unfold read_range, overlapping, lib_read. io.
  induction H2 as [|s ie segs l [Hd Hr] H2 IH]; [done|].
  rewrite filter_cons, (de_min _ _ _ Hd), (de_max _ _ _ Hd). cbn [fmap list_fmap concat].
  case_decide as Hc.
  - cbn [read_all]. io. rewrite read_one_ok with (es := ie.2) by by apply Hr. by rewrite IH.
  - unfold batch_ts in Hc. by rewrite (filter_pruned start end_ ie.2) by done.
Qed.

(** ** The catalog file *)

Definition failed (fs : list fault) : bool := match fs with Bad _ :: _ => true | _ => false end.

Lemma fs_read_eq p fs w :
  fs_read p (fs, w) = (tail fs, w, if failed fs then Err Io else ok_or (files w !! p) Io).
Proof. by destruct fs as [|[] fs]. Qed.
Lemma fs_remove_eq p fs w :
  fs_remove p (fs, w) = (tail fs, if failed fs then w else set_files (delete p (files w)) w, Ok ()).
Proof. by destruct fs as [|[] fs]. Qed.
Lemma obj_put_eq k d fs w : obj_put k d (fs, w) =
  (tail fs, if failed fs then w else set_objects (<[k := d]>) w, if failed fs then Err Backend else Ok ()).
Proof. by destruct fs as [|[] fs]. Qed.
Lemma obj_delete_eq k fs w : obj_delete k (fs, w) =
  (tail fs, if failed fs then w else set_objects (delete k) w, if failed fs then Err Backend else Ok ()).
Proof. by destruct fs as [|[] fs]. Qed.
Lemma save_eq fs w : Forall clean fs -> save (fs, w) =
  (tail fs, if failed fs then w else set_cat (ser (segments w)) w, if failed fs then Err Io else Ok ()).
Proof. intros Hc. destruct fs as [|[|[t|]] fs]; try done. by apply Forall_cons in Hc as [[] _]. Qed.

Lemma clean_tail fs : Forall clean fs -> Forall clean (tail fs).
Proof. destruct fs; [done|]. by intros [_ ?]%Forall_cons. Qed.

(** A catalog saved in a world that holds the library holds it too. *)
Lemma stored_saved `{!SerdeLaws (list SegmentMeta)} w l :
  holds all_batches w (segments w) l -> stored (set_cat (ser (segments w)) w) l.
Proof.
  intros Hh. assert (holds all_batches (set_cat (ser (segments w)) w) (segments w) l) as Hs.
  { revert Hh. apply holds_impl. intros s ie _ _ Hd Hr. split; [destruct Hd; by constructor|exact Hr]. }
  split; [done|]. exists (segments w). split; [|done]. cbn. by rewrite de_ser.
Qed.

(** ** Frames *)

Definition same_place (w w' : ColumnarStore) : Prop :=
  cold_dir w' = cold_dir w /\ oc_prefix <$> archive w' = oc_prefix <$> archive w.

Lemma same_place_refl w : same_place w w.
Proof. done. Qed.
Lemma same_files f w : same_place w (set_files f w).
Proof. done. Qed.
Lemma same_objects f w : same_place w (set_objects f w).
Proof. split; [done|]. cbn. by destruct (archive w). Qed.
Lemma same_place_trans w1 w2 w3 : same_place w1 w2 -> same_place w2 w3 -> same_place w1 w3.
Proof. unfold same_place. intros [-> ->] [-> ->]. done. Qed.

Lemma describes_frame w w' s ie : same_place w w' -> describes w s ie -> describes w' s ie.
Proof.
  intros [Hc Ha] []. constructor; try done. destruct (sm_tier s); [by rewrite Hc..|].
  destruct de_place0 as (a & Hw & Hp). rewrite Hw in Ha. destruct (archive w') as [a'|]; [|done].
  cbn in Ha. injection Ha as Ha. exists a'. by rewrite Ha.
Qed.

Lemma readable_frame w w' s es : seg_data w' s = seg_data w s -> readable w s es -> readable w' s es.
Proof. unfold readable. by intros ->. Qed.

(** A segment that is not cold lies at its own local path, a cold one in the archive. *)
Lemma local_data w s ie : describes w s ie -> sm_tier s <> Cold ->
  sm_path s = segment_path (cold_dir w) ie.1 /\ seg_data w s = files w !! sm_path s.
Proof. intros [] Ht. unfold seg_data. rewrite <- de_id0. by destruct (sm_tier s). Qed.

Lemma cold_data w s ie : describes w s ie -> sm_tier s = Cold ->
  exists a, archive w = Some a /\ sm_path s = archive_key (oc_prefix a) ie.1 /\
    seg_data w s = oc_objects a !! sm_path s.
Proof.
  intros [] Ht. unfold seg_data. rewrite Ht in *. destruct de_place0 as (a & Ha & Hp). exists a.
  rewrite Ha, <- de_id0. done.
Qed.

(** The catalogs are not part of what [holds] reads. *)
Lemma holds_view need w w' segs l : cold_dir w' = cold_dir w -> files w' = files w -> archive w' = archive w ->
  holds need w segs l -> holds need w' segs l.
Proof.
  intros Hc Hf Ha. apply holds_impl. intros s ie _ _ Hd Hr. split.
  - apply (describes_frame w); [|done]. split; [done|by rewrite Ha].
  - intros Hn. apply (readable_frame w); [|auto]. unfold seg_data. by rewrite Hf, Ha.
Qed.

(** Changing one file of a name no other batch uses. *)
Lemma holds_file need need' w segs l f i :
  (forall p, p <> segment_path (cold_dir w) i -> f !! p = files w !! p) -> plain_id i ->
  (forall ie, ie ∈ l -> need' ie -> need ie) ->
  (forall s ie, s ∈ segs -> ie ∈ l -> sm_id s = i -> sm_tier s <> Cold -> describes w s ie -> ~ need' ie) ->
  holds need w segs l -> holds need' (set_files f w) segs l.
Proof.
  intros Hf Hi Hn Hex. apply holds_impl. intros s ie Hs Hl Hd Hr. split; [by apply (describes_frame w)|].
  intros Hn'. eapply readable_frame; [|apply Hr; auto].
  destruct (decide (sm_tier s = Cold)) as [Ht|Ht].
  - unfold seg_data. rewrite Ht. cbn. destruct (cold_data w s ie Hd Ht) as (a & -> & _). done.
  - destruct (local_data w s ie Hd Ht) as [Hp Hdat]. rewrite Hdat.
    destruct (local_data (set_files f w) s ie) as [_ ->]; [by apply (describes_frame w)|done|]. cbn.
    rewrite Hp. apply Hf. intros He%segment_path_inj; [|apply Hd|done].
    destruct Hd as [Hid]. eapply Hex; eauto; [congruence|by constructor].
Qed.

(** ** Migration *)

(** Archiving the bytes of a batch under its key. *)
Lemma holds_put w a segs l i es data : archive w = Some a -> NoDup l.*1 -> (i, es) ∈ l -> plain_id i ->
  read_parquet_events data = Ok (columnar_event <$> es) ->
  holds all_batches w segs l ->
  holds all_batches (set_objects (<[archive_key (oc_prefix a) i := data]>) w) segs l.
Proof.
  intros Ha Hnd Hin Hi Hr. apply holds_impl. intros s ie Hs Hl Hd Hrd.
  set (w1 := set_objects _ w). assert (describes w1 s ie) as Hd1 by (apply (describes_frame w); [apply same_objects|done]).
  split; [done|]. intros _. destruct (Hrd I) as (data0 & Hd0 & Hr0).
  destruct (decide (sm_tier s = Cold)) as [Ht|Ht].
  - destruct (cold_data w s ie Hd Ht) as (a0 & Ha0 & Hp & Hs0). rewrite Ha in Ha0. injection Ha0 as <-.
    assert (seg_data w1 s = (<[archive_key (oc_prefix a) i := data]> (oc_objects a)) !! sm_path s) as Hs1.
    { unfold seg_data, w1. rewrite Ht. cbn. by rewrite Ha. }
    destruct (decide (ie.1 = i)) as [He|Hne].
    + assert (ie = (i, es)) as -> by by apply (lib_unique l). exists data. split; [|done].
      rewrite Hs1, Hp. apply lookup_insert_eq.
    + exists data0. split; [|done]. rewrite Hs1, lookup_insert_ne; [congruence|].
      rewrite Hp. intros He%archive_key_inj; [congruence|done|apply Hd].
  - exists data0. split; [|done]. destruct (local_data w s ie Hd Ht) as [_ H1].
    destruct (local_data w1 s ie Hd1 Ht) as [_ ->]. cbn. congruence.
Qed.

(** [iter_mut().find()] changes the one segment of that identifier. *)
Definition moved (id : string) (path : string) (s : SegmentMeta) : SegmentMeta :=
  if decide (sm_id s = id)
  then mkSegment (sm_id s) path Cold (sm_min_ts s) (sm_max_ts s) (sm_rows s) (sm_created_ts s) else s.

Lemma relocate_spec id path segs : NoDup (sm_id <$> segs) -> id ∈ sm_id <$> segs ->
  relocate id Cold path segs = Some (moved id path <$> segs).
Proof.
  induction segs as [|s segs IH]; cbn; [by intros _ ?%not_elem_of_nil|].
  intros [Hn Hnd]%NoDup_cons Hin. unfold moved at 1. case_bool_decide as Hb.
  - rewrite decide_True by done. subst. do 2 f_equal. symmetry. rewrite <- (list_fmap_id segs) at 2.
    apply list_fmap_ext. intros j s' Hj. unfold moved. rewrite decide_False; [done|]. intros He. apply Hn.
    rewrite <- He. apply list_elem_of_fmap. exists s'. split; [done|]. by eapply list_elem_of_lookup_2.
  - rewrite decide_False by done. apply elem_of_cons in Hin as [->|Hin]; [done|]. by rewrite IH.
Qed.

Lemma holds_move w a segs l i es data : archive w = Some a -> (i, es) ∈ l ->
  oc_objects a !! archive_key (oc_prefix a) i = Some data ->
  read_parquet_events data = Ok (columnar_event <$> es) ->
  holds all_batches w segs l -> holds all_batches w (moved i (archive_key (oc_prefix a) i) <$> segs) l.
Proof.
  intros Ha Hin Hk Hr [Hnd H2]. split; [done|].
  assert (forall ie, ie ∈ l -> ie.1 = i -> ie = (i, es)) as Hu by (intros; by apply (lib_unique l)).
  clear Hnd Hin. induction H2 as [|s ie segs l [Hd Hrd] H2 IH]; constructor.
  - unfold moved. case_decide as Hi; [|done]. pose proof (Hu ie) as He. rewrite <- (de_id _ _ _ Hd) in He.
    rewrite He in * by (done || by left). destruct Hd. split; [constructor; try done; cbn; exists a; by rewrite Hi|].
    intros _. exists data. unfold seg_data. cbn. by rewrite Ha.
  - apply IH. intros; apply Hu; [by right|done].
Qed.


Lemma moved_elem id path (segs : list SegmentMeta) s : s ∈ moved id path <$> segs ->
  sm_tier s = Cold \/ (s ∈ segs /\ sm_id s <> id).
Proof.
  intros (s0 & -> & Hs)%list_elem_of_fmap. unfold moved. case_decide; [by left|by right].
Qed.

Lemma moved_kept id path (segs : list SegmentMeta) s : s ∈ segs -> sm_id s <> id -> s ∈ moved id path <$> segs.
Proof. intros Hs Hn. apply list_elem_of_fmap. exists s. unfold moved. by rewrite decide_False. Qed.

(** The local file of a batch that is cold in the catalog is not needed. *)
Lemma stored_unlink w l i path : plain_id i -> stored w l ->
  open_catalog (cat_file w) = Ok (segments w) ->
  (forall s, s ∈ segments w -> sm_id s = i -> sm_tier s = Cold) -> path = segment_path (cold_dir w) i ->
  stored (set_files (delete path (files w)) w) l.
Proof.
  intros Hi [Hmem _] Ho Hcold ->.
  assert (holds all_batches (set_files (delete (segment_path (cold_dir w) i) (files w)) w) (segments w) l) as Hh.
  { revert Hmem. apply (holds_file _ _ _ _ _ _ i); try done.
    - intros p Hp. by apply lookup_delete_ne.
    - intros s ie Hs _ He Ht. by destruct (Ht (Hcold s Hs He)). }
  split; [done|]. by exists (segments w).
Qed.

(** One turn of the migration loop, whatever calls fail. *)
Lemma migrate_one_ok `{!SerdeLaws (list SegmentMeta)} a fs w l seg :
  archive w = Some a -> Forall clean fs -> stored w l -> seg ∈ segments w -> sm_tier seg = Warm ->
  exists fs' w' r, migrate_one (oc_prefix a) seg (fs, w) = (fs', w', r) /\ Forall clean fs' /\
    stored w' l /\ same_place w w' /\
    (forall s, s ∈ segments w -> sm_id s <> sm_id seg -> s ∈ segments w') /\
    (fs = [] -> fs' = [] /\ r = Ok () /\
       forall s, s ∈ segments w' -> sm_tier s = Warm -> s ∈ segments w /\ sm_id s <> sm_id seg).
Proof.
  intros Ha Hc Hst Hseg Hw. pose proof Hst as (Hmem & segs & Hopen & Hdisk).
  destruct (holds_lookup _ _ _ _ _ Hmem Hseg) as ([i es] & Hl & Hd & Hrd). destruct (Hrd I) as (data & Hdat & Hread).
  destruct (local_data w seg (i, es) Hd) as [Hp Hloc]; [by rewrite Hw|]. rewrite Hloc in Hdat.
  pose proof (de_id _ _ _ Hd) as Hid. pose proof (de_plain _ _ _ Hd) as Hpl. cbn in Hid, Hpl, Hp.
  unfold migrate_one. iob. rewrite fs_read_eq, Hdat. pose proof (clean_tail fs Hc) as Hc1.
  destruct (failed fs) eqn:F1; iob.
  { do 3 eexists. split_and!; [done..|]. by intros ->. }
  rewrite Hid, obj_put_eq. set (w1 := set_objects _ w). pose proof (clean_tail _ Hc1) as Hc2.
  destruct (failed (tail fs)) eqn:F2; iob.
  { do 3 eexists. split_and!; [done..|]. by intros ->. }
  assert (archive w1 = Some (mkArchive (oc_prefix a) (<[archive_key (oc_prefix a) i := data]> (oc_objects a)))) as Ha1.
  { unfold w1. cbn. by rewrite Ha. }
  assert (forall segs, holds all_batches w segs l -> holds all_batches w1 segs l) as Hput.
  { intros segs'. by apply (holds_put w a segs' l i es data Ha (proj1 Hmem)). }
  assert (forall segs, holds all_batches w segs l ->
    holds all_batches w1 (moved i (archive_key (oc_prefix a) i) <$> segs) l) as Hmove.
  { intros segs' Hh. apply (holds_move w1 _ segs' l i es data Ha1 Hl); [apply lookup_insert_eq|done|]. by apply Hput. }
  assert (same_place w w1) as Hsame by apply same_objects.
  unfold migrate. iob. rewrite relocate_spec; cycle 1.
  { change (segments w1) with (segments w). rewrite (holds_ids _ _ _ _ Hmem). apply Hmem. }
  { rewrite <- Hid. apply list_elem_of_fmap. eauto. }
  change (segments w1) with (segments w). set (segs2 := moved i _ <$> segments w).
  iob. rewrite save_eq by done. set (w2 := set_segments segs2 w1). pose proof (clean_tail _ Hc2) as Hc3.
  assert (holds all_batches w2 segs2 l) as Hm2 by (apply (holds_view _ w1); [done..|by apply Hmove]).
  destruct (failed (tail (tail fs))) eqn:F3; iob.
  { do 3 eexists. split; [done|]. split; [done|]. split; [|split; [done|split; [|by intros ->]]].
    - split; [done|]. exists segs. split; [done|]. apply (holds_view _ w1); [done..|by apply Hput].
    - intros s Hs Hn. by apply moved_kept. }
  rewrite fs_remove_eq. set (w3 := set_cat _ w2). set (b := failed (tail (tail (tail fs)))). assert (stored w3 l) as H3 by by apply stored_saved.
  assert (open_catalog (cat_file w3) = Ok segs2) as Ho3 by (cbn; by rewrite de_ser).
  do 3 eexists. split; [done|]. split; [by apply clean_tail|]. split; [|split; [|split]].
  - destruct b; [done|]. apply (stored_unlink w3 l i); [done..| |].
    + intros s [?|[_ Hn]]%moved_elem Hs; done.
    + done.
  - destruct b; exact Hsame.
  - intros s Hs Hn. assert (s ∈ segs2) by by apply moved_kept. by destruct b.
  - intros ->. split_and!; [done..|]. cbn. intros s [Ht|?]%moved_elem Hs; [congruence|done].
Qed.

Lemma migrate_all_ok `{!SerdeLaws (list SegmentMeta)} rest : forall a fs w l,
  archive w = Some a -> Forall clean fs -> stored w l -> NoDup (sm_id <$> rest) ->
  (forall s, s ∈ rest -> s ∈ segments w /\ sm_tier s = Warm) ->
  exists fs' w' r, migrate_all (oc_prefix a) rest (fs, w) = (fs', w', r) /\ Forall clean fs' /\
    stored w' l /\ same_place w w' /\
    (fs = [] -> fs' = [] /\ r = Ok (length rest) /\
       forall s, s ∈ segments w' -> sm_tier s = Warm -> s ∈ segments w /\ sm_id s ∉ sm_id <$> rest).
Proof.
  induction rest as [|seg rest IH]; intros a fs w l Ha Hc Hst Hnd Hin; cbn [migrate_all]; iob.
  { do 3 eexists. split; [done|]. split; [done|]. split; [done|]. split; [done|]. intros ->.
    split_and!; [done..|]. intros s Hs _. split; [done|]. by intros ?%not_elem_of_nil. }
  apply NoDup_cons in Hnd as [Hn Hnd]. destruct (Hin seg) as [Hseg Hw]; [by left|].
  destruct (migrate_one_ok a fs w l seg Ha Hc Hst Hseg Hw) as (fs1 & w1 & r1 & -> & Hc1 & Hst1 & Hp1 & Hk1 & Hcl1).
  destruct r1 as [[]|e]; cycle 1.
  { do 3 eexists. split; [done|]. split; [done|]. split; [done|]. split; [done|]. intros Hfs. by destruct (Hcl1 Hfs) as (_ & ? & _). }
  assert (exists a1, archive w1 = Some a1 /\ oc_prefix a1 = oc_prefix a) as (a1 & Ha1 & Hpre).
  { destruct Hp1 as [_ Hp1]. rewrite Ha in Hp1. destruct (archive w1) as [a1|]; [|done]. injection Hp1. eauto. }
  destruct (IH a1 fs1 w1 l Ha1 Hc1 Hst1 Hnd) as (fs2 & w2 & r2 & Hm & Hc2 & Hst2 & Hp2 & Hcl2).
  { intros s Hs. destruct (Hin s) as [Hsw Hsw']; [by right|]. split; [|done]. apply Hk1; [done|].
    intros He. apply Hn. rewrite <- He. apply list_elem_of_fmap. eauto. }
  rewrite Hpre in Hm. rewrite Hm. pose proof (same_place_trans _ _ _ Hp1 Hp2).
  destruct r2 as [n|e]; do 3 eexists; (split; [done|]); (split; [done|]); (split; [done|]); (split; [done|]).
  - intros Hfs. destruct (Hcl1 Hfs) as (Hf1 & _ & Hs1). destruct (Hcl2 Hf1) as (Hf2 & [= ->] & Hs2).
    split_and!; [done..|]. intros s Hs Ht. destruct (Hs2 s Hs Ht) as [Hs' Hnot].
    destruct (Hs1 s Hs' Ht) as [Hs'' Hne]. split; [done|]. cbn. by intros [?|?]%elem_of_cons.
  - intros Hfs. destruct (Hcl1 Hfs) as (Hf1 & _). by destruct (Hcl2 Hf1) as (_ & ? & _).
Qed.

Lemma NoDup_ids_filter {P : SegmentMeta -> Prop} `{forall s, Decision (P s)} (segs : list SegmentMeta) :
  NoDup (sm_id <$> segs) -> NoDup (sm_id <$> filter P segs).
Proof. intros Hnd. eapply sublist_NoDup; [done|]. apply fmap_sublist, sublist_filter. Qed.

Lemma migrate_warm_ok `{!SerdeLaws (list SegmentMeta)} fs w l now age :
  Forall clean fs -> stored w l ->
  exists fs' w' r, migrate_warm now age (fs, w) = (fs', w', r) /\ Forall clean fs' /\
    stored w' l /\ same_place w w' /\
    (fs = [] -> fs' = [] /\
       r = Ok (match archive w with
               | Some _ => length (filter (fun s => is_aged now age s = true) (segments w))
               | None => 0
               end) /\
       (is_Some (archive w) -> forall s, s ∈ segments w' -> is_aged now age s = false)).
Proof.
  intros Hc Hst. unfold migrate_warm. iob. destruct (archive w) as [a|] eqn:Ha; cycle 1.
  { do 3 eexists. split; [done|]. split; [done|]. split; [done|]. split; [done|]. intros ->. by split_and!; [..|intros []]. }
  assert (NoDup (sm_id <$> segments w)) as Hnd by (rewrite (holds_ids _ _ _ _ (proj1 Hst)); apply Hst).
  destruct (migrate_all_ok (filter (fun s => is_aged now age s = true) (segments w)) a fs w l)
    as (fs' & w' & r & He & Hc' & Hst' & Hp & Hcl); [done..|by apply NoDup_ids_filter| |].
  { intros s [Hag Hs]%list_elem_of_filter. split; [done|]. unfold is_aged in Hag.
    by apply andb_true_iff in Hag as [?%bool_decide_eq_true _]. }
  exists fs', w', r. rewrite He. split; [done|]. split; [done|]. split; [done|]. split; [done|].
  intros Hfs. destruct (Hcl Hfs) as (? & -> & Hs). split_and!; [done..|]. intros _ s Hin.
  destruct (is_aged now age s) eqn:E; [|done]. destruct (Hs s Hin) as [Hin' Hnot].
  { unfold is_aged in E. by apply andb_true_iff in E as [?%bool_decide_eq_true _]. }
  destruct Hnot. apply list_elem_of_fmap. exists s. split; [done|]. by apply list_elem_of_filter.
Qed.

(** ** Retention *)

Definition object (w : ColumnarStore) (key : string) : option string := a ← archive w; oc_objects a !! key.

(** Only files and objects of the given names are lost. *)
Record forgets (names : list string) (w w' : ColumnarStore) : Prop := {
  fg_place : same_place w w';
  fg_segments : segments w' = segments w;
  fg_cat : cat_file w' = cat_file w;
  fg_files p : p ∉ names -> files w' !! p = files w !! p;
  fg_objects p : p ∉ names -> object w' p = object w p
}.

Lemma forgets_refl names w : forgets names w w.
Proof. by constructor. Qed.

Lemma forgets_trans n1 n2 n w1 w2 w3 :
  forgets n1 w1 w2 -> forgets n2 w2 w3 -> n1 ⊆ n -> n2 ⊆ n -> forgets n w1 w3.
Proof.
  intros [] [] H1 H2. constructor; [by eapply same_place_trans|congruence|congruence| |].
  - intros p Hp. rewrite fg_files1, fg_files0; [done|..]; intros ?; apply Hp; [by apply H1|by apply H2].
  - intros p Hp. rewrite fg_objects1, fg_objects0; [done|..]; intros ?; apply Hp; [by apply H1|by apply H2].
Qed.

Lemma delete_objects_ok segs : forall fs w, Forall clean fs ->
  exists fs' w' r, delete_objects segs (fs, w) = (fs', w', r) /\ Forall clean fs' /\
    forgets (sm_path <$> segs) w w' /\ (fs = [] -> fs' = [] /\ r = Ok ()).
Proof.
  induction segs as [|s segs IH]; intros fs w Hc; cbn [delete_objects]; iob.
  { do 3 eexists. split; [done|]. split; [done|]. split; [apply forgets_refl|]. by intros ->. }
  rewrite obj_delete_eq. apply clean_tail in Hc as Hc1. destruct (failed fs) eqn:F.
  { do 3 eexists. split; [done|]. split; [done|]. split; [apply forgets_refl|]. by intros ->. }
  destruct (IH (tail fs) (set_objects (delete (sm_path s)) w) Hc1) as (fs' & w' & r & He & Hc' & Hf & Hcl).
  exists fs', w', r. split; [exact He|]. split; [done|]. split.
  - apply (forgets_trans [sm_path s] (sm_path <$> segs) _ _ (set_objects (delete (sm_path s)) w)); [|done|set_solver..].
    constructor; try done; [apply same_objects|]. intros p Hp. unfold object. cbn.
    destruct (archive w); [|done]. cbn. apply lookup_delete_ne. set_solver.
  - intros ->. by apply Hcl.
Qed.

Lemma remove_files_ok segs : forall fs w, Forall clean fs ->
  exists fs' w', remove_files segs (fs, w) = (fs', w', Ok ()) /\ Forall clean fs' /\
    forgets (sm_path <$> segs) w w' /\ (fs = [] -> fs' = []).
Proof.
  induction segs as [|s segs IH]; intros fs w Hc; cbn [remove_files]; iob.
  { do 2 eexists. split; [done|]. split; [done|]. split; [apply forgets_refl|done]. }
  rewrite fs_remove_eq. apply clean_tail in Hc as Hc1. set (w1 := if failed fs then w else _).
  destruct (IH (tail fs) w1 Hc1) as (fs' & w' & He & Hc' & Hf & Hcl).
  exists fs', w'. split; [exact He|]. split; [done|]. split.
  - apply (forgets_trans [sm_path s] (sm_path <$> segs) _ _ w1); [|done|set_solver..].
    unfold w1. destruct (failed fs); [apply forgets_refl|]. constructor; try done.
    intros p Hp. cbn. apply lookup_delete_ne. set_solver.
  - intros ->. by apply Hcl.
Qed.

Lemma path_base w s ie : describes w s ie -> base (sm_path s) = ie.1 +:+ ".parquet".
Proof.
  intros Hd. destruct (decide (sm_tier s = Cold)) as [Ht|Ht].
  - destruct (cold_data w s ie Hd Ht) as (a & _ & -> & _). apply base_archive_key, Hd.
  - destruct (local_data w s ie Hd Ht) as [-> _]. apply base_segment_path, Hd.
Qed.

Lemma seg_data_object w s ie : describes w s ie ->
  seg_data w s = if decide (sm_tier s = Cold) then object w (sm_path s) else files w !! sm_path s.
Proof.
  intros Hd. case_decide as Ht; [|by apply (local_data w s ie)].
  destruct (cold_data w s ie Hd Ht) as (a & Ha & _ & ->). unfold object. by rewrite Ha.
Qed.

(** Losing names of no needed batch keeps the library. *)
Lemma holds_forgets need need' names w w' segs l : forgets names w w' ->
  (forall s ie, s ∈ segs -> ie ∈ l -> describes w s ie -> need' ie -> need ie /\ sm_path s ∉ names) ->
  holds need w segs l -> holds need' w' segs l.
Proof.
  intros [Hp _ _ Hf Ho] Hn. apply holds_impl. intros s ie Hs Hl Hd Hr.
  assert (describes w' s ie) as Hd' by by apply (describes_frame w). split; [done|]. intros Hn'.
  destruct (Hn s ie Hs Hl Hd Hn') as [Hneed Hnames]. apply (readable_frame w); [|auto].
  rewrite (seg_data_object w s ie), (seg_data_object w' s ie) by done. case_decide; auto.
Qed.

Definition kept (now age : Z) (ie : string * list Event) : Prop := ~ batch_expired now age ie.

Lemma describes_expired w s ie now age : describes w s ie -> in_i64 (now - max_ts (batch_ts ie)) ->
  is_expired now age s = true <-> batch_expired now age ie.
Proof.
  intros Hd Hi. unfold is_expired, batch_expired. rewrite (de_max _ _ _ Hd), wrap_i64_id by done.
  rewrite Z.gtb_lt. lia.
Qed.

(** The catalog after a retention run, and the library after it. *)
Lemma holds_retain need w segs l now age : clock_ok now l -> holds need w segs l ->
  holds need w (filter (fun s => is_expired now age s = false) segs) (lib_retain now age l).
Proof.
  intros Hclk [Hnd H2]. split.
  - eapply sublist_NoDup; [done|]. apply fmap_sublist, sublist_filter.
  - clear Hnd. unfold lib_retain. induction H2 as [|s ie segs l [Hd Hr] H2 IH]; [done|].
    apply Forall_cons in Hclk as [Hc Hclk]. rewrite !filter_cons.
    pose proof (describes_expired w s ie now age Hd Hc) as He.
    destruct (is_expired now age s).
    + rewrite !decide_False by naive_solver. by apply IH.
    + rewrite !decide_True by naive_solver. constructor; [done|by apply IH].
Qed.

Lemma filter_ext_in {A} (P Q : A -> Prop) `{forall x, Decision (P x)} `{forall x, Decision (Q x)} (l : list A) :
  (forall x, x ∈ l -> P x <-> Q x) -> filter P l = filter Q l.
Proof.
  induction l as [|x l IH]; intros He; [done|]. rewrite !filter_cons, IH by (intros; apply He; by right).
  assert (P x <-> Q x) by (apply He; by left). by repeat case_decide; try tauto.
Qed.

Lemma retain_ids segs now age : NoDup (sm_id <$> segs) ->
  filter (fun s => sm_id s ∈ sm_id <$> expired segs now age) segs = expired segs now age /\
  filter (fun s => sm_id s ∉ sm_id <$> expired segs now age) segs =
    filter (fun s => is_expired now age s = false) segs.
Proof.
  intros Hnd. assert (forall s, s ∈ segs -> sm_id s ∈ sm_id <$> expired segs now age <-> is_expired now age s = true) as Hs.
  { intros s Hs. split.
    - intros (s' & He & [Hx Hs']%list_elem_of_filter)%list_elem_of_fmap.
      assert (s = s') as ->; [|done]. apply list_elem_of_lookup_1 in Hs as [i Hi], Hs' as [j Hj].
      assert (i = j) as ->; [|congruence]. eapply (NoDup_lookup (sm_id <$> segs)); [done|..].
      + by rewrite list_lookup_fmap, Hi.
      + by rewrite list_lookup_fmap, Hj, He.
    - intros Hx. apply list_elem_of_fmap. exists s. split; [done|]. by apply list_elem_of_filter. }
  split; apply filter_ext_in; intros s Hin; rewrite Hs by done; [done|]. by destruct (is_expired now age s).
Qed.

(** Deleting the archived objects of the expired batches. *)
Lemma delete_archived_ok old fs w : Forall clean fs ->
  exists fs1 w1 r1, match archive w with
      | Some _ => delete_objects (filter (fun s => sm_tier s = Cold) old)
      | None => fun s => (s, Ok ()) end (fs, w) = (fs1, w1, r1) /\ Forall clean fs1 /\
    forgets (sm_path <$> old) w w1 /\ (old = [] -> w1 = w) /\ (fs = [] -> fs1 = [] /\ r1 = Ok ()).
Proof.
  intros Hc. destruct (archive w).
  - destruct (delete_objects_ok (filter (fun s => sm_tier s = Cold) old) fs w Hc) as (fs1 & w1 & r1 & He & Hc1 & Hf1 & Hcl1).
    exists fs1, w1, r1. split; [done|]. split; [done|]. split; [|split; [|done]].
    + eapply (forgets_trans (sm_path <$> filter (fun s => sm_tier s = Cold) old) []); [done|apply forgets_refl| |set_solver].
      intros p (s & -> & [_ Hs]%list_elem_of_filter)%list_elem_of_fmap. apply list_elem_of_fmap. eauto.
    + intros Ho. rewrite Ho in He. cbn in He. by injection He.
  - do 3 eexists. split; [done|]. split; [done|]. split; [apply forgets_refl|]. done.
Qed.

(** The batch of a retained segment is at none of the expired paths. *)
Lemma retained_apart segs l now age : clock_ok now l ->
  forall s ie w0, holds (kept now age) w0 segs l -> s ∈ segs -> ie ∈ l -> describes w0 s ie ->
    kept now age ie -> kept now age ie /\ sm_path s ∉ sm_path <$> expired segs now age.
Proof.
  intros Hclk s ie w0 Hh0 Hs Hl Hd Hk. split; [done|]. intros (s' & Hp & [Hx Hs']%list_elem_of_filter)%list_elem_of_fmap.
  destruct (holds_lookup _ _ _ _ _ Hh0 Hs') as (ie' & Hl' & Hd' & _). apply (f_equal base) in Hp.
  rewrite (path_base _ _ _ Hd), (path_base _ _ _ Hd') in Hp. apply app_inj_r in Hp.
  assert (ie = ie') as <- by (apply (lib_unique l); [apply Hh0|done..]). apply Hk.
  eapply describes_expired; [exact Hd'| |done]. unfold clock_ok in Hclk. rewrite Forall_forall in Hclk. by apply Hclk.
Qed.

(** One retention run, from a catalog whose expired batches may already be
    damaged. *)
Lemma enforce_retention_ok `{!SerdeLaws (list SegmentMeta)} fs w l now age :
  Forall clean fs -> clock_ok now l -> holds (kept now age) w (segments w) l ->
  exists fs' w' r, enforce_retention now age (fs, w) = (fs', w', r) /\ Forall clean fs' /\ same_place w w' /\
    (holds (kept now age) w' (segments w') l \/ holds all_batches w' (segments w') (lib_retain now age l)) /\
    (fs = [] -> fs' = [] /\ r = Ok (length (expired (segments w) now age)) /\
       holds all_batches w' (segments w') (lib_retain now age l) /\
       (cat_file w' = Text (ser (segments w')) \/
        (cat_file w' = cat_file w /\ expired (segments w) now age = [] /\
         forall need segs l, holds need w segs l -> holds need w' segs l))).
Proof.
  intros Hc Hclk Hh. assert (NoDup (sm_id <$> segments w)) as Hnd by (rewrite (holds_ids _ _ _ _ Hh); apply Hh).
  unfold enforce_retention. iob. set (old := expired (segments w) now age).
  destruct (delete_archived_ok old fs w Hc) as (fs1 & w1 & r1 & -> & Hc1 & Hf1 & Hold1 & Hcl1).
  pose proof (retained_apart (segments w) l now age Hclk) as Hsafe. fold old in Hsafe.
  assert (holds (kept now age) w1 (segments w) l) as Hh1.
  { eapply holds_forgets; [exact Hf1| |exact Hh]. intros; by eapply (Hsafe _ _ w). }
  destruct r1 as [[]|e]; cycle 1.
  { do 3 eexists. split; [done|]. split; [done|]. split; [apply Hf1|]. split; [left; by rewrite (fg_segments _ _ _ Hf1)|].
    intros Hfs. by destruct (Hcl1 Hfs) as [_ ?]. }
  unfold remove. iob. rewrite (fg_segments _ _ _ Hf1). destruct (retain_ids (segments w) now age Hnd) as [Hgone Hrest].
  fold old in Hgone, Hrest. rewrite Hgone, Hrest.
  destruct (remove_files_ok old fs1 w1 Hc1) as (fs2 & w2 & -> & Hc2 & Hf2 & Hcl2). iob.
  assert (forgets (sm_path <$> old) w w2) as Hf12 by by eapply forgets_trans.
  set (segs' := filter (fun s => is_expired now age s = false) (segments w)). set (w3 := set_segments segs' w2).
  assert (holds all_batches w3 segs' (lib_retain now age l)) as H3.
  { apply (holds_view _ w2); [done..|].
    assert (holds (kept now age) w2 segs' (lib_retain now age l)) as Hk.
    { apply holds_retain; [done|]. eapply holds_forgets; [exact Hf12| |exact Hh]. intros; by eapply (Hsafe _ _ w). }
    revert Hk. apply holds_impl. intros s ie _ [Hk _]%list_elem_of_filter Hd Hr. split; auto. }
  assert (same_place w w3) as Hsame by (destruct (fg_place _ _ _ Hf12); done).
  destruct old as [|s0 old'] eqn:Eold; cbn [is_nil]; iob.
  - do 3 eexists. split; [done|]. split; [done|]. split; [done|]. split; [by right|].
    intros Hfs. destruct (Hcl1 Hfs) as [Hfs1 _]. split; [by apply Hcl2|]. split; [done|]. split; [done|]. right.
    split; [apply Hf12|]. split; [done|]. intros need ss l' Hl'. apply (holds_view _ w2); [done..|].
    eapply holds_forgets; [exact Hf12| |exact Hl']. intros; split; [done|]. by intros ?%not_elem_of_nil.
  - rewrite save_eq by done. pose proof (clean_tail _ Hc2).
    assert (forall t, holds all_batches (set_cat t w3) segs' (lib_retain now age l)) as Hcat.
    { intros t. by apply (holds_view _ w3). }
    destruct (failed fs2) eqn:F; do 3 eexists; (split; [done|]); (split; [done|]); (split; [done|]);
      (split; [right; try done; apply Hcat|]).
    + intros Hfs. destruct (Hcl1 Hfs) as [Hfs1 _]. rewrite (Hcl2 Hfs1) in F. done.
    + intros Hfs. destruct (Hcl1 Hfs) as [Hfs1 _]. rewrite (Hcl2 Hfs1). split; [done|]. split; [done|].
      split; [apply Hcat|]. by left.
Qed.

Lemma expired_count need w segs l now age : clock_ok now l -> holds need w segs l ->
  length (expired segs now age) = length (filter (batch_expired now age) l).
Proof.
  intros Hclk [_ H2]. unfold expired. induction H2 as [|s ie segs l [Hd _] H2 IH]; [done|].
  apply Forall_cons in Hclk as [Hc Hclk]. rewrite !filter_cons.
  pose proof (describes_expired w s ie now age Hd Hc) as He. destruct (decide (batch_expired now age ie)).
  - rewrite decide_True by tauto. cbn. by rewrite IH.
  - rewrite decide_False by tauto. by apply IH.
Qed.

Lemma retain_all now age (l : lib) : length (filter (batch_expired now age) l) = 0 -> lib_retain now age l = l.
Proof.
  unfold lib_retain. induction l as [|ie l IH]; [done|]. rewrite !filter_cons.
  destruct (decide (batch_expired now age ie)); cbn; [done|]. intros Hn. rewrite decide_True by done. by rewrite IH.
Qed.

Lemma retain_twice now age (l : lib) : lib_retain now age (lib_retain now age l) = lib_retain now age l.
Proof. unfold lib_retain. rewrite list_filter_filter. apply filter_ext_in. naive_solver. Qed.

Lemma clock_retain now age l : clock_ok now l -> clock_ok now (lib_retain now age l).
Proof. unfold clock_ok, lib_retain. rewrite !Forall_forall. intros Hc ie [_ Hie]%list_elem_of_filter. auto. Qed.

Lemma holds_weaken (need need' : string * list Event -> Prop) w segs l : (forall ie, need' ie -> need ie) ->
  holds need w segs l -> holds need' w segs l.
Proof. intros Hn. apply holds_impl. auto. Qed.

Lemma retention_clean `{!SerdeLaws (list SegmentMeta)} w l now age : clock_ok now l -> stored w l ->
  exists w', enforce_retention now age ([], w) =
      ([], w', Ok (length (filter (batch_expired now age) l))) /\ stored w' (lib_retain now age l).
Proof.
  intros Hclk [Hm (segs & Ho & Hdisk)].
  destruct (enforce_retention_ok [] w l now age) as (fs' & w' & r & He & _ & _ & _ & Hcl); [done|done| |].
  { revert Hm. by apply holds_weaken. }
  destruct (Hcl eq_refl) as (-> & -> & Hm' & Hcat). rewrite (expired_count _ _ _ _ _ age Hclk Hm) in He.
  exists w'. split; [done|]. split; [done|]. destruct Hcat as [-> | (-> & Hnone & Hview)].
  - exists (segments w'). split; [|done]. cbn. by rewrite de_ser.
  - exists segs. split; [done|]. rewrite retain_all; [by apply Hview|].
    by rewrite <- (expired_count _ _ _ _ _ age Hclk Hm), Hnone.
Qed.

(** ** Writing *)

Lemma holds_snoc w segs l s ie : holds all_batches w segs l -> describes w s ie -> readable w s ie.2 ->
  ie.1 ∉ l.*1 -> holds all_batches w (segs ++ [s]) (l ++ [ie]).
Proof.
  intros [Hnd H2] Hd Hr Hn. split.
  - rewrite fmap_app. apply NoDup_app. split; [done|]. split; [|apply NoDup_singleton].
    intros x Hx ->%list_elem_of_singleton. done.
  - apply Forall2_app; [done|]. constructor; [by split|constructor].
Qed.

Lemma write_clean `{!SerdeLaws (list SegmentMeta)} `{!JsonLaws} `{!ArrowLaws} w l now_id now es :
  stored w l -> es <> [] -> Forall exact_event es -> ulid_like now_id ∉ l.*1 ->
  exists w' meta, write_segment now_id now es ([], w) = ([], w', Ok (Some meta)) /\
    same_place w w' /\ sm_id meta = ulid_like now_id /\ stored w' (l ++ [(ulid_like now_id, es)]).
Proof.
  intros [Hm _] Hne Hex Hfresh. unfold write_segment. destruct es as [|e es']; [done|]. cbn [is_nil].
  set (es := e :: es') in *. destruct (segment_read es Hex) as (data & Hb & Hread). iob. rewrite Hb. iob.
  set (id := ulid_like now_id) in *. set (path := segment_path (cold_dir w) id).
  pose proof (ulid_plain now_id : plain_id id) as Hpl. set (w1 := put_file path data w).
  set (meta := segment_meta _ _ _ _ _ _).
  assert (holds all_batches w1 (segments w) l) as H1.
  { revert Hm. apply (holds_file _ _ _ _ _ _ id); [|done|done|].
    - intros p Hp. by apply lookup_insert_ne.
    - intros s ie Hs Hl Hid _ Hd _. apply Hfresh. rewrite <- Hid, (de_id _ _ _ Hd). apply list_elem_of_fmap. eauto. }
  assert (holds all_batches w1 (segments w ++ [meta]) (l ++ [(id, es)])) as H2.
  { apply holds_snoc; [done| | |done].
    - by constructor.
    - exists data. split; [|done]. unfold seg_data. cbn. apply lookup_insert_eq. }
  set (w2 := set_segments (segments w ++ [meta]) w1).
  exists (set_cat (ser (segments w2)) w2), meta. split; [done|]. split; [done|]. split; [done|].
  apply stored_saved. by apply (holds_view _ w1).
Qed.
(** Opening the store again reads the same library. *)
Lemma reopen_stored w l : stored w l -> exists w', reopen (archive w) w = Ok w' /\ stored w' l.
Proof.
  intros [_ (segs & Ho & Hd)]. unfold reopen. rewrite Ho. eexists. split; [done|].
  assert (holds all_batches (mkColumnar (cold_dir w) segs (cat_file w) (files w) (archive w)) segs l) as Hh.
  { by apply (holds_view _ w). }
  split; [done|]. by exists segs.
Qed.
End spec.

(** ** The properties *)

Section claims.
Context `{Jl : JsonLaws} `{Al : ArrowLaws} `{Sl : SerdeLaws (list SegmentMeta)}.


End claims.

(** ** A concrete store *)

#[export] Instance Tier_countable : Countable Tier.
Proof.
  refine (inj_countable' (fun t => match t with Hot => 0 | Warm => 1 | Cold => 2 end)
    (fun n => match n with 0 => Hot | 1 => Warm | _ => Cold end) _). by intros [].
Defined.
#[export] Instance SegmentMeta_countable : Countable SegmentMeta.
Proof.
  refine (inj_countable' (fun s => (sm_id s, sm_path s, sm_tier s, sm_min_ts s, sm_max_ts s, sm_rows s, sm_created_ts s))
    (fun '(i, p, t, a, b, r, c) => mkSegment i p t a b r c) _). by intros [].
Defined.

#[local] Existing Instances demo_json_text demo_json_parse demo_json_laws demo_arrow demo_arrow_laws.
#[local] Instance demo_serde : Serde (list SegmentMeta) := countable_serde _.
#[local] Instance demo_serde_laws : SerdeLaws (list SegmentMeta) := countable_serde_laws _.

Definition empty_store : ColumnarStore := mkColumnar "cold" [] Missing ∅ (Some (mkArchive "segments" ∅)).
Definition demo_batch : list Event := [demo_event "a" 100 "web"; demo_event "b" 200 "db"].
Definition demo_store : ColumnarStore := (write_segment 5 6 demo_batch ([], empty_store)).1.2.
Definition demo_lib : lib := [(ulid_like 5, demo_batch)].

Lemma empty_stored : stored empty_store [].
Proof.
  assert (forall need, holds need empty_store [] []) by (split; constructor).
  split; [done|]. by exists [].
Qed.

Lemma demo_stored : stored demo_store demo_lib.
Proof.
  destruct (write_clean empty_store [] 5 6 demo_batch empty_stored) as (w & m & He & _ & _ & Hst); [done| | |].
  - repeat constructor; apply demo_event_exact.
  - by intros ?%not_elem_of_nil.
  - unfold demo_store. by rewrite He.
Qed.

Lemma demo_clock : clock_ok 1000 demo_lib.
Proof. repeat constructor; done. Qed.


