(* ===== verification/Text.v ===== *)
(** * Further operations on strings

    [str::split_once], [splitn], [find], [trim_end_matches] and the lemmas the
    query language and the ingest codecs share. *)

From stdpp Require Import strings list.
From S2P Require Import Prelude.

(** ** Searching *)

(** [str::split_once]: around the first occurrence of the pattern. *)
Fixpoint split_once (p s : string) : option (string * string) :=
  match strip_prefix p s with
  | Some r => Some (EmptyString, r)
  | None =>
      match s with
      | EmptyString => None
      | String c s' => '(a, b) ← split_once p s'; Some (String c a, b)
      end
  end.

(** [str::splitn(n, c)]: at most [n] pieces. *)
Fixpoint splitn (n : nat) (c : ascii) (s : string) : list string :=
  match n with
  | O => []
  | S O => [s]
  | S n' => match split_once (String c EmptyString) s with
            | Some (a, b) => a :: splitn n' c b
            | None => [s]
            end
  end.

(** The text before the first white-space character, and the text from it;
    [None] when there is none ([str::find(char::is_whitespace)]). *)
Fixpoint split_at_ws (s : string) : option (string * string) :=
  match s with
  | EmptyString => None
  | String c r =>
      match ws_len s with
      | O => '(a, b) ← split_at_ws r; Some (String c a, b)
      | S _ => Some (EmptyString, s)
      end
  end.

(** A text without its first [n] bytes. *)
Fixpoint drop_bytes (n : nat) (s : string) : string :=
  match n, s with S n, String _ s => drop_bytes n s | _, _ => s end.

(** [str::lines]: pieces between line feeds, a carriage return at their end
    removed; a line feed at the end of the text starts no line. *)
Definition strip_cr (line : string) : string := default line (strip_suffix (String "013" "") line).
Definition lines (s : string) : list string :=
  let ls := split_on "010" s in
  strip_cr <$> match last ls with Some EmptyString => removelast ls | _ => ls end.

(** The text before the first byte that fails [f], and the text from it. *)
Fixpoint span (f : ascii -> bool) (s : string) : string * string :=
  match s with
  | String c r => if f c then let '(a, b) := span f r in (String c a, b) else (EmptyString, s)
  | EmptyString => (EmptyString, EmptyString)
  end.

(** [str::trim_end_matches] of one ASCII character. *)
Fixpoint trim_end_matches (c : ascii) (s : string) : string :=
  match s with
  | EmptyString => EmptyString
  | String d r =>
      if all_bytes (fun x => bool_decide (x = c)) s then EmptyString
      else String d (trim_end_matches c r)
  end.

Definition is_ascii_alphabetic (c : ascii) : bool :=
  let n := N_of_ascii (ascii_lower c) in (97 <=? n)%N && (n <=? 122)%N.
Definition is_ascii_alphanumeric (c : ascii) : bool := is_ascii_alphabetic c || is_ascii_digit c.
(** [char::to_digit(16)] of a byte. *)
Definition hex_digit_value (c : ascii) : option Z :=
  let n := Z.of_N (N_of_ascii c) in
  if ((48 <=? n) && (n <=? 57))%Z then Some (n - 48)%Z
  else if ((97 <=? n) && (n <=? 102))%Z then Some (n - 87)%Z
  else if ((65 <=? n) && (n <=? 70))%Z then Some (n - 55)%Z
  else None.

(** [u8::is_ascii_whitespace]: space, tab, line feed, form feed, carriage return. *)
Definition is_ascii_whitespace (c : ascii) : bool :=
  let n := N_of_ascii c in
  (n =? 32)%N || (n =? 9)%N || (n =? 10)%N || (n =? 12)%N || (n =? 13)%N.

(** [str::replace] with a non-empty pattern: the occurrences from the left,
    without overlap; [skip] bytes of an occurrence are still to pass. *)
Fixpoint replace_from (p r s : string) (skip : nat) : string :=
  match s with
  | EmptyString => EmptyString
  | String c t =>
      match skip with
      | S k => replace_from p r t k
      | O => if starts_with p s then r +:+ replace_from p r t (String.length p - 1)
             else String c (replace_from p r t 0)
      end
  end.
Definition str_replace (p r s : string) : string := replace_from p r s 0.

(** ** Lemmas *)

Lemma split_once_Some p s a b : split_once p s = Some (a, b) -> s = a +:+ p +:+ b.
Proof.
  revert a b. induction s as [|c s IH]; intros a b; cbn [split_once].
  - destruct (strip_prefix p "") as [r|] eqn:E; [|done]. apply strip_prefix_Some in E. intros [= <- <-]. done.
  - destruct (strip_prefix p (String c s)) as [r|] eqn:E.
    + apply strip_prefix_Some in E. intros [= <- <-]. done.
    + destruct (split_once p s) as [[a' b']|]; [|done]. cbn. intros [= <- <-].
      rewrite string_app_cons. f_equal. by apply IH.
Qed.

Lemma split_once_None p s : split_once p s = None <-> contains p s = false.
Proof.
  induction s as [|c s IH]; cbn [split_once contains]; unfold starts_with;
    (destruct (strip_prefix p _) as [r|] eqn:E; [by rewrite bool_decide_true by eauto|]);
    rewrite bool_decide_false by (by intros [? ?]); [done|].
  cbn [orb]. rewrite <- IH. destruct (split_once p s) as [[a b]|]; done.
Qed.

Lemma split_once_char c w r :
  free_of c w = true -> split_once (String c EmptyString) (w +:+ String c r) = Some (w, r).
Proof.
  induction w as [|d w IH]; unfold free_of.
  - intros _. rewrite string_app_nil_l. cbn [split_once strip_prefix]. by rewrite bool_decide_true.
  - cbn [all_bytes]. rewrite andb_true_iff, negb_true_iff. intros [Hd Hw].
    rewrite string_app_cons. cbn [split_once strip_prefix]. rewrite Hd. by rewrite IH.
Qed.

Lemma split_once_free c w : free_of c w = true -> split_once (String c EmptyString) w = None.
Proof. intros Hw. apply split_once_None. by rewrite all_bytes_ascii_contains, Hw. Qed.

Lemma splitn_char n c w r :
  free_of c w = true -> splitn (S (S n)) c (w +:+ String c r) = w :: splitn (S n) c r.
Proof.
  intros Hw. change (splitn (S (S n)) c (w +:+ String c r)) with
    (match split_once (String c EmptyString) (w +:+ String c r) with
     | Some (a, b) => a :: splitn (S n) c b | None => [w +:+ String c r] end).
  by rewrite split_once_char.
Qed.

Lemma drop_bytes_app a b : drop_bytes (String.length a) (a +:+ b) = b.
Proof. induction a as [|c a IH]; [by destruct b|]. rewrite string_app_cons. exact IH. Qed.

Lemma drop_bytes_0 s : drop_bytes 0 s = s.
Proof. by destruct s. Qed.

Lemma drop_bytes_part n s : exists a, s = a +:+ drop_bytes n s.
Proof.
  revert n. induction s as [|c s IH]; intros [|n]; cbn [drop_bytes]; try (exists ""%string; done).
  destruct (IH n) as [a Ha]. exists (String c a). by rewrite string_app_cons, <- Ha.
Qed.

Lemma span_app f a b s : span f s = (a, b) -> s = a +:+ b /\ all_bytes f a = true.
Proof.
  revert a b. induction s as [|c s IH]; intros a b; cbn; [by intros [= <- <-]|].
  destruct (f c) eqn:Ef; [|by intros [= <- <-]].
  destruct (span f s) as [a' b'] eqn:Es. intros [= <- <-]. destruct (IH _ _ eq_refl) as [-> Ha].
  split; [done|]. cbn. by rewrite Ef, Ha.
Qed.

Lemma trim_start_sub s : exists a, s = a +:+ trim_start s.
Proof.
  unfold trim_start. generalize 0 as k. induction s as [|c s IH]; intros k; [by exists EmptyString|].
  cbn [trim_start_aux]. destruct k as [|k].
  - destruct (ws_len (String c s)) as [|k]; [by exists EmptyString|].
    destruct (IH k) as [a Ha]. exists (String c a). by rewrite string_app_cons, <- Ha.
  - destruct (IH k) as [a Ha]. exists (String c a). by rewrite string_app_cons, <- Ha.
Qed.

Lemma trim_end_sub s : exists b, s = trim_end s +:+ b.
Proof.
  induction s as [|c s [b IH]]; [by exists EmptyString|]. cbn [trim_end].
  destruct (all_ws _ _); [by exists (String c s)|]. exists b. by rewrite string_app_cons, <- IH.
Qed.

(** ** White space at the ends of ASCII text *)

(** The first byte of a pattern marks its first occurrence. *)
Lemma split_once_mark c p w r :
  free_of c w = true -> split_once (String c p) (w +:+ String c p +:+ r) = Some (w, r).
Proof.
  induction w as [|d w IH]; unfold free_of.
  - intros _. rewrite string_app_nil_l. rewrite string_app_cons. cbn [split_once].
    assert (strip_prefix (String c p) (String c (p +:+ r)) = Some r) as -> by (by apply strip_prefix_Some).
    done.
  - cbn [all_bytes]. rewrite andb_true_iff, negb_true_iff. intros [Hd Hw].
    rewrite string_app_cons. cbn [split_once strip_prefix]. rewrite Hd. by rewrite IH.
Qed.

Lemma word_byte_ascii c : word_byte c = true -> is_ascii c = true.
Proof. unfold word_byte. rewrite !andb_true_iff. tauto. Qed.

Lemma ws_len_ascii c r : is_ascii c = true -> ws_len (String c r) <= 1.
Proof. unfold is_ascii, ws_len. intros ->. by destruct (_ || _); [|]; lia. Qed.

Lemma trim_start_word c r : word_byte c = true -> trim_start (String c r) = String c r.
Proof. intros Hc. unfold trim_start. cbn [trim_start_aux]. by rewrite ws_len_word_byte. Qed.

Lemma all_ws_word x d t : all_bytes is_ascii x = true -> word_byte d = true ->
  all_ws (x +:+ String d t) 0 = false.
Proof.
  intros Hx Hd. induction x as [|c x IH].
  - rewrite string_app_nil_l. cbn [all_ws]. by rewrite ws_len_word_byte.
  - cbn [all_bytes] in Hx. apply andb_true_iff in Hx as [Hc Hx]. rewrite string_app_cons. cbn [all_ws].
    pose proof (ws_len_ascii c (x +:+ String d t) Hc). destruct (ws_len _) as [|[|]]; [done|by apply IH|lia].
Qed.

Lemma trim_end_word x d t : all_bytes is_ascii x = true -> word_byte d = true -> all_ws t 0 = true ->
  trim_end (x +:+ String d t) = x +:+ String d EmptyString.
Proof.
  intros Hx Hd Ht. induction x as [|c x IH].
  - rewrite !string_app_nil_l. cbn [trim_end]. assert (all_ws (String d t) 0 = false) as -> by by apply (all_ws_word EmptyString).
    f_equal. by destruct t; cbn [trim_end]; [|rewrite Ht].
  - cbn [all_bytes] in Hx. apply andb_true_iff in Hx as [Hc Hx]. rewrite !string_app_cons. cbn [trim_end].
    assert (all_ws (String c (x +:+ String d t)) 0 = false) as ->.
    { apply (all_ws_word (String c x)); [cbn; by rewrite Hc|done]. }
    by rewrite IH.
Qed.

(** ASCII text that begins and ends with a word byte. *)
Definition edged (s : string) : Prop :=
  all_bytes is_ascii s = true /\ (exists c r, s = String c r /\ word_byte c = true) /\
  exists x d, s = x +:+ String d EmptyString /\ word_byte d = true.

Lemma edged_trim_start s : edged s -> trim_start s = s.
Proof. intros (_ & (c & r & -> & Hc) & _). by apply trim_start_word. Qed.

Lemma edged_trim s : edged s -> trim s = s.
Proof.
  intros He. unfold trim. rewrite edged_trim_start by done. destruct He as (Ha & _ & x & d & -> & Hd).
  rewrite all_bytes_app in Ha. apply andb_true_iff in Ha as [Ha _]. by apply trim_end_word.
Qed.

Lemma trim_space_l s : trim (String " " s) = trim s.
Proof. done. Qed.

Lemma edged_trim_space_r s : edged s -> trim (s +:+ " ") = s.
Proof.
  intros (Ha & (c & r & Hs & Hc) & x & d & Hx & Hd). unfold trim.
  rewrite Hs, string_app_cons, trim_start_word, <- string_app_cons, <- Hs by done.
  rewrite Hx, all_bytes_app in Ha. apply andb_true_iff in Ha as [Ha _].
  rewrite Hx, <- string_app_assoc. by apply trim_end_word.
Qed.

Lemma word_edged w : w <> EmptyString -> all_bytes word_byte w = true -> edged w.
Proof.
  intros Hne Hw. split; [eapply all_bytes_impl; [|exact Hw]; apply word_byte_ascii|]. split.
  - destruct w as [|c r]; [done|]. cbn in Hw. apply andb_true_iff in Hw as [Hc _]. eauto.
  - induction w as [|c w IH]; [done|]. cbn in Hw. apply andb_true_iff in Hw as [Hc Hw].
    destruct w as [|c' w]; [by exists EmptyString, c|]. destruct IH as (x & d & Hx & Hd); [done..|].
    exists (String c x), d. by rewrite Hx.
Qed.

Lemma edged_app a m b : edged a -> all_bytes is_ascii m = true -> edged b -> edged (a +:+ m +:+ b).
Proof.
  intros (Ha & (c & r & Hac & Hc) & _) Hm (Hb & _ & x & d & Hbd & Hd). split.
  - by rewrite !all_bytes_app, Ha, Hm, Hb.
  - split.
    + exists c, (r +:+ m +:+ b). by rewrite Hac, string_app_cons.
    + exists (a +:+ m +:+ x), d. by rewrite Hbd, <- !string_app_assoc.
Qed.

Lemma split_at_ws_word w r : all_bytes word_byte w = true ->
  split_at_ws (w +:+ String " " r) = Some (w, String " " r).
Proof.
  induction w as [|c w IH]; [done|]. cbn [all_bytes]. rewrite andb_true_iff. intros [Hc Hw].
  rewrite string_app_cons. cbn [split_at_ws]. rewrite ws_len_word_byte by done. by rewrite IH.
Qed.

Lemma split_whitespace_word w : w <> EmptyString -> all_bytes word_byte w = true -> split_whitespace w = [w].
Proof.
  intros Hne Hw. unfold split_whitespace. rewrite <- (string_app_nil_r w) at 1. rewrite split_ws_word by done.
  cbn. by destruct w.
Qed.

Lemma split_whitespace_join ws : Forall (fun w => w <> EmptyString /\ all_bytes word_byte w = true) ws ->
  split_whitespace (join " " ws) = ws.
Proof.
  induction 1 as [|w ws [Hne Hw] Hws IH]; [done|]. destruct ws as [|w' ws]; [by apply split_whitespace_word|].
  change (join " " (w :: w' :: ws)) with (w +:+ String " " (join " " (w' :: ws))).
  rewrite split_whitespace_space, split_whitespace_word, IH by done. done.
Qed.

Lemma join_edged ws : ws <> [] -> Forall edged ws -> edged (join " " ws).
Proof.
  intros Hne H. induction H as [|w ws Hw Hws IH]; [done|]. destruct ws as [|w' ws]; [done|].
  apply (edged_app w " "); [done|done|]. by apply IH.
Qed.

(** The same with the separator as a one-byte string. *)
Lemma split_once_sep c w r : free_of c w = true ->
  split_once (String c EmptyString) (w +:+ String c EmptyString +:+ r) = Some (w, r).
Proof. apply split_once_char. Qed.

Lemma splitn_sep n c w r : free_of c w = true ->
  splitn (S (S n)) c (w +:+ String c EmptyString +:+ r) = w :: splitn (S n) c r.
Proof. apply splitn_char. Qed.

(** ** Words of any UTF-8 text *)

(** No white-space character starts inside the word. *)
Fixpoint no_ws (w : string) : bool :=
  match w with EmptyString => true | String _ r => (ws_len w =? 0) && no_ws r end.
Definition is_word (w : string) : Prop := w <> EmptyString /\ no_ws w = true.

Lemma ws_len_prefix a b : ws_len (a +:+ b) = 0 -> ws_len a = 0.
Proof.
  destruct a as [|c [|d [|e a]]]; rewrite ?string_app_cons, ?string_app_nil_l; unfold ws_len; [done|..];
    repeat case_match; congruence.
Qed.

(** Before [s], no white space starts inside [cur]. *)
Fixpoint quiet (cur s : string) : bool :=
  match cur with EmptyString => true | String _ r => (ws_len (cur +:+ s) =? 0) && quiet r s end.

Lemma quiet_no_ws cur s : quiet cur s = true -> no_ws cur = true.
Proof.
  induction cur as [|c cur IH]; cbn [quiet no_ws]; [done|]. rewrite !andb_true_iff, !Nat.eqb_eq.
  intros [Hc Hq]. split; [by eapply ws_len_prefix|auto].
Qed.

Lemma quiet_snoc cur c s : quiet cur (String c s) = true -> ws_len (String c s) = 0 -> quiet (cur +:+ String c "") s = true.
Proof.
  intros Hq Hc. induction cur as [|d cur IH]; rewrite ?string_app_nil_l, ?string_app_cons; cbn [quiet] in *.
  - rewrite string_app_cons, string_app_nil_l, Hc. done.
  - apply andb_true_iff in Hq as [Hd Hq]. rewrite (IH Hq), andb_true_r. rewrite string_app_cons in *.
    by rewrite <- string_app_assoc, string_app_cons, string_app_nil_l.
Qed.

Lemma split_ws_words s : forall skip cur, (skip = 0 /\ quiet cur s = true \/ cur = EmptyString) ->
  Forall is_word (split_ws s skip cur).
Proof.
  assert (forall cur r, quiet cur r = true -> Forall is_word (flush_word cur)) as Hflush.
  { intros [|c cur] r Hq; [constructor|]. repeat constructor; [done|by eapply quiet_no_ws]. }
  induction s as [|c s IH]; intros skip cur Hc; cbn [split_ws].
  { destruct Hc as [[_ Hq]|Hc]; [by eapply Hflush|subst; constructor]. }
  assert (forall k, Forall is_word (split_ws s k "")) as Hrest by (intros; apply IH; by right).
  destruct skip as [|k]; [|destruct Hc as [[? _]|Hc]; [done|subst; apply Hrest]].
  assert (quiet cur (String c s) = true) as Hq by (destruct Hc as [[_ ?]| ->]; done).
  destruct (ws_len (String c s)) as [|k] eqn:Hw.
  - apply IH. left. split; [done|by apply quiet_snoc].
  - apply Forall_app. split; [by eapply Hflush|apply Hrest].
Qed.

Lemma split_whitespace_words s : Forall is_word (split_whitespace s).
Proof. apply split_ws_words. by right. Qed.

Lemma split_whitespace_one w : is_word w -> split_whitespace w = [w].
Proof.
  intros [Hne Hw]. assert (forall cur, split_ws w 0 cur = flush_word (cur +:+ w)) as H.
  { clear Hne. induction w as [|c w IH]; intros cur; cbn [split_ws]; [by rewrite string_app_nil_r|].
    cbn [no_ws] in Hw. apply andb_true_iff in Hw as [->%Nat.eqb_eq Hw]. rewrite IH by done.
    by rewrite <- string_app_assoc, string_app_cons, string_app_nil_l. }
  unfold split_whitespace. rewrite H. by destruct w.
Qed.

(** Words joined by spaces split into themselves. *)
Lemma split_whitespace_join_words ws : Forall is_word ws -> split_whitespace (join " " ws) = ws.
Proof.
  induction 1 as [|w ws Hw Hws IH]; [done|]. destruct ws as [|v ws]; [by apply split_whitespace_one|].
  change (join " " (w :: v :: ws)) with (w +:+ String " " (join " " (v :: ws))).
  by rewrite split_whitespace_space, IH, split_whitespace_one.
Qed.
