(* ===== verification/Bus.v ===== *)
(** * [sigil-cluster/src/transport.rs]: the buses

    The in-process bus with its bounded broadcast channels, and the bus over
    TCP: the queue and the writer task of each peer, connections that fail to
    open or break in the middle of a frame, and the frames read from peers.
    The framing itself is [Cluster.Transport].  What a connection carries is
    its bytes; connections are read each by its own task. *)

From stdpp Require Import strings list sorting.
From S2P Require Import Prelude Text Utf8 Cluster.
Import Cluster.Transport.

Local Open Scope string_scope.

Abbreviation frame := (string * string)%type.

(** ** The in-process bus *)

(** A receiver of a topic: what it has not received yet, and how many messages
    it has lost since it was last told. *)
Record Receiver : Set := mkReceiver { rx_topic : string; rx_queue : list string; rx_missed : nat }.
(** The receivers in the order in which they subscribed; the sender of a topic
    with no receiver has no effect. *)
Record InProcBus : Set := mkInProc { bus_capacity : nat; bus_receivers : list Receiver }.

Definition InProcBus_new : InProcBus := mkInProc 1024 [].

(** A broadcast channel keeps the last [capacity] messages for a receiver. *)
Definition offer (capacity : nat) (payload : string) (rx : Receiver) : Receiver :=
  let q := (rx_queue rx ++ [payload])%list in
  if (capacity <? length q)%nat then mkReceiver (rx_topic rx) (tail q) (S (rx_missed rx)) else mkReceiver (rx_topic rx) q (rx_missed rx).

Definition publish (f : frame) (bus : InProcBus) : InProcBus :=
  mkInProc (bus_capacity bus)
    ((fun rx => if bool_decide (rx_topic rx = f.1) then offer (bus_capacity bus) f.2 rx else rx) <$> bus_receivers bus).

Definition subscribe (topic : string) (bus : InProcBus) : InProcBus :=
  mkInProc (bus_capacity bus) (bus_receivers bus ++ [mkReceiver topic [] 0]).

(** What a receiver gets: a message, the number of those it lost, or nothing
    yet. *)
Inductive received : Set := Message (payload : string) | Lagged (n : nat) | Pending.

Definition receive (rx : Receiver) : Receiver * received :=
  match rx_missed rx, rx_queue rx with
  | S n, q => (mkReceiver (rx_topic rx) q 0, Lagged (S n))
  | O, payload :: q => (mkReceiver (rx_topic rx) q 0, Message payload)
  | O, [] => (rx, Pending)
  end.

Definition bus_recv (r : nat) (bus : InProcBus) : InProcBus * received :=
  match bus_receivers bus !! r with
  | None => (bus, Pending)
  | Some rx => let '(rx, m) := receive rx in (mkInProc (bus_capacity bus) (<[r := rx]> (bus_receivers bus)), m)
  end.

(** ** The bus over TCP *)

(** The writer task of a peer: its queue, the bytes written to the connections
    given up, oldest first, and to the open one. *)
Record Peer : Set := mkPeer { p_queue : list frame; p_closed : list string; p_conn : option string }.
Record TcpBus : Set := mkTcp { bus_local : InProcBus; bus_peers : list Peer }.

Definition PEER_QUEUE : nat := Z.to_nat 1024.

Definition TcpBus_new (peers : nat) : TcpBus := mkTcp InProcBus_new (replicate peers (mkPeer [] [] None)).

(** A full queue drops the frame. *)
Definition try_send (f : frame) (p : Peer) : Peer :=
  if (length (p_queue p) <? PEER_QUEUE)%nat then mkPeer (p_queue p ++ [f]) (p_closed p) (p_conn p) else p.

Definition tcp_publish (f : frame) (b : TcpBus) : TcpBus := mkTcp (publish f (bus_local b)) (try_send f <$> bus_peers b).

(** How the network treats one frame: whether a connection can be opened, and
    after how many bytes the write breaks off, if it does. *)
Record link_io : Set := mkIo { connects : bool; breaks : option nat }.

(** One turn of [peer_task]. *)
Definition peer_work (io : link_io) (p : Peer) : Peer :=
  match p_queue p with
  | [] => p
  | f :: q =>
      match (match p_conn p with Some w => Some w | None => if connects io then Some "" else None end) with
      | None => mkPeer q (p_closed p) None
      | Some written =>
          match breaks io with
          | None => mkPeer q (p_closed p) (Some (written +:+ write_frame f.1 f.2))
          | Some k => mkPeer q (p_closed p ++ [written +:+ String.substring 0 k (write_frame f.1 f.2)]) None
          end
      end
  end.

(** What happens at a node: it publishes, a writer task works, a reader task
    publishes a frame of a peer, and tasks of the node subscribe and
    receive. *)
Inductive bus_event : Set :=
  | Publish (f : frame) | Work (peer : nat) (io : link_io) | Inbound (f : frame) | Subscribe (topic : string) | Receive (r : nat).

Definition set_local (l : InProcBus) (b : TcpBus) : TcpBus := mkTcp l (bus_peers b).

Definition bus_step (b : TcpBus) (e : bus_event) : TcpBus * list (nat * received) :=
  match e with
  | Publish f => (tcp_publish f b, [])
  | Work i io => (mkTcp (bus_local b) (alter (peer_work io) i (bus_peers b)), [])
  | Inbound f => (set_local (publish f (bus_local b)) b, [])
  | Subscribe topic => (set_local (subscribe topic (bus_local b)) b, [])
  | Receive r => let '(l, m) := bus_recv r (bus_local b) in (set_local l b, [(r, m)])
  end.

Fixpoint bus_run (b : TcpBus) (evs : list bus_event) : TcpBus * list (nat * received) :=
  match evs with
  | [] => (b, [])
  | e :: evs => let '(b, out) := bus_step b e in let '(b, rest) := bus_run b evs in (b, out ++ rest)%list
  end.

(** The buses a configuration can name. *)
Definition build_transport (kind : TransportKind) : result InProcBus :=
  match kind with Inproc => Ok InProcBus_new | Tcp => Err Config | Redpanda | Nats => Err Other end.

(** ** What a run says and hears *)

Definition published (evs : list bus_event) : list frame := omap (fun e => match e with Publish f => Some f | _ => None end) evs.
Definition arrivals (evs : list bus_event) : list frame := omap (fun e => match e with Inbound f => Some f | _ => None end) evs.
(** The frames the local topics carry. *)
Definition heard (evs : list bus_event) : list frame :=
  omap (fun e => match e with Publish f | Inbound f => Some f | _ => None end) evs.
Definition on_topic (topic : string) (fs : list frame) : list string := (filter (fun f => f.1 = topic) fs).*2.
(** What receiver [r] got. *)
Definition messages (r : nat) (out : list (nat * received)) : list string :=
  omap (fun m => match m.2 with Message p => if bool_decide (m.1 = r) then Some p else None | _ => None end) out.
Definition lags (r : nat) (out : list (nat * received)) : Prop := exists n, (r, Lagged n) ∈ out.

Definition connections (p : Peer) : list string := (p_closed p ++ option_list (p_conn p))%list.

(** No loss on the way to peer [i]: its queue has room, its connection opens
    and no write breaks. *)
Definition smooth_event (i : nat) (b : TcpBus) (e : bus_event) : bool :=
  match e with
  | Publish _ => match bus_peers b !! i with Some p => (length (p_queue p) <? PEER_QUEUE)%nat | None => true end
  | Work j io => negb (bool_decide (j = i)) || (connects io && bool_decide (breaks io = None))
  | _ => true
  end.
Fixpoint smooth (i : nat) (b : TcpBus) (evs : list bus_event) : bool :=
  match evs with [] => true | e :: evs => smooth_event i b e && smooth i (bus_step b e).1 evs end.

(** The tasks of several connections, interleaved. *)
Inductive interleaving {A} : list (list A) -> list A -> Prop :=
  | Interleaving_nil ls : Forall (fun l => l = []) ls -> interleaving ls []
  | Interleaving_cons ls i x xs l : ls !! i = Some (x :: xs) -> interleaving (<[i := xs]> ls) l -> interleaving ls (x :: l).

(** ** Lemmas: receivers *)

Lemma on_topic_app t a b : on_topic t (a ++ b) = (on_topic t a ++ on_topic t b)%list.
Proof. unfold on_topic. by rewrite filter_app, fmap_app. Qed.

Lemma on_topic_sublist t a b : a `sublist_of` b -> on_topic t a `sublist_of` on_topic t b.
Proof.
  unfold on_topic. induction 1 as [|x a b _ IH|x a b _ IH]; [done| |]; rewrite ?filter_cons.
  - destruct (decide (x.1 = t)); [by apply sublist_skip|done].
  - destruct (decide (x.1 = t)); [by apply sublist_cons|done].
Qed.

Lemma on_topic_perm t a b : a ≡ₚ b -> on_topic t a ≡ₚ on_topic t b.
Proof. intros H. unfold on_topic. by rewrite H. Qed.

Lemma messages_app r a b : messages r (a ++ b) = (messages r a ++ messages r b)%list.
Proof. apply omap_app. Qed.

(** One event, for a receiver that exists: what it got and still has is part of
    what it had and what its topic carried, all of it unless it lost some. *)
Lemma receiver_step b e r rx : bus_receivers (bus_local b) !! r = Some rx ->
  exists rx', bus_receivers (bus_local (bus_step b e).1) !! r = Some rx' /\ rx_topic rx' = rx_topic rx /\
    (messages r (bus_step b e).2 ++ rx_queue rx')%list `sublist_of` (rx_queue rx ++ on_topic (rx_topic rx) (heard [e]))%list /\
    (~ lags r (bus_step b e).2 -> rx_missed rx' = 0 -> rx_missed rx = 0 /\
       (messages r (bus_step b e).2 ++ rx_queue rx' = rx_queue rx ++ on_topic (rx_topic rx) (heard [e]))%list).
Proof.
  intros Hr.
  assert (forall f, heard [e] = [f] -> (bus_step b e).2 = [] -> bus_local (bus_step b e).1 = publish f (bus_local b) ->
    exists rx', bus_receivers (bus_local (bus_step b e).1) !! r = Some rx' /\ rx_topic rx' = rx_topic rx /\
      (rx_queue rx' `sublist_of` rx_queue rx ++ on_topic (rx_topic rx) [f])%list /\
      (rx_missed rx' = 0 -> rx_missed rx = 0 /\ rx_queue rx' = rx_queue rx ++ on_topic (rx_topic rx) [f])%list) as Hpub.
  { intros f _ _ ->. cbn [publish bus_receivers]. rewrite list_lookup_fmap, Hr. eexists. split; [reflexivity|].
    unfold on_topic. rewrite filter_cons, filter_nil. case_bool_decide as Ht.
    - rewrite decide_True by done. unfold offer. cbn [fmap list_fmap snd].
      destruct (Nat.ltb _ _) eqn:Hc; cbn [rx_queue rx_missed rx_topic]; [|done].
      split; [done|]. split; [|done]. destruct (rx_queue rx ++ [f.2])%list; [done|]. by apply sublist_cons.
    - rewrite decide_False by done. cbn. rewrite app_nil_r. done. }
  destruct e as [f|i io|f|topic|q]; cbn [bus_step] in *.
  - destruct (Hpub f eq_refl eq_refl eq_refl) as (rx' & H1 & H2 & H3 & H4). exists rx'. by split_and!.
  - exists rx. cbn. rewrite app_nil_r. done.
  - destruct (Hpub f eq_refl eq_refl eq_refl) as (rx' & H1 & H2 & H3 & H4). exists rx'. by split_and!.
  - exists rx. cbn. rewrite app_nil_r. split; [|done]. by apply lookup_app_l_Some.
  - unfold bus_recv. cbn [heard omap list_omap on_topic filter]. unfold on_topic. rewrite filter_nil. cbn [fmap list_fmap]. rewrite app_nil_r.
    destruct (bus_receivers (bus_local b) !! q) as [rx0|] eqn:Hq; cbn [fst snd set_local bus_local].
    + destruct (receive rx0) as [rx1 m] eqn:Hrec. cbn [fst snd set_local bus_local bus_receivers messages omap list_omap].
      destruct (decide (q = r)) as [->|Hne].
      * rewrite Hr in Hq. injection Hq as <-. exists rx1. rewrite list_lookup_insert_eq by (by eapply lookup_lt_Some).
        unfold receive in Hrec. destruct (rx_missed rx) as [|n] eqn:Hm; [destruct (rx_queue rx) as [|p l] eqn:Hl|]; injection Hrec as <- <-; cbn.
        -- rewrite Hl. done.
        -- rewrite bool_decide_true by done. done.
        -- split_and!; try done. intros Hlag. exfalso. apply Hlag. exists (S n). by left.
      * exists rx. rewrite list_lookup_insert_ne by done. split; [done|]. split; [done|].
        assert ((match m with Message p => if bool_decide (q = r) then Some p else None | _ => None end) = None) as Hnone.
        { destruct m; [by rewrite bool_decide_false|done..]. }
        rewrite Hnone. done.
    + exists rx. done.
Qed.

Lemma heard_cons e evs : heard (e :: evs) = (heard [e] ++ heard evs)%list.
Proof. by destruct e. Qed.

Lemma receiver_run b evs r rx : bus_receivers (bus_local b) !! r = Some rx ->
  exists rx', bus_receivers (bus_local (bus_run b evs).1) !! r = Some rx' /\ rx_topic rx' = rx_topic rx /\
    (messages r (bus_run b evs).2 ++ rx_queue rx')%list `sublist_of` (rx_queue rx ++ on_topic (rx_topic rx) (heard evs))%list /\
    (~ lags r (bus_run b evs).2 -> rx_missed rx' = 0 -> rx_missed rx = 0 /\
       (messages r (bus_run b evs).2 ++ rx_queue rx' = rx_queue rx ++ on_topic (rx_topic rx) (heard evs))%list).
Proof.
  revert b rx. induction evs as [|e evs IH]; intros b rx Hr.
  { exists rx. cbn. rewrite app_nil_r. done. }
  destruct (receiver_step b e r rx Hr) as (rx1 & H1 & Ht1 & Hs1 & He1). cbn [bus_run].
  destruct (bus_step b e) as [b1 out]. cbn [fst snd] in *. destruct (IH b1 rx1 H1) as (rx2 & H2 & Ht2 & Hs2 & He2).
  destruct (bus_run b1 evs) as [b2 rest]. cbn [fst snd] in *. exists rx2. split; [done|]. split; [congruence|].
  rewrite messages_app, heard_cons, on_topic_app, <- (app_assoc (messages r out)), (app_assoc (rx_queue rx)). rewrite Ht1 in Hs2, He2. split.
  - etrans; [apply sublist_app; [reflexivity|exact Hs2]|]. rewrite app_assoc. by apply sublist_app.
  - intros Hl Hm. assert (~ lags r out /\ ~ lags r rest) as [Hl1 Hl2].
    { split; intros [n Hn]; apply Hl; exists n; apply elem_of_app; tauto. }
    destruct (He2 Hl2 Hm) as [Hm1 Hq2]. destruct (He1 Hl1 Hm1) as [Hm0 Hq1]. split; [done|].
    by rewrite Hq2, (app_assoc (messages r out)), Hq1.
Qed.

(** ** Lemmas: the link to a peer *)

(** A connection carries frames: its bytes are a beginning of them written
    out. *)
Definition carries (fs : list frame) (bytes : string) : Prop := exists u, bytes +:+ u = write_frames fs.

Lemma write_frames_app a b : write_frames (a ++ b) = write_frames a +:+ write_frames b.
Proof.
  induction a as [|f a IH]; [done|]. change (write_frames ((f :: a) ++ b)) with (write_frame f.1 f.2 +:+ write_frames (a ++ b)).
  by rewrite IH, string_app_assoc.
Qed.

Lemma substring_start k s : exists u, String.substring 0 k s +:+ u = s.
Proof.
  revert k. induction s as [|c s IH]; intros [|k]; cbn; try by eexists. destruct (IH k) as [u Hu]. exists u. by rewrite string_app_cons, Hu.
Qed.

(** What a reader takes from a beginning of frames is the first of them. *)
Lemma carries_read fs bytes cut : Forall frame_ok fs -> carries fs bytes -> (exists v, cut +:+ v = bytes) ->
  (read_frames cut).1 `prefix_of` fs.
Proof.
  intros Hok [u Hu] [v Hv]. rewrite <- Hv, <- string_app_assoc in Hu. revert Hu. generalize (v +:+ u). clear v u Hv. intros u Hu.
  revert cut Hu. induction Hok as [|f fs Hf Hfs IH]; intros cut Hu.
  { destruct cut; [by exists []|done]. }
  change (write_frames (f :: fs)) with (write_frame f.1 f.2 +:+ write_frames fs) in Hu.
  destruct (decide (String.length (write_frame f.1 f.2) <= String.length cut)) as [Hl|Hl].
  - destruct (string_app_split _ _ _ _ Hu Hl) as (cut' & -> & Hc). rewrite read_frames_cons by done.
    specialize (IH cut' Hc). destruct (read_frames cut'). by apply prefix_cons.
  - symmetry in Hu. destruct (string_app_split _ _ _ _ Hu) as (w & Hw & _); [lia|].
    pose proof (read_write_frames [] cut w f) as Hr. cbn [write_frames foldr] in Hr. rewrite string_app_nil_l in Hr.
    rewrite Hr; [apply prefix_nil|done..|]. intros ->. rewrite string_app_nil_r in Hw. rewrite Hw in Hl. lia.
Qed.

Lemma carries_all fs : Forall frame_ok fs -> (read_frames (write_frames fs)).1 = fs.
Proof.
  induction 1 as [|f fs Hf _ IH]; [done|]. change (write_frames (f :: fs)) with (write_frame f.1 f.2 +:+ write_frames fs).
  rewrite read_frames_cons by done. destruct (read_frames (write_frames fs)). cbn in *. by rewrite IH.
Qed.

(** A peer that was given the frames [said]: its connections carry some of
    them, in order, and its queue has the next ones. *)
Record link_inv (said : list frame) (p : Peer) (fss : list (list frame)) (open : list frame) : Prop := {
  li_closed : Forall2 carries fss (p_closed p);
  li_open : match p_conn p with Some w => w = write_frames open | None => open = [] end;
  li_order : (concat fss ++ open ++ p_queue p)%list `sublist_of` said
}.
(** Nothing was lost. *)
Definition whole (said : list frame) (p : Peer) : Prop :=
  p_closed p = [] /\ (exists fs, default "" (p_conn p) = write_frames fs /\ (fs ++ p_queue p)%list = said).

Lemma try_send_inv said p f fss open : link_inv said p fss open -> link_inv (said ++ [f]) (try_send f p) fss open.
Proof.
  intros [Hc Ho Hs]. unfold try_send. destruct (Nat.ltb _ _); (split; [exact Hc|exact Ho|]); cbn [p_queue].
  - rewrite !app_assoc. rewrite app_assoc in Hs. by apply sublist_app.
  - by apply sublist_inserts_r.
Qed.

Lemma peer_work_inv said p io fss open : link_inv said p fss open -> exists fss' open', link_inv said (peer_work io p) fss' open'.
Proof.
  intros [Hc Ho Hs]. unfold peer_work. destruct (p_queue p) as [|f q] eqn:Hq; [exists fss, open; split; by rewrite ?Hq|].
  assert ((concat fss ++ open ++ q)%list `sublist_of` said) as Hdrop.
  { etrans; [|exact Hs]. do 2 (apply sublist_app; [done|]). by apply sublist_cons. }
  assert (forall written (Hw : written = write_frames open), exists fss' open', link_inv said
    (match breaks io with
     | None => mkPeer q (p_closed p) (Some (written +:+ write_frame f.1 f.2))
     | Some k => mkPeer q (p_closed p ++ [written +:+ String.substring 0 k (write_frame f.1 f.2)]) None
     end) fss' open') as Hsend.
  { intros written ->. assert (write_frames (open ++ [f]) = write_frames open +:+ write_frame f.1 f.2) as Hwf.
    { rewrite write_frames_app. cbn [write_frames foldr]. by rewrite string_app_nil_r. }
    destruct (breaks io) as [k|].
    - exists (fss ++ [open ++ [f]])%list, []. split; cbn [p_closed p_conn p_queue]; [|done|].
      + apply Forall2_app; [done|]. constructor; [|constructor]. destruct (substring_start k (write_frame f.1 f.2)) as [u Hu].
        exists u. by rewrite Hwf, <- string_app_assoc, Hu.
      + rewrite concat_app. cbn [concat app]. by rewrite app_nil_r, <- !app_assoc.
    - exists fss, (open ++ [f])%list. split; cbn [p_closed p_conn p_queue]; [done|by rewrite Hwf|by rewrite <- app_assoc]. }
  destruct (p_conn p) as [w|]; [by apply Hsend|]. subst open. destruct (connects io); [by apply Hsend|].
  exists fss, []. by split.
Qed.

Lemma link_run b evs i p said fss open : bus_peers b !! i = Some p -> link_inv said p fss open ->
  exists p' fss' open', bus_peers (bus_run b evs).1 !! i = Some p' /\ link_inv (said ++ published evs) p' fss' open' /\
    (whole said p -> smooth i b evs = true -> whole (said ++ published evs) p').
Proof.
  revert b p said fss open. induction evs as [|e evs IH]; intros b p said fss open Hp Hinv.
  { exists p, fss, open. cbn. by rewrite app_nil_r. }
  assert (exists p1 fss1 open1, bus_peers (bus_step b e).1 !! i = Some p1 /\ link_inv (said ++ published [e]) p1 fss1 open1 /\
    (whole said p -> smooth_event i b e = true -> whole (said ++ published [e]) p1)) as (p1 & fss1 & open1 & H1 & Hi1 & Hw1).
  { destruct e as [f|j io|f|topic|r]; cbn [bus_step published omap list_omap smooth_event]; rewrite ?app_nil_r.
    - exists (try_send f p), fss, open. cbn [fst bus_peers tcp_publish]. rewrite list_lookup_fmap, Hp. split; [done|].
      split; [by apply try_send_inv|]. intros (Hc & fs & Hf & Hq) Hroom. unfold try_send. rewrite Hroom. split; [done|].
      exists fs. split; [done|]. cbn [p_queue]. by rewrite app_assoc, Hq.
    - cbn [fst bus_peers]. destruct (decide (j = i)) as [->|Hne].
      + destruct (peer_work_inv said p io fss open Hinv) as (fss' & open' & Hi'). exists (peer_work io p), fss', open'.
        rewrite list_lookup_alter_eq, Hp. split; [done|]. split; [done|]. intros (Hc & fs & Hf & Hq).
        rewrite bool_decide_true by done. cbn [negb orb]. rewrite andb_true_iff, bool_decide_eq_true. intros [Hcon Hbr].
        unfold peer_work. rewrite Hbr, Hcon. destruct (p_queue p) as [|f q] eqn:Hpq; [split; [done|exists fs; by rewrite Hpq]|].
        assert (forall w, w = write_frames fs -> whole said (mkPeer q (p_closed p) (Some (w +:+ write_frame f.1 f.2)))) as Hw.
        { intros w ->. split; [done|]. exists (fs ++ [f])%list. cbn [p_conn p_queue default]. split; [|by rewrite <- app_assoc].
          rewrite write_frames_app. cbn [write_frames foldr]. by rewrite string_app_nil_r. }
        destruct (p_conn p); by apply Hw.
      + exists p, fss, open. by rewrite list_lookup_alter_ne.
    - by exists p, fss, open.
    - by exists p, fss, open.
    - destruct (bus_recv r (bus_local b)). by exists p, fss, open. }
  destruct (bus_step b e) as [b1 out] eqn:Hb. cbn [fst] in *. destruct (IH b1 p1 _ fss1 open1 H1 Hi1) as (p2 & fss2 & open2 & H2 & Hi2 & Hw2).
  cbn [bus_run]. rewrite Hb. destruct (bus_run b1 evs) as [b2 rest]. cbn [fst] in *. exists p2, fss2, open2.
  assert (published (e :: evs) = published [e] ++ published evs)%list as -> by (by destruct e). rewrite app_assoc. split; [done|]. split; [done|].
  intros Hw. cbn [smooth]. rewrite Hb, andb_true_iff. intros [? ?]. apply Hw2; [by apply Hw1|done].
Qed.

(** ** Lemmas: interleavings and runs *)

Lemma concat_insert {A} (ls : list (list A)) i x xs : ls !! i = Some (x :: xs) -> concat ls ≡ₚ x :: concat (<[i := xs]> ls).
Proof.
  revert i. induction ls as [|l ls IH]; intros [|i] Hi; [done..| |]; cbn in *.
  - injection Hi as ->. done.
  - rewrite (IH i Hi). by rewrite <- Permutation_middle.
Qed.

Lemma interleaving_perm {A} (ls : list (list A)) l : interleaving ls l -> l ≡ₚ concat ls.
Proof.
  induction 1 as [ls Hls|ls i x xs l Hi _ IH]; [|by rewrite (concat_insert ls i x xs), IH].
  induction Hls as [|l ls -> _ IH]; [done|]. exact IH.
Qed.

Lemma interleaving_one {A} (k l : list A) : interleaving [k] l -> l = k.
Proof.
  remember [k] as ls eqn:Hls. intros H. revert k Hls. induction H as [ls Hf|ls i x xs l Hi _ IH]; intros k ->.
  - by inversion Hf as [|? ? Hk]; subst.
  - destruct i as [|i]; [|done]. injection Hi as ->. f_equal. by apply IH.
Qed.

Lemma bus_run_app b x y : bus_run b (x ++ y) =
  ((bus_run (bus_run b x).1 y).1, (bus_run b x).2 ++ (bus_run (bus_run b x).1 y).2)%list.
Proof.
  revert b. induction x as [|e x IH]; intros b; [cbn; by destruct (bus_run b y)|]. cbn [app bus_run]. destruct (bus_step b e) as [b1 out].
  rewrite IH. destruct (bus_run b1 x) as [b2 rest]. cbn [fst snd]. by rewrite app_assoc.
Qed.

Abbreviation receivers b := (bus_receivers (bus_local b)).

Lemma receivers_step b e : length (receivers b) <= length (receivers (bus_step b e).1) /\
  forall r, length (receivers b) <= r -> messages r (bus_step b e).2 = [].
Proof.
  destruct e as [f|i io|f|topic|q]; cbn; rewrite ?length_fmap, ?length_app; try (split; [lia|done]).
  unfold bus_recv. destruct (receivers b !! q) as [rx|] eqn:Hq; [|cbn; split; [lia|done]].
  destruct (receive rx) as [rx' m]. cbn. rewrite length_insert. split; [lia|]. intros r Hr. apply lookup_lt_Some in Hq.
  destruct m; [rewrite bool_decide_false by lia|..]; done.
Qed.

Lemma receivers_run b evs : length (receivers b) <= length (receivers (bus_run b evs).1) /\
  forall r, length (receivers (bus_run b evs).1) <= r -> messages r (bus_run b evs).2 = [].
Proof.
  revert b. induction evs as [|e evs IH]; intros b; [done|]. cbn [bus_run]. destruct (receivers_step b e) as [H1 H2].
  destruct (bus_step b e) as [b1 out]. cbn [fst snd] in *. destruct (IH b1) as [H3 H4]. destruct (bus_run b1 evs) as [b2 rest]. cbn [fst snd] in *.
  split; [lia|]. intros r Hr. rewrite messages_app, H2, H4 by lia. done.
Qed.

Lemma heard_inbound topic evs : on_topic topic (published evs) = [] -> on_topic topic (heard evs) = on_topic topic (arrivals evs).
Proof.
  induction evs as [|e evs IH]; [done|].
  destruct e as [f|i io|f|t|r]; cbn [published arrivals heard omap list_omap]; try exact IH.
  - change (f :: omap _ evs) with ([f] ++ published evs)%list at 1. rewrite on_topic_app. intros [Hf Hp]%app_eq_nil.
    change (f :: omap _ evs) with ([f] ++ heard evs)%list at 1. rewrite on_topic_app, Hf. by apply IH.
  - intros Hp. change (f :: omap _ evs) with ([f] ++ heard evs)%list at 1. rewrite on_topic_app, (IH Hp), <- on_topic_app. done.
Qed.

Lemma concat_prefixes {A} (rs fss : list (list A)) : Forall2 prefix rs fss -> concat rs `sublist_of` concat fss.
Proof. induction 1 as [|r fs rs fss [k ->] _ IH]; [done|]. cbn. apply sublist_app; [|done]. apply sublist_inserts_r. done. Qed.

Lemma tcp_peers_length b evs : length (bus_peers (bus_run b evs).1) = length (bus_peers b).
Proof.
  revert b. induction evs as [|e evs IH]; intros b; [done|]. cbn [bus_run].
  assert (length (bus_peers (bus_step b e).1) = length (bus_peers b)) as He.
  { destruct e as [f|j io|f|t|q]; cbn; rewrite ?length_fmap, ?length_alter; try done. by destruct (bus_recv q (bus_local b)). }
  destruct (bus_step b e) as [b1 out]. specialize (IH b1). destruct (bus_run b1 evs). cbn in *. congruence.
Qed.

Lemma fresh_peer n evs i p : bus_peers (bus_run (TcpBus_new n) evs).1 !! i = Some p -> bus_peers (TcpBus_new n) !! i = Some (mkPeer [] [] None).
Proof.
  intros Hp%lookup_lt_Some. rewrite tcp_peers_length in Hp. cbn [TcpBus_new bus_peers] in *. rewrite length_replicate in Hp.
  by apply lookup_replicate_2.
Qed.

Definition reads (cuts : list string) : list (list frame) := (fun c => (read_frames c).1) <$> cuts.

Lemma reads_prefix all conns cuts : Forall frame_ok (concat all) -> Forall2 carries all conns ->
  Forall2 (fun cut bytes => exists v, cut +:+ v = bytes) cuts conns -> Forall2 prefix (reads cuts) all.
Proof.
  intros Hok Hall. revert cuts. induction Hall as [|fs bytes all conns Hfs Hall IH]; intros cuts Hcuts; inversion Hcuts as [|cut ? cuts' ? Hcut Hrest]; subst; [constructor|].
  cbn [concat] in Hok. apply Forall_app in Hok as [Hok1 Hok2]. constructor; [by eapply carries_read|by apply IH].
Qed.

(** What the connections of a peer bring. *)
Lemma link_delivers n evs i p cuts : Forall frame_ok (published evs) -> bus_peers (bus_run (TcpBus_new n) evs).1 !! i = Some p ->
  Forall2 (fun cut bytes => exists v, cut +:+ v = bytes) cuts (connections p) ->
  concat (reads cuts) `sublist_of` published evs /\
  (smooth i (TcpBus_new n) evs = true -> p_queue p = [] -> cuts = connections p -> length cuts <= 1 /\ concat (reads cuts) = published evs).
Proof.
  intros Hok Hp Hcuts. destruct (link_run _ evs i _ [] [] [] (fresh_peer n evs i p Hp)) as (p' & fss & open & Hp' & [Hc Ho Hs] & Hw); [by split|].
  rewrite Hp in Hp'. injection Hp' as <-. cbn [app] in Hs, Hw. split.
  - set (all := (fss ++ option_list ((fun _ => open) <$> p_conn p))%list).
    assert (concat all `sublist_of` published evs) as Hsub.
    { etrans; [|exact Hs]. unfold all. rewrite concat_app. apply sublist_app; [done|].
      destruct (p_conn p); cbn; [rewrite app_nil_r; by apply sublist_inserts_r|apply sublist_nil_l]. }
    etrans; [|exact Hsub]. apply concat_prefixes, (reads_prefix all (connections p)); [|unfold all, connections|done].
    + rewrite Forall_forall in *. intros f Hf. apply Hok. by apply (sublist_subseteq _ _ Hsub).
    + apply Forall2_app; [done|]. destruct (p_conn p) as [w|]; [|constructor]. cbn. subst w.
      constructor; [|constructor]. exists "". apply string_app_nil_r.
  - intros Hsm Hq ->. destruct Hw as (Hcl & fs & Hfs & Hall); [split; [done|by exists []]|done|]. rewrite Hq, app_nil_r in Hall. subst fs.
    unfold connections, reads. rewrite Hcl. cbn [app]. pose proof (carries_all _ Hok) as Hread. rewrite <- Hfs in Hread.
    destruct (p_conn p) as [w|]; cbn in *; (split; [lia|]); [by rewrite app_nil_r|exact Hread].
Qed.

(** ** Delivery *)

(** C18: Delivery over the bus.  Let one node publish, its links fail and its
    queues fill as they may, and another node read its connections, each as
    far as it came and in any interleaving of their tasks.  A receiver that
    subscribed there to a topic the node does not publish itself gets each
    publication of the topic at most once, unchanged, and in order if the
    link never reconnected; if the queue never overflowed, the connection
    opened and held and was read to its end, and the receiver did not lag, it
    gets all of them, what it has not taken yet included. *)
Theorem bus_delivery n m evsA pre topic post i p cuts :
  Forall frame_ok (published evsA) ->
  bus_peers (bus_run (TcpBus_new n) evsA).1 !! i = Some p ->
  Forall2 (fun cut bytes => exists v, cut +:+ v = bytes) cuts (connections p) ->
  let evsB := (pre ++ Subscribe topic :: post)%list in
  interleaving ((fun c => (read_frames c).1) <$> cuts) (arrivals evsB) ->
  on_topic topic (published evsB) = [] ->
  let said := on_topic topic (published evsA) in
  let r := length (receivers (bus_run (TcpBus_new m) pre).1) in
  let '(b, out) := bus_run (TcpBus_new m) evsB in
  exists rx, receivers b !! r = Some rx /\
    messages r out ⊆+ said /\
    (length (connections p) <= 1 -> messages r out `sublist_of` said) /\
    (smooth i (TcpBus_new n) evsA = true -> p_queue p = [] -> cuts = connections p -> arrivals pre = [] ->
     ~ lags r out -> rx_missed rx = 0 -> (messages r out ++ rx_queue rx)%list = said).
Proof.
  intros Hok Hp Hcuts evsB Hil Hown said r. destruct (link_delivers n evsA i p cuts Hok Hp Hcuts) as [Hsub Hfull].
  unfold evsB. rewrite bus_run_app. cbn [bus_run bus_step].
  destruct (receivers_run (TcpBus_new m) pre) as [_ Hpre]. specialize (Hpre r (le_n _)).
  set (b0 := (bus_run (TcpBus_new m) pre).1) in *. set (b1 := set_local (subscribe topic (bus_local b0)) b0).
  assert (receivers b1 !! r = Some (mkReceiver topic [] 0)) as Hr by by apply list_lookup_middle.
  destruct (receiver_run b1 post r _ Hr) as (rx & Hrx & Ht & Hs & He). destruct (bus_run b1 post) as [b out]. cbn [fst snd rx_queue rx_topic rx_missed app] in *.
  assert (published evsB = published pre ++ published post)%list as Hpub by exact (omap_app _ pre (Subscribe topic :: post)).
  assert (arrivals evsB = arrivals pre ++ arrivals post)%list as Hinb by exact (omap_app _ pre (Subscribe topic :: post)).
  rewrite Hpub, on_topic_app in Hown. apply app_eq_nil in Hown as [_ Hown]. rewrite (heard_inbound topic post Hown) in Hs, He.
  rewrite messages_app, Hpre. cbn [app].
  assert (messages r out `sublist_of` on_topic topic (arrivals evsB)) as Hgot.
  { rewrite Hinb, on_topic_app. apply sublist_inserts_l. etrans; [|exact Hs]. by apply sublist_inserts_r. }
  exists rx. split; [done|]. split; [|split].
  - etrans; [by apply sublist_submseteq|]. rewrite (on_topic_perm topic _ _ (interleaving_perm _ _ Hil)).
    by apply sublist_submseteq, on_topic_sublist.
  - intros Hone. etrans; [exact Hgot|]. apply on_topic_sublist. etrans; [|exact Hsub]. apply Forall2_length in Hcuts.
    destruct cuts as [|c [|? ?]]; cbn in Hcuts; [|apply interleaving_one in Hil; rewrite Hil; cbn; by rewrite app_nil_r|lia].
    apply interleaving_perm, Permutation_nil_r in Hil. rewrite Hil. apply sublist_nil_l.
  - intros Hsm Hq Hcut Hnil Hlag Hmiss. destruct (Hfull Hsm Hq Hcut) as [Hlen Hall]. unfold said. rewrite <- Hall.
    destruct (He ltac:(intros [k Hk]; apply Hlag; exists k; apply elem_of_app; by right) Hmiss) as [_ ->]. f_equal.
    rewrite Hnil in Hinb. cbn [app] in Hinb. rewrite <- Hinb. destruct cuts as [|c [|? ?]]; cbn in Hlen; [|apply interleaving_one in Hil; rewrite Hil; cbn; by rewrite app_nil_r|lia].
    by apply interleaving_perm, Permutation_nil_r in Hil.
Qed.

(** A publisher is not stopped from sending a payload above the cap; the reader
    then closes the link, and what was written behind it is lost. *)
Lemma oversized_closes_link topic payload rest : valid_utf8 topic = true -> (Z.of_nat (String.length topic) <= MAX_FRAME)%Z ->
  (MAX_FRAME < Z.of_nat (String.length payload) < 2 ^ 32)%Z -> read_frames (write_frame topic payload +:+ rest) = ([], Other).
Proof.
  intros Hv Ht Hp. unfold read_frames. cbn [read_frames_fuel]. unfold read_frame, write_frame. rewrite <- !string_app_assoc.
  rewrite (read_field_app topic) by done. cbn [mbind result_bind]. unfold read_field. rewrite read_be32 by lia. cbn [ok_or mbind result_bind].
  by rewrite bool_decide_true by lia.
Qed.

(** ** Witnesses *)

Definition demo_said : list bus_event :=
  [Publish ("raft", "a"); Publish ("logs", "x"); Publish ("raft", "b"); Work 0 (mkIo true None); Work 0 (mkIo true (Some 5)); Work 0 (mkIo true None)].
Definition demo_heard : list bus_event := [Inbound ("raft", "b"); Inbound ("raft", "a"); Receive 0; Receive 0].

(** The second frame breaks its connection, and the third overtakes the
    first on the new one. *)
Lemma bus_delivery_witness :
  let p := mkPeer [] [write_frame "raft" "a" +:+ String.substring 0 5 (write_frame "logs" "x")] (Some (write_frame "raft" "b")) in
  (bus_peers (bus_run (TcpBus_new 1) demo_said).1 !! 0 = Some p /\
   messages 0 (bus_run (TcpBus_new 0) (Subscribe "raft" :: demo_heard)).2 = ["b"; "a"]) /\
  ["b"; "a"] ⊆+ on_topic "raft" (published demo_said).
Proof.
  intros p. split; [split; vm_compute; reflexivity|].
  assert (Forall frame_ok (published demo_said)) as Hok by (repeat constructor; vm_compute; done).
  pose proof (bus_delivery 1 0 demo_said [] "raft" demo_heard 0 p (connections p) Hok eq_refl) as H.
  destruct H as (rx & _ & H & _); [|apply (Interleaving_cons _ 1 ("raft", "b") []); [vm_compute; reflexivity|]; apply (Interleaving_cons _ 0 ("raft", "a") []); [vm_compute; reflexivity|]; apply Interleaving_nil; repeat constructor|reflexivity|exact H].
  repeat constructor; exists ""; apply string_app_nil_r.
Defined.
