(* ===== verification/Dsl.v ===== *)
(** * [sigil-api]: the pipe query language

    [dsl.rs] lowers a pipeline of stages to one SQL statement over the
    [events] table.  [str::parse::<f64>] is its documented grammar. *)

From stdpp Require Import strings list.
From S2P Require Import Prelude Text.

Local Open Scope string_scope.

(** ** The statement under construction *)

Record Builder : Set := mkBuilder {
  b_select : option (list string);
  b_aggregates : list string;
  b_group_by : list string;
  b_wheres : list string;
  b_order_by : option string;
  b_limit : option Z
}.

Definition Builder_default : Builder := mkBuilder None [] [] [] None None.

Definition set_select (l : list string) (b : Builder) : Builder :=
  mkBuilder (Some l) (b_aggregates b) (b_group_by b) (b_wheres b) (b_order_by b) (b_limit b).
Definition push_aggregate (a : string) (b : Builder) : Builder :=
  mkBuilder (b_select b) (b_aggregates b ++ [a])%list (b_group_by b) (b_wheres b) (b_order_by b) (b_limit b).
Definition set_group_by (l : list string) (b : Builder) : Builder :=
  mkBuilder (b_select b) (b_aggregates b) l (b_wheres b) (b_order_by b) (b_limit b).
Definition push_where (w : string) (b : Builder) : Builder :=
  mkBuilder (b_select b) (b_aggregates b) (b_group_by b) (b_wheres b ++ [w])%list (b_order_by b) (b_limit b).
Definition set_order_by (o : string) (b : Builder) : Builder :=
  mkBuilder (b_select b) (b_aggregates b) (b_group_by b) (b_wheres b) (Some o) (b_limit b).
Definition set_limit (n : Z) (b : Builder) : Builder :=
  mkBuilder (b_select b) (b_aggregates b) (b_group_by b) (b_wheres b) (b_order_by b) (Some n).

Definition render_select (b : Builder) : string :=
  if negb (is_nil (b_aggregates b)) then join ", " (b_group_by b ++ b_aggregates b)%list
  else match b_select b with Some fields => join ", " fields | None => "*" end.

Definition render (b : Builder) : string :=
  "SELECT " +:+ render_select b +:+ " FROM events" +:+
  (if is_nil (b_wheres b) then "" else " WHERE " +:+ join " AND " (b_wheres b)) +:+
  (if is_nil (b_group_by b) then "" else " GROUP BY " +:+ join ", " (b_group_by b)) +:+
  match b_order_by b with Some ob => " ORDER BY " +:+ ob | None => "" end +:+
  match b_limit b with Some n => " LIMIT " +:+ show_u64 n | None => "" end.

(** ** Lexical parts *)

(** The whole string is the command when it has no white space. *)
Definition split_first (s : string) : string * string :=
  match split_at_ws s with
  | Some (a, b) => (a, trim_start b)
  | None => (s, "")
  end.

Definition ident_byte (c : ascii) : bool := is_ascii_alphanumeric c || bool_decide (c = "_"%char).

Definition ident (s : string) : result string :=
  if negb (is_empty_str s) && all_bytes ident_byte s then Ok s else Err Parse.

Definition quote : ascii := "'".
Definition dquote : ascii := "034".

Definition escape (s : string) : string := replace_char quote (String quote (String quote "")) s.

Definition last_byte (s : string) : option ascii := String.get (String.length s - 1) s.

Definition unquote (s : string) : string :=
  let s := trim s in
  let ends c := bool_decide (String.get 0 s = Some c) && bool_decide (last_byte s = Some c) in
  if (2 <=? String.length s)%nat && (ends quote || ends dquote)
  then String.substring 1 (String.length s - 2) s else s.

(** [str::parse::<f64>().is_ok()]: an optional sign, then [inf], [infinity] or
    [nan] in any case, or digits with an optional point and exponent. *)
Definition strip_sign (s : string) : string :=
  match s with
  | String c r => if bool_decide (c = "+"%char) || bool_decide (c = "-"%char) then r else s
  | EmptyString => s
  end.

Definition is_exponent (s : string) : bool :=
  match s with
  | EmptyString => true
  | String c r =>
      (bool_decide (c = "e"%char) || bool_decide (c = "E"%char)) &&
      (let d := strip_sign r in negb (is_empty_str d) && all_bytes is_ascii_digit d)
  end.

Definition is_f64 (s : string) : bool :=
  let s := strip_sign s in
  bool_decide (to_ascii_lowercase s ∈ ["inf"; "infinity"; "nan"]) ||
  (let '(int, r) := span is_ascii_digit s in
   let '(frac, r) :=
     match r with
     | String c r' => if bool_decide (c = "."%char) then span is_ascii_digit r' else ("", r)
     | EmptyString => ("", r)
     end in
   negb (is_empty_str int && is_empty_str frac) && is_exponent r).

Definition quoted (s : string) : string := String quote (escape s) +:+ String quote "".

Definition literal (value : string) : string :=
  let v := unquote value in if is_f64 v then v else quoted v.

Definition ilike (col pattern : string) : string :=
  col +:+ " ILIKE " +:+ String quote (String "%" (escape pattern)) +:+ String "%" (String quote "").

(** ** Stages *)

Definition sql_op (op : string) : option string :=
  if bool_decide (op ∈ ["="; "=="]) then Some "="
  else if bool_decide (op ∈ ["!="; "<>"]) then Some "!="
  else if bool_decide (op ∈ [">"; "<"; ">="; "<="]) then Some op
  else None.

Definition parse_where (rest : string) : result string :=
  match split_whitespace rest with
  | c :: op :: v :: vs =>
      col ← ident c;
      let value := join " " (v :: vs) in
      match sql_op op with
      | Some o => Ok (col +:+ " " +:+ o +:+ " " +:+ literal value)
      | None => if bool_decide (op = "contains") then Ok (ilike col (unquote value)) else Err Parse
      end
  | _ => Err Parse
  end.

Definition idents (s : string) : result (list string) := traverse (fun w => ident (trim w)) (split_on "," s).

Definition after_by (s : string) : string :=
  match split_once "by " s with Some (_, r) => trim r | None => "" end.

Definition parse_stats (rest : string) (b : Builder) : result Builder :=
  if negb (starts_with "count()" (trim_start (to_ascii_lowercase rest))) then Err Parse else
  let t := trim_start rest in
  let after := trim (String.substring 7 (String.length t - 7) t) in
  ab ← match strip_prefix "as " after, strip_prefix "AS " after with
       | Some stripped, _ | None, Some stripped =>
           let '(name, by_) := match split_once " by " stripped with
                               | Some (n, r) => (n, r) | None => (stripped, "") end in
           alias ← ident (trim name); Ok (alias, trim by_)
       | None, None => Ok ("count", after_by after)
       end;
  let b := push_aggregate ("count(*) AS " +:+ ab.1) b in
  if is_empty_str ab.2 then Ok b else gs ← idents ab.2; Ok (set_group_by gs b).

Definition parse_sort (rest : string) : result string :=
  let ws := split_whitespace rest in
  col ← ident (default "" (ws !! 0));
  let desc := match to_ascii_lowercase <$> ws !! 1 with
              | Some d => bool_decide (d = "desc") | None => false end in
  Ok (col +:+ (if desc then " DESC" else "")).

(** The [match] on the command of a stage. *)
Definition command (c rest : string) (b : Builder) : result Builder :=
  if bool_decide (c = "search") then
    let term := trim rest in
    Ok (if is_empty_str term then b else push_where (ilike "message" term) b)
  else if bool_decide (c = "where") then w ← parse_where rest; Ok (push_where w b)
  else if bool_decide (c = "stats") then parse_stats rest b
  else if bool_decide (c = "fields") then fs ← idents rest; Ok (set_select fs b)
  else if bool_decide (c = "sort") then o ← parse_sort rest; Ok (set_order_by o b)
  else if bool_decide (c ∈ ["head"; "limit"]) then
    n ← ok_or (parse_u64 (trim rest)) Parse; Ok (set_limit n b)
  else Err Parse.

(** The body of the loop of [lower]. *)
Definition stage (b : Builder) (raw : string) : result Builder :=
  let st := trim raw in
  if is_empty_str st then Ok b
  else let '(cmd, rest) := split_first st in command (to_ascii_lowercase cmd) rest b.

Fixpoint stages (raws : list string) (b : Builder) : result Builder :=
  match raws with
  | [] => Ok b
  | raw :: raws => b ← stage b raw; stages raws b
  end.

Definition lower (dsl : string) : result string :=
  b ← stages (split_on "|" dsl) Builder_default; Ok (render b).

(** ** Injection safety

    A reader of SQL text: inside or outside a quoted literal, and outside
    whether the last byte was a dash.  It stops at a byte that no statement
    made of names, numbers, operators and literals needs, and at the dashes
    that start a comment. *)

Inductive lex_state : Set := Out | Dash | In.

Definition safe_byte (c : ascii) : bool :=
  ident_byte c ||
  bool_decide (c ∈ [" "; ","; "*"; "("; ")"; "="; "<"; ">"; "!"; "."; "+"]%char).

Definition lex_step (st : lex_state) (c : ascii) : option lex_state :=
  match st with
  | In => Some (if bool_decide (c = quote) then Out else In)
  | Out | Dash =>
      if bool_decide (c = quote) then Some In
      else if bool_decide (c = "-"%char) then (if st is Dash then None else Some Dash)
      else if safe_byte c then Some Out else None
  end.

Fixpoint scan (st : lex_state) (s : string) : option lex_state :=
  match s with
  | EmptyString => Some st
  | String c r => st' ← lex_step st c; scan st' r
  end.

(** Text that leaves the reader outside of literals. *)
Definition closed (s : string) : Prop := scan Out s = Some Out.

Lemma scan_app st s t : scan st (s +:+ t) = st' ← scan st s; scan st' t.
Proof.
  revert st. induction s as [|c s IH]; intros st; [done|]. rewrite string_app_cons. cbn.
  destruct (lex_step st c); cbn; [apply IH|done].
Qed.

Lemma closed_app s t : closed s -> closed t -> closed (s +:+ t).
Proof. unfold closed. intros Hs Ht. by rewrite scan_app, Hs. Qed.

Lemma closed_cons c s : lex_step Out c = Some Out -> closed s -> closed (String c s).
Proof. unfold closed. cbn. by intros ->. Qed.

Create HintDb sql.
#[export] Hint Resolve closed_app : sql.

Lemma closed_join sep l : closed sep -> Forall closed l -> closed (join sep l).
Proof.
  intros Hs Hl. induction Hl as [|w l Hw Hl IH]; [done|]. destruct l as [|w' l]; [done|].
  change (closed (w +:+ sep +:+ join sep (w' :: l))). auto with sql.
Qed.
#[export] Hint Resolve closed_join : sql.

Lemma ident_byte_step st c : st <> In -> ident_byte c = true -> lex_step st c = Some Out.
Proof.
  intros Hst Hc. unfold lex_step. rewrite !bool_decide_false by (by intros ->).
  unfold safe_byte. rewrite Hc. by destruct st.
Qed.

Lemma closed_bytes s : all_bytes ident_byte s = true -> closed s.
Proof.
  induction s as [|c s IH]; [done|]. cbn [all_bytes]. rewrite andb_true_iff. intros [Hc Hs].
  apply closed_cons; [by apply ident_byte_step|by apply IH].
Qed.

Lemma ident_Ok s r : ident s = Ok r -> r = s /\ s <> "" /\ all_bytes ident_byte s = true.
Proof.
  unfold ident. destruct (negb _ && _) eqn:E; [|done]. intros [= ->].
  apply andb_true_iff in E as [He Hb]. split; [done|]. split; [|done]. by intros ->.
Qed.

Lemma ident_closed s r : ident s = Ok r -> closed r.
Proof. intros (-> & _ & Hb)%ident_Ok. by apply closed_bytes. Qed.

(** A doubled quote leaves a literal and enters it again. *)
Lemma scan_escape s : scan In (escape s) = Some In.
Proof.
  unfold escape. induction s as [|c s IH]; [done|]. cbn [replace_char].
  case_bool_decide as Hc.
  - rewrite !string_app_cons, string_app_nil_l. cbn [scan lex_step].
    rewrite !bool_decide_true by done. cbn. by rewrite bool_decide_true.
  - cbn [scan lex_step]. by rewrite bool_decide_false by (by intros ->).
Qed.

Lemma quoted_closed s : closed (quoted s).
Proof.
  unfold closed, quoted. rewrite string_app_cons. cbn [scan]. change (lex_step Out quote) with (Some In).
  cbn [mbind option_bind]. by rewrite scan_app, scan_escape.
Qed.

Lemma ilike_closed col p : closed col -> closed (ilike col p).
Proof.
  intros Hc. unfold ilike. apply closed_app; [done|]. apply closed_app; [done|].
  unfold closed. rewrite string_app_cons. cbn [scan]. change (lex_step Out quote) with (Some In).
  cbn [mbind option_bind]. rewrite string_app_cons. cbn [scan]. change (lex_step In "%") with (Some In).
  cbn [mbind option_bind]. by rewrite scan_app, scan_escape.
Qed.

(** Digits, from any state outside of a literal. *)
Lemma scan_digits st d : st <> In -> all_bytes is_ascii_digit d = true ->
  scan st d = Some (if is_empty_str d then st else Out).
Proof.
  intros Hst. destruct d as [|c d]; [done|]. cbn [all_bytes]. rewrite andb_true_iff. intros [Hc Hd].
  assert (forall c, is_ascii_digit c = true -> ident_byte c = true) as Hi.
  { intros c' Hc'. unfold ident_byte, is_ascii_alphanumeric. by rewrite Hc', orb_true_r. }
  cbn [scan]. rewrite ident_byte_step by auto. cbn. apply closed_bytes.
  eapply all_bytes_impl; [|exact Hd]. exact Hi.
Qed.

Lemma strip_sign_scan s : exists st, st <> In /\ scan Out s = scan st (strip_sign s).
Proof.
  unfold strip_sign. destruct s as [|c s]; [by exists Out|].
  destruct (decide (c = "+"%char)) as [->|Hp]; [by exists Out|].
  destruct (decide (c = "-"%char)) as [->|Hm]; [by exists Dash|].
  exists Out. by rewrite !bool_decide_false.
Qed.

Lemma is_exponent_closed s : is_exponent s = true -> closed s.
Proof.
  unfold is_exponent. destruct s as [|c s]; [done|]. rewrite !andb_true_iff, orb_true_iff, !bool_decide_eq_true.
  intros [Hc [Hne Hd]]. apply closed_cons; [by destruct Hc as [->| ->]|].
  unfold closed. destruct (strip_sign_scan s) as (st & Hst & ->). rewrite scan_digits by done.
  by destruct (strip_sign s).
Qed.

Lemma alphabetic_lower c : is_ascii_alphabetic (ascii_lower c) = is_ascii_alphabetic c.
Proof. by destruct c as [[] [] [] [] [] [] [] []]. Qed.

Lemma word_bytes s : all_bytes is_ascii_alphabetic (to_ascii_lowercase s) = true -> all_bytes ident_byte s = true.
Proof.
  induction s as [|c s IH]; [done|]. cbn. rewrite alphabetic_lower, !andb_true_iff. intros [Hc Hs].
  split; [|by apply IH]. unfold ident_byte, is_ascii_alphanumeric. by rewrite Hc.
Qed.

Lemma scan_word st s : st <> In -> s <> "" -> all_bytes ident_byte s = true -> scan st s = Some Out.
Proof.
  intros Hst Hne. destruct s as [|c s]; [done|]. cbn [all_bytes]. rewrite andb_true_iff. intros [Hc Hs].
  cbn [scan]. rewrite ident_byte_step by done. by apply closed_bytes.
Qed.

Lemma is_f64_closed s : is_f64 s = true -> closed s.
Proof.
  unfold is_f64, closed. destruct (strip_sign_scan s) as (st & Hst & ->).
  generalize (strip_sign s) as t. intros t. rewrite orb_true_iff, bool_decide_eq_true. intros [Hn|Hn].
  { apply scan_word; [done| |].
    - intros ->. rewrite !elem_of_cons, elem_of_nil in Hn. by destruct Hn as [|[|[|]]].
    - apply word_bytes. rewrite !elem_of_cons, elem_of_nil in Hn. by destruct Hn as [->|[->|[->|]]]. }
  destruct (span is_ascii_digit t) as [int r] eqn:Ei. apply span_app in Ei as [-> Hi].
  rewrite scan_app, scan_digits by done. cbn [mbind option_bind].
  destruct r as [|c r].
  - rewrite andb_true_iff in Hn. destruct Hn as [Hn _]. by destruct int.
  - case_bool_decide as Hc.
    + destruct (span is_ascii_digit r) as [frac r'] eqn:Ef. apply span_app in Ef as [-> Hf].
      apply andb_true_iff in Hn as [_ He]. subst c. cbn [scan].
      assert (lex_step (if is_empty_str int then st else Out) "." = Some Out) as ->.
      { destruct (is_empty_str int); [|done]. by destruct st. }
      cbn [mbind option_bind]. rewrite scan_app, scan_digits by done. cbn [mbind option_bind].
      replace (if is_empty_str frac then Out else Out) with Out by (by destruct (is_empty_str frac)).
      by apply is_exponent_closed.
    + apply andb_true_iff in Hn as [Hi' He]. destruct int; [done|]. by apply is_exponent_closed.
Qed.

Lemma literal_closed v : closed (literal v).
Proof. unfold literal. destruct (is_f64 _) eqn:E; [by apply is_f64_closed|apply quoted_closed]. Qed.

Lemma sql_op_closed op o : sql_op op = Some o -> closed o.
Proof.
  unfold sql_op. case_bool_decide; [by intros [= <-]|]. case_bool_decide; [by intros [= <-]|].
  case_bool_decide as Hop; [|done].
  intros [= <-]. rewrite !elem_of_cons, elem_of_nil in Hop. by destruct Hop as [->|[->|[->|[->|]]]].
Qed.

(** Every part of a builder is closed text. *)
Record safe_builder (b : Builder) : Prop := {
  sb_select : forall l, b_select b = Some l -> Forall closed l;
  sb_aggregates : Forall closed (b_aggregates b);
  sb_group_by : Forall closed (b_group_by b);
  sb_wheres : Forall closed (b_wheres b);
  sb_order_by : forall o, b_order_by b = Some o -> closed o;
  sb_limit : forall n, b_limit b = Some n -> (0 <= n)%Z
}.

Lemma idents_closed s l : idents s = Ok l -> Forall closed l.
Proof.
  unfold idents. generalize (split_on "," s) as ws. intros ws. revert l.
  induction ws as [|w ws IH]; intros l; cbn; [by intros [= <-]|].
  destruct (ident (trim w)) as [i|] eqn:Ei; [|done]. cbn. destruct (traverse _ ws) as [k|]; [|done].
  cbn. intros [= <-]. constructor; [by eapply ident_closed|by apply IH].
Qed.

Lemma parse_where_closed rest w : parse_where rest = Ok w -> closed w.
Proof.
  unfold parse_where. destruct (split_whitespace rest) as [|c [|op [|v vs]]]; try done.
  destruct (ident c) as [col|] eqn:Ei; [|done]. cbn. apply ident_closed in Ei.
  destruct (sql_op op) as [o|] eqn:Eo.
  - intros [= <-]. apply sql_op_closed in Eo. pose proof (literal_closed (join " " (v :: vs))).
    repeat apply closed_app; done.
  - case_bool_decide; [|done]. intros [= <-]. by apply ilike_closed.
Qed.

Lemma parse_sort_closed rest o : parse_sort rest = Ok o -> closed o.
Proof.
  unfold parse_sort. destruct (ident _) as [col|] eqn:Ei; [|done]. cbn. intros [= <-].
  apply ident_closed in Ei. apply closed_app; [done|]. by case_match.
Qed.

Lemma parse_stats_safe rest b b' : safe_builder b -> parse_stats rest b = Ok b' -> safe_builder b'.
Proof.
  intros Hb. unfold parse_stats. destruct (negb _); [done|].
  set (after := trim _). set (head := match strip_prefix "as " after with Some _ => _ | None => _ end).
  assert (forall ab, head = Ok ab -> closed ab.1) as Hhead.
  { assert (forall st ab, (let '(name, by_) := match split_once " by " st with
        | Some (n, r) => (n, r) | None => (st, "") end in
        alias ← ident (trim name); Ok (alias, trim by_)) = Ok ab -> closed ab.1) as Hst.
    { intros st ab. destruct (split_once " by " st) as [[n r]|];
        destruct (ident _) as [i|] eqn:Ei; try done; cbn; intros [= <-]; by eapply ident_closed. }
    intros ab. unfold head. destruct (strip_prefix "as " after) as [st|]; [apply Hst|].
    destruct (strip_prefix "AS " after) as [st|]; [apply Hst|]. by intros [= <-]. }
  destruct head as [ab|]; [|done]. specialize (Hhead ab eq_refl). cbn [mbind result_bind].
  assert (safe_builder (push_aggregate ("count(*) AS " +:+ ab.1) b)) as Hp.
  { destruct Hb. constructor; try done. cbn. apply Forall_app. split; [done|]. constructor; [|done].
    by apply closed_app. }
  destruct (is_empty_str ab.2); [by intros [= <-]|].
  destruct (idents ab.2) as [gs|] eqn:Eg; [|done]. cbn. intros [= <-]. apply idents_closed in Eg.
  destruct Hp. by constructor.
Qed.

Lemma stage_safe b raw b' : safe_builder b -> stage b raw = Ok b' -> safe_builder b'.
Proof.
  intros Hb. unfold stage. destruct (is_empty_str _); [by intros [= <-]|].
  destruct (split_first _) as [cmd rest]. unfold command. repeat case_bool_decide.
  - destruct (is_empty_str _); intros [= <-]; [done|]. destruct Hb. constructor; try done. cbn.
    apply Forall_app. split; [done|]. constructor; [by apply ilike_closed|done].
  - destruct (parse_where rest) as [w|] eqn:Ew; [|done]. cbn. intros [= <-]. apply parse_where_closed in Ew.
    destruct Hb. constructor; try done. cbn. apply Forall_app. split; [done|]. by constructor.
  - by apply parse_stats_safe.
  - destruct (idents rest) as [fs|] eqn:Ef; [|done]. cbn. intros [= <-]. apply idents_closed in Ef.
    destruct Hb. constructor; try done. cbn. by intros l [= <-].
  - destruct (parse_sort rest) as [o|] eqn:Eo; [|done]. cbn. intros [= <-]. apply parse_sort_closed in Eo.
    destruct Hb. constructor; try done. cbn. by intros l [= <-].
  - destruct (parse_u64 _) as [n|] eqn:En; [|done]. cbn. intros [= <-].
    destruct Hb. constructor; try done. cbn. intros m [= <-]. by eapply parse_u64_range.
  - done.
Qed.

Lemma digit_ident d : (0 <= d < 10)%Z -> ident_byte (digit_ascii d) = true.
Proof.
  intros Hd. destruct (digit_ascii_digit d Hd) as [Hx _].
  unfold ident_byte, is_ascii_alphanumeric. by rewrite Hx, orb_true_r.
Qed.

Lemma show_digits_ident f n acc : (0 <= n)%Z -> all_bytes ident_byte acc = true ->
  all_bytes ident_byte (show_digits f n acc) = true.
Proof.
  revert n acc. induction f as [|f IH]; intros n acc Hn Ha; [done|]. cbn [show_digits].
  case_bool_decide; cbn [all_bytes].
  - cbn. by rewrite digit_ident, Ha by lia.
  - apply IH; [by apply Z.div_pos|]. cbn [all_bytes].
    rewrite digit_ident by (by apply Z.mod_pos_bound). done.
Qed.

Lemma show_u64_closed n : (0 <= n)%Z -> closed (show_u64 n).
Proof. intros Hn. apply closed_bytes. by apply show_digits_ident. Qed.

Lemma render_closed b : safe_builder b -> closed (render b).
Proof.
  intros []. unfold render. apply closed_app; [done|]. apply closed_app.
  { unfold render_select. destruct (negb _).
    - apply closed_join; [done|]. by apply Forall_app.
    - destruct (b_select b) as [l|]; [|done]. apply closed_join; [done|]. auto. }
  apply closed_app; [done|]. apply closed_app.
  { destruct (is_nil _); [done|]. apply closed_app; [done|]. by apply closed_join. }
  apply closed_app.
  { destruct (is_nil _); [done|]. apply closed_app; [done|]. by apply closed_join. }
  apply closed_app.
  - destruct (b_order_by b) as [o|]; [|done]. apply closed_app; [done|]. auto.
  - destruct (b_limit b) as [n|]; [|done]. apply closed_app; [done|]. apply show_u64_closed. auto.
Qed.

Lemma stages_safe raws b b' : safe_builder b -> stages raws b = Ok b' -> safe_builder b'.
Proof.
  revert b. induction raws as [|raw raws IH]; intros b Hb; cbn; [by intros [= <-]|].
  destruct (stage b raw) as [b1|] eqn:E; [|done]. cbn. apply IH. by eapply stage_safe.
Qed.

(** Every failure is a parse error. *)
Lemma ident_error s e : ident s = Err e -> e = Parse.
Proof. unfold ident. case_match; [done|]. by intros [= <-]. Qed.

Lemma idents_error s e : idents s = Err e -> e = Parse.
Proof.
  unfold idents. generalize (split_on "," s) as ws. intros ws. induction ws as [|w ws IH]; cbn; [done|].
  destruct (ident (trim w)) as [|e'] eqn:Ei; cbn; [|intros [= <-]; by apply ident_error in Ei].
  destruct (traverse _ ws); cbn; [done|]. intros [= <-]. by apply IH.
Qed.

Lemma stage_error b raw e : stage b raw = Err e -> e = Parse.
Proof.
  unfold stage. destruct (is_empty_str _); [done|]. destruct (split_first _) as [cmd rest]. unfold command.
  repeat case_bool_decide.
  - done.
  - unfold parse_where. destruct (split_whitespace rest) as [|c [|op [|v vs]]]; try (by intros [= <-]).
    destruct (ident c) eqn:Ei; cbn; [|intros [= <-]; by apply ident_error in Ei].
    destruct (sql_op op); [done|]. case_bool_decide; [done|]. by intros [= <-].
  - unfold parse_stats. destruct (negb _); [by intros [= <-]|].
    set (head := match strip_prefix "as " _ with Some _ => _ | None => _ end).
    assert (forall e', head = Err e' -> e' = Parse) as Hh.
    { assert (forall st e', (let '(name, by_) := match split_once " by " st with
          | Some (n, r) => (n, r) | None => (st, "") end in
          alias ← ident (trim name); Ok (alias, trim by_)) = Err e' -> e' = Parse) as Hst.
      { intros st e'. destruct (split_once " by " st) as [[n r]|];
          (destruct (ident _) eqn:Ei; [done|]); cbn; intros [= <-]; by apply ident_error in Ei. }
      intros e'. unfold head. destruct (strip_prefix "as " _); [apply Hst|].
      destruct (strip_prefix "AS " _); [apply Hst|done]. }
    destruct head as [ab|e']; cbn; [|intros [= <-]; by apply Hh]. destruct (is_empty_str _); [done|].
    destruct (idents ab.2) eqn:Ei; cbn; [done|]. intros [= <-]. by apply idents_error in Ei.
  - destruct (idents rest) eqn:Ei; cbn; [done|]. intros [= <-]. by apply idents_error in Ei.
  - unfold parse_sort. destruct (ident _) eqn:Ei; cbn; [done|]. intros [= <-]. by apply ident_error in Ei.
  - destruct (parse_u64 _); cbn; [done|]. by intros [= <-].
  - by intros [= <-].
Qed.

Lemma stages_error raws b e : stages raws b = Err e -> e = Parse.
Proof.
  revert b. induction raws as [|raw raws IH]; intros b; cbn; [done|].
  destruct (stage b raw) eqn:Es; cbn; [apply IH|]. intros [= <-]. by apply stage_error in Es.
Qed.

Lemma default_safe : safe_builder Builder_default.
Proof. by constructor. Qed.

(** ** Pipelines

    The stages the grammar names, their text, and what each does to the
    statement. *)

Inductive Stage : Set :=
  | Search (term : list string)
  | Where (col op : string) (value : list string)
  | Contains (col : string) (value : list string)
  | Stats (alias : option string) (by_ : list string)
  | Fields (cols : list string)
  | Sort (col : string) (desc : bool)
  | Head (n : Z).

Definition cols_text (cols : list string) : string := join "," cols.

Definition print_stage (s : Stage) : string :=
  match s with
  | Search term => "search" +:+ " " +:+ join " " term
  | Where col op value => "where" +:+ " " +:+ join " " (col :: op :: value)
  | Contains col value => "where" +:+ " " +:+ join " " (col :: "contains" :: value)
  | Stats None [] => "stats" +:+ " " +:+ "count()"
  | Stats None by_ => "stats" +:+ " " +:+ "count() by " +:+ cols_text by_
  | Stats (Some a) [] => "stats" +:+ " " +:+ "count() as " +:+ a
  | Stats (Some a) by_ => "stats" +:+ " " +:+ "count() as " +:+ a +:+ " by " +:+ cols_text by_
  | Fields cols => "fields" +:+ " " +:+ cols_text cols
  | Sort col desc => "sort" +:+ " " +:+ join " " (col :: if desc then ["desc"] else [])
  | Head n => "head" +:+ " " +:+ show_u64 n
  end.

Definition print_pipeline (l : list Stage) : string := join " | " (print_stage <$> l).

Definition run_stage (b : Builder) (s : Stage) : Builder :=
  match s with
  | Search term => push_where (ilike "message" (join " " term)) b
  | Where col op value =>
      push_where (col +:+ " " +:+ default op (sql_op op) +:+ " " +:+ literal (join " " value)) b
  | Contains col value => push_where (ilike col (unquote (join " " value))) b
  | Stats alias by_ =>
      let b := push_aggregate ("count(*) AS " +:+ default "count" alias) b in
      if is_nil by_ then b else set_group_by by_ b
  | Fields cols => set_select cols b
  | Sort col desc => set_order_by (col +:+ if desc then " DESC" else "") b
  | Head n => set_limit n b
  end.

(** Column names, and words without white space or a bar. *)
Definition name_ok (s : string) : Prop := s <> "" /\ all_bytes ident_byte s = true.
Definition word_ok (s : string) : Prop := s <> "" /\ all_bytes word_byte s = true /\ free_of "|" s = true.

Definition stage_ok (s : Stage) : Prop :=
  match s with
  | Search term => term <> [] /\ Forall word_ok term
  | Where col op value => name_ok col /\ is_Some (sql_op op) /\ value <> [] /\ Forall word_ok value
  | Contains col value => name_ok col /\ value <> [] /\ Forall word_ok value
  | Stats alias by_ => (forall a, alias = Some a -> name_ok a) /\ Forall name_ok by_
  | Fields cols => cols <> [] /\ Forall name_ok cols
  | Sort col _ => name_ok col
  | Head n => (0 <= n <= u64_max)%Z
  end.

Definition words (l : list string) : Prop := Forall (fun w => w <> "" /\ all_bytes word_byte w = true) l.

Lemma ident_byte_word c : ident_byte c = true -> word_byte c = true /\ bool_decide ("|"%char = c) = false /\
  bool_decide (" "%char = c) = false /\ bool_decide (","%char = c) = false.
Proof. by destruct c as [[] [] [] [] [] [] [] []]. Qed.

Lemma name_word s : name_ok s -> word_ok s.
Proof.
  intros [Hne Hs]. split; [done|]. split; (eapply all_bytes_impl; [|exact Hs]); intros c Hc.
  - by apply ident_byte_word.
  - apply negb_true_iff. by apply ident_byte_word.
Qed.

Lemma name_free s : name_ok s -> free_of " " s = true /\ free_of "," s = true.
Proof.
  intros [Hne Hs]. split; (eapply all_bytes_impl; [|exact Hs]); intros c Hc; apply negb_true_iff;
    by apply ident_byte_word.
Qed.

Lemma ident_name s : name_ok s -> ident s = Ok s.
Proof. intros [Hne Hs]. unfold ident. rewrite Hs. by destruct s. Qed.

Lemma ident_edged s : name_ok s -> edged s.
Proof. intros Hs%name_word. apply word_edged; apply Hs. Qed.

Lemma words_of l : Forall word_ok l -> words l.
Proof. intros H. eapply Forall_impl; [exact H|]. intros w (? & ? & ?). done. Qed.

Lemma words_edged l : words l -> Forall edged l.
Proof. intros H. eapply Forall_impl; [exact H|]. intros w [? ?]. by apply word_edged. Qed.

Lemma idents_text cols : cols <> [] -> Forall name_ok cols -> idents (cols_text cols) = Ok cols.
Proof.
  intros Hne Hc. unfold idents, cols_text. rewrite split_join; [|done|].
  - clear Hne. induction Hc as [|w l Hw Hl IH]; [done|]. cbn [traverse].
    rewrite edged_trim, ident_name by (done || by apply ident_edged). cbn. by rewrite IH.
  - eapply Forall_impl; [exact Hc|]. intros w Hw. by apply name_free.
Qed.

Lemma cols_edged cols : cols <> [] -> Forall name_ok cols -> edged (cols_text cols).
Proof.
  intros Hne H. unfold cols_text. induction H as [|w ws Hw Hws IH]; [done|].
  destruct ws as [|w' ws]; [by apply ident_edged|].
  apply (edged_app w ","); [by apply ident_edged|done|]. by apply IH.
Qed.

(** A piece of the pipeline whose trimmed text is a command and its argument. *)
Lemma stage_command b w rest raw : w <> "" -> all_bytes word_byte w = true -> edged rest ->
  trim raw = w +:+ " " +:+ rest -> stage b raw = command (to_ascii_lowercase w) rest b.
Proof.
  intros Hne Hw He Hr. unfold stage. rewrite Hr. unfold split_first.
  rewrite (string_app_cons " " "" rest), string_app_nil_l.
  rewrite split_at_ws_word by done. destruct w as [|c w]; [done|]. cbn [is_empty_str String.append].
  rewrite string_app_cons. cbn [is_empty_str].
  change (trim_start (String " " rest)) with (trim_start rest). by rewrite edged_trim_start.
Qed.

Lemma where_text col op value : name_ok col -> word_ok op -> value <> [] -> words value ->
  split_whitespace (join " " (col :: op :: value)) = col :: op :: value.
Proof.
  intros Hc%name_word Ho Hne Hv. apply split_whitespace_join. constructor; [split; apply Hc|].
  constructor; [split; apply Ho|done].
Qed.

Lemma sql_op_word op : is_Some (sql_op op) -> word_ok op.
Proof.
  intros [o Ho]. unfold sql_op in Ho.
  assert (op ∈ ["="; "=="; "!="; "<>"; ">"; "<"; ">="; "<="]) as Hin.
  { repeat (case_bool_decide; [set_solver|]). done. }
  rewrite !elem_of_cons, elem_of_nil in Hin.
  by destruct Hin as [->|[->|[->|[->|[->|[->|[->|[->|]]]]]]]].
Qed.

Lemma substring_all t : String.substring 0 (String.length t) t = t.
Proof. induction t as [|c t IH]; [done|]. cbn. by rewrite IH. Qed.

(** What [parse_stats] does after the aggregate. *)
Lemma parse_stats_text t b : parse_stats ("count()" +:+ t) b =
  (let after := trim t in
   ab ← match strip_prefix "as " after, strip_prefix "AS " after with
        | Some stripped, _ | None, Some stripped =>
            let '(name, by_) := match split_once " by " stripped with
                                | Some (n, r) => (n, r) | None => (stripped, "") end in
            alias ← ident (trim name); Ok (alias, trim by_)
        | None, None => Ok ("count", after_by after)
        end;
   let b := push_aggregate ("count(*) AS " +:+ ab.1) b in
   if is_empty_str ab.2 then Ok b else gs ← idents ab.2; Ok (set_group_by gs b)).
Proof.
  unfold parse_stats.
  assert (starts_with "count()" (trim_start (to_ascii_lowercase ("count()" +:+ t))) = true) as ->.
  { apply starts_with_spec. by exists (to_ascii_lowercase t). }
  assert (trim_start ("count()" +:+ t) = "count()" +:+ t) as -> by done.
  assert (String.substring 7 (String.length ("count()" +:+ t) - 7) ("count()" +:+ t) = t) as ->; [|done].
  rewrite string_length_app. change (String.length "count()") with 7.
  replace (7 + String.length t - 7) with (String.length t) by lia. apply substring_all.
Qed.

Lemma trim_pad s : edged s -> trim (" " +:+ s) = s.
Proof. intros Hs. change (trim (String " " s) = s). rewrite trim_space_l. by apply edged_trim. Qed.

Lemma count_edged : edged "count()".
Proof. by apply word_edged. Qed.

Lemma by_text by_ : by_ <> [] -> Forall name_ok by_ ->
  edged (cols_text by_) /\ trim (cols_text by_) = cols_text by_ /\ is_empty_str (cols_text by_) = false.
Proof.
  intros Hne Hb. pose proof (cols_edged by_ Hne Hb) as He. split; [done|]. split; [by apply edged_trim|].
  destruct He as (_ & (c & r & -> & _) & _). done.
Qed.

Lemma stats_plain b : command "stats" "count()" b = Ok (run_stage b (Stats None [])).
Proof. done. Qed.

Lemma stats_by by_ b : by_ <> [] -> Forall name_ok by_ ->
  edged ("count() by " +:+ cols_text by_) /\
  command "stats" ("count() by " +:+ cols_text by_) b = Ok (run_stage b (Stats None by_)).
Proof.
  intros Hne Hb. destruct (by_text by_ Hne Hb) as (He & Ht & Hn).
  split; [by apply (edged_app "count()" " by "); [apply count_edged|..]|].
  change (command "stats" ?r b) with (parse_stats r b).
  change ("count() by " +:+ cols_text by_) with ("count()" +:+ (" " +:+ ("by " +:+ cols_text by_))).
  rewrite parse_stats_text; cbv zeta. rewrite trim_pad by (by apply (edged_app "by" " "); [apply word_edged|..]).
  assert (strip_prefix "as " ("by " +:+ cols_text by_) = None) as -> by done.
  assert (strip_prefix "AS " ("by " +:+ cols_text by_) = None) as -> by done.
  unfold after_by. change (split_once "by " ("by " +:+ cols_text by_)) with (Some ("", cols_text by_)).
  cbn [mbind result_bind fst snd]. rewrite Ht, Hn, idents_text by done. cbn. by destruct by_.
Qed.

Lemma stats_as a b : name_ok a -> edged ("count() as " +:+ a) /\
  command "stats" ("count() as " +:+ a) b = Ok (run_stage b (Stats (Some a) [])).
Proof.
  intros Ha. pose proof (ident_edged a Ha) as He. destruct (name_free a Ha) as [Hf _].
  split; [by apply (edged_app "count()" " as "); [apply count_edged|..]|].
  change (command "stats" ?r b) with (parse_stats r b).
  change ("count() as " +:+ a) with ("count()" +:+ (" " +:+ ("as " +:+ a))).
  rewrite parse_stats_text; cbv zeta. rewrite trim_pad by (by apply (edged_app "as" " "); [apply word_edged|..]).
  assert (strip_prefix "as " ("as " +:+ a) = Some a) as -> by (by apply strip_prefix_Some).
  assert (split_once " by " a = None) as ->.
  { apply split_once_None. destruct (contains " by " a) eqn:E; [|done]. apply contains_spec in E as (u & v & ->).
    rewrite !free_of_app, !andb_true_iff in Hf. by destruct Hf as (_ & ? & _). }
  rewrite (edged_trim a), ident_name by done. done.
Qed.

Lemma stats_as_by a by_ b : name_ok a -> by_ <> [] -> Forall name_ok by_ ->
  edged ("count() as " +:+ a +:+ " by " +:+ cols_text by_) /\
  command "stats" ("count() as " +:+ a +:+ " by " +:+ cols_text by_) b = Ok (run_stage b (Stats (Some a) by_)).
Proof.
  intros Ha Hne Hb. pose proof (ident_edged a Ha) as He. destruct (name_free a Ha) as [Hf _].
  destruct (by_text by_ Hne Hb) as (Hec & Ht & Hn). assert (edged (a +:+ " by " +:+ cols_text by_)) by by apply edged_app.
  split; [by apply (edged_app "count()" " as "); [apply count_edged|..]|].
  change (command "stats" ?r b) with (parse_stats r b).
  change ("count() as " +:+ ?r) with ("count()" +:+ (" " +:+ ("as " +:+ r))).
  rewrite parse_stats_text; cbv zeta. rewrite trim_pad by (by apply (edged_app "as" " "); [apply word_edged|..]).
  assert (forall r, strip_prefix "as " ("as " +:+ r) = Some r) as Hs by (intros; by apply strip_prefix_Some).
  rewrite Hs. change (" by " +:+ cols_text by_) with (String " " "by " +:+ cols_text by_).
  rewrite split_once_mark by done. rewrite (edged_trim a), ident_name by done. cbn [mbind result_bind fst snd].
  rewrite Ht, Hn, idents_text by done. cbn. by destruct by_.
Qed.

(** One stage, from its text. *)
Lemma command_print s b : stage_ok s -> exists w rest,
  print_stage s = w +:+ " " +:+ rest /\ w <> "" /\ all_bytes word_byte w = true /\ edged rest /\
  command (to_ascii_lowercase w) rest b = Ok (run_stage b s).
Proof.
  destruct s as [term|col op value|col value|alias by_|cols|col desc|n]; intros Hok.
  - destruct Hok as [Hne Hw]. pose proof (join_edged term Hne (words_edged _ (words_of _ Hw))) as He.
    exists "search", (join " " term). split; [done|]. split; [done|]. split; [done|]. split; [done|].
    change (command _ ?r b) with
      (Ok (if is_empty_str (trim r) then b else push_where (ilike "message" (trim r)) b)).
    rewrite edged_trim by done. cbn [run_stage]. by destruct He as (_ & (c & r & -> & _) & _).
  - destruct Hok as (Hc & Ho & Hne & Hv). pose proof (sql_op_word _ Ho) as How.
    exists "where", (join " " (col :: op :: value)). split; [done|]. split; [done|]. split; [done|]. split.
    { apply join_edged; [done|]. apply words_edged. constructor; [split; apply (name_word _ Hc)|].
      constructor; [split; apply How|by apply words_of]. }
    change (command _ ?r b) with (w ← parse_where r; Ok (push_where w b)). unfold parse_where.
    rewrite where_text by (done || by apply words_of). destruct value as [|v vs]; [done|].
    rewrite ident_name by done. cbn [mbind result_bind]. destruct Ho as [o Ho]. cbn [run_stage]. by rewrite Ho.
  - destruct Hok as (Hc & Hne & Hv).
    exists "where", (join " " (col :: "contains" :: value)). split; [done|]. split; [done|]. split; [done|]. split.
    { apply join_edged; [done|]. apply words_edged. constructor; [split; apply (name_word _ Hc)|].
      constructor; [done|by apply words_of]. }
    change (command _ ?r b) with (w ← parse_where r; Ok (push_where w b)). unfold parse_where.
    rewrite where_text by (done || by apply words_of). destruct value as [|v vs]; [done|].
    by rewrite ident_name.
  - destruct Hok as [Ha Hb]. destruct alias as [a|], by_ as [|g gs].
    + destruct (stats_as a b) as [He Hr]; [auto|]. by exists "stats", ("count() as " +:+ a).
    + destruct (stats_as_by a (g :: gs) b) as [He Hr]; [by auto..|].
      by exists "stats", ("count() as " +:+ a +:+ " by " +:+ cols_text (g :: gs)).
    + exists "stats", "count()". split_and!; [done..|apply count_edged|apply stats_plain].
    + destruct (stats_by (g :: gs) b) as [He Hr]; [done..|]. by exists "stats", ("count() by " +:+ cols_text (g :: gs)).
  - destruct Hok as [Hne Hc]. exists "fields", (cols_text cols). split_and!; [done..|by apply cols_edged|].
    change (command _ ?r b) with (fs ← idents r; Ok (set_select fs b)). by rewrite idents_text.
  - exists "sort", (join " " (col :: if desc then ["desc"] else [])). pose proof (name_word _ Hok) as Hw.
    assert (words (col :: if desc then ["desc"] else [])) as Hws.
    { constructor; [split; apply Hw|]. by destruct desc; repeat constructor. }
    split_and!; [done..|by apply join_edged; [|apply words_edged]|].
    change (command _ ?r b) with (o ← parse_sort r; Ok (set_order_by o b)). unfold parse_sort.
    rewrite split_whitespace_join by done. cbn [lookup list_lookup default from_option].
    destruct desc; cbn -[ident]; by rewrite ident_name.
  - cbn in Hok. exists "head", (show_u64 n).
    assert (edged (show_u64 n)) as He.
    { destruct (show_u64_head n) as (d & r & Hs & _); [lia|]. apply word_edged; [by rewrite Hs|].
      eapply all_bytes_impl; [|apply show_digits_ident; [lia|done]]. intros c Hc. by apply ident_byte_word. }
    split_and!; [done..|].
    change (command _ ?r b) with (k ← ok_or (parse_u64 (trim r)) Parse; Ok (set_limit k b)).
    by rewrite edged_trim, parse_show_u64.
Qed.

Lemma free_join c sep l : free_of c sep = true -> Forall (fun w => free_of c w = true) l ->
  free_of c (join sep l) = true.
Proof.
  intros Hs Hl. induction Hl as [|w l Hw Hl IH]; [done|]. destruct l as [|w' l]; [done|].
  change (free_of c (w +:+ sep +:+ join sep (w' :: l)) = true). by rewrite !free_of_app, Hw, Hs, IH.
Qed.

Lemma print_free s : stage_ok s -> free_of "|" (print_stage s) = true.
Proof.
  assert (forall l, Forall word_ok l -> free_of "|" (join " " l) = true) as Hws.
  { intros l Hl. apply free_join; [done|]. eapply Forall_impl; [exact Hl|]. by intros w (_ & _ & ?). }
  assert (forall l, Forall name_ok l -> free_of "|" (cols_text l) = true) as Hcs.
  { intros l Hl. apply free_join; [done|]. eapply Forall_impl; [exact Hl|]. by intros w (_ & _ & ?)%name_word. }
  assert (forall a, name_ok a -> free_of "|" a = true) as Hn by (by intros a (_ & _ & ?)%name_word).
  destruct s as [term|col op value|col value|alias by_|cols|col desc|n]; cbn [stage_ok print_stage]; intros Hok.
  - rewrite !free_of_app, Hws by apply Hok. done.
  - destruct Hok as (Hc & Ho & _ & Hv). rewrite !free_of_app, Hws; [done|].
    constructor; [by apply name_word|]. constructor; [by apply sql_op_word|done].
  - destruct Hok as (Hc & _ & Hv). rewrite !free_of_app, Hws; [done|]. constructor; [by apply name_word|by constructor].
  - destruct Hok as [Ha Hb]. destruct alias as [a|]; [specialize (Hn a (Ha a eq_refl))|];
      destruct by_ as [|g gs]; cbv beta iota; rewrite ?free_of_app, ?Hn, ?Hcs by done; done.
  - rewrite !free_of_app, Hcs by apply Hok. done.
  - rewrite !free_of_app, Hws; [done|]. constructor; [by apply name_word|]. by destruct desc; repeat constructor.
  - rewrite !free_of_app. assert (free_of "|" (show_u64 n) = true) as ->; [|done].
    eapply all_bytes_impl; [|apply show_digits_ident; [lia|done]]. intros c Hc. apply negb_true_iff. by apply ident_byte_word.
Qed.

Lemma stage_print s b pre post : stage_ok s -> pre ∈ [""; " "] -> post ∈ [""; " "] ->
  stage b (pre +:+ print_stage s +:+ post) = Ok (run_stage b s).
Proof.
  intros Hok Hpre Hpost. destruct (command_print s b Hok) as (w & rest & Hp & Hne & Hw & He & Hc).
  rewrite <- Hc. apply stage_command; [done..|].
  assert (edged (print_stage s)) as Hes by (rewrite Hp; apply edged_app; [by apply word_edged|done..]).
  rewrite <- Hp. rewrite !elem_of_cons, elem_of_nil in Hpre, Hpost.
  assert (trim (print_stage s +:+ post) = print_stage s) as Ht.
  { destruct Hpost as [->|[->|[]]]; [rewrite string_app_nil_r; by apply edged_trim|by apply edged_trim_space_r]. }
  destruct Hpre as [->|[->|[]]]; [done|]. change (trim (String " " (print_stage s +:+ post)) = print_stage s).
  by rewrite trim_space_l.
Qed.

Lemma stages_print l pre b : Forall stage_ok l -> pre ∈ [""; " "] -> l <> [] ->
  stages (split_on "|" (pre +:+ print_pipeline l)) b = Ok (foldl run_stage b l).
Proof.
  intros Hl. revert pre b. induction Hl as [|s l Hs Hl IH]; intros pre b Hpre Hne; [done|].
  pose proof (print_free s Hs) as Hf. unfold print_pipeline in *.
  assert (free_of "|" pre = true) as Hfp by (rewrite !elem_of_cons, elem_of_nil in Hpre; by destruct Hpre as [->|[->|[]]]).
  destruct l as [|s' l].
  - cbn [fmap list_fmap join]. rewrite split_on_free by (by rewrite free_of_app, Hfp).
    cbn [stages foldl]. rewrite <- (string_app_nil_r (print_stage s)). rewrite stage_print by (done || by left). done.
  - assert (pre +:+ join " | " (print_stage <$> s :: s' :: l) =
      (pre +:+ print_stage s +:+ " ") +:+ String "|" (" " +:+ join " | " (print_stage <$> s' :: l))) as ->.
    { by rewrite <- !string_app_assoc. }
    rewrite split_on_app by (by rewrite !free_of_app, Hfp, Hf). cbn [stages].
    rewrite stage_print by (done || by right; left).
    cbn [mbind result_bind foldl]. apply (IH " "); [by right; left|done].
Qed.


(** A pipeline of well-formed stages, written out and lowered, gives the
    statement its stages build in order: filters conjoined, the last selection,
    grouping, order and limit. *)
Theorem lower_pipeline l : Forall stage_ok l ->
  lower (print_pipeline l) = Ok (render (foldl run_stage Builder_default l)).
Proof.
  intros Hl. unfold lower. destruct l as [|s l]; [done|].
  rewrite (stages_print (s :: l) "") by (done || by left). done.
Qed.

Lemma lower_pipeline_witness :
  lower "search failed logins | where severity = high | stats count() as n by host,app | sort n desc | head 5" =
  Ok "SELECT host, app, count(*) AS n FROM events WHERE message ILIKE '%failed logins%' AND severity = 'high' GROUP BY host, app ORDER BY n DESC LIMIT 5".
Proof.
  apply (lower_pipeline [Search ["failed"; "logins"]; Where "severity" "=" ["high"];
    Stats (Some "n") ["host"; "app"]; Sort "n" true; Head 5]).
  apply Forall_cons; split; [by repeat constructor|].
  apply Forall_cons; split; [split_and!; [done..|by exists "="|done|by repeat constructor]|].
  apply Forall_cons; split; [split; [by intros a [= <-]|by repeat constructor]|].
  by repeat constructor.
Defined.
