(* ===== verification/Config.v ===== *)
(** * [sigil-config]: the declared state of a node and its validation

    The typed configuration of [lib.rs], its accessors, and the semantic
    checks of [validate.rs].  A message of the report is a constructor with
    the names it prints.  Whether a path is a directory is the argument
    [is_dir]; the text of a YAML value is [YamlText]. *)

From stdpp Require Import gmap strings list.
From S2P Require Import Prelude Containers Yaml.

(** ** Data *)

Record UserConfig : Set := mkUser {
  u_username : string;
  u_password_hash : option string;
  u_password : option string;
  u_roles : list string
}.

Record AuthConfig : Set := mkAuth {
  ac_enabled : bool;
  ac_jwt_secret : string;
  ac_token_ttl_secs : Z;
  ac_users : list UserConfig
}.

Record EdrConfig : Set := mkEdrConfig {
  ec_enabled : bool;
  ec_listen : string;
  ec_tls_cert : option string;
  ec_tls_key : option string;
  ec_enrollment_tokens : list string
}.

Record ClusterConfig : Set := mkCluster {
  cc_targets : list string;
  cc_nodes : list string;
  cc_shards : option Z;
  cc_replication : option Z;
  cc_object_store : yaml;
  cc_transport : yaml
}.

Record CodecConfig : Set := mkCodec { cd_kind : string; cd_settings : smap yaml }.

Record InputConfig : Set := mkInput {
  in_id : string;
  in_kind : string;
  in_codec : CodecConfig;
  in_settings : smap yaml
}.

Record PipelineConfig : Set := mkPipeline {
  pl_id : string;
  pl_from : list string;
  pl_steps : list yaml;
  pl_route : list string
}.

Record PagerDutyOutput : Set := mkPagerDuty { pd_routing_key : string; pd_url : option string }.

Record JiraOutput : Set := mkJira {
  ji_url : string;
  ji_project : string;
  ji_user : string;
  ji_token : string;
  ji_issue_type : option string
}.

Record MispOutput : Set := mkMisp { mi_url : string; mi_api_key : string }.

Record AlertOutputs : Set := mkOutputs {
  ao_file : option string;
  ao_webhook : option string;
  ao_slack : option string;
  ao_pagerduty : option PagerDutyOutput;
  ao_jira : option JiraOutput;
  ao_misp : option MispOutput
}.

Record SigmaConfig : Set := mkSigmaConfig {
  sc_enabled : bool;
  sc_rulepacks : list string;
  sc_rules_dir : option string;
  sc_outputs : AlertOutputs
}.

Record Retention : Set := mkRetention { rt_hot : string; rt_warm : string; rt_cold : string }.

Record IndexConfig : Set := mkIndex {
  ic_retention : Retention;
  ic_path : option string;
  ic_cold_path : option string;
  ic_catalog_path : option string
}.

Record Config : Set := mkConfig {
  cf_version : Z;
  cf_cluster : ClusterConfig;
  cf_inputs : list InputConfig;
  cf_pipelines : list PipelineConfig;
  cf_index : IndexConfig;
  cf_sigma : SigmaConfig;
  cf_auth : AuthConfig;
  cf_data_dir : option string;
  cf_ml_sidecar : option string;
  cf_detectors : yaml;
  cf_edr : EdrConfig;
  cf_correlation : yaml;
  cf_plugins : list yaml
}.

Local Open Scope string_scope.

(** The defaults of the blocks. *)
Definition Retention_default : Retention := mkRetention "7d" "30d" "365d".
Definition IndexConfig_default : IndexConfig := mkIndex Retention_default None None None.
Definition AlertOutputs_default : AlertOutputs := mkOutputs None None None None None None.
Definition SigmaConfig_default : SigmaConfig := mkSigmaConfig true [] None AlertOutputs_default.
Definition AuthConfig_default : AuthConfig := mkAuth true "" (8 * 60 * 60) [].
Definition EdrConfig_default : EdrConfig := mkEdrConfig false "0.0.0.0:50055" None None [].
Definition ClusterConfig_default : ClusterConfig := mkCluster [] [] None None YNull YNull.
Definition CodecConfig_default : CodecConfig := mkCodec "json" [].

(** [Config::parse("version: ...")]. *)
Definition empty_config (version : Z) : Config :=
  mkConfig version ClusterConfig_default [] [] IndexConfig_default SigmaConfig_default AuthConfig_default
    None None YNull EdrConfig_default YNull [].

(** ** Accessors *)

Definition resolved_data_dir (c : Config) : string := default "./data/store" (cf_data_dir c).
Definition resolved_path (c : IndexConfig) : string := default "./data/index" (ic_path c).
Definition resolved_cold_path (c : IndexConfig) : string := default "./data/cold" (ic_cold_path c).
Definition resolved_catalog_path (c : IndexConfig) : string := default "./data/catalog.json" (ic_catalog_path c).

Definition transport_kind (c : ClusterConfig) : option string :=
  match cc_transport c with
  | YMapping m => match ymap_get m (YString "kind") with Some (YString s) => Some s | _ => None end
  | _ => None
  end.

Fixpoint collect_named_steps (value : yaml) : list (string * yaml) :=
  match value with
  | YString name => [(name, YNull)]
  | YSequence items => concat (collect_named_steps <$> items)
  | YMapping m => omap (fun kv => match kv.1 with YString name => Some (name, kv.2) | _ => None end) m
  | _ => []
  end.

Definition enrich_steps (c : Config) : list (string * yaml) :=
  concat ((fun p => concat ((fun step => match step with
    | YMapping m => match ymap_get m (YString "enrich") with
                    | Some enrich => collect_named_steps enrich | None => [] end
    | _ => []
    end) <$> pl_steps p)) <$> cf_pipelines c).

Definition detector_steps (c : Config) : list (string * yaml) := collect_named_steps (cf_detectors c).

(** ** Validation *)

Definition KNOWN_SINKS : list string := ["index"; "sigma"; "correlation"].
Definition KNOWN_CODECS : list string := ["json"; "syslog"; "cef"; "leef"].
Definition IMPLEMENTED_INPUTS : list string := ["file"; "syslog"].

Inductive cfg_error : Set :=
  | UnsupportedVersion (v : Z)
  | EmptyInputId
  | DuplicateInput (id : string)
  | FileWithoutPath (id : string)
  | SyslogWithoutListen (id : string)
  | DuplicatePipeline (id : string)
  | UnknownInput (pipeline src : string)
  | UnknownSink (pipeline sink : string)
  | EmptyUsername
  | DuplicateUser (name : string)
  | NoCredential (name : string)
  | EdrWithoutListen
  | EdrHalfTls.

Inductive cfg_warning : Set :=
  | InputNotImplemented (id kind : string)
  | CodecNotImplemented (id codec : string)
  | PipelineWithoutInputs (id : string)
  | PipelineWithoutRoute (id : string)
  | CorrelationNotWired (id : string)
  | RulepacksNotResolvable (packs : list string)
  | RulesDirMissing (dir : string)
  | NoRules
  | NoUsers
  | EphemeralSecret
  | UnknownRole (user role : string)
  | EdrPlaintext
  | NoEnrollmentTokens.

Record ValidationReport : Set := mkReport { errors : list cfg_error; warnings : list cfg_warning }.

Definition no_report : ValidationReport := mkReport [] [].
Definition join_reports (a b : ValidationReport) : ValidationReport :=
  mkReport (errors a ++ errors b)%list (warnings a ++ warnings b)%list.
Definition err (b : bool) (e : cfg_error) : ValidationReport := mkReport (if b then [e] else []) [].
Definition warn (b : bool) (w : cfg_warning) : ValidationReport := mkReport [] (if b then [w] else []).
Definition reports (l : list ValidationReport) : ValidationReport := foldr join_reports no_report l.

Definition report_ok (r : ValidationReport) : bool := is_nil (errors r).

Definition is_blank (s : string) : bool := is_empty_str (trim s).

(** A loop over entries that keeps the set of the keys it has met. *)
Fixpoint check_seq {A} (key : A -> string) (f : list string -> A -> ValidationReport) (seen : list string)
    (l : list A) : ValidationReport :=
  match l with
  | [] => no_report
  | x :: l => join_reports (f seen x) (check_seq key f (key x :: seen) l)
  end.

Section validate.
Context `{YamlText} (is_dir : string -> bool).

Definition setting_str (i : InputConfig) (key : string) : option string :=
  match smap_get (in_settings i) key with
  | Some (YString s) => Some s
  | Some other => trim <$> yaml_text other
  | None => None
  end.

(** One input, with the ids seen before it. *)
Definition check_input (seen : list string) (i : InputConfig) : ValidationReport := reports [
  err (is_blank (in_id i)) EmptyInputId;
  err (bool_decide (in_id i ∈ seen)) (DuplicateInput (in_id i));
  warn (bool_decide (in_kind i ∉ IMPLEMENTED_INPUTS)) (InputNotImplemented (in_id i) (in_kind i));
  warn (bool_decide (cd_kind (in_codec i) ∉ KNOWN_CODECS)) (CodecNotImplemented (in_id i) (cd_kind (in_codec i)));
  err (bool_decide (in_kind i = "file") && bool_decide (setting_str i "path" = None)) (FileWithoutPath (in_id i));
  err (bool_decide (in_kind i = "syslog") && bool_decide (setting_str i "listen" = None)) (SyslogWithoutListen (in_id i))].

Definition check_inputs : list InputConfig -> ValidationReport := check_seq in_id check_input [].

Definition check_target (p : PipelineConfig) (to : string) : ValidationReport :=
  if bool_decide (to ∉ KNOWN_SINKS) then err true (UnknownSink (pl_id p) to)
  else warn (bool_decide (to = "correlation")) (CorrelationNotWired (pl_id p)).

Definition check_pipeline (inputs seen : list string) (p : PipelineConfig) : ValidationReport := reports [
  err (bool_decide (pl_id p ∈ seen)) (DuplicatePipeline (pl_id p));
  warn (is_nil (pl_from p)) (PipelineWithoutInputs (pl_id p));
  reports ((fun src => err (bool_decide (src ∉ inputs)) (UnknownInput (pl_id p) src)) <$> pl_from p);
  warn (is_nil (pl_route p)) (PipelineWithoutRoute (pl_id p));
  reports (check_target p <$> pl_route p)].

Definition check_pipelines (inputs : list string) : list PipelineConfig -> ValidationReport :=
  check_seq pl_id (check_pipeline inputs) [].

Definition routes_to_sigma (c : Config) : bool :=
  existsb (fun p => existsb (fun t => bool_decide (t = "sigma")) (pl_route p)) (cf_pipelines c).

Definition check_sigma (c : Config) : ValidationReport :=
  let s := cf_sigma c in
  if sc_enabled s && routes_to_sigma c then reports [
    warn (negb (is_nil (sc_rulepacks s)) && bool_decide (sc_rules_dir s = None)) (RulepacksNotResolvable (sc_rulepacks s));
    match sc_rules_dir s with
    | Some dir => warn (negb (is_dir dir)) (RulesDirMissing dir)
    | None => warn (is_nil (sc_rulepacks s)) NoRules
    end]
  else no_report.

Definition check_user (seen : list string) (u : UserConfig) : ValidationReport := reports [
  err (is_blank (u_username u)) EmptyUsername;
  err (bool_decide (u_username u ∈ seen)) (DuplicateUser (u_username u));
  err (bool_decide (u_password_hash u = None) && bool_decide (u_password u = None)) (NoCredential (u_username u));
  reports ((fun r => warn (bool_decide (r ∉ ["viewer"; "analyst"; "admin"])) (UnknownRole (u_username u) r)) <$> u_roles u)].

Definition check_users : list UserConfig -> ValidationReport := check_seq u_username check_user [].

Definition check_auth (a : AuthConfig) : ValidationReport :=
  if ac_enabled a then reports [
    warn (is_nil (ac_users a)) NoUsers;
    warn (is_blank (ac_jwt_secret a)) EphemeralSecret;
    check_users (ac_users a)]
  else no_report.

Definition check_edr (e : EdrConfig) : ValidationReport :=
  if ec_enabled e then reports [
    err (is_blank (ec_listen e)) EdrWithoutListen;
    match ec_tls_cert e, ec_tls_key e with
    | Some _, None | None, Some _ => err true EdrHalfTls
    | None, None => warn true EdrPlaintext
    | Some _, Some _ => no_report
    end;
    warn (forallb is_blank (ec_enrollment_tokens e)) NoEnrollmentTokens]
  else no_report.

Definition validate (c : Config) : ValidationReport := reports [
  err (bool_decide (cf_version c <> 1%Z)) (UnsupportedVersion (cf_version c));
  check_inputs (cf_inputs c);
  check_pipelines (in_id <$> cf_inputs c) (cf_pipelines c);
  check_sigma c;
  check_auth (cf_auth c);
  check_edr (cf_edr c)].
End validate.

Local Close Scope string_scope.

(** ** What a valid configuration is *)

Section wf.
Context `{YamlText}.

(** A key that occurs more than once in the list. *)
Definition repeated {A} (key : A -> string) (l : list A) (k : string) : Prop :=
  exists (l1 : list A) x l2, l = l1 ++ x :: l2 /\ key x = k /\ k ∈ key <$> l1.

(** The defects of a configuration, each with its message. *)
Inductive defect (c : Config) : cfg_error -> Prop :=
  | d_version : cf_version c <> 1%Z -> defect c (UnsupportedVersion (cf_version c))
  | d_input_blank i : i ∈ cf_inputs c -> is_blank (in_id i) = true -> defect c EmptyInputId
  | d_input_dup k : repeated in_id (cf_inputs c) k -> defect c (DuplicateInput k)
  | d_input_file i : i ∈ cf_inputs c -> in_kind i = "file"%string -> setting_str i "path" = None ->
      defect c (FileWithoutPath (in_id i))
  | d_input_syslog i : i ∈ cf_inputs c -> in_kind i = "syslog"%string -> setting_str i "listen" = None ->
      defect c (SyslogWithoutListen (in_id i))
  | d_pipeline_dup k : repeated pl_id (cf_pipelines c) k -> defect c (DuplicatePipeline k)
  | d_pipeline_from p s : p ∈ cf_pipelines c -> s ∈ pl_from p -> s ∉ in_id <$> cf_inputs c ->
      defect c (UnknownInput (pl_id p) s)
  | d_pipeline_route p t : p ∈ cf_pipelines c -> t ∈ pl_route p -> t ∉ KNOWN_SINKS ->
      defect c (UnknownSink (pl_id p) t)
  | d_user_blank u : ac_enabled (cf_auth c) = true -> u ∈ ac_users (cf_auth c) ->
      is_blank (u_username u) = true -> defect c EmptyUsername
  | d_user_dup k : ac_enabled (cf_auth c) = true -> repeated u_username (ac_users (cf_auth c)) k ->
      defect c (DuplicateUser k)
  | d_user_credential u : ac_enabled (cf_auth c) = true -> u ∈ ac_users (cf_auth c) ->
      u_password_hash u = None -> u_password u = None -> defect c (NoCredential (u_username u))
  | d_edr_listen : ec_enabled (cf_edr c) = true -> is_blank (ec_listen (cf_edr c)) = true -> defect c EdrWithoutListen
  | d_edr_tls : ec_enabled (cf_edr c) = true ->
      is_Some (ec_tls_cert (cf_edr c)) /\ ec_tls_key (cf_edr c) = None \/
      ec_tls_cert (cf_edr c) = None /\ is_Some (ec_tls_key (cf_edr c)) -> defect c EdrHalfTls.


(** The same, said positively. *)
Record config_wf (c : Config) : Prop := {
  wf_version : cf_version c = 1%Z;
  wf_inputs : NoDup (in_id <$> cf_inputs c);
  wf_input i : i ∈ cf_inputs c ->
    is_blank (in_id i) = false /\
    (in_kind i = "file"%string -> is_Some (setting_str i "path")) /\
    (in_kind i = "syslog"%string -> is_Some (setting_str i "listen"));
  wf_pipelines : NoDup (pl_id <$> cf_pipelines c);
  wf_from p s : p ∈ cf_pipelines c -> s ∈ pl_from p -> exists i, i ∈ cf_inputs c /\ in_id i = s;
  wf_route p t : p ∈ cf_pipelines c -> t ∈ pl_route p -> t ∈ KNOWN_SINKS;
  wf_users : ac_enabled (cf_auth c) = true -> NoDup (u_username <$> ac_users (cf_auth c));
  wf_user u : ac_enabled (cf_auth c) = true -> u ∈ ac_users (cf_auth c) ->
    is_blank (u_username u) = false /\ (is_Some (u_password_hash u) \/ is_Some (u_password u));
  wf_edr : ec_enabled (cf_edr c) = true ->
    is_blank (ec_listen (cf_edr c)) = false /\
    (is_Some (ec_tls_cert (cf_edr c)) <-> is_Some (ec_tls_key (cf_edr c)))
}.
End wf.

(** ** What the report says *)

Section report.
Lemma elem_reports_cons e r l : e ∈ errors (reports (r :: l)) <-> e ∈ errors r \/ e ∈ errors (reports l).
Proof. cbn. apply elem_of_app. Qed.

Lemma elem_err e b x : e ∈ errors (err b x) <-> b = true /\ e = x.
Proof.
  unfold err. cbn. destruct b; rewrite ?list_elem_of_singleton; [naive_solver|].
  split; [by intros ?%not_elem_of_nil|by intros [? _]].
Qed.

Lemma elem_warn e b w : e ∈ errors (warn b w) <-> False.
Proof. split; [by intros ?%not_elem_of_nil|done]. Qed.

Lemma elem_nil_report e : e ∈ errors (reports []) <-> False.
Proof. split; [by intros ?%not_elem_of_nil|done]. Qed.

Lemma elem_reports_map {A} (f : A -> ValidationReport) (l : list A) e :
  e ∈ errors (reports (f <$> l)) <-> exists x, x ∈ l /\ e ∈ errors (f x).
Proof.
  induction l as [|x l IH]; cbn; [split; [by intros ?%not_elem_of_nil|by intros (? & ?%not_elem_of_nil & _)]|].
  rewrite elem_of_app, IH. setoid_rewrite elem_of_cons. naive_solver.
Qed.

Lemma elem_check_seq {A} (key : A -> string) f e (l : list A) : forall seen,
  e ∈ errors (check_seq key f seen l) <->
    exists (l1 : list A) x l2, l = l1 ++ x :: l2 /\ e ∈ errors (f (reverse (key <$> l1) ++ seen) x).
Proof.
  induction l as [|x l IH]; intros seen; cbn [check_seq].
  - split; [by intros ?%not_elem_of_nil|]. by intros ([] & x & l2 & He & _).
  - cbn [errors join_reports]. rewrite elem_of_app, IH. split.
    + intros [He|(l1 & y & l2 & -> & He)]; [by exists [], x, l|].
      exists (x :: l1), y, l2. split; [done|]. cbn [fmap list_fmap]. rewrite reverse_cons, <- app_assoc. done.
    + intros ([|z l1] & y & l2 & Hl & He); cbn in Hl; injection Hl as -> ->; [by left|]. right.
      exists l1, y, l2. split; [done|]. cbn [fmap list_fmap] in He. by rewrite reverse_cons, <- app_assoc in He.
Qed.

End report.

Create Rewrite HintDb report.
#[export] Hint Rewrite @elem_reports_cons @elem_err @elem_warn @elem_nil_report @elem_reports_map : report.

Section spec.
Context `{YamlText} (is_dir : string -> bool).

Lemma split_elem {A} (l : list A) (P : A -> Prop) :
  (exists l1 x l2, l = l1 ++ x :: l2 /\ P x) <-> exists x, x ∈ l /\ P x.
Proof.
  split.
  - intros (l1 & x & l2 & -> & Hx). exists x. split; [|done]. apply elem_of_app. right. by left.
  - intros (x & (l1 & l2 & ->)%list_elem_of_split & Hx). eauto.
Qed.

Lemma elem_check_input e seen i : e ∈ errors (check_input seen i) <->
  (is_blank (in_id i) = true /\ e = EmptyInputId) \/ (in_id i ∈ seen /\ e = DuplicateInput (in_id i)) \/
  ((in_kind i = "file"%string /\ setting_str i "path" = None) /\ e = FileWithoutPath (in_id i)) \/
  ((in_kind i = "syslog"%string /\ setting_str i "listen" = None) /\ e = SyslogWithoutListen (in_id i)).
Proof.
  unfold check_input. autorewrite with report. rewrite !andb_true_iff, !bool_decide_eq_true. tauto.
Qed.

Lemma elem_target p t e : e ∈ errors (check_target p t) <-> (t ∉ KNOWN_SINKS) /\ e = UnknownSink (pl_id p) t.
Proof.
  unfold check_target. case_bool_decide; autorewrite with report; naive_solver.
Qed.

Lemma elem_check_pipeline inputs seen p e : e ∈ errors (check_pipeline inputs seen p) <->
  (pl_id p ∈ seen /\ e = DuplicatePipeline (pl_id p)) \/
  (exists s, s ∈ pl_from p /\ (s ∉ inputs) /\ e = UnknownInput (pl_id p) s) \/
  (exists t, t ∈ pl_route p /\ (t ∉ KNOWN_SINKS) /\ e = UnknownSink (pl_id p) t).
Proof.
  unfold check_pipeline. autorewrite with report. setoid_rewrite elem_target. setoid_rewrite elem_err.
  setoid_rewrite bool_decide_eq_true. tauto.
Qed.

Lemma elem_check_user seen u e : e ∈ errors (check_user seen u) <->
  (is_blank (u_username u) = true /\ e = EmptyUsername) \/
  (u_username u ∈ seen /\ e = DuplicateUser (u_username u)) \/
  ((u_password_hash u = None /\ u_password u = None) /\ e = NoCredential (u_username u)).
Proof.
  unfold check_user. autorewrite with report. setoid_rewrite elem_warn.
  rewrite !andb_true_iff, !bool_decide_eq_true. naive_solver.
Qed.

(** The errors of a checking loop: those of an entry seen alone, and the
    repeated keys. *)
Lemma elem_check_loop {A} (key : A -> string) f (own : A -> cfg_error -> Prop) (dup : string -> cfg_error)
    (l : list A) e :
  (forall seen x e, e ∈ errors (f seen x) <-> own x e \/ key x ∈ seen /\ e = dup (key x)) ->
  e ∈ errors (check_seq key f [] l) <->
    (exists x, x ∈ l /\ own x e) \/ (exists k, repeated key l k /\ e = dup k).
Proof.
  intros Hf. rewrite elem_check_seq. setoid_rewrite app_nil_r. setoid_rewrite Hf.
  setoid_rewrite elem_of_reverse. rewrite <- split_elem. unfold repeated. split.
  - intros (l1 & x & l2 & Hl & [?|[? ->]]); [left; eauto 10|]. right. exists (key x). split; [eauto 10|done].
  - intros [(l1 & x & l2 & ? & ?)|(k & (l1 & x & l2 & ? & <- & ?) & ->)]; exists l1, x, l2; split; auto.
Qed.

Lemma repeated_NoDup {A} (key : A -> string) (l : list A) : (forall k, not (repeated key l k)) <-> NoDup (key <$> l).
Proof.
  split.
  - induction l as [|x l IH] using rev_ind; intros Hn; cbn; [constructor|].
    rewrite fmap_app. apply NoDup_app. split; [|split].
    + apply IH. intros k (l1 & y & l2 & -> & Hy & Hin). apply (Hn k). exists l1, y, (l2 ++ [x]).
      by rewrite <- app_assoc.
    + intros k Hin Hk. cbn in Hk. apply list_elem_of_singleton in Hk as ->. apply (Hn (key x)). by exists l, x, [].
    + apply NoDup_singleton.
  - intros Hl k (l1 & x & l2 & -> & <- & Hin). rewrite fmap_app in Hl. apply NoDup_app in Hl as (_ & Hd & _).
    apply (Hd _ Hin). cbn. by left.
Qed.

Definition input_own (i : InputConfig) (e : cfg_error) : Prop :=
  (is_blank (in_id i) = true /\ e = EmptyInputId) \/
  ((in_kind i = "file"%string /\ setting_str i "path" = None) /\ e = FileWithoutPath (in_id i)) \/
  ((in_kind i = "syslog"%string /\ setting_str i "listen" = None) /\ e = SyslogWithoutListen (in_id i)).
Definition pipeline_own (inputs : list string) (p : PipelineConfig) (e : cfg_error) : Prop :=
  (exists s, s ∈ pl_from p /\ (s ∉ inputs) /\ e = UnknownInput (pl_id p) s) \/
  (exists t, t ∈ pl_route p /\ (t ∉ KNOWN_SINKS) /\ e = UnknownSink (pl_id p) t).
Definition user_own (u : UserConfig) (e : cfg_error) : Prop :=
  (is_blank (u_username u) = true /\ e = EmptyUsername) \/
  ((u_password_hash u = None /\ u_password u = None) /\ e = NoCredential (u_username u)).

Lemma elem_sigma c e : e ∈ errors (check_sigma is_dir c) <-> False.
Proof.
  unfold check_sigma. destruct (_ && _); [|apply elem_nil_report]. autorewrite with report.
  destruct (sc_rules_dir _); autorewrite with report; tauto.
Qed.

Lemma elem_auth a e : e ∈ errors (check_auth a) <->
  ac_enabled a = true /\
  ((exists u, u ∈ ac_users a /\ user_own u e) \/ (exists k, repeated u_username (ac_users a) k /\ e = DuplicateUser k)).
Proof.
  unfold check_auth. destruct (ac_enabled a); [|rewrite elem_nil_report; naive_solver].
  autorewrite with report. unfold check_users.
  rewrite (elem_check_loop _ _ user_own DuplicateUser); [tauto|].
  intros seen u e'. rewrite elem_check_user. unfold user_own. tauto.
Qed.

Lemma elem_edr a e : e ∈ errors (check_edr a) <->
  ec_enabled a = true /\ ((is_blank (ec_listen a) = true /\ e = EdrWithoutListen) \/
    ((is_Some (ec_tls_cert a) /\ ec_tls_key a = None \/ ec_tls_cert a = None /\ is_Some (ec_tls_key a)) /\
     e = EdrHalfTls)).
Proof.
  unfold check_edr. destruct (ec_enabled a); [|rewrite elem_nil_report; naive_solver].
  autorewrite with report.
  destruct (ec_tls_cert a), (ec_tls_key a); autorewrite with report; rewrite ?elem_nil_report;
    unfold is_Some; naive_solver.
Qed.

(** The report's errors are the defects. *)
Lemma validate_defects c e : e ∈ errors (validate is_dir c) <-> defect c e.
Proof.
  unfold validate. autorewrite with report. rewrite elem_sigma, elem_auth, elem_edr, bool_decide_eq_true.
  unfold check_inputs, check_pipelines.
  rewrite (elem_check_loop in_id _ input_own DuplicateInput)
    by (intros; rewrite elem_check_input; unfold input_own; tauto).
  rewrite (elem_check_loop pl_id _ (pipeline_own (in_id <$> cf_inputs c)) DuplicatePipeline)
    by (intros; rewrite elem_check_pipeline; unfold pipeline_own; tauto).
  unfold input_own, pipeline_own, user_own. split.
  - intros H0. naive_solver eauto using defect.
  - intros []; naive_solver.
Qed.

Lemma no_defect_wf c : (forall e, not (defect c e)) <-> config_wf c.
Proof.
  split.
  - intros Hn. split.
    + destruct (decide (cf_version c = 1%Z)) as [|Hv]; [done|]. destruct (Hn _ (d_version c Hv)).
    + apply repeated_NoDup. intros k Hk. destruct (Hn _ (d_input_dup c k Hk)).
    + intros i Hi. split_and!.
      * destruct (is_blank (in_id i)) eqn:Hb; [|done]. destruct (Hn _ (d_input_blank c i Hi Hb)).
      * intros Hk. destruct (setting_str i "path") eqn:Hs; [done|]. destruct (Hn _ (d_input_file c i Hi Hk Hs)).
      * intros Hk. destruct (setting_str i "listen") eqn:Hs; [done|]. destruct (Hn _ (d_input_syslog c i Hi Hk Hs)).
    + apply repeated_NoDup. intros k Hk. destruct (Hn _ (d_pipeline_dup c k Hk)).
    + intros p s Hp Hs. destruct (decide (s ∈ in_id <$> cf_inputs c)) as [(i & -> & Hi)%list_elem_of_fmap|Hin]; [eauto|].
      destruct (Hn _ (d_pipeline_from c p s Hp Hs Hin)).
    + intros p t Hp Ht. destruct (decide (t ∈ KNOWN_SINKS)) as [|Hin]; [done|].
      destruct (Hn _ (d_pipeline_route c p t Hp Ht Hin)).
    + intros He. apply repeated_NoDup. intros k Hk. destruct (Hn _ (d_user_dup c k He Hk)).
    + intros u He Hu. split.
      * destruct (is_blank (u_username u)) eqn:Hb; [|done]. destruct (Hn _ (d_user_blank c u He Hu Hb)).
      * destruct (u_password_hash u) eqn:Hh; [by left|]. destruct (u_password u) eqn:Hp; [by right|].
        destruct (Hn _ (d_user_credential c u He Hu Hh Hp)).
    + intros He. split.
      * destruct (is_blank (ec_listen (cf_edr c))) eqn:Hb; [|done]. destruct (Hn _ (d_edr_listen c He Hb)).
      * pose proof (fun H => Hn _ (d_edr_tls c He H)) as Ht. unfold is_Some in *.
        destruct (ec_tls_cert (cf_edr c)), (ec_tls_key (cf_edr c)); naive_solver.
  - intros [? Hni Hi Hnp Hf Hr Hu Hu' He] e Hd. rewrite <- repeated_NoDup in Hni. rewrite <- repeated_NoDup in Hnp.
    destruct Hd as [|i Hin Hb|k Hk|i Hin Hk Hs|i Hin Hk Hs|k Hk|p s Hp Hs Hin|p t Hp Ht Hin|u Ha Hin Hb|k Ha Hk
      |u Ha Hin Hh Hp|Ha Hb|Ha Ht].
    + done.
    + destruct (Hi i Hin) as (Hb' & _). congruence.
    + by apply Hni in Hk.
    + destruct (Hi i Hin) as (_ & [? Hp] & _); [done|]. congruence.
    + destruct (Hi i Hin) as (_ & _ & [? Hp]); [done|]. congruence.
    + by apply Hnp in Hk.
    + apply Hin. destruct (Hf p s) as (i & ? & <-); [done..|]. by apply list_elem_of_fmap_2.
    + by apply Hin, (Hr p).
    + destruct (Hu' u Ha Hin). congruence.
    + specialize (Hu Ha). rewrite <- repeated_NoDup in Hu. by apply Hu in Hk.
    + destruct (Hu' u Ha Hin) as [_ [[? Hx]|[? Hx]]]; congruence.
    + destruct (He Ha). congruence.
    + destruct (He Ha) as [_ Heq]. unfold is_Some in *. naive_solver.
Qed.

Lemma report_ok_wf c : report_ok (validate is_dir c) = true <-> config_wf c.
Proof.
  rewrite <- no_defect_wf. setoid_rewrite <- validate_defects.
  unfold report_ok. destruct (errors (validate is_dir c)) as [|e l]; cbn; split; try done.
  - intros _ e. apply not_elem_of_nil.
  - intros Hn. destruct (Hn e). by left.
Qed.

(** C30: [Config::validate] reports exactly the defects of a configuration,
    each under its own message, and the report is clean if and only if the
    configuration is well formed: the version is 1, ids of inputs and of
    pipelines are unique, every input has an id and the settings its kind
    needs, every pipeline reads declared inputs and routes to known sinks,
    and the enabled authentication and agent gateway blocks are usable.  What
    is on disk decides warnings only. *)
Theorem validate_spec c :
  (forall e, e ∈ errors (validate is_dir c) <-> defect c e) /\
  (report_ok (validate is_dir c) = true <-> config_wf c).
Proof. split; [apply validate_defects|apply report_ok_wf]. Qed.
End spec.
