(* ===== verification/Plan.v ===== *)
(** * [sigil-config/src/plan.rs]: plan, apply and drift

    [walk] compares two configurations as YAML values and lists the leaf
    changes with their dotted paths; [plan], [apply] and [drift] work on the
    snapshot file of the data directory.  The serialiser, the parser and the
    text of a value are parameters. *)

From stdpp Require Import strings list pretty.
From S2P Require Import Prelude Containers Yaml Config.

(** ** Data *)

Inductive Change : Set :=
  | Added (path value : string)
  | Removed (path value : string)
  | Changed (path old new : string).

#[export] Instance Change_eq_dec : EqDecision Change.
Proof. solve_decision. Defined.

Definition ConfigDiff : Set := list Change.
Definition diff_is_empty (d : ConfigDiff) : bool := is_nil d.

(** The counts of the summary line: additions, changes, removals. *)
Definition diff_counts (d : ConfigDiff) : nat * nat * nat :=
  foldl (fun '(a, r, c) ch => match ch with
    | Added _ _ => (S a, r, c)
    | Removed _ _ => (a, S r, c)
    | Changed _ _ _ => (a, r, S c)
    end) (0, 0, 0) d.

(** [serde_yaml::to_value], [serde_yaml::to_string] and [Config::parse]. *)
Class ConfigSerde := {
  to_value : Config -> result yaml;
  to_text : Config -> result string;
  parse : string -> result Config
}.

(** ** The comparison *)

Section walk.
Context `{YamlText}.

Definition scalar (v : yaml) : string := default "?" (trim <$> yaml_text v).

Definition join (prefix key : string) : string :=
  if is_empty_str prefix then key else (prefix +:+ "." +:+ key)%string.

Definition removed_from (path : string) (k cv : yaml) : Change := Removed (join path (scalar k)) (scalar cv).
Definition added_to (path : string) (k dv : yaml) : Change := Added (join path (scalar k)) (scalar dv).

Fixpoint walk (path : string) (current desired : yaml) {struct current} : ConfigDiff :=
  match current, desired with
  | YMapping c, YMapping d =>
      concat ((fun kcv => match ymap_get d kcv.1 with
         | Some dv => walk (join path (scalar kcv.1)) kcv.2 dv
         | None => [removed_from path kcv.1 kcv.2]
         end) <$> c) ++
      concat ((fun kdv => match ymap_get c kdv.1 with
         | None => [added_to path kdv.1 kdv.2]
         | Some _ => []
         end) <$> d)
  | YSequence c, YSequence d =>
      (fix pairs (i : nat) (c d : list yaml) : ConfigDiff :=
         match c, d with
         | x :: c, y :: d => walk (join path (pretty i)) x y ++ pairs (S i) c d
         | _, _ => []
         end) 0 c d ++
      imap (fun i cv => Removed (join path (pretty (length d + i))) (scalar cv)) (drop (length d) c) ++
      imap (fun i dv => Added (join path (pretty (length c + i))) (scalar dv)) (drop (length c) d)
  | _, _ => if decide (current = desired) then [] else [Changed path (scalar current) (scalar desired)]
  end.
End walk.

(** ** Snapshots *)

(** What the file operations of one command do: reading fails or not,
    creating the directory fails or not, and a write that fails leaves some
    contents behind. *)
Record Disk : Set := mkDisk {
  read_fails : bool;
  mkdir_fails : bool;
  write_fails : option (option string)
}.
Definition good_disk : Disk := mkDisk false false None.

Section commands.
Context `{YamlText, ConfigSerde}.

Definition diff (current desired : Config) : result ConfigDiff :=
  cur ← to_value current; des ← to_value desired; Ok (walk "" cur des).

(** The snapshot file is the state: its text, when it exists. *)
Definition load_snapshot (io : Disk) (snapshot : option string) : result (option Config) :=
  if read_fails io then Err Io
  else match snapshot with
       | Some text => c ← parse text; Ok (Some c)
       | None => Ok None
       end.

Definition plan (io : Disk) (snapshot : option string) (self : Config) : result ConfigDiff :=
  s ← load_snapshot io snapshot;
  diff (default (empty_config (cf_version self)) s) self.

Definition apply (io : Disk) (snapshot : option string) (self : Config) : option string * result ConfigDiff :=
  match plan io snapshot self with
  | Err e => (snapshot, Err e)
  | Ok d =>
      if mkdir_fails io then (snapshot, Err Io)
      else match to_text self with
           | Err e => (snapshot, Err e)
           | Ok body => match write_fails io with
                        | Some kept => (kept, Err Io)
                        | None => (Some body, Ok d)
                        end
           end
  end.

Definition drift (io : Disk) (snapshot : option string) (self : Config) : result ConfigDiff :=
  s ← load_snapshot io snapshot;
  applied ← ok_or s Prelude.Config;
  diff applied self.
End commands.

(** ** Positions in a value *)

Inductive pos : Set := PKey (k : yaml) | PIdx (i : nat).

Definition child (y : yaml) (s : pos) : option yaml :=
  match y, s with
  | YMapping m, PKey k => ymap_get m k
  | YSequence l, PIdx i => l !! i
  | _, _ => None
  end.

Fixpoint at_path (y : yaml) (p : list pos) : option yaml :=
  match p with [] => Some y | s :: p => child y s ≫= fun z => at_path z p end.

(** The position is one the collection could have. *)
Definition fits (y : yaml) (s : pos) : bool :=
  match y, s with YMapping _, PKey _ | YSequence _, PIdx _ => true | _, _ => false end.

(** Mappings with mappings, sequences with sequences. *)
Definition same_shape (x y : yaml) : bool :=
  match x, y with YMapping _, YMapping _ | YSequence _, YSequence _ => true | _, _ => false end.

(** Equal at this node, whatever is below it. *)
Definition alike (x y : yaml) : Prop := same_shape x y = true \/ x = y.

(** The keys of every mapping are distinct. *)
Fixpoint yaml_wf (y : yaml) : bool :=
  match y with
  | YSequence l => forallb yaml_wf l
  | YMapping m => bool_decide (NoDup m.*1) && forallb (fun kv => yaml_wf kv.2) m
  | _ => true
  end.

Section spec.
Context `{YamlText}.

Definition pos_text (s : pos) : string := match s with PKey k => scalar k | PIdx i => pretty i end.
Definition dotted : string -> list pos -> string := foldl (fun p s => join p (pos_text s)).

(** The leaf differences of two values. *)
Inductive difference (path : string) (cur des : yaml) : Change -> Prop :=
  | diff_removed p s x d : at_path cur (p ++ [s]) = Some x -> at_path des p = Some d -> fits d s = true ->
      child d s = None -> difference path cur des (Removed (dotted path (p ++ [s])) (scalar x))
  | diff_added p s x c : at_path des (p ++ [s]) = Some x -> at_path cur p = Some c -> fits c s = true ->
      child c s = None -> difference path cur des (Added (dotted path (p ++ [s])) (scalar x))
  | diff_changed p x y : at_path cur p = Some x -> at_path des p = Some y -> not (alike x y) ->
      difference path cur des (Changed (dotted path p) (scalar x) (scalar y)).

(** The same value at every position, up to the order of mappings. *)
Definition same_value (cur des : yaml) : Prop :=
  forall p, match at_path cur p, at_path des p with
            | Some x, Some y => alike x y
            | None, None => True
            | _, _ => False
            end.

(** The differences at the top of two values. *)
Inductive top_difference (path : string) (cur des : yaml) : Change -> Prop :=
  | top_removed s x : child cur s = Some x -> fits des s = true -> child des s = None ->
      top_difference path cur des (Removed (join path (pos_text s)) (scalar x))
  | top_added s x : child des s = Some x -> fits cur s = true -> child cur s = None ->
      top_difference path cur des (Added (join path (pos_text s)) (scalar x))
  | top_changed : not (alike cur des) -> top_difference path cur des (Changed path (scalar cur) (scalar des)).
End spec.

(** ** The comparison lists the differences *)

Section walk_spec.
Context `{YamlText}.
Implicit Types (x y cur des : yaml) (p : list pos).

Lemma at_path_app x p q : at_path x (p ++ q) = at_path x p ≫= fun y => at_path y q.
Proof.
  revert x. induction p as [|s p IH]; intros x; cbn; [done|]. destruct (child x s); cbn; auto.
Qed.

Lemma at_path_snoc x p s : at_path x (p ++ [s]) = at_path x p ≫= fun y => child y s.
Proof. rewrite at_path_app. destruct (at_path x p) as [y|]; cbn; [|done]. by destruct (child y s). Qed.

Lemma child_fits y s z : child y s = Some z -> fits y s = true.
Proof. by destruct y, s. Qed.

Lemma fits_same_shape x y s : fits x s = true -> fits y s = true -> same_shape x y = true.
Proof. by destruct x, y, s. Qed.

Lemma same_shape_fits x y s : same_shape x y = true -> fits x s = fits y s.
Proof. by destruct x, y. Qed.

(** A difference is at the top or below a shared position. *)
Lemma difference_step path cur des ch : difference path cur des ch <->
  top_difference path cur des ch \/
  exists s x y, child cur s = Some x /\ child des s = Some y /\ difference (join path (pos_text s)) x y ch.
Proof.
  split.
  - intros [p s x d Hx Hd Hf Hn|p s x d Hx Hd Hf Hn|p x y Hx Hy Ha]; destruct p as [|s' p]; cbn in *.
    + left. destruct (child cur s) eqn:?; [|done]. simplify_eq/=. by constructor.
    + right. destruct (child cur s') as [x'|] eqn:?, (child des s') as [y'|] eqn:?; try done.
      exists s', x', y'. split_and!; [done..|]. by eapply diff_removed.
    + left. destruct (child des s) eqn:?; [|done]. simplify_eq/=. by constructor.
    + right. destruct (child cur s') as [x'|] eqn:?, (child des s') as [y'|] eqn:?; try done.
      exists s', x', y'. split_and!; [done..|]. by eapply diff_added.
    + left. simplify_eq. by constructor.
    + right. destruct (child cur s') as [x'|] eqn:?, (child des s') as [y'|] eqn:?; try done.
      exists s', x', y'. split_and!; [done..|]. by eapply diff_changed.
  - intros [[s x Hx Hf Hn|s x Hx Hf Hn|Ha]|(s & x & y & Hx & Hy & [p s' z d Hz Hd Hf Hn|p s' z d Hz Hd Hf Hn|p z d Hz Hd Ha])].
    + apply (diff_removed path cur des [] s x des); cbn; by rewrite ?Hx.
    + apply (diff_added path cur des [] s x cur); cbn; by rewrite ?Hx.
    + by apply (diff_changed path cur des []).
    + apply (diff_removed path cur des (s :: p) s' z d); cbn; by rewrite ?Hx, ?Hy.
    + apply (diff_added path cur des (s :: p) s' z d); cbn; by rewrite ?Hx, ?Hy.
    + apply (diff_changed path cur des (s :: p)); cbn; by rewrite ?Hx, ?Hy.
Qed.

(** No difference means the same value. *)
Lemma no_difference_same path cur des : (forall ch, not (difference path cur des ch)) <-> same_value cur des.
Proof.
  split.
  - intros Hn p. induction p as [|s p IH] using rev_ind.
    + cbn. destruct (decide (cur = des)) as [|Hd]; [by right|]. destruct (same_shape cur des) eqn:Hs; [by left|].
      destruct (Hn (Changed (dotted path []) (scalar cur) (scalar des))). apply (diff_changed _ _ _ []); [done..|].
      intros [?|?]; congruence.
    + pose proof (diff_removed path cur des p s) as Hr. pose proof (diff_added path cur des p s) as Ha.
      pose proof (diff_changed path cur des (p ++ [s])) as Hc.
      rewrite !at_path_snoc in *. destruct (at_path cur p) as [c|], (at_path des p) as [d|]; cbn in *; try done.
      destruct (child c s) as [x|] eqn:Hx, (child d s) as [y|] eqn:Hy; try done.
      * destruct (decide (x = y)) as [|Hd]; [by right|]. destruct (same_shape x y) eqn:Hs; [by left|].
        edestruct Hn. apply (Hc x y); [done..|]. intros [?|?]; congruence.
      * destruct IH as [Hs|<-]; [|congruence]. edestruct Hn. apply (Hr x d); [done..| |done].
        rewrite <- (same_shape_fits _ _ _ Hs). by apply child_fits in Hx.
      * destruct IH as [Hs|<-]; [|congruence]. edestruct Hn. apply (Ha y c); [done..| |done].
        rewrite (same_shape_fits _ _ _ Hs). by apply child_fits in Hy.
  - intros Hs ch [p s x d Hx Hd Hf Hn|p s x c Hx Hc Hf Hn|p x y Hx Hy Ha].
    + specialize (Hs (p ++ [s])). rewrite Hx, at_path_snoc, Hd in Hs. cbn in Hs. by rewrite Hn in Hs.
    + specialize (Hs (p ++ [s])). rewrite Hx, at_path_snoc, Hc in Hs. cbn in Hs. by rewrite Hn in Hs.
    + specialize (Hs p). by rewrite Hx, Hy in Hs.
Qed.

Lemma walk_leaf path cur des ch : same_shape cur des = false ->
  ch ∈ (if decide (cur = des) then [] else [Changed path (scalar cur) (scalar des)]) <-> difference path cur des ch.
Proof.
  intros Hs. rewrite difference_step. split.
  - case_decide as Hd; [by intros ?%not_elem_of_nil|]. intros ->%list_elem_of_singleton. left. constructor.
    intros [?|?]; congruence.
  - intros [[s x Hx%child_fits Hf|s x Hx%child_fits Hf|Ha]|(s & x & y & Hx%child_fits & Hy%child_fits & _)].
    + pose proof (fits_same_shape cur des s). intuition congruence.
    + pose proof (fits_same_shape cur des s). intuition congruence.
    + rewrite decide_False by (intros ->; apply Ha; by right). by left.
    + pose proof (fits_same_shape cur des s). intuition congruence.
Qed.

(** The walk of two sequences, position by position. *)
Fixpoint walk_pairs path (i : nat) (c d : list yaml) : ConfigDiff :=
  match c, d with
  | x :: c, y :: d => walk (join path (pretty i)) x y ++ walk_pairs path (S i) c d
  | _, _ => []
  end.

Lemma walk_seq path (c d : list yaml) : walk path (YSequence c) (YSequence d) =
  walk_pairs path 0 c d ++
  imap (fun i cv => Removed (join path (pretty (length d + i))) (scalar cv)) (drop (length d) c) ++
  imap (fun i dv => Added (join path (pretty (length c + i))) (scalar dv)) (drop (length c) d).
Proof.
  cbn [walk]. f_equal. generalize 0. revert d. induction c as [|x c IH]; intros [|y d] i; cbn; [done..|].
  f_equal. apply IH.
Qed.

Lemma elem_walk_pairs path ch c d i : ch ∈ walk_pairs path i c d <->
  exists j x y, c !! j = Some x /\ d !! j = Some y /\ ch ∈ walk (join path (pretty (i + j)%nat)) x y.
Proof.
  revert i d. induction c as [|x c IH]; intros i [|y d]; cbn [walk_pairs].
  1-3: split; [by intros ?%not_elem_of_nil|by intros (? & ? & ? & ? & ? & _)].
  rewrite elem_of_app, IH. split.
  - intros [Hc|(j & x' & y' & Hx & Hy & Hc)]; [exists 0, x, y; by rewrite Nat.add_0_r|].
    exists (S j), x', y'. by rewrite Nat.add_succ_r.
  - intros ([|j] & x' & y' & Hx & Hy & Hc); cbn in Hx, Hy; [simplify_eq; left; by rewrite Nat.add_0_r in Hc|].
    right. exists j, x', y'. by rewrite Nat.add_succ_r in Hc.
Qed.

Lemma elem_walk_seq path (c d : list yaml) ch : ch ∈ walk path (YSequence c) (YSequence d) <->
  (exists i x y, c !! i = Some x /\ d !! i = Some y /\ ch ∈ walk (join path (pretty i)) x y) \/
  (exists i x, c !! i = Some x /\ d !! i = None /\ ch = Removed (join path (pretty i)) (scalar x)) \/
  (exists i y, d !! i = Some y /\ c !! i = None /\ ch = Added (join path (pretty i)) (scalar y)).
Proof.
  rewrite walk_seq.
  rewrite !elem_of_app, elem_walk_pairs, !elem_of_lookup_imap. setoid_rewrite lookup_drop. cbn [Nat.add].
  assert (Hdrop : forall (l m : list yaml) i x, m !! i = Some x -> l !! i = None ->
    exists j, m !! (length l + j) = Some x /\ i = length l + j).
  { intros l m i x Hm Hl%lookup_ge_None. exists (i - length l). by replace (length l + (i - length l)) with i by lia. }
  assert (Hback : forall (l : list yaml) j, l !! (length l + j) = None) by (intros; apply lookup_ge_None; lia).
  split; (intros [?|[Hr|Ha]]; [by left|right; left|right; right]).
  - destruct Hr as (j & x & -> & Hx). eauto 10.
  - destruct Ha as (j & x & -> & Hx). eauto 10.
  - destruct Hr as (i & x & Hx & Hn & ->). destruct (Hdrop d c i x) as (j & ? & ->); eauto.
  - destruct Ha as (i & x & Hx & Hn & ->). destruct (Hdrop c d i x) as (j & ? & ->); eauto.
Qed.

Lemma elem_walk_map path (c d : list (yaml * yaml)) ch : NoDup c.*1 -> NoDup d.*1 ->
  ch ∈ walk path (YMapping c) (YMapping d) <->
  (exists k x y, ymap_get c k = Some x /\ ymap_get d k = Some y /\ ch ∈ walk (join path (scalar k)) x y) \/
  (exists k x, ymap_get c k = Some x /\ ymap_get d k = None /\ ch = Removed (join path (scalar k)) (scalar x)) \/
  (exists k y, ymap_get d k = Some y /\ ymap_get c k = None /\ ch = Added (join path (scalar k)) (scalar y)).
Proof.
  intros Hc Hd. cbn [walk]. rewrite elem_of_app, !elem_concat_map. split.
  - intros [([k x] & Hin%ymap_get_elem & Hch)|([k y] & Hin%ymap_get_elem & Hch)]; [|done| |done]; cbn in Hch.
    + destruct (ymap_get d k) eqn:Hk; [left; eauto 10|]. apply list_elem_of_singleton in Hch. right; left; eauto 10.
    + destruct (ymap_get c k) eqn:Hk; [by apply not_elem_of_nil in Hch|].
      apply list_elem_of_singleton in Hch. right; right; eauto 10.
  - intros [(k & x & y & Hx & Hy & Hch)|[(k & x & Hx & Hn & ->)|(k & y & Hy & Hn & ->)]].
    + left. exists (k, x). split; [by apply ymap_get_elem|]. cbn. by rewrite Hy.
    + left. exists (k, x). split; [by apply ymap_get_elem|]. cbn. rewrite Hn. by left.
    + right. exists (k, y). split; [by apply ymap_get_elem|]. cbn. rewrite Hn. by left.
Qed.

Lemma difference_map path (c d : list (yaml * yaml)) ch : difference path (YMapping c) (YMapping d) ch <->
  (exists k x y, ymap_get c k = Some x /\ ymap_get d k = Some y /\ difference (join path (scalar k)) x y ch) \/
  (exists k x, ymap_get c k = Some x /\ ymap_get d k = None /\ ch = Removed (join path (scalar k)) (scalar x)) \/
  (exists k y, ymap_get d k = Some y /\ ymap_get c k = None /\ ch = Added (join path (scalar k)) (scalar y)).
Proof.
  rewrite difference_step. split.
  - intros [[[k|i] x Hx Hf Hn|[k|i] x Hx Hf Hn|Ha]|([k|i] & x & y & Hx & Hy & Hd)]; cbn in *; try done; eauto 10.
    destruct Ha. by left.
  - intros [(k & x & y & Hx & Hy & Hd)|[(k & x & Hx & Hn & ->)|(k & x & Hx & Hn & ->)]].
    + right. exists (PKey k), x, y. auto.
    + left. by apply (top_removed path _ _ (PKey k)).
    + left. by apply (top_added path _ _ (PKey k)).
Qed.

Lemma difference_seq path (c d : list yaml) ch : difference path (YSequence c) (YSequence d) ch <->
  (exists i x y, c !! i = Some x /\ d !! i = Some y /\ difference (join path (pretty i)) x y ch) \/
  (exists i x, c !! i = Some x /\ d !! i = None /\ ch = Removed (join path (pretty i)) (scalar x)) \/
  (exists i y, d !! i = Some y /\ c !! i = None /\ ch = Added (join path (pretty i)) (scalar y)).
Proof.
  rewrite difference_step. split.
  - intros [[[k|i] x Hx Hf Hn|[k|i] x Hx Hf Hn|Ha]|([k|i] & x & y & Hx & Hy & Hd)]; cbn in *; try done; eauto 10.
    destruct Ha. by left.
  - intros [(k & x & y & Hx & Hy & Hd)|[(k & x & Hx & Hn & ->)|(k & x & Hx & Hn & ->)]].
    + right. exists (PIdx k), x, y. auto.
    + left. by apply (top_removed path _ _ (PIdx k)).
    + left. by apply (top_added path _ _ (PIdx k)).
Qed.

Lemma yaml_wf_map (m : list (yaml * yaml)) : yaml_wf (YMapping m) = true <->
  NoDup m.*1 /\ forall k x, ymap_get m k = Some x -> yaml_wf x = true.
Proof.
  cbn. rewrite andb_true_iff, bool_decide_eq_true, forallb_forall. setoid_rewrite <- list_elem_of_In. split.
  - intros [Hn Hw]. split; [done|]. intros k x Hk%ymap_get_elem; [|done]. apply (Hw (k, x) Hk).
  - intros [Hn Hw]. split; [done|]. intros [k x] Hin. apply (Hw k). by apply ymap_get_elem.
Qed.

Lemma yaml_wf_seq (l : list yaml) : yaml_wf (YSequence l) = true <->
  forall i x, l !! i = Some x -> yaml_wf x = true.
Proof.
  cbn. rewrite forallb_forall. setoid_rewrite <- list_elem_of_In. setoid_rewrite list_elem_of_lookup. naive_solver.
Qed.

Lemma elem_walk cur : yaml_wf cur = true -> forall path des ch, yaml_wf des = true ->
  ch ∈ walk path cur des <-> difference path cur des ch.
Proof.
  induction cur as [|b|t|s|l IH|m IH] using yaml_nested_ind; intros Hc path des ch Hd; try by apply walk_leaf.
  - destruct des as [| | | |d|]; try by apply walk_leaf. rewrite yaml_wf_seq in Hc, Hd. rewrite Forall_lookup in IH.
    rewrite elem_walk_seq, difference_seq. apply or_iff_compat_r.
    split; intros (i & x & y & Hx & Hy & Hch); exists i, x, y; (split_and!; [done..|]); eapply IH; eauto.
  - destruct des as [| | | | |d]; try by apply walk_leaf. rewrite yaml_wf_map in Hc, Hd.
    destruct Hc as [Hcn Hc], Hd as [Hdn Hd]. rewrite Forall_forall in IH.
    rewrite elem_walk_map, difference_map by done. apply or_iff_compat_r.
    split; intros (k & x & y & Hx & Hy & Hch); exists k, x, y; (split_and!; [done..|]);
      pose proof (proj1 (ymap_get_elem m k x Hcn) Hx) as Hin; eapply (IH _ Hin); eauto.
Qed.

Lemma walk_empty path cur des : yaml_wf cur = true -> yaml_wf des = true ->
  walk path cur des = [] <-> same_value cur des.
Proof.
  intros Hc Hd. rewrite <- (no_difference_same path). setoid_rewrite <- elem_walk; [|done..]. split.
  - intros ->. intros ch. apply not_elem_of_nil.
  - intros Hn. destruct (walk path cur des) as [|ch l]; [done|]. destruct (Hn ch). by left.
Qed.

(** [diff] lists exactly the leaf differences of the two configurations:
    a value removed at a position whose collection is still there, a value
    added likewise, and a value replaced by one that is not a collection of
    the same kind, each with the dotted path of its position and the texts
    printed for it.  The diff is empty if and only if the two configurations
    hold the same value at every position, the order of mappings aside. *)
Theorem diff_spec `{ConfigSerde} current desired cur des :
  to_value current = Ok cur -> to_value desired = Ok des -> yaml_wf cur = true -> yaml_wf des = true ->
  exists d, diff current desired = Ok d /\
    (forall ch, ch ∈ d <-> difference "" cur des ch) /\
    (diff_is_empty d = true <-> same_value cur des).
Proof.
  intros Hc Hd Hwc Hwd. exists (walk "" cur des). split_and!.
  - unfold diff. rewrite Hc, Hd. done.
  - intros ch. by apply elem_walk.
  - rewrite <- (walk_empty ""%string) by done. unfold diff_is_empty. by destruct (walk _ cur des).
Qed.
End walk_spec.

Section apply_spec.
Context `{YamlText, ConfigSerde}.

Lemma same_value_refl v : same_value v v.
Proof. intros p. destruct (at_path v p); [by right|done]. Qed.

Lemma diff_refl c v : to_value c = Ok v -> yaml_wf v = true -> diff c c = Ok [].
Proof.
  intros Hv Hw. unfold diff. rewrite Hv. cbn. f_equal. apply walk_empty; [done..|]. apply same_value_refl.
Qed.

Lemma load_written io text c : read_fails io = false -> parse text = Ok c ->
  load_snapshot io (Some text) = Ok (Some c).
Proof. intros Hr Hp. unfold load_snapshot. by rewrite Hr, Hp. Qed.

(** [apply] either records the configuration and returns the plan it was
    applied under, or leaves the old snapshot unless the write itself broke
    off; [drift] refuses before the first apply.  Given that the serialiser's
    text parses back to the configuration, after a successful apply both
    [plan] and [drift] of any configuration compare it with the applied one,
    so they are empty for the applied configuration itself. *)
Theorem apply_spec (io : Disk) (snapshot : option string) (c : Config) :
  (forall text, to_text c = Ok text -> parse text = Ok c) ->
  drift good_disk None c = Err Prelude.Config /\
  match apply io snapshot c with
  | (after, Err _) => after = snapshot \/ write_fails io = Some after
  | (after, Ok d) =>
      plan io snapshot c = Ok d /\
      forall io', read_fails io' = false ->
        (forall c', plan io' after c' = diff c c' /\ drift io' after c' = diff c c') /\
        (forall v, to_value c = Ok v -> yaml_wf v = true -> plan io' after c = Ok [] /\ drift io' after c = Ok [])
  end.
Proof.
  intros Hlaw. split; [done|]. unfold apply. destruct (plan io snapshot c) as [d|e]; [|by left].
  destruct (mkdir_fails io); [by left|]. destruct (to_text c) as [text|e] eqn:Ht; [|by left].
  destruct (write_fails io) as [kept|] eqn:Hw; [by right|]. split; [done|]. intros io' Hr.
  assert (Hd : forall c', plan io' (Some text) c' = diff c c' /\ drift io' (Some text) c' = diff c c').
  { intros c'. unfold plan, drift. by rewrite (load_written _ _ c) by auto. }
  split; [exact Hd|]. intros v Hv Hwf. destruct (Hd c) as [-> ->]. by rewrite (diff_refl c v).
Qed.
End apply_spec.

(** ** Concrete instances *)

Section demo.
Local Open Scope string_scope.

Local Instance demo_text : YamlText := fun v => match v with
  | YString s | YNumber s => Some (s +:+ String "010" "")
  | YBool b => Some (if b then "true" else "false")
  | _ => None
  end.

Definition demo_config (dir : string) : Config :=
  mkConfig 1 ClusterConfig_default [] [] IndexConfig_default SigmaConfig_default AuthConfig_default
    (Some dir) None YNull EdrConfig_default YNull [].

(** Configurations that differ in their data directory only. *)
Local Instance demo_serde : ConfigSerde := {|
  to_value c := Ok (YMapping [(YString "version", YNumber "1");
    (YString "dirs", YSequence (match cf_data_dir c with Some d => [YString d; YString "x"] | None => [YString "x"] end))]);
  to_text c := match cf_data_dir c with Some d => Ok d | None => Err Prelude.Config end;
  parse d := Ok (demo_config d)
|}.

Example diff_demo : diff (empty_config 1) (demo_config "d") =
  Ok [Changed "dirs.0" "x" "d"; Added "dirs.1" "x"].
Proof. vm_compute. reflexivity. Qed.

Lemma diff_spec_witness :
  exists cur des d,
    to_value (empty_config 1) = Ok cur /\ to_value (demo_config "d") = Ok des /\
    diff (empty_config 1) (demo_config "d") = Ok d /\ (forall ch, ch ∈ d <-> difference "" cur des ch) /\
    Changed "dirs.0" "x" "d" ∈ d.
Proof.
  eexists _, _, [Changed "dirs.0" "x" "d"; Added "dirs.1" "x"]. split; [reflexivity|]. split; [reflexivity|].
  edestruct (diff_spec (empty_config 1) (demo_config "d")) as (d & Hd & Hch & _);
    [reflexivity|reflexivity|vm_compute; reflexivity..|].
  rewrite diff_demo in Hd. injection Hd as <-. split; [exact diff_demo|]. split; [exact Hch|]. by left.
Defined.

Lemma apply_spec_witness :
  apply good_disk None (demo_config "d") = (Some "d", Ok [Changed "dirs.0" "x" "d"; Added "dirs.1" "x"]) /\
  plan good_disk (Some "d") (demo_config "d") = Ok [].
Proof.
  split; [vm_compute; reflexivity|].
  destruct (apply_spec good_disk None (demo_config "d")) as [_ Ha]; [intros text [= <-]; reflexivity|].
  destruct (apply good_disk None (demo_config "d")) as [after [d|e]] eqn:He; [|vm_compute in He; discriminate].
  assert (after = Some "d") as -> by (vm_compute in He; congruence).
  destruct Ha as [_ Ha]. destruct (Ha good_disk eq_refl) as [_ Hc].
  by apply (Hc _ eq_refl eq_refl).
Defined.
End demo.
