(* ===== verification/Auth.v ===== *)
(** * [sigil-api/src/auth.rs]: local login, tokens and roles

    The user table built from the configuration, login, token issue and
    verification, the request guard and the role guard.  The signed-token
    library and the password hash are parameters; the clock and the random
    secret are arguments. *)

From stdpp Require Import gmap strings list.
From S2P Require Import Prelude Text Containers Yaml Config.

Local Open Scope string_scope.

(** ** Roles *)

Inductive Role : Set := Viewer | Analyst | Admin.

#[export] Instance Role_eq_dec : EqDecision Role.
Proof. solve_decision. Defined.

(** The derived order of the enumeration. *)
Definition privilege (r : Role) : nat := match r with Viewer => 0 | Analyst => 1 | Admin => 2 end.

Definition role_parse (s : string) : option Role :=
  let s := to_ascii_lowercase s in
  if decide (s = "viewer") then Some Viewer
  else if decide (s = "analyst") then Some Analyst
  else if decide (s = "admin") then Some Admin
  else None.

Definition role_str (r : Role) : string :=
  match r with Viewer => "viewer" | Analyst => "analyst" | Admin => "admin" end.

(** ** Principals *)

Record AuthUser : Set := mkAuthUser { au_username : string; au_roles : list Role }.

Definition has (u : AuthUser) (role : Role) : bool :=
  existsb (fun r => (privilege role <=? privilege r)%nat) (au_roles u).

Definition system : AuthUser := mkAuthUser "system" [Admin].

Record Claims : Set := mkClaims { cl_sub : string; cl_roles : list string; cl_exp : Z }.

#[export] Instance Claims_eq_dec : EqDecision Claims.
Proof. solve_decision. Defined.

Record UserCred : Set := mkCred {
  uc_password_hash : option string;
  uc_password : option string;
  uc_roles : list Role
}.

Record AuthState : Set := mkAuthState {
  as_enabled : bool;
  as_secret : string;
  as_ttl : Z;
  as_users : gmap string UserCred
}.

(** [jsonwebtoken] with its default header and validation, and the check of a
    password against an argon2 string. *)
Class Jwt := {
  jwt_encode : string -> Claims -> option string;
  jwt_decode : string -> Z -> string -> option Claims
}.
Class Argon2 := argon2_verify : string -> string -> bool.

(** The seconds [Validation::default] tolerates after the expiry. *)
Definition leeway : Z := 60.

(** ** The user table *)

Definition cred_of (u : UserConfig) : UserCred :=
  mkCred (u_password_hash u) (u_password u) (omap role_parse (u_roles u)).

(** [collect] into a map: a later entry replaces an earlier one. *)
Definition user_table (us : list UserConfig) : gmap string UserCred :=
  foldl (fun m u => <[u_username u := cred_of u]> m) ∅ us.

Definition from_config (random : string) (cfg : AuthConfig) : AuthState :=
  mkAuthState (ac_enabled cfg)
    (if is_blank (ac_jwt_secret cfg) then random else ac_jwt_secret cfg)
    (ac_token_ttl_secs cfg) (user_table (ac_users cfg)).

(** ** Passwords *)

(** The difference byte: [diff |= x ^ y] over the common length. *)
Fixpoint ct_diff (a b : string) (diff : N) : N :=
  match a, b with
  | String x a, String y b => ct_diff a b (N.lor diff (N.lxor (N_of_ascii x) (N_of_ascii y)))
  | _, _ => diff
  end.

Definition constant_time_eq (a b : string) : bool :=
  if negb (String.length a =? String.length b)%nat then false
  else (ct_diff a b 0 =? 0)%N.

Section auth.
Context `{Jwt, Argon2}.

Definition authenticate (self : AuthState) (username password : string) : option AuthUser :=
  cred ← as_users self !! username;
  let ok := match uc_password_hash cred with
            | Some hash => argon2_verify password hash
            | None => match uc_password cred with
                      | Some plain => constant_time_eq password plain
                      | None => false
                      end
            end in
  if negb ok then None else Some (mkAuthUser username (uc_roles cred)).

(** ** Tokens *)

Definition token_claims (self : AuthState) (now : Z) (user : AuthUser) : Claims :=
  mkClaims (au_username user) (role_str <$> au_roles user) (wrap_u64 (now + as_ttl self)).

Definition issue (self : AuthState) (now : Z) (user : AuthUser) : option string :=
  jwt_encode (as_secret self) (token_claims self now user).

Definition verify (self : AuthState) (now : Z) (token : string) : option AuthUser :=
  data ← jwt_decode (as_secret self) now token;
  Some (mkAuthUser (cl_sub data) (omap role_parse (cl_roles data))).

(** The status of [POST /auth/login]: [None] is 401, [Some None] a signing
    failure (500). *)
Definition login (self : AuthState) (now : Z) (username password : string) : option (option string) :=
  user ← authenticate self username password; Some (issue self now user).

(** ** The request guard *)

(** What the guard reads of a request: the header when it is text, and the
    query string. *)
Record Request : Set := mkRequest { rq_authorization : option string; rq_query : option string }.

Fixpoint first_token (pairs : list string) : option string :=
  match pairs with
  | [] => None
  | p :: pairs => match strip_prefix "token=" p with Some v => Some v | None => first_token pairs end
  end.

Definition extract_token (req : Request) : option string :=
  match rq_authorization req ≫= strip_prefix "Bearer " with
  | Some t => Some (trim t)
  | None => query ← rq_query req; first_token (split_on "&" query)
  end.

Inductive access : Set := Unauthorized | Run_as (user : AuthUser).

Definition require_auth (self : AuthState) (now : Z) (req : Request) : access :=
  if negb (as_enabled self) then Run_as system
  else match extract_token req ≫= verify self now with
       | Some user => Run_as user
       | None => Unauthorized
       end.

(** [Err] is a 403 response. *)
Definition require (user : AuthUser) (role : Role) : bool := has user role.
End auth.

(** ** Specification *)

(** The documented behaviour of the token library: a signed token verifies
    under its secret until its expiry plus the leeway, nothing expired ever
    verifies, and the compact form is one word without an ampersand. *)
Class JwtLaws `{Jwt} : Prop := {
  jwt_valid k c t now : jwt_encode k c = Some t ->
    jwt_decode k now t = if decide (now <= cl_exp c + leeway)%Z then Some c else None;
  jwt_unexpired k now t c : jwt_decode k now t = Some c -> (now <= cl_exp c + leeway)%Z;
  jwt_compact k c t : jwt_encode k c = Some t -> trim t = t /\ free_of "&" t = true
}.

(** The credential of a declared user: the hash decides when there is one. *)
Definition credential_ok `{Argon2} (u : UserConfig) (password : string) : Prop :=
  match u_password_hash u, u_password u with
  | Some hash, _ => argon2_verify password hash = true
  | None, Some plain => password = plain
  | None, None => False
  end.

Definition principal (u : UserConfig) : AuthUser :=
  mkAuthUser (u_username u) (omap role_parse (u_roles u)).

(** A request that carries the token in its header or, without a bearer
    header, as its query string. *)
Definition carries (req : Request) (t : string) : Prop :=
  rq_authorization req = Some ("Bearer " +:+ t) \/
  (rq_authorization req ≫= strip_prefix "Bearer " = None /\ rq_query req = Some ("token=" +:+ t)).

(** ** Proofs *)

Lemma role_parse_str r : role_parse (role_str r) = Some r.
Proof. by destruct r. Qed.

Lemma roles_roundtrip (rs : list Role) : omap role_parse (role_str <$> rs) = rs.
Proof. induction rs as [|r rs IH]; [done|]. cbn. rewrite role_parse_str. by f_equal. Qed.

Lemma has_spec u role : has u role = true <-> exists r, r ∈ au_roles u /\ (privilege role <= privilege r)%nat.
Proof.
  unfold has. rewrite existsb_exists. setoid_rewrite <- list_elem_of_In. by setoid_rewrite Nat.leb_le.
Qed.

Lemma ascii_xor_0 x y : N.lxor (N_of_ascii x) (N_of_ascii y) = 0%N <-> x = y.
Proof.
  rewrite N.lxor_eq_0_iff. split; [|by intros ->]. intros Hxy.
  by rewrite <- (ascii_N_embedding x), Hxy, ascii_N_embedding.
Qed.

(** The accumulated difference is zero exactly when every byte agrees. *)
Lemma ct_diff_0 a b diff : String.length a = String.length b -> ct_diff a b diff = 0%N <-> diff = 0%N /\ a = b.
Proof.
  revert b diff. induction a as [|x a IH]; intros [|y b] diff Hlen; try done; cbn [ct_diff].
  - naive_solver.
  - injection Hlen as Hlen. rewrite IH by done. rewrite N.lor_eq_0_iff, ascii_xor_0. naive_solver.
Qed.

Lemma constant_time_eq_iff a b : constant_time_eq a b = true <-> a = b.
Proof.
  unfold constant_time_eq. destruct (Nat.eqb_spec (String.length a) (String.length b)) as [Hl|Hl]; cbn.
  - rewrite N.eqb_eq, ct_diff_0 by done. naive_solver.
  - split; [done|]. by intros ->.
Qed.

(** the constant-time comparison of passwords, which folds the exclusive
    ors of the bytes into one difference byte, accepts exactly equal
    strings. *)
Theorem constant_time_eq_spec a b : constant_time_eq a b = bool_decide (a = b).
Proof.
  case_bool_decide as Hd; [by apply constant_time_eq_iff|].
  apply not_true_is_false. by rewrite constant_time_eq_iff.
Qed.

Lemma user_table_lookup us name : NoDup (u_username <$> us) ->
  forall cred, user_table us !! name = Some cred <-> exists u, u ∈ us /\ u_username u = name /\ cred = cred_of u.
Proof.
  unfold user_table. intros Hnd cred. induction us as [|u us IH] using rev_ind.
  - cbn. rewrite lookup_empty. split; [done|]. by intros (? & ?%not_elem_of_nil & _).
  - rewrite fmap_app, NoDup_app in Hnd. destruct Hnd as (Hnd & Hd & _). rewrite foldl_app. cbn.
    destruct (decide (u_username u = name)) as [<-|Hn].
    + rewrite lookup_insert_eq. split.
      * intros [= <-]. exists u. split_and!; [|done..]. apply elem_of_app. right. by left.
      * intros (u' & [Hin| ->%list_elem_of_singleton]%elem_of_app & He & ->); [|done].
        exfalso. apply (Hd (u_username u')); [by apply list_elem_of_fmap_2|]. rewrite He. by left.
    + rewrite lookup_insert_ne by done. rewrite IH by done. setoid_rewrite elem_of_app.
      setoid_rewrite list_elem_of_singleton. naive_solver.
Qed.

Section spec.
Context `{JwtLaws, Argon2}.

(** under a configuration that validation accepts, a login succeeds
    exactly for a declared user whose credential the password satisfies (the
    hash when one is declared, the plain password otherwise), and the
    principal has that user's name and known roles. *)
Theorem authenticate_spec `{YamlText} (c : Config) (random name password : string) (user : AuthUser) :
  config_wf c -> ac_enabled (cf_auth c) = true ->
  authenticate (from_config random (cf_auth c)) name password = Some user <->
  exists u, u ∈ ac_users (cf_auth c) /\ u_username u = name /\ credential_ok u password /\ user = principal u.
Proof.
  intros Hwf Hen. pose proof (user_table_lookup _ name (wf_users c Hwf Hen)) as Ht.
  unfold authenticate. cbn [from_config as_users]. unfold credential_ok. split.
  - intros (cred & (u & Hu & <- & ->)%Ht & Ha)%bind_Some. exists u. cbn in Ha.
    destruct (u_password_hash u) as [h|], (u_password u) as [p|]; cbn in Ha;
      try (destruct (argon2_verify password h)); try (destruct (constant_time_eq password p) eqn:Hp);
      cbn in Ha; simplify_eq; split_and!; try done; by apply constant_time_eq_iff.
  - intros (u & Hu & <- & Hc & ->). rewrite (proj2 (Ht (cred_of u))) by eauto. cbn.
    destruct (u_password_hash u) as [h|]; [by rewrite Hc|]. destruct (u_password u) as [p|]; [|done].
    by rewrite (proj2 (constant_time_eq_iff _ _) Hc).
Qed.

Lemma extract_carries req k cl t : jwt_encode k cl = Some t -> carries req t -> extract_token req = Some t.
Proof.
  intros [Htrim Hfree]%jwt_compact [Ha|[Ha Hq]]; unfold extract_token.
  - rewrite Ha. cbn [mbind option_bind]. rewrite (proj2 (strip_prefix_Some "Bearer " _ t)) by done. by rewrite Htrim.
  - rewrite Ha, Hq. cbn [mbind option_bind]. rewrite split_on_free by (by rewrite free_of_app, Hfree).
    cbn [first_token]. by rewrite (proj2 (strip_prefix_Some "token=" _ t)).
Qed.

Lemma verify_issued st now0 user t now : issue st now0 user = Some t -> (0 <= now0 + as_ttl st <= u64_max)%Z ->
  verify st now t = if decide (now <= now0 + as_ttl st + leeway)%Z then Some user else None.
Proof.
  intros Hi Hr. unfold verify. rewrite (jwt_valid _ _ _ now Hi). cbn [token_claims cl_exp].
  unfold wrap_u64. rewrite Z.mod_small by (unfold u64_max in Hr; lia).
  case_decide; [|done]. cbn. rewrite roles_roundtrip. by destruct user.
Qed.

(** C28: a token issued at [now0] lets every request that carries it, in the
    header or the query, run as exactly the principal it was issued to until
    its lifetime and the leeway of one minute are over, and never after; with
    a configured secret this holds across restarts, whatever the random
    secrets.  Without a verified token a request is refused, and no request
    runs on an expired one. *)
Theorem token_access (cfg : AuthConfig) (r r' : string) (now0 now : Z) (user : AuthUser) (req : Request) :
  ac_enabled cfg = true -> (0 <= now0 + ac_token_ttl_secs cfg <= u64_max)%Z ->
  is_blank (ac_jwt_secret cfg) = false \/ r = r' ->
  (forall t, issue (from_config r cfg) now0 user = Some t -> carries req t ->
     require_auth (from_config r' cfg) now req =
       if decide (now <= now0 + ac_token_ttl_secs cfg + leeway)%Z then Run_as user else Unauthorized) /\
  (extract_token req = None -> require_auth (from_config r' cfg) now req = Unauthorized) /\
  (forall u, require_auth (from_config r' cfg) now req = Run_as u ->
     exists t c, extract_token req = Some t /\ jwt_decode (as_secret (from_config r' cfg)) now t = Some c /\
       (now <= cl_exp c + leeway)%Z /\ u = mkAuthUser (cl_sub c) (omap role_parse (cl_roles c))).
Proof.
  intros Hen Httl Hs. unfold require_auth. cbn [from_config as_enabled]. rewrite Hen. cbn [negb]. split_and!.
  - intros t Hi Hc. rewrite (extract_carries req _ _ t Hi Hc). cbn [mbind option_bind].
    assert (as_secret (from_config r cfg) = as_secret (from_config r' cfg)) as Hk
      by (cbn [from_config as_secret]; destruct Hs as [Hs|Hs]; by rewrite Hs).

    rewrite (verify_issued (from_config r' cfg) now0 user t now); [|..|done].
    { cbn [from_config as_ttl]. by case_decide. }
    unfold issue in *. by rewrite <- Hk.
  - by intros ->.
  - intros u Hu. destruct (extract_token req) as [t|]; [|done]. cbn [mbind option_bind] in Hu.
    destruct (verify _ now t) as [u'|] eqn:Hv; [|done]. injection Hu as <-.
    unfold verify in Hv. apply bind_Some in Hv as (c & Hd & [= <-]). exists t, c. split_and!; try done.
    by eapply jwt_unexpired.
Qed.
End spec.

(** ** Concrete instances *)

Section demo.

(** A library that signs one set of claims under one secret. *)
Definition demo_claims : Claims := mkClaims "ann" ["analyst"] 1500.

Local Instance demo_jwt : Jwt := {|
  jwt_encode k c := if decide (k = "k1" /\ c = demo_claims) then Some "h.p.s" else None;
  jwt_decode k now t :=
    if decide (k = "k1" /\ t = "h.p.s" /\ now <= cl_exp demo_claims + leeway)%Z then Some demo_claims else None
|}.

Local Instance demo_jwt_laws : JwtLaws.
Proof.
  split; cbn [jwt_encode jwt_decode demo_jwt].
  - intros k c t now Hc. case_decide as Hk; [|done]. destruct Hk as [-> ->]. injection Hc as <-.
    repeat case_decide; naive_solver.
  - intros k now t c Hd. case_decide as Hk; [|done]. injection Hd as <-. naive_solver.
  - intros k c t Hc. case_decide; [|done]. by injection Hc as <-.
Qed.

Local Instance demo_argon2 : Argon2 := fun p h => bool_decide (h = "$argon2$" +:+ p).
Local Instance demo_yaml_text : YamlText := fun _ => None.

Definition demo_auth : AuthConfig := mkAuth true "k1" 500
  [mkUser "ann" (Some "$argon2$pw") (Some "ignored") ["Analyst"; "owner"]; mkUser "bob" None (Some "pw2") []].

Definition demo_config : Config :=
  mkConfig 1 ClusterConfig_default [] [] IndexConfig_default SigmaConfig_default demo_auth
    None None YNull EdrConfig_default YNull [].

Lemma authenticate_spec_witness :
  authenticate (from_config "" demo_auth) "ann" "pw" = Some (mkAuthUser "ann" [Analyst]) /\
  authenticate (from_config "" demo_auth) "ann" "ignored" = None.
Proof.
  assert (config_wf demo_config) as Hwf by (apply (validate_spec (fun _ => true)); vm_compute; reflexivity).
  split; [|vm_compute; reflexivity].
  apply (authenticate_spec demo_config); [exact Hwf|reflexivity|].
  exists (mkUser "ann" (Some "$argon2$pw") (Some "ignored") ["Analyst"; "owner"]).
  split; [by left|]. split; [done|]. split; [vm_compute; reflexivity|vm_compute; reflexivity].
Defined.

Lemma token_access_witness :
  require_auth (from_config "" demo_auth) 1560 (mkRequest (Some "Bearer h.p.s") None) = Run_as (mkAuthUser "ann" [Analyst]) /\
  require_auth (from_config "" demo_auth) 1561 (mkRequest None (Some "token=h.p.s")) = Unauthorized.
Proof.
  split.
  - destruct (token_access demo_auth "" "" 1000 1560 (mkAuthUser "ann" [Analyst]) (mkRequest (Some "Bearer h.p.s") None))
      as (Ha & _ & _); [done|done|by left|].
    rewrite (Ha "h.p.s"); [reflexivity|vm_compute; reflexivity|by left].
  - destruct (token_access demo_auth "" "" 1000 1561 (mkAuthUser "ann" [Analyst]) (mkRequest None (Some "token=h.p.s")))
      as (Ha & _ & _); [done|done|by left|].
    rewrite (Ha "h.p.s"); [reflexivity|vm_compute; reflexivity|by right].
Defined.
End demo.
