(* ===== verification/ConfigExt.v ===== *)
(** * [sigil-api/src/config_ext.rs]: secrets of the configuration studio

    The structured view blanks the secrets and a save fills blank ones back;
    the raw view replaces the secret texts of the document by placeholders. *)

From stdpp Require Import strings list.
From S2P Require Import Prelude Text Containers Yaml Config.

Local Open Scope string_scope.

(** ** Placeholders *)

Definition JWT_PH : string := "<redacted:jwt_secret>".
Definition user_hash_ph (u : string) : string := "<redacted:user:" +:+ u +:+ ":password_hash>".
Definition user_pw_ph (u : string) : string := "<redacted:user:" +:+ u +:+ ":password>".
Definition token_ph (i : nat) : string := "<redacted:edr_token:" +:+ show_u64 (Z.of_nat i) +:+ ">".

(** ** The structured view *)

Definition with_auth (a : AuthConfig) (c : Config) : Config :=
  mkConfig (cf_version c) (cf_cluster c) (cf_inputs c) (cf_pipelines c) (cf_index c) (cf_sigma c) a
    (cf_data_dir c) (cf_ml_sidecar c) (cf_detectors c) (cf_edr c) (cf_correlation c) (cf_plugins c).
Definition with_edr (e : EdrConfig) (c : Config) : Config :=
  mkConfig (cf_version c) (cf_cluster c) (cf_inputs c) (cf_pipelines c) (cf_index c) (cf_sigma c) (cf_auth c)
    (cf_data_dir c) (cf_ml_sidecar c) (cf_detectors c) e (cf_correlation c) (cf_plugins c).
Definition with_tokens (ts : list string) (e : EdrConfig) : EdrConfig :=
  mkEdrConfig (ec_enabled e) (ec_listen e) (ec_tls_cert e) (ec_tls_key e) ts.

Definition redact_user (u : UserConfig) : UserConfig := mkUser (u_username u) None None (u_roles u).

Definition redact (c : Config) : Config :=
  let a := cf_auth c in
  with_edr (with_tokens [] (cf_edr c))
    (with_auth (mkAuth (ac_enabled a) "" (ac_token_ttl_secs a) (redact_user <$> ac_users a)) c).

Definition merge_user (current : list UserConfig) (u : UserConfig) : UserConfig :=
  match u_password u, u_password_hash u with
  | None, None =>
      match List.find (fun c => bool_decide (u_username c = u_username u)) current with
      | Some cur => mkUser (u_username u) (u_password_hash cur) (u_password cur) (u_roles u)
      | None => u
      end
  | _, _ => u
  end.

Definition merge_secrets (new current : Config) : Config :=
  let a := cf_auth new in let e := cf_edr new in
  with_edr (with_tokens (if is_nil (ec_enrollment_tokens e) then ec_enrollment_tokens (cf_edr current)
                         else ec_enrollment_tokens e) e)
    (with_auth (mkAuth (ac_enabled a)
        (if is_blank (ac_jwt_secret a) then ac_jwt_secret (cf_auth current) else ac_jwt_secret a)
        (ac_token_ttl_secs a) (merge_user (ac_users (cf_auth current)) <$> ac_users a)) new).

(** ** The raw view *)

Definition hide (o : option string) (ph out : string) : string :=
  match o with
  | Some s => if is_empty_str s then out else str_replace s ph out
  | None => out
  end.
Definition unhide (o : option string) (ph out : string) : string :=
  match o with Some s => str_replace ph s out | None => out end.

Definition redact_yaml (yaml : string) (c : Config) : string :=
  let jwt := trim (ac_jwt_secret (cf_auth c)) in
  let out := if is_empty_str jwt then yaml else str_replace jwt JWT_PH yaml in
  let out := foldl (fun out u => hide (u_password u) (user_pw_ph (u_username u))
                                   (hide (u_password_hash u) (user_hash_ph (u_username u)) out))
               out (ac_users (cf_auth c)) in
  foldl (fun out it => hide (Some it.2) (token_ph it.1) out) out (imap pair (ec_enrollment_tokens (cf_edr c))).

Definition restore_yaml (yaml : string) (current : Config) : string :=
  let out := str_replace JWT_PH (ac_jwt_secret (cf_auth current)) yaml in
  let out := foldl (fun out u => unhide (u_password u) (user_pw_ph (u_username u))
                                   (unhide (u_password_hash u) (user_hash_ph (u_username u)) out))
               out (ac_users (cf_auth current)) in
  foldl (fun out it => unhide (Some it.2) (token_ph it.1) out) out
    (imap pair (ec_enrollment_tokens (cf_edr current))).

(** ** Form metadata *)

Record Meta : Set := mkMeta {
  me_input_kinds : list string;
  me_codecs : list string;
  me_sinks : list string;
  me_roles : list string;
  me_cluster_roles : list string;
  me_transports : list string;
  me_edr_token_count : nat;
  me_jwt_secret_set : bool;
  me_users_with_password : list string
}.

Definition meta (c : Config) : Meta :=
  mkMeta IMPLEMENTED_INPUTS KNOWN_CODECS KNOWN_SINKS ["viewer"; "analyst"; "admin"]
    ["ingest"; "index"; "correlate"; "query"; "coordinator"; "all"] ["inproc"; "redpanda"; "nats"]
    (length (ec_enrollment_tokens (cf_edr c))) (negb (is_blank (ac_jwt_secret (cf_auth c))))
    (u_username <$> filter (fun u => is_Some (u_password u) \/ is_Some (u_password_hash u)) (ac_users (cf_auth c))).

Local Close Scope string_scope.

(** ** The structured view keeps and hides the secrets *)

(** The two configurations differ in their secrets at most. *)
Definition same_public (c c' : Config) : Prop :=
  exists a e, c' = with_edr e (with_auth a c) /\
    ac_enabled a = ac_enabled (cf_auth c) /\ ac_token_ttl_secs a = ac_token_ttl_secs (cf_auth c) /\
    ((fun u => (u_username u, u_roles u)) <$> ac_users a) =
      ((fun u => (u_username u, u_roles u)) <$> ac_users (cf_auth c)) /\
    exists ts, e = with_tokens ts (cf_edr c).

Lemma find_user (us : list UserConfig) u : NoDup (u_username <$> us) -> u ∈ us ->
  List.find (fun c => bool_decide (u_username c = u_username u)) us = Some u.
Proof.
  induction us as [|v us IH]; [by intros _ ?%not_elem_of_nil|]. cbn. intros [Hv Hnd]%NoDup_cons Hin.
  apply elem_of_cons in Hin as [->|Hin]; [by rewrite bool_decide_true|].
  rewrite bool_decide_false; [by apply IH|]. intros He. apply Hv. rewrite He. by apply list_elem_of_fmap_2.
Qed.

Lemma merge_redact_users (us : list UserConfig) : NoDup (u_username <$> us) ->
  merge_user us <$> (redact_user <$> us) = us.
Proof.
  intros Hnd. assert (forall u, u ∈ us -> merge_user us (redact_user u) = u) as Hone.
  { intros u Hu. unfold merge_user. cbn. rewrite (find_user us u) by done. by destruct u. }
  revert Hone. generalize (merge_user us). intros f. clear Hnd. induction us as [|u us IH]; intros Hone; [done|].
  cbn. f_equal; [apply Hone; by left|]. apply IH. intros v Hv. apply Hone. by right.
Qed.

Lemma redact_users_public (us us' : list UserConfig) :
  ((fun u => (u_username u, u_roles u)) <$> us') = ((fun u => (u_username u, u_roles u)) <$> us) ->
  redact_user <$> us' = redact_user <$> us.
Proof.
  revert us'. induction us as [|u us IH]; intros [|u' us'] He; try done. cbn in He. injection He as Hn Hr He.
  cbn. f_equal; [unfold redact_user; by rewrite Hn, Hr|by apply IH].
Qed.

Lemma merge_redact (c : Config) : NoDup (u_username <$> ac_users (cf_auth c)) -> merge_secrets (redact c) c = c.
Proof.
  intros Hnd. unfold merge_secrets. cbn. rewrite merge_redact_users by done.
  by destruct c as [? ? ? ? ? ? [] ? ? ? [] ? ?].
Qed.

(** the structured editor round-trips a configuration and never sees a
    secret.  What the form receives is the same for any two configurations
    that differ in their secrets only, and saving it unchanged gives back the
    configuration on disk, secrets included, provided usernames are distinct
    (which validation checks when authentication is on). *)
Theorem secrets_roundtrip (c : Config) :
  (forall c', same_public c c' -> redact c' = redact c) /\
  (NoDup (u_username <$> ac_users (cf_auth c)) -> merge_secrets (redact c) c = c).
Proof.
  split.
  - intros c' (a & e & -> & He & Ht & Hu & ts & ->). unfold redact. cbn.
    by rewrite He, Ht, (redact_users_public _ _ Hu).
  - apply merge_redact.
Qed.

Section demo.
Local Open Scope string_scope.

Definition studio_config : Config :=
  with_auth (mkAuth true "k3y-0f-jwt" 3600 [mkUser "admin" None (Some "secret") ["admin"]]) (empty_config 1).

Definition studio_yaml : string := "auth: { jwt_secret: k3y-0f-jwt, users: [{ username: admin, password: secret }] }".

Lemma secrets_roundtrip_witness : merge_secrets (redact studio_config) studio_config = studio_config.
Proof. apply secrets_roundtrip. apply (bool_decide_unpack _). vm_compute. exact I. Defined.

(** the raw editor does not round-trip.  Opening this document and saving
    it unchanged stores the well-known placeholder in place of the signing
    secret: the password occurs in the placeholder of the signing secret, so
    the second replacement breaks the first placeholder and the restoration
    rebuilds it instead of the secret. *)
Theorem raw_save_loses_signing_secret :
  restore_yaml (redact_yaml studio_yaml studio_config) studio_config =
    "auth: { jwt_secret: <redacted:jwt_secret>, users: [{ username: admin, password: secret }] }" /\
  restore_yaml (redact_yaml studio_yaml studio_config) studio_config <> studio_yaml.
Proof. vm_compute. done. Qed.
End demo.
