(* ===== verification/Api.v ===== *)
(** * [sigil-api/src/lib.rs]: the control surface

    The alert ring, the handlers of the authenticated surface under
    [/api/v1], the rule files and the configuration file, and the dispatch of
    a request through the guard of [auth.rs].  Handlers compose the store,
    the rule engine, the agent gateway, the search language and the
    configuration.  The search index and the SQL engine are not part of this
    file: [/query] is followed to the SQL it runs. *)

From stdpp Require Import gmap strings list.
From S2P Require Import Prelude Utf8 Text Containers Core Serde Yaml SigmaMatcher SigmaEngine Store.
From S2P Require Import Edr Segments Dsl Config Plan Auth ConfigExt.

Local Open Scope string_scope.

(** ** The alert ring *)

Definition ring_push {A} (cap : nat) (q : list A) (a : A) : list A :=
  ((if (length q =? cap)%nat then tail q else q) ++ [a])%list.

Definition recent (q : list Alert) (limit : nat) (technique : option string) : list Alert :=
  take limit (filter (fun a => technique = None \/ a_technique a = technique) (reverse q)).

Section api.
Context (default_hasher : string -> Timestamp -> list string -> Z).
Context `{Serde AlertRecord, Serde SavedObject}.
Context `{SerdeValue TokenRecord, SerdeValue AgentRecord, SerdeValue CommandRecord}.
Context `{JsonText, RegexEngine, Casing, YamlText, ConfigSerde, Jwt, Argon2}.
Context (is_correlation_doc : string -> bool) (parse_yaml : string -> result SigmaRule).
Context (is_dir : string -> bool).

(** ** State *)

(** [ApiState] with the files it works on.  The durable store is shared by
    the alert store, the saved objects and the agent gateway; [ap_persistent]
    says whether the API was given it.  Rule files are in the order the
    directory lists them, files below it with their relative path. *)
Record Api : Type := mkApi {
  ap_auth : AuthState;
  ap_persistent : bool;
  ap_db : Store;
  ap_ring : list Alert;
  ap_cap : nat;
  ap_edr : option (Edr Store);
  ap_rules : option (list (string * string));
  ap_engine : list CompiledRule;
  ap_config : option (option string);
  ap_backup : option string
}.

Definition set_db (db : Store) (a : Api) : Api :=
  mkApi (ap_auth a) (ap_persistent a) db (ap_ring a) (ap_cap a) (ap_edr a) (ap_rules a) (ap_engine a) (ap_config a)
    (ap_backup a).
Definition set_ring (q : list Alert) (a : Api) : Api :=
  mkApi (ap_auth a) (ap_persistent a) (ap_db a) q (ap_cap a) (ap_edr a) (ap_rules a) (ap_engine a) (ap_config a)
    (ap_backup a).
Definition set_edr (e : Edr Store) (a : Api) : Api :=
  mkApi (ap_auth a) (ap_persistent a) (store e) (ap_ring a) (ap_cap a) (Some e) (ap_rules a) (ap_engine a)
    (ap_config a) (ap_backup a).
Definition set_rules (files : list (string * string)) (a : Api) : Api :=
  mkApi (ap_auth a) (ap_persistent a) (ap_db a) (ap_ring a) (ap_cap a) (ap_edr a) (Some files) (ap_engine a)
    (ap_config a) (ap_backup a).
Definition set_engine (rules : list CompiledRule) (a : Api) : Api :=
  mkApi (ap_auth a) (ap_persistent a) (ap_db a) (ap_ring a) (ap_cap a) (ap_edr a) (ap_rules a) rules
    (ap_config a) (ap_backup a).
Definition set_config (text backup : option string) (a : Api) : Api :=
  mkApi (ap_auth a) (ap_persistent a) (ap_db a) (ap_ring a) (ap_cap a) (ap_edr a) (ap_rules a) (ap_engine a)
    (Some text) backup.

(** The gateway state over the shared store. *)
Definition edr_of (a : Api) : option (Edr Store) := set_store (ap_db a) <$> ap_edr a.

(** What surrounds one request: the clock, fresh identifiers, and the file
    operations that fail; a failed write leaves some contents behind. *)
Record Env : Type := mkEnv {
  en_now : Timestamp;
  en_secs : Z;
  en_ulid : string;
  mkdir_fails : bool;
  read_fails : bool;
  write_fails : option (option string);
  remove_fails : bool;
  copy_fails : bool
}.

(** ** Requests and replies *)

Record AlertPatchBody : Set := mkPatchBody {
  pb_status : option string;
  pb_assignee : option string;
  pb_note : option string
}.

Record TestCaseBody : Type := mkCaseBody {
  tc_name : string;
  tc_message : string;
  tc_fields : smap string;
  tc_expect : bool
}.

Inductive ConfigInput : Type := InYaml (yaml : string) | InStructured (config : Config).

(** The routes of the protected router that reach the modelled state. *)
Inductive Req : Type :=
  | GetMe
  | GetAlerts (limit : option nat) (technique : option string)
  | PatchAlert (fp : string) (body : AlertPatchBody)
  | PatchAlerts (fps : list string) (body : AlertPatchBody)
  | GetRules
  | PostRule (yaml : string)
  | PutRule (id yaml : string)
  | DeleteRule (id : string)
  | TestRule (id : string) (yaml : option string) (cases : list TestCaseBody)
  | GetSaved (kind : string)
  | PostSaved (kind : string) (name : option string) (body : value)
  | PutSaved (kind id : string) (name : option string) (body : value)
  | DeleteSaved (kind id : string)
  | GetAgents
  | GetAgent (id : string)
  | PostAction (id action : string) (params : CommandParams)
  | GetCommands (agent : option string) (limit : option nat)
  | GetTokens
  | PostToken (label : option string)
  | GetConfig
  | ValidateConfig (body : ConfigInput)
  | PutConfig (body : ConfigInput)
  | GetQuery (q : option string)
  | GetHistogram (q interval : option string).

Record Report : Set := mkApiReport { rp_ok : bool; rp_errors : nat; rp_warnings : nat }.

Inductive payload : Type :=
  | P_error
  | P_user (u : AuthUser)
  | P_alerts (l : list AlertRecord)
  | P_alert (r : AlertRecord)
  | P_rules (l : list RuleInfo)
  | P_rule (id : string) (rules : nat)
  | P_tests (passed : bool) (cases : nat) (failures : list string)
  | P_saved_list (l : list SavedObject)
  | P_saved (o : SavedObject)
  | P_empty
  | P_agents (l : list AgentView)
  | P_agent (a : AgentView) (commands : list CommandRecord)
  | P_command (r : CommandRecord)
  | P_commands (l : list CommandRecord)
  | P_tokens (l : list TokenInfo)
  | P_token (token label : string)
  | P_config (yaml : string) (config : option Config) (m : option Meta) (r : Report)
  | P_report (applied : bool) (r : Report) (rules : option nat)
  | P_sql (sql : string).

(** An HTTP status with its body. *)
Record Response : Type := mkResponse { status : Z; body : payload }.

Definition json (p : payload) : Response := mkResponse 200 p.
Definition created (p : payload) : Response := mkResponse 201 p.
Definition accepted (p : payload) : Response := mkResponse 202 p.
Definition no_content : Response := mkResponse 204 P_empty.
Definition bad_request : Response := mkResponse 400 P_error.
Definition unauthorized : Response := mkResponse 401 P_error.
Definition forbidden : Response := mkResponse 403 P_error.
Definition not_found : Response := mkResponse 404 P_error.
Definition conflict : Response := mkResponse 409 P_error.
Definition error_response : Response := mkResponse 500 P_error.

(** [Option::unwrap_or(default).clamp(1, 1000)]. *)
Definition page (limit : option nat) : nat := Nat.min (Nat.max (default 50 limit) 1) 1000.

(** ** Rule files *)

(** Per character: letters, digits, [-] and [_] stay, any other becomes [_]
    (the first byte of a wider character; its other bytes go). *)
Definition sanitize_byte (c : ascii) : string :=
  if is_ascii_alphanumeric c || bool_decide (c ∈ ["-"; "_"]%char) then String c ""
  else if (128 <=? N_of_ascii c)%N && (N_of_ascii c <? 192)%N then ""
  else "_".
Fixpoint sanitize (s : string) : string :=
  match s with EmptyString => "" | String c s => sanitize_byte c +:+ sanitize s end.

Definition rule_file (id : string) : string := sanitize id +:+ ".yml".

Fixpoint file_get (files : list (string * string)) (p : string) : option string :=
  match files with [] => None | (q, t) :: files => if decide (q = p) then Some t else file_get files p end.

(** [std::fs::write]: an existing file keeps its place in the listing. *)
Fixpoint file_put (files : list (string * string)) (p text : string) : list (string * string) :=
  match files with
  | [] => [(p, text)]
  | (q, t) :: files => if decide (q = p) then (p, text) :: files else (q, t) :: file_put files p text
  end.
Definition file_remove (files : list (string * string)) (p : string) : list (string * string) :=
  filter (fun f => f.1 <> p) files.

Definition is_yaml (p : string) : bool := ends_with ".yml" p || ends_with ".yaml" p.
(** An entry of the directory itself, not of one below it. *)
Definition top_level (p : string) : bool := free_of "/" p.

(** [CompiledRule::compile]. *)
Definition compile (text : string) : result CompiledRule := r ← parse_yaml text; from_rule r.

(** *** The alert store *)

(** [AlertStore::push]: the ring, then the durable upsert; a failing store
    leaves the record in the ring only. *)
Definition push (now : Timestamp) (a : Api) (al : Alert) : Api * AlertRecord :=
  let a := set_ring (ring_push (ap_cap a) (ap_ring a) al) a in
  if ap_persistent a then
    match upsert_alert default_hasher now (ap_db a) al with
    | Ok (db, r) => (set_db db a, r)
    | Err _ => (a, AlertRecord_new default_hasher now al)
    end
  else (a, AlertRecord_new default_hasher now al).

Definition hydrate (a : Api) : Api :=
  if ap_persistent a then
    match list_alerts (ap_db a) (ap_cap a) None with
    | Ok recs => set_ring (foldl (ring_push (ap_cap a)) (ap_ring a) (ar_alert <$> reverse recs)) a
    | Err _ => a
    end
  else a.

Definition alerts_len (a : Api) : nat := if ap_persistent a then alert_count (ap_db a) else length (ap_ring a).

Definition records (now : Timestamp) (a : Api) (limit : nat) (technique : option string) : list AlertRecord :=
  if ap_persistent a then
    match list_alerts (ap_db a) limit technique with Ok l => l | Err _ => [] end
  else AlertRecord_new default_hasher now <$> recent (ap_ring a) limit technique.

(** *** Alert triage *)

Definition to_patch (now : Timestamp) (b : AlertPatchBody) (user : AuthUser) : option AlertPatch :=
  status ← match pb_status b with
           | Some s => Some <$> triage_parse s
           | None => Some None
           end;
  Some (mkPatch status
          ((fun s => if is_empty_str s then None else Some s) <$> pb_assignee b)
          (t ← pb_note b; if is_blank t then None else Some (mkNote now (au_username user) t))).

Definition alert_patch (env : Env) (a : Api) (user : AuthUser) (fp : string) (b : AlertPatchBody) : Api * Response :=
  if negb (require user Analyst) then (a, forbidden)
  else if negb (ap_persistent a) then (a, conflict)
  else match to_patch (en_now env) b user with
       | None => (a, bad_request)
       | Some p => match patch_alert (en_now env) (ap_db a) fp p with
                   | Ok (db, Some r) => (set_db db a, json (P_alert r))
                   | Ok (_, None) => (a, not_found)
                   | Err _ => (a, error_response)
                   end
       end.

(** One after the other; a fingerprint that is unknown or fails is left out. *)
Fixpoint patch_all (now : Timestamp) (db : Store) (fps : list string) (p : AlertPatch) : Store * list AlertRecord :=
  match fps with
  | [] => (db, [])
  | fp :: fps =>
      match patch_alert now db fp p with
      | Ok (db, Some r) => let '(db, l) := patch_all now db fps p in (db, r :: l)
      | _ => patch_all now db fps p
      end
  end.

Definition alerts_bulk_patch (env : Env) (a : Api) (user : AuthUser) (fps : list string) (b : AlertPatchBody) :
    Api * Response :=
  if negb (require user Analyst) then (a, forbidden)
  else if negb (ap_persistent a) then (a, conflict)
  else match to_patch (en_now env) b user with
       | None => (a, bad_request)
       | Some p => let '(db, updated) := patch_all (en_now env) (ap_db a) fps p in
                   (set_db db a, json (P_alerts updated))
       end.

(** *** Rules *)

Definition load_dir (files : list (string * string)) : list CompiledRule :=
  (load_files is_correlation_doc parse_yaml (filter (fun f => is_yaml f.1 = true) files)).1.

Definition reload_engine (env : Env) (a : Api) : Api * (Response + nat) :=
  match ap_rules a with
  | None => (a, inl conflict)
  | Some files => if read_fails env then (a, inl error_response)
                  else let rules := load_dir files in (set_engine rules a, inr (length rules))
  end.

Definition write_rule_file (env : Env) (a : Api) (rule_id yaml : string) : Api * option Response :=
  match ap_rules a with
  | None => (a, Some conflict)
  | Some files =>
      if mkdir_fails env then (a, Some conflict)
      else match write_fails env with
           | Some kept => (match kept with
                           | Some text => set_rules (file_put files (rule_file rule_id) text) a
                           | None => a
                           end, Some conflict)
           | None => (set_rules (file_put files (rule_file rule_id) yaml) a, None)
           end
  end.

(** The file of the directory whose rule has the id, in listing order. *)
Definition find_rule_path (env : Env) (files : list (string * string)) (id : string) : option string :=
  if read_fails env then None
  else fst <$> List.find (fun f => top_level f.1 && is_yaml f.1 &&
         match compile f.2 with Ok c => bool_decide (rule_id c = id) | Err _ => false end) files.

Definition delete_rule_file (env : Env) (a : Api) (id : string) : Api * (Response + bool) :=
  match ap_rules a with
  | None => (a, inl conflict)
  | Some files =>
      let target := match file_get files (rule_file id) with
                    | Some _ => Some (rule_file id)
                    | None => find_rule_path env files id
                    end in
      match target with
      | Some p => if remove_fails env then (a, inl conflict) else (set_rules (file_remove files p) a, inr true)
      | None => (a, inr false)
      end
  end.

Definition load_rule_by_id (env : Env) (a : Api) (id : string) : option CompiledRule :=
  files ← ap_rules a; p ← find_rule_path env files id; text ← file_get files p;
  match compile text with Ok c => Some c | Err _ => None end.

Definition rule_create (env : Env) (a : Api) (user : AuthUser) (yaml : string) : Api * Response :=
  if negb (require user Analyst) then (a, forbidden)
  else match compile yaml with
       | Err _ => (a, bad_request)
       | Ok c => match write_rule_file env a (rule_id c) yaml with
                 | (a, Some r) => (a, r)
                 | (a, None) => match reload_engine env a with
                                | (a, inr n) => (a, created (P_rule (rule_id c) n))
                                | (a, inl r) => (a, r)
                                end
                 end
       end.

Definition rule_update (env : Env) (a : Api) (user : AuthUser) (id yaml : string) : Api * Response :=
  if negb (require user Analyst) then (a, forbidden)
  else match compile yaml with
       | Err _ => (a, bad_request)
       | Ok _ => match write_rule_file env a id yaml with
                 | (a, Some r) => (a, r)
                 | (a, None) => match reload_engine env a with
                                | (a, inr n) => (a, json (P_rule id n))
                                | (a, inl r) => (a, r)
                                end
                 end
       end.

Definition rule_delete (env : Env) (a : Api) (user : AuthUser) (id : string) : Api * Response :=
  if negb (require user Analyst) then (a, forbidden)
  else match delete_rule_file env a id with
       | (a, inr true) => match reload_engine env a with
                          | (a, inr n) => (a, json (P_rule id n))
                          | (a, inl r) => (a, r)
                          end
       | (a, inr false) => (a, not_found)
       | (a, inl r) => (a, r)
       end.

(** [event_from_fields]. *)
Definition event_from_fields (env : Env) (message : string) (fields : smap string) : Event :=
  let e := Event_new (en_ulid env) (en_now env) "test" in
  mkEvent (ev_id e) (ev_ts e) (ingest_ts e) (ocsf_class e) (tenant e) (severity e) (host e) (actor e) (target e)
    message ((fun kv => (kv.1, VString kv.2)) <$> fields) (template_id e) (labels e) (raw e).

(** A draft when the body has one, else the stored rule. *)
Definition rule_test (env : Env) (a : Api) (user : AuthUser) (id : string) (yaml : option string)
    (cases : list TestCaseBody) : Api * Response :=
  if negb (require user Analyst) then (a, forbidden)
  else let compiled := match yaml with
         | Some y => match compile y with Ok c => inr c | Err _ => inl bad_request end
         | None => match load_rule_by_id env a id with Some c => inr c | None => inl not_found end
         end in
       match compiled with
       | inl r => (a, r)
       | inr c =>
           let failures := run_cases c
             ((fun t => (tc_name t, event_from_fields env (tc_message t) (tc_fields t), tc_expect t)) <$> cases) in
           (a, json (P_tests (is_nil failures) (length cases) failures))
       end.

(** *** Saved objects *)

Definition saved_list (a : Api) (kind : string) : Response :=
  if negb (ap_persistent a) then json (P_saved_list [])
  else match list_saved (ap_db a) kind with
       | Ok l => json (P_saved_list l)
       | Err _ => error_response
       end.

Definition save_object (env : Env) (a : Api) (user : AuthUser) (kind id : string) (name : option string)
    (body : value) (reply : payload -> Response) : Api * Response :=
  if negb (require user Analyst) then (a, forbidden)
  else if negb (ap_persistent a) then (a, conflict)
  else let o := mkSaved kind id (default "" name) (Some (au_username user)) (en_now env) body in
       (set_db (put_saved (ap_db a) o) a, reply (P_saved o)).

Definition saved_create (env : Env) (a : Api) (user : AuthUser) (kind : string) (name : option string)
    (body : value) : Api * Response :=
  save_object env a user kind (en_ulid env) name body created.

Definition saved_update (env : Env) (a : Api) (user : AuthUser) (kind id : string) (name : option string)
    (body : value) : Api * Response :=
  save_object env a user kind id name body json.

Definition saved_delete (a : Api) (user : AuthUser) (kind id : string) : Api * Response :=
  if negb (require user Analyst) then (a, forbidden)
  else if negb (ap_persistent a) then (a, conflict)
  else let '(db, found) := delete_saved (ap_db a) kind id in
       (set_db db a, if found : bool then no_content else not_found).

(** *** Agents *)

Definition edr_agents (a : Api) : Response :=
  match edr_of a with
  | None => conflict
  | Some e => match registry_list e with Ok l => json (P_agents l) | Err _ => error_response end
  end.

Definition edr_agent (a : Api) (id : string) : Response :=
  match edr_of a with
  | None => conflict
  | Some e => match registry_get e id with
              | Ok (Some v) => json (P_agent v (match command_list (store e) 50 (Some id) with
                                                | Ok l => l | Err _ => [] end))
              | Ok None => not_found
              | Err _ => error_response
              end
  end.

Definition edr_action (env : Env) (a : Api) (user : AuthUser) (id action : string) (params : CommandParams) :
    Api * Response :=
  if negb (require user Analyst) then (a, forbidden)
  else match edr_of a with
       | None => (a, conflict)
       | Some e =>
           match registry_get e id with
           | Ok (Some _) =>
               match enqueue (en_now env) (en_ulid env) e id action params (au_username user) with
               | Ok (e, r) => (set_edr e a, accepted (P_command r))
               | Err Prelude.Config => (a, bad_request)
               | Err _ => (a, error_response)
               end
           | Ok None => (a, not_found)
           | Err _ => (a, error_response)
           end
       end.

Definition edr_commands (a : Api) (agent : option string) (limit : option nat) : Response :=
  match edr_of a with
  | None => conflict
  | Some e => match command_list (store e) (Nat.min (default 100 limit) 1000)%nat agent with
              | Ok l => json (P_commands l)
              | Err _ => error_response
              end
  end.

Definition edr_tokens (a : Api) (user : AuthUser) : Response :=
  if negb (require user Admin) then forbidden
  else match edr_of a with
       | None => conflict
       | Some e => match token_list (store e) with Ok l => json (P_tokens l) | Err _ => error_response end
       end.

Definition edr_token_create (env : Env) (a : Api) (user : AuthUser) (label : option string) : Api * Response :=
  if negb (require user Admin) then (a, forbidden)
  else match edr_of a with
       | None => (a, conflict)
       | Some e =>
           let label := default "api" label in
           let '(db, t) := token_issue (en_now env) (en_ulid env) (store e) label (Some (au_username user)) in
           (set_edr (set_store db e) a, created (P_token t label))
       end.

(** *** The configuration file *)

Definition report_of (r : ValidationReport) : Report :=
  mkApiReport (report_ok r) (length (errors r)) (length (warnings r)).
Definition failure : Report := mkApiReport false 1 0.

Definition config_report (yaml : string) : Report :=
  match parse yaml with
  | Ok c => report_of (validate is_dir c)
  | Err _ => failure
  end.

Definition read_current_config (env : Env) (file : option string) : Config :=
  match file with
  | Some text => if read_fails env then empty_config 1
                 else match parse text with Ok c => c | Err _ => empty_config 1 end
  | None => empty_config 1
  end.

Definition resolve_config_input (b : ConfigInput) (current : Config) : result string :=
  match b with
  | InYaml yaml => Ok (restore_yaml yaml current)
  | InStructured c => Plan.to_text (merge_secrets c current)
  end.

Definition config_get (env : Env) (a : Api) (user : AuthUser) : Response :=
  if negb (require user Admin) then forbidden
  else match ap_config a with
       | None => conflict
       | Some None => error_response
       | Some (Some yaml) =>
           if read_fails env then error_response
           else match parse yaml with
                | Ok c => json (P_config (redact_yaml yaml c) (Some (redact c)) (Some (meta c))
                                  (report_of (validate is_dir c)))
                | Err _ => json (P_config yaml None None failure)
                end
       end.

Definition config_validate (env : Env) (a : Api) (user : AuthUser) (b : ConfigInput) : Response :=
  if negb (require user Admin) then forbidden
  else match ap_config a with
       | None => conflict
       | Some file =>
           match resolve_config_input b (read_current_config env file) with
           | Ok yaml => json (P_report false (config_report yaml) None)
           | Err _ => json (P_report false failure None)
           end
       end.

Definition config_put (env : Env) (a : Api) (user : AuthUser) (b : ConfigInput) : Api * Response :=
  if negb (require user Admin) then (a, forbidden)
  else match ap_config a with
       | None => (a, conflict)
       | Some file =>
           match resolve_config_input b (read_current_config env file) with
           | Err _ => (a, json (P_report false failure None))
           | Ok yaml =>
               match parse yaml with
               | Err _ => (a, json (P_report false failure None))
               | Ok cfg =>
                   let r := validate is_dir cfg in
                   if negb (report_ok r) then (a, json (P_report false (report_of r) None))
                   else let backup := match file with
                                      | Some old => if copy_fails env then ap_backup a else Some old
                                      | None => ap_backup a
                                      end in
                        match write_fails env with
                        | Some kept => (set_config kept backup a, error_response)
                        | None =>
                            let '(a, n) := reload_engine env (set_config (Some yaml) backup a) in
                            (a, json (P_report true (report_of r)
                                        match n with inr n => Some n | inl _ => None end))
                        end
               end
           end
       end.

(** *** Search *)

Definition query_handler (q : option string) : Response :=
  match q with
  | Some dsl => if is_blank dsl then bad_request
                else match lower dsl with Ok sql => json (P_sql sql) | Err _ => bad_request end
  | None => bad_request
  end.

Definition histogram_sql (q interval : option string) : string :=
  let width := Z.max (default 3600000000%Z (parse_duration_micros (default "1h" interval))) 1 in
  let w := show_u64 width in
  "SELECT (ts / " +:+ w +:+ ") * " +:+ w +:+ " AS bucket, count(*) AS n FROM events" +:+
  match q with
  | Some q => if is_blank q then "" else " WHERE message LIKE '%" +:+ Dsl.escape q +:+ "%'"
  | None => ""
  end +:+ " GROUP BY bucket ORDER BY bucket".

(** *** Dispatch *)

Definition handle (env : Env) (a : Api) (user : AuthUser) (r : Req) : Api * Response :=
  match r with
  | GetMe => (a, json (P_user user))
  | GetAlerts limit technique => (a, json (P_alerts (records (en_now env) a (page limit) technique)))
  | PatchAlert fp b => alert_patch env a user fp b
  | PatchAlerts fps b => alerts_bulk_patch env a user fps b
  | GetRules => (a, json (P_rules (rule_infos (ap_engine a))))
  | PostRule yaml => rule_create env a user yaml
  | PutRule id yaml => rule_update env a user id yaml
  | DeleteRule id => rule_delete env a user id
  | TestRule id yaml cases => rule_test env a user id yaml cases
  | GetSaved kind => (a, saved_list a kind)
  | PostSaved kind name b => saved_create env a user kind name b
  | PutSaved kind id name b => saved_update env a user kind id name b
  | DeleteSaved kind id => saved_delete a user kind id
  | GetAgents => (a, edr_agents a)
  | GetAgent id => (a, edr_agent a id)
  | PostAction id action params => edr_action env a user id action params
  | GetCommands agent limit => (a, edr_commands a agent limit)
  | GetTokens => (a, edr_tokens a user)
  | PostToken label => edr_token_create env a user label
  | GetConfig => (a, config_get env a user)
  | ValidateConfig b => (a, config_validate env a user b)
  | PutConfig b => config_put env a user b
  | GetQuery q => (a, query_handler q)
  | GetHistogram q interval => (a, json (P_sql (histogram_sql q interval)))
  end.

(** A request to the protected router. *)
Definition serve (env : Env) (a : Api) (req : Request) (r : Req) : Api * Response :=
  match require_auth (ap_auth a) (en_secs env) req with
  | Unauthorized => (a, unauthorized)
  | Run_as user => handle env a user r
  end.
End api.
