(* ===== verification/ApiSpec.v ===== *)
(** * What the control surface promises

    Roles decide what a request may change; rule files, the running engine
    and the configuration file stay consistent; the alert ring holds the
    newest alerts; and one gap: the saved-object routes reach the records of
    the agent gateway. *)

From stdpp Require Import gmap strings list.
From S2P Require Import Prelude Utf8 Text Containers Core Serde Yaml SigmaMatcher SigmaEngine Store.
From S2P Require Import Edr Dsl Config Plan Auth ConfigExt Api.

(** ** Specification *)

(** The role a route asks for; the others only need a principal. *)
Definition needs (r : Req) : Role :=
  match r with
  | GetTokens | PostToken _ | GetConfig | ValidateConfig _ | PutConfig _ => Admin
  | PatchAlert _ _ | PatchAlerts _ _ | PostRule _ | PutRule _ _ | DeleteRule _ | TestRule _ _ _
  | PostSaved _ _ _ | PutSaved _ _ _ _ | DeleteSaved _ _ | PostAction _ _ _ => Analyst
  | _ => Viewer
  end.

(** The routes that may change the state. *)
Definition writes (r : Req) : bool :=
  match r with
  | PatchAlert _ _ | PatchAlerts _ _ | PostRule _ | PutRule _ _ | DeleteRule _ | PostSaved _ _ _
  | PutSaved _ _ _ _ | DeleteSaved _ _ | PostAction _ _ _ | PostToken _ | PutConfig _ => true
  | _ => false
  end.

Section access.
Context (default_hasher : string -> Timestamp -> list string -> Z).
Context `{Serde AlertRecord, Serde SavedObject}.
Context `{SerdeValue TokenRecord, SerdeValue AgentRecord, SerdeValue CommandRecord}.
Context `{JsonText, RegexEngine, Casing, YamlText, ConfigSerde, Jwt, Argon2}.
Context (is_correlation_doc : string -> bool) (parse_yaml : string -> result SigmaRule).
Context (is_dir : string -> bool).

Local Abbreviation handle := (handle default_hasher is_correlation_doc parse_yaml is_dir).
Local Abbreviation serve := (serve default_hasher is_correlation_doc parse_yaml is_dir).
Local Abbreviation reload_engine := (reload_engine is_correlation_doc parse_yaml).

(** Case analysis of a handler. *)
Local Ltac branches := intros; repeat (case_match || simplify_eq/=); try done.

Lemma handle_reads env a u r : writes r = false -> (handle env a u r).1 = a.
Proof.
  destruct r; try done; intros _; cbn; unfold rule_test; branches.
Qed.

Lemma handle_refused env a u r : needs r <> Viewer -> require u (needs r) = false ->
  handle env a u r = (a, forbidden).
Proof.
  destruct r; try done; intros _; cbn [needs]; intros Hr; cbn;
    unfold alert_patch, alerts_bulk_patch, rule_create, rule_update, rule_delete, rule_test, saved_create, saved_update,
      save_object, saved_delete, edr_action, edr_tokens, edr_token_create, config_get, config_validate, config_put;
    by rewrite Hr.
Qed.

(** What no route touches. *)
Definition frame (a a' : Api) : Prop :=
  ap_auth a' = ap_auth a /\ ap_persistent a' = ap_persistent a /\ ap_cap a' = ap_cap a /\ ap_ring a' = ap_ring a.

Lemma reload_frame env a a' n : reload_engine env a = (a', n) ->
  frame a a' /\ ap_config a' = ap_config a /\ ap_rules a' = ap_rules a /\ ap_db a' = ap_db a /\ ap_backup a' = ap_backup a.
Proof. unfold Api.reload_engine, frame. branches; naive_solver. Qed.

Lemma write_rule_frame env a id y a' r : write_rule_file env a id y = (a', r) ->
  frame a a' /\ ap_config a' = ap_config a /\ ap_db a' = ap_db a.
Proof. unfold write_rule_file, frame. branches; naive_solver. Qed.

Lemma delete_rule_frame env a id a' r : delete_rule_file parse_yaml env a id = (a', r) ->
  frame a a' /\ ap_config a' = ap_config a /\ ap_db a' = ap_db a.
Proof. unfold delete_rule_file, frame. branches; naive_solver. Qed.

Lemma frame_trans a b c : frame a b -> frame b c -> frame a c.
Proof. unfold frame. intuition congruence. Qed.

Lemma rule_file_routes env a u r a' resp : handle env a u r = (a', resp) ->
  match r with PostRule _ | PutRule _ _ | DeleteRule _ => True | _ => False end ->
  frame a a' /\ ap_config a' = ap_config a /\ ap_db a' = ap_db a.
Proof.
  destruct r; try done; intros Hh _; cbn in Hh;
    [unfold rule_create in Hh|unfold rule_update in Hh|unfold rule_delete in Hh];
    repeat (case_match || simplify_eq/=);
    try (match goal with
         | E : reload_engine _ _ = _ |- _ => apply reload_frame in E as (? & ? & ? & ? & ?)
         end);
    try (match goal with
         | E : write_rule_file _ _ _ _ = _ |- _ => apply write_rule_frame in E as (? & ? & ?)
         | E : delete_rule_file _ _ _ _ = _ |- _ => apply delete_rule_frame in E as (? & ? & ?)
         end);
    unfold frame in *; intuition congruence.
Qed.

Lemma handle_frame env a u r : frame a (handle env a u r).1 /\
  (ap_config (handle env a u r).1 <> ap_config a -> needs r = Admin).
Proof.
  destruct (handle env a u r) as [a' resp] eqn:Hh. cbn [fst].
  destruct (writes r) eqn:Hw; [|rewrite <- (handle_reads env a u r Hw), Hh; by split].
  destruct r; try done;
    try (by destruct (rule_file_routes _ _ _ _ _ _ Hh I) as (? & Hc & _); split; [|rewrite Hc]);
    cbn in Hh;
    unfold alert_patch, alerts_bulk_patch, saved_create, saved_update, save_object, saved_delete, edr_action,
      edr_token_create, config_put in Hh; repeat (case_match || simplify_eq/=); try (by split);
    match goal with
    | E : reload_engine _ _ = _ |- _ => apply reload_frame in E as (? & ? & ? & ? & ?)
    end; by split.
Qed.

(** C4: access control of the control surface.  A request without a valid
    principal is refused and changes nothing; a principal whose roles do not
    reach the one the route asks for is refused and changes nothing; a
    reading route changes nothing; so a state that changed was changed by an
    analyst or an administrator, and the configuration file by an
    administrator.  No route touches the user table, the keys or the alert
    ring. *)
Theorem control_access env a req r :
  let '(a', resp) := serve env a req r in
  frame a a' /\
  (require_auth (ap_auth a) (en_secs env) req = Unauthorized -> a' = a /\ status resp = 401%Z) /\
  (forall u, require_auth (ap_auth a) (en_secs env) req = Run_as u ->
     (require u (needs r) = false -> needs r <> Viewer -> a' = a /\ status resp = 403%Z) /\
     (writes r = false -> a' = a) /\
     (a' <> a -> require u Analyst = true) /\
     (ap_config a' <> ap_config a -> require u Admin = true)).
Proof.
  unfold Api.serve. destruct (require_auth (ap_auth a) (en_secs env) req) as [|u]; [by split_and!|].
  destruct (handle_frame env a u r) as [Hf Hc]. pose proof (handle_reads env a u r) as Hreads.
  pose proof (handle_refused env a u r) as Href.
  destruct (handle env a u r) as [a' resp]. cbn [fst] in *. split_and!; [done|done|]. intros ? [= <-]. split_and!.
  - intros Hr Hn. specialize (Href Hn Hr). by injection Href as -> ->.
  - done.
  - intros Hne. destruct (require u Analyst) eqn:Hr; [done|].
    assert (needs r <> Viewer) as Hn by (intros Hv; apply Hne, Hreads; by destruct r).
    assert (require u (needs r) = false) as Hr'.
    { apply not_true_is_false. intros (x & Hx & Hp)%has_spec. apply not_true_iff_false in Hr. apply Hr, has_spec.
      exists x. split; [done|]. destruct (needs r); cbn in *; [done|lia..]. }
    specialize (Href Hn Hr'). by injection Href as -> ->.
  - intros Hne. specialize (Hc Hne). destruct (require u Admin) eqn:Hr; [done|]. rewrite Hc in Href.
    specialize (Href ltac:(done) Hr). injection Href as -> ->. done.
Qed.
End access.

(** ** Rule files *)

Section rules.
Context (default_hasher : string -> Timestamp -> list string -> Z).
Context `{Serde AlertRecord, Serde SavedObject}.
Context `{SerdeValue TokenRecord, SerdeValue AgentRecord, SerdeValue CommandRecord}.
Context `{JsonText, RegexEngine, Casing, YamlText, ConfigSerde, Jwt, Argon2}.
Context (is_correlation_doc : string -> bool) (parse_yaml : string -> result SigmaRule).
Context (is_dir : string -> bool).

Local Abbreviation handle := (handle default_hasher is_correlation_doc parse_yaml is_dir).
Local Abbreviation load_dir := (load_dir is_correlation_doc parse_yaml).
Local Abbreviation compile := (compile parse_yaml).

Lemma file_get_put files p t q : file_get (file_put files p t) q = if decide (p = q) then Some t else file_get files q.
Proof.
  induction files as [|[p' t'] files IH]; cbn [file_put file_get]; [done|].
  destruct (decide (p' = p)) as [->|]; cbn [file_get]; [by case_decide|].
  rewrite IH. repeat case_decide; congruence.
Qed.

Lemma file_get_remove files p q : file_get (file_remove files p) q = if decide (p = q) then None else file_get files q.
Proof.
  unfold file_remove. induction files as [|[p' t'] files IH]; [by case_decide|].
  rewrite filter_cons. cbn [fst]. destruct (decide (p' <> p)) as [Hne|Heq]; cbn [file_get]; rewrite IH.
  - repeat case_decide; congruence.
  - apply dec_stable in Heq as ->. by case_decide.
Qed.

Lemma file_get_elem files p t : file_get files p = Some t -> (p, t) ∈ files.
Proof.
  induction files as [|[p' t'] files IH]; cbn; [done|]. case_decide; [intros [= ->]; subst; by left|].
  intros ?. right. auto.
Qed.

Lemma load_dir_spec files : load_dir files =
  omap (loaded_of is_correlation_doc parse_yaml) (filter (fun f => is_yaml f.1 = true) files).
Proof.
  unfold Api.load_dir. pose proof (load_report_complete is_correlation_doc parse_yaml
    (filter (fun f => is_yaml f.1 = true) files)) as Hl.
  destruct (load_files _ _ _) as [rules rep]. apply Hl.
Qed.

Lemma load_dir_elem files p text c : file_get files p = Some text -> is_yaml p = true ->
  is_correlation_doc text = false -> compile text = Ok c -> c ∈ load_dir files.
Proof.
  intros Hg%file_get_elem Hy Hc Hcomp. rewrite load_dir_spec. apply list_elem_of_omap.
  exists (p, text). split; [by apply list_elem_of_filter|]. rewrite loaded_of_eq, Hc.
  unfold Api.compile in Hcomp. by rewrite Hcomp.
Qed.

Lemma rule_file_yaml id : is_yaml (rule_file id) = true.
Proof. unfold is_yaml, rule_file. apply orb_true_iff. left. apply ends_with_spec. by exists (sanitize id). Qed.

(** The id of the file an edit writes. *)
Definition edited (r : Req) (c : CompiledRule) : string :=
  match r with PutRule id _ => id | _ => rule_id c end.

Lemma write_rule_error env a id yaml a' r : write_rule_file env a id yaml = (a', Some r) -> (300 <= status r)%Z.
Proof. unfold write_rule_file. intros. repeat (case_match || simplify_eq/=); cbn; lia. Qed.

Lemma reload_error env a a' r : reload_engine is_correlation_doc parse_yaml env a = (a', inl r) -> (300 <= status r)%Z.
Proof. unfold reload_engine. intros. repeat (case_match || simplify_eq/=); cbn; lia. Qed.

Lemma write_then_reload env a id yaml a' r' res n :
  write_rule_file env a id yaml = (a', None) -> reload_engine is_correlation_doc parse_yaml env a' = (r', res) ->
  res = inr n -> exists files, ap_rules a = Some files /\
    ap_rules r' = Some (file_put files (rule_file id) yaml) /\
    ap_engine r' = load_dir (file_put files (rule_file id) yaml) /\ n = length (ap_engine r').
Proof.
  unfold write_rule_file, reload_engine. intros Hw Hr ->.
  repeat (case_match || simplify_eq/=); eexists; split_and!; done.
Qed.

(** a rule edit that reports success compiled the submitted text, wrote it
    to the file named after the rule, left every other file alone, and the
    running engine is what the directory now loads, the new rule included
    (correlation documents are loaded elsewhere).  A text that does not
    compile changes nothing. *)
Theorem rule_edit_spec env a u r yaml : r = PostRule yaml \/ (exists id, r = PutRule id yaml) ->
  let '(a', resp) := handle env a u r in
  (forall e, compile yaml = Err e -> a' = a) /\
  ((status resp < 300)%Z ->
   exists c files files', compile yaml = Ok c /\ ap_rules a = Some files /\ ap_rules a' = Some files' /\
     file_get files' (rule_file (edited r c)) = Some yaml /\
     (forall p, p <> rule_file (edited r c) -> file_get files' p = file_get files p) /\
     ap_engine a' = load_dir files' /\
     (is_correlation_doc yaml = false -> c ∈ ap_engine a')).
Proof.
  intros Hr. destruct (handle env a u r) as [a' resp] eqn:Hh.
  assert (forall id a1 a2 n, write_rule_file env a id yaml = (a1, None) ->
    reload_engine is_correlation_doc parse_yaml env a1 = (a2, inr n) -> forall c, compile yaml = Ok c ->
    exists files files', ap_rules a = Some files /\ ap_rules a2 = Some files' /\
      file_get files' (rule_file id) = Some yaml /\
      (forall p, p <> rule_file id -> file_get files' p = file_get files p) /\
      ap_engine a2 = load_dir files' /\ (is_correlation_doc yaml = false -> c ∈ ap_engine a2)) as Hok.
  { intros id a1 a2 n Hw Hl c Hc. destruct (write_then_reload _ _ _ _ _ _ _ _ Hw Hl eq_refl) as (files & ? & ? & He & _).
    exists files, (file_put files (rule_file id) yaml). split_and!; try done.
    - rewrite file_get_put. by rewrite decide_True.
    - intros p Hp. rewrite file_get_put. by rewrite decide_False.
    - intros Hd. rewrite He. eapply (load_dir_elem _ (rule_file id)); try done; [|apply rule_file_yaml].
      rewrite file_get_put. by rewrite decide_True. }
  destruct Hr as [->|[id ->]]; cbn in Hh; [unfold rule_create in Hh|unfold rule_update in Hh];
    destruct (require u Analyst); cbn in Hh; simplify_eq/=; try (by split);
    destruct (compile yaml) as [c|] eqn:Hc; simplify_eq/=; try (by split);
    (split; [done|]); repeat (case_match || simplify_eq/=);
    try (match goal with
         | E : write_rule_file _ _ _ _ = (_, Some _) |- _ => apply write_rule_error in E; lia
         | E : reload_engine _ _ _ _ = (_, inl _) |- _ => apply reload_error in E; lia
         end);
    intros _; exists c; cbn [edited];
    (match goal with
     | E : write_rule_file _ _ _ _ = _, E' : reload_engine _ _ _ _ = _ |- _ =>
         destruct (Hok _ _ _ _ E E' c eq_refl) as (files & files' & ?); by exists files, files'
     end).
Qed.
End rules.

(** ** The configuration file *)

Section config.
Context (default_hasher : string -> Timestamp -> list string -> Z).
Context `{Serde AlertRecord, Serde SavedObject}.
Context `{SerdeValue TokenRecord, SerdeValue AgentRecord, SerdeValue CommandRecord}.
Context `{JsonText, RegexEngine, Casing, YamlText, ConfigSerde, Jwt, Argon2}.
Context (is_correlation_doc : string -> bool) (parse_yaml : string -> result SigmaRule).
Context (is_dir : string -> bool).

Local Abbreviation handle := (handle default_hasher is_correlation_doc parse_yaml is_dir).

Lemma put_config_writes env a u b :
  let a' := (config_put is_correlation_doc parse_yaml is_dir env a u b).1 in
  a' = a \/ exists file text cfg backup,
    ap_config a = Some file /\ resolve_config_input b (read_current_config env file) = Ok text /\
    parse text = Ok cfg /\ config_wf cfg /\
    backup = match file with Some old => if copy_fails env then ap_backup a else Some old | None => ap_backup a end /\
    match write_fails env with
    | Some kept => ap_config a' = Some kept
    | None => ap_config a' = Some (Some text)
    end /\ ap_backup a' = backup.
Proof.
  cbn zeta. unfold config_put. destruct (negb (require u Admin)); [by left|].
  destruct (ap_config a) as [file|] eqn:Hf; [|by left].
  destruct (resolve_config_input b _) as [text|] eqn:Hr; [|by left].
  destruct (parse text) as [cfg|] eqn:Hp; [|by left].
  destruct (report_ok (validate is_dir cfg)) eqn:Hv; [|by left]. cbn [negb]. right.
  exists file, text, cfg. eexists. split_and!; [done..| |reflexivity| |].
  - by apply (validate_spec is_dir).
  - destruct (write_fails env); [done|]. destruct (reload_engine _ _ _ _) as [a' n] eqn:E. cbn [fst].
    apply reload_frame in E as (_ & -> & _). done.
  - destruct (write_fails env); [done|]. destruct (reload_engine _ _ _ _) as [a' n] eqn:E. cbn [fst].
    apply reload_frame in E as (_ & _ & _ & _ & ->). done.
Qed.

End config.

(** ** The alert ring *)

Lemma ring_push_spec {A} cap (all q : list A) a : (0 < cap)%nat ->
  q = reverse (take cap (reverse all)) -> ring_push cap q a = reverse (take cap (reverse (all ++ [a]))).
Proof.
  intros Hc ->. unfold ring_push. rewrite reverse_snoc.
  destruct cap as [|cap]; [lia|]. cbn [take]. rewrite reverse_cons. f_equal.
  set (l := reverse all). rewrite length_reverse, length_take.
  destruct (Nat.eqb_spec (Nat.min (S cap) (length l)) (S cap)) as [He|He].
  - assert (S cap <= length l)%nat as Hl by lia.
    destruct (lookup_lt_is_Some_2 l cap) as [x Hx]; [lia|].
    rewrite (take_S_r l cap x) by done. by rewrite reverse_snoc.
  - rewrite !take_ge; [done|lia..].
Qed.

(** the in-memory alert ring, whatever was pushed into it, holds the
    newest [cap] alerts: [recent] answers newest first with those of them
    that have the technique asked for, at most [limit], and the ring never
    grows past its capacity. *)
Theorem alert_ring_spec cap (pushed : list Alert) limit technique : (0 < cap)%nat ->
  let q := foldl (ring_push cap) [] pushed in
  length q <= cap /\
  recent q limit technique =
    take limit (filter (fun a => technique = None \/ a_technique a = technique) (take cap (reverse pushed))).
Proof.
  intros Hc. cbn zeta.
  assert (foldl (ring_push cap) [] pushed = reverse (take cap (reverse pushed))) as ->.
  { induction pushed as [|a l IH] using rev_ind; [by destruct cap|].
    rewrite foldl_app. cbn [foldl]. by apply (ring_push_spec cap l). }
  unfold recent. rewrite reverse_involutive, length_reverse, length_take. split; [lia|done].
Qed.

Lemma alert_ring_spec_witness :
  let al t := mkAlert "r" "t" Low (Some t) [] 0 in
  recent (foldl (ring_push 2) [] [al "T1"%string; al "T2"%string; al "T1"%string]) 5 (Some "T1"%string) =
    [al "T1"%string].
Proof. cbn zeta. rewrite (proj2 (alert_ring_spec 2 _ 5 (Some "T1"%string) ltac:(lia))). vm_compute. reflexivity. Defined.

(** ** Saved objects and the agent gateway *)

Section escalation.
Context (default_hasher : string -> Timestamp -> list string -> Z).
Context `{Serde AlertRecord} `{SerdeLaws SavedObject}.
Context `{SerdeValue TokenRecord, SerdeValue AgentRecord, SerdeValue CommandRecord}.
Context `{JsonText, RegexEngine, Casing, YamlText, ConfigSerde, Jwt, Argon2}.
Context (is_correlation_doc : string -> bool) (parse_yaml : string -> result SigmaRule).
Context (is_dir : string -> bool).

Local Abbreviation handle := (handle default_hasher is_correlation_doc parse_yaml is_dir).

Lemma get_put_token (db : Store) t name owner now body :
  get_saved (put_saved db (mkSaved TOKEN_KIND t name owner now body)) TOKEN_KIND t =
    Ok (Some (mkSaved TOKEN_KIND t name owner now body)).
Proof. rewrite get_put_saved by done. by rewrite decide_True. Qed.

(** the saved-object routes are not confined to saved objects.  An analyst
    who may not issue enrollment tokens can write one of his choice as a
    saved object of the gateway's kind, and an agent then enrolls with it. *)
Theorem saved_route_mints_token env a u e t name body req now ulid session :
  require u Analyst = true -> require u Admin = false -> ap_persistent a = true -> ap_edr a = Some e ->
  is_empty_str t = false -> enrollment_token req = t ->
  status (handle env a u (PostToken (Some name))).2 = 403%Z /\
  exists a' e', handle env a u (PutSaved TOKEN_KIND t (Some name) body) =
      (a', json (P_saved (mkSaved TOKEN_KIND t name (Some (au_username u)) (en_now env) body))) /\
    edr_of a' = Some e' /\
    exists e'' reply, gateway_enroll now ulid session e' req = Ok (e'', Some reply).
Proof.
  intros Hu Hu' Hp He Ht Hr. split; [cbn; unfold edr_token_create; by rewrite Hu'|].
  eexists _, _. split; [cbn; unfold saved_update, save_object; rewrite Hu, Hp; reflexivity|].
  split; [unfold edr_of; cbn; rewrite He; reflexivity|].
  unfold gateway_enroll, token_valid. rewrite Hr, Ht. cbn [store set_store st_get Store_saved ap_db set_db].
  rewrite get_put_token. cbn. eauto.
Qed.
End escalation.

(** ** Concrete instances *)

Section demo.
Local Open Scope string_scope.

#[local] Existing Instance demo_json.
#[local] Existing Instance demo_lower.
#[local] Existing Instance demo_regex.
#[local] Existing Instance demo_yaml.
#[local] Instance demo_alert_serde : Serde AlertRecord := countable_serde AlertRecord.
#[local] Instance demo_saved_serde : Serde SavedObject := countable_serde SavedObject.
#[local] Instance demo_saved_laws : SerdeLaws SavedObject := countable_serde_laws SavedObject.
#[local] Instance demo_token_value : SerdeValue TokenRecord := countable_value TokenRecord.
#[local] Instance demo_agent_value : SerdeValue AgentRecord := countable_value AgentRecord.
#[local] Instance demo_command_value : SerdeValue CommandRecord := countable_value CommandRecord.
#[local] Instance no_config_serde : ConfigSerde :=
  {| Plan.to_value _ := Err Prelude.Config; Plan.to_text _ := Err Prelude.Config; parse _ := Err Prelude.Config |}.
#[local] Instance no_jwt : Jwt := {| jwt_encode _ _ := None; jwt_decode _ _ _ := None |}.
#[local] Instance no_argon2 : Argon2 := fun _ _ => false.

Definition demo_parse (text : string) : result SigmaRule :=
  if decide (text = "ssh") then Ok ssh_rule else Err Parse.
Definition demo_env : Env := mkEnv 9 9 "ulid" false false None false false.
Definition demo_analyst : AuthUser := mkAuthUser "ann" [Analyst].
Definition demo_api : Api :=
  mkApi (mkAuthState true "k" 60 ∅) true empty_store [] 10 (Some (mkEdr empty_store ∅ ∅ ∅ 0))
    (Some [("old.yml", "bad")]) [] None None.

(** A stored rule replaces nothing and is running afterwards. *)
Lemma rule_edit_spec_witness :
  let a' := (handle demo_hasher (fun _ => false) demo_parse (fun _ => true) demo_env demo_api demo_analyst
               (PostRule "ssh")).1 in
  ap_rules a' = Some [("old.yml", "bad"); ("rule-ssh-failed.yml", "ssh")] /\
  exists c, compile demo_parse "ssh" = Ok c /\ c ∈ ap_engine a'.
Proof.
  pose proof (rule_edit_spec demo_hasher (fun _ => false) demo_parse (fun _ => true) demo_env demo_api demo_analyst
    (PostRule "ssh") "ssh" (or_introl eq_refl)) as Hs.
  destruct (handle _ _ _ _ demo_env demo_api demo_analyst (PostRule "ssh")) as [a' resp] eqn:Hh.
  cbn zeta. cbn [fst].
  assert (status resp = 201%Z) as Hst by (replace resp with (a', resp).2 by done; rewrite <- Hh; vm_compute; reflexivity).
  destruct Hs as (_ & Hs). destruct Hs as (c & files & files' & Hc & _ & _ & _ & _ & _ & Hin); [lia|].
  split; [replace a' with (a', resp).1 by done; rewrite <- Hh; vm_compute; reflexivity|].
  exists c. split; [exact Hc|]. by apply Hin.
Defined.

Lemma saved_route_mints_token_witness :
  exists a' e' e'' reply,
    handle demo_hasher (fun _ => false) demo_parse (fun _ => true) demo_env demo_api demo_analyst
      (PutSaved TOKEN_KIND "t0k" (Some "x") VNull) =
      (a', json (P_saved (mkSaved TOKEN_KIND "t0k" "x" (Some "ann") 9 VNull))) /\
    edr_of a' = Some e' /\ gateway_enroll 10 "agent1" "sess" e' demo_req = Ok (e'', Some reply).
Proof.
  destruct (saved_route_mints_token demo_hasher (fun _ => false) demo_parse (fun _ => true) demo_env demo_api
    demo_analyst (mkEdr empty_store ∅ ∅ ∅ 0) "t0k" "x" VNull demo_req 10 "agent1" "sess")
    as (_ & a' & e' & Hh & He & e'' & reply & Hg); [vm_compute; reflexivity..|].
  exists a', e', e'', reply. split; [exact Hh|]. split; [exact He|exact Hg].
Defined.
End demo.
