(* ===== verification/Codec.v ===== *)
(** * [sigil-ingest/src/codec.rs]: the JSON, syslog and raw codecs

    A frame of bytes becomes records of fields.  The JSON parser and its
    error text are parameters; syslog parsing is written out. *)

From stdpp Require Import strings list.
From S2P Require Import Prelude Utf8 Text Containers Core.

Local Open Scope string_scope.

(** ** Fields *)

Definition str_field (key val : string) (m : fields_t) : fields_t := fields_insert key (VString val) m.

(** Insert the pairs in order. *)
Definition insert_all (kvs : list (string * string)) (m : fields_t) : fields_t :=
  foldl (fun m kv => str_field kv.1 kv.2 m) m kvs.

(** A record with the whole frame as its message and the reason. *)
Definition dead_letter (line raw err : string) : Rec :=
  mkRec (str_field "decode_error" err (str_field "message" line [])) raw.

(** ** Syslog *)

(** [str::parse::<u16>]. *)
Definition parse_u16 (s : string) : option Z :=
  n ← parse_u64 s; if (n <=? 65535)%Z then Some n else None.

Definition nil_to_empty (s : string) : string := if decide (s = "-") then "" else s.

Definition strip_structured_data (s : string) : string :=
  let s := trim_start s in
  match strip_prefix "[" s with
  | Some rest => match split_once "]" rest with
                 | Some (_, tail) => trim_start tail
                 | None => s
                 end
  | None => match strip_prefix "-" s with
            | Some rest => trim_start rest
            | None => s
            end
  end.

Definition split_tag (remainder : string) (m : fields_t) : fields_t :=
  match split_once ": " remainder with
  | Some (tag_part, msg) =>
      let m := match split_once "[" tag_part with
               | Some (tag, pid) => str_field "procid" (trim_end_matches "]" pid) (str_field "app" tag m)
               | None => str_field "app" tag_part m
               end in
      str_field "message" msg m
  | None => str_field "message" remainder m
  end.

Definition is_month (s : string) : bool :=
  bool_decide (s ∈ ["Jan"; "Feb"; "Mar"; "Apr"; "May"; "Jun"; "Jul"; "Aug"; "Sep"; "Oct"; "Nov"; "Dec"]).

(** The [<PRI>] prefix: its fields, and the text after it. *)
Definition parse_pri (line : string) : fields_t * string :=
  match strip_prefix "<" line with
  | Some stripped =>
      match split_once ">" stripped with
      | Some (pri, rest) =>
          (match parse_u16 pri with
           | Some n => fields_insert "syslog_severity" (VNumber (NInt (Z.land n 7)))
                         (fields_insert "syslog_facility" (VNumber (NInt (Z.shiftr n 3))) [])
           | None => []
           end, rest)
      | None => ([], line)
      end
  | None => ([], line)
  end.

(** A version of one or two digits, then a space. *)
Definition is_5424 (rest : string) : bool :=
  match split_once " " rest with
  | Some (v, _) => negb (is_empty_str v) && all_bytes is_ascii_digit v && (String.length v <=? 2)%nat
  | None => false
  end.

(** The fields after the version, as many as there are. *)
Definition fields_5424 (parts : list string) (m : fields_t) : fields_t :=
  let set i key f m := match parts !! i with Some v => str_field key (f v) m | None => m end in
  set 6 "message" strip_structured_data
    (set 5 "msgid" nil_to_empty (set 4 "procid" nil_to_empty (set 3 "app" nil_to_empty
      (set 2 "host" nil_to_empty (set 1 "timestamp" id m)))))%nat.

Definition fields_3164 (rest : string) (m : fields_t) : fields_t :=
  match splitn 5 " " rest with
  | mon :: day :: time :: host :: more =>
      if is_month mon then
        let m := str_field "host" host (str_field "timestamp" (mon +:+ " " +:+ day +:+ " " +:+ time) m) in
        match more with remainder :: _ => split_tag remainder m | [] => m end
      else str_field "message" rest m
  | _ => str_field "message" rest m
  end.

Definition parse_syslog (line : string) : Rec :=
  let '(m, rest) := parse_pri line in
  mkRec (if is_5424 rest then fields_5424 (splitn 7 " " rest) m else fields_3164 rest m) line.

(** ** The codecs *)

Definition record_from_json (v : value) (raw : string) : Rec :=
  match v with
  | VObject m => mkRec (foldl (fun acc kv => fields_insert kv.1 kv.2 acc) [] m) raw
  | other => mkRec (fields_insert "message" other []) raw
  end.

Definition json_decode `{JsonParse} (raw : string) : list Rec :=
  match json_parse raw with
  | inr err => [dead_letter (from_utf8_lossy raw) raw err]
  | inl v => let objects := match v with VArray items => items | other => [other] end in
             (fun obj => record_from_json obj raw) <$> objects
  end.

Definition syslog_decode (raw : string) : list Rec := [parse_syslog (trim_end (from_utf8_lossy raw))].

Definition raw_decode (raw : string) : list Rec := [mkRec (str_field "message" (from_utf8_lossy raw) []) raw].

(** ** Messages as senders write them *)

Definition pri_text (n : Z) : string := "<" +:+ show_u64 n +:+ ">".

Definition line_5424 (pri : Z) (version ts host app procid msgid sd msg : string) : string :=
  pri_text pri +:+ version +:+ " " +:+ ts +:+ " " +:+ host +:+ " " +:+ app +:+ " " +:+ procid +:+ " " +:+ msgid +:+
  " " +:+ sd +:+ " " +:+ msg.

Definition line_3164 (pri : Z) (mon day time host tag pid msg : string) : string :=
  pri_text pri +:+ mon +:+ " " +:+ day +:+ " " +:+ time +:+ " " +:+ host +:+ " " +:+ tag +:+ "[" +:+ pid +:+ "]: " +:+ msg.

(** Structured data: none, or one bracketed element. *)
Definition structured (sd : string) : Prop :=
  sd = "-" \/ exists x, sd = "[" +:+ x +:+ "]" /\ free_of "]" x = true.

(** Unquoted text of a field as [get] sees it. *)
Definition field_is (m : fields_t) (key val : string) : Prop := fields_get m key = Some (VString val).

Local Close Scope string_scope.

(** ** Lemmas *)

Lemma get_str_field key val m k : fields_get (str_field key val m) k = if decide (key = k) then Some (VString val) else fields_get m k.
Proof. apply smap_get_insert. Qed.

Lemma insert_all_out kvs m k : k ∉ kvs.*1 -> fields_get (insert_all kvs m) k = fields_get m k.
Proof.
  unfold insert_all. revert m. induction kvs as [|[k' v'] kvs IH]; intros m Hk; [done|]. cbn [foldl].
  rewrite IH by (intros Hin; apply Hk; by right). rewrite get_str_field. cbn [fst].
  rewrite decide_False; [done|]. intros ->. apply Hk. by left.
Qed.

Lemma insert_all_in kvs m k v : NoDup kvs.*1 -> (k, v) ∈ kvs -> field_is (insert_all kvs m) k v.
Proof.
  unfold field_is. revert m. induction kvs as [|[k' v'] kvs IH]; intros m Hnd Hin; [by apply not_elem_of_nil in Hin|].
  cbn in Hnd. apply NoDup_cons in Hnd as [Hk Hnd]. apply elem_of_cons in Hin as [[= -> ->]|Hin].
  - change (insert_all ((k', v') :: kvs) m) with (insert_all kvs (str_field k' v' m)).
    rewrite insert_all_out by done. rewrite get_str_field. by rewrite decide_True.
  - change (insert_all ((k', v') :: kvs) m) with (insert_all kvs (str_field k' v' m)). by apply IH.
Qed.

Lemma free_of_digits c s : is_ascii_digit c = false -> all_bytes is_ascii_digit s = true -> free_of c s = true.
Proof.
  intros Hc. apply all_bytes_impl. intros d Hd. case_bool_decide; [congruence|done].
Qed.

Lemma parse_pri_text n rest : (0 <= n <= 65535)%Z ->
  exists m, parse_pri (pri_text n +:+ rest) = (m, rest) /\
    forall k, fields_get m k = if decide ("syslog_severity"%string = k) then Some (VNumber (NInt (Z.land n 7)))
                     else if decide ("syslog_facility"%string = k) then Some (VNumber (NInt (Z.shiftr n 3))) else None.
Proof.
  intros Hn. eexists. split.
  - unfold parse_pri, pri_text. rewrite <- !string_app_assoc.
    rewrite (proj2 (strip_prefix_Some "<" _ (show_u64 n +:+ ">" +:+ rest))) by done.
    rewrite (split_once_sep ">" (show_u64 n) rest)
      by (apply free_of_digits; [done|]; apply all_bytes_show; [lia|done]).
    unfold parse_u16. rewrite parse_show_u64 by (unfold u64_max; lia). cbn [mbind option_bind].
    destruct (Z.leb_spec n 65535); [reflexivity|lia].
  - intros k. rewrite !smap_get_insert. done.
Qed.

Lemma trim_end_matches_char c w : free_of c w = true -> trim_end_matches c (w +:+ String c EmptyString) = w.
Proof.
  unfold free_of. induction w as [|d w IH]; cbn [all_bytes];
    [intros _; rewrite string_app_nil_l; cbn [trim_end_matches all_bytes]; by rewrite bool_decide_true|].
  rewrite andb_true_iff, negb_true_iff, bool_decide_eq_false. intros [Hd Hw]. rewrite string_app_cons.
  cbn [trim_end_matches all_bytes]. rewrite bool_decide_false by congruence. cbn [andb]. by rewrite IH.
Qed.

Lemma strip_structured sd msg : structured sd -> trim_start msg = msg ->
  strip_structured_data (sd +:+ " " +:+ msg) = msg.
Proof.
  intros Hs Hm. assert (trim_start (" " +:+ msg) = msg) as Ht by (rewrite <- Hm at 2; done).
  unfold strip_structured_data. destruct Hs as [->|(x & -> & Hx)].
  - change (trim_start ("-" +:+ " " +:+ msg)) with ("-" +:+ " " +:+ msg). cbn [strip_prefix String.append].
    exact Ht.
  - rewrite <- !string_app_assoc.
    change (trim_start ("[" +:+ x +:+ "]" +:+ " " +:+ msg)) with ("[" +:+ x +:+ "]" +:+ " " +:+ msg).
    rewrite (proj2 (strip_prefix_Some "[" _ (x +:+ "]" +:+ " " +:+ msg))) by done.
    rewrite (split_once_sep "]" x (" " +:+ msg)) by done. exact Ht.
Qed.

(** The version test on the two shapes. *)
Lemma is_5424_version v r : v <> EmptyString -> all_bytes is_ascii_digit v = true -> (String.length v <= 2)%nat ->
  is_5424 (v +:+ " " +:+ r) = true.
Proof.
  intros Hne Hd Hl. unfold is_5424. rewrite split_once_sep by by apply free_of_digits. rewrite Hd.
  destruct v; [done|]. by rewrite (proj2 (Nat.leb_le _ _) Hl).
Qed.

Lemma is_5424_month mon r : is_month mon = true -> is_5424 (mon +:+ " " +:+ r) = false.
Proof.
  unfold is_month. rewrite bool_decide_eq_true. intros Hm. unfold is_5424.
  rewrite split_once_sep by (by set_unfold; naive_solver). by set_unfold; naive_solver.
Qed.

Lemma month_free mon : is_month mon = true -> free_of " " mon = true.
Proof. unfold is_month. rewrite bool_decide_eq_true. intros Hm. by set_unfold; naive_solver. Qed.

(** Both syslog shapes, field by field. *)
Definition no_space (l : list string) : Prop := Forall (fun s => free_of " " s = true) l.

Lemma parse_5424 pri version ts host app procid msgid sd msg :
  (0 <= pri <= 65535)%Z -> version <> EmptyString -> all_bytes is_ascii_digit version = true ->
  (String.length version <= 2)%nat -> no_space [ts; host; app; procid; msgid] -> structured sd -> trim_start msg = msg ->
  let m := rec_fields (parse_syslog (line_5424 pri version ts host app procid msgid sd msg)) in
  fields_get m "syslog_facility" = Some (VNumber (NInt (Z.shiftr pri 3))) /\
  fields_get m "syslog_severity" = Some (VNumber (NInt (Z.land pri 7))) /\
  field_is m "timestamp" ts /\ field_is m "host" (nil_to_empty host) /\ field_is m "app" (nil_to_empty app) /\
  field_is m "procid" (nil_to_empty procid) /\ field_is m "msgid" (nil_to_empty msgid) /\ field_is m "message" msg.
Proof.
  intros Hp Hv Hd Hl Hsp Hsd Hmsg. unfold no_space in Hsp. rewrite !Forall_cons in Hsp.
  destruct Hsp as (Hts & Hh & Ha & Hpr & Hid & _). unfold line_5424, parse_syslog.
  destruct (parse_pri_text pri (version +:+ " " +:+ ts +:+ " " +:+ host +:+ " " +:+ app +:+ " " +:+ procid +:+ " " +:+
    msgid +:+ " " +:+ sd +:+ " " +:+ msg) Hp) as (m & -> & Hm).
  rewrite is_5424_version by done. rewrite !splitn_sep by (done || by apply free_of_digits). cbn [splitn rec_fields].
  unfold fields_5424, field_is. cbn [lookup list_lookup].
  rewrite strip_structured by done. rewrite !get_str_field, !Hm. by split_and!.
Qed.

Lemma parse_3164 pri mon day time host rest :
  (0 <= pri <= 65535)%Z -> is_month mon = true -> no_space [day; time; host] ->
  let m := rec_fields (parse_syslog (pri_text pri +:+ mon +:+ " " +:+ day +:+ " " +:+ time +:+ " " +:+ host +:+ " " +:+ rest)) in
  exists m0, m = split_tag rest m0 /\
    fields_get m0 "syslog_facility" = Some (VNumber (NInt (Z.shiftr pri 3))) /\
    fields_get m0 "syslog_severity" = Some (VNumber (NInt (Z.land pri 7))) /\
    field_is m0 "timestamp" (mon +:+ " " +:+ day +:+ " " +:+ time) /\ field_is m0 "host" host.
Proof.
  intros Hp Hmon Hsp. unfold no_space in Hsp. rewrite !Forall_cons in Hsp. destruct Hsp as (Hd & Ht & Hh & _).
  unfold parse_syslog.
  destruct (parse_pri_text pri (mon +:+ " " +:+ day +:+ " " +:+ time +:+ " " +:+ host +:+ " " +:+ rest) Hp) as (m & -> & Hm).
  rewrite is_5424_month by done. unfold fields_3164. pose proof (month_free mon Hmon).
  rewrite !splitn_sep by done. cbn [splitn rec_fields]. rewrite Hmon. eexists. split; [reflexivity|].
  unfold field_is. rewrite !get_str_field, !Hm. by split_and!.
Qed.

Lemma split_tag_full tag pid msg m : free_of "[" tag = true -> free_of ":" tag = true -> free_of "]" pid = true ->
  free_of ":" pid = true ->
  split_tag (tag +:+ "[" +:+ pid +:+ "]: " +:+ msg) m =
    str_field "message" msg (str_field "procid" pid (str_field "app" tag m)).
Proof.
  intros Ht Ht' Hp Hp'. unfold split_tag.
  replace (tag +:+ "[" +:+ pid +:+ "]: " +:+ msg) with ((tag +:+ "[" +:+ pid +:+ "]") +:+ ": " +:+ msg)
    by by rewrite <- !string_app_assoc.
  rewrite (split_once_mark ":" " ") by (by rewrite !free_of_app, Ht', Hp').
  rewrite (split_once_sep "[") by done. by rewrite trim_end_matches_char.
Qed.

(** the syslog codec reads back what a sender writes.  An RFC 5424 line
    yields its facility, severity, timestamp, host, application, process and
    message identifiers (the nil value as the empty string) and its message
    without the structured data; an RFC 3164 line with a two-digit day yields
    its timestamp, host, tag, process and message. *)
Theorem syslog_roundtrip pri version ts host app procid msgid sd msg mon day time :
  (0 <= pri <= 65535)%Z -> version <> EmptyString -> all_bytes is_ascii_digit version = true ->
  (String.length version <= 2)%nat -> no_space [ts; host; app; procid; msgid; day; time] -> structured sd ->
  trim_start msg = msg -> is_month mon = true -> free_of "[" app = true -> free_of ":" app = true ->
  free_of "]" procid = true -> free_of ":" procid = true ->
  let m := rec_fields (parse_syslog (line_5424 pri version ts host app procid msgid sd msg)) in
  let m' := rec_fields (parse_syslog (line_3164 pri mon day time host app procid msg)) in
  (forall m1, m1 = m \/ m1 = m' ->
     fields_get m1 "syslog_facility" = Some (VNumber (NInt (Z.shiftr pri 3))) /\
     fields_get m1 "syslog_severity" = Some (VNumber (NInt (Z.land pri 7))) /\ field_is m1 "message" msg) /\
  (field_is m "timestamp" ts /\ field_is m "host" (nil_to_empty host) /\ field_is m "app" (nil_to_empty app) /\
   field_is m "procid" (nil_to_empty procid) /\ field_is m "msgid" (nil_to_empty msgid)) /\
  field_is m' "timestamp" (mon +:+ " " +:+ day +:+ " " +:+ time) /\ field_is m' "host" host /\
  field_is m' "app" app /\ field_is m' "procid" procid.
Proof.
  intros Hp Hv Hd Hl Hsp Hsd Hmsg Hmon Ha Ha' Hpr Hpr'. unfold no_space in Hsp. rewrite !Forall_cons in Hsp.
  destruct Hsp as (Hts & Hh & Has & Hps & Hid & Hda & Hti & _). cbn zeta.
  destruct (parse_5424 pri version ts host app procid msgid sd msg) as (? & ? & ? & ? & ? & ? & ? & ?); try done.
  { unfold no_space. by rewrite !Forall_cons. }
  unfold line_3164. destruct (parse_3164 pri mon day time host (app +:+ "[" +:+ procid +:+ "]: " +:+ msg))
    as (m0 & -> & Hf & Hs & Ht & Hho); try done. { unfold no_space. by rewrite !Forall_cons. }
  rewrite split_tag_full by done. unfold field_is in *. rewrite !get_str_field. split_and!; try done.
  intros m1 [->| ->]; [done|]. rewrite !get_str_field. done.
Qed.

(** The RFC pads a one-digit day with a space, and the codec splits at
    single spaces: every line of the first nine days of a month is misread,
    with the time of day as the host, a timestamp without time, and the host
    inside the tag. *)
Theorem rfc3164_padded_day pri mon d time host app procid msg :
  (0 <= pri <= 65535)%Z -> is_month mon = true -> no_space [d; time] ->
  let m := rec_fields (parse_syslog (line_3164 pri mon (" " +:+ d) time host app procid msg)) in
  field_is m "timestamp" (mon +:+ "  " +:+ d) /\ field_is m "host" time.
Proof.
  intros Hp Hmon Hsp. unfold no_space in Hsp. rewrite !Forall_cons in Hsp. destruct Hsp as (Hd & Ht & _). cbn zeta.
  unfold line_3164. rewrite <- (string_app_assoc " " d).
  destruct (parse_3164 pri mon "" d time (host +:+ " " +:+ app +:+ "[" +:+ procid +:+ "]: " +:+ msg))
    as (m0 & Hm & _ & _ & Hts & Hh); try done. { unfold no_space. by rewrite !Forall_cons. }
  cbn zeta in Hm. rewrite string_app_nil_l in Hm. rewrite Hm. unfold split_tag.
  destruct (split_once ": " _) as [[a b]|]; [destruct (split_once "[" a) as [[t p]|]|];
    unfold field_is in *; rewrite !get_str_field; done.
Qed.

(** ** Concrete lines *)

Section demo.
Local Open Scope string_scope.

Example line_5424_demo :
  line_5424 165 "1" "2003-10-11T22:14:15.003Z" "host.example.com" "evntslog" "-" "ID47" "[x a=1]" "the message" =
    "<165>1 2003-10-11T22:14:15.003Z host.example.com evntslog - ID47 [x a=1] the message".
Proof. reflexivity. Qed.

Lemma syslog_roundtrip_witness :
  let m := rec_fields (parse_syslog "<34>Oct 11 22:14:15 mymachine su[77]: 'su root' failed") in
  field_is m "host" "mymachine" /\ field_is m "procid" "77".
Proof.
  pose proof (syslog_roundtrip 34 "1" "t" "mymachine" "su" "77" "m" "[x]" "'su root' failed" "Oct" "11" "22:14:15")
    as Hs.
  cbn zeta in *. destruct Hs as (_ & _ & _ & Hh & _ & Hp);
    [lia|done|reflexivity|cbn; lia|repeat constructor|right; by exists "x"|reflexivity..|].
  split; [exact Hh|exact Hp].
Defined.

Lemma rfc3164_padded_day_witness :
  field_is (rec_fields (parse_syslog "<34>Oct  5 22:14:15 mymachine su[77]: failed")) "host" "22:14:15".
Proof.
  apply (rfc3164_padded_day 34 "Oct" "5" "22:14:15" "mymachine" "su" "77" "failed"); [lia|reflexivity|repeat constructor].
Defined.
End demo.
