(* ===== verification/Cef.v ===== *)
(** * [sigil-ingest/src/cef.rs]: the CEF codec

    Header splitting with escapes, the key scanner of the extension (the
    expression of a letter, then letters, digits, [_] and [.], then an equals
    sign, matched from left to right), and unescaping.  Positions are byte offsets, as in the code. *)

From stdpp Require Import strings list.
From S2P Require Import Prelude Utf8 Text Containers Core Codec.

Local Open Scope string_scope.

Definition backslash : ascii := "\".
Definition bar : ascii := "|".
Definition newline : ascii := "010".
Definition carriage_return : ascii := "013".

(** ** Header *)

Definition HEADER_KEYS : list string :=
  ["cef_version"; "device_vendor"; "device_product"; "device_version"; "signature_id"; "name"; "cef_severity"].

(** The loop of [split_header]: [n] is the number of parts pushed so far. *)
Fixpoint split_header_from (n : nat) (cur body : string) : list string :=
  match body with
  | EmptyString => [cur]
  | String c r =>
      if decide (c = backslash) then
        match r with
        | String d r' =>
            if decide (d = bar) then split_header_from n (cur +:+ "|") r'
            else if decide (d = backslash) then split_header_from n (cur +:+ "\") r'
            else split_header_from n (cur +:+ String backslash (String d "")) r'
        | EmptyString => [cur +:+ "\"]
        end
      else if decide (c = bar) then
        if (n <? 7)%nat then cur :: split_header_from (S n) "" r
        else split_header_from n (cur +:+ "|") r
      else split_header_from n (cur +:+ String c "") r
  end.
Definition split_header (body : string) : list string := split_header_from 0 "" body.

(** ** Extension *)

Definition key_byte (c : ascii) : bool := is_ascii_alphanumeric c || bool_decide (c ∈ ["_"; "."]%char).

(** The matches of the expression from offset [pos] on, with the byte before:
    the key, the offset after the equals sign, the offset of the key, kept
    when the key is at the start or after white space.  [skip] counts the
    bytes of a match that are still to pass. *)
Fixpoint keys_from (pos skip : nat) (prev : option ascii) (s : string) : list (string * nat * nat) :=
  match s with
  | EmptyString => []
  | String c r =>
      match skip with
      | S k => keys_from (S pos) k (Some c) r
      | O =>
          if is_ascii_alphabetic c then
            match span key_byte s with
            | (key, String "=" _) =>
                let rest := keys_from (S pos) (String.length key) (Some c) r in
                match prev with
                | Some p => if is_ascii_whitespace p then (key, pos + String.length key + 1, pos) :: rest else rest
                | None => (key, pos + String.length key + 1, pos) :: rest
                end
            | _ => keys_from (S pos) 0 (Some c) r
            end
          else keys_from (S pos) 0 (Some c) r
      end
  end%nat.

Definition keys_of (ext : string) : list (string * nat * nat) := keys_from 0 0 None ext.

(** [&s[a..b]]. *)
Definition slice (a b : nat) (s : string) : string := String.substring a (b - a) s.

Fixpoint unescape (s : string) : string :=
  match s with
  | EmptyString => EmptyString
  | String c r =>
      if decide (c = backslash) then
        match r with
        | String d r' =>
            if decide (d = "="%char) then String "=" (unescape r')
            else if decide (d = backslash) then String backslash (unescape r')
            else if decide (d = "n"%char) then String newline (unescape r')
            else if decide (d = "r"%char) then String carriage_return (unescape r')
            else String backslash (String d (unescape r'))
        | EmptyString => String backslash EmptyString
        end
      else String c (unescape r)
  end.

(** Each value runs to the next key, or to the end. *)
Fixpoint values_of (ext : string) (keys : list (string * nat * nat)) : list (string * string) :=
  match keys with
  | [] => []
  | (key, val_start, _) :: keys =>
      let val_end := match keys with (_, _, start) :: _ => start | [] => String.length ext end in
      (key, unescape (trim (slice val_start val_end ext))) :: values_of ext keys
  end.

Definition parse_extension (ext : string) (m : fields_t) : fields_t :=
  insert_all (values_of ext (keys_of ext)) m.

(** ** The line *)

Definition parse_cef (line raw : string) : Rec :=
  match split_once "CEF:" line with
  | None => dead_letter line raw "no CEF: header"
  | Some (_, body) =>
      let parts := split_header body in
      if (length parts <? 7)%nat then dead_letter line raw "incomplete CEF header"
      else
        let m := insert_all (zip HEADER_KEYS parts) [] in
        let m := str_field "message" (default "" (parts !! 5%nat)) m in
        mkRec (match parts !! 7%nat with Some ext => parse_extension ext m | None => m end) raw
  end.

Definition cef_decode (raw : string) : list Rec := [parse_cef (trim_end (from_utf8_lossy raw)) raw].

(** ** Lines as senders write them *)

Fixpoint escape_header (s : string) : string :=
  match s with
  | EmptyString => EmptyString
  | String c r => (if decide (c = backslash \/ c = bar) then String backslash (String c "") else String c "") +:+
                  escape_header r
  end.

Definition escape_byte (c : ascii) : string :=
  if decide (c = backslash) then "\\"
  else if decide (c = "="%char) then "\="
  else if decide (c = newline) then "\n"
  else if decide (c = carriage_return) then "\r"
  else String c "".
Fixpoint escape_value (s : string) : string :=
  match s with EmptyString => EmptyString | String c r => escape_byte c +:+ escape_value r end.

Definition pair_text (kv : string * string) : string := kv.1 +:+ "=" +:+ escape_value kv.2.
Definition extension_text (kvs : list (string * string)) : string := join " " (pair_text <$> kvs).
Definition header_text (hs : list string) : string := join "|" (escape_header <$> hs).
Definition cef_text (hs : list string) (kvs : list (string * string)) : string :=
  "CEF:" +:+ header_text hs +:+ "|" +:+ extension_text kvs.

(** A key of the scanner's alphabet. *)
Definition good_key (k : string) : Prop :=
  match k with
  | EmptyString => False
  | String c r => is_ascii_alphabetic c = true /\ all_bytes key_byte r = true
  end.

Example cef_demo :
  let m := rec_fields (parse_cef "CEF:0|V|P|1|99|Bad\|name|3|msg=a b c request=https://x/y?q=1" "") in
  fields_get m "message" = Some (VString "Bad|name") /\ fields_get m "msg" = Some (VString "a b c") /\
  fields_get m "request" = Some (VString "https://x/y?q=1").
Proof. vm_compute. done. Qed.

Local Close Scope string_scope.

(** ** Header *)

Ltac unfold_app := repeat rewrite string_app_cons; rewrite ?string_app_nil_l.

Lemma split_header_escaped n cur h r : (n < 7)%nat ->
  split_header_from n cur (escape_header h +:+ "|" +:+ r) = (cur +:+ h) :: split_header_from (S n) "" r.
Proof.
  intros Hn. revert cur. induction h as [|c h IH]; intros cur.
  - cbn [escape_header]. unfold_app. cbn [split_header_from]. rewrite decide_False by done. rewrite decide_True by done.
    apply Nat.ltb_lt in Hn as ->. by rewrite string_app_nil_r.
  - cbn [escape_header]. destruct (decide (c = backslash \/ c = bar)) as [[-> | ->]|Hc]; rewrite <- string_app_assoc;
      unfold_app; cbn [split_header_from].
    + rewrite decide_True by done. rewrite decide_False by done. rewrite decide_True by done. rewrite IH.
      by rewrite <- string_app_assoc.
    + rewrite decide_True by done. rewrite decide_True by done. rewrite IH. by rewrite <- string_app_assoc.
    + rewrite decide_False by tauto. rewrite decide_False by tauto. rewrite IH. by rewrite <- string_app_assoc.
Qed.

Lemma split_header_parts hs ext : (length hs <= 7)%nat -> forall n, (n + length hs)%nat = 7%nat -> hs <> [] ->
  split_header_from n "" (header_text hs +:+ "|" +:+ ext) = hs ++ split_header_from 7 "" ext.
Proof.
  unfold header_text. induction hs as [|h hs IH]; [done|]. intros Hl n Hn _. cbn in Hl, Hn.
  destruct hs as [|h' hs].
  - cbn [fmap list_fmap join]. rewrite split_header_escaped by lia. replace (S n) with 7%nat by (cbn in Hn; lia). done.
  - change (join "|" (escape_header <$> h :: h' :: hs))
      with (escape_header h +:+ "|" +:+ join "|" (escape_header <$> h' :: hs)).
    rewrite <- !string_app_assoc. rewrite split_header_escaped by lia.
    rewrite IH by (cbn in *; lia || done). done.
Qed.

(** In the extension the header loop still drops a backslash before a
    backslash or a bar; other text passes. *)
Lemma split_header_value cur v r : free_of backslash v = true ->
  split_header_from 7 cur (escape_value v +:+ r) = split_header_from 7 (cur +:+ escape_value v) r.
Proof.
  revert cur. induction v as [|c v IH]; intros cur Hv.
  - cbn [escape_value]. by rewrite string_app_nil_l, string_app_nil_r.
  - unfold free_of in Hv. cbn [all_bytes] in Hv. apply andb_true_iff in Hv as [Hc Hv].
    apply negb_true_iff, bool_decide_eq_false in Hc. cbn [escape_value]. unfold escape_byte.
    rewrite decide_False by congruence. rewrite <- string_app_assoc, (string_app_assoc cur).
    repeat case_decide; subst; unfold_app; cbn [split_header_from].
    1-3: rewrite decide_True by done; rewrite !decide_False by done; by apply IH.
    rewrite decide_False by congruence. destruct (decide (c = bar)) as [->|]; by rewrite (IH _ Hv).
Qed.

Lemma split_header_plain cur w r : free_of backslash w = true ->
  split_header_from 7 cur (w +:+ r) = split_header_from 7 (cur +:+ w) r.
Proof.
  revert cur. induction w as [|c w IH]; intros cur Hw; [by rewrite string_app_nil_l, string_app_nil_r|].
  unfold free_of in Hw. cbn [all_bytes] in Hw. apply andb_true_iff in Hw as [Hc Hw].
  apply negb_true_iff, bool_decide_eq_false in Hc. rewrite string_app_cons. cbn [split_header_from].
  rewrite decide_False by congruence. replace (cur +:+ String c w) with ((cur +:+ String c "") +:+ w)
    by by rewrite <- string_app_assoc.
  destruct (decide (c = bar)) as [->|]; by rewrite IH.
Qed.

(** ** Scanning *)

(** No equals sign directly after a key byte; [ok] says whether one may come
    first. *)
Fixpoint calm (ok : bool) (s : string) : bool :=
  match s with
  | EmptyString => true
  | String c r => (if bool_decide (c = "="%char) then ok else true) && calm (negb (key_byte c)) r
  end.

Lemma calm_escape v ok : calm ok (escape_value v) = true.
Proof.
  revert ok. induction v as [|c v IH]; intros ok; [done|]. cbn [escape_value]. unfold escape_byte.
  repeat case_decide; unfold_app; cbn [calm]; rewrite ?IH; subst;
    rewrite ?bool_decide_true by done; rewrite ?bool_decide_false by done; try done.
Qed.

(** The byte before the rest, after passing [w]. *)
Fixpoint last_or (prev : option ascii) (w : string) : option ascii :=
  match w with EmptyString => prev | String c w => last_or (Some c) w end.

Lemma keys_skip pos prev w r : keys_from pos (String.length w) prev (w +:+ r) =
  keys_from (pos + String.length w) 0 (last_or prev w) r.
Proof.
  revert pos prev. induction w as [|c w IH]; intros pos prev.
  - cbn [String.length last_or]. by rewrite string_app_nil_l, Nat.add_0_r.
  - rewrite string_app_cons. cbn [String.length keys_from last_or]. rewrite IH. by rewrite Nat.add_succ_comm.
Qed.

(** The run of key bytes of calm text ends before an equals sign. *)
Lemma span_calm w r k t : calm false w = true -> (r = EmptyString \/ exists r', r = " " +:+ r') ->
  span key_byte (w +:+ r) = (k, t) -> forall t', t <> String "=" t'.
Proof.
  revert k t. induction w as [|c w IH]; intros k t Hw Hr.
  - rewrite string_app_nil_l. destruct Hr as [->|[r' ->]]; cbn; by intros [= <- <-].
  - cbn [calm] in Hw. apply andb_true_iff in Hw as [Hc Hw]. rewrite string_app_cons. cbn [span].
    destruct (key_byte c).
    + destruct (span key_byte (w +:+ r)) as [a b] eqn:Hs. intros [= <- <-]. by eapply IH.
    + intros [= <- <-] t' [= Heq]. by case_bool_decide.
Qed.

Lemma letter_key c : is_ascii_alphabetic c = true -> key_byte c = true.
Proof. unfold key_byte, is_ascii_alphanumeric. by intros ->. Qed.

Lemma keys_calm pos prev ok w r : calm ok w = true -> (r = EmptyString \/ exists r', r = " " +:+ r') ->
  keys_from pos 0 prev (w +:+ r) = keys_from (pos + String.length w) 0 (last_or prev w) r.
Proof.
  revert pos prev ok. induction w as [|c w IH]; intros pos prev ok Hw Hr.
  - cbn [String.length last_or]. by rewrite string_app_nil_l, Nat.add_0_r.
  - cbn [calm] in Hw. apply andb_true_iff in Hw as [_ Hw]. rewrite string_app_cons. cbn [String.length keys_from last_or].
    destruct (is_ascii_alphabetic c) eqn:Hc; [|rewrite (IH _ _ _ Hw Hr); by rewrite Nat.add_succ_comm].
    cbn [span]. rewrite (letter_key c Hc) in *. cbn [negb] in Hw.
    destruct (span key_byte (w +:+ r)) as [k t] eqn:Hs. pose proof (span_calm w r k t Hw Hr Hs) as Ht.
    assert (keys_from (S pos) 0 (Some c) (w +:+ r) = keys_from (pos + S (String.length w)) 0 (last_or (Some c) w) r) as He
      by (rewrite (IH _ _ _ Hw Hr); by rewrite Nat.add_succ_comm).
    destruct t as [|d t]; [done|]. destruct (decide (d = "="%char)) as [->|Hd]; [by destruct (Ht t)|].
    destruct d as [[] [] [] [] [] [] [] []]; done.
Qed.

Lemma span_key k r : all_bytes key_byte k = true -> span key_byte (k +:+ String "=" r) = (k, String "=" r).
Proof.
  induction k as [|c k IH]; cbn [all_bytes]; [by rewrite string_app_nil_l|]. rewrite andb_true_iff. intros [Hc Hk].
  rewrite string_app_cons. cbn [span]. by rewrite Hc, IH.
Qed.

Definition boundary (prev : option ascii) : Prop := prev = None \/ prev = Some " "%char.

Lemma keys_key pos prev k r : good_key k -> boundary prev ->
  keys_from pos 0 prev (k +:+ "=" +:+ r) =
    (k, pos + String.length k + 1, pos) :: keys_from (pos + String.length k + 1) 0 (Some "="%char) r.
Proof.
  destruct k as [|c k]; [done|]. intros [Hc Hk] Hp. unfold_app. cbn [keys_from]. rewrite Hc.
  rewrite <- (string_app_cons c k). rewrite span_key by (cbn; by rewrite letter_key).
  assert (keys_from (S pos) (String.length (String c k)) (Some c) (k +:+ String "=" r) =
    keys_from (pos + String.length (String c k) + 1) 0 (Some "="%char) r) as ->.
  { pose proof (keys_skip (S pos) (Some c) (k +:+ "=") r) as Hs.
    rewrite string_length_app, <- string_app_assoc in Hs. unfold_app. cbn [String.length] in *.
    rewrite Nat.add_1_r in Hs. rewrite string_app_cons, string_app_nil_l in Hs. rewrite Hs.
    f_equal; [lia|]. clear. generalize (Some c). induction k as [|d k IH]; intros p; [done|]. cbn. apply IH. }
  destruct Hp as [->| ->]; done.
Qed.

(** ** Values *)

Lemma slice_app a b c : slice (String.length a) (String.length a + String.length b) (a +:+ b +:+ c) = b.
Proof.
  unfold slice. replace (String.length a + String.length b - String.length a) with (String.length b) by lia.
  induction a as [|x a IH].
  - rewrite string_app_nil_l. cbn [String.length]. induction b as [|y b IH]; [by destruct c|].
    rewrite string_app_cons. cbn [String.length String.substring]. by rewrite IH.
  - rewrite string_app_cons. cbn [String.length String.substring]. apply IH.
Qed.

Lemma unescape_escape v : unescape (escape_value v) = v.
Proof.
  induction v as [|c v IH]; [done|]. cbn [escape_value]. unfold escape_byte.
  repeat case_decide; subst; unfold_app; cbn [unescape].
  1-4: rewrite decide_True by done; repeat (rewrite decide_False by done); rewrite decide_True by done; by rewrite IH.
  rewrite decide_False by done. by rewrite IH.
Qed.

(** A value whose ends the trimming leaves alone. *)
Definition plain_value (v : string) : Prop := (v = EmptyString \/ edged v) /\ free_of backslash v = true.

Lemma escape_byte_edged c : word_byte c = true -> edged (escape_byte c).
Proof.
  intros Hc. unfold escape_byte. repeat case_decide; subst; try done; apply word_edged; try done. cbn. by rewrite Hc.
Qed.

Lemma escape_byte_ascii c : is_ascii c = true -> all_bytes is_ascii (escape_byte c) = true.
Proof. intros Hc. unfold escape_byte. repeat case_decide; try done. cbn. by rewrite Hc. Qed.

Lemma escape_value_app v w : escape_value (v +:+ w) = escape_value v +:+ escape_value w.
Proof.
  induction v as [|c v IH]; [done|]. rewrite string_app_cons. cbn [escape_value]. by rewrite IH, string_app_assoc.
Qed.

Lemma escape_value_ascii v : all_bytes is_ascii v = true -> all_bytes is_ascii (escape_value v) = true.
Proof.
  induction v as [|c v IH]; [done|]. cbn [all_bytes escape_value]. rewrite andb_true_iff. intros [Hc Hv].
  by rewrite all_bytes_app, escape_byte_ascii, IH.
Qed.

Lemma edged_escape v : edged v -> edged (escape_value v).
Proof.
  intros (Ha & (c & r & Hv & Hc) & x & d & Hx & Hd). split; [by apply escape_value_ascii|]. split.
  - rewrite Hv. cbn [escape_value]. destruct (escape_byte_edged c Hc) as (_ & (c' & r' & -> & Hc') & _).
    exists c', (r' +:+ escape_value r). by rewrite string_app_cons.
  - rewrite Hx, escape_value_app. cbn [escape_value]. rewrite string_app_nil_r.
    destruct (escape_byte_edged d Hd) as (_ & _ & x' & d' & -> & Hd').
    exists (escape_value x +:+ x'), d'. by rewrite string_app_assoc.
Qed.

Lemma trim_value v : plain_value v -> trim (escape_value v) = escape_value v /\ trim (escape_value v +:+ " ") = escape_value v.
Proof.
  intros [[->|He%edged_escape] _]; [done|]. split; [by apply edged_trim|by apply edged_trim_space_r].
Qed.

Lemma last_or_app p a b : last_or p (a +:+ b) = last_or (last_or p a) b.
Proof. revert p. induction a as [|c a IH]; intros p; [done|]. rewrite string_app_cons. cbn [last_or]. apply IH. Qed.

Lemma keys_pair pos prev k v tail : good_key k -> boundary prev ->
  (tail = EmptyString \/ exists r, tail = " " +:+ r) ->
  keys_from pos 0 prev (pair_text (k, v) +:+ tail) =
    (k, pos + String.length k + 1, pos) ::
    keys_from (pos + String.length (pair_text (k, v))) 0 (last_or (Some "="%char) (escape_value v)) tail.
Proof.
  intros Hk Hp Ht. unfold pair_text. cbn [fst snd]. rewrite <- !string_app_assoc. rewrite keys_key by done.
  rewrite (keys_calm _ _ true) by (done || apply calm_escape). f_equal. f_equal.
  rewrite !string_length_app. cbn [String.length]. lia.
Qed.

Lemma slice_value pre k v sp tail :
  slice (String.length pre + String.length k + 1) (String.length pre + String.length (pair_text (k, v)) + String.length sp)
    (pre +:+ pair_text (k, v) +:+ sp +:+ tail) = escape_value v +:+ sp.
Proof.
  unfold pair_text. cbn [fst snd].
  replace (pre +:+ (k +:+ "=" +:+ escape_value v) +:+ sp +:+ tail)
    with ((pre +:+ k +:+ "=") +:+ (escape_value v +:+ sp) +:+ tail) by by rewrite <- !string_app_assoc.
  replace (String.length pre + String.length k + 1) with (String.length (pre +:+ k +:+ "="))
    by (rewrite !string_length_app; cbn; lia).
  replace (String.length pre + String.length (k +:+ "=" +:+ escape_value v) + String.length sp)
    with (String.length (pre +:+ k +:+ "=") + String.length (escape_value v +:+ sp))
    by (rewrite !string_length_app; cbn; lia).
  apply slice_app.
Qed.

Lemma values_of_two ext k vs st k' e' st' ks : values_of ext ((k, vs, st) :: (k', e', st') :: ks) =
  (k, unescape (trim (slice vs st' ext))) :: values_of ext ((k', e', st') :: ks).
Proof. done. Qed.

(** The scan of a whole extension, after any text. *)
Lemma values_extension kvs : Forall (fun kv => good_key kv.1 /\ plain_value kv.2) kvs ->
  forall pre prev, boundary prev ->
  let ks := keys_from (String.length pre) 0 prev (extension_text kvs) in
  values_of (pre +:+ extension_text kvs) ks = kvs /\
  (kvs <> [] -> exists k e ks', ks = (k, e, String.length pre) :: ks').
Proof.
  unfold extension_text. induction 1 as [|[k v] kvs [Hk Hv] Hkvs IH]; intros pre prev Hb; [done|]. cbn zeta.
  cbn [fst snd] in Hk, Hv. destruct (trim_value v Hv) as [Htrim Htrim'].
  destruct kvs as [|[k2 v2] kvs].
  - change (join " " (pair_text <$> [(k, v)])) with (pair_text (k, v)).
    pose proof (keys_pair (String.length pre) prev k v "" Hk Hb (or_introl eq_refl)) as Hks.
    rewrite string_app_nil_r in Hks. rewrite Hks. cbn [keys_from values_of]. split; [|eauto]. f_equal. f_equal.
    pose proof (slice_value pre k v "" "") as Hs. rewrite !string_app_nil_r, Nat.add_0_r in Hs.
    rewrite string_length_app, Hs, Htrim. apply unescape_escape.
  - change (join " " (pair_text <$> (k, v) :: (k2, v2) :: kvs))
      with (pair_text (k, v) +:+ " " +:+ join " " (pair_text <$> (k2, v2) :: kvs)).
    set (tail := join " " (pair_text <$> (k2, v2) :: kvs)) in *.
    rewrite keys_pair by (done || right; eauto).
    set (pre2 := pre +:+ pair_text (k, v) +:+ " ").
    assert (String.length pre2 = S (String.length pre + String.length (pair_text (k, v)))) as Hlen
      by (unfold pre2; rewrite !string_length_app; cbn [String.length]; lia).
    destruct (IH pre2 (Some " "%char)) as [Hvals Hhead]; [by right|]. destruct Hhead as (k' & e' & ks' & Hks'); [done|].
    split; [|eauto]. unfold_app. cbn [keys_from is_ascii_alphabetic]. change (is_ascii_alphabetic " ") with false.
    cbv iota. rewrite <- Hlen, Hks'. rewrite Hks' in Hvals. rewrite values_of_two.
    replace (pre +:+ pair_text (k, v) +:+ String " " tail) with (pre2 +:+ tail)
      by (unfold pre2; by rewrite <- !string_app_assoc).
    rewrite Hvals. f_equal. f_equal. rewrite Hlen.
    replace (S (String.length pre + String.length (pair_text (k, v))))
      with (String.length pre + String.length (pair_text (k, v)) + String.length " ") by (cbn [String.length]; lia).
    unfold pre2. rewrite <- !string_app_assoc, slice_value, Htrim'. apply unescape_escape.
Qed.

Lemma good_key_free k : good_key k -> free_of backslash k = true.
Proof.
  assert (forall c, key_byte c = true -> backslash <> c) as Hb by by intros c Hc <-.
  destruct k as [|c k]; [done|]. intros [Hc%letter_key Hk]. unfold free_of. cbn [all_bytes].
  rewrite bool_decide_false by by apply Hb. eapply all_bytes_impl; [|exact Hk]. intros d Hd.
  by rewrite bool_decide_false by by apply Hb.
Qed.

Lemma split_header_extension kvs cur : Forall (fun kv => good_key kv.1 /\ plain_value kv.2) kvs ->
  split_header_from 7 cur (extension_text kvs) = [cur +:+ extension_text kvs].
Proof.
  intros H. unfold extension_text. revert cur. induction H as [|[k v] kvs [Hk Hv] Hkvs IH]; intros cur.
  - cbn. by rewrite string_app_nil_r.
  - cbn [fst snd] in Hk, Hv. destruct Hv as [_ Hv]. apply good_key_free in Hk.
    assert (forall tail, split_header_from 7 cur (pair_text (k, v) +:+ tail) =
      split_header_from 7 (cur +:+ pair_text (k, v)) tail) as Hpair.
    { intros tail. unfold pair_text. cbn [fst snd]. rewrite <- !string_app_assoc.
      rewrite split_header_plain, (split_header_plain _ "="), split_header_value by done.
      f_equal. by rewrite <- !string_app_assoc. }
    destruct kvs as [|kv2 kvs].
    + change (join " " (pair_text <$> [(k, v)])) with (pair_text (k, v)).
      rewrite <- (string_app_nil_r (pair_text (k, v))), Hpair. cbn. by rewrite string_app_nil_r.
    + change (join " " (pair_text <$> (k, v) :: kv2 :: kvs))
        with (pair_text (k, v) +:+ " " +:+ join " " (pair_text <$> kv2 :: kvs)).
      rewrite Hpair, (split_header_plain _ " ") by done. rewrite IH. by rewrite <- !string_app_assoc.
Qed.


Section demo.
Local Open Scope string_scope.


(** a backslash in an extension value does not survive.  The header
    splitter unescapes the extension too, and the value is unescaped a second
    time: the path below, written by a sender as the format asks, comes out
    with a line break in place of its backslash. *)
Theorem cef_backslash_lost :
  let hs := ["0"; "V"; "P"; "1"; "99"; "open"; "3"] in
  cef_text hs [("path", "C:\new")] = "CEF:0|V|P|1|99|open|3|path=C:\\new" /\
  field_is (rec_fields (parse_cef (cef_text hs [("path", "C:\new")]) "")) "path" ("C:" +:+ String newline "ew").
Proof. vm_compute. done. Qed.
End demo.
