(* ===== verification/Leef.v ===== *)
(** * [sigil-ingest/src/leef.rs]: the LEEF codec

    Header and attributes of versions 1 and 2.  A delimiter is a character,
    kept as its UTF-8 text. *)

From stdpp Require Import strings list.
From S2P Require Import Prelude Utf8 Text Containers Core Codec.

Local Open Scope string_scope.

Definition tab : ascii := "009".

(** ** Delimiter *)

(** [u32::from_str_radix(s, 16)]. *)
Fixpoint hex_value (s : string) (acc : Z) : option Z :=
  match s with
  | EmptyString => Some acc
  | String c r => d ← hex_digit_value c; hex_value r (acc * 16 + d)
  end.
Definition parse_hex (s : string) : option Z :=
  let s := match s with String "+" r => r | _ => s end in
  if is_empty_str s then None
  else n ← hex_value s 0; if (n <=? u32_max)%Z then Some n else None.

(** [char::from_u32] with the UTF-8 encoding of the character. *)
Definition byte (n : Z) : string := String (ascii_of_N (Z.to_N n)) "".
Definition char_of (n : Z) : option string :=
  if (n <? 0x80)%Z then Some (byte n)
  else if (n <? 0x800)%Z then Some (byte (0xC0 + n / 64) +:+ byte (0x80 + n `mod` 64))
  else if ((0xD800 <=? n) && (n <=? 0xDFFF))%Z then None
  else if (n <? 0x10000)%Z then
    Some (byte (0xE0 + n / 4096) +:+ byte (0x80 + (n / 64) `mod` 64) +:+ byte (0x80 + n `mod` 64))
  else if (n <=? 0x10FFFF)%Z then
    Some (byte (0xF0 + n / 262144) +:+ byte (0x80 + (n / 4096) `mod` 64) +:+ byte (0x80 + (n / 64) `mod` 64) +:+
          byte (0x80 + n `mod` 64))
  else None.

Definition parse_delim (spec : string) : string :=
  let s := trim spec in
  if is_empty_str s then String tab ""
  else
    let hex := match strip_prefix "0x" s with Some h => Some h | None => strip_prefix "x" s end in
    match (h ← hex; n ← parse_hex h; char_of n) with
    | Some c => c
    | None => take_chars 1 s
    end.

(** ** Attributes *)

(** [str::split] by a character: the pieces between its occurrences. *)
Fixpoint split_str (fuel : nat) (p s : string) : list string :=
  match fuel with
  | O => [s]
  | S fuel => match split_once p s with
              | Some (a, b) => a :: split_str fuel p b
              | None => [s]
              end
  end.

(** The attribute of one piece, if it has one. *)
Definition attribute (pair : string) : option (string * string) :=
  '(k, v) ← split_once "=" pair; let k := trim k in if is_empty_str k then None else Some (k, v).

(** [Value::as_str]. *)
Definition value_str (v : value) : option string := match v with VString s => Some s | _ => None end.

Definition parse_leef (line raw : string) : Rec :=
  match split_once "LEEF:" line with
  | None => dead_letter line raw "no LEEF: header"
  | Some (_, rest) =>
      match split_once "|" rest with
      | None => dead_letter line raw "incomplete LEEF header"
      | Some (version, after_ver) =>
          let is_v2 := starts_with "2" (trim version) in
          let non_attr := if is_v2 then 5%nat else 4%nat in
          match splitn (S non_attr) "|" after_ver with
          | vendor :: product :: dversion :: event_id :: tail =>
              let parsed := if is_v2 then match tail with
                                          | [spec; attrs] => Some (parse_delim spec, attrs)
                                          | _ => None
                                          end
                            else match tail with [attrs] => Some (String tab "", attrs) | _ => None end in
              match parsed with
              | None => dead_letter line raw "incomplete LEEF header"
              | Some (delim, attrs) =>
                  let m := str_field "event_id" event_id (str_field "device_version" dversion
                             (str_field "device_product" product (str_field "device_vendor" vendor
                               (str_field "leef_version" (trim version) [])))) in
                  let m := insert_all (omap attribute (split_str (String.length attrs) delim attrs)) m in
                  let message := default ("LEEF event " +:+ event_id) (v ← fields_get m "msg"; value_str v) in
                  mkRec (str_field "message" message m) raw
              end
          | _ => dead_letter line raw "incomplete LEEF header"
          end
      end
  end.

Definition leef_decode (raw : string) : list Rec := [parse_leef (trim_end (from_utf8_lossy raw)) raw].

(** ** Lines as senders write them *)

Definition attr_text (kv : string * string) : string := kv.1 +:+ "=" +:+ kv.2.
Definition leef_text (version : string) (hs : list string) (spec : option string) (delim : ascii)
    (kvs : list (string * string)) : string :=
  "LEEF:" +:+ version +:+ "|" +:+ join "|" (hs ++ match spec with Some s => [s] | None => [] end)%list +:+ "|" +:+
  join (String delim "") (attr_text <$> kvs).

Example leef_demo :
  let m := rec_fields (parse_leef "LEEF:2.0|Lab|Sensor|1.5|42|x5E|a=1^b=2" "") in
  fields_get m "a" = Some (VString "1") /\ fields_get m "b" = Some (VString "2") /\
  fields_get m "message" = Some (VString "LEEF event 42").
Proof. vm_compute. done. Qed.
Local Close Scope string_scope.

(** ** Lemmas *)

Lemma split_str_char c ws : ws <> [] -> Forall (fun w => free_of c w = true) ws ->
  forall fuel, (length ws <= S fuel)%nat -> split_str fuel (String c "") (join (String c "") ws) = ws.
Proof.
  intros Hne H. induction H as [|w ws Hw Hws IH]; [done|]. intros fuel Hf. destruct ws as [|w' ws].
  - cbn [join]. destruct fuel; [done|]. cbn [split_str]. by rewrite split_once_free.
  - change (join (String c "") (w :: w' :: ws)) with (w +:+ String c "" +:+ join (String c "") (w' :: ws)).
    destruct fuel as [|fuel]; [cbn in Hf; lia|]. cbn [split_str]. rewrite split_once_sep by done.
    f_equal. apply IH; [done|cbn in *; lia].
Qed.

Lemma join_length c (ws : list string) : ws <> [] -> (length ws <= S (String.length (join (String c "") ws)))%nat.
Proof.
  induction ws as [|w ws IH]; [done|]. intros _. destruct ws as [|w' ws]; [cbn; lia|].
  change (join (String c "") (w :: w' :: ws)) with (w +:+ String c "" +:+ join (String c "") (w' :: ws)).
  rewrite !string_length_app. cbn [String.length length] in *. specialize (IH ltac:(done)). lia.
Qed.

(** More fuel than the text is long changes nothing: [split_str] finds every
    piece. *)
Lemma split_str_enough p s fuel : p <> EmptyString -> (String.length s <= fuel)%nat ->
  split_str fuel p s = split_str (String.length s) p s.
Proof.
  intros Hp. remember (String.length s) as n eqn:Hn. revert s fuel Hn. induction (lt_wf n) as [n _ IH].
  intros s fuel -> Hf. destruct fuel as [|fuel]; [by replace (String.length s) with 0%nat by lia|].
  destruct (String.length s) as [|n] eqn:Hl.
  - destruct s; [|done]. cbn. destruct p; [done|]. done.
  - cbn [split_str]. destruct (split_once p s) as [[a b]|] eqn:Hs; [|done]. f_equal.
    apply split_once_Some in Hs as ->. rewrite !string_length_app in Hl. destruct p as [|c p]; [done|].
    cbn [String.length] in Hl. rewrite (IH (String.length b)) by lia. symmetry. apply IH; lia.
Qed.

Lemma attribute_text k v : free_of "=" k = true -> edged k -> attribute (attr_text (k, v)) = Some (k, v).
Proof.
  intros Hf He. unfold attribute, attr_text. cbn [fst snd]. rewrite split_once_sep by done. cbn [mbind option_bind].
  rewrite edged_trim by done. destruct He as (_ & (c & r & -> & _) & _). done.
Qed.

Lemma attributes_text d kvs : d <> "="%char ->
  Forall (fun kv => edged kv.1 /\ free_of "=" kv.1 = true /\ free_of d kv.1 = true /\ free_of d kv.2 = true) kvs ->
  let t := join (String d "") (attr_text <$> kvs) in
  omap attribute (split_str (String.length t) (String d "") t) = kvs.
Proof.
  intros Hd H. cbn zeta. destruct (decide (kvs = [])) as [->|Hne]; [done|].
  rewrite split_str_char.
  - induction H as [|[k v] kvs (He & Hf & _) _ IH]; [done|]. cbn [fmap list_fmap]. rewrite omap_list_cons.
    rewrite attribute_text by done. f_equal. destruct (decide (kvs = [])) as [->|]; [done|]. by apply IH.
  - by destruct kvs.
  - apply Forall_fmap. eapply Forall_impl; [exact H|]. intros [k v] (_ & _ & Hk & Hv). cbn [fst snd] in *. unfold compose, attr_text. cbn [fst snd].
    rewrite !free_of_app, Hk, Hv. unfold free_of. cbn [all_bytes]. by rewrite bool_decide_false.
  - apply join_length. by destruct kvs.
Qed.

(** the LEEF codec reads back what a sender writes, in both versions: the
    header fields, every attribute of a record with distinct keys, whatever
    the declared delimiter is, and the message, which is the [msg] attribute
    when there is one and names the event otherwise. *)
Theorem leef_roundtrip (prefix raw version vendor product dversion event_id : string) (spec : option string)
    (d : ascii) (kvs : list (string * string)) :
  free_of "L" prefix = true -> edged version -> Forall (fun s => free_of "|" s = true) [version; vendor; product; dversion; event_id] ->
  match spec with
  | Some s => starts_with "2" version = true /\ free_of "|" s = true /\ parse_delim s = String d ""
  | None => starts_with "2" version = false /\ d = tab
  end ->
  d <> "="%char ->
  Forall (fun kv => edged kv.1 /\ free_of "=" kv.1 = true /\ free_of d kv.1 = true /\ free_of d kv.2 = true) kvs ->
  NoDup kvs.*1 ->
  let r := parse_leef (prefix +:+ leef_text version [vendor; product; dversion; event_id] spec d kvs) raw in
  rec_raw r = raw /\
  (forall k v, (k, v) ∈ kvs -> k <> "message"%string -> field_is (rec_fields r) k v) /\
  (forall key h, (key, h) ∈ [("leef_version", version); ("device_vendor", vendor); ("device_product", product);
     ("device_version", dversion); ("event_id", event_id)]%string -> key ∉ kvs.*1 -> field_is (rec_fields r) key h) /\
  (forall v, ("msg"%string, v) ∈ kvs -> field_is (rec_fields r) "message" v) /\
  ("msg"%string ∉ kvs.*1 -> field_is (rec_fields r) "message" ("LEEF event " +:+ event_id)).
Proof.
  intros Hp He Hh Hs Hd Hkvs Hnd. rewrite !Forall_cons in Hh. destruct Hh as (Hver & Hve & Hpr & Hdv & Hev & _).
  cbn zeta.
  set (m0 := str_field "event_id" event_id (str_field "device_version" dversion
    (str_field "device_product" product (str_field "device_vendor" vendor (str_field "leef_version" version []))))).
  set (message := default ("LEEF event " +:+ event_id)%string (v ← fields_get (insert_all kvs m0) "msg"; value_str v)).
  assert (parse_leef (prefix +:+ leef_text version [vendor; product; dversion; event_id] spec d kvs) raw =
    mkRec (str_field "message" message (insert_all kvs m0)) raw) as ->.
  { unfold parse_leef, leef_text. rewrite (split_once_mark "L" "EEF:" prefix) by done.
    rewrite split_once_sep by done. rewrite edged_trim by done.
    destruct spec as [s|]; [destruct Hs as (-> & Hsf & Hsd)|destruct Hs as [-> ->]]; cbn [join app];
      rewrite <- !string_app_assoc; rewrite !splitn_sep by done; cbn [splitn];
      rewrite ?Hsd; by rewrite attributes_text. }
  cbn [rec_raw rec_fields]. unfold field_is. split_and!.
  - done.
  - intros k v Hin Hk. rewrite get_str_field, decide_False by done. by apply insert_all_in.
  - intros key h Hin Hk. rewrite get_str_field, decide_False by (intros <-; set_unfold; naive_solver).
    rewrite insert_all_out by done. unfold m0. rewrite !get_str_field.
    set_unfold in Hin. naive_solver.
  - intros v Hin. rewrite get_str_field, decide_True by done. unfold message.
    by rewrite (insert_all_in kvs m0 "msg" v Hnd Hin).
  - intros Hk. rewrite get_str_field, decide_True by done. unfold message. by rewrite (insert_all_out kvs m0 "msg" Hk).
Qed.

Lemma leef_roundtrip_witness :
  field_is (rec_fields (parse_leef "LEEF:2.0|Lab|Sensor|1.5|42|x5E|cat=auth^usrName=al ice" "raw")) "usrName" "al ice".
Proof.
  pose proof (leef_roundtrip "" "raw" "2.0" "Lab" "Sensor" "1.5" "42" (Some "x5E"%string) "^"
    [("cat", "auth"); ("usrName", "al ice")]%string) as H.
  cbn zeta in H. destruct H as (_ & Hk & _).
  - reflexivity.
  - split; [done|]. split; [by eexists _, _|]. by exists "2."%string, "0"%char.
  - by repeat constructor.
  - done.
  - done.
  - apply Forall_cons. split; [|apply Forall_cons; split; [|done]]; (split; [|done]); (split; [done|]);
      (split; [by eexists _, _|]); [by exists "ca"%string, "t"%char|by exists "usrNam"%string, "e"%char].
  - apply (bool_decide_unpack _). by vm_compute.
  - apply (Hk "usrName"%string "al ice"%string); [right; by left|done].
Defined.
