(* ===== verification/Tailer.v ===== *)
(** * [sigil-ingest/src/input.rs]: the file input

    A tailer polls a growing file for complete lines and keeps its byte
    offset in a checkpoint file.  The file, the offset in memory and the
    checkpoint are the state; opening, reading and writing may fail.  The
    syslog listeners are socket loops around the codecs. *)

From stdpp Require Import strings list.
From S2P Require Import Prelude Text.

Definition newline : ascii := "010".
Definition carriage_return : ascii := "013".

(** ** Lines *)

(** A line without its line feed: a carriage return at the end goes too. *)
Definition trim_cr (line : string) : string := default line (strip_suffix (String carriage_return "") line).

Definition keep_line (line : string) : list string :=
  let line := trim_cr line in if is_empty_str line then [] else [line].

(** The loop of [poll_lines] over what is left to read: the lines kept and the
    bytes of complete lines.  A partial last line stays. *)
Fixpoint read_loop (fuel : nat) (s : string) : list string * nat :=
  match fuel with
  | O => ([], 0)
  | S fuel =>
      match split_once (String newline "") s with
      | Some (line, r) => let '(lines, n) := read_loop fuel r in
                          (keep_line line ++ lines, String.length line + 1 + n)
      | None => ([], 0)
      end
  end.
Definition read_lines (s : string) : list string * nat := read_loop (String.length s) s.

(** ** The tailer *)

Record Tailer : Type := mkTailer { tl_file : option string; tl_offset : nat; tl_checkpoint : option string }.

Definition read_checkpoint (text : option string) : nat :=
  match text ≫= (fun s => parse_u64 (trim s)) with Some n => Z.to_nat n | None => 0 end.

(** [FileTailer::open] on the same file and checkpoint. *)
Definition open_tailer (t : Tailer) : Tailer := mkTailer (tl_file t) (read_checkpoint (tl_checkpoint t)) (tl_checkpoint t).

(** What goes wrong in one poll: opening, reading, or saving the offset. *)
Record PollFaults : Set := mkFaults { open_fails : bool; read_fails : bool; save_fails : bool }.

Definition poll_lines (io : PollFaults) (t : Tailer) : Tailer * result (list string) :=
  match tl_file t with
  | None => (t, Ok [])
  | Some file =>
      if open_fails io then (t, Err Io)
      else
        let offset := if String.length file <? tl_offset t then 0 else tl_offset t in
        if String.length file =? offset then (mkTailer (tl_file t) offset (tl_checkpoint t), Ok [])
        else if read_fails io then (mkTailer (tl_file t) offset (tl_checkpoint t), Err Io)
        else
          let '(lines, n) := read_lines (drop_bytes offset file) in
          let consumed := offset + n in
          if consumed =? offset then (mkTailer (tl_file t) offset (tl_checkpoint t), Ok lines)
          else (mkTailer (tl_file t) consumed
                  (if save_fails io then tl_checkpoint t else Some (show_u64 (Z.of_nat consumed))), Ok lines)
  end.

(** ** Runs *)

(** The writer appends, the input polls, the process restarts. *)
Inductive action : Set := Append (s : string) | Poll (io : PollFaults) | Restart.

Definition append_file (s : string) (t : Tailer) : Tailer :=
  mkTailer (Some (default ""%string (tl_file t) +:+ s)) (tl_offset t) (tl_checkpoint t).

(** The lines handed to the pipeline are accumulated. *)
Definition run_action (st : Tailer * list string) (a : action) : Tailer * list string :=
  let '(t, out) := st in
  match a with
  | Append s => (append_file s t, out)
  | Poll io => match poll_lines io t with
               | (t, Ok lines) => (t, out ++ lines)
               | (t, Err _) => (t, out)
               end
  | Restart => (open_tailer t, out)
  end.
Definition run_actions : list action -> Tailer * list string := foldl run_action (mkTailer None 0 None, []).

(** The lines of a text: what its complete lines amount to. *)
Definition frames (s : string) : list string := (read_lines s).1.

Definition saves (a : action) : bool := match a with Poll io => negb (save_fails io) | _ => true end.
Definition clean_poll : action := Poll (mkFaults false false false).

(** ** Lemmas *)

(** Text that is empty or ends with a line feed. *)
Definition whole (s : string) : Prop := s = EmptyString \/ exists r, s = r +:+ String newline "".

Lemma read_loop_enough fuel s : String.length s <= fuel -> read_loop fuel s = read_lines s.
Proof.
  unfold read_lines. remember (String.length s) as n eqn:Hn. revert s fuel Hn.
  induction (lt_wf n) as [n _ IH]. intros s fuel -> Hf.
  destruct fuel as [|fuel]; [by replace (String.length s) with 0 by lia|].
  destruct s as [|c s]; [done|]. remember (String c s) as t eqn:Ht.
  assert (exists m, String.length t = S m) as [m Hm] by (subst; cbn; eauto). rewrite Hm. cbn [read_loop].
  destruct (split_once (String newline "") t) as [[a b]|] eqn:Hs; [|done].
  apply split_once_Some in Hs as ->. rewrite !string_length_app in *. cbn [String.length] in *.
  assert (read_loop fuel b = read_loop m b) as ->; [|done].
  rewrite (IH (String.length b)) by lia. symmetry. apply IH; lia.
Qed.

Lemma read_lines_cons line r : free_of newline line = true ->
  read_lines (line +:+ String newline r) =
    (keep_line line ++ (read_lines r).1, String.length line + 1 + (read_lines r).2).
Proof.
  intros Hl. unfold read_lines at 1. rewrite string_length_app. cbn [String.length].
  rewrite Nat.add_succ_r. cbn [read_loop]. rewrite (split_once_char newline line r) by done.
  rewrite read_loop_enough by lia. by destruct (read_lines r).
Qed.

Lemma read_lines_none s : free_of newline s = true -> read_lines s = ([], 0).
Proof.
  intros Hs. unfold read_lines. destruct (String.length s); [done|]. cbn [read_loop].
  by rewrite split_once_free.
Qed.

(** Every text is complete lines and a partial one. *)
Lemma line_cases s : free_of newline s = true \/
  exists line r, s = line +:+ String newline r /\ free_of newline line = true.
Proof.
  induction s as [|c s IH]; [by left|]. destruct (decide (newline = c)) as [<-|Hc].
  - right. by exists ""%string, s.
  - destruct IH as [Hs|(line & r & -> & Hl)].
    + left. unfold free_of. cbn [all_bytes]. by rewrite bool_decide_false.
    + right. exists (String c line), r. split; [done|]. unfold free_of. cbn [all_bytes]. by rewrite bool_decide_false.
Qed.

Lemma read_lines_split s : exists a b, s = a +:+ b /\ whole a /\ free_of newline b = true /\
  (read_lines s).2 = String.length a /\ frames a = frames s.
Proof.
  unfold frames. remember (String.length s) as n eqn:Hn. revert s Hn.
  induction (lt_wf n) as [n _ IH]. intros s ->. destruct (line_cases s) as [Hs|(line & r & -> & Hl)].
  - exists ""%string, s. rewrite read_lines_none by done. split_and!; try done. by left.
  - destruct (IH (String.length r)) with (s := r) as (a & b & -> & Ha & Hb & Hn & Hf); [rewrite string_length_app; cbn; lia|done|].
    exists (line +:+ String newline a), b. rewrite !read_lines_cons by done. cbn [fst snd]. split_and!; try done.
    + by rewrite <- string_app_assoc.
    + destruct Ha as [->|[t ->]]; [by right; exists line|]. right. exists (line +:+ String newline t).
      by rewrite <- string_app_assoc.
    + rewrite Hn, string_length_app. cbn. lia.
    + by rewrite Hf.
Qed.

Lemma frames_app a b : whole a -> frames (a +:+ b) = frames a ++ frames b.
Proof.
  unfold frames. remember (String.length a) as n eqn:Hn. revert a Hn.
  induction (lt_wf n) as [n _ IH]. intros a -> Ha. destruct (line_cases a) as [Hs|(line & r & -> & Hl)].
  - destruct Ha as [->|[t ->]]; [done|]. rewrite free_of_app in Hs. apply andb_true_iff in Hs as [_ Hs]. done.
  - rewrite <- string_app_assoc, string_app_cons, !read_lines_cons by done. cbn [fst]. rewrite <- app_assoc. f_equal.
    apply IH with (y := String.length r); [rewrite string_length_app; cbn; lia|done|].
    destruct Ha as [Ha|[t Ht]]; [by destruct line|]. destruct r as [|c r]; [by left|]. right.
    clear -Ht. revert t Ht. induction line as [|d line IH]; intros [|e t] Ht; rewrite ?string_app_nil_l, ?string_app_cons in Ht.
    + by injection Ht.
    + injection Ht as <- Ht. eauto.
    + injection Ht as _ Ht. by destruct line.
    + injection Ht as _ Ht. eauto.
Qed.

Lemma trim_show n : (0 <= n)%Z -> trim (show_u64 n) = show_u64 n.
Proof.
  intros Hn. apply edged_trim, word_edged.
  - destruct (show_u64_head n Hn) as (d & r & -> & _). done.
  - eapply all_bytes_impl; [|by apply all_bytes_show]. intros c. unfold is_ascii_digit, word_byte, is_ascii.
    rewrite !andb_true_iff, !negb_true_iff, andb_false_iff, !N.leb_gt, !N.leb_le, N.ltb_lt, N.eqb_neq. lia.
Qed.

Lemma read_checkpoint_show n : (Z.of_nat n <= u64_max)%Z -> read_checkpoint (Some (show_u64 (Z.of_nat n))) = n.
Proof.
  intros Hn. unfold read_checkpoint. cbn [mbind option_bind]. rewrite trim_show, parse_show_u64 by lia. by rewrite Nat2Z.id.
Qed.

(** ** Runs *)

(** [a] was read, [a0] is checkpointed, [b] is unread. *)
Record tail_state (all_saved : bool) (t : Tailer) (out : list string) (a0 c b : string) : Prop := {
  ts_file : default ""%string (tl_file t) = a0 +:+ c +:+ b;
  ts_offset : tl_offset t = String.length (a0 +:+ c);
  ts_checkpoint : read_checkpoint (tl_checkpoint t) = String.length a0;
  ts_whole0 : whole a0;
  ts_whole : whole (a0 +:+ c);
  ts_seen : forall l, l ∈ frames (a0 +:+ c) -> l ∈ out;
  ts_once : all_saved = true -> c = EmptyString /\ out = frames a0
}.

Definition file_small (t : Tailer) : Prop := (Z.of_nat (String.length (default "" (tl_file t))) <= u64_max)%Z.

Lemma whole_app a b : whole a -> whole b -> whole (a +:+ b).
Proof.
  intros Ha [->|[r ->]]; [by rewrite string_app_nil_r|]. right. exists (a +:+ r). by rewrite string_app_assoc.
Qed.

Lemma poll_state ok io t out a0 c b : file_small t -> tail_state ok t out a0 c b ->
  exists a0' c' b', tail_state (ok && negb (save_fails io)) (run_action (t, out) (Poll io)).1
    (run_action (t, out) (Poll io)).2 a0' c' b' /\
    (open_fails io = false -> read_fails io = false -> free_of newline b' = true).
Proof.
  intros Hsm [Hf Ho Hck Hw0 Hw Hs Ho1]. cbn [run_action]. unfold poll_lines, file_small in *.
  assert (forall ok', (ok' = true -> ok = true) -> tail_state ok' t out a0 c b) as Hsame by (intros; split; auto).
  destruct (tl_file t) as [file|] eqn:Hfile; cbn [default from_option] in *; unfold id in *.
  2: { exists a0, c, b. cbn [fst snd]. rewrite app_nil_r. split; [apply Hsame; by intros [? _]%andb_true_iff|].
       intros _ _. destruct a0, c, b; done. }
  destruct (open_fails io); [exists a0, c, b; split; [apply Hsame; by intros [? _]%andb_true_iff|done]|].
  assert (String.length file = String.length (a0 +:+ c) + String.length b) as Hlen
    by (by rewrite Hf, string_app_assoc, string_length_app).
  rewrite Ho. destruct (Nat.ltb_spec (String.length file) (String.length (a0 +:+ c))); [lia|].
  assert (mkTailer (Some file) (String.length (a0 +:+ c)) (tl_checkpoint t) = t) as Ht
    by (rewrite <- Ho, <- Hfile; by destruct t).
  rewrite Ht.
  destruct (Nat.eqb_spec (String.length file) (String.length (a0 +:+ c))).
  { exists a0, c, b. cbn [fst snd]. rewrite app_nil_r. split; [apply Hsame; by intros [? _]%andb_true_iff|].
    intros _ _. destruct b; [done|]. cbn in Hlen. lia. }
  destruct (read_fails io); [exists a0, c, b; split; [apply Hsame; by intros [? _]%andb_true_iff|done]|].
  rewrite Hf, string_app_assoc, drop_bytes_app.
  destruct (read_lines_split b) as (b1 & b2 & -> & Hb1 & Hb2 & Hn & Hfr). unfold frames in Hfr at 2.
  destruct (read_lines (b1 +:+ b2)) as [lines n'] eqn:Hr. cbn [fst snd] in *. subst n' lines.
  destruct (Nat.eqb_spec (String.length (a0 +:+ c) + String.length b1) (String.length (a0 +:+ c))) as [He|He].
  - assert (b1 = EmptyString) as -> by (destruct b1; [done|cbn in He; lia]).
    exists a0, c, b2. rewrite string_app_nil_l in *. cbn [fst snd].
    change (frames "") with (@nil string). rewrite app_nil_r.
    split; [apply Hsame; by intros [? _]%andb_true_iff|done].
  - cbn [fst snd]. assert (whole ((a0 +:+ c) +:+ b1)) as Hw1 by by apply whole_app.
    assert (forall l, l ∈ frames ((a0 +:+ c) +:+ b1) -> l ∈ out ++ frames b1) as Hseen.
    { intros l. rewrite frames_app by done. rewrite !elem_of_app. naive_solver. }
    destruct (save_fails io) eqn:Hsv.
    + exists a0, (c +:+ b1), b2. split; [|done]. rewrite andb_false_r.
      split; cbn [tl_file tl_offset tl_checkpoint]; rewrite ?(string_app_assoc a0 c b1); try done.
      * cbn [default from_option]. unfold id. rewrite ?Hf, <- ?string_app_assoc. done.
      * by rewrite (string_length_app (a0 +:+ c)).
    + exists ((a0 +:+ c) +:+ b1), "", b2. split; [|done]. rewrite andb_true_r.
      split; cbn [tl_file tl_offset tl_checkpoint]; rewrite ?string_app_nil_r, ?string_app_nil_l; try done.
      * cbn [default from_option]. unfold id. rewrite ?Hf, <- ?string_app_assoc. done.
      * by rewrite (string_length_app (a0 +:+ c)).
      * rewrite <- string_length_app. apply read_checkpoint_show.
        rewrite !string_length_app in *. lia.
      * intros Hok. destruct (Ho1 Hok) as [-> ->]. rewrite string_app_nil_r in *. split; [done|].
        by rewrite frames_app.
Qed.

Lemma append_file_text s t : default ""%string (tl_file (append_file s t)) = default ""%string (tl_file t) +:+ s.
Proof. done. Qed.

Lemma append_state ok s t out a0 c b : tail_state ok t out a0 c b ->
  tail_state ok (append_file s t) out a0 c (b +:+ s).
Proof.
  intros [Hf ? ? ? ? ? ?]. split; try done. by rewrite append_file_text, Hf, <- !string_app_assoc.
Qed.

Lemma restart_state ok t out a0 c b : tail_state ok t out a0 c b -> tail_state ok (open_tailer t) out a0 "" (c +:+ b).
Proof.
  intros [Hf Ho Hck Hw0 Hw Hs Ho1]. split; cbn [open_tailer tl_file tl_offset tl_checkpoint];
    rewrite ?string_app_nil_r, ?string_app_nil_l; try done.
  - intros l Hl. destruct (decide (c = EmptyString)) as [->|_]; [apply Hs; by rewrite string_app_nil_r|].
    apply Hs. clear -Hl Hw0. unfold frames in *. rewrite (frames_app a0 c Hw0 : (read_lines _).1 = _).
    apply elem_of_app. by left.
  - intros Hok. split; [done|]. by apply Ho1.
Qed.

Lemma file_grows acts st : (String.length (default "" (tl_file st.1)) <=
  String.length (default "" (tl_file (foldl run_action st acts).1)))%nat.
Proof.
  revert st. induction acts as [|x acts IH]; intros [t out]; cbn [foldl]; [done|].
  etransitivity; [|apply IH]. destruct x as [s|io|]; cbn [run_action fst].
  - rewrite append_file_text, string_length_app. lia.
  - unfold poll_lines. destruct (tl_file t) as [file|] eqn:Hf; [|cbn [fst]; by rewrite Hf].
    destruct (open_fails io); cbn [fst]; [by rewrite Hf|]. destruct (_ =? _)%nat; cbn [fst tl_file]; [done|].
    destruct (read_fails io); cbn [fst tl_file]; [done|]. destruct (read_lines _) as [lines n].
    by destruct (_ =? _)%nat.
  - done.
Qed.

Lemma run_state acts : file_small (run_actions acts).1 ->
  exists a0 c b, tail_state (forallb saves acts) (run_actions acts).1 (run_actions acts).2 a0 c b.
Proof.
  unfold run_actions. induction acts as [|x acts IH] using rev_ind; intros Hsm.
  - exists ""%string, ""%string, ""%string. split; try done; try by left.
  - rewrite foldl_app, forallb_app in *. cbn [foldl forallb] in *. rewrite andb_true_r.
    assert (file_small (foldl run_action (mkTailer None 0 None, []) acts).1) as Hsm'.
    { unfold file_small in *. pose proof (file_grows [x] (foldl run_action (mkTailer None 0 None, []) acts)) as Hg.
      cbn [foldl] in Hg. lia. }
    destruct (IH Hsm') as (a0 & c & b & Hst). destruct (foldl run_action _ acts) as [t out]. cbn [fst snd] in *.
    destruct x as [s|io|]; cbn [saves]; rewrite ?andb_true_r.
    + exists a0, c, (b +:+ s). by apply append_state.
    + destruct (poll_state _ io t out a0 c b Hsm' Hst) as (a0' & c' & b' & Hst' & _). by exists a0', c', b'.
    + exists a0, "", (c +:+ b). by apply restart_state.
Qed.

(** C35: exactly once, and at least once.  However appends, polls and restarts
    interleave, and whatever polls fail to open or read the file: after one
    more poll that works, every complete line of the file has been handed
    over (blank lines aside, line ends removed); and if no checkpoint write
    failed, the lines handed over are the lines of the file, each once and in
    order. *)
Theorem tailer_delivers (acts : list action) :
  file_small (run_actions (acts ++ [clean_poll])).1 ->
  let '(t, out) := run_actions (acts ++ [clean_poll]) in
  (forall l, l ∈ frames (default "" (tl_file t)) -> l ∈ out) /\
  (forallb saves acts = true -> out = frames (default "" (tl_file t))).
Proof.
  intros Hsm.
  assert (file_small (run_actions acts).1) as Hsm'.
  { unfold file_small, run_actions in *. rewrite foldl_app in Hsm. cbn [foldl] in Hsm.
    pose proof (file_grows [clean_poll] (foldl run_action (mkTailer None 0 None, []) acts)) as Hg. cbn [foldl] in Hg. lia. }
  destruct (run_state acts Hsm') as (a0 & c & b & Hst). unfold run_actions. rewrite foldl_app. cbn [foldl].
  unfold run_actions in Hsm', Hst. destruct (foldl run_action (mkTailer None 0 None, []) acts) as [t out].
  cbn [fst snd] in *.
  destruct (poll_state _ (mkFaults false false false) t out a0 c b Hsm' Hst) as (a0' & c' & b' & Hst' & Hfree).
  unfold clean_poll. destruct (run_action (t, out) _) as [t' out']. cbn [fst snd] in *.
  specialize (Hfree eq_refl eq_refl). destruct Hst' as [Hf _ _ _ Hw Hs Ho]. rewrite andb_true_r in Ho.
  assert (frames (default "" (tl_file t')) = frames (a0' +:+ c')) as Heq.
  { rewrite Hf, string_app_assoc, frames_app by done. unfold frames at 2. rewrite (read_lines_none b') by done.
    cbn [fst]. by rewrite app_nil_r. }
  split; rewrite Heq; [done|]. intros Hok. destruct (Ho Hok) as [-> ->]. by rewrite string_app_nil_r.
Qed.

(** the offset is saved before the lines are handled.  When the process
    stops between a poll and the handling of its lines, they are gone: the
    reopened tailer has nothing to hand over.  Delivery across a crash is at
    most once, where the module promises at least once. *)
Theorem crash_loses_polled_lines (file : string) :
  (Z.of_nat (String.length file) <= u64_max)%Z -> whole file ->
  let '(t, polled) := poll_lines (mkFaults false false false) (mkTailer (Some file) 0 None) in
  polled = Ok (frames file) /\
  (poll_lines (mkFaults false false false) (open_tailer t)).2 = Ok [].
Proof.
  intros Hsm Hw. unfold poll_lines. cbn [tl_file tl_offset open_fails read_fails save_fails].
  destruct (Nat.ltb_spec (String.length file) 0); [lia|].
  destruct (Nat.eqb_spec (String.length file) 0) as [He|He].
  { destruct file; [|done]. split; [done|]. reflexivity. }
  rewrite drop_bytes_0. destruct (read_lines_split file) as (a & b & Hab & Ha & Hb & Hn & Hf).
  assert (b = EmptyString) as ->.
  { destruct Hw as [->|[r Hr]]; [done|]. rewrite Hab in Hr. clear -Hr Hb. revert r Hr.
    induction a as [|x a IH]; intros r Hr.
    - rewrite string_app_nil_l in Hr. subst b. rewrite free_of_app in Hb. by apply andb_true_iff in Hb as [_ Hb].
    - destruct r as [|y r]; rewrite ?string_app_nil_l, ?string_app_cons in Hr;
        [injection Hr as _ Hr; by destruct a, b|].
      injection Hr as _ Hr. by eapply IH. }
  rewrite string_app_nil_r in Hab. subst a. unfold frames in *. destruct (read_lines file) as [lines n]. cbn [fst snd] in *.
  subst n. cbn [Nat.add]. destruct (Nat.eqb_spec (String.length file) 0); [done|].
  split; [done|]. unfold open_tailer. cbn [tl_checkpoint tl_file tl_offset]. rewrite read_checkpoint_show by done.
  rewrite Nat.ltb_irrefl, Nat.eqb_refl. done.
Qed.

Section demo.
Local Open Scope string_scope.
Definition two_lines : string := "a" +:+ String carriage_return (String newline ("b" +:+ String newline "")).

Lemma tailer_delivers_witness :
  (run_actions ([Append "x"; Poll (mkFaults false true false); Append two_lines; Restart] ++ [clean_poll])).2 =
    ["xa"; "b"]%list.
Proof.
  pose proof (tailer_delivers [Append "x"; Poll (mkFaults false true false); Append two_lines; Restart]) as Ht.
  specialize (Ht ltac:(vm_compute; discriminate)).
  destruct (run_actions _) as [t out] eqn:E. destruct Ht as [_ Ht]. cbn [snd]. rewrite (Ht eq_refl).
  vm_compute in E. injection E as <- <-. vm_compute. reflexivity.
Defined.

Lemma crash_loses_polled_lines_witness :
  (poll_lines (mkFaults false false false)
     (open_tailer (poll_lines (mkFaults false false false) (mkTailer (Some two_lines) 0 None)).1)).2 = Ok []%list.
Proof.
  pose proof (crash_loses_polled_lines two_lines) as Hc.
  destruct (poll_lines _ (mkTailer (Some two_lines) 0 None)) as [t polled].
  apply Hc; [vm_compute; discriminate|]. right. by exists ("a" +:+ String carriage_return (String newline "b")).
Defined.
End demo.
