(* ===== verification/Listen.v ===== *)
(** * [sigil-ingest/src/input.rs]: the syslog listeners

    What a UDP listener makes of its datagrams, and a TCP listener of the
    bytes of a connection, which come in segments of any size and may break
    off.  The channel to the pipeline takes every frame; a listener stops when
    it is gone. *)

From stdpp Require Import strings list.
From S2P Require Import Prelude Text Tailer.

Local Open Scope string_scope.

(** ** UDP *)

Definition UDP_BUFFER : nat := Z.to_nat (64 * 1024).

(** The frames of what [recv_from] brings: a datagram, cut to the buffer, or an
    error, which is passed over. *)
Definition udp_frames (events : list (option string)) : list string :=
  omap (fun d => String.substring 0 UDP_BUFFER <$> d) events.

(** ** TCP *)

(** [read_until]: the bytes up to a line feed, or all that is left, and the
    rest, over the segments as they come. *)
Fixpoint read_until (segs : list string) : string * list string :=
  match segs with
  | [] => ("", [])
  | s :: segs =>
      match split_once (String newline "") s with
      | Some (a, b) => (a +:+ String newline "", b :: segs)
      | None => let '(line, rest) := read_until segs in (s +:+ line, rest)
      end
  end.

(** The frame of a line, without its line end. *)
Definition line_frame (line : string) : string :=
  match strip_suffix (String newline "") line with Some l => trim_cr l | None => line end.
Definition keep_frame (line : string) : list string := let f := line_frame line in if is_empty_str f then [] else [f].

(** The loop of a connection; [broken]: it ends with an error, and what was
    read of the last line is dropped.  Each turn but the last takes a byte. *)
Fixpoint tcp_loop (fuel : nat) (broken : bool) (segs : list string) : list string :=
  match fuel with
  | O => []
  | S fuel =>
      let '(line, rest) := read_until segs in
      if is_empty_str line then []
      else if ends_with (String newline "") line then keep_frame line ++ tcp_loop fuel broken rest
      else if broken then [] else keep_frame line ++ tcp_loop fuel broken rest
  end.

Definition glue (segs : list string) : string := foldr (fun s r => s +:+ r) "" segs.
Definition tcp_frames (broken : bool) (segs : list string) : list string := tcp_loop (S (String.length (glue segs))) broken segs.

(** ** What a connection brings *)

Lemma free_start c s g line r : free_of c s = true -> s +:+ g = line +:+ String c r -> exists l, line = s +:+ l /\ g = l +:+ String c r.
Proof.
  revert line. induction s as [|d s IH]; intros line; [intros _ Hg; by exists line|]. unfold free_of. cbn [all_bytes].
  rewrite andb_true_iff, negb_true_iff. intros [Hd Hs] Hg. apply bool_decide_eq_false in Hd.
  destruct line as [|e line]; rewrite !string_app_cons in Hg; [rewrite string_app_nil_l in Hg; injection Hg as -> _; done|].
  injection Hg as <- Hg. destruct (IH line Hs Hg) as (l & -> & Hl). exists l. by rewrite string_app_cons.
Qed.

(** A line is read the same however it is segmented. *)
Lemma read_until_line segs line r : glue segs = line +:+ String newline r -> free_of newline line = true ->
  exists rest, read_until segs = (line +:+ String newline "", rest) /\ glue rest = r.
Proof.
  revert line. induction segs as [|s segs IH]; intros line Hg Hl; [by destruct line|]. cbn [glue foldr read_until] in *. fold (glue segs) in Hg.
  destruct (line_cases s) as [Hs|(a & b & -> & Ha)].
  - rewrite split_once_free by done. destruct (free_start newline s (glue segs) line r Hs Hg) as (l & -> & Hg').
    rewrite free_of_app in Hl. apply andb_true_iff in Hl as [_ Hl]. destruct (IH l Hg' Hl) as (rest & -> & Hr).
    exists rest. by rewrite string_app_assoc.
  - rewrite split_once_char by done. rewrite <- string_app_assoc, string_app_cons in Hg.
    pose proof (split_once_char newline a (b +:+ glue segs) Ha) as H1. rewrite Hg, split_once_char in H1 by done.
    injection H1 as -> ->. by exists (b :: segs).
Qed.

Lemma read_until_end segs : free_of newline (glue segs) = true -> exists rest, read_until segs = (glue segs, rest) /\ glue rest = "".
Proof.
  induction segs as [|s segs IH]; [by exists []|]. cbn [glue foldr read_until]. fold (glue segs). rewrite free_of_app. intros [Hs Hg]%andb_true_iff.
  rewrite split_once_free by done. destruct (IH Hg) as (rest & -> & Hr). by exists rest.
Qed.

Lemma ends_line line : ends_with (String newline "") (line +:+ String newline "") = true.
Proof. apply bool_decide_eq_true. exists line. by apply strip_suffix_Some. Qed.

Lemma ends_free line : free_of newline line = true -> ends_with (String newline "") line = false.
Proof.
  intros Hl. apply bool_decide_eq_false. intros [r Hr]. apply strip_suffix_Some in Hr. subst line.
  rewrite free_of_app in Hl. apply andb_true_iff in Hl as [_ Hl]. done.
Qed.

Lemma keep_frame_line line : keep_frame (line +:+ String newline "") = keep_line line.
Proof. unfold keep_frame, line_frame. by rewrite (proj2 (strip_suffix_Some (String newline "") _ line) eq_refl). Qed.

(** What follows the last line feed. *)
Definition unfinished (s : string) : string := drop_bytes (read_lines s).2 s.

Lemma unfinished_cons line r : free_of newline line = true -> unfinished (line +:+ String newline r) = unfinished r.
Proof.
  intros Hl. unfold unfinished. rewrite read_lines_cons by done. cbn [snd].
  replace (line +:+ String newline r) with ((line +:+ String newline "") +:+ r) by (by rewrite <- string_app_assoc, string_app_cons, string_app_nil_l).
  replace (String.length line + 1 + (read_lines r).2) with (String.length (line +:+ String newline "") + (read_lines r).2) by (by rewrite string_length_app).
  generalize (read_lines r).2, (line +:+ String newline ""). intros k a. induction a as [|c a IH]; [done|]. exact IH.
Qed.

Lemma tcp_loop_frames fuel broken segs : String.length (glue segs) < fuel ->
  tcp_loop fuel broken segs =
  (frames (glue segs) ++ if broken || is_empty_str (unfinished (glue segs)) then [] else [unfinished (glue segs)])%list.
Proof.
  revert segs. induction fuel as [|fuel IH]; intros segs Hf; [lia|]. cbn [tcp_loop].
  destruct (line_cases (glue segs)) as [Hs|(line & r & Hg & Hl)].
  - destruct (read_until_end segs Hs) as (rest & -> & Hr). unfold frames, unfinished. rewrite (read_lines_none (glue segs)) by done. cbn [fst snd app].
    rewrite drop_bytes_0, ends_free by done. destruct (is_empty_str (glue segs)) eqn:He; [by rewrite orb_true_r|]. rewrite orb_false_r.
    destruct broken; [done|]. unfold keep_frame, line_frame.
    assert (strip_suffix (String newline "") (glue segs) = None) as ->.
    { pose proof (ends_free _ Hs) as Hn. unfold ends_with in Hn. apply bool_decide_eq_false, eq_None_not_Some in Hn. exact Hn. }
    rewrite He. cbn [app]. f_equal. destruct fuel as [|fuel]; [done|]. cbn [tcp_loop].
    destruct (read_until_end rest) as (rest' & -> & _); [by rewrite Hr|]. by rewrite Hr.
  - destruct (read_until_line segs line r Hg Hl) as (rest & -> & Hr). rewrite ends_line. rewrite keep_frame_line.
    assert (is_empty_str (line +:+ String newline "") = false) as -> by (by destruct line).
    rewrite Hg in *. rewrite string_length_app in Hf. cbn [String.length] in Hf. rewrite IH by (rewrite Hr; lia).
    rewrite Hr, unfinished_cons by done. unfold frames. rewrite read_lines_cons by done. cbn [fst]. by rewrite app_assoc.
Qed.

(** The TCP listener.  The frames of a connection depend on its bytes, not
    on how the network cuts them: they are those the file input makes of the
    same complete lines, none empty, and then, unless the connection broke
    off, what follows the last line feed, as it is. *)
Theorem tcp_frames_spec broken segs :
  tcp_frames broken segs =
  (frames (glue segs) ++ if broken || is_empty_str (unfinished (glue segs)) then [] else [unfinished (glue segs)])%list /\
  forall segs', glue segs' = glue segs -> tcp_frames broken segs' = tcp_frames broken segs.
Proof.
  assert (forall l, tcp_frames broken l = (frames (glue l) ++ if broken || is_empty_str (unfinished (glue l)) then [] else [unfinished (glue l)])%list) as H.
  { intros l. apply tcp_loop_frames. lia. }
  split; [apply H|]. intros segs' Hg. by rewrite !H, Hg.
Qed.

Lemma tcp_frames_spec_witness :
  tcp_frames false ["on"; "e" +:+ String "013" (String newline (String newline "tw")); "o"] = ["one"; "two"] /\
  tcp_frames false ["one" +:+ String "013" (String newline (String newline "two"))] = ["one"; "two"].
Proof.
  destruct (tcp_frames_spec false ["on"; "e" +:+ String "013" (String newline (String newline "tw")); "o"]) as [H1 H2].
  split; [rewrite H1; vm_compute; reflexivity|]. rewrite (H2 ["one" +:+ String "013" (String newline (String newline "two"))] eq_refl), H1. vm_compute. reflexivity.
Defined.
