(* ===== verification/Float.v ===== *)
(** * Floating-point numbers of the Rust code

    [f32] and [f64] are the binary32 and binary64 numbers of the Standard
    Library's executable specification of IEEE 754, rounding to nearest even.
    The decimal text of an [f64] and its reading are parameters. *)

From Stdlib Require Import SpecFloat.
From S2P Require Import Prelude Containers Core.

(** ** [f32] *)

Abbreviation f32 := spec_float.
Definition f32_of (n : nat) : f32 := binary_normalize 24 128 (Z.of_nat n) 0 false.
Definition f32_div : f32 -> f32 -> f32 := SFdiv 24 128.
Definition f32_add : f32 -> f32 -> f32 := SFadd 24 128.
Definition f32_sub : f32 -> f32 -> f32 := SFsub 24 128.
Definition f32_mul : f32 -> f32 -> f32 := SFmul 24 128.
Definition f32_sqrt : f32 -> f32 := SFsqrt 24 128.
Definition f32_lt (a b : f32) : bool := SFltb a b.
Definition f32_ge (a b : f32) : bool := SFleb b a.
Definition f32_le (a b : f32) : bool := SFleb a b.
Definition f32_nan (a : f32) : bool := match a with S754_nan => true | _ => false end.

(** [f32::min], [f32::max]: the number when the other is not one. *)
Definition f32_min (a b : f32) : f32 := if f32_nan a then b else if f32_nan b then a else if f32_lt b a then b else a.
Definition f32_max (a b : f32) : f32 := if f32_nan a then b else if f32_nan b then a else if f32_lt a b then b else a.

(** [f32::clamp] with bounds that are numbers. *)
Definition f32_clamp (a lo hi : f32) : f32 :=
  let a := if f32_lt a lo then lo else a in if f32_lt hi a then hi else a.

(** The literal [n/d]: the nearest [f32], for [n] and [d] below 2^24. *)
Definition f32_lit (n d : nat) : f32 := f32_div (f32_of n) (f32_of d).

(** An [i64] cast to [f32]. *)
Definition f32_of_Z (n : Z) : f32 := binary_normalize 24 128 n 0 false.

Definition f32_sum : list f32 -> f32 := foldl f32_add (S754_zero true).

(** [f32::to_bits] without the sign. *)
Definition f32_bits (a : f32) : Z :=
  match a with
  | S754_zero _ => 0
  | S754_infinity _ => 255 * 2 ^ 23
  | S754_nan => 255 * 2 ^ 23 + 2 ^ 22
  | S754_finite _ m e => (e + 149) * 2 ^ 23 + Z.pos m
  end.

(** [f32::total_cmp]: the order of the bit patterns, negative ones reversed.
    The sign of a NaN, which the language leaves open, is taken as positive. *)
Definition f32_key (a : f32) : Z :=
  match a with
  | S754_zero true | S754_infinity true | S754_finite true _ _ => - f32_bits a - 1
  | _ => f32_bits a
  end.
Definition total_cmp (a b : f32) : comparison := (f32_key a ?= f32_key b)%Z.

(** ** [f64] *)

Abbreviation f64 := spec_float.
Definition f64_of (n : Z) : f64 := binary_normalize 53 1024 n 0 false.
Definition f64_add : f64 -> f64 -> f64 := SFadd 53 1024.
Definition f64_mul : f64 -> f64 -> f64 := SFmul 53 1024.
Definition f64_div : f64 -> f64 -> f64 := SFdiv 53 1024.
Definition f64_opp : f64 -> f64 := SFopp.
Definition f64_lt : f64 -> f64 -> bool := SFltb.
Definition f64_ge (a b : f64) : bool := SFleb b a.
Definition is_finite (a : f64) : bool :=
  match a with S754_infinity _ | S754_nan => false | _ => true end.

(** [f64::round]: to an integer, halves away from zero. *)
Definition f64_round (a : f64) : f64 :=
  match a with
  | S754_finite s m e =>
      if (0 <=? e)%Z then a
      else
        let q := (2 * Z.pos m + 2 ^ (- e)) / 2 ^ (1 - e) in
        match q with
        | Z0 => S754_zero s
        | _ => let r := f64_of q in if s then f64_opp r else r
        end
  | _ => a
  end%Z.

(** [f64::to_string] as [serde_json] writes it, and [str::parse]. *)
Class FloatText := { f64_text : f64 -> string; f64_parse : string -> option f64 }.
Class FloatTextLaws `{FloatText} `{JsonText} : Prop := {
  f64_parse_text x : is_finite x = true -> f64_parse (f64_text x) = Some x;
  json_text_float t : json_text (VNumber (NFloat t)) = t
}.

(** [Value::from]: numbers that are not finite have no JSON form. *)
Definition value_of_f64 `{FloatText} (x : f64) : value :=
  if is_finite x then VNumber (NFloat (f64_text x)) else VNull.

(** ** Numbers of the [f32] format *)

Definition valid (x : f32) : Prop := valid_binary 24 128 x = true.

#[local] Abbreviation fexp32 := (fexp 24 128).

Lemma fexp32_spec k : fexp32 k = Z.max (k - 24) (-149).
Proof. reflexivity. Qed.

Lemma digits2_log2 p : Zpos (digits2_pos p) = (Z.log2 (Zpos p) + 1)%Z.
Proof.
  induction p as [p IH|p IH|]; [| |done]; cbn [digits2_pos]; rewrite Pos2Z.inj_succ, IH.
  - change (Zpos p~1) with (2 * Zpos p + 1)%Z. rewrite Z.log2_succ_double by lia. lia.
  - change (Zpos p~0) with (2 * Zpos p)%Z. rewrite Z.log2_double by lia. lia.
Qed.

(** The number of binary digits, zero for zero. *)
Lemma Zdigits2_bounds m : (0 <= m)%Z ->
  (0 <= Zdigits2 m)%Z /\ (m < 2 ^ Zdigits2 m)%Z /\ (m <> 0 -> 2 ^ (Zdigits2 m - 1) <= m)%Z /\ (0 < m -> 0 < Zdigits2 m)%Z.
Proof.
  intros Hm. destruct m as [|p|p]; [cbn; lia| |lia]. cbn [Zdigits2]. rewrite digits2_log2.
  pose proof (Z.log2_spec (Zpos p) ltac:(lia)) as [H1 H2]. pose proof (Z.log2_nonneg (Zpos p)).
  rewrite Z.add_simpl_r, Z.add_1_r. lia.
Qed.

Lemma Zdigits2_unique m k : (0 < k)%Z -> (2 ^ (k - 1) <= m < 2 ^ k)%Z -> Zdigits2 m = k.
Proof.
  intros Hk [Hl Hu]. assert (0 < m)%Z as Hm by (pose proof (Z.pow_pos_nonneg 2 (k - 1)); lia).
  destruct m as [|p|p]; [lia| |lia]. cbn [Zdigits2]. rewrite digits2_log2.
  rewrite (Z.log2_unique (Zpos p) (k - 1)); [lia|lia|]. by replace (Z.succ (k - 1)) with k by lia.
Qed.

Lemma shr_1_half r : (0 <= shr_m r)%Z -> shr_m (shr_1 r) = (shr_m r / 2)%Z.
Proof.
  destruct r as [[|[p|p|]|p] ? ?]; cbn [shr_1 shr_m]; intros Hm; try lia; try done.
  all: first [apply (Z.div_unique _ 2 _ 0); lia|apply (Z.div_unique _ 2 _ 1); lia].
Qed.

Lemma iter_shr p r : (0 <= shr_m r)%Z -> shr_m (SpecFloat.iter_pos shr_1 p r) = (shr_m r / 2 ^ Zpos p)%Z.
Proof.
  revert r. induction p as [p IH|p IH|]; intros r Hr; cbn [SpecFloat.iter_pos].
  - assert (0 <= shr_m (shr_1 r))%Z as H1 by (rewrite shr_1_half by done; apply Z.div_pos; lia).
    assert (0 <= shr_m (SpecFloat.iter_pos shr_1 p (shr_1 r)))%Z as H2.
    { rewrite IH by done. apply Z.div_pos; [done|]. apply Z.pow_pos_nonneg; lia. }
    rewrite (IH (SpecFloat.iter_pos shr_1 p (shr_1 r))), IH, shr_1_half by done. pose proof (Z.pow_pos_nonneg 2 (Zpos p)).
    rewrite !Z.div_div by nia. f_equal. change (Zpos p~1) with (2 * Zpos p + 1)%Z.
    replace (2 * Zpos p + 1)%Z with (1 + (Zpos p + Zpos p))%Z by lia. rewrite !Z.pow_add_r by lia. lia.
  - assert (0 <= shr_m (SpecFloat.iter_pos shr_1 p r))%Z as H2.
    { rewrite IH by done. apply Z.div_pos; [done|]. apply Z.pow_pos_nonneg; lia. }
    rewrite (IH (SpecFloat.iter_pos shr_1 p r)), IH by done. pose proof (Z.pow_pos_nonneg 2 (Zpos p)).
    rewrite Z.div_div by lia. f_equal. change (Zpos p~0) with (2 * Zpos p)%Z.
    replace (2 * Zpos p)%Z with (Zpos p + Zpos p)%Z by lia. by rewrite Z.pow_add_r by lia.
  - rewrite shr_1_half by done. by rewrite Z.pow_1_r.
Qed.

(** A mantissa whose exponent is at most the one of the format is shifted to
    the format. *)
Definition fits (m e : Z) : Prop := (0 <= m)%Z /\ (e <= fexp32 (Zdigits2 m + e))%Z.
Definition canonical (m e : Z) : Prop := (m = 0 /\ e = -149)%Z \/ (0 < m /\ fexp32 (Zdigits2 m + e) = e)%Z.

Lemma shr_nonneg r e n : (0 <= shr_m r)%Z -> (0 <= n)%Z ->
  shr_m (shr r e n).1 = (shr_m r / 2 ^ n)%Z /\ (shr r e n).2 = (e + n)%Z.
Proof.
  intros Hr Hn. destruct n as [|p|p]; [|by rewrite <- iter_shr|lia]. cbn. rewrite Z.div_1_r. lia.
Qed.

Lemma shr_fexp_canonical m e l : fits m e ->
  let '(r, e') := shr_fexp 24 128 m e l in canonical (shr_m r) e'.
Proof.
  intros [Hm He]. unfold shr_fexp.
  assert (shr_m (shr_record_of_loc m l) = m) as Hrec by (by destruct l as [|[]]).
  destruct (Zdigits2_bounds m Hm) as (Hd0 & Hu & Hl & Hpos). rewrite fexp32_spec in He.
  remember (fexp32 (Zdigits2 m + e) - e)%Z as n eqn:En. rewrite fexp32_spec in En.
  assert (0 <= n)%Z as Hn by lia. pose proof (shr_nonneg (shr_record_of_loc m l) e n) as Hs. rewrite Hrec in Hs.
  destruct (shr (shr_record_of_loc m l) e n) as [r e']. cbn [fst snd] in Hs. destruct (Hs Hm Hn) as [-> ->]. clear Hs Hrec.
  set (q := (m / 2 ^ n)%Z). pose proof (Z.pow_pos_nonneg 2 n ltac:(lia) Hn) as Hp2. unfold canonical. rewrite fexp32_spec.
  destruct (decide (Zdigits2 m <= n)%Z) as [Hle|Hgt].
  - left. assert (q = 0)%Z as ->.
    { apply Z.div_small. split; [done|]. eapply Z.lt_le_trans; [exact Hu|]. apply Z.pow_le_mono_r; lia. }
    split; [done|]. lia.
  - right. assert (m <> 0)%Z as Hne by (intros ->; cbn in *; lia). specialize (Hl Hne).
    assert (2 ^ (Zdigits2 m - n - 1) <= q < 2 ^ (Zdigits2 m - n))%Z as Hq.
    { split.
      + apply Z.div_le_lower_bound; [lia|]. rewrite <- Z.pow_add_r by lia. by replace (n + (Zdigits2 m - n - 1))%Z with (Zdigits2 m - 1)%Z by lia.
      + apply Z.div_lt_upper_bound; [lia|]. rewrite <- Z.pow_add_r by lia. by replace (n + (Zdigits2 m - n))%Z with (Zdigits2 m)%Z by lia. }
    rewrite (Zdigits2_unique q (Zdigits2 m - n)) by (lia || done).
    split; [|lia]. pose proof (Z.pow_pos_nonneg 2 (Zdigits2 m - n - 1)). lia.
Qed.

Lemma canonical_round m e l : canonical m e -> fits (round_nearest_even m l) e.
Proof.
  intros Hc. assert (round_nearest_even m l = m \/ round_nearest_even m l = m + 1)%Z as Hr.
  { destruct l as [|[]]; cbn; [by left| | by left|by right]. destruct (Z.even m); [by left|by right]. }
  assert (0 <= m /\ e <= fexp32 (Zdigits2 m + e))%Z as [Hm He].
  { destruct Hc as [[-> ->]|[? ->]]; [done|lia]. }
  destruct Hr as [->| ->]; [done|]. split; [lia|]. rewrite fexp32_spec in *.
  destruct (Zdigits2_bounds m Hm) as (? & ? & Hl & ?). destruct (Zdigits2_bounds (m + 1)) as (? & Hu & _ & ?); [lia|].
  assert (Zdigits2 m <= Zdigits2 (m + 1))%Z; [|lia].
  destruct (decide (m = 0)%Z) as [->|Hne]; [done|]. specialize (Hl Hne).
  assert (2 ^ (Zdigits2 m - 1) < 2 ^ Zdigits2 (m + 1))%Z as Hlt by lia. apply Z.pow_lt_mono_r_iff in Hlt; lia.
Qed.

Lemma binary_round_aux_valid s m e l : fits m e -> valid (binary_round_aux 24 128 s m e l).
Proof.
  intros Hf. unfold binary_round_aux. pose proof (shr_fexp_canonical m e l Hf) as Hc.
  destruct (shr_fexp 24 128 m e l) as [r e1]. pose proof (canonical_round _ _ (loc_of_shr_record r) Hc) as Hf2.
  pose proof (shr_fexp_canonical _ _ loc_Exact Hf2) as Hc2.
  destruct (shr_fexp 24 128 (round_nearest_even _ _) e1 loc_Exact) as [r2 e2].
  destruct (shr_m r2) as [|p|p]; [done| |done]. destruct (e2 <=? 128 - 24)%Z eqn:Hle; [|done].
  unfold valid. cbn [valid_binary]. unfold bounded. rewrite Hle, andb_true_r. unfold canonical_mantissa.
  apply Z.eqb_eq. destruct Hc2 as [[? _]|[_ ?]]; done.
Qed.

(** Rounding an integer times a power of two. *)
Lemma binary_normalize_valid m e z : valid (binary_normalize 24 128 m e z).
Proof.
  assert (forall s p, valid (binary_round 24 128 s p e)) as Hr; [|by destruct m; [|apply Hr..]].
  intros s p. unfold binary_round, shl_align. set (f := fexp32 (Zpos (digits2_pos p) + e)).
  destruct (f - e)%Z as [|d|d] eqn:Hd; apply binary_round_aux_valid; (split; [lia|]); cbn [Zdigits2]; [subst f; lia..|].
  assert (Zpos (Pos.iter xO p d) = Zpos p * 2 ^ Zpos d)%Z as Hit.
  { clear. induction d as [|d IH] using Pos.peano_ind; [cbn; lia|].
    rewrite Pos.iter_succ, Pos2Z.inj_succ, Z.pow_succ_r by lia.
    change (Zpos (Pos.iter xO p d)~0) with (2 * Zpos (Pos.iter xO p d))%Z. rewrite IH. lia. }
  rewrite digits2_log2, Hit, Z.log2_mul_pow2 by lia. subst f. rewrite digits2_log2, !fexp32_spec in *. lia.
Qed.

Lemma valid_canonical s m e : valid (S754_finite s m e) ->
  (0 < Zpos (digits2_pos m) <= 24)%Z /\ (-149 <= e <= 104)%Z /\ (Zpos (digits2_pos m) = 24 \/ e = -149)%Z.
Proof.
  unfold valid. cbn [valid_binary]. unfold bounded, canonical_mantissa. rewrite andb_true_iff, Z.eqb_eq, fexp32_spec, Z.leb_le.
  intros [He Hu]. lia.
Qed.

Lemma f32_mul_valid x y : valid x -> valid y -> valid (f32_mul x y).
Proof.
  intros Hx Hy. destruct x as [| | |sx mx ex], y as [| | |sy my ey]; try done.
  apply valid_canonical in Hx, Hy. apply binary_round_aux_valid. split; [lia|]. rewrite fexp32_spec.
  rewrite digits2_log2 in *. cbn [Zdigits2]. rewrite digits2_log2.
  pose proof (Z.log2_mul_below (Zpos mx) (Zpos my)). pose proof (Z.log2_nonneg (Zpos mx)).
  pose proof (Z.log2_nonneg (Zpos my)). change (Zpos (mx * my)) with (Zpos mx * Zpos my)%Z. lia.
Qed.

Lemma f32_add_valid x y : valid x -> valid y -> valid (f32_add x y).
Proof.
  intros Hx Hy. destruct x as [[]|[]| |sx mx ex], y as [[]|[]| |sy my ey]; try done; apply binary_normalize_valid.
Qed.

Lemma f32_div_valid x y : valid x -> valid y -> valid (f32_div x y).
Proof.
  intros Hx Hy. destruct x as [[]|[]| |sx mx ex], y as [[]|[]| |sy my ey]; try done.
  cbn [f32_div SFdiv]. unfold f32_div, SFdiv, SFdiv_core_binary.
  set (d := (Zdigits2 (Zpos mx) + ex - (Zdigits2 (Zpos my) + ey))%Z). set (e' := Z.min (fexp32 d) (ex - ey)).
  set (s := (ex - ey - e')%Z). set (m' := match s with Z0 => Zpos mx | Zpos _ => Z.shiftl (Zpos mx) s | Zneg _ => 0%Z end).
  assert (0 <= s)%Z as Hs by lia. assert (e' <= Z.max (d - 24) (-149))%Z as He' by (subst e'; rewrite fexp32_spec; lia).
  assert (s + e' = ex - ey)%Z as Hse by lia.
  assert (m' = Zpos mx * 2 ^ s)%Z as Hm'.
  { subst m'. destruct s as [|p|p]; [cbn; lia| |lia]. by rewrite Z.shiftl_mul_pow2. }
  pose proof (Z_div_mod m' (Zpos my) ltac:(lia)) as Hdm. destruct (Z.div_eucl m' (Zpos my)) as [q r] eqn:Hq.
  destruct Hdm as [Heq Hr]. apply binary_round_aux_valid. clearbody m'. subst m'.
  pose proof (Z.pow_pos_nonneg 2 s ltac:(lia) Hs) as Hp. assert (0 <= q)%Z as Hq0 by nia. split; [done|].
  rewrite fexp32_spec. assert (d - e' <= Zdigits2 q)%Z as Hdig; [|lia].
  destruct (Zdigits2_bounds q Hq0) as (Hd0 & Hqu & _ & _).
  destruct (Zdigits2_bounds (Zpos mx)) as (_ & _ & Hxl & _); [lia|]. specialize (Hxl ltac:(lia)).
  destruct (Zdigits2_bounds (Zpos my)) as (Hdy & Hyu & _ & _); [lia|].
  destruct (Zdigits2_bounds (Zpos mx)) as (Hdx & _ & _ & Hdx'); [lia|]. specialize (Hdx' ltac:(lia)).
  assert (2 ^ (Zdigits2 (Zpos mx) - 1 + s) < 2 ^ (Zdigits2 (Zpos my) + Zdigits2 q))%Z as Hlt.
  { rewrite !Z.pow_add_r by lia. assert (Zpos mx * 2 ^ s < 2 ^ Zdigits2 (Zpos my) * 2 ^ Zdigits2 q)%Z by nia. nia. }
  apply Z.pow_lt_mono_r_iff in Hlt; [|lia..]. lia.
Qed.

Lemma f32_of_valid n : valid (f32_of n).
Proof. apply binary_normalize_valid. Qed.
Lemma f32_of_Z_valid n : valid (f32_of_Z n).
Proof. apply binary_normalize_valid. Qed.
Lemma f32_lit_valid n d : valid (f32_lit n d).
Proof. apply f32_div_valid; apply f32_of_valid. Qed.

(** ** The order *)

Lemma f32_lt_irrefl x : f32_lt x x = false.
Proof.
  unfold f32_lt, SFltb. destruct x as [[]|[]| |[] m e]; cbn; try done; rewrite Z.compare_refl;
    change (Pos.compare_cont Eq m m) with (m ?= m)%positive; by rewrite Pos.compare_refl.
Qed.

(** What [SFcompare] says of two finite numbers of one sign. *)
Lemma compare_lt s m1 e1 m2 e2 : f32_lt (S754_finite s m1 e1) (S754_finite s m2 e2) = true <->
  if s then (e2 < e1)%Z \/ (e1 = e2 /\ (m2 < m1)%positive) else (e1 < e2)%Z \/ (e1 = e2 /\ (m1 < m2)%positive).
Proof.
  unfold f32_lt, SFltb. cbn [SFcompare]. change (Pos.compare_cont Eq m1 m2) with (m1 ?= m2)%positive.
  destruct s; destruct (Z.compare_spec e1 e2) as [->|?|?]; try (split; [try done; lia|lia]);
    try (destruct (Pos.compare_spec m1 m2) as [->|?|?]; cbn; split; intros; try done; lia).
Qed.

Lemma f32_lt_trans x y z : f32_lt x y = true -> f32_lt y z = true -> f32_lt x z = true.
Proof.
  destruct x as [[]|[]| |[] mx ex], y as [[]|[]| |[] my ey], z as [[]|[]| |[] mz ez]; try done;
    rewrite !compare_lt; lia.
Qed.

Lemma f32_bits_finite s m e : valid (S754_finite s m e) ->
  (0 < f32_bits (S754_finite s m e) < 255 * 2 ^ 23)%Z /\
  ((e + 149) * 2 ^ 23 <= f32_bits (S754_finite s m e) /\ Zpos m < 2 ^ 24 /\ (-149 <= e) /\ (-149 < e -> 2 ^ 23 <= Zpos m))%Z.
Proof.
  intros (Hd & He & Hc)%valid_canonical. destruct (Zdigits2_bounds (Zpos m)) as (_ & Hu & Hl & _); [lia|].
  specialize (Hl ltac:(lia)). cbn [Zdigits2] in *. set (k := Zpos (digits2_pos m)) in *.
  assert (2 ^ k <= 2 ^ 24)%Z as H24 by (apply Z.pow_le_mono_r; lia).
  assert (-149 < e -> 2 ^ 23 <= Zpos m)%Z as Hn.
  { intros He'. destruct Hc as [Hk|Hk]; [|lia]. rewrite Hk in Hl. exact Hl. }
  cbn [f32_bits]. change (2 ^ 24)%Z with 16777216%Z in *. change (2 ^ 23)%Z with 8388608%Z in *. lia.
Qed.

(** [total_cmp] refines [<]. *)
Lemma f32_lt_key x y : valid x -> valid y -> f32_lt x y = true -> (f32_key x < f32_key y)%Z.
Proof.
  intros Hx Hy. destruct x as [[]|[]| |[] mx ex], y as [[]|[]| |[] my ey]; try done;
    repeat match goal with H : valid (S754_finite _ _ _) |- _ => apply f32_bits_finite in H as [? (? & ? & ? & ?)] end;
    rewrite ?compare_lt; cbn [f32_key f32_bits] in *; change (2 ^ 24)%Z with 16777216%Z in *;
    change (2 ^ 23)%Z with 8388608%Z in *; try lia; try (intros ?; discriminate).
Qed.
Lemma f32_key_ge x y : valid x -> valid y -> (f32_key y <= f32_key x)%Z -> f32_lt x y = false.
Proof. intros Hx Hy Hk. destruct (f32_lt x y) eqn:Hlt; [|done]. apply f32_lt_key in Hlt; [lia|done..]. Qed.

(** [slice::sort_by(|a, b| b.total_cmp(a))] on the second components: a
    stable sort, greatest first. *)
Definition sort_desc {A} (l : list (A * f32)) : list (A * f32) := sort_by_key (fun x => - f32_key x.2)%Z l.
Definition desc {A} (l : list (A * f32)) : Prop := StronglySorted (fun a b => f32_key b.2 <= f32_key a.2)%Z l.

Lemma sort_desc_perm {A} (l : list (A * f32)) : sort_desc l ≡ₚ l.
Proof. apply sort_by_key_perm. Qed.
Lemma sort_desc_sorted {A} (l : list (A * f32)) : desc (sort_desc l).
Proof. eapply sorted_impl; [|apply sort_by_key_sorted]. cbn. lia. Qed.

(** ** Greatest and least *)

(** [Iterator::max_by] with [total_cmp]: the last of the greatest. *)
Definition max_by (l : list (nat * f32)) : option (nat * f32) :=
  foldl (fun best x => match best with
                       | None => Some x
                       | Some b => match total_cmp b.2 x.2 with Gt => Some b | _ => Some x end
                       end) None l.
(** [Iterator::min_by]: the first of the least. *)
Definition min_by (l : list (nat * f32)) : option (nat * f32) :=
  foldl (fun best x => match best with
                       | None => Some x
                       | Some b => match total_cmp b.2 x.2 with Gt => Some x | _ => Some b end
                       end) None l.

(** [b] is the last entry whose value is greatest in [total_cmp]. *)
Definition last_greatest (l : list (nat * f32)) (b : nat * f32) : Prop :=
  exists pre post, l = pre ++ b :: post /\ Forall (fun x => total_cmp x.2 b.2 <> Gt) pre /\
    Forall (fun x => total_cmp b.2 x.2 = Gt) post.

Lemma max_by_spec l : match max_by l with Some b => last_greatest l b | None => l = [] end.
Proof.
  unfold max_by. induction l as [|x l IH] using rev_ind; [done|]. rewrite foldl_app. cbn [foldl].
  destruct (foldl _ None l) as [b|].
  - destruct IH as (pre & post & -> & Hpre & Hpost). destruct (total_cmp b.2 x.2) eqn:Hc.
    3: { exists pre, (post ++ [x]). rewrite <- app_assoc. repeat split; [done|]. apply Forall_app. by repeat constructor. }
    all: exists (pre ++ b :: post), []; repeat split; [|constructor]; apply Forall_app; unfold total_cmp in *;
      (split; [eapply Forall_impl; [exact Hpre|]; cbn; intros y Hy Hg|constructor; [cbn in *; congruence|];
        eapply Forall_impl; [exact Hpost|]; cbn; intros y Hy Hg]);
      rewrite ?Z.compare_gt_iff, ?Z.compare_eq_iff, ?Z.compare_lt_iff in *; lia.
  - subst l. exists [], []. repeat split; constructor.
Qed.

Lemma max_by_elem l b : max_by l = Some b -> b ∈ l.
Proof. pose proof (max_by_spec l) as Hs. intros Hb. rewrite Hb in Hs. destruct Hs as (pre & post & -> & _). set_solver. Qed.

Lemma min_by_elem l : match min_by l with Some b => b ∈ l | None => l = [] end.
Proof.
  unfold min_by. induction l as [|x l IH] using rev_ind; [done|]. rewrite foldl_app. cbn [foldl].
  destruct (foldl _ None l) as [b|]; [destruct (total_cmp b.2 x.2)|]; set_solver.
Qed.
