(* ===== verification/Template.v ===== *)
(** * [sigil-ingest/src/template.rs]: online template mining

    A Drain-style miner: messages are bucketed by their number of words, the
    most similar template of the bucket is widened when it is similar enough,
    else the message starts a template of its own.  The similarity is the
    [f32] of the code: binary32 numbers of the Standard Library's executable
    specification of IEEE 754. *)

From stdpp Require Import gmap strings list.
From S2P Require Import Prelude Text Float.

(** ** Data *)

Definition WILDCARD : string := "<*>".

Record Mined : Type := mkMined { m_template_id : Z; m_template : string; m_variables : list string }.
Record Cluster : Type := mkCluster { cl_id : Z; cl_tokens : list string }.
Record TemplateMiner : Type := mkMiner { sim_threshold : f32; buckets : gmap nat (list Cluster); next_id : Z }.

Definition new_miner (sim_threshold : f32) : TemplateMiner := mkMiner sim_threshold ∅ 1.

(** ** Templates *)

Definition position_matches (t tok : string) : bool := bool_decide (t = WILDCARD) || bool_decide (t = tok).

Definition similarity (template tokens : list string) : f32 :=
  if is_nil template then f32_of 1
  else
    let matches := length (filter (fun p => Is_true (position_matches p.1 p.2)) (zip template tokens)) in
    f32_div (f32_of matches) (f32_of (length template)).

(** In place: positions beyond the message stay. *)
Fixpoint merge (template tokens : list string) : list string :=
  match template, tokens with
  | t :: ts, tok :: toks => (if position_matches t tok then t else WILDCARD) :: merge ts toks
  | _, _ => template
  end.

Definition variables (template tokens : list string) : list string :=
  (filter (fun p => p.1 = WILDCARD) (zip template tokens)).*2.

Definition mine (message : string) (m : TemplateMiner) : TemplateMiner * Mined :=
  let tokens := split_whitespace message in
  let n := length tokens in
  let id := next_id m in
  let bucket := default [] (buckets m !! n) in
  let best := max_by (imap (fun i c => (i, similarity (cl_tokens c) tokens)) bucket) in
  let fresh := (mkMiner (sim_threshold m) (<[n := bucket ++ [mkCluster id tokens]]> (buckets m)) (wrap_u64 (id + 1)),
                mkMined id (join " " tokens) []) in
  match best with
  | Some (i, sim) =>
      if f32_ge sim (sim_threshold m) then
        match bucket !! i with
        | Some c =>
            let c := mkCluster (cl_id c) (merge (cl_tokens c) tokens) in
            (mkMiner (sim_threshold m) (<[n := <[i := c]> bucket]> (buckets m)) id,
             mkMined (cl_id c) (join " " (cl_tokens c)) (variables (cl_tokens c) tokens))
        | None => fresh
        end
      else fresh
  | None => fresh
  end.

Definition template_count (m : TemplateMiner) : nat :=
  sum_list (length <$> (map_to_list (buckets m)).*2).

(** A run over the messages of a stream. *)
Fixpoint mine_all (messages : list string) (m : TemplateMiner) : TemplateMiner * list Mined :=
  match messages with
  | [] => (m, [])
  | s :: ss => let '(m, r) := mine s m in let '(m, rs) := mine_all ss m in (m, r :: rs)
  end.

(** ** Templates and the messages they stand for *)

(** The message of a template: its wildcards filled with the variables. *)
Fixpoint fill (template vars : list string) : list string :=
  match template with
  | [] => []
  | t :: ts =>
      if decide (t = WILDCARD) then match vars with v :: vs => v :: fill ts vs | [] => t :: fill ts [] end
      else t :: fill ts vars
  end.

Definition covers : list string -> list string -> Prop := Forall2 (fun t tok => t = WILDCARD \/ t = tok).
Definition widens : list string -> list string -> Prop := Forall2 (fun t t' => t' = t \/ t' = WILDCARD).

#[export] Instance widens_preorder : PreOrder widens.
Proof.
  split.
  - intros l. apply Forall2_same_length_lookup_2; [done|]. intros i x y Hx Hy. left. congruence.
  - intros a b c Hab. revert c. induction Hab as [|x y a b Hxy _ IH]; intros c Hbc; inversion Hbc; subst; [constructor|].
    constructor; [|by apply IH]. destruct Hxy, H1; subst; auto.
Qed.

Lemma covers_widens a b toks : widens a b -> covers a toks -> covers b toks.
Proof.
  intros Hab. revert toks. induction Hab as [|x y a b Hxy _ IH]; intros toks Hc; inversion Hc; subst; [constructor|].
  constructor; [|by apply IH]. naive_solver.
Qed.

Lemma covers_refl l : covers l l.
Proof. induction l; constructor; auto. Qed.

Lemma fill_nil l : fill l [] = l.
Proof. induction l as [|t l IH]; cbn; [done|]. by case_decide; rewrite IH. Qed.

Lemma fill_variables t toks : covers t toks -> fill t (variables t toks) = toks.
Proof.
  induction 1 as [|x tok t toks Hx _ IH]; [done|]. unfold variables in *. cbn [zip zip_with filter].
  rewrite filter_cons. cbn [fst]. case_decide; cbn [fmap list_fmap snd fill].
  - rewrite decide_True by done. by rewrite IH.
  - rewrite decide_False by done. rewrite IH. naive_solver.
Qed.

Lemma merge_spec t toks : length t = length toks ->
  widens t (merge t toks) /\ covers (merge t toks) toks /\ (Forall is_word t -> Forall is_word (merge t toks)).
Proof.
  revert toks. induction t as [|x t IH]; intros [|tok toks] Hl; try done; [repeat constructor; done|].
  injection Hl as Hl. destruct (IH _ Hl) as (Hw & Hc & Hws). cbn [merge]. unfold position_matches.
  destruct (decide (x = WILDCARD)) as [->|Hx]; [|destruct (decide (x = tok)) as [->|Ht]].
  - rewrite bool_decide_true by done. cbn [orb]. repeat split; [constructor; auto..|].
    intros [? ?]%Forall_cons. constructor; auto.
  - rewrite (bool_decide_true (tok = tok)), orb_true_r by done. repeat split; [constructor; auto..|].
    intros [? ?]%Forall_cons. constructor; auto.
  - rewrite !bool_decide_false by done. cbn [orb]. repeat split; [constructor; auto..|].
    intros [? ?]%Forall_cons. constructor; auto. by split.
Qed.

(** ** The miner's invariant *)

Definition bucket_of (m : TemplateMiner) (n : nat) : list Cluster := default [] (buckets m !! n).
Definition cluster_at (m : TemplateMiner) (n i : nat) (c : Cluster) : Prop := bucket_of m n !! i = Some c.

(** Clusters have as many words as their bucket says, their identifiers are
    fresh numbers each used once, and there is one for every number given. *)
Record miner_ok (m : TemplateMiner) : Prop := {
  ok_words : forall n i c, cluster_at m n i c -> length (cl_tokens c) = n /\ Forall is_word (cl_tokens c);
  ok_fresh : forall n i c, cluster_at m n i c -> (0 < cl_id c < next_id m)%Z;
  ok_once : forall n i c n' i' c', cluster_at m n i c -> cluster_at m n' i' c' -> cl_id c = cl_id c' -> n = n' /\ i = i';
  ok_count : Z.of_nat (template_count m) = (next_id m - 1)%Z
}.

Lemma new_miner_ok thr : miner_ok (new_miner thr).
Proof. split; try done; intros n i c Hc; cbv [cluster_at bucket_of new_miner buckets] in Hc; by rewrite lookup_empty in Hc. Qed.

Lemma bucket_of_insert thr bs n b k id : bucket_of (mkMiner thr (<[n := b]> bs) id) k = if decide (n = k) then b else default [] (bs !! k).
Proof.
  unfold bucket_of. cbn [buckets]. destruct (decide (n = k)) as [->|Hk]; [by rewrite lookup_insert_eq|by rewrite lookup_insert_ne].
Qed.

Lemma sum_list_perm l k : l ≡ₚ k -> sum_list l = sum_list k.
Proof. induction 1; cbn; lia. Qed.

Lemma template_count_insert thr thr' bs n b next next' :
  template_count (mkMiner thr (<[n := b]> bs) next) + length (default [] (bs !! n)) =
    template_count (mkMiner thr' bs next') + length b.
Proof.
  unfold template_count. cbn [buckets].
  assert (forall bs' : gmap nat (list Cluster), bs' !! n = None -> sum_list (length <$> (map_to_list (<[n := b]> bs')).*2) =
    length b + sum_list (length <$> (map_to_list bs').*2)) as Hins.
  { intros bs' Hn. rewrite (sum_list_perm _ (length <$> ((n, b) :: map_to_list bs').*2)); [done|].
    do 2 apply fmap_Permutation. by apply map_to_list_insert. }
  destruct (bs !! n) as [b0|] eqn:Hb; [change (default [] (Some b0)) with b0|rewrite Hins by done; cbn [default from_option length]; lia].
  rewrite <- insert_delete_eq, Hins by by rewrite lookup_delete_eq.
  rewrite (sum_list_perm (length <$> (map_to_list bs).*2) (length <$> ((n, b0) :: map_to_list (delete n bs)).*2)); 
    [rewrite !fmap_cons; change (sum_list (?x :: ?l)) with (x + sum_list l); cbn [snd]; lia|].
  do 2 apply fmap_Permutation. symmetry. by apply map_to_list_delete.
Qed.

(** What a mined message says: the template covers it and, filled with the
    variables, is the message. *)
Definition says (tokens : list string) (c : Cluster) (r : Mined) : Prop :=
  cl_id c = m_template_id r /\ m_template r = join " " (cl_tokens c) /\ covers (cl_tokens c) tokens /\
  fill (cl_tokens c) (m_variables r) = tokens.

(** How a miner grows: clusters stay where they are, with wider templates. *)
Definition grows (m m' : TemplateMiner) : Prop := forall n i c, cluster_at m n i c ->
  exists c', cluster_at m' n i c' /\ cl_id c' = cl_id c /\ widens (cl_tokens c) (cl_tokens c').

#[export] Instance grows_preorder : PreOrder grows.
Proof.
  split; [intros m n i c Hc; by exists c|]. intros a b c Hab Hbc n i x Hx.
  destruct (Hab _ _ _ Hx) as (y & Hy & Hi & Hw). destruct (Hbc _ _ _ Hy) as (z & Hz & Hi' & Hw').
  exists z. split; [done|]. split; [congruence|]. by etransitivity.
Qed.

(** The index of the cluster to widen, if the best one is similar enough. *)
Definition chosen (tokens : list string) (m : TemplateMiner) : option nat :=
  match max_by (imap (fun i c => (i, similarity (cl_tokens c) tokens)) (bucket_of m (length tokens))) with
  | Some (i, sim) => if f32_ge sim (sim_threshold m) then Some i else None
  | None => None
  end.

Lemma chosen_lookup tokens m i : chosen tokens m = Some i ->
  exists c, cluster_at m (length tokens) i c.
Proof.
  unfold chosen, cluster_at. pose proof (max_by_spec (imap (fun i c => (i, similarity (cl_tokens c) tokens)) (bucket_of m (length tokens)))) as Hb.
  destruct (max_by _) as [[j sim]|]; [|done]. destruct (f32_ge _ _); [|done]. intros [= ->].
  destruct Hb as (pre & post & Hl & _). pose proof (f_equal (.!! length pre) Hl) as Hi. cbn beta in Hi.
  rewrite list_lookup_middle, list_lookup_imap in Hi by done.
  destruct (bucket_of m (length tokens) !! length pre) as [c|] eqn:Hc; [|done]. cbn in Hi. injection Hi as Hi _. subst i. by exists c.
Qed.

Definition widened (tokens : list string) (c : Cluster) : Cluster := mkCluster (cl_id c) (merge (cl_tokens c) tokens).

Lemma mine_merges s m i c : let tokens := split_whitespace s in
  chosen tokens m = Some i -> cluster_at m (length tokens) i c ->
  mine s m =
    (mkMiner (sim_threshold m) (<[length tokens := <[i := widened tokens c]> (bucket_of m (length tokens))]> (buckets m)) (next_id m),
     mkMined (cl_id c) (join " " (merge (cl_tokens c) tokens)) (variables (merge (cl_tokens c) tokens) tokens)).
Proof.
  cbn zeta. unfold chosen, mine, cluster_at. fold (bucket_of m (length (split_whitespace s))).
  destruct (max_by _) as [[j sim]|]; [|done]. destruct (f32_ge _ _); [|done]. intros [= ->]. by intros ->.
Qed.

Lemma mine_fresh s m : let tokens := split_whitespace s in
  chosen tokens m = None ->
  mine s m =
    (mkMiner (sim_threshold m) (<[length tokens := bucket_of m (length tokens) ++ [mkCluster (next_id m) tokens]]> (buckets m))
       (wrap_u64 (next_id m + 1)), mkMined (next_id m) (join " " tokens) []).
Proof.
  cbn zeta. unfold chosen, mine. fold (bucket_of m (length (split_whitespace s))).
  destruct (max_by _) as [[j sim]|]; [|done]. by destruct (f32_ge _ _).
Qed.

Lemma cluster_at_insert thr (bs : gmap nat (list Cluster)) n b k i c id : cluster_at (mkMiner thr (<[n := b]> bs) id) k i c <->
  (n = k /\ b !! i = Some c) \/ (n <> k /\ default [] (bs !! k) !! i = Some c).
Proof. unfold cluster_at. rewrite bucket_of_insert. case_decide; naive_solver. Qed.

(** What one message does to a sound miner. *)
Definition stepped (tokens : list string) (m m' : TemplateMiner) (r : Mined) : Prop :=
  miner_ok m' /\ sim_threshold m' = sim_threshold m /\ (next_id m' <= next_id m + 1)%Z /\ grows m m' /\
  exists i c, cluster_at m' (length tokens) i c /\ says tokens c r.

Lemma mine_step_merge s m i c : miner_ok m -> let tokens := split_whitespace s in
  chosen tokens m = Some i -> cluster_at m (length tokens) i c -> stepped tokens m (mine s m).1 (mine s m).2.
Proof.
  intros Hok tokens Hch Hc. set (n := length tokens).
  rewrite (mine_merges s m i c Hch Hc). fold tokens. fold n in Hc |- *.
  destruct (ok_words m Hok _ _ _ Hc) as [Hlen Hw].
  destruct (merge_spec (cl_tokens c) tokens Hlen) as (Hwid & Hcov & Hws).
  assert (forall k j d, cluster_at (mkMiner (sim_threshold m) (<[n := <[i := widened tokens c]> (bucket_of m n)]> (buckets m)) (next_id m)) k j d ->
    exists d', cluster_at m k j d' /\ cl_id d' = cl_id d /\ (d = d' \/ k = n /\ d' = c /\ d = widened tokens c)) as Hback.
  { intros k j d [[<- Hd]|[_ Hd]]%cluster_at_insert; [|exists d; auto].
    destruct (decide (i = j)) as [<-|Hij].
    - rewrite list_lookup_insert_eq in Hd by by eapply lookup_lt_Some. injection Hd as <-. exists c. split; [done|]. split; [done|]. by right.
    - rewrite list_lookup_insert_ne in Hd by done. exists d. auto. }
  cbn [fst snd]. split_and!; [|done|cbn; lia| |].
  + split.
    * intros k j d (d' & Hd' & _ & Hcase)%Hback. destruct (ok_words m Hok _ _ _ Hd') as [Hl Hwd].
      destruct Hcase as [->|(-> & -> & ->)]; [done|]. cbn [widened cl_tokens]. split; [|auto].
      by rewrite <- (Forall2_length _ _ _ Hwid).
    * intros k j d (d' & Hd' & <- & _)%Hback. cbn. by eapply ok_fresh.
    * intros k j d k' j' d' (x & Hx & Hix & _)%Hback (y & Hy & Hiy & _)%Hback Hid. eapply (ok_once m Hok); [done..|congruence].
    * pose proof (template_count_insert (sim_threshold m) (sim_threshold m) (buckets m) n (<[i := widened tokens c]> (bucket_of m n)) (next_id m) (next_id m)) as Ht.
      rewrite length_insert in Ht. fold (bucket_of m n) in Ht. pose proof (ok_count m Hok) as Hcount. destruct m. cbn in *. lia.
  + intros k j d Hd. destruct (decide (k = n /\ j = i)) as [[-> ->]|Hne].
    * exists (widened tokens c). assert (d = c) as -> by (unfold cluster_at in *; congruence). split; [|done].
      apply cluster_at_insert. left. split; [done|]. apply list_lookup_insert_eq. by eapply lookup_lt_Some.
    * exists d. split; [|by split]. apply cluster_at_insert. destruct (decide (n = k)) as [->|Hk]; [|by right].
      left. split; [done|]. by rewrite list_lookup_insert_ne by naive_solver.
  + exists i, (widened tokens c). split.
    * apply cluster_at_insert. left. split; [done|]. apply list_lookup_insert_eq. by eapply lookup_lt_Some.
    * split; [done|]. split; [done|]. split; [done|]. by apply fill_variables.
Qed.

Lemma mine_step_fresh s m : miner_ok m -> (next_id m < u64_max)%Z -> let tokens := split_whitespace s in
  chosen tokens m = None -> stepped tokens m (mine s m).1 (mine s m).2.
Proof.
  intros Hok Hmax tokens Hch. pose proof (split_whitespace_words s) as Hwords. fold tokens in Hwords.
  set (n := length tokens).
  rewrite (mine_fresh s m Hch). fold tokens n. set (c := mkCluster (next_id m) tokens).
  assert (0 < next_id m)%Z as Hpos by (pose proof (ok_count m Hok); lia).
  assert (wrap_u64 (next_id m + 1) = next_id m + 1)%Z as Hnext by (unfold wrap_u64; rewrite Z.mod_small; unfold u64_max in *; lia).
  rewrite Hnext.
  assert (forall k j d, cluster_at (mkMiner (sim_threshold m) (<[n := bucket_of m n ++ [c]]> (buckets m)) (next_id m + 1)) k j d ->
    cluster_at m k j d \/ k = n /\ j = length (bucket_of m n) /\ d = c) as Hback.
  { intros k j d [[<- [Hd|[Hj Hd]]%lookup_app_Some]|[_ Hd]]%cluster_at_insert; [by left| |by left].
    right. apply list_lookup_singleton_Some in Hd as [Hj' ->]. split; [done|]. split; [lia|done]. }
  cbn [fst snd]. split_and!; [|done|cbn; lia| |].
  + split.
    * intros k j d [Hd|(-> & -> & ->)]%Hback; [by eapply ok_words|done].
    * intros k j d [Hd|(-> & -> & ->)]%Hback; cbn; [pose proof (ok_fresh m Hok _ _ _ Hd); lia|lia].
    * intros k j d k' j' d' [Hd|(-> & -> & ->)]%Hback [Hd'|(-> & -> & ->)]%Hback Hid; [by eapply (ok_once m Hok)| | |done].
      -- pose proof (ok_fresh m Hok _ _ _ Hd). cbn in Hid. lia.
      -- pose proof (ok_fresh m Hok _ _ _ Hd'). cbn in Hid. lia.
    * pose proof (template_count_insert (sim_threshold m) (sim_threshold m) (buckets m) n (bucket_of m n ++ [c]) (next_id m + 1) (next_id m)) as Ht.
      rewrite length_app in Ht. fold (bucket_of m n) in Ht. pose proof (ok_count m Hok) as Hcount. destruct m. cbn in *. lia.
  + intros k j d Hd. exists d. split; [|by split]. apply cluster_at_insert. destruct (decide (n = k)) as [->|Hk]; [|by right].
    left. split; [done|]. by apply lookup_app_l_Some.
  + exists (length (bucket_of m n)), c. split.
    * apply cluster_at_insert. left. split; [done|]. by rewrite list_lookup_middle.
    * split; [done|]. split; [done|]. split; [apply covers_refl|apply fill_nil].
Qed.

Lemma mine_step s m : miner_ok m -> (next_id m < u64_max)%Z -> stepped (split_whitespace s) m (mine s m).1 (mine s m).2.
Proof.
  intros Hok Hmax. destruct (chosen (split_whitespace s) m) as [i|] eqn:Hch; [|by apply mine_step_fresh].
  destruct (chosen_lookup _ _ _ Hch) as [c Hc]. by eapply mine_step_merge.
Qed.

(** What the miner still knows of a message it mined: the result gives the
    words back, and the cluster it names covers them with a template that
    only widened since. *)
Definition remembered (m : TemplateMiner) (s : string) (r : Mined) : Prop :=
  let tokens := split_whitespace s in
  fill (split_whitespace (m_template r)) (m_variables r) = tokens /\
  exists i c, cluster_at m (length tokens) i c /\ cl_id c = m_template_id r /\
    widens (split_whitespace (m_template r)) (cl_tokens c) /\ covers (cl_tokens c) tokens.

Lemma remembered_grows m m' s r : grows m m' -> remembered m s r -> remembered m' s r.
Proof.
  intros Hg [Hf (i & c & Hc & Hi & Hw & Hcov)]. split; [done|]. destruct (Hg _ _ _ Hc) as (c' & Hc' & Hi' & Hw').
  exists i, c'. split; [done|]. split; [congruence|]. split; [by etransitivity|by eapply covers_widens].
Qed.

Lemma mine_remembered s m : miner_ok m -> (next_id m < u64_max)%Z -> remembered (mine s m).1 s (mine s m).2.
Proof.
  intros Hok Hmax. destruct (mine_step s m Hok Hmax) as (Hok' & _ & _ & _ & i & c & Hc & Hid & Ht & Hcov & Hf).
  destruct (ok_words _ Hok' _ _ _ Hc) as [_ Hw]. unfold remembered.
  rewrite Ht, split_whitespace_join_words by done. split; [done|]. exists i, c. done.
Qed.

Lemma mine_all_run messages : forall m, miner_ok m -> (next_id m + Z.of_nat (length messages) <= u64_max)%Z ->
  miner_ok (mine_all messages m).1 /\ grows m (mine_all messages m).1 /\
  Forall2 (remembered (mine_all messages m).1) messages (mine_all messages m).2.
Proof.
  induction messages as [|s messages IH]; intros m Hok Hmax; cbn [mine_all]; [split; [done|]; split; [done|constructor]|].
  cbn [length] in Hmax. assert (next_id m < u64_max)%Z as Hlt by lia.
  pose proof (mine_remembered s m Hok Hlt) as Hr. destruct (mine_step s m Hok Hlt) as (Hok1 & _ & Hn & Hg & _).
  destruct (mine s m) as [m1 r]. cbn [fst snd] in *. destruct (IH m1 Hok1 ltac:(lia)) as (Hok2 & Hg2 & Hall).
  destruct (mine_all messages m1) as [m2 rs]. cbn [fst snd] in *. split; [done|]. split; [by etransitivity|].
  constructor; [by eapply remembered_grows|done].
Qed.

(** templates are stable names of shapes.  Over any stream of fewer than
    2^64 - 1 messages, whatever the threshold: every message can be read back
    from the template and the variables it was given; its template identifier
    names one cluster for good, whose template has only widened since and
    still covers the message, so messages with the same identifier have the
    same number of words; and the identifiers given are exactly the templates
    counted. *)
Theorem templates_stable thr messages : (Z.of_nat (length messages) < u64_max)%Z ->
  let '(m, rs) := mine_all messages (new_miner thr) in
  Forall2 (remembered m) messages rs /\
  (forall n i c n' i' c', cluster_at m n i c -> cluster_at m n' i' c' -> cl_id c = cl_id c' -> n = n' /\ i = i') /\
  Z.of_nat (template_count m) = (next_id m - 1)%Z.
Proof.
  intros Hn. destruct (mine_all_run messages (new_miner thr) (new_miner_ok thr)) as (Hok & _ & Hall); [cbn; lia|].
  destruct (mine_all messages (new_miner thr)) as [m rs]. cbn [fst snd] in *. split; [done|]. split; [apply Hok|apply Hok].
Qed.

(** which template a message gets.  The cluster of the bucket that is last
    among the most similar ones is widened if its similarity clears the
    threshold, and nothing else changes; else the message becomes a new
    template of its own. *)
Theorem mine_spec s m : miner_ok m -> (next_id m < u64_max)%Z ->
  let tokens := split_whitespace s in let n := length tokens in
  let sims := imap (fun i c => (i, similarity (cl_tokens c) tokens)) (bucket_of m n) in
  let '(m', r) := mine s m in
  (forall k, k <> n -> bucket_of m' k = bucket_of m k) /\
  ((exists i c sim, cluster_at m n i c /\ last_greatest sims (i, sim) /\ f32_ge sim (sim_threshold m) = true /\
      bucket_of m' n = <[i := mkCluster (cl_id c) (merge (cl_tokens c) tokens)]> (bucket_of m n) /\
      next_id m' = next_id m /\ m_template_id r = cl_id c) \/
   ((sims = [] \/ exists b, last_greatest sims b /\ f32_ge b.2 (sim_threshold m) = false) /\
      bucket_of m' n = bucket_of m n ++ [mkCluster (next_id m) tokens] /\
      next_id m' = (next_id m + 1)%Z /\ m_template_id r = next_id m /\ m_variables r = [])).
Proof.
  intros Hok Hmax tokens n sims. pose proof (max_by_spec sims) as Hb.
  destruct (chosen tokens m) as [i|] eqn:Hch.
  - destruct (chosen_lookup _ _ _ Hch) as [c Hc]. rewrite (mine_merges s m i c Hch Hc). fold tokens n in Hc |- *.
    split; [intros k Hk; rewrite bucket_of_insert; by rewrite decide_False|]. left. unfold chosen in Hch. fold n sims in Hch.
    destruct (max_by sims) as [[j sim]|]; [|done]. destruct (f32_ge sim _) eqn:Hge; [|done]. injection Hch as ->.
    exists i, c, sim. rewrite bucket_of_insert, decide_True by done. done.
  - rewrite (mine_fresh s m Hch). fold tokens n.
    split; [intros k Hk; rewrite bucket_of_insert; by rewrite decide_False|]. right. unfold chosen in Hch. fold n sims in Hch.
    rewrite bucket_of_insert, decide_True by done. cbn [next_id m_template_id m_variables]. split; [|split; [done|]; split; [|done]].
    + destruct (max_by sims) as [b|]; [|by left]. right. exists b. split; [done|]. destruct b as [j sim]. cbn [snd].
      by destruct (f32_ge sim _).
    + pose proof (ok_count m Hok). unfold wrap_u64. rewrite Z.mod_small; unfold u64_max in *; lia.
Qed.

Section demo.
Local Open Scope string_scope.

(** [TemplateMiner::default]. *)
Definition default_threshold : f32 := f32_div (f32_of 1) (f32_of 2).
Definition demo_lines : list string :=
  ["Failed password for admin from 10.0.0.9"; "Accepted publickey for alice"; "Failed password for bob from 10.0.0.5"]%list.

Lemma templates_stable_witness : let '(m, rs) := mine_all demo_lines (new_miner default_threshold) in
  Z.of_nat (template_count m) = 2%Z /\ (m_template <$> rs) !! 2 = Some "Failed password for <*> from <*>".
Proof.
  pose proof (templates_stable default_threshold demo_lines ltac:(vm_compute; reflexivity)) as Ht.
  destruct (mine_all demo_lines (new_miner default_threshold)) as [m rs] eqn:E. destruct Ht as (_ & _ & ->).
  vm_compute in E. injection E as <- <-. split; reflexivity.
Defined.

Lemma mine_spec_witness : let m := (mine_all (take 2 demo_lines) (new_miner default_threshold)).1 in
  let '(m', r) := mine "Failed password for bob from 10.0.0.5" m in next_id m' = next_id m /\ m_template_id r = 1%Z.
Proof.
  set (m := (mine_all (take 2 demo_lines) (new_miner default_threshold)).1). cbn zeta.
  assert (miner_ok m) as Hok by (apply mine_all_run; [apply new_miner_ok|vm_compute; discriminate]).
  pose proof (mine_spec "Failed password for bob from 10.0.0.5" m Hok ltac:(vm_compute; reflexivity)) as Hs.
  destruct (mine _ m) as [m' r] eqn:E. vm_compute in E. injection E as <- <-. split; reflexivity.
Defined.
End demo.
