(* ===== verification/Normalize.v ===== *)
(** * [sigil-normalize/src/lib.rs]: records as OCSF events

    One decoded record becomes one event: class, severity and entities are
    read off the fields and the text of the message, every field is carried
    over.  Unicode lowercasing and the text form of JSON values are
    parameters; a panic is the value [None]. *)

From stdpp Require Import strings list.
From S2P Require Import Prelude Utf8 Containers Core Text.

(** ** Small helpers *)

(** [str::find]: the byte offset of the first occurrence. *)
Definition find_str (p s : string) : option nat := (fun ab => String.length ab.1) <$> split_once p s.

(** [&s[i..]]: [None] is the panic off a character boundary or past the end. *)
Definition slice_from (s : string) (i : nat) : option string :=
  if is_char_boundary s i then Some (drop_bytes i s) else None.

Definition value_as_u64 (v : value) : option Z :=
  match v with
  | VNumber (NInt n) => if bool_decide (0 <= n <= u64_max)%Z then Some n else None
  | VString s => parse_u64 s
  | _ => None
  end.

Definition has_any (f : fields_t) (keys : list string) : bool :=
  existsb (fun k => bool_decide (is_Some (fields_get f k))) keys.

Definition set_host (h : EntityRef) (ev : Event) : Event :=
  mkEvent (ev_id ev) (ev_ts ev) (ingest_ts ev) (ocsf_class ev) (tenant ev) (severity ev) (Some h) (actor ev)
    (target ev) (message ev) (fields ev) (template_id ev) (labels ev) (raw ev).
Definition set_actor (a : EntityRef) (ev : Event) : Event :=
  mkEvent (ev_id ev) (ev_ts ev) (ingest_ts ev) (ocsf_class ev) (tenant ev) (severity ev) (host ev) (Some a)
    (target ev) (message ev) (fields ev) (template_id ev) (labels ev) (raw ev).
Definition set_target (t : EntityRef) (ev : Event) : Event :=
  mkEvent (ev_id ev) (ev_ts ev) (ingest_ts ev) (ocsf_class ev) (tenant ev) (severity ev) (host ev) (actor ev)
    (Some t) (message ev) (fields ev) (template_id ev) (labels ev) (raw ev).
Definition set_text (m r : string) (ev : Event) : Event :=
  mkEvent (ev_id ev) (ev_ts ev) (ingest_ts ev) (ocsf_class ev) (tenant ev) (severity ev) (host ev) (actor ev)
    (target ev) m (fields ev) (template_id ev) (labels ev) r.
Definition set_severity (s : Severity) (ev : Event) : Event :=
  mkEvent (ev_id ev) (ev_ts ev) (ingest_ts ev) (ocsf_class ev) (tenant ev) s (host ev) (actor ev)
    (target ev) (message ev) (fields ev) (template_id ev) (labels ev) (raw ev).
Definition set_class (c : OcsfClass) (ev : Event) : Event :=
  mkEvent (ev_id ev) (ev_ts ev) (ingest_ts ev) c (tenant ev) (severity ev) (host ev) (actor ev)
    (target ev) (message ev) (fields ev) (template_id ev) (labels ev) (raw ev).
Definition set_fields (f : fields_t) (ev : Event) : Event :=
  mkEvent (ev_id ev) (ev_ts ev) (ingest_ts ev) (ocsf_class ev) (tenant ev) (severity ev) (host ev) (actor ev)
    (target ev) (message ev) f (template_id ev) (labels ev) (raw ev).

Section normalize.
Context `{JsonText} `{Casing}.
Local Open Scope string_scope.

(** The first of the keys whose value has a text that is not empty. *)
Fixpoint first_str (f : fields_t) (keys : list string) : option string :=
  match keys with
  | [] => None
  | k :: ks =>
      match fields_get f k with
      | Some v => let s := value_to_string v in if is_empty_str s then first_str f ks else Some s
      | None => first_str f ks
      end
  end.

(** The offset is found in the lowercased text and used in the text itself. *)
Definition extract_user_from_message (msg : string) : option (option string) :=
  match find_str "for " (to_lowercase msg) with
  | None => Some None
  | Some i =>
      tail ← slice_from msg (i + 4);
      let tail := default tail (strip_prefix "invalid user " tail) in
      Some (head (split_whitespace tail))
  end.

Definition severity_from (f : fields_t) (msg : string) : Severity :=
  match fields_get f "syslog_severity" ≫= value_as_u64 with
  | Some sev =>
      if (sev <=? 2)%Z then Critical
      else match sev with 3 => High | 4 => Medium | 5 => Low | _ => Informational end%Z
  | None =>
      let lc := to_lowercase msg in
      if contains "failed" lc || contains "error" lc || contains "denied" lc then Medium else Informational
  end.

(** ** Classification *)

Definition auth_keys : list string := ["user"; "username"; "user.name"; "auth"; "logon_type"].
Definition auth_words : list string := ["authentication"; "failed password"; "login"; "logon"; "sshd"].
Definition user_keys : list string := ["user"; "username"; "user.name"; "user_name"].
Definition http_keys : list string := ["http_method"; "method"; "url"; "uri"; "http.request.method"; "status_code"].
Definition network_keys : list string :=
  ["src_ip"; "dst_ip"; "source.ip"; "destination.ip"; "dest_ip"; "dst_port"].
Definition process_keys : list string := ["process"; "process.name"; "cmd"; "command_line"; "exe"; "image"].

Definition looks_auth (f : fields_t) (msg : string) : bool :=
  has_any f auth_keys || existsb (fun w => contains w (to_lowercase msg)) auth_words.

Definition with_actor (k : string) (s : option string) (ev : Event) : Event :=
  match s with Some s => set_actor (EntityRef_new k s) ev | None => ev end.
Definition with_target (k : string) (s : option string) (ev : Event) : Event :=
  match s with Some s => set_target (EntityRef_new k s) ev | None => ev end.

Definition classify (f : fields_t) (msg : string) (ev : Event) : option (Event * OcsfClass) :=
  if looks_auth f msg then
    user ← match first_str f user_keys with Some u => Some (Some u) | None => extract_user_from_message msg end;
    let ev := with_actor "user" user ev in
    let ev := with_target "ip" (first_str f ["src_ip"; "source.ip"; "src"; "client_ip"]) ev in
    Some (ev, Authentication)
  else if has_any f http_keys then
    Some (with_target "url" (first_str f ["url"; "uri"; "url.full"]) ev, HttpActivity)
  else if has_any f network_keys then
    let ev := with_actor "ip" (first_str f ["src_ip"; "source.ip"; "src"]) ev in
    let ev := with_target "ip" (first_str f ["dst_ip"; "destination.ip"; "dest_ip"; "dst"]) ev in
    Some (ev, NetworkActivity)
  else if has_any f process_keys then
    Some (with_actor "process" (first_str f ["process"; "process.name"; "exe"; "image"]) ev, ProcessActivity)
  else if has_any f ["eventName"; "methodName"; "protoPayload"; "eventSource"] then Some (ev, ApiActivity)
  else match first_str f ["app"; "appname"; "tag"] with
       | Some app => if is_empty_str app then Some (ev, OcsfClass_default)
                     else Some (set_actor (EntityRef_new "process" app) ev, ProcessActivity)
       | None => Some (ev, OcsfClass_default)
       end.

Definition message_keys : list string := ["message"; "msg"; "event.original"].
Definition host_keys : list string := ["host"; "hostname"; "host.name"; "host_name"].
Definition message_of (f : fields_t) : string := default "" (first_str f message_keys).

(** [ulid] and [now] are the fresh identifier and the clock of [Event::new]. *)
Definition normalize (ulid : string) (now : Z) (tenant : string) (record : Rec) : option Event :=
  let ev := Event_new ulid now tenant in
  let f := rec_fields record in
  let msg := message_of f in
  let ev := set_text msg (rec_raw record) ev in
  let ev := match first_str f host_keys with
            | Some h => if is_empty_str h then ev else set_host (EntityRef_new "host" h) ev
            | None => ev
            end in
  let ev := set_severity (severity_from f msg) ev in
  '(ev, class) ← classify f msg ev;
  let ev := set_class class ev in
  Some (set_fields (foldl (fun m kv => fields_insert kv.1 kv.2 m) (fields ev) f) ev).
End normalize.

(** ** Lemmas *)

Lemma find_str_length p s i : find_str p s = Some i -> i + String.length p <= String.length s.
Proof.
  unfold find_str. rewrite fmap_Some. intros ([a b] & Hs%split_once_Some & ->). rewrite Hs. cbn [fst].
  rewrite !string_length_app. lia.
Qed.

Lemma to_ascii_lowercase_length s : String.length (to_ascii_lowercase s) = String.length s.
Proof. induction s as [|c s IH]; cbn; [done|]. by rewrite IH. Qed.

Lemma ascii_boundary s i : all_bytes is_ascii s = true -> i <= String.length s -> is_char_boundary s i = true.
Proof.
  unfold is_char_boundary. revert i. induction s as [|c s IH]; intros [|i] Hs Hi; cbn in Hi; try done; [lia|].
  cbn [all_bytes] in Hs. apply andb_true_iff in Hs as [Hc Hs]. specialize (IH i Hs ltac:(lia)).
  rewrite !orb_true_iff, !bool_decide_eq_true in *. cbn [String.get String.length].
  destruct IH as [[-> | ->]|IH]; [|by left; right|by right].
  destruct s as [|d s]; [left; right; done|]. right. cbn [all_bytes] in Hs. apply andb_true_iff in Hs as [Hd _].
  cbn [String.get]. unfold is_ascii in Hd. apply N.ltb_lt in Hd. unfold is_continuation.
  apply negb_true_iff, andb_false_iff. left. apply N.leb_gt. lia.
Qed.

(** Every word of a text is a part of it. *)
Lemma split_ws_part s : forall skip cur w, (skip = 0 \/ cur = EmptyString) -> w ∈ split_ws s skip cur ->
  contains w (cur +:+ s) = true /\ w <> EmptyString.
Proof.
  assert (forall cur r w, w ∈ flush_word cur -> contains w (cur +:+ r) = true /\ w <> EmptyString) as Hflush.
  { intros cur r w. unfold flush_word. destruct cur as [|c cur]; cbn [is_empty_str]; intros Hw; [by apply not_elem_of_nil in Hw|].
    apply list_elem_of_singleton in Hw as ->. split; [|done]. apply contains_spec. by exists ""%string, r. }
  induction s as [|c s IH]; intros skip cur w Hc Hw; cbn [split_ws] in Hw; [by apply Hflush|].
  assert (forall k, w ∈ split_ws s k "" -> contains w (cur +:+ String c s) = true /\ w <> EmptyString) as Hrest.
  { intros k Hk. destruct (IH k ""%string w (or_intror eq_refl) Hk) as [Hin Hne]. split; [|done].
    apply contains_spec in Hin as (u & v & Hin). rewrite string_app_nil_l in Hin. subst s.
    apply contains_spec. exists (cur +:+ String c u), v. by rewrite <- string_app_assoc. }
  destruct skip as [|k].
  - destruct (ws_len (String c s)) as [|k].
    + destruct (IH 0 (cur +:+ String c "") w (or_introl eq_refl) Hw) as [Hin Hne]. split; [|done].
      by rewrite <- string_app_assoc in Hin.
    + apply elem_of_app in Hw as [Hw|Hw]; [by apply Hflush|by eapply Hrest].
  - destruct Hc as [|Hc]; [done|]. subst cur. by eapply Hrest.
Qed.

Lemma contains_trans a b c : contains a b = true -> contains b c = true -> contains a c = true.
Proof.
  rewrite !contains_spec. intros (u & v & ->) (u' & v' & ->). exists (u' +:+ u), (v +:+ v').
  by rewrite !string_app_assoc.
Qed.

Lemma slice_part s i t : slice_from s i = Some t -> contains t s = true.
Proof.
  unfold slice_from. destruct (is_char_boundary s i); [|done]. intros [= <-]. destruct (drop_bytes_part i s) as [a Ha].
  apply contains_spec. exists a, ""%string. by rewrite string_app_nil_r.
Qed.

Section theorems.
Context `{JsonText} `{Casing}.
Local Open Scope string_scope.

Lemma first_str_spec f keys s : first_str f keys = Some s ->
  s <> EmptyString /\ exists k v, k ∈ keys /\ fields_get f k = Some v /\ value_to_string v = s.
Proof.
  induction keys as [|k ks IH]; cbn [first_str]; [done|].
  assert (first_str f ks = Some s -> s <> EmptyString /\
    exists k' v, k' ∈ k :: ks /\ fields_get f k' = Some v /\ value_to_string v = s) as Hrest.
  { intros Hs. destruct (IH Hs) as (Hne & k' & v & Hin & Hv). split; [done|]. exists k', v. split; [by right|done]. }
  destruct (fields_get f k) as [v|] eqn:Hv; [|done]. destruct (value_to_string v) eqn:Ht; cbn [is_empty_str]; [done|].
  intros [= <-]. split; [done|]. exists k, v. split; [by left|done].
Qed.

(** Where an entity comes from: a field of the record, or the message. *)
Definition sourced (f : fields_t) (msg : string) (e : EntityRef) : Prop :=
  entity_id e <> EmptyString /\
  ((exists k v, fields_get f k = Some v /\ value_to_string v = entity_id e) \/ contains (entity_id e) msg = true).

Lemma first_str_sourced f msg keys k s : first_str f keys = Some s -> sourced f msg (EntityRef_new k s).
Proof. intros (Hne & key & v & _ & Hv)%first_str_spec. split; [done|]. left. by exists key, v. Qed.

Lemma extract_part msg u : extract_user_from_message msg = Some (Some u) -> contains u msg = true /\ u <> EmptyString.
Proof.
  unfold extract_user_from_message. destruct (find_str _ _) as [i|]; [|done].
  destruct (slice_from msg (i + 4)) as [tail|] eqn:Ht; cbn [mbind option_bind]; [|done]. intros Hu%(inj Some).
  apply slice_part in Ht. apply head_Some_elem_of in Hu. apply split_ws_part in Hu as [Hu Hne]; [|by left].
  split; [|done]. rewrite string_app_nil_l in Hu. destruct (strip_prefix "invalid user " tail) as [r|] eqn:Hp; [|exact (contains_trans _ _ _ Hu Ht)].
  apply strip_prefix_Some in Hp. subst tail. apply (contains_trans _ r); [exact Hu|].
  eapply contains_trans; [|exact Ht]. apply contains_spec. exists "invalid user ", "". by rewrite string_app_nil_r.
Qed.

(** When the user cannot be cut out of the message. *)
Definition offset_off (msg : string) : Prop :=
  exists i, find_str "for " (to_lowercase msg) = Some i /\ is_char_boundary msg (i + 4) = false.

Lemma extract_panics msg : extract_user_from_message msg = None <-> offset_off msg.
Proof.
  unfold extract_user_from_message, offset_off, slice_from. destruct (find_str _ _) as [i|]; [|naive_solver].
  destruct (is_char_boundary msg (i + 4)) eqn:Hb; cbn [mbind option_bind]; naive_solver congruence.
Qed.

Lemma ascii_safe msg : all_bytes is_ascii msg = true -> ~ offset_off msg.
Proof.
  intros Ha (i & Hi & Hb). rewrite (to_lowercase_ascii msg Ha) in Hi. apply find_str_length in Hi.
  rewrite to_ascii_lowercase_length in Hi. cbn in Hi. rewrite ascii_boundary in Hb; [done|done|lia].
Qed.
(** The classes as a table of the fields that give them away, first row first. *)
Definition class_table : list (list string * OcsfClass) :=
  [(http_keys, HttpActivity); (network_keys, NetworkActivity); (process_keys, ProcessActivity);
   (["eventName"; "methodName"; "protoPayload"; "eventSource"], ApiActivity)].

Inductive classified (f : fields_t) (msg : string) : OcsfClass -> Prop :=
  | by_auth : looks_auth f msg = true -> classified f msg Authentication
  | by_row pre keys c post : looks_auth f msg = false -> class_table = (pre ++ (keys, c) :: post)%list ->
      Forall (fun row => has_any f row.1 = false) pre -> has_any f keys = true -> classified f msg c
  | by_app : looks_auth f msg = false -> Forall (fun row => has_any f row.1 = false) class_table ->
      is_Some (first_str f ["app"; "appname"; "tag"]) -> classified f msg ProcessActivity
  | by_default : looks_auth f msg = false -> Forall (fun row => has_any f row.1 = false) class_table ->
      first_str f ["app"; "appname"; "tag"] = None -> classified f msg OcsfClass_default.

Definition panics (f : fields_t) (msg : string) : Prop :=
  looks_auth f msg = true /\ first_str f user_keys = None /\ offset_off msg.

(** The event with other actor and target. *)
Definition acting (a t : option EntityRef) (ev : Event) : Event :=
  mkEvent (ev_id ev) (ev_ts ev) (ingest_ts ev) (ocsf_class ev) (tenant ev) (severity ev) (host ev) a t
    (message ev) (fields ev) (template_id ev) (labels ev) (raw ev).

Definition all_sourced (f : fields_t) (msg : string) (l : list (option EntityRef)) : Prop :=
  forall e, Some e ∈ l -> sourced f msg e.

Definition entity_of (k : string) (s : option string) : option EntityRef := EntityRef_new k <$> s.

Lemma first_str_all f msg k keys : all_sourced f msg [entity_of k (first_str f keys)].
Proof.
  intros e He%list_elem_of_singleton. unfold entity_of in He. destruct (first_str f keys) as [s|] eqn:Hs; [|done].
  injection He as ->. by eapply first_str_sourced.
Qed.

Lemma all_sourced_cons f msg x l : all_sourced f msg [x] -> all_sourced f msg l -> all_sourced f msg (x :: l).
Proof. intros Hx Hl e [He|He]%elem_of_cons; [apply Hx; rewrite He; by left|by apply Hl]. Qed.

Lemma all_sourced_none f msg l : all_sourced f msg l -> all_sourced f msg (None :: l).
Proof. intros Hl e [?|He]%elem_of_cons; [done|by apply Hl]. Qed.

Lemma all_sourced_nil f msg : all_sourced f msg [].
Proof. by intros e ?%not_elem_of_nil. Qed.

Lemma with_actor_acting k s a t ev : a = None ->
  with_actor k s (acting a t ev) = acting (entity_of k s) t ev.
Proof. intros ->. by destruct s. Qed.

Lemma with_target_acting k s a t ev : t = None ->
  with_target k s (acting a t ev) = acting a (entity_of k s) ev.
Proof. intros ->. by destruct s. Qed.

#[local] Hint Resolve first_str_all all_sourced_cons all_sourced_none all_sourced_nil : core.

(** What [classify] does to an event that has no entities yet. *)
Lemma classify_spec f msg ev :
  match classify f msg (acting None None ev) with
  | Some (ev', c) => ~ panics f msg /\ classified f msg c /\
      exists a t, ev' = acting a t ev /\ all_sourced f msg [a; t]
  | None => panics f msg
  end.
Proof.
  unfold classify. destruct (looks_auth f msg) eqn:Hauth.
  - assert (forall user, all_sourced f msg [entity_of "user" user] -> ~ panics f msg ->
      let ev' := with_target "ip" (first_str f ["src_ip"; "source.ip"; "src"; "client_ip"])
                   (with_actor "user" user (acting None None ev)) in
      ~ panics f msg /\ classified f msg Authentication /\ exists a t, ev' = acting a t ev /\ all_sourced f msg [a; t]) as Hgo.
    { intros user Hu Hp. cbn zeta. split; [done|]. split; [by apply by_auth|].
      rewrite with_actor_acting, with_target_acting by done. eexists _, _. split; [done|]. auto. }
    destruct (first_str f user_keys) as [u|] eqn:Hu.
    + cbn [mbind option_bind]. apply (Hgo (Some u)); [|intros (_ & ? & _); congruence]. intros e He%list_elem_of_singleton.
      injection He as ->. by eapply first_str_sourced.
    + destruct (extract_user_from_message msg) as [user|] eqn:Hx; cbn [mbind option_bind].
      * apply Hgo; [|intros (_ & _ & ?%extract_panics); congruence]. intros e He%list_elem_of_singleton.
        destruct user as [u|]; [|done]. injection He as ->. apply extract_part in Hx as [Hc Hne]. split; [done|]. by right.
      * split; [done|]. split; [done|]. by apply extract_panics.
  - assert (~ panics f msg) as Hp by (intros (? & _); congruence).
    destruct (has_any f http_keys) eqn:H1.
    { split; [done|]. split; [by apply (by_row f msg [] http_keys _ (drop 1 class_table))|].
      rewrite with_target_acting by done. eexists _, _. split; [done|]. auto. }
    destruct (has_any f network_keys) eqn:H2.
    { split; [done|]. split; [apply (by_row f msg (take 1 class_table) network_keys _ (drop 2 class_table)); repeat constructor; done|].
      rewrite with_actor_acting, with_target_acting by done. eexists _, _. split; [done|]. auto. }
    destruct (has_any f process_keys) eqn:H3.
    { split; [done|]. split; [apply (by_row f msg (take 2 class_table) process_keys _ (drop 3 class_table)); repeat constructor; done|].
      rewrite with_actor_acting by done. eexists _, _. split; [done|]. auto. }
    destruct (has_any f ["eventName"; "methodName"; "protoPayload"; "eventSource"]) eqn:H4.
    { split; [done|]. split; [eapply (by_row f msg (take 3 class_table)); [done|done|repeat constructor; done|done]|].
      eexists _, _. split; [done|]. auto. }
    assert (Forall (fun row => has_any f row.1 = false) class_table) as Hall by (repeat constructor; done).
    destruct (first_str f ["app"; "appname"; "tag"]) as [app|] eqn:Happ.
    + assert (app <> EmptyString) as Hne by by apply first_str_spec in Happ as [? _].
      destruct app as [|x app]; [done|]. cbn [is_empty_str]. split; [done|].
      split; [apply by_app; [done|done|by rewrite Happ]|]. eexists (Some _), _. split; [done|].
      apply all_sourced_cons; [|auto]. intros e He%list_elem_of_singleton. injection He as ->. by eapply first_str_sourced.
    + split; [done|]. split; [by apply by_default|]. eexists _, _. split; [done|]. auto.
Qed.

Lemma normalize_cases ulid now tn r : smap_wf (rec_fields r) ->
  let f := rec_fields r in let msg := message_of f in
  match normalize ulid now tn r with
  | Some ev => ~ panics f msg /\ exists c h a t, classified f msg c /\ all_sourced f msg [h; a; t] /\
      ev = mkEvent ulid now now c tn (severity_from f msg) h a t msg f None [] (rec_raw r)
  | None => panics f msg
  end.
Proof.
  intros Hwf. cbn zeta. set (f := rec_fields r) in *. set (msg := message_of f).
  unfold normalize. fold f. fold msg.
  set (ev0 := match first_str f host_keys with Some _ => _ | None => _ end).
  assert (exists h, ev0 = mkEvent ulid now now OcsfClass_default tn Severity_default h None None msg [] None [] (rec_raw r)
    /\ all_sourced f msg [h]) as (h & -> & Hh).
  { subst ev0. destruct (first_str f host_keys) as [s|] eqn:Hs.
    - destruct (first_str_spec _ _ _ Hs) as [Hne _]. destruct s as [|x s]; [done|]. cbn [is_empty_str].
      eexists (entity_of "host" (Some (String x s))). split; [done|]. rewrite <- Hs. apply first_str_all.
    - exists None. split; [done|]. apply all_sourced_none, all_sourced_nil. }
  set (ev1 := set_severity _ _).
  assert (ev1 = acting None None ev1) as -> by done.
  pose proof (classify_spec f msg ev1) as Hc. destruct (classify f msg _) as [[ev' c]|]; cbn [mbind option_bind]; [|done].
  destruct Hc as (Hp & Hcl & a & t & -> & Hat). split; [done|]. exists c, h, a, t. split; [done|].
  split; [by apply all_sourced_cons|]. unfold set_fields, set_class, acting, ev1. cbn.
  f_equal. by apply (smap_collect f []).
Qed.

(** C36: every record becomes one event, unless cutting the user out of the
    message panics, which happens exactly when the record looks like an
    authentication without a user field and the offset of [for ] in the
    lowercased message is off a character of the message; never for ASCII
    text.  The event has the tenant, the clock and the fresh identifier, the
    raw bytes, all the fields and the severity of the record, the class of
    the first row of the table that fits, and no entity that is not a
    non-empty field of the record or part of its message. *)
Theorem normalize_spec ulid now tn r : smap_wf (rec_fields r) ->
  let f := rec_fields r in let msg := message_of f in
  match normalize ulid now tn r with
  | Some ev => ~ panics f msg /\ exists c h a t, classified f msg c /\ all_sourced f msg [h; a; t] /\
      ev = mkEvent ulid now now c tn (severity_from f msg) h a t msg f None [] (rec_raw r)
  | None => panics f msg
  end /\
  (all_bytes is_ascii msg = true -> normalize ulid now tn r <> None).
Proof.
  intros Hwf. cbn zeta. pose proof (normalize_cases ulid now tn r Hwf) as Hn. cbn zeta in Hn. split; [exact Hn|].
  intros Ha Hnone. rewrite Hnone in Hn. destruct Hn as (_ & _ & Hoff). by apply (ascii_safe (message_of (rec_fields r))).
Qed.

Lemma normalize_raw ulid now tn r ev : normalize ulid now tn r = Some ev -> raw ev = rec_raw r.
Proof.
  unfold normalize. set (ev1 := set_severity _ _). assert (raw ev1 = rec_raw r) as Hraw.
  { unfold ev1, set_severity. cbn [raw]. by repeat case_match. }
  assert (ev1 = acting None None ev1) as Hact.
  { unfold ev1, set_severity, acting. cbn [ev_id ev_ts ingest_ts ocsf_class tenant severity host message fields template_id labels raw].
    by repeat case_match. }
  pose proof (classify_spec (rec_fields r) (message_of (rec_fields r)) ev1) as Hc. rewrite <- Hact in Hc.
  destruct (classify _ _ ev1) as [[ev' c]|]; cbn [mbind option_bind]; [|done].
  destruct Hc as (_ & _ & a & t & -> & _). intros Hev. injection Hev as <-. exact Hraw.
Qed.

Lemma to_ascii_lowercase_app a b : to_ascii_lowercase (a +:+ b) = to_ascii_lowercase a +:+ to_ascii_lowercase b.
Proof. induction a as [|c a IH]; [done|]. rewrite string_app_cons. cbn [to_ascii_lowercase]. by rewrite IH. Qed.

Lemma word_free w : all_bytes word_byte w = true -> free_of " " w = true.
Proof.
  apply all_bytes_impl. intros c Hc. apply negb_true_iff, bool_decide_eq_false. intros <-. done.
Qed.

Definition sshd_line (invalid : bool) (u r : string) : string :=
  "Failed password for " +:+ (if invalid then "invalid user " else "") +:+ u +:+ " from " +:+ r.

Lemma sshd_extract invalid u r : u <> EmptyString -> all_bytes word_byte u = true -> all_bytes is_ascii r = true ->
  extract_user_from_message (sshd_line invalid u r) = Some (Some u).
Proof.
  intros Hne Hu Hr. set (t := (if invalid then "invalid user " else "") +:+ u +:+ " from " +:+ r).
  assert (all_bytes is_ascii (sshd_line invalid u r) = true) as Ha.
  { unfold sshd_line. rewrite !all_bytes_app, Hr. rewrite (all_bytes_impl word_byte is_ascii u word_byte_ascii Hu).
    by destruct invalid. }
  unfold extract_user_from_message. rewrite to_lowercase_ascii by done.
  change (sshd_line invalid u r) with ("Failed password for " +:+ t) in *. rewrite to_ascii_lowercase_app.
  assert (forall y, find_str "for " ("failed password for " +:+ y) = Some 16) as Hfind by reflexivity.
  change (to_ascii_lowercase "Failed password for ") with "failed password for ". rewrite Hfind.
  unfold slice_from. rewrite ascii_boundary; [|done|rewrite string_length_app; cbn; lia].
  change (16 + 4) with (String.length "Failed password for "). rewrite drop_bytes_app. cbn [mbind option_bind]. f_equal.
  assert (head (split_whitespace (u +:+ " from " +:+ r)) = Some u) as Hh.
  { change (" from " +:+ r) with (String " " ("from " +:+ r)).
    by rewrite split_whitespace_space, split_whitespace_word. }
  subst t. destruct invalid.
  - rewrite (proj2 (strip_prefix_Some "invalid user " _ (u +:+ " from " +:+ r)) eq_refl). exact Hh.
  - rewrite string_app_nil_l. destruct (strip_prefix "invalid user " _) as [x|] eqn:Hp; [|exact Hh].
    apply strip_prefix_Some in Hp. exfalso.
    pose proof (split_once_char " " u ("from " +:+ r) (word_free u Hu)) as H1.
    pose proof (split_once_char " " "invalid" ("user " +:+ x) eq_refl) as H2.
    change ("invalid" +:+ String " " ("user " +:+ x)) with ("invalid user " +:+ x) in H2.
    change (String " " ("from " +:+ r)) with (" from " +:+ r) in H1. rewrite Hp, H2 in H1. by injection H1.
Qed.

(** a failed sshd login names its user.  A record whose message is
    sshd's line for a failed password, for a valid or an invalid user, and
    that has no user field, becomes an authentication event of that user, of
    medium severity unless the record carries its own. *)
Theorem sshd_user_named ulid now tn r invalid u rest :
  first_str (rec_fields r) user_keys = None -> message_of (rec_fields r) = sshd_line invalid u rest ->
  u <> EmptyString -> all_bytes word_byte u = true -> all_bytes is_ascii rest = true ->
  exists ev, normalize ulid now tn r = Some ev /\ ocsf_class ev = Authentication /\
    actor ev = Some (EntityRef_new "user" u) /\
    (fields_get (rec_fields r) "syslog_severity" = None -> severity ev = Medium).
Proof.
  intros Huser Hmsg Hne Hu Hr. pose proof (sshd_extract invalid u rest Hne Hu Hr) as Hx.
  assert (forall w, contains w "failed password for " = true -> contains w (to_lowercase (sshd_line invalid u rest)) = true) as Hlc.
  { intros w Hw. rewrite to_lowercase_ascii.
    2: { unfold sshd_line. rewrite !all_bytes_app, Hr, (all_bytes_impl word_byte is_ascii u word_byte_ascii Hu). by destruct invalid. }
    unfold sshd_line. rewrite to_ascii_lowercase_app. eapply contains_trans; [exact Hw|]. apply contains_spec.
    by eexists "", _. }
  unfold normalize. rewrite Hmsg. unfold classify.
  assert (looks_auth (rec_fields r) (sshd_line invalid u rest) = true) as ->.
  { unfold looks_auth. apply orb_true_iff. right. unfold auth_words. cbn [existsb].
    rewrite (Hlc "failed password" eq_refl). by rewrite !orb_true_r. }
  rewrite Huser, Hx. cbn [mbind option_bind]. eexists. split; [done|]. split; [done|]. split.
  - by destruct (first_str (rec_fields r) ["src_ip"; "source.ip"; "src"; "client_ip"]).
  - intros Hs. assert (severity_from (rec_fields r) (sshd_line invalid u rest) = Medium) as Hsev.
    { unfold severity_from. rewrite Hs. cbn [mbind option_bind]. by rewrite (Hlc "failed" eq_refl). }
    destruct (first_str (rec_fields r) ["src_ip"; "source.ip"; "src"; "client_ip"]); exact Hsev.
Qed.

(** U+0130 takes two bytes, its lowercase form three. *)
Definition dotted_i : string := String "196" (String "176" "").
Definition dotted_i_lower : string := "i" +:+ String "204" (String "135" "").

(** the offset is one of another text.  Unicode lowercasing makes some
    characters longer, so an offset of the lowercased message can lie past
    the end of the message, and cutting the user out of it panics. *)
Theorem lowercase_offset_panics ulid now tn :
  to_lowercase ("login " +:+ dotted_i +:+ dotted_i +:+ "for x") =
    "login " +:+ dotted_i_lower +:+ dotted_i_lower +:+ "for x" ->
  normalize ulid now tn (from_pairs [("message", "login " +:+ dotted_i +:+ dotted_i +:+ "for x")]) = None.
Proof.
  intros Hl. unfold normalize, message_of. cbn [from_pairs rec_fields foldl fst snd].
  change (first_str _ message_keys) with (Some ("login " +:+ dotted_i +:+ dotted_i +:+ "for x")).
  cbn [default from_option]. unfold id, classify.
  assert (looks_auth (fields_insert "message" (VString ("login " +:+ dotted_i +:+ dotted_i +:+ "for x")) [])
    ("login " +:+ dotted_i +:+ dotted_i +:+ "for x") = true) as ->.
  { unfold looks_auth. rewrite Hl. reflexivity. }
  change (first_str _ user_keys) with (@None string). cbn iota beta.
  unfold extract_user_from_message. rewrite Hl. reflexivity.
Qed.
End theorems.

Section demo.
Local Open Scope string_scope.
#[local] Existing Instance demo_lower.
#[local] Instance demo_text : JsonText := fun _ => "null".

Definition sshd_record : Rec :=
  from_pairs [("host", "web01"); ("message", "Failed password for invalid user admin from 10.0.0.9"); ("src_ip", "10.0.0.9")].

Lemma sshd_user_named_witness :
  exists ev, normalize "id" 0 "acme" sshd_record = Some ev /\ actor ev = Some (EntityRef_new "user" "admin").
Proof.
  destruct (sshd_user_named "id" 0 "acme" sshd_record true "admin" "10.0.0.9") as (ev & Hev & _ & Ha & _);
    [reflexivity|reflexivity|discriminate|reflexivity|reflexivity|]. exists ev. split; [exact Hev|exact Ha].
Defined.

Lemma normalize_spec_witness :
  normalize "id" 0 "acme" sshd_record <> None.
Proof.
  apply (normalize_spec "id" 0 "acme" sshd_record); [|reflexivity].
  unfold smap_wf. vm_compute. repeat constructor.
Defined.

(** Lowercasing that knows one character beyond ASCII. *)
Definition dotted_text : string := "login " +:+ dotted_i +:+ dotted_i +:+ "for x".
Definition dotted_lower (s : string) : string :=
  if decide (s = dotted_text) then "login " +:+ dotted_i_lower +:+ dotted_i_lower +:+ "for x" else to_ascii_lowercase s.

Lemma dotted_lower_ascii s : all_bytes is_ascii s = true -> dotted_lower s = to_ascii_lowercase s.
Proof. intros Hs. unfold dotted_lower. rewrite decide_False; [done|]. intros ->. done. Qed.

Definition dotted_casing : Casing :=
  {| to_lowercase := dotted_lower; to_uppercase := to_ascii_uppercase;
     to_lowercase_ascii := dotted_lower_ascii; to_uppercase_ascii s _ := eq_refl |}.

Lemma lowercase_offset_panics_witness :
  @normalize demo_text dotted_casing "id" 0 "acme" (from_pairs [("message", dotted_text)]) = None.
Proof. apply (@lowercase_offset_panics demo_text dotted_casing). reflexivity. Defined.
End demo.
