(* ===== verification/Plugin.v ===== *)
(** * [sigil-plugin-wasm]: what a plugin must show before it runs

    Capabilities and their policy, module signatures, the gate of the host,
    and the [plugin] commands of the command line.  The ed25519 operations,
    the WAT parser and the WASM engine are parameters. *)

From stdpp Require Import strings list.
From S2P Require Import Prelude Text Containers Core.

Local Open Scope string_scope.

(** ** Capabilities *)

Inductive Capability : Set :=
  | NetEgress
  | ReadField (field : string)
  | Enrich (name : string).

#[export] Instance Capability_eq_dec : EqDecision Capability.
Proof. solve_decision. Defined.

Definition parse_capability (s : string) : result Capability :=
  let s := trim s in
  match strip_prefix "read:field:" s with
  | Some field => Ok (ReadField field)
  | None =>
      match strip_prefix "enrich:" s with
      | Some name => Ok (Enrich name)
      | None => if decide (s = "net:egress") then Ok NetEgress else Err Config
      end
  end.

Definition capability_str (c : Capability) : string :=
  match c with
  | NetEgress => "net:egress"
  | ReadField f => "read:field:" +:+ f
  | Enrich e => "enrich:" +:+ e
  end.

(** [CapabilityPolicy] is the list of the capabilities allowed. *)
Definition CapabilityPolicy : Set := list Capability.

Definition from_strings (items : list string) : result CapabilityPolicy := traverse parse_capability items.

Definition grants (p : CapabilityPolicy) (c : Capability) : bool := bool_decide (c ∈ p).

(** [Err] of the code is the list of the denied capabilities. *)
Definition check (p : CapabilityPolicy) (requested : list Capability) : unit + list string :=
  let denied := capability_str <$> filter (fun c => grants p c = false) requested in
  if is_nil denied then inl () else inr denied.

(** ** Hexadecimal *)

Definition nibble (d : N) : ascii := ascii_of_N (if (d <? 10)%N then 48 + d else 87 + d)%N.

Fixpoint encode_hex (bytes : string) : string :=
  match bytes with
  | EmptyString => ""
  | String c r => String (nibble (N_of_ascii c / 16)) (String (nibble (N_of_ascii c mod 16)) (encode_hex r))
  end.

Definition is_ascii_hexdigit (c : ascii) : bool := bool_decide (is_Some (hex_digit_value c)).

(** The bytes of the pairs of digits; [None] for an odd one or another byte. *)
Fixpoint hex_pairs (s : string) : option string :=
  match s with
  | EmptyString => Some ""
  | String a (String b r) =>
      x ← hex_digit_value a; y ← hex_digit_value b; t ← hex_pairs r;
      Some (String (ascii_of_N (Z.to_N (x * 16 + y))) t)
  | String _ EmptyString => None
  end.
Definition decode_hex (s : string) : result string := ok_or (hex_pairs (trim s)) Config.

(** ** Signatures *)

(** [ed25519_dalek]: a verifying key from its 32 bytes, [Verifier::verify]
    of a 64-byte signature, and the signing side of a 32-byte secret key. *)
Class Ed25519 := {
  VerifyingKey : Type;
  key_of_bytes : string -> option VerifyingKey;
  key_verify : VerifyingKey -> string -> string -> bool;
  sign : string -> string -> string;
  public_key : string -> string
}.

(** The properties of the signature scheme that the commands rely on. *)
Class Ed25519Laws `{Ed25519} : Prop := {
  sign_length sk m : String.length sk = 32%nat -> String.length (sign sk m) = 64%nat;
  public_key_length sk : String.length sk = 32%nat -> String.length (public_key sk) = 32%nat;
  public_key_valid sk : String.length sk = 32%nat -> exists k, key_of_bytes (public_key sk) = Some k /\
    forall m, key_verify k m (sign sk m) = true
}.

Section signatures.
Context `{Ed25519}.

(** [SignaturePolicy] is the list of the trusted keys. *)
Definition SignaturePolicy : Type := list VerifyingKey.

(** A byte array of a fixed length from a slice. *)
Definition exactly (n : nat) (bytes : string) : result string :=
  if decide (String.length bytes = n) then Ok bytes else Err Config.

Definition from_hex_key (k : string) : result VerifyingKey :=
  bytes ← decode_hex k; bytes ← exactly 32 bytes; ok_or (key_of_bytes bytes) Config.
Definition from_hex_keys (keys : list string) : result SignaturePolicy := traverse from_hex_key keys.

Definition required (p : SignaturePolicy) : bool := negb (is_nil p).

Definition verify (p : SignaturePolicy) (module : string) (signature_hex : option string) : result unit :=
  if negb (required p) then Ok ()
  else
    sig_hex ← ok_or signature_hex Other;
    bytes ← decode_hex sig_hex;
    sig ← exactly 64 bytes;
    if existsb (fun k => key_verify k module sig) p then Ok () else Err Other.

Definition sign_module (secret_key module : string) : string := encode_hex (sign secret_key module).
Definition public_key_hex (secret_key : string) : string := encode_hex (public_key secret_key).
End signatures.

(** ** Manifest and host *)

Record WasmManifest : Set := mkManifest {
  wm_name : string; wm_version : string; wm_kind : string; wm_path : option string;
  wm_capabilities : list string; wm_signature : option string
}.

Definition requested_capabilities (m : WasmManifest) : result (list Capability) :=
  traverse parse_capability (wm_capabilities m).

Inductive PluginSource : Set := Wat (text : string) | Wasm (bytes : string).

(** [wat::parse_str], and compiling and linking a module with wasmtime: an
    instance or an error. *)
Class WasmEngine := {
  instance : Type;
  wat_parse : string -> option string;
  wasm_instantiate : string -> option instance
}.

Section host.
Context `{Ed25519} `{WasmEngine}.

Record LoadedPlugin : Type := mkPlugin { lp_granted : list Capability; lp_instance : instance }.

Definition instantiate (signatures : SignaturePolicy) (manifest : WasmManifest) (policy : CapabilityPolicy)
    (source : PluginSource) : result LoadedPlugin :=
  requested ← requested_capabilities manifest;
  match check policy requested with
  | inr _ => Err Other
  | inl _ =>
      bytes ← match source with Wat text => ok_or (wat_parse text) Backend | Wasm b => Ok b end;
      match verify signatures bytes (wm_signature manifest) with
      | Err _ => Err Other
      | Ok _ =>
          inst ← ok_or (wasm_instantiate bytes) Backend;
          Ok (mkPlugin requested inst)
      end
  end.

(** ** [sigil plugin] *)

(** [plugin verify]: [true] is the success exit code.  [module] is what
    reading the file at the manifest's path gives. *)
Definition cmd_plugin_verify (m : WasmManifest) (allow trust : list string) (module : result string) : result bool :=
  requested ← requested_capabilities m;
  policy ← from_strings allow;
  match check policy requested with
  | inr _ => Ok false
  | inl _ =>
      if is_nil trust then Ok true
      else
        signatures ← from_hex_keys trust;
        _ ← ok_or (wm_path m) Config;
        module ← module;
        match verify signatures module (wm_signature m) with
        | Err _ => Ok false
        | Ok _ => Ok true
        end
  end.

(** [plugin sign]: the signature and the public key it prints. *)
Definition cmd_plugin_sign (module : result string) (key : string) : result (string * string) :=
  bytes ← module;
  let key := trim key in
  if negb ((String.length key =? 64)%nat && all_bytes is_ascii_hexdigit key) then Err Config
  else
    secret ← ok_or (hex_pairs key) Config;
    Ok (sign_module secret bytes, public_key_hex secret).
End host.

(** ** Lemmas *)

(** A digit, case by case. *)
Ltac each_nibble d := assert (d = 0 \/ d = 1 \/ d = 2 \/ d = 3 \/ d = 4 \/ d = 5 \/ d = 6 \/ d = 7 \/ d = 8 \/
  d = 9 \/ d = 10 \/ d = 11 \/ d = 12 \/ d = 13 \/ d = 14 \/ d = 15)%N by lia; destruct_or!; subst; reflexivity.

Lemma nibble_value d : (d < 16)%N -> hex_digit_value (nibble d) = Some (Z.of_N d).
Proof. intros. each_nibble d. Qed.

Lemma nibble_word d : (d < 16)%N -> word_byte (nibble d) = true.
Proof. intros. each_nibble d. Qed.

Lemma byte_nibbles c : (N_of_ascii c / 16 < 16)%N /\ (N_of_ascii c mod 16 < 16)%N.
Proof.
  pose proof (N_ascii_bounded c). split; [apply N.Div0.div_lt_upper_bound; lia|apply N.mod_lt; lia].
Qed.

Lemma hex_pairs_encode b : hex_pairs (encode_hex b) = Some b.
Proof.
  induction b as [|c b IH]; [done|]. cbn [encode_hex hex_pairs]. destruct (byte_nibbles c) as [Hh Hl].
  rewrite !nibble_value by done. cbn [mbind option_bind]. rewrite IH. cbn [mbind option_bind]. do 2 f_equal.
  rewrite <- (ascii_N_embedding c) at 3. f_equal. pose proof (N.div_mod (N_of_ascii c) 16). lia.
Qed.

Lemma encode_hex_word b : all_bytes word_byte (encode_hex b) = true.
Proof.
  induction b as [|c b IH]; [done|]. cbn [encode_hex all_bytes]. destruct (byte_nibbles c) as [Hh Hl].
  by rewrite !nibble_word.
Qed.

Lemma decode_encode_hex b : decode_hex (encode_hex b) = Ok b.
Proof.
  unfold decode_hex. assert (trim (encode_hex b) = encode_hex b) as ->; [|by rewrite hex_pairs_encode].
  destruct b as [|c b]; [done|]. apply edged_trim, word_edged; [done|apply encode_hex_word].
Qed.

Lemma hex_pairs_Some n s : String.length s = (2 * n)%nat -> all_bytes is_ascii_hexdigit s = true ->
  exists t, hex_pairs s = Some t /\ String.length t = n.
Proof.
  revert s. induction n as [|n IH]; intros s Hl Hs; [destruct s; [by exists ""|done]|].
  destruct s as [|a [|b s]]; cbn in Hl; [lia..|]. cbn [all_bytes] in Hs.
  apply andb_true_iff in Hs as [[x Ha]%bool_decide_eq_true [[y Hb]%bool_decide_eq_true Hs]%andb_true_iff].
  destruct (IH s ltac:(lia) Hs) as (t & Ht & Hlen). cbn [hex_pairs]. rewrite Ha, Hb, Ht. cbn [mbind option_bind].
  eexists. split; [done|]. cbn. by rewrite Hlen.
Qed.

Lemma check_spec p l : check p l = inl () <-> forall c, c ∈ l -> c ∈ p.
Proof.
  unfold check. assert (filter (fun c => grants p c = false) l = [] <-> forall c, c ∈ l -> c ∈ p) as <-.
  { unfold grants. induction l as [|c l IH]; [split; [by intros _ c ?%not_elem_of_nil|done]|].
    rewrite filter_cons. destruct (decide (c ∈ p)) as [Hc|Hc].
    - rewrite decide_False by (by rewrite bool_decide_true). rewrite IH. setoid_rewrite elem_of_cons. naive_solver.
    - rewrite decide_True by (by rewrite bool_decide_false). split; [done|]. intros Hall. destruct Hc. apply Hall. by left. }
  destruct (filter _ _); cbn; naive_solver.
Qed.

(** Capabilities are read back from their text. *)
Lemma parse_capability_str c : trim (capability_str c) = capability_str c -> parse_capability (capability_str c) = Ok c.
Proof.
  unfold parse_capability. intros ->. destruct c as [|f|e]; [done| |]; cbn [capability_str].
  - by rewrite (proj2 (strip_prefix_Some "read:field:" ("read:field:" +:+ f) f) eq_refl).
  - assert (strip_prefix "read:field:" ("enrich:" +:+ e) = None) as -> by done.
    by rewrite (proj2 (strip_prefix_Some "enrich:" ("enrich:" +:+ e) e) eq_refl).
Qed.

Section theorems.
Context `{Ed25519} `{WasmEngine}.

(** What [verify] accepts. *)
Definition signed_by (p : SignaturePolicy) (module : string) (signature : option string) : Prop :=
  p = [] \/ exists hex sig k, signature = Some hex /\ decode_hex hex = Ok sig /\ String.length sig = 64%nat /\
    k ∈ p /\ key_verify k module sig = true.

Lemma verify_spec p module signature : verify p module signature = Ok () <-> signed_by p module signature.
Proof.
  unfold verify, required, signed_by. destruct p as [|k0 p0]; [naive_solver|]. cbn [is_nil negb]. set (p := k0 :: p0).
  split.
  - intros (hex & Hs & (sig & Hd & (sig' & Hx & Hv)%result_bind_Ok)%result_bind_Ok)%result_bind_Ok. right.
    destruct signature as [hex'|]; [injection Hs as ->|done]. unfold exactly in Hx. case_decide as Hlen; [|done].
    injection Hx as <-. destruct (existsb _ p) eqn:He; [|done]. apply existsb_exists in He as (k & Hk & Hkv).
    exists hex, sig, k. apply list_elem_of_In in Hk. done.
  - intros [?|(hex & sig & k & -> & Hd & Hlen & Hk & Hv)]; [done|]. cbn [ok_or mbind result_bind]. rewrite Hd.
    cbn [mbind result_bind]. unfold exactly. rewrite decide_True by done. cbn [mbind result_bind].
    rewrite (proj2 (existsb_exists _ p)); [done|]. exists k. split; [by apply list_elem_of_In|done].
Qed.

Lemma plugin_gate_iff (signatures : SignaturePolicy) m policy source p :
  instantiate signatures m policy source = Ok p <->
  exists bytes, match source with Wat text => wat_parse text = Some bytes | Wasm b => b = bytes end /\
    requested_capabilities m = Ok (lp_granted p) /\ (forall c, c ∈ lp_granted p -> c ∈ policy) /\
    signed_by signatures bytes (wm_signature m) /\ wasm_instantiate bytes = Some (lp_instance p).
Proof.
  unfold instantiate. split.
  - intros (req & Hreq & H')%result_bind_Ok. destruct (check policy req) as [[]|] eqn:Hc; [|done].
    apply result_bind_Ok in H' as (bytes & Hb & H'). destruct (verify signatures bytes (wm_signature m)) as [[]|] eqn:Hv; [|done].
    apply result_bind_Ok in H' as (inst & Hi & [= <-]). exists bytes. apply verify_spec in Hv. rewrite check_spec in Hc.
    split; [|split; [done|split; [done|split; [done|]]]].
    + destruct source; [|by injection Hb]. by destruct (wat_parse text); [injection Hb as ->|].
    + cbn. by destruct (wasm_instantiate bytes); [injection Hi as ->|].
  - intros (bytes & Hb & -> & Hc & Hv & Hi). cbn [mbind result_bind]. rewrite (proj2 (check_spec _ _) Hc).
    assert (match source with Wat text => ok_or (wat_parse text) Backend | Wasm b => Ok b end = Ok bytes) as ->
      by (destruct source; [by rewrite Hb|by subst]).
    cbn [mbind result_bind]. rewrite (proj2 (verify_spec _ _ _) Hv), Hi. cbn. by destruct p.
Qed.

(** C34: nothing runs that was not allowed.  The host instantiates a plugin
    exactly when all the capabilities of its manifest parse and are in the
    policy, the module bytes it is about to compile carry a signature of the
    manifest by a trusted key, or no key is configured, and the engine accepts
    them; the plugin then holds the capabilities it asked for and no others. *)
Theorem plugin_gate (signatures : SignaturePolicy) m policy source p :
  instantiate signatures m policy source = Ok p <->
  exists bytes, match source with Wat text => wat_parse text = Some bytes | Wasm b => b = bytes end /\
    requested_capabilities m = Ok (lp_granted p) /\ (forall c, c ∈ lp_granted p -> c ∈ policy) /\
    signed_by signatures bytes (wm_signature m) /\ wasm_instantiate bytes = Some (lp_instance p).
Proof. apply plugin_gate_iff. Qed.

(** what is signed verifies.  The signature and the public key that
    [plugin sign] prints for a module make [plugin verify] accept the module
    under a manifest that carries the signature and asks for granted
    capabilities, and the host run it, when that key is the trusted one; and
    [plugin sign] works for every key of 64 hexadecimal digits. *)
Theorem sign_then_verify `{!Ed25519Laws} module key m allow policy :
  String.length (trim key) = 64%nat -> all_bytes is_ascii_hexdigit (trim key) = true ->
  from_strings allow = Ok policy -> (exists req, requested_capabilities m = Ok req /\ forall c, c ∈ req -> c ∈ policy) ->
  is_Some (wm_path m) ->
  exists signature public keys, cmd_plugin_sign (Ok module) key = Ok (signature, public) /\
    from_hex_keys [public] = Ok keys /\
    (wm_signature m = Some signature ->
      cmd_plugin_verify m allow [public] (Ok module) = Ok true /\
      forall inst, wasm_instantiate module = Some inst ->
        exists p, instantiate keys m policy (Wasm module) = Ok p /\ lp_instance p = inst).
Proof.
  intros Hlen Hdig Hallow (req & Hreq & Hgr) [path Hpath].
  destruct (hex_pairs_Some 32 (trim key) Hlen Hdig) as (secret & Hsec & Hslen).
  destruct (public_key_valid secret Hslen) as (k & Hk & Hkv).
  exists (sign_module secret module), (public_key_hex secret), [k].
  assert (from_hex_keys [public_key_hex secret] = Ok [k]) as Hkeys.
  { unfold from_hex_keys, from_hex_key, public_key_hex. cbn [traverse]. rewrite decode_encode_hex. cbn [mbind result_bind].
    unfold exactly. rewrite decide_True by by apply public_key_length. cbn [mbind result_bind]. by rewrite Hk. }
  split; [|split; [done|]].
  - unfold cmd_plugin_sign. cbn [mbind result_bind]. rewrite Hlen, Hdig. cbn [Nat.eqb negb andb]. by rewrite Hsec.
  - intros Hsig. assert (verify [k] module (wm_signature m) = Ok ()) as Hv.
    { apply verify_spec. right. exists (sign_module secret module), (sign secret module), k. split; [done|].
      split; [apply decode_encode_hex|]. split; [by apply sign_length|]. split; [by left|apply Hkv]. }
    split.
    + unfold cmd_plugin_verify. rewrite Hreq, Hallow. cbn [mbind result_bind]. rewrite (proj2 (check_spec _ _) Hgr).
      cbn [is_nil]. rewrite Hkeys, Hpath. cbn [mbind result_bind ok_or]. by rewrite Hv.
    + intros inst Hi. exists (mkPlugin req inst). split; [|done]. apply plugin_gate_iff. exists module.
      split; [done|]. split; [done|]. split; [done|]. split; [by apply verify_spec|done].
Qed.
End theorems.

Section demo.
Definition demo_ed25519 : Ed25519 :=
  {| VerifyingKey := string; key_of_bytes b := Some b; key_verify k _ sig := bool_decide (sig = k +:+ k);
     sign sk _ := sk +:+ sk; public_key sk := sk |}.

Lemma demo_ed25519_laws : @Ed25519Laws demo_ed25519.
Proof.
  split; cbn.
  - intros sk _ Hl. rewrite string_length_app. lia.
  - done.
  - intros sk _. exists sk. split; [done|]. intros _. by rewrite bool_decide_true.
Qed.

Definition demo_wasm : WasmEngine :=
  {| instance := string; wat_parse := Some; wasm_instantiate b := if is_empty_str b then None else Some b |}.
#[local] Existing Instance demo_ed25519.
#[local] Existing Instance demo_wasm.
#[local] Existing Instance demo_ed25519_laws.

Definition demo_key : string := "0707070707070707070707070707070707070707070707070707070707070707".
Definition demo_manifest : WasmManifest :=
  mkManifest "demo" "1.0.0" "wasm" (Some "demo.wasm") ["enrich:geoip"]
    (Some (demo_key +:+ demo_key)).

Lemma sign_then_verify_witness :
  cmd_plugin_verify demo_manifest ["enrich:geoip"] [demo_key] (Ok "module") = Ok true.
Proof.
  destruct (sign_then_verify "module" demo_key demo_manifest ["enrich:geoip"] [Enrich "geoip"]) as (sg & pub & keys & Hs & Hk & Hv).
  1, 2, 3: reflexivity.
  - exists [Enrich "geoip"]. split; [reflexivity|]. done.
  - by exists "demo.wasm".
  - vm_compute in Hs. injection Hs as <- <-. apply Hv. reflexivity.
Defined.
End demo.
