(* ===== verification/Enrich.v ===== *)
(** * [sigil-enrich]: the enrichers and their chain

    Redaction, entropy scoring and threat-intelligence matching, applied in
    order to every normalised event.  The regular expressions of the
    redaction are replaced by the [regex] crate, the base-2 logarithm is the
    one of the platform, the entries of a hash map come in any order, and a
    feed file is what reading it gives: parameters. *)

From stdpp Require Import gmap strings list.
From S2P Require Import Prelude Utf8 Text Containers Core Yaml Float Plugin.

Local Open Scope string_scope.

(** ** Parameters *)

(** [Regex::replace_all] of a pattern by a replacement text. *)
Class RegexReplace := replace_all : string -> string -> string -> string.
(** [f64::log2]. *)
Class Log2 := f64_log2 : f64 -> f64.
(** The order in which a hash map of counters is read. *)
Class CountOrder := count_order : list (string * nat) -> list (string * nat).

(** ** Redaction *)

Definition email_pattern : string := "([A-Za-z0-9._%+\-]+)@([A-Za-z0-9.\-]+\.[A-Za-z]{2,})".
Definition aws_key_pattern : string := "AKIA[0-9A-Z]{16}".
Definition secret_kv_pattern : string := "(?i)\b(password|passwd|secret|token|api[_-]?key)\b(\s*[:=]\s*)(\S+)".

Section enrich.
Context `{JsonText} `{RegexReplace} `{Log2} `{CountOrder} `{FloatText}.

Definition redact (input : string) : string :=
  let s := replace_all email_pattern "***@$2" input in
  let s := replace_all aws_key_pattern "AKIA****************" s in
  let s := replace_all secret_kv_pattern "$1$2***" s in
  str_replace "http://" "hxxp://" (str_replace "https://" "hxxps://" s).

Definition redact_value (v : value) : value := match v with VString s => VString (redact s) | _ => v end.

Definition with_message_fields (m : string) (f : fields_t) (ev : Event) : Event :=
  mkEvent (ev_id ev) (ev_ts ev) (ingest_ts ev) (ocsf_class ev) (tenant ev) (severity ev) (host ev) (actor ev)
    (target ev) m f (template_id ev) (labels ev) (raw ev).
Definition with_fields_labels (f : fields_t) (l : list string) (ev : Event) : Event :=
  mkEvent (ev_id ev) (ev_ts ev) (ingest_ts ev) (ocsf_class ev) (tenant ev) (severity ev) (host ev) (actor ev)
    (target ev) (message ev) f (template_id ev) l (raw ev).

Definition redact_enrich (ev : Event) : Event :=
  with_message_fields (redact (message ev)) ((fun kv => (kv.1, redact_value kv.2)) <$> fields ev) ev.

(** A label is pushed unless it is there. *)
Definition push_label (l : string) (ls : list string) : list string :=
  if bool_decide (l ∈ ls) then ls else (ls ++ [l])%list.

(** ** Entropy *)

Definition DEFAULT_THRESHOLD : f64 := f64_div (f64_of 7) (f64_of 2).
Definition MIN_LEN : nat := 8.
Definition DOMAIN_FIELDS : list string := ["domain"; "dns_query"; "query"; "dns.question.name"; "host"].

(** The first of the keys whose field has a text that is not empty. *)
Fixpoint first_nonempty (ev : Event) (keys : list string) : option string :=
  match keys with
  | [] => None
  | k :: ks => match field_str ev k with
               | Some s => if is_empty_str s then first_nonempty ev ks else Some s
               | None => first_nonempty ev ks
               end
  end.

Definition candidate_domain (ev : Event) : option string :=
  match target ev with
  | Some t => if bool_decide (kind t = "domain") || bool_decide (kind t = "host") then Some (entity_id t)
              else first_nonempty ev DOMAIN_FIELDS
  | None => first_nonempty ev DOMAIN_FIELDS
  end.

Definition significant_label (domain : string) : string :=
  let trimmed := trim_end_matches "." domain in
  let parts := split_on "." trimmed in
  match parts with
  | [] => trimmed
  | p0 :: _ => if (length parts =? 1)%nat then p0 else default p0 (parts !! (length parts - 3)%nat)
  end.

(** Characters with the number of their occurrences. *)
Definition count_chars (s : string) : list (string * nat) :=
  (fun c => (c, length (filter (fun d => d = c) (chars s)))) <$> remove_dups (chars s).

Definition shannon_entropy (s : string) : f64 :=
  if is_empty_str s then f64_of 0
  else
    let total := f64_of (Z.of_nat (length (chars s))) in
    f64_opp (foldl (fun acc cn => let p := f64_div (f64_of (Z.of_nat cn.2)) total in f64_add acc (f64_mul p (f64_log2 p)))
               (f64_of 0) (count_order (count_chars s))).

Definition two_decimals (bits : f64) : f64 := f64_div (f64_round (f64_mul bits (f64_of 100))) (f64_of 100).

Definition entropy_enrich (threshold : f64) (ev : Event) : Event :=
  match candidate_domain ev with
  | None => ev
  | Some candidate =>
      let label := significant_label candidate in
      if (String.length label <? MIN_LEN)%nat then ev
      else
        let bits := shannon_entropy label in
        let f := fields_insert "dga.entropy" (value_of_f64 (two_decimals bits)) (fields ev) in
        let f := fields_insert "dga.score" (value_of_f64 (two_decimals bits)) f in
        with_fields_labels f (if f64_ge bits threshold then push_label "dga-suspect" (labels ev) else labels ev) ev
  end.

(** ** Threat intelligence *)

Definition IOC_FIELDS : list string :=
  ["src_ip"; "dst_ip"; "ip"; "domain"; "dns_query"; "query"; "url"; "hash"; "md5"; "sha1"; "sha256"].

Definition indicator_of (indicators : gset string) (val : string) : option string :=
  let v := to_ascii_lowercase val in if bool_decide (v ∈ indicators) then Some v else None.

(** The first hit of a list of candidate values. *)
Fixpoint first_hit (indicators : gset string) (vals : list string) : option string :=
  match vals with
  | [] => None
  | v :: vs => match indicator_of indicators v with Some hit => Some hit | None => first_hit indicators vs end
  end.

Definition opt_list {A} (o : option A) : list A := match o with Some a => [a] | None => [] end.
Definition candidates (ev : Event) : list string :=
  ((entity_id <$> concat [opt_list (host ev); opt_list (actor ev); opt_list (target ev)]) ++
   omap (field_str ev) IOC_FIELDS)%list.

Definition match_event (indicators : gset string) (ev : Event) : option string :=
  if bool_decide (indicators = ∅) then None else first_hit indicators (candidates ev).

Definition threatintel_enrich (indicators : gset string) (ev : Event) : Event :=
  match match_event indicators ev with
  | None => ev
  | Some indicator =>
      let f := fields_insert "threat.matched" (VBool true) (fields ev) in
      let f := fields_insert "threat.indicator" (VString indicator) f in
      with_fields_labels f (push_label "threat-intel-hit" (labels ev)) ev
  end.

(** ** The chain *)

Inductive Enricher : Type :=
  | RedactEnricher
  | EntropyEnricher (threshold : f64)
  | ThreatIntelEnricher (indicators : gset string).

Definition enricher_name (e : Enricher) : string :=
  match e with RedactEnricher => "redact" | EntropyEnricher _ => "entropy" | ThreatIntelEnricher _ => "threatintel" end.
Definition capabilities (e : Enricher) : list Capability := [Enrich (enricher_name e)].

Definition enrich (e : Enricher) : Event -> Event :=
  match e with
  | RedactEnricher => redact_enrich
  | EntropyEnricher threshold => entropy_enrich threshold
  | ThreatIntelEnricher indicators => threatintel_enrich indicators
  end.

(** [EnrichChain::apply]. *)
Definition apply_chain (chain : list Enricher) (ev : Event) : Event := foldl (fun ev e => enrich e ev) ev chain.

(** ** Building enrichers from their settings *)

(** [Value::get] with a text key. *)
Definition setting (settings : yaml) (key : string) : option yaml :=
  match settings with YMapping m => ymap_get m (YString key) | _ => None end.

Definition threshold_of (settings : yaml) : f64 :=
  match setting settings "threshold" with
  | Some (YNumber t) => default DEFAULT_THRESHOLD (f64_parse t)
  | _ => DEFAULT_THRESHOLD
  end.

(** The indicator of a line of a feed: blank lines and comments have none. *)
Definition feed_line (line : string) : option string :=
  let line := trim line in
  if is_empty_str line || starts_with "#" line then None else Some (to_ascii_lowercase line).

Definition threatintel_from_settings (read_file : string -> result string) (settings : yaml) : gset string :=
  match setting settings "feed" with
  | Some (YString path) =>
      match read_file path with
      | Ok text => list_to_set (omap feed_line (lines text))
      | Err _ => ∅
      end
  | _ => ∅
  end.

Definition build_enricher (read_file : string -> result string) (name : string) (settings : yaml) : option Enricher :=
  if bool_decide (name = "redact") then Some RedactEnricher
  else if bool_decide (name = "entropy") then Some (EntropyEnricher (threshold_of settings))
  else if bool_decide (name = "threatintel") || bool_decide (name = "threat_intel")
  then Some (ThreatIntelEnricher (threatintel_from_settings read_file settings))
  else None.
End enrich.

(** ** Lemmas on [str::replace] *)

Lemma starts_with_app p x : starts_with p (p +:+ x) = true.
Proof. apply starts_with_spec. by exists x. Qed.

Lemma starts_with_cons c p d s : starts_with (String c p) (String d s) = bool_decide (c = d) && starts_with p s.
Proof.
  unfold starts_with. cbn [strip_prefix]. destruct (bool_decide (c = d)); [done|].
  apply bool_decide_false. by intros [? ?].
Qed.

(** A pattern whose first byte occurs in it once, and a replacement that
    starts with the same byte and then differs. *)
Record safe_replace (h : ascii) (q r : string) : Prop := {
  safe_q : free_of h q = true;
  safe_r : free_of h r = true;
  safe_differ : forall x, starts_with q (r +:+ x) = false
}.

Lemma replace_skip p r a t : replace_from p r (a +:+ t) (String.length a) = replace_from p r t 0.
Proof. induction a as [|c a IH]; [done|]. rewrite string_app_cons. exact IH. Qed.

(** What the output starts with, the input started with. *)
Lemma replace_starts h q r w s : free_of h w = true ->
  starts_with w (replace_from (String h q) (String h r) s 0) = true -> starts_with w s = true.
Proof.
  revert s. induction w as [|d w IH]; intros s Hw Hs; [by destruct s|].
  unfold free_of in Hw. cbn [all_bytes] in Hw. apply andb_true_iff in Hw as [Hd Hw].
  destruct s as [|c t]; [by cbn in Hs|]. cbn [replace_from] in Hs. destruct (starts_with (String h q) (String c t)).
  - rewrite string_app_cons, starts_with_cons in Hs. apply andb_true_iff in Hs as [Hdh%bool_decide_eq_true _]. subst d.
    by rewrite bool_decide_true in Hd.
  - rewrite starts_with_cons in *. apply andb_true_iff in Hs as [-> Hs]. by apply IH.
Qed.

Lemma contains_skip h q w s : free_of h w = true -> contains (String h q) (w +:+ s) = contains (String h q) s.
Proof.
  induction w as [|d w IH]; intros Hw; [done|]. unfold free_of in Hw. cbn [all_bytes] in Hw.
  apply andb_true_iff in Hw as [Hd Hw]. rewrite string_app_cons. cbn [contains]. rewrite starts_with_cons.
  rewrite bool_decide_false by (intros ->; by rewrite bool_decide_true in Hd). exact (IH Hw).
Qed.

(** Replacing by a safe text removes the pattern, and brings no other pattern
    with the same first byte that the text does not continue either. *)
Lemma replace_contains h q r q' s : safe_replace h q r -> free_of h q' = true ->
  (forall x, starts_with q' (r +:+ x) = false) -> (q' = q \/ contains (String h q') s = false) ->
  contains (String h q') (str_replace (String h q) (String h r) s) = false.
Proof.
  intros Hsafe Hq' Hdiff Hs. unfold str_replace.
  remember (String.length s) as n eqn:Hn. revert s Hn Hs. induction (lt_wf n) as [n _ IH]. intros s -> Hs.
  destruct s as [|c t]; [done|]. cbn [replace_from]. destruct (starts_with (String h q) (String c t)) eqn:Hm.
  - apply starts_with_spec in Hm as [x Hx]. rewrite string_app_cons in Hx. injection Hx as -> ->.
    cbn [String.length]. rewrite Nat.sub_succ, Nat.sub_0_r, replace_skip, string_app_cons. cbn [contains].
    rewrite starts_with_cons, Hdiff, andb_false_r, contains_skip by apply Hsafe.
    apply IH with (y := String.length x); [cbn; rewrite string_length_app; lia|done|].
    destruct Hs as [->|Hs]; [by left|]. right. clear -Hs. rewrite <- string_app_cons in Hs.
    apply not_true_iff_false. intros (u & v & ->)%contains_spec. apply not_true_iff_false in Hs. apply Hs, contains_spec.
    exists (String h q +:+ u), v. by rewrite !string_app_assoc.
  - cbn [contains]. rewrite starts_with_cons. apply orb_false_iff. split.
    + apply andb_false_iff. destruct (bool_decide (h = c)) eqn:Hc; [right|by left]. apply bool_decide_eq_true in Hc as <-.
      apply not_true_iff_false. intros Hst%replace_starts; [|done]. destruct Hs as [->|Hs].
      * by rewrite starts_with_cons, bool_decide_true, Hst in Hm.
      * cbn [contains] in Hs. by rewrite starts_with_cons, bool_decide_true, Hst in Hs.
    + apply IH with (y := String.length t); [cbn; lia|done|]. destruct Hs as [->|Hs]; [by left|].
      right. cbn [contains] in Hs. by apply orb_false_iff in Hs as [_ Hs].
Qed.

(** ** Theorems *)

Section theorems.
Context `{JsonText} `{RegexReplace} `{Log2} `{CountOrder} `{FloatText}.

(** No link with a web scheme. *)
Definition defanged (s : string) : Prop := contains "http://" s = false /\ contains "https://" s = false.

Lemma redact_safe s : defanged (redact s).
Proof.
  unfold redact. set (t := replace_all secret_kv_pattern _ _). set (u := str_replace "https://" "hxxps://" t).
  assert (contains "https://" u = false) as Hu.
  { apply replace_contains; [split; [done|done|done]|done|done|by left]. }
  split; [apply (replace_contains "h" "ttp://" "xxp://" "ttp://" u)|apply (replace_contains "h" "ttp://" "xxp://" "ttps://" u)].
  all: try done. all: try (split; done). - by left. - by right.
Qed.

(** What an event keeps whatever the enricher. *)
Definition same_core (a b : Event) : Prop :=
  ev_id b = ev_id a /\ ev_ts b = ev_ts a /\ ingest_ts b = ingest_ts a /\ ocsf_class b = ocsf_class a /\
  tenant b = tenant a /\ severity b = severity a /\ host b = host a /\ actor b = actor a /\ target b = target a /\
  template_id b = template_id a /\ raw b = raw a.

#[export] Instance same_core_preorder : PreOrder same_core.
Proof. split; [by intros a; split_and!|]. unfold same_core. intros a b c Hab Hbc. destruct_and!. split_and!; congruence. Qed.

Lemma push_label_prefix l ls : ls `prefix_of` push_label l ls.
Proof. unfold push_label. case_bool_decide; [done|by eexists]. Qed.

Lemma get_redacted k (f : fields_t) : fields_get ((fun kv => (kv.1, redact_value kv.2)) <$> f) k = redact_value <$> fields_get f k.
Proof. induction f as [|[k' v] f IH]; [done|]. cbn. by case_bool_decide. Qed.

(** A field an enricher writes. *)
Definition enrich_keys : list string := ["dga.entropy"; "dga.score"; "threat.matched"; "threat.indicator"].

Lemma enrich_frame e ev : same_core ev (enrich e ev) /\ labels ev `prefix_of` labels (enrich e ev) /\
  (forall k, k ∉ enrich_keys -> fields_get (fields (enrich e ev)) k =
     match e with RedactEnricher => redact_value <$> fields_get (fields ev) k | _ => fields_get (fields ev) k end) /\
  (message (enrich e ev) = match e with RedactEnricher => redact (message ev) | _ => message ev end).
Proof.
  destruct e as [|threshold|indicators]; cbn [enrich].
  - split; [by split_and!|]. split; [done|]. split; [|done]. intros k _. apply get_redacted.
  - unfold entropy_enrich. destruct (candidate_domain ev) as [c|]; [|by split_and!].
    destruct (_ <? _)%nat; [by split_and!|]. split; [by split_and!|]. split; [|split; [|done]].
    + cbn [labels with_fields_labels]. destruct (f64_ge _ _); [apply push_label_prefix|done].
    + intros k Hk. unfold enrich_keys in Hk. rewrite !not_elem_of_cons in Hk. cbn [fields with_fields_labels].
      rewrite !smap_get_insert, !decide_False by naive_solver. done.
  - unfold threatintel_enrich. destruct (match_event indicators ev) as [i|]; [|by split_and!].
    split; [by split_and!|]. split; [apply push_label_prefix|split; [|done]].
    intros k Hk. unfold enrich_keys in Hk. rewrite !not_elem_of_cons in Hk. cbn [fields with_fields_labels].
    rewrite !smap_get_insert, !decide_False by naive_solver. done.
Qed.

Lemma chain_frame chain ev : same_core ev (apply_chain chain ev) /\ labels ev `prefix_of` labels (apply_chain chain ev).
Proof.
  revert ev. induction chain as [|e chain IH]; intros ev; [by split_and!|]. cbn.
  destruct (enrich_frame e ev) as (Hc & Hl & _). destruct (IH (enrich e ev)) as [Hc' Hl'].
  split; [by etransitivity|by etransitivity].
Qed.

Lemma apply_chain_app c1 c2 ev : apply_chain (c1 ++ c2)%list ev = apply_chain c2 (apply_chain c1 ev).
Proof. apply foldl_app. Qed.


Lemma first_hit_spec indicators vals : match first_hit indicators vals with
  | Some hit => exists pre v post, vals = (pre ++ v :: post)%list /\ hit = to_ascii_lowercase v /\ hit ∈ indicators /\
      Forall (fun w => to_ascii_lowercase w ∉ indicators) pre
  | None => Forall (fun w => to_ascii_lowercase w ∉ indicators) vals
  end.
Proof.
  induction vals as [|v vals IH]; cbn [first_hit]; [constructor|]. unfold indicator_of. case_bool_decide as Hv.
  - exists [], v, vals. by split_and!.
  - destruct (first_hit indicators vals) as [hit|]; [|by constructor].
    destruct IH as (pre & w & post & -> & -> & Hin & Hpre). exists (v :: pre), w, post. split_and!; try done. by constructor.
Qed.

Lemma match_event_spec indicators ev : match match_event indicators ev with
  | Some hit => exists pre v post, candidates ev = (pre ++ v :: post)%list /\ hit = to_ascii_lowercase v /\ hit ∈ indicators /\
      Forall (fun w => to_ascii_lowercase w ∉ indicators) pre
  | None => Forall (fun w => to_ascii_lowercase w ∉ indicators) (candidates ev)
  end.
Proof.
  unfold match_event. case_bool_decide as He; [|apply first_hit_spec]. subst indicators. apply Forall_forall.
  intros w _. apply not_elem_of_empty.
Qed.

Lemma push_label_idem l ls : push_label l (push_label l ls) = push_label l ls.
Proof.
  unfold push_label at 2 3. case_bool_decide as Hl.
  - unfold push_label. by rewrite bool_decide_true.
  - unfold push_label. rewrite bool_decide_true by (apply elem_of_app; right; by left). done.
Qed.

Lemma candidates_enriched indicators ev : candidates (threatintel_enrich indicators ev) = candidates ev.
Proof.
  destruct (enrich_frame (ThreatIntelEnricher indicators) ev) as ((_ & _ & _ & _ & _ & _ & Hh & Ha & Ht & _) & _ & Hf & _).
  cbn [enrich] in *. unfold candidates. rewrite Hh, Ha, Ht. f_equal. apply list_omap_ext, Forall_Forall2_diag, Forall_forall. intros k Hk.
  unfold field_str. rewrite Hf; [done|]. revert k Hk. apply Forall_forall. by apply (bool_decide_eq_true_1 _).
Qed.

Lemma feed_spec read_file path text i : read_file path = Ok text ->
  i ∈ threatintel_from_settings read_file (YMapping [(YString "feed", YString path)]) <->
  exists line, line ∈ lines text /\ trim line <> "" /\ starts_with "#" (trim line) = false /\ i = to_ascii_lowercase (trim line).
Proof.
  intros Hr. unfold threatintel_from_settings, setting. cbn [ymap_get]. rewrite decide_True, Hr by done.
  rewrite elem_of_list_to_set, list_elem_of_omap. unfold feed_line. f_equiv. intros line.
  destruct (trim line) as [|c r] eqn:Ht; cbn [is_empty_str orb]; [naive_solver|].
  destruct (starts_with "#" (String c r)); naive_solver.
Qed.

(** an event is marked exactly when it names an indicator.  Entities first
    and then the indicator fields, case-insensitively in ASCII: the first
    value that is an indicator of the feed is stamped on the event with the
    label; when no value is, the event is unchanged; marking twice says
    nothing new.  The indicators of a feed are its lines that are neither
    blank nor comments, trimmed and in lower case. *)
Theorem threatintel_spec indicators ev :
  let out := threatintel_enrich indicators ev in
  ((exists pre v post, candidates ev = (pre ++ v :: post)%list /\ to_ascii_lowercase v ∈ indicators /\
      Forall (fun w => to_ascii_lowercase w ∉ indicators) pre /\
      fields_get (fields out) "threat.matched" = Some (VBool true) /\
      fields_get (fields out) "threat.indicator" = Some (VString (to_ascii_lowercase v)) /\
      "threat-intel-hit" ∈ labels out) \/
   (Forall (fun w => to_ascii_lowercase w ∉ indicators) (candidates ev) /\ out = ev)) /\
  (forall k, fields_get (fields (threatintel_enrich indicators out)) k = fields_get (fields out) k) /\
  labels (threatintel_enrich indicators out) = labels out /\
  (forall read_file path text i, read_file path = Ok text ->
     i ∈ threatintel_from_settings read_file (YMapping [(YString "feed", YString path)]) <->
     exists line, line ∈ lines text /\ trim line <> "" /\ starts_with "#" (trim line) = false /\ i = to_ascii_lowercase (trim line)).
Proof.
  cbn zeta. pose proof (match_event_spec indicators ev) as Hm.
  assert (match_event indicators (threatintel_enrich indicators ev) = match_event indicators ev) as Hagain
    by (unfold match_event; by rewrite candidates_enriched).
  split; [|split; [|split; [|intros *; apply feed_spec]]].
  - unfold threatintel_enrich. destruct (match_event indicators ev) as [hit|]; [left|right; done].
    destruct Hm as (pre & v & post & Hc & -> & Hin & Hpre). exists pre, v, post. cbn [fields labels with_fields_labels].
    split_and!; [done|done|done|by rewrite !smap_get_insert|by rewrite smap_get_insert|].
    unfold push_label. case_bool_decide; [done|]. apply elem_of_app. right. by left.
  - intros k. unfold threatintel_enrich at 1. rewrite Hagain. unfold threatintel_enrich.
    destruct (match_event indicators ev) as [hit|]; [|done]. cbn [fields with_fields_labels].
    rewrite !smap_get_insert. by repeat case_decide.
  - unfold threatintel_enrich at 1. rewrite Hagain. unfold threatintel_enrich.
    destruct (match_event indicators ev) as [hit|]; [|done]. apply push_label_idem.
Qed.
End theorems.
