(* ===== verification/Detect.v ===== *)
(** * [sigil-detect]: custom detectors

    The domain-generation and the indicator detectors and their chain, which
    runs after the Sigma engine.  Files are what reading them gives. *)

From stdpp Require Import gmap strings list.
From S2P Require Import Prelude Utf8 Text Containers Core Serde Yaml Float Plugin Enrich.

Local Open Scope string_scope.

Section detect.
Context `{JsonText} `{Casing} `{FloatText}.

(** ** [dga.rs] *)

Definition dga_eval (threshold : f64) (ev : Event) : option Alert :=
  score ← (field_str ev "dga.score" ≫= f64_parse);
  if f64_lt score threshold then None
  else
    let domain := default "" (match target ev with Some t => Some (entity_id t) | None => field_str ev "domain" end) in
    Some (mkAlert "dga-domain" (if is_empty_str domain then "DGA-like domain" else "DGA-like domain: " +:+ domain)
            Medium (Some "T1568.002") [ev_id ev] (ev_ts ev)).

(** ** [ioc.rs] *)

Record IocDetector : Type := mkIoc { hashes : gset string; ips : gset string; domains : gset string }.

Definition ioc_len (d : IocDetector) : nat := size (hashes d) + size (ips d) + size (domains d).

Definition add_indicator (set : gset string) (raw : string) : gset string :=
  let v := trim raw in
  if is_empty_str v || starts_with "#" v then set else {[to_lowercase v]} ∪ set.

Definition load_set (read_file : string -> result string) (value : option yaml) : gset string :=
  match value with
  | Some (YString path) =>
      match read_file path with Ok text => foldl add_indicator ∅ (lines text) | Err _ => ∅ end
  | Some (YSequence items) =>
      foldl (fun set item => match item with YString s => add_indicator set s | _ => set end) ∅ items
  | _ => ∅
  end.

Definition ioc_from_settings (read_file : string -> result string) (settings : yaml) : IocDetector :=
  mkIoc (load_set read_file (setting settings "hashes")) (load_set read_file (setting settings "ips"))
    (load_set read_file (setting settings "domains")).

Definition hash_fields : list string := ["process.hash.sha256"; "file.hash.sha256"; "module.hash.sha256"].
Definition ip_fields : list string := ["destination.ip"; "source.ip"].

(** The first of the fields whose value is in the set, after [f]. *)
Fixpoint field_hit (f : string -> string) (set : gset string) (ev : Event) (keys : list string) : option string :=
  match keys with
  | [] => None
  | k :: ks =>
      match field_str ev k with
      | Some v => if bool_decide (f v ∈ set) then Some (f v) else field_hit f set ev ks
      | None => field_hit f set ev ks
      end
  end.

Definition hash_hit (d : IocDetector) (ev : Event) : option string := field_hit to_lowercase (hashes d) ev hash_fields.
Definition ip_hit (d : IocDetector) (ev : Event) : option string := field_hit (fun v => v) (ips d) ev ip_fields.
Definition domain_hit (d : IocDetector) (ev : Event) : option string :=
  match field_hit to_lowercase (domains d) ev ["dns.question.name"] with
  | Some v => Some v
  | None =>
      t ← target ev;
      if bool_decide (kind t = "domain") && bool_decide (to_lowercase (entity_id t) ∈ domains d)
      then Some (entity_id t) else None
  end.

Definition ioc_eval (d : IocDetector) (ev : Event) : option Alert :=
  '(k, value, technique) ←
    match hash_hit d ev with
    | Some h => Some ("hash", h, "T1204")
    | None =>
        match ip_hit d ev with
        | Some ip => Some ("ip", ip, "T1071")
        | None => match domain_hit d ev with Some x => Some ("domain", x, "T1071") | None => None end
        end
    end;
  Some (mkAlert ("ioc-" +:+ k +:+ "-match") ("IOC match (" +:+ k +:+ "): " +:+ value) High (Some technique)
          [ev_id ev] (ev_ts ev)).

(** ** The chain *)

Inductive Detector : Type :=
  | Dga (threshold : f64)
  | Ioc (d : IocDetector).

Definition detector_eval (d : Detector) : Event -> option Alert :=
  match d with Dga threshold => dga_eval threshold | Ioc d => ioc_eval d end.

(** [DetectorChain::eval]. *)
Definition chain_eval (chain : list Detector) (ev : Event) : list Alert := omap (fun d => detector_eval d ev) chain.

Definition build_detector (read_file : string -> result string) (name : string) (settings : yaml) : option Detector :=
  if bool_decide (name = "dga") then Some (Dga (threshold_of settings))
  else if bool_decide (name = "ioc") then
    let det := ioc_from_settings read_file settings in
    if (ioc_len det =? 0)%nat then None else Some (Ioc det)
  else None.
End detect.

(** ** Lemmas *)

Section theorems.
Context `{JsonText} `{Casing} `{FloatText}.

(** The indicator a line lists. *)
Definition lists (i raw : string) : Prop :=
  trim raw <> "" /\ starts_with "#" (trim raw) = false /\ i = to_lowercase (trim raw).

Lemma add_indicator_spec set raw i : i ∈ add_indicator set raw <-> i ∈ set \/ lists i raw.
Proof.
  unfold add_indicator, lists. destruct (trim raw) as [|c r]; cbn [is_empty_str orb]; [naive_solver|].
  destruct (starts_with "#" (String c r)); [naive_solver|]. rewrite elem_of_union, elem_of_singleton. naive_solver.
Qed.

Lemma add_indicators_spec raws set i : i ∈ foldl add_indicator set raws <->
  i ∈ set \/ exists raw, raw ∈ raws /\ lists i raw.
Proof.
  revert set. induction raws as [|raw raws IH]; intros set; cbn [foldl].
  - split; [by left|]. intros [?|(x & ?%not_elem_of_nil & _)]; done.
  - rewrite IH, add_indicator_spec. setoid_rewrite elem_of_cons. naive_solver.
Qed.

Lemma field_hit_spec f set ev keys : match field_hit f set ev keys with
  | Some v => exists k w, k ∈ keys /\ field_str ev k = Some w /\ v = f w /\ v ∈ set
  | None => forall k w, k ∈ keys -> field_str ev k = Some w -> f w ∉ set
  end.
Proof.
  induction keys as [|k keys IH]; cbn [field_hit]; [by intros ? ? ?%not_elem_of_nil|].
  destruct (field_str ev k) as [v|] eqn:Hv; [case_bool_decide as Hin|].
  - exists k, v. split; [by left|done].
  - destruct (field_hit f set ev keys) as [w|].
    + destruct IH as (k' & x & Hk & ?). exists k', x. split; [by right|done].
    + intros k' w [->|Hk]%elem_of_cons Hw; [congruence|by eapply IH].
  - destruct (field_hit f set ev keys) as [w|].
    + destruct IH as (k' & x & Hk & ?). exists k', x. split; [by right|done].
    + intros k' w [->|Hk]%elem_of_cons Hw; [congruence|by eapply IH].
Qed.

(** What a settings value lists: the lines of its file, or its texts. *)
Definition listed (read_file : string -> result string) (value : yaml) (raw : string) : Prop :=
  match value with
  | YString path => exists text, read_file path = Ok text /\ raw ∈ lines text
  | YSequence items => YString raw ∈ items
  | _ => False
  end.

Lemma load_set_spec read_file value i : i ∈ load_set read_file (Some value) <->
  exists raw, listed read_file value raw /\ lists i raw.
Proof.
  destruct value as [| | |path|items|]; cbn [load_set listed]; try (split; [by intros ?%not_elem_of_empty|naive_solver]).
  - destruct (read_file path) as [text|]; [|split; [by intros ?%not_elem_of_empty|naive_solver]].
    rewrite add_indicators_spec, elem_of_empty. naive_solver.
  - assert (forall set, i ∈ foldl (fun set item => match item with YString s => add_indicator set s | _ => set end) set items <->
      i ∈ set \/ exists raw, YString raw ∈ items /\ lists i raw) as ->; [|rewrite elem_of_empty; naive_solver].
    induction items as [|item items IH]; intros set; cbn [foldl].
    + split; [by left|]. intros [?|(x & ?%not_elem_of_nil & _)]; done.
    + rewrite IH. setoid_rewrite elem_of_cons. destruct item as [| | |s| |]; try naive_solver.
      rewrite add_indicator_spec. naive_solver.
Qed.

(** Where the detector looks for an indicator of each kind, and how it
    compares: hashes and domains without regard to case, addresses as they are. *)
Inductive names (d : IocDetector) (ev : Event) : string -> string -> string -> Prop :=
  | names_hash k w : k ∈ hash_fields -> field_str ev k = Some w -> to_lowercase w ∈ hashes d ->
      names d ev "hash" (to_lowercase w) "T1204"
  | names_ip k w : k ∈ ip_fields -> field_str ev k = Some w -> w ∈ ips d -> names d ev "ip" w "T1071"
  | names_dns w : field_str ev "dns.question.name" = Some w -> to_lowercase w ∈ domains d ->
      names d ev "domain" (to_lowercase w) "T1071"
  | names_target t : target ev = Some t -> kind t = "domain" -> to_lowercase (entity_id t) ∈ domains d ->
      names d ev "domain" (entity_id t) "T1071".

Lemma ioc_eval_names d ev : match ioc_eval d ev with
  | Some a => exists k v t, names d ev k v t /\
      a = mkAlert ("ioc-" +:+ k +:+ "-match") ("IOC match (" +:+ k +:+ "): " +:+ v) High (Some t) [ev_id ev] (ev_ts ev)
  | None => forall k v t, ~ names d ev k v t
  end.
Proof.
  unfold ioc_eval, hash_hit, ip_hit, domain_hit.
  pose proof (field_hit_spec to_lowercase (hashes d) ev hash_fields) as Hh.
  destruct (field_hit to_lowercase (hashes d) ev hash_fields) as [h|].
  { destruct Hh as (k & w & Hk & Hw & -> & Hin). cbn [mbind option_bind]. eexists _, _, _. split; [by eapply names_hash|done]. }
  pose proof (field_hit_spec (fun v => v) (ips d) ev ip_fields) as Hi.
  destruct (field_hit (fun v => v) (ips d) ev ip_fields) as [ip|].
  { destruct Hi as (k & w & Hk & Hw & -> & Hin). cbn [mbind option_bind]. eexists _, _, _. split; [by eapply names_ip|done]. }
  pose proof (field_hit_spec to_lowercase (domains d) ev ["dns.question.name"]) as Hd.
  destruct (field_hit to_lowercase (domains d) ev ["dns.question.name"]) as [x|].
  { destruct Hd as (k & w & ->%list_elem_of_singleton & Hw & -> & Hin). cbn [mbind option_bind].
    eexists _, _, _. split; [by eapply names_dns|done]. }
  assert (forall t, target ev = Some t -> ~ (kind t = "domain" /\ to_lowercase (entity_id t) ∈ domains d) ->
    forall k v q, ~ names d ev k v q) as Hnone.
  { intros t Ht Hno k v q Hn. destruct Hn as [k w Hk Hw Hin|k w Hk Hw Hin|w Hw Hin|t' Ht' Hkind Hin].
    - by apply (Hh k w). - by apply (Hi k w). - apply (Hd "dns.question.name" w); [by left|done|done].
    - apply Hno. rewrite Ht in Ht'. by injection Ht' as <-. }
  destruct (target ev) as [t|] eqn:Ht; cbn [mbind option_bind].
  - destruct (bool_decide (kind t = "domain")) eqn:Hk; cbn [andb]; [apply bool_decide_eq_true in Hk; case_bool_decide as Hin|].
    + cbn [mbind option_bind]. eexists _, _, _. split; [by apply names_target|done].
    + cbn [mbind option_bind]. eapply Hnone; [done|]. by intros [_ ?].
    + apply bool_decide_eq_false in Hk. cbn [mbind option_bind]. eapply Hnone; [done|]. by intros [? _].
  - intros k v q Hn. destruct Hn as [k w Hk Hw Hin|k w Hk Hw Hin|w Hw Hin|t' Ht' Hkind Hin]; [by apply (Hh k w)|by apply (Hi k w)| |congruence].
    apply (Hd "dns.question.name" w); [by left|done|done].
Qed.

(** the indicator detector fires exactly on listed indicators.  An alert is
    raised iff the event names an indicator, and it is the alert of one of
    them; an indicator is a line or list entry that is neither blank nor a
    comment, and a listed hash or domain is found in whatever case either side
    writes it (ASCII text). *)
Theorem ioc_spec read_file settings ev :
  let d := ioc_from_settings read_file settings in
  (match ioc_eval d ev with
   | Some a => exists k v t, names d ev k v t /\
       a = mkAlert ("ioc-" +:+ k +:+ "-match") ("IOC match (" +:+ k +:+ "): " +:+ v) High (Some t) [ev_id ev] (ev_ts ev)
   | None => forall k v t, ~ names d ev k v t
   end) /\
  (forall value raw key w, setting settings key = Some value -> listed read_file value raw ->
     trim raw <> "" -> starts_with "#" (trim raw) = false ->
     all_bytes is_ascii (trim raw) = true -> all_bytes is_ascii w = true ->
     to_ascii_lowercase w = to_ascii_lowercase (trim raw) ->
     (key = "hashes" /\ (exists k, k ∈ hash_fields /\ field_str ev k = Some w)) \/
     (key = "domains" /\ (field_str ev "dns.question.name" = Some w \/
                          exists t, target ev = Some t /\ kind t = "domain" /\ entity_id t = w)) ->
     is_Some (ioc_eval d ev)).
Proof.
  intros d. pose proof (ioc_eval_names d ev) as Hn. split; [done|].
  intros value raw key w Hkey Hraw Hne Hcom Ha1 Ha2 Heq Hev.
  assert (to_lowercase w ∈ load_set read_file (setting settings key)) as Hin.
  { rewrite Hkey. apply load_set_spec. exists raw. split; [done|]. split; [done|]. split; [done|].
    by rewrite !to_lowercase_ascii. }
  destruct (ioc_eval d ev) as [a|]; [by exists a|]. exfalso.
  destruct Hev as [[-> (k & Hk & Hw)]|[-> [Hw|(t & Ht & Hkind & <-)]]].
  - eapply Hn. by eapply names_hash.
  - eapply Hn. by eapply names_dns.
  - eapply Hn. by eapply names_target.
Qed.

(** Addresses are compared as they are, but kept in lower case: an address
    written with capital letters is not found even in the form it is listed. *)
Theorem ioc_address_case read_file ev :
  field_str ev "destination.ip" = Some "2001:DB8::1" -> field_str ev "source.ip" = None ->
  ioc_eval (ioc_from_settings read_file (YMapping [(YString "ips", YSequence [YString "2001:DB8::1"])])) ev = None.
Proof.
  intros Hd Hs. unfold ioc_eval. set (d := ioc_from_settings _ _).
  assert (hashes d = ∅) as Hh by done. assert (domains d = ∅) as Hdm by done.
  assert (ips d = {["2001:db8::1"]}) as Hi.
  { unfold d, ioc_from_settings. cbn [ips]. change (setting _ "ips") with (Some (YSequence [YString "2001:DB8::1"])).
    cbn [load_set foldl]. unfold add_indicator. change (trim "2001:DB8::1") with "2001:DB8::1". cbn [is_empty_str orb].
    change (starts_with "#" "2001:DB8::1") with false. cbn iota. rewrite to_lowercase_ascii by done.
    by rewrite union_empty_r_L. }
  assert (hash_hit d ev = None) as ->.
  { unfold hash_hit. rewrite Hh. pose proof (field_hit_spec to_lowercase ∅ ev hash_fields) as Hf.
    destruct (field_hit _ ∅ ev _); [|done]. destruct Hf as (? & ? & _ & _ & _ & ?%not_elem_of_empty). done. }
  assert (ip_hit d ev = None) as ->.
  { unfold ip_hit, ip_fields. cbn [field_hit]. rewrite Hd, Hs, Hi. by rewrite bool_decide_false by by rewrite elem_of_singleton. }
  assert (domain_hit d ev = None) as ->; [|done].
  unfold domain_hit. rewrite Hdm. pose proof (field_hit_spec to_lowercase ∅ ev ["dns.question.name"]) as Hf.
  destruct (field_hit _ ∅ ev _); [destruct Hf as (? & ? & _ & _ & _ & ?%not_elem_of_empty); done|].
  destruct (target ev) as [t|]; [|done]. cbn [mbind option_bind].
  by rewrite (bool_decide_false (_ ∈ (∅ : gset string))), andb_false_r by apply not_elem_of_empty.
Qed.
End theorems.

(** ** The entropy enricher and the domain detector *)

Section demo.
#[local] Instance demo_text : JsonText := fun v => match v with VNumber (NFloat t) => t | _ => "null" end.
#[local] Existing Instance demo_lower.
Definition demo_settings : yaml := YMapping [(YString "hashes", YSequence [YString "DEADBEEF"])].
Definition hashed_event : Event :=
  with_fields_labels [("file.hash.sha256", VString "deadBeef")] [] (Event_new "id" 0 "acme").

Lemma ioc_spec_witness : is_Some (ioc_eval (ioc_from_settings (fun _ => Err Io) demo_settings) hashed_event).
Proof.
  apply (proj2 (ioc_spec (fun _ => Err Io) demo_settings hashed_event)
    (YSequence [YString "DEADBEEF"]) "DEADBEEF" "hashes" "deadBeef"); try reflexivity; try discriminate.
  - by left.
  - left. split; [reflexivity|]. exists "file.hash.sha256". split; [right; by left|reflexivity].
Defined.
End demo.

Section dga.
Context `{JsonText} `{RegexReplace} `{Log2} `{CountOrder} `{FloatText} `{!FloatTextLaws}.

(** the score the enricher stamps is the score the detector reads.  For an
    event with a domain whose label is long enough and whose entropy is a
    finite number, the detector behind the enricher fires exactly when the
    entropy rounded to two decimals is not below its threshold, whatever the
    enricher's own threshold; the alert carries the event. *)
Theorem entropy_feeds_dga labelling threshold ev candidate :
  candidate_domain ev = Some candidate -> (MIN_LEN <= String.length (significant_label candidate))%nat ->
  is_finite (two_decimals (shannon_entropy (significant_label candidate))) = true ->
  (is_Some (dga_eval threshold (entropy_enrich labelling ev)) <->
     f64_lt (two_decimals (shannon_entropy (significant_label candidate))) threshold = false) /\
  (forall a, dga_eval threshold (entropy_enrich labelling ev) = Some a ->
     a_events a = [ev_id ev] /\ a_ts a = ev_ts ev /\ a_rule_id a = "dga-domain").
Proof.
  intros Hc Hlen Hfin.
  assert (exists d, forall thr, dga_eval thr (entropy_enrich labelling ev) =
    if f64_lt (two_decimals (shannon_entropy (significant_label candidate))) thr then None
    else Some (mkAlert "dga-domain" d Medium (Some "T1568.002") [ev_id ev] (ev_ts ev))) as (d & Hd).
  { unfold entropy_enrich. rewrite Hc. destruct (Nat.ltb_spec (String.length (significant_label candidate)) MIN_LEN); [lia|].
    set (bits := shannon_entropy _) in *. set (ev' := with_fields_labels _ _ ev).
    eexists. intros thr. unfold dga_eval.
    assert (field_str ev' "dga.score" = Some (f64_text (two_decimals bits))) as ->.
    { unfold field_str, ev'. cbn [fields with_fields_labels]. rewrite smap_get_insert. cbn [decide fmap option_fmap option_map].
      rewrite decide_True by done. unfold value_of_f64. rewrite Hfin. cbn. by rewrite json_text_float. }
    cbn [mbind option_bind]. rewrite f64_parse_text by done. cbn [mbind option_bind]. reflexivity. }
  rewrite Hd. destruct (f64_lt _ threshold).
  - split; [split; [by intros [? ?]|done]|done].
  - split; [split; [done|by eexists]|]. by intros a [= <-].
Qed.

(** The label and the detector can disagree: 3.496 bits are below the default
    threshold and round to it. *)
Lemma rounding_crosses_threshold : let bits := f64_div (f64_of 3496) (f64_of 1000) in
  f64_ge bits DEFAULT_THRESHOLD = false /\ f64_lt (two_decimals bits) DEFAULT_THRESHOLD = false.
Proof. vm_compute. done. Qed.
End dga.

Section dga_demo.
Definition float_code (x : f64) : option bool * option (bool * positive * Z) :=
  match x with
  | SpecFloat.S754_zero s => (Some s, None)
  | SpecFloat.S754_infinity s => (Some s, Some (s, 1%positive, 0%Z))
  | SpecFloat.S754_nan => (None, None)
  | SpecFloat.S754_finite s m e => (None, Some (s, m, e))
  end.
Definition float_decode (c : option bool * option (bool * positive * Z)) : f64 :=
  match c with
  | (Some s, None) => SpecFloat.S754_zero s
  | (Some s, Some _) => SpecFloat.S754_infinity s
  | (None, None) => SpecFloat.S754_nan
  | (None, Some (s, m, e)) => SpecFloat.S754_finite s m e
  end.

Lemma float_decode_code x : float_decode (float_code x) = x.
Proof. by destruct x. Qed.

#[local] Instance float_eq_dec : EqDecision f64.
Proof. solve_decision. Defined.
#[local] Instance float_countable : Countable f64 := inj_countable' float_code float_decode float_decode_code.
#[local] Instance demo_float_text : FloatText :=
  {| f64_text x := @ser _ (countable_serde f64) x; f64_parse t := @de _ (countable_serde f64) t |}.
#[local] Existing Instance demo_text.

Lemma demo_float_laws : FloatTextLaws.
Proof. split; [intros x _; apply (countable_serde_laws f64)|done]. Qed.
#[local] Existing Instance demo_float_laws.

(** Every character of the label is one of eight: three bits each. *)
#[local] Instance demo_log2 : Log2 := fun _ => f64_of (-3).
#[local] Instance demo_order : CountOrder := fun l => l.
#[local] Instance demo_replace : RegexReplace := fun _ _ s => s.

Definition dga_event : Event :=
  with_fields_labels [("domain", VString "qwertyui.example.com")] [] (Event_new "id" 0 "acme").

Lemma entropy_feeds_dga_witness : is_Some (dga_eval (f64_of 3) (entropy_enrich DEFAULT_THRESHOLD dga_event)).
Proof.
  apply (proj1 (entropy_feeds_dga DEFAULT_THRESHOLD (f64_of 3) dga_event "qwertyui.example.com" eq_refl
    ltac:(vm_compute; repeat constructor) ltac:(vm_compute; reflexivity))).
  vm_compute. reflexivity.
Defined.
End dga_demo.
