(* ===== verification/ColdTier.v ===== *)
(** * The cold tier, as its clients see it

    What the pipeline relies on of the columnar store: an interface with its
    laws, and the store of [Segments] as an implementation of them. *)

From stdpp Require Import gmap strings list.
From S2P Require Import Prelude Containers Core Serde Store Columnar Segments Tiering.

(** ** The interface *)

(** Writing a batch, dropping old batches, archiving. *)
Class ColdTier (C : Type) := {
  cold_write : Z -> Z -> list Event -> C -> C * result unit;
  cold_retain : Z -> Z -> C -> C * result nat;
  cold_archive : Z -> Z -> C -> C * result nat
}.

(** The batches a tier holds, oldest first, and the events it can write. *)
Class ColdTierLaws (C : Type) `{ColdTier C} := {
  cold_holds : C -> list (string * list Event) -> Prop;
  cold_writable : Event -> Prop;
  cold_write_ok c l now_id now es : cold_holds c l -> es <> [] -> Forall cold_writable es ->
    ulid_like now_id ∉ l.*1 ->
    exists c', cold_write now_id now es c = (c', Ok ()) /\ cold_holds c' (l ++ [(ulid_like now_id, es)]);
  cold_retain_ok c l now age : cold_holds c l -> clock_ok now l ->
    exists c', cold_retain now age c = (c', Ok (length (filter (batch_expired now age) l))) /\
      cold_holds c' (lib_retain now age l);
  cold_archive_ok c l now age : cold_holds c l -> cold_holds (cold_archive now age c).1 l
}.

(** ** The columnar store, no call failing *)

Section instance.
Context `{Jt : JsonText} `{Jp : JsonParse} `{Ar : Arrow} `{Se : Serde (list SegmentMeta)}.

(** A run of an operation without failures. *)
Definition run_clean {A} (m : IO A) (w : ColumnarStore) : ColumnarStore * result A :=
  let '(_, w', r) := m ([], w) in (w', r).

#[export] Instance columnar_tier : ColdTier ColumnarStore := {|
  cold_write now_id now es := run_clean (_ ← write_segment now_id now es; mret ());
  cold_retain now age := run_clean (enforce_retention now age);
  cold_archive now age := run_clean (migrate_warm now age)
|}.

#[export] Program Instance columnar_tier_laws `{!JsonLaws} `{!ArrowLaws} `{!SerdeLaws (list SegmentMeta)} :
  ColdTierLaws ColumnarStore := {| cold_holds := stored; cold_writable := exact_event |}.
Next Obligation.
  intros ??? w l now_id now es Hst Hne Hex Hf. destruct (write_clean w l now_id now es Hst Hne Hex Hf) as (w' & m & Hw & _ & _ & Hst').
  exists w'. split; [|done]. cbn. unfold run_clean, mbind, IO_bind. by rewrite Hw.
Qed.
Next Obligation.
  intros ??? w l now age Hst Hclk. destruct (retention_clean w l now age Hclk Hst) as (w' & Hw & Hst').
  exists w'. split; [|done]. cbn. unfold run_clean. by rewrite Hw.
Qed.
Next Obligation.
  intros ??? w l now age Hst. destruct (migrate_warm_ok [] w l now age ltac:(constructor) Hst) as (fs' & w' & r & Hw & _ & Hst' & _).
  cbn. unfold run_clean. by rewrite Hw.
Qed.
End instance.
