(* ===== verification/Pipeline.v ===== *)
(** * [sigil-cli/src/run.rs]: the node's pipeline

    Frames and endpoint events through decoding, normalisation, enrichment,
    template mining, detection, the hot index and the cold tier; the loop of
    [run] as a run over its inputs and ticks, and [replay].  The hot index
    (Tantivy) is what was added and what was committed, and its calls may
    fail; the cold tier is any [ColdTier].  Clock readings and fresh
    identifiers are numbered.  A panic stops the run. *)

From stdpp Require Import gmap strings list.
From S2P Require Import Prelude Utf8 Containers Core Yaml SigmaMatcher SigmaEngine SigmaCorrelation.
From S2P Require Import Cluster Serde Store Columnar Segments Tiering Text Config Codec Cef Leef Float Template.
From S2P Require Import Normalize Plugin Enrich Detect ColdTier.

Definition TENANT : string := "default".
Definition ROLL_MAX : nat := 2000.

(** ** Set-up *)

(** [build_codec]: the decoder of a kind; a cached codec has no state. *)
Definition build_codec `{JsonText} `{JsonParse} (kind : string) : string -> list Rec :=
  if bool_decide (kind = "json") then json_decode
  else if bool_decide (kind = "syslog") then syslog_decode
  else if bool_decide (kind = "cef") then cef_decode
  else if bool_decide (kind = "leef") then leef_decode
  else raw_decode.

Definition sources_routed_to (cfg : Config) (sink : string) : gset string :=
  list_to_set (concat ((fun p => if existsb (fun r => bool_decide (r = sink)) (pl_route p) then pl_from p else [])
                         <$> cf_pipelines cfg)).

(** The capabilities granted: what the enrichers ask for, never the network. *)
Definition grant (built : list (list Capability)) : list Capability :=
  foldl (fun granted c => if bool_decide (c <> NetEgress) && negb (bool_decide (c ∈ granted)) then granted ++ [c] else granted)
    [] (concat built).

Definition policy_allows (p : CapabilityPolicy) (requested : list Capability) : bool :=
  match check p requested with inl _ => true | inr _ => false end.

Section setup.
Context `{FloatText} (read_file : string -> result string).

Definition build_enrich_chain (cfg : Config) : list Enricher :=
  let built := omap (fun ns => build_enricher read_file ns.1 ns.2) (enrich_steps cfg) in
  if is_nil built then []
  else
    let policy := grant (capabilities <$> built) in
    filter (fun e => policy_allows policy (capabilities e) = true) built.

Definition build_detector_chain `{Casing} (cfg : Config) : list Detector :=
  omap (fun ns => build_detector read_file ns.1 ns.2) (detector_steps cfg).

(** Whether the frames of an input are indexed, and whether they are matched. *)
Definition should_index (cfg : Config) (run_index : bool) (input : string) : bool :=
  run_index && (bool_decide (sources_routed_to cfg "index" = ∅) || bool_decide (input ∈ sources_routed_to cfg "index")).
Definition should_sigma (cfg : Config) (run_index sigma_active : bool) (input : string) : bool :=
  run_index && sigma_active && bool_decide (input ∈ sources_routed_to cfg "sigma").

Definition sigma_active (cfg : Config) (engine_len : nat) (detectors : list Detector) : bool :=
  sc_enabled (cf_sigma cfg) && ((0 <? engine_len)%nat || negb (is_nil detectors)).
End setup.

(** ** The node *)

(** [EventIndex]: documents added, and those a commit made searchable. *)
Record Hot : Type := mkHot { staged : list Event; searchable : list Event }.

Record RawFrame : Type := mkFrame { codec_kind : string; f_index : bool; f_sigma : bool; bytes : string }.

(** What stays the same during a run. *)
Record Setup : Type := mkSetup {
  st_chain : list Enricher; st_detectors : list Detector; st_sigma : bool;
  st_retention : option Z; st_warm : option Z
}.

(** [n_index_faults]: whether the next calls of the hot index fail; an
    exhausted list is a run without failure. *)
Record Node {C : Type} `{RegexEngine} : Type := mkNode {
  n_hot : Hot; n_index_faults : list bool; n_cold : C;
  n_engine : list CompiledRule; n_corr : CorrelationEngine;
  n_miner : TemplateMiner; n_buffer : list Event; n_dirty : nat; n_alerts : list Alert; n_time : nat
}.
Arguments Node C {_}.

Inductive outcome (A : Type) : Type := Done (a : A) | Failed (e : error) | Panicked.
Arguments Done {A} a.
Arguments Failed {A} e.
Arguments Panicked {A}.

Definition with_template (t : Z) (ev : Event) : Event :=
  mkEvent (ev_id ev) (ev_ts ev) (ingest_ts ev) (ocsf_class ev) (tenant ev) (severity ev) (host ev) (actor ev)
    (target ev) (message ev) (fields ev) (Some t) (labels ev) (raw ev).

Section node.
Context {C : Type} `{ColdTier C}.
Context `{JsonText} `{JsonParse} `{RegexEngine} `{Casing} `{RegexReplace} `{Log2} `{CountOrder} `{FloatText}.
(** The identifiers and clock readings of a run, in order. *)
Context (ulid : nat -> string) (clock : nat -> Z).

Definition M (A : Type) : Type := Node C -> Node C * outcome A.

#[local] Instance M_ret : MRet M := fun A a n => (n, Done a).
#[local] Instance M_bind : MBind M := fun A B f m n =>
  match m n with
  | (n', Done a) => f a n'
  | (n', Failed e) => (n', Failed e)
  | (n', Panicked) => (n', Panicked)
  end.

Definition gets {A} (f : Node C -> A) : M A := fun n => (n, Done (f n)).
Definition update (f : Node C -> Node C) : M unit := fun n => (f n, Done ()).
Definition fail_with {A} (e : error) : M A := fun n => (n, Failed e).

Definition set_hot (h : Hot) (n : Node C) : Node C :=
  mkNode _ _ h (n_index_faults n) (n_cold n) (n_engine n) (n_corr n) (n_miner n) (n_buffer n) (n_dirty n) (n_alerts n) (n_time n).
Definition set_faults (l : list bool) (n : Node C) : Node C :=
  mkNode _ _ (n_hot n) l (n_cold n) (n_engine n) (n_corr n) (n_miner n) (n_buffer n) (n_dirty n) (n_alerts n) (n_time n).
Definition set_cold (c : C) (n : Node C) : Node C :=
  mkNode _ _ (n_hot n) (n_index_faults n) c (n_engine n) (n_corr n) (n_miner n) (n_buffer n) (n_dirty n) (n_alerts n) (n_time n).
Definition set_engine (l : list CompiledRule) (n : Node C) : Node C :=
  mkNode _ _ (n_hot n) (n_index_faults n) (n_cold n) l (n_corr n) (n_miner n) (n_buffer n) (n_dirty n) (n_alerts n) (n_time n).
Definition set_corr (c : CorrelationEngine) (n : Node C) : Node C :=
  mkNode _ _ (n_hot n) (n_index_faults n) (n_cold n) (n_engine n) c (n_miner n) (n_buffer n) (n_dirty n) (n_alerts n) (n_time n).
Definition set_miner (m : TemplateMiner) (n : Node C) : Node C :=
  mkNode _ _ (n_hot n) (n_index_faults n) (n_cold n) (n_engine n) (n_corr n) m (n_buffer n) (n_dirty n) (n_alerts n) (n_time n).
Definition set_buffer (b : list Event) (n : Node C) : Node C :=
  mkNode _ _ (n_hot n) (n_index_faults n) (n_cold n) (n_engine n) (n_corr n) (n_miner n) b (n_dirty n) (n_alerts n) (n_time n).
Definition set_dirty (d : nat) (n : Node C) : Node C :=
  mkNode _ _ (n_hot n) (n_index_faults n) (n_cold n) (n_engine n) (n_corr n) (n_miner n) (n_buffer n) d (n_alerts n) (n_time n).
Definition set_alerts (l : list Alert) (n : Node C) : Node C :=
  mkNode _ _ (n_hot n) (n_index_faults n) (n_cold n) (n_engine n) (n_corr n) (n_miner n) (n_buffer n) (n_dirty n) l (n_time n).
Definition set_time (t : nat) (n : Node C) : Node C :=
  mkNode _ _ (n_hot n) (n_index_faults n) (n_cold n) (n_engine n) (n_corr n) (n_miner n) (n_buffer n) (n_dirty n) (n_alerts n) t.

(** One more reading of the clock, or fresh identifier. *)
Definition tick : M nat := fun n => (set_time (S (n_time n)) n, Done (n_time n)).

(** ** The hot index and the cold tier *)

(** One call of the hot index. *)
Definition index_call (f : Hot -> Hot) : M unit := fun n =>
  match n_index_faults n with
  | true :: l => (set_faults l n, Failed Backend)
  | false :: l => (set_hot (f (n_hot n)) (set_faults l n), Done ())
  | [] => (set_hot (f (n_hot n)) n, Done ())
  end.
Definition index_add (ev : Event) : M unit := index_call (fun h => mkHot (staged h ++ [ev]) (searchable h)).
Definition index_commit : M unit := index_call (fun h => mkHot [] (searchable h ++ staged h)).

(** [roll]: the buffer as one segment. *)
Definition roll : M unit :=
  buffer ← gets n_buffer;
  if is_nil buffer then mret ()
  else
    t1 ← tick;
    t2 ← tick;
    c ← gets n_cold;
    let '(c, r) := cold_write (clock t1) (clock t2) buffer c in
    update (set_cold c) ;;
    match r with
    | Err e => fail_with e
    | Ok _ => update (set_buffer [])
    end.

(** ** Detection *)

(** Sigma rules, then correlations over their alerts, then the detectors; the
    alerts of suppressed rules are dropped, the rest is recorded and sent. *)
Definition detect (detectors : list Detector) (ev : Event) : M unit :=
  engine ← gets n_engine;
  corr ← gets n_corr;
  t1 ← tick;
  t2 ← tick;
  let base := engine_eval engine (clock t1) ev in
  let '(fired, corr) := process corr (clock t2) ev base in
  let kept := filter (fun a => suppressed corr (a_rule_id a) = false) base in
  update (set_corr corr) ;;
  update (fun n => set_alerts (n_alerts n ++ (kept ++ fired ++ chain_eval detectors ev)) n).

(** ** One frame *)

(** Every record of a frame, normalised and enriched. *)
Fixpoint normalize_records (chain : list Enricher) (records : list Rec) : M (list Event) :=
  match records with
  | [] => mret []
  | r :: rs =>
      t ← tick;
      match normalize (ulid t) (clock t) TENANT r with
      | None => fun n => (n, Panicked)
      | Some ev => evs ← normalize_records chain rs; mret (apply_chain chain ev :: evs)
      end
  end.
Definition decode_normalize (chain : list Enricher) (frame : RawFrame) : M (list Event) :=
  normalize_records chain (build_codec (codec_kind frame) (bytes frame)).

(** The template of the message. *)
Definition mine_event (ev : Event) : M Event :=
  m ← gets n_miner;
  let '(m, mined) := mine (message ev) m in
  update (set_miner m) ;;
  mret (with_template (m_template_id mined) ev).

Definition index_event (ev : Event) : M unit :=
  index_add ev ;;
  update (fun n => set_dirty (S (n_dirty n)) n) ;;
  update (fun n => set_buffer (n_buffer n ++ [ev]) n) ;;
  buffer ← gets n_buffer;
  if (ROLL_MAX <=? length buffer)%nat then roll else mret ().

Definition handle_event (st : Setup) (sigma index : bool) (ev : Event) : M unit :=
  ev ← mine_event ev;
  (if sigma then detect (st_detectors st) ev else mret ()) ;;
  if index then index_event ev else mret ().

Fixpoint handle_events (st : Setup) (sigma index : bool) (evs : list Event) : M unit :=
  match evs with
  | [] => mret ()
  | ev :: evs => handle_event st sigma index ev ;; handle_events st sigma index evs
  end.

(** ** The loop *)

(** What the loop selects, and a rule edit of the API on the shared engine. *)
Inductive node_input : Type :=
  | FromInput (frame : RawFrame)
  | FromAgent (ev : Event)
  | CommitTick
  | RolloverTick
  | RetentionTick
  | EngineEdit (rules : list CompiledRule).

Definition commit_tick : M unit :=
  dirty ← gets n_dirty;
  if (0 <? dirty)%nat then index_commit ;; update (set_dirty 0) else mret ().

(** Retention stops the run when it fails, migration only warns. *)
Definition retention_tick (st : Setup) : M unit :=
  match st_retention st with
  | None => mret ()
  | Some age =>
      t ← tick;
      c ← gets n_cold;
      let '(c, r) := cold_retain (clock t) age c in
      update (set_cold c) ;;
      match r with Err e => fail_with e | Ok _ => mret () end
  end ;;
  match st_warm st with
  | None => mret ()
  | Some age =>
      t ← tick;
      c ← gets n_cold;
      update (set_cold (cold_archive (clock t) age c).1)
  end.

Definition handle_input (st : Setup) (i : node_input) : M unit :=
  match i with
  | FromInput frame =>
      evs ← decode_normalize (st_chain st) frame;
      handle_events st (f_sigma frame) (f_index frame) evs
  | FromAgent ev => handle_event st (st_sigma st) true ev
  | CommitTick => commit_tick
  | RolloverTick => roll
  | RetentionTick => retention_tick st
  | EngineEdit rules => update (set_engine rules)
  end.

Fixpoint run_loop (st : Setup) (inputs : list node_input) : M unit :=
  match inputs with
  | [] => mret ()
  | i :: inputs => handle_input st i ;; run_loop st inputs
  end.

(** The loop until it is interrupted or a batch node has drained its inputs,
    then the final commit and roll. *)
Definition run (st : Setup) (inputs : list node_input) : M unit :=
  run_loop st inputs ;; index_commit ;; roll.

(** ** What the node holds *)

Definition hot_events (n : Node C) : list Event := searchable (n_hot n) ++ staged (n_hot n).

(** The raw bytes an input brings to the index. *)
Definition input_raws (i : node_input) : list string :=
  match i with
  | FromInput frame => if f_index frame then rec_raw <$> build_codec (codec_kind frame) (bytes frame) else []
  | FromAgent ev => [raw ev]
  | _ => []
  end.

(** An event that an input can bring to the index. *)
Definition produced (st : Setup) (i : node_input) (ev : Event) : Prop :=
  match i with
  | FromInput frame => exists r t e tid, r ∈ build_codec (codec_kind frame) (bytes frame) /\
      normalize (ulid t) (clock t) TENANT r = Some e /\ ev = with_template tid (apply_chain (st_chain st) e)
  | FromAgent e => exists tid, ev = with_template tid e
  | _ => False
  end.

Context `{!ColdTierLaws C}.

(** Events the cold tier writes, dated within reach of the clock. *)
Definition near (t : Z) : Prop := (- 2 ^ 62 <= t < 2 ^ 62)%Z.
Definition fine (ev : Event) : Prop := cold_writable ev /\ near (ev_ts ev).

(** The invariant: [hist] is every batch ever written, [held] those the cold
    tier still holds; the hot index has exactly their events and the buffer;
    a batch is missing only when a retention tick found it expired. *)
Record node_inv (st : Setup) (room : nat) (cold : C) (hot : Hot) (buffer : list Event) (dirty time : nat)
    (held hist : list (string * list Event)) : Prop := {
  ni_held : cold_holds cold held;
  ni_sub : held `sublist_of` hist;
  ni_dropped ie : ie ∈ hist -> ie ∈ held \/ exists t age,
    t < time /\ st_retention st = Some age /\ batch_expired (clock t) age ie;
  ni_hot : searchable hot ++ staged hot = concat hist.*2 ++ buffer;
  ni_dirty : length (staged hot) <= dirty;
  ni_room : length buffer < room;
  ni_ids : NoDup hist.*1;
  ni_clock ie : ie ∈ hist -> exists t, t < time /\ ie.1 = ulid_like (clock t);
  ni_batch ie : ie ∈ hist -> ie.2 <> [] /\ length ie.2 <= ROLL_MAX;
  ni_fine : Forall fine (concat hist.*2 ++ buffer)
}.
Definition inv (st : Setup) (n : Node C) : list (string * list Event) -> list (string * list Event) -> Prop :=
  node_inv st ROLL_MAX (n_cold n) (n_hot n) (n_buffer n) (n_dirty n) (n_time n).

(** The first [T] readings of the clock are near and give segments different
    names. *)
Record clock_fine (T : nat) : Prop := {
  clock_near t : t < T -> near (clock t);
  clock_names t t' : t < T -> t' < T -> ulid_like (clock t) = ulid_like (clock t') -> t = t'
}.

Lemma inv_later st room cold hot buffer dirty time time' held hist : time <= time' ->
  node_inv st room cold hot buffer dirty time held hist -> node_inv st room cold hot buffer dirty time' held hist.
Proof.
  intros Ht [? ? Hd ? ? ? ? Hc ? ?]. split; try done.
  - intros ie Hi. destruct (Hd ie Hi) as [?|(t & age & ? & ? & ?)]; [by left|]. right. exists t, age. split; [lia|done].
  - intros ie Hi. destruct (Hc ie Hi) as (t & ? & ?). exists t. split; [lia|done].
Qed.

(** *** Time goes on *)

Definition mono {A} (m : M A) : Prop := forall n, n_time n <= n_time (m n).1.

Lemma mono_bind {A B} (m : M A) (f : A -> M B) : mono m -> (forall a, mono (f a)) -> mono (m ≫= f).
Proof.
  intros Hm Hf n. unfold mbind, M_bind. specialize (Hm n). destruct (m n) as [n' [a| |]]; cbn in *; [|done..].
  etransitivity; [exact Hm|apply Hf].
Qed.

Lemma mono_ret {A} (a : A) : mono (mret a).
Proof. by intros n. Qed.
Lemma mono_gets {A} (f : Node C -> A) : mono (gets f).
Proof. by intros n. Qed.
Lemma mono_fail {A} e : mono (fail_with (A := A) e).
Proof. by intros n. Qed.
Lemma mono_tick : mono tick.
Proof. intros n. cbn. lia. Qed.
Lemma mono_call f : mono (index_call f).
Proof. intros n. unfold index_call. by destruct (n_index_faults n) as [|[] ?]. Qed.

Ltac mono_tac := repeat match goal with
  | |- mono (_ ≫= _) => apply mono_bind; [|intros ?]
  | |- mono (mret _) => apply mono_ret
  | |- mono (gets _) => apply mono_gets
  | |- mono (fail_with _) => apply mono_fail
  | |- mono tick => apply mono_tick
  | |- mono (index_call _) => apply mono_call
  | |- mono (update _) => intros ?; reflexivity
  | |- mono (let '(_, _) := ?x in _) => destruct x
  | |- mono (match ?x with _ => _ end) => destruct x
  | |- mono (if ?x then _ else _) => destruct x
  end.

Lemma mono_roll : mono roll.
Proof. unfold roll. mono_tac. Qed.
Lemma mono_detect detectors ev : mono (detect detectors ev).
Proof. unfold detect. mono_tac. Qed.
Lemma mono_normalize chain rs : mono (normalize_records chain rs).
Proof. induction rs as [|r rs IH]; cbn [normalize_records]; mono_tac; first [exact IH|by intros ?]. Qed.
Lemma mono_event st sigma index ev : mono (handle_event st sigma index ev).
Proof.
  unfold handle_event, mine_event, index_event, index_add. mono_tac; try apply mono_detect; apply mono_roll.
Qed.
Lemma mono_events st sigma index evs : mono (handle_events st sigma index evs).
Proof. induction evs as [|ev evs IH]; cbn [handle_events]; mono_tac; [apply mono_event|exact IH]. Qed.
Lemma mono_input st i : mono (handle_input st i).
Proof.
  destruct i; cbn [handle_input]; unfold decode_normalize, commit_tick, index_commit, retention_tick; mono_tac.
  all: try apply mono_normalize; try apply mono_events; try apply mono_event; apply mono_roll.
Qed.
Lemma mono_loop st inputs : mono (run_loop st inputs).
Proof. induction inputs as [|i inputs IH]; cbn [run_loop]; mono_tac; [apply mono_input|exact IH]. Qed.

(** *** The hot index and the cold tier *)

Lemma add_inv st room cold hot buffer dirty time held hist ev : fine ev ->
  node_inv st room cold hot buffer dirty time held hist ->
  node_inv st (S room) cold (mkHot (staged hot ++ [ev]) (searchable hot)) (buffer ++ [ev]) (S dirty) time held hist.
Proof.
  intros Hf [? ? ? Hh Hd Hr ? ? ? Hall]. split; try done; cbn [staged searchable].
  - by rewrite app_assoc, Hh, <- app_assoc.
  - rewrite length_app. cbn. lia.
  - rewrite length_app. cbn. lia.
  - rewrite app_assoc. apply Forall_app. split; [done|by constructor].
Qed.

Lemma commit_inv st room cold hot buffer dirty dirty' time held hist :
  node_inv st room cold hot buffer dirty time held hist ->
  node_inv st room cold (mkHot [] (searchable hot ++ staged hot)) buffer dirty' time held hist.
Proof. intros [? ? ? Hh Hd Hr ? ? ? Hall]. split; try done; cbn [staged searchable length]; [by rewrite app_nil_r|lia]. Qed.

Lemma room_positive : 0 < ROLL_MAX.
Proof. by apply Nat.ltb_lt. Qed.

(** Writing the buffer as a batch. *)
Lemma write_inv st T room cold hot buffer dirty time held hist : clock_fine T -> S time < T -> room <= S ROLL_MAX ->
  buffer <> [] -> node_inv st room cold hot buffer dirty time held hist ->
  exists c' id, cold_write (clock time) (clock (S time)) buffer cold = (c', Ok ()) /\
    node_inv st ROLL_MAX c' hot [] dirty (S (S time)) (held ++ [(id, buffer)]) (hist ++ [(id, buffer)]).
Proof.
  intros [Hnear Hnames] Ht Hroom Hne [Hh Hs Hd Hhot Hdirty Hr Hids Hck Hb Hall].
  assert (forall ie, ie ∈ hist -> ie.1 <> ulid_like (clock time)) as Hnew.
  { intros ie Hie Heq. destruct (Hck ie Hie) as (t & Hlt & Hid). rewrite Hid in Heq.
    apply Hnames in Heq; lia. }
  apply Forall_app in Hall as [Hall1 Hall2].
  destruct (cold_write_ok cold held (clock time) (clock (S time)) buffer Hh Hne) as (c' & Hw & Hh').
  { eapply Forall_impl; [exact Hall2|]. by intros ev [? _]. }
  { intros (ie & Hid & Hie)%list_elem_of_fmap. eapply Hnew; [|done]. eapply elem_of_sublist; [done|done]. }
  exists c', (ulid_like (clock time)). split; [done|]. split.
  - done.
  - by apply sublist_app.
  - intros ie [Hie|Hie%list_elem_of_singleton]%elem_of_app.
    + destruct (Hd ie Hie) as [?|(t & age & ? & ? & ?)]; [left; apply elem_of_app; by left|].
      right. exists t, age. split; [lia|done].
    + subst ie. left. apply elem_of_app. right. by left.
  - rewrite Hhot, fmap_app, concat_app. cbn. by rewrite !app_nil_r.
  - done.
  - apply room_positive.
  - rewrite fmap_app. apply NoDup_app. split; [done|]. split; [|apply NoDup_singleton].
    intros id (ie & -> & Hie)%list_elem_of_fmap Hin%list_elem_of_singleton. by eapply Hnew.
  - intros ie [Hie|Hie%list_elem_of_singleton]%elem_of_app.
    + destruct (Hck ie Hie) as (t & ? & ?). exists t. split; [lia|done].
    + subst ie. exists time. split; [lia|done].
  - intros ie [Hie|Hie%list_elem_of_singleton]%elem_of_app; [by apply Hb|]. subst ie. cbn. split; [done|lia].
  - rewrite fmap_app, concat_app. cbn. rewrite !app_nil_r. by apply Forall_app.
Qed.

Lemma near_diff a b : near a -> near b -> in_i64 (a - b).
Proof. unfold near, in_i64, i64_min, i64_max. lia. Qed.

Lemma max_ts_in l : l <> [] -> max_ts l ∈ l.
Proof.
  destruct l as [|x l]; [done|]. intros _. cbn [max_ts]. revert x. induction l as [|y l IH]; intros x; cbn [foldl]; [by left|].
  specialize (IH (Z.max x y)). apply elem_of_cons in IH as [IH|IH]; [|by right; right].
  rewrite IH. destruct (Z.max_spec x y) as [[_ ->]|[_ ->]]; [right; by left|by left].
Qed.

Lemma held_clock st room cold hot buffer dirty time held hist now :
  near now -> node_inv st room cold hot buffer dirty time held hist -> clock_ok now held.
Proof.
  intros Hnow [Hh Hs _ _ _ _ _ _ Hb Hall]. apply Forall_forall. intros ie Hie. apply near_diff; [done|].
  assert (ie ∈ hist) as Hin by (eapply elem_of_sublist; [done|done]). destruct (Hb ie Hin) as [Hne _].
  assert (max_ts (batch_ts ie) ∈ batch_ts ie) as Hm by (apply max_ts_in; unfold batch_ts; by destruct ie.2).
  unfold batch_ts in Hm at 2. apply list_elem_of_fmap in Hm as (ev & -> & Hev).
  rewrite Forall_app, Forall_forall in Hall. destruct Hall as [Hall _]. apply (Hall ev).
  apply list_elem_of_In, in_concat. exists ie.2. split; apply list_elem_of_In; [|done]. apply list_elem_of_fmap. by exists ie.
Qed.

(** A retention tick drops what is expired. *)
Lemma retain_inv st cold hot buffer dirty time held hist age :
  near (clock time) -> st_retention st = Some age ->
  node_inv st ROLL_MAX cold hot buffer dirty time held hist ->
  exists c' k held', cold_retain (clock time) age cold = (c', Ok k) /\
    node_inv st ROLL_MAX c' hot buffer dirty (S time) held' hist.
Proof.
  intros Hnow Hage Hinv. pose proof (held_clock _ _ _ _ _ _ _ _ _ _ Hnow Hinv) as Hclk.
  destruct Hinv as [Hh Hs Hd Hhot Hdirty Hr Hids Hck Hb Hall].
  destruct (cold_retain_ok cold held (clock time) age Hh Hclk) as (c' & Hc & Hh').
  exists c', (length (filter (batch_expired (clock time) age) held)), (lib_retain (clock time) age held).
  split; [done|]. split; try done.
  - etransitivity; [|exact Hs]. apply sublist_filter.
  - intros ie Hie. destruct (Hd ie Hie) as [Hin|(t & a & ? & ? & ?)]; [|right; exists t, a; split; [lia|done]].
    destruct (decide (batch_expired (clock time) age ie)) as [He|He].
    + right. exists time, age. split; [lia|done].
    + left. by apply list_elem_of_filter.
  - intros ie Hie. destruct (Hck ie Hie) as (t & ? & ?). exists t. split; [lia|done].
Qed.

(** *** What a step keeps and brings *)

(** The raw bytes brought to the index: all of [full], or a prefix of it when
    the step stops early. *)
Definition brings (o : outcome unit) (before after full : list string) : Prop :=
  match o with
  | Done _ => after = before ++ full
  | _ => exists part, part `prefix_of` full /\ after = before ++ part
  end.

Definition raws (n : Node C) : list string := raw <$> hot_events n.

Section runs.
Context (st : Setup) (T : nat) (Hclock : clock_fine T).

Definition keeps (m : M unit) (full : list string) : Prop := forall n held hist,
  inv st n held hist -> n_time (m n).1 <= T ->
  exists held' hist', inv st (m n).1 held' hist' /\ hist `prefix_of` hist' /\ brings (m n).2 (raws n) (raws (m n).1) full.

Lemma keeps_ret : keeps (mret ()) [].
Proof. intros n held hist Hinv _. exists held, hist. split; [done|]. split; [done|]. cbn. by rewrite app_nil_r. Qed.

Lemma keeps_seq m k a b : keeps m a -> mono k -> keeps k b -> keeps (m ;; k) (a ++ b).
Proof.
  intros Hm Hmono Hk n held hist Hinv. specialize (Hm n held hist Hinv).
  cbn [mbind M_bind]. unfold mbind, M_bind. destruct (m n) as [n1 [[]| |]] eqn:E; cbn [fst snd] in *.
  - intros HT. specialize (Hmono n1). destruct Hm as (h1 & hh1 & Hinv1 & Hp1 & Hb1); [lia|].
    destruct (Hk n1 h1 hh1 Hinv1 HT) as (h2 & hh2 & Hinv2 & Hp2 & Hb2). exists h2, hh2. split; [done|].
    split; [by etransitivity|]. cbn in Hb1. rewrite Hb1 in Hb2. unfold brings in *. destruct (k n1).2; cbn in *.
    + by rewrite Hb2, <- app_assoc.
    + destruct Hb2 as (part & Hpart & ->). exists (a ++ part). split; [by apply prefix_app|by rewrite <- app_assoc].
    + destruct Hb2 as (part & Hpart & ->). exists (a ++ part). split; [by apply prefix_app|by rewrite <- app_assoc].
  - intros HT. destruct (Hm HT) as (h1 & hh1 & Hinv1 & Hp1 & part & Hpart & Hb). exists h1, hh1. split; [done|].
    split; [done|]. exists part. split; [by apply prefix_app_r|done].
  - intros HT. destruct (Hm HT) as (h1 & hh1 & Hinv1 & Hp1 & part & Hpart & Hb). exists h1, hh1. split; [done|].
    split; [done|]. exists part. split; [by apply prefix_app_r|done].
Qed.

(** [roll] from a buffer with room for one more event than a batch holds. *)
Lemma roll_run n held hist : node_inv st (S ROLL_MAX) (n_cold n) (n_hot n) (n_buffer n) (n_dirty n) (n_time n) held hist ->
  n_time (roll n).1 <= T ->
  exists held' hist', inv st (roll n).1 held' hist' /\ hist `prefix_of` hist' /\
    (roll n).2 = Done () /\ n_hot (roll n).1 = n_hot n /\ n_buffer (roll n).1 = [].
Proof.
  unfold roll, gets, mbind, M_bind. cbn [fst snd]. destruct (n_buffer n) as [|ev buf] eqn:Hbuf; cbn [is_nil].
  { intros Hinv _. exists held, hist. cbn. split; [|done]. unfold inv. rewrite Hbuf.
    destruct Hinv as [? ? ? ? ? ? ? ? ? ?]. split; try done. cbn. apply room_positive. }
  intros Hinv. unfold tick, set_time. cbn [n_time n_cold fst snd].
  destruct (cold_write _ _ _ _) as [c r] eqn:Hw. unfold update. intros HT.
  assert (S (n_time n) < T) as Ht by (destruct r; cbn in HT; lia).
  destruct (write_inv st T (S ROLL_MAX) (n_cold n) (n_hot n) (ev :: buf) (n_dirty n) (n_time n) held hist Hclock Ht)
    as (c' & id & Hw' & Hinv'); [done|done|done|].
  rewrite Hw in Hw'. injection Hw' as -> ->. cbn. exists (held ++ [(id, ev :: buf)]), (hist ++ [(id, ev :: buf)]).
  split; [exact Hinv'|]. split; [by apply prefix_app_r|]. done.
Qed.

Lemma keeps_roll : keeps roll [].
Proof.
  intros n held hist Hinv HT. destruct (roll_run n held hist) as (h & hh & Hinv' & Hp & Ho & Hh & _); [|done|].
  - destruct Hinv as [? ? ? ? ? ? ? ? ? ?]. split; try done. lia.
  - exists h, hh. split; [done|]. split; [done|]. rewrite Ho. unfold raws, hot_events. rewrite Hh. cbn. by rewrite app_nil_r.
Qed.

(** A call of the hot index that fails changes nothing. *)
Lemma index_call_run f n : index_call f n = (set_faults (tail (n_index_faults n)) n, Failed Backend) \/
  index_call f n = (set_hot (f (n_hot n)) (set_faults (tail (n_index_faults n)) n), Done ()).
Proof.
  unfold index_call. destruct (n_index_faults n) as [|[] l] eqn:E; cbn; [right|by left|by right].
  by destruct n; cbn in *; subst.
Qed.

Lemma keeps_index_event ev : fine ev -> keeps (index_event ev) [raw ev].
Proof.
  intros Hf n held hist Hinv. unfold index_event, index_add, mbind, M_bind.
  destruct (index_call_run (fun h => mkHot (staged h ++ [ev]) (searchable h)) n) as [->| ->]; cbn [fst snd].
  - intros _. exists held, hist. split; [exact Hinv|]. split; [done|]. exists []. split; [apply prefix_nil|].
    unfold raws, hot_events. cbn. by rewrite app_nil_r.
  - unfold update, gets. cbn [fst snd].
    set (n1 := set_buffer _ _). pose proof (add_inv st ROLL_MAX _ _ _ _ _ held hist ev Hf Hinv) as Hadd.
    assert (raws n1 = raws n ++ [raw ev]) as Hraws.
    { unfold raws, hot_events. cbn. by rewrite !fmap_app, app_assoc. }
    destruct (Nat.leb_spec ROLL_MAX (length (n_buffer n1))) as [Hlen|Hlen].
    + intros HT. destruct (roll_run n1 held hist Hadd HT) as (h & hh & Hinv' & Hp & Ho & Hh & _).
      exists h, hh. split; [done|]. split; [done|]. rewrite Ho. cbn. rewrite <- Hraws. unfold raws, hot_events. by rewrite Hh.
    + intros _. exists held, hist. split; [|split; [done|exact Hraws]].
      destruct Hadd as [? ? ? ? ? ? ? ? ? ?]. split; try done.
Qed.

(** Detection and mining leave the stored events alone. *)
Lemma detect_run detectors ev n : exists n', detect detectors ev n = (n', Done ()) /\
  n_cold n' = n_cold n /\ n_hot n' = n_hot n /\ n_buffer n' = n_buffer n /\ n_dirty n' = n_dirty n /\ n_time n <= n_time n'.
Proof.
  unfold detect, gets, tick, update, mbind, M_bind. cbn [fst snd].
  destruct (process _ _ _ _) as [fired corr]. eexists. split; [done|]. cbn. repeat split. lia.
Qed.

Lemma keeps_event sigma index ev : (index = true -> forall tid, fine (with_template tid ev)) ->
  keeps (handle_event st sigma index ev) (if index then [raw ev] else []).
Proof.
  intros Hf n held hist Hinv. unfold handle_event, mine_event. cbn [mbind M_bind]. unfold mbind, M_bind, gets.
  destruct (mine (message ev) (n_miner n)) as [m mined]. unfold update, mret, M_ret. cbn [fst snd].
  set (ev' := with_template _ ev). set (n1 := set_miner m n).
  assert (inv st n1 held hist) as Hinv1 by exact Hinv. assert (raws n1 = raws n) as Hr1 by done.
  assert (exists n2, (if sigma then detect (st_detectors st) ev' n1 else (n1, Done ())) = (n2, Done ()) /\
    inv st n2 held hist /\ raws n2 = raws n) as (n2 & Hd & Hinv2 & Hr2).
  { destruct sigma; [|by exists n1]. destruct (detect_run (st_detectors st) ev' n1) as (n2 & Hd & Hc & Hh & Hb & Hdi & Ht).
    exists n2. split; [done|]. split; [|unfold raws, hot_events in *; by rewrite Hh].
    unfold inv. rewrite Hc, Hh, Hb, Hdi. by eapply inv_later. }
  assert ((if sigma then detect (st_detectors st) ev' else fun n => (n, Done ())) n1 = (n2, Done ())) as -> by (by destruct sigma).
  destruct index.
  - intros HT. destruct (keeps_index_event ev' (Hf eq_refl _) n2 held hist Hinv2 HT) as (h & hh & Hi & Hp & Hb).
    exists h, hh. split; [done|]. split; [done|]. by rewrite Hr2 in Hb.
  - intros _. exists held, hist. split; [done|]. split; [done|]. cbn. by rewrite Hr2, app_nil_r.
Qed.

Lemma keeps_events sigma index evs : (index = true -> Forall (fun ev => forall tid, fine (with_template tid ev)) evs) ->
  keeps (handle_events st sigma index evs) (if index then raw <$> evs else []).
Proof.
  induction evs as [|ev evs IH]; intros Hf; cbn [handle_events].
  - destruct index; apply keeps_ret.
  - assert (keeps (handle_event st sigma index ev ;; handle_events st sigma index evs)
      ((if index then [raw ev] else []) ++ (if index then raw <$> evs else []))) as Hk; [|by destruct index].
    apply keeps_seq; [|apply mono_events|].
    + apply keeps_event. intros Hi. specialize (Hf Hi). by apply Forall_cons in Hf as [? _].
    + apply IH. intros Hi. specialize (Hf Hi). by apply Forall_cons in Hf as [_ ?].
Qed.

Lemma keeps_commit : keeps commit_tick [].
Proof.
  intros n held hist Hinv. unfold commit_tick, gets, mbind, M_bind, update. cbn [fst snd].
  destruct (0 <? n_dirty n)%nat; [|intros _; exists held, hist; split; [done|]; split; [done|]; cbn; by rewrite app_nil_r].
  unfold index_commit. destruct (index_call_run (fun h => mkHot [] (searchable h ++ staged h)) n) as [->| ->]; cbn [fst snd]; intros _.
  - exists held, hist. split; [exact Hinv|]. split; [done|]. exists []. split; [apply prefix_nil|].
    unfold raws, hot_events. cbn. by rewrite app_nil_r.
  - exists held, hist. split; [eapply commit_inv, Hinv|]. split; [done|]. unfold raws, hot_events. cbn. by rewrite !app_nil_r.
Qed.

Lemma keeps_final_commit : keeps index_commit [].
Proof.
  intros n held hist Hinv _. unfold index_commit.
  destruct (index_call_run (fun h => mkHot [] (searchable h ++ staged h)) n) as [->| ->]; cbn [fst snd].
  - exists held, hist. split; [exact Hinv|]. split; [done|]. exists []. split; [apply prefix_nil|].
    unfold raws, hot_events. cbn. by rewrite app_nil_r.
  - exists held, hist. split; [eapply commit_inv, Hinv|]. split; [done|]. unfold raws, hot_events. cbn. by rewrite !app_nil_r.
Qed.

Definition expire_step : M unit :=
  match st_retention st with
  | None => mret ()
  | Some age =>
      t ← tick;
      c ← gets n_cold;
      let '(c, r) := cold_retain (clock t) age c in
      update (set_cold c) ;;
      match r with Err e => fail_with e | Ok _ => mret () end
  end.
Definition archive_step : M unit :=
  match st_warm st with
  | None => mret ()
  | Some age =>
      t ← tick;
      c ← gets n_cold;
      update (set_cold (cold_archive (clock t) age c).1)
  end.

Lemma keeps_expire : keeps expire_step [].
Proof.
  intros n held hist Hinv. unfold expire_step. destruct (st_retention st) as [age|] eqn:Hage.
  2: { intros _. exists held, hist. split; [done|]. split; [done|]. cbn. by rewrite app_nil_r. }
  unfold tick, gets, update, mbind, M_bind. cbn [fst snd set_time n_time n_cold].
  destruct (cold_retain _ _ _) as [c r] eqn:Hr. intros HT.
  assert (n_time n < T) as Ht by (destruct r; exact HT).
  destruct (retain_inv st (n_cold n) (n_hot n) (n_buffer n) (n_dirty n) (n_time n) held hist age) as (c' & k & held' & Hr' & Hinv');
    [by apply Hclock|done|done|].
  rewrite Hr in Hr'. injection Hr' as -> ->. cbn. exists held', hist. split; [exact Hinv'|]. split; [done|].
  cbn. unfold raws. cbn. by rewrite app_nil_r.
Qed.

Lemma keeps_archive : keeps archive_step [].
Proof.
  intros n held hist Hinv. unfold archive_step. destruct (st_warm st) as [age|].
  - intros _. unfold tick, gets, update, mbind, M_bind. cbn. exists held, hist.
    split; [|split; [done|]; unfold raws; cbn; by rewrite app_nil_r].
    apply (inv_later st ROLL_MAX _ _ _ _ (n_time n) (S (n_time n))); [lia|]. destruct Hinv as [Hc ? ? ? ? ? ? ? ? ?]. split; try done.
    by apply cold_archive_ok.
  - intros _. exists held, hist. split; [done|]. split; [done|]. cbn. by rewrite app_nil_r.
Qed.

Lemma keeps_retention : keeps (retention_tick st) [].
Proof.
  change (keeps (expire_step ;; archive_step) ([] ++ [])). apply keeps_seq; [apply keeps_expire| |apply keeps_archive].
  unfold archive_step. mono_tac.
Qed.

Lemma chain_raw chain ev : raw (apply_chain chain ev) = raw ev.
Proof. destruct (chain_frame chain ev) as [Hc _]. unfold same_core in Hc. tauto. Qed.

(** Decoding only reads the clock. *)
Lemma normalize_run chain rs n : exists t o, normalize_records chain rs n = (set_time t n, o) /\ n_time n <= t /\
  match o with
  | Done evs => Forall2 (fun r ev => raw ev = rec_raw r /\
      exists t e, normalize (ulid t) (clock t) TENANT r = Some e /\ ev = apply_chain chain e) rs evs
  | Failed _ => False
  | Panicked => True
  end.
Proof.
  revert n. induction rs as [|r rs IH]; intros n; cbn [normalize_records].
  { exists (n_time n), (Done []). split; [by destruct n|]. split; [done|constructor]. }
  unfold tick, mbind, M_bind. cbn [fst snd].
  destruct (normalize (ulid (n_time n)) (clock (n_time n)) TENANT r) as [ev|] eqn:Hn.
  2: { exists (S (n_time n)), Panicked. split; [done|]. split; [lia|done]. }
  destruct (IH (set_time (S (n_time n)) n)) as (t & o & -> & Ht & Ho). cbn [n_time set_time] in Ht.
  exists t. destruct o as [evs|e|].
  - exists (Done (apply_chain chain ev :: evs)). split; [done|]. split; [lia|]. constructor; [|done].
    split; [rewrite chain_raw; by eapply normalize_raw|]. by exists (n_time n), ev.
  - done.
  - exists Panicked. split; [done|]. split; [lia|done].
Qed.

Lemma keeps_input i : (forall ev, produced st i ev -> fine ev) -> keeps (handle_input st i) (input_raws i).
Proof.
  intros Hf. destruct i as [frame|ev| | | |rules]; cbn [handle_input input_raws].
  - intros n held hist Hinv. unfold decode_normalize, mbind, M_bind.
    destruct (normalize_run (st_chain st) (build_codec (codec_kind frame) (bytes frame)) n) as (t & o & -> & Ht & Ho).
    assert (inv st (set_time t n) held hist) as Hinv1 by by eapply inv_later.
    destruct o as [evs|e|].
    + intros HT. destruct (keeps_events (f_sigma frame) (f_index frame) evs) with (n := set_time t n) (held := held) (hist := hist)
        as (h & hh & Hi & Hp & Hb); [|done|done|].
      * intros Hi. apply Forall_forall. intros ev Hev tid. apply Hf. cbn. apply list_elem_of_lookup in Hev as [k Hk].
        destruct (Forall2_lookup_r _ _ _ _ _ Ho Hk) as (r & Hr & _ & t' & e & He & ->).
        exists r, t', e, tid. split; [by eapply list_elem_of_lookup_2|done].
      * exists h, hh. split; [done|]. split; [done|]. change (raws (set_time t n)) with (raws n) in Hb.
        assert (raw <$> evs = rec_raw <$> build_codec (codec_kind frame) (bytes frame)) as <-; [|done].
        clear -Ho. induction Ho as [|r ev rs evs [Hr _] _ IH]; [done|]. cbn. by rewrite Hr, IH.
    + done.
    + intros _. exists held, hist. split; [done|]. split; [done|]. exists []. split; [apply prefix_nil|].
      unfold raws, hot_events. cbn. by rewrite app_nil_r.
  - apply (keeps_event (st_sigma st) true ev). intros _ tid. apply Hf. by exists tid.
  - apply keeps_commit.
  - apply keeps_roll.
  - apply keeps_retention.
  - intros n held hist Hinv _. exists held, hist. split; [done|]. split; [done|]. unfold raws. cbn. by rewrite app_nil_r.
Qed.

Lemma keeps_loop inputs : (forall i ev, i ∈ inputs -> produced st i ev -> fine ev) ->
  keeps (run_loop st inputs) (concat (input_raws <$> inputs)).
Proof.
  induction inputs as [|i inputs IH]; intros Hf; cbn [run_loop]; [apply keeps_ret|]. cbn [fmap list_fmap concat].
  apply keeps_seq; [apply keeps_input; intros ev; apply Hf; by left|apply mono_loop|].
  apply IH. intros j ev Hj. apply Hf. by right.
Qed.
End runs.

(** A node that starts on an empty store. *)
Definition fresh_node (c : C) (engine : list CompiledRule) (corr : CorrelationEngine) (miner : TemplateMiner)
    (faults : list bool) : Node C := mkNode _ _ (mkHot [] []) faults c engine corr miner [] 0 [] 0.

Lemma fresh_inv st c engine corr miner faults : cold_holds c [] -> inv st (fresh_node c engine corr miner faults) [] [].
Proof.
  intros Hc. unfold inv. cbn. split; try done; cbn; try (by intros ? ?%not_elem_of_nil); first [apply room_positive|apply NoDup_nil_2|constructor].
Qed.

Lemma run_inv st T inputs n held hist : clock_fine T -> inv st n held hist -> raws n = [] ->
  (forall i ev, i ∈ inputs -> produced st i ev -> fine ev) -> n_time (run st inputs n).1 <= T ->
  exists held' hist', inv st (run st inputs n).1 held' hist' /\
    brings (run st inputs n).2 [] (raws (run st inputs n).1) (concat (input_raws <$> inputs)) /\
    ((run st inputs n).2 = Done () -> n_buffer (run st inputs n).1 = [] /\ staged (n_hot (run st inputs n).1) = []).
Proof.
  intros Hclock Hinv Hraws Hf HT.
  assert (keeps st T (run st inputs) (concat (input_raws <$> inputs) ++ ([] ++ []))) as Hk.
  { unfold run. apply keeps_seq; [by apply keeps_loop| |].
    - unfold index_commit. mono_tac. apply mono_roll.
    - apply keeps_seq; [by apply keeps_final_commit|apply mono_roll|by apply keeps_roll]. }
  destruct (Hk n held hist Hinv HT) as (h & hh & Hi & _ & Hb). exists h, hh. split; [done|].
  rewrite Hraws, !app_nil_r in Hb. split; [done|]. intros Ho.
  unfold run in *. unfold mbind, M_bind in *. destruct (run_loop st inputs n) as [n1 [[]| |]] eqn:E1; cbn [fst snd] in *; try done.
  destruct (index_commit n1) as [n2 [[]| |]] eqn:E2; cbn [fst snd] in *; try done.
  assert (n_time n2 <= n_time (roll n2).1) as Hm by apply mono_roll.
  assert (exists h2 hh2, inv st n2 h2 hh2) as (h2 & hh2 & Hi2).
  { destruct (keeps_loop st T Hclock inputs Hf n held hist Hinv) as (h1 & hh1 & Hi1 & _).
    - rewrite E1. cbn [fst]. pose proof (mono_call (fun h => mkHot [] (searchable h ++ staged h)) n1) as Hm1. unfold index_commit in E2.
      rewrite E2 in Hm1. cbn in Hm1. lia.
    - rewrite E1 in Hi1. destruct (keeps_final_commit st T n1 h1 hh1 Hi1) as (h2 & hh2 & Hi2 & _);
        [rewrite E2; cbn [fst]; lia|].
      rewrite E2 in Hi2. by exists h2, hh2. }
  destruct (roll_run st T Hclock n2 h2 hh2) as (? & ? & _ & _ & _ & Hh & Hbuf); [|done|].
  { destruct Hi2 as [? ? ? ? ? ? ? ? ? ?]. split; try done. lia. }
  rewrite Hbuf, Hh. split; [done|]. unfold index_commit in E2.
  destruct (index_call_run (fun h => mkHot [] (searchable h ++ staged h)) n1) as [He|He]; rewrite He in E2; [done|].
  by injection E2 as <-.
Qed.


(** *** Detection needs rules at the start *)

(** The alerts a step leaves as they are. *)
Definition silent {A} (m : M A) : Prop := forall n, n_alerts (m n).1 = n_alerts n.

Lemma silent_bind {A B} (m : M A) (f : A -> M B) : silent m -> (forall a, silent (f a)) -> silent (m ≫= f).
Proof.
  intros Hm Hf n. unfold mbind, M_bind. specialize (Hm n). destruct (m n) as [n' [a| |]]; cbn in *; [|done..].
  by rewrite Hf.
Qed.
Lemma silent_call f : silent (index_call f).
Proof. intros n. unfold index_call. by destruct (n_index_faults n) as [|[] ?]. Qed.

Ltac silent_tac := repeat match goal with
  | |- silent (_ ≫= _) => apply silent_bind; [|intros ?]
  | |- silent (mret _) => intros ?; reflexivity
  | |- silent (gets _) => intros ?; reflexivity
  | |- silent (fail_with _) => intros ?; reflexivity
  | |- silent tick => intros ?; reflexivity
  | |- silent (update _) => intros ?; reflexivity
  | |- silent (fun n => (n, _)) => intros ?; reflexivity
  | |- silent (index_call _) => apply silent_call
  | |- silent (let '(_, _) := ?x in _) => destruct x
  | |- silent (match ?x with _ => _ end) => destruct x
  | |- silent (if ?x then _ else _) => destruct x
  end.

Lemma silent_event st index ev : silent (handle_event st false index ev).
Proof. unfold handle_event, mine_event, index_event, index_add, roll. silent_tac. Qed.

Lemma silent_input st i : st_sigma st = false ->
  match i with FromInput frame => f_sigma frame = false | _ => True end -> silent (handle_input st i).
Proof.
  intros Hs Hi. destruct i as [frame|ev| | | |rules]; cbn [handle_input]; rewrite ?Hs, ?Hi.
  - unfold decode_normalize. apply silent_bind.
    + induction (build_codec _ _) as [|r rs IH]; cbn [normalize_records]; silent_tac; exact IH.
    + intros evs. induction evs as [|ev evs IH]; cbn [handle_events]; silent_tac; [apply silent_event|exact IH].
  - apply silent_event.
  - unfold commit_tick, index_commit. silent_tac.
  - unfold roll. silent_tac.
  - unfold retention_tick. silent_tac.
  - silent_tac.
Qed.

(** rules that come later are not run.  Whether a node detects is decided
    once, from the rules and detectors it starts with: when it starts with
    none, no run of it raises an alert, whatever rules the API loads into the
    engine meanwhile and whatever frames and events arrive. *)
Theorem detection_fixed_at_start cfg run_index st inputs n :
  st_sigma st = sigma_active cfg 0 [] ->
  (forall frame, FromInput frame ∈ inputs -> exists input, f_sigma frame = should_sigma cfg run_index (sigma_active cfg 0 []) input) ->
  n_alerts (run st inputs n).1 = n_alerts n.
Proof.
  intros Hst Hin. assert (sigma_active cfg 0 [] = false) as Hoff by (unfold sigma_active; apply andb_false_r).
  rewrite Hoff in *. assert (silent (run st inputs)) as Hs; [|apply Hs]. unfold run, index_commit, roll. silent_tac.
  induction inputs as [|i inputs IH]; cbn [run_loop]; silent_tac.
  - apply silent_input; [done|]. destruct i as [frame| | | | |]; try done.
    destruct (Hin frame) as [input ->]; [by left|]. unfold should_sigma. by rewrite andb_false_r.
  - apply IH. intros frame Hf. apply Hin. by right.
Qed.
End node.

(** ** Enrichment policy *)

Lemma grant_spec built c : c ∈ grant built <-> c <> NetEgress /\ c ∈ concat built.
Proof.
  unfold grant. assert (forall l acc, c ∈ foldl (fun granted c => if bool_decide (c <> NetEgress) && negb (bool_decide (c ∈ granted))
    then granted ++ [c] else granted) acc l <-> c ∈ acc \/ (c <> NetEgress /\ c ∈ l)) as H.
  { induction l as [|d l IH]; intros acc; cbn [foldl]; [set_solver|]. rewrite IH. clear IH.
    destruct (decide (d = NetEgress)) as [->|Hd]; [rewrite bool_decide_false by naive_solver; set_solver|].
    rewrite bool_decide_true by done. destruct (decide (d ∈ acc)) as [Hin|Hin].
    - rewrite (bool_decide_true (d ∈ acc)) by done. set_solver.
    - rewrite (bool_decide_false (d ∈ acc)) by done. set_solver. }
  rewrite H. set_solver.
Qed.

(** the policy refuses exactly the network.  Of the enrichers a
    configuration names, in all its pipelines and in order, the chain keeps
    those that do not ask for network access; as no enricher of the crate
    does, every one that could be built is in the chain, and the chain runs on
    the frames of all inputs. *)
Theorem enrich_policy `{FloatText} read_file cfg :
  (forall (caps : list (list Capability)) requested, requested ∈ caps ->
     policy_allows (grant caps) requested = true <-> NetEgress ∉ requested) /\
  build_enrich_chain read_file cfg = omap (fun ns => build_enricher read_file ns.1 ns.2) (enrich_steps cfg).
Proof.
  assert (forall (caps : list (list Capability)) requested, requested ∈ caps ->
     policy_allows (grant caps) requested = true <-> NetEgress ∉ requested) as Hall.
  { intros caps requested Hin. unfold policy_allows.
    assert (check (grant caps) requested = inl () <-> NetEgress ∉ requested) as Hc.
    { rewrite check_spec. setoid_rewrite grant_spec. split.
      - intros Hr Hn. by destruct (Hr NetEgress Hn).
      - intros Hno c Hc. split; [by intros ->|]. apply list_elem_of_In, in_concat. exists requested.
        split; by apply list_elem_of_In. }
    destruct (check (grant caps) requested) as [[]|denied]; [naive_solver|]. split; [done|]. intros Hno. by apply Hc in Hno. }
  split; [done|]. unfold build_enrich_chain. set (built := omap _ _). destruct (is_nil built) eqn:Hnil; [by destruct built|].
  assert (forall e, e ∈ built -> policy_allows (grant (capabilities <$> built)) (capabilities e) = true) as Hk.
  { intros e He. apply Hall; [by apply list_elem_of_fmap_2|]. unfold capabilities. by intros Hx%list_elem_of_singleton. }
  clear Hnil. revert Hk. generalize (grant (capabilities <$> built)). induction built as [|e l IH]; intros p Hk; [done|].
  rewrite filter_cons, decide_True by (apply Hk; by left). f_equal. apply IH. intros e' He'. apply Hk. by right.
Qed.

(** An input is routed to a sink iff some pipeline takes from it and leads there. *)
Lemma sources_routed_spec cfg sink input : input ∈ sources_routed_to cfg sink <->
  exists p, p ∈ cf_pipelines cfg /\ sink ∈ pl_route p /\ input ∈ pl_from p.
Proof.
  unfold sources_routed_to. rewrite elem_of_list_to_set, elem_concat_map. f_equiv. intros p.
  destruct (existsb _ (pl_route p)) eqn:He.
  - apply existsb_exists in He as (r & Hr & ->%bool_decide_eq_true). apply list_elem_of_In in Hr. naive_solver.
  - split; [by intros [_ ?%not_elem_of_nil]|]. intros (_ & Hs & _). exfalso.
    assert (existsb (fun r => bool_decide (r = sink)) (pl_route p) = true) as Ht; [|congruence].
    apply existsb_exists. exists sink. split; [by apply list_elem_of_In|by apply bool_decide_eq_true].
Qed.

Section demo.
#[local] Existing Instances demo_json_text demo_json_parse demo_json_laws demo_arrow demo_arrow_laws.
#[local] Existing Instances demo_lower demo_regex.
#[local] Instance demo_replace : RegexReplace := fun _ _ s => s.
#[local] Instance demo_log2 : Log2 := fun x => x.
#[local] Instance demo_order : CountOrder := fun l => l.
#[local] Instance demo_floats : FloatText := {| f64_text _ := EmptyString; f64_parse _ := None |}.
#[local] Instance demo_segments : Serde (list SegmentMeta) := countable_serde _.
#[local] Instance demo_segments_laws : SerdeLaws (list SegmentMeta) := countable_serde_laws _.

Definition demo_clock (t : nat) : Z := Z.of_nat (Nat.min t 1000).
Definition demo_ulid (t : nat) : string := "id".
Definition demo_setup : Setup := mkSetup [] [] false (Some 1000000%Z) None.
Definition demo_inputs : list node_input :=
  [FromInput (mkFrame "raw" true false "hello"); RolloverTick; FromInput (mkFrame "raw" false false "not indexed");
   RetentionTick; CommitTick].
Definition demo_node : Node ColumnarStore :=
  fresh_node empty_store [] (CorrelationEngine_new []) (new_miner (f32_of 1)) [false; false].

Lemma demo_clock_fine : clock_fine demo_clock 20.
Proof.
  split; [unfold near, demo_clock; lia|].
  assert (NoDup ((fun t => ulid_like (demo_clock t)) <$> seq 0 20)) as Hnd by (apply (bool_decide_unpack _); vm_compute; exact I).
  intros t t' Ht Ht' Heq. eapply (NoDup_lookup _ t t' (ulid_like (demo_clock t)) Hnd); rewrite list_lookup_fmap, lookup_seq_lt by done; cbn; [done|by rewrite Heq].
Qed.

Lemma demo_normal u now text e : text ∈ ["hello"; "not indexed"]%string ->
  normalize u now TENANT (mkRec (str_field "message" text []) text) = Some e ->
  e = mkEvent u now now OcsfClass_default TENANT Informational None None None text [("message"%string, VString text)] None [] text.
Proof.
  rewrite !elem_of_cons. intros [->|[->|?%not_elem_of_nil]] He; [| |done]; vm_compute in He; injection He as <-; reflexivity.
Qed.

Lemma demo_fine i ev : i ∈ demo_inputs -> produced demo_ulid demo_clock demo_setup i ev -> fine ev.
Proof.
  intros Hi Hp. assert (exists u t text tid, text ∈ ["hello"; "not indexed"]%string /\
    ev = with_template tid (mkEvent u (demo_clock t) (demo_clock t) OcsfClass_default TENANT Informational None None None text
           [("message"%string, VString text)] None [] text)) as (u & t & text & tid & _ & ->).
  - unfold demo_inputs in Hi. rewrite !elem_of_cons in Hi.
    destruct Hi as [->|[->|[->|[->|[->|Hi%not_elem_of_nil]]]]]; try done;
      destruct Hp as (r & t & e & tid & Hr & He & ->); apply list_elem_of_singleton in Hr as ->.
    + exists (demo_ulid t), t, "hello"%string, tid. split; [by left|]. cbn [demo_setup st_chain apply_chain foldl]. f_equal.
      apply demo_normal in He; [done|by left].
    + exists (demo_ulid t), t, "not indexed"%string, tid. split; [right; by left|]. cbn [demo_setup st_chain apply_chain foldl]. f_equal.
      apply demo_normal in He; [done|right; by left].
  - split; [|unfold near, demo_clock; cbn [with_template ev_ts]; lia]. cbn. unfold exact_event. cbn. repeat constructor.
Qed.


(** A configuration with Sigma on, and no rules yet. *)
Definition quiet_inputs : list node_input :=
  [EngineEdit []; FromInput (mkFrame "raw" true (should_sigma (empty_config 1) true (sigma_active (empty_config 1) 0 []) "in") "hello")].

Lemma detection_fixed_at_start_witness :
  n_alerts (run demo_ulid demo_clock (mkSetup [] [] (sigma_active (empty_config 1) 0 []) None None) quiet_inputs demo_node).1 = [].
Proof.
  apply (detection_fixed_at_start demo_ulid demo_clock (empty_config 1) true
    (mkSetup [] [] (sigma_active (empty_config 1) 0 []) None None) quiet_inputs demo_node); [reflexivity|].
  intros frame Hin. unfold quiet_inputs in Hin. rewrite !elem_of_cons in Hin. destruct Hin as [?|[Hf|Hn]]; [discriminate| |].
  - injection Hf as ->. exists "in"%string. reflexivity.
  - by apply not_elem_of_nil in Hn.
Defined.
End demo.
