(* ===== verification/Vectors.v ===== *)
(** * [sigil-correlate/src/vector.rs]: nearest neighbours of embeddings

    The exact store and the layered small-world graph (HNSW).  A panic (an
    index out of bounds) is [None].  The walk of [greedy_step] and the search
    of a layer carry fuel, one more than the number of nodes; the theorems
    show that it suffices.  The natural logarithm is a parameter. *)

From stdpp Require Import list strings.
From Stdlib Require Import SpecFloat.
From S2P Require Import Prelude Containers Float.

(** [f64::ln] of the platform. *)
Class Ln := f64_ln : f64 -> f64.

Definition dot (a b : list f32) : f32 := f32_sum (zip_with f32_mul a b).

(** ** The exact store *)

Abbreviation item := (string * list f32)%type.

Definition FlatVectorStore : Type := list item.
Definition flat_add (id : string) (vector : list f32) (s : FlatVectorStore) : FlatVectorStore := s ++ [(id, vector)].
Definition flat_knn (s : FlatVectorStore) (query : list f32) (k : nat) : list (string * f32) :=
  take k (sort_desc ((fun it => (it.1, dot query it.2)) <$> s)).

(** ** The graph *)

(** [hn_neighbors]: per layer, the indices of the connected nodes. *)
Record HnswNode : Type := mkHnsw { hn_id : string; hn_vector : list f32; hn_neighbors : list (list nat) }.

Record HnswVectorStore : Type := mkHnswStore {
  h_m : nat; ef_construction : nat; ef_search : nat; h_nodes : list HnswNode; h_entry : option nat
}.

Definition hnsw_new (m efc efs : nat) : HnswVectorStore := mkHnswStore (m `max` 2) (efc `max` m) (efs `max` 1) [] None.

(** [x as usize] of the floor of [x]: negative and NaN give zero. *)
Definition floor_usize (x : f64) : nat :=
  match x with
  | S754_finite false m e => Z.to_nat (Z.min (2 ^ 64 - 1) (if (0 <=? e)%Z then Zpos m * 2 ^ e else Zpos m / 2 ^ (- e)))
  | S754_infinity false => Z.to_nat (2 ^ 64 - 1)
  | _ => 0
  end.

(** [f64::MIN_POSITIVE]. *)
Definition f64_min_positive : f64 := S754_finite false (2 ^ 52)%positive (-1074).

Definition splitmix (n : Z) : Z :=
  let x := wrap_u64 (wrap_u64 (n * 0x9e3779b97f4a7c15) + 1) in
  let x := wrap_u64 (Z.lxor x (Z.shiftr x 30) * 0xbf58476d1ce4e5b9) in
  let x := wrap_u64 (Z.lxor x (Z.shiftr x 27) * 0x94d049bb133111eb) in
  Z.lxor x (Z.shiftr x 31).

Definition assign_layer `{Ln} (m : nat) (n : Z) : nat :=
  let unit_ := f64_div (f64_of (Z.shiftr (splitmix n) 11)) (f64_of (2 ^ 53)%Z) in
  let ml := f64_div (f64_of 1) (f64_ln (f64_of (Z.of_nat m))) in
  let unit_ := if f64_lt unit_ f64_min_positive then f64_min_positive else unit_ in
  floor_usize (f64_mul (f64_opp (f64_ln unit_)) ml).

Definition max_neighbors (m layer : nat) : nat := match layer with O => m * 2 | _ => m end.

(** [Vec::swap_remove]. *)
Definition swap_remove {A} (l : list A) (i : nat) : option (A * list A) :=
  x ← l !! i; y ← last l; Some (x, take (length l - 1) (<[i := y]> l)).

Section search.
Context (nodes : list HnswNode) (query : list f32).

Definition sim_to (n : nat) : option f32 := nd ← nodes !! n; Some (dot query (hn_vector nd)).
Definition neighbours_at (n layer : nat) : option (list nat) := nd ← nodes !! n; hn_neighbors nd !! layer.

(** [for &n in neighbors]: the best node so far, and whether it changed. *)
Fixpoint greedy_scan (nbs : list nat) (best : f32) (ep : nat) (improved : bool) : option (f32 * nat * bool) :=
  match nbs with
  | [] => Some (best, ep, improved)
  | n :: nbs => sim ← sim_to n; if f32_lt best sim then greedy_scan nbs sim n true else greedy_scan nbs best ep improved
  end.

Fixpoint greedy_loop (fuel : nat) (layer : nat) (best : f32) (ep : nat) : option nat :=
  match fuel with
  | O => None
  | S fuel =>
      nbs ← neighbours_at ep layer;
      '(best, ep, improved) ← greedy_scan nbs best ep false;
      if (improved : bool) then greedy_loop fuel layer best ep else Some ep
  end.

Definition greedy_step (ep layer : nat) : option nat :=
  best ← sim_to ep; greedy_loop (S (length nodes)) layer best ep.

Definition worst_of (results : list (nat * f32)) : f32 := foldl f32_min (S754_infinity false) results.*2.

(** The least similar result is dropped when there are more than [ef]. *)
Definition drop_worst (ef : nat) (results : list (nat * f32)) : option (list (nat * f32)) :=
  if (ef <? length results)%nat then
    '(pos, _) ← min_by (imap (fun i r => (i, r.2)) results);
    '(_, results) ← swap_remove results pos; Some results
  else Some results.

Definition layer_state : Type := list bool * list (nat * f32) * list (nat * f32).

Fixpoint expand (ef : nat) (nbs : list nat) (st : layer_state) : option layer_state :=
  match nbs with
  | [] => Some st
  | n :: nbs =>
      let '(visited, candidates, results) := st in
      seen ← visited !! n;
      if (seen : bool) then expand ef nbs st
      else
        n_sim ← sim_to n;
        let visited := <[n := true]> visited in
        if ((length results <? ef)%nat || f32_lt (worst_of results) n_sim)%bool then
          results ← drop_worst ef (results ++ [(n, n_sim)]);
          expand ef nbs (visited, candidates ++ [(n, n_sim)], results)
        else expand ef nbs (visited, candidates, results)
  end.

Fixpoint search_loop (fuel ef layer : nat) (st : layer_state) : option (list (nat * f32)) :=
  match fuel with
  | O => None
  | S fuel =>
      let '(visited, candidates, results) := st in
      match max_by (imap (fun i c => (i, c.2)) candidates) with
      | None => Some results
      | Some (pos, _) =>
          '(node, sim, candidates) ← swap_remove candidates pos;
          if ((ef <=? length results)%nat && f32_lt sim (worst_of results))%bool then Some results
          else
            nbs ← neighbours_at node layer;
            st ← expand ef nbs (visited, candidates, results);
            search_loop fuel ef layer st
      end
  end.

Definition search_layer (ep ef layer : nat) : option (list (nat * f32)) :=
  visited ← (if (ep <? length nodes)%nat then Some (<[ep := true]> (replicate (length nodes) false)) else None);
  ep_sim ← sim_to ep;
  results ← search_loop (S (length nodes)) ef layer (visited, [(ep, ep_sim)], [(ep, ep_sim)]);
  Some (sort_desc results).
End search.

(** ** Insertion *)

Definition set_neighbors (n layer : nat) (nbs : list nat) (nodes : list HnswNode) : option (list HnswNode) :=
  nd ← nodes !! n;
  _ ← hn_neighbors nd !! layer;
  Some (<[n := mkHnsw (hn_id nd) (hn_vector nd) (<[layer := nbs]> (hn_neighbors nd))]> nodes).

(** [dedup_by_key]: of equal consecutive nodes the first. *)
Fixpoint dedup_after (prev : nat) (l : list (nat * f32)) : list (nat * f32) :=
  match l with
  | [] => []
  | x :: l => if bool_decide (x.1 = prev) then dedup_after prev l else x :: dedup_after x.1 l
  end.
Definition dedup_nodes (l : list (nat * f32)) : list (nat * f32) :=
  match l with [] => [] | x :: l => x :: dedup_after x.1 l end.

Definition prune (n layer cap : nat) (nodes : list HnswNode) : option (list HnswNode) :=
  nbs ← neighbours_at nodes n layer;
  if (length nbs <=? cap)%nat then Some nodes
  else
    nd ← nodes !! n;
    scored ← mapM (fun t => s ← sim_to nodes (hn_vector nd) t; Some (t, s)) nbs;
    set_neighbors n layer (dedup_nodes (take cap (sort_desc scored))).*1 nodes.

Definition link_back (node layer cap t : nat) (nodes : list HnswNode) : option (list HnswNode) :=
  nbs ← neighbours_at nodes t layer;
  nodes ← set_neighbors t layer (nbs ++ [node]) nodes;
  prune t layer cap nodes.

Fixpoint link_all (node layer cap : nat) (targets : list nat) (nodes : list HnswNode) : option (list HnswNode) :=
  match targets with
  | [] => Some nodes
  | t :: targets => nodes ← link_back node layer cap t nodes; link_all node layer cap targets nodes
  end.

Definition connect (m node : nat) (targets : list nat) (layer : nat) (nodes : list HnswNode) : option (list HnswNode) :=
  let cap := max_neighbors m layer in
  nbs ← neighbours_at nodes node layer;
  nodes ← set_neighbors node layer (nbs ++ targets) nodes;
  nodes ← prune node layer cap nodes;
  link_all node layer cap targets nodes.

(** [for l in (lo..=hi).rev()] with [hi = lo + n - 1]. *)
Fixpoint descend (nodes : list HnswNode) (query : list f32) (lo n ep : nat) : option nat :=
  match n with
  | O => Some ep
  | S n => ep ← greedy_step nodes query ep (lo + n); descend nodes query lo n ep
  end.

(** The layers the new node is part of, from the top. *)
Fixpoint insert_layers (m efc idx : nat) (query : list f32) (n ep : nat) (nodes : list HnswNode) : option (list HnswNode) :=
  match n with
  | O => Some nodes
  | S l =>
      found ← search_layer nodes query ep efc l;
      ep ← head found.*1;
      let targets := take (max_neighbors m l `min` length found) found.*1 in
      nodes ← connect m idx targets l nodes;
      insert_layers m efc idx query l ep nodes
  end.

Definition hnsw_add `{Ln} (id : string) (vector : list f32) (s : HnswVectorStore) : option HnswVectorStore :=
  let layer := assign_layer (h_m s) (Z.of_nat (length (h_nodes s))) in
  let idx := length (h_nodes s) in
  let nodes := h_nodes s ++ [mkHnsw id vector (replicate (S layer) [])] in
  match h_entry s with
  | None => Some (mkHnswStore (h_m s) (ef_construction s) (ef_search s) nodes (Some idx))
  | Some entry =>
      nd ← nodes !! entry;
      let top := length (hn_neighbors nd) - 1 in
      ep ← descend nodes vector (S layer) (top - layer) entry;
      nodes ← insert_layers (h_m s) (ef_construction s) idx vector (S (layer `min` top)) ep nodes;
      Some (mkHnswStore (h_m s) (ef_construction s) (ef_search s) nodes
              (if (top <? layer)%nat then Some idx else Some entry))
  end.

Definition hnsw_knn (s : HnswVectorStore) (query : list f32) (k : nat) : option (list (string * f32)) :=
  match h_entry s with
  | None => Some []
  | Some entry =>
      nd ← h_nodes s !! entry;
      ep ← descend (h_nodes s) query 1 (length (hn_neighbors nd) - 1) entry;
      found ← search_layer (h_nodes s) query ep (ef_search s `max` k) 0;
      mapM (fun r => nd ← h_nodes s !! r.1; Some (hn_id nd, r.2)) (take k found)
  end.

Fixpoint hnsw_build `{Ln} (s : HnswVectorStore) (items : list item) : option HnswVectorStore :=
  match items with
  | [] => Some s
  | (id, v) :: items => s ← hnsw_add id v s; hnsw_build s items
  end.

(** ** List lemmas *)

Lemma swap_remove_spec {A} (l : list A) i x : l !! i = Some x ->
  exists rest, swap_remove l i = Some (x, rest) /\ x :: rest ≡ₚ l.
Proof.
  intros Hi. unfold swap_remove. rewrite Hi. cbn [mbind option_bind].
  destruct l as [|y l] using rev_ind; [done|]. clear IHl. rewrite last_snoc. cbn [mbind option_bind].
  rewrite length_app. cbn [length]. replace (length l + 1 - 1) with (length l) by lia. eexists. split; [done|].
  destruct (decide (i < length l)) as [Hlt|Hge].
  - rewrite lookup_app_l in Hi by done. rewrite insert_app_l, take_app_length' by (rewrite ?length_insert; done).
    rewrite <- (take_drop_middle l i x Hi) at 2. rewrite insert_take_drop by done.
    rewrite <- Permutation_cons_append, <- !Permutation_middle. apply perm_swap.
  - apply lookup_app_Some in Hi as [Hi|[Hle Hi]]; [by apply lookup_lt_Some in Hi|].
    destruct (i - length l) as [|n] eqn:Hn; [|done]. cbn in Hi. injection Hi as ->.
    rewrite insert_app_r_alt by done. rewrite Hn. cbn. rewrite take_app_length. by rewrite Permutation_cons_append.
Qed.

Lemma imap_pos {A} (f : A -> f32) (l : list A) pos s : (pos, s) ∈ imap (fun i c => (i, f c)) l -> exists c, l !! pos = Some c.
Proof. intros (i & c & [= -> ->] & Hc)%elem_of_lookup_imap. by exists c. Qed.

Lemma filter_lt {A} (P Q : A -> Prop) `{!forall x, Decision (P x), !forall x, Decision (Q x)} (l : list A) x :
  (forall y, P y -> Q y) -> x ∈ l -> Q x -> ~ P x -> length (filter P l) < length (filter Q l).
Proof.
  intros Hpq Hx HQ HP. assert (forall l, length (filter P l) <= length (filter Q l)) as Hle.
  { induction l0 as [|y l0 IH]; [done|]. rewrite !filter_cons. repeat case_decide; cbn; [lia|naive_solver|lia|lia]. }
  induction Hx as [y l|y z l Hx IH]; rewrite !filter_cons.
  - rewrite (decide_False (P := P y)), (decide_True (P := Q y)) by done. cbn. specialize (Hle l). lia.
  - specialize (IH HQ HP). repeat case_decide; cbn; [lia|naive_solver|lia|lia].
Qed.

Lemma count_insert (v : list bool) n : v !! n = Some false ->
  S (count_occ bool_dec (<[n := true]> v) false) = count_occ bool_dec v false.
Proof.
  intros Hn. rewrite <- (take_drop_middle v n false Hn) at 2. rewrite insert_take_drop by (by eapply lookup_lt_Some).
  rewrite !count_occ_app. cbn. lia.
Qed.

Lemma submseteq_NoDup {A} (l k : list A) : NoDup k -> l ⊆+ k -> NoDup l.
Proof. intros Hk (k' & Hp)%submseteq_Permutation. rewrite Hp in Hk. by apply NoDup_app in Hk as [? _]. Qed.

Lemma count_replicate n : count_occ bool_dec (replicate n false) false = n.
Proof. induction n as [|n IH]; [done|]. cbn. by rewrite IH. Qed.

(** ** Searching a layer *)

Section search_spec.
Context (nodes : list HnswNode) (query : list f32).

(** [P] is closed under the edges of a layer. *)
Definition closed (P : nat -> Prop) (layer : nat) : Prop :=
  forall i, P i -> exists nbs, neighbours_at nodes i layer = Some nbs /\ Forall P nbs.

Context (P : nat -> Prop) (layer : nat) (Hclosed : closed P layer).

Lemma closed_sim i : P i -> i < length nodes /\ exists s, sim_to nodes query i = Some s.
Proof.
  intros (nbs & Hn & _)%Hclosed. unfold neighbours_at, sim_to in *. destruct (nodes !! i) as [nd|] eqn:Hi; [|done].
  split; [by eapply lookup_lt_Some|by eexists].
Qed.

Lemma greedy_scan_spec nbs best ep improved : Forall P nbs -> P ep -> sim_to nodes query ep = Some best ->
  exists best' ep' improved', greedy_scan nodes query nbs best ep improved = Some (best', ep', improved') /\
    P ep' /\ sim_to nodes query ep' = Some best' /\
    (improved' = improved /\ ep' = ep \/ improved' = true /\ f32_lt best best' = true).
Proof.
  revert best ep improved. induction nbs as [|n nbs IH]; intros best ep improved Hall Hep Hs; cbn [greedy_scan].
  { exists best, ep, improved. split_and!; [done..|by left]. }
  apply Forall_cons in Hall as [Hn Hall]. destruct (closed_sim n Hn) as (_ & s & Hsn). rewrite Hsn. cbn [mbind option_bind].
  destruct (f32_lt best s) eqn:Hlt; [|by apply IH].
  destruct (IH s n true Hall Hn Hsn) as (b & e & i & -> & He & Hse & Hor). exists b, e, i. split_and!; [done..|].
  right. destruct Hor as [[-> ->]|[-> Hb]]; (split; [done|]); [congruence|]. by eapply f32_lt_trans.
Qed.

(** The nodes nearer than [best]. *)
Definition nearer (best : f32) (i : nat) : Prop := match sim_to nodes query i with Some s => f32_lt best s = true | None => False end.
#[local] Instance nearer_dec best i : Decision (nearer best i).
Proof. unfold nearer. destruct (sim_to nodes query i); apply _. Defined.

Lemma greedy_loop_spec fuel best ep : P ep -> sim_to nodes query ep = Some best ->
  length (filter (nearer best) (seq 0 (length nodes))) < fuel ->
  exists ep', greedy_loop nodes query fuel layer best ep = Some ep' /\ P ep'.
Proof.
  revert best ep. induction fuel as [|fuel IH]; intros best ep Hep Hs Hf; [lia|]. cbn [greedy_loop].
  destruct (Hclosed ep Hep) as (nbs & -> & Hall). cbn [mbind option_bind].
  destruct (greedy_scan_spec nbs best ep false Hall Hep Hs) as (b & e & i & -> & He & Hse & Hor). cbn.
  destruct Hor as [[-> ->]|[-> Hb]]; [by eexists|]. apply IH; [done..|].
  assert (length (filter (nearer b) (seq 0 (length nodes))) < length (filter (nearer best) (seq 0 (length nodes)))); [|lia].
  apply (filter_lt _ _ _ e).
  - intros y Hy. unfold nearer in *. destruct (sim_to nodes query y); [|done]. by eapply f32_lt_trans.
  - apply elem_of_seq. apply closed_sim in He. lia.
  - unfold nearer. by rewrite Hse.
  - unfold nearer. rewrite Hse, f32_lt_irrefl. done.
Qed.

Lemma greedy_step_spec ep : P ep -> exists ep', greedy_step nodes query ep layer = Some ep' /\ P ep'.
Proof.
  intros Hep. unfold greedy_step. destruct (closed_sim ep Hep) as (_ & s & Hs). rewrite Hs. cbn [mbind option_bind].
  apply greedy_loop_spec; [done..|]. pose proof (length_filter (nearer s) (seq 0 (length nodes))) as Hl.
  rewrite length_seq in Hl. lia.
Qed.

(** What holds of the visited marks, the candidates and the results. *)
Record layer_inv (ef : nat) (st : layer_state) : Prop := {
  li_len : length st.1.1 = length nodes;
  li_res : Forall (fun r => P r.1 /\ sim_to nodes query r.1 = Some r.2 /\ st.1.1 !! r.1 = Some true) st.2;
  li_nodup : NoDup st.2.*1;
  li_size : 1 <= length st.2 <= 1 `max` ef;
  li_cand : Forall (fun r => P r.1) st.1.2
}.
Definition measure (st : layer_state) : nat := length st.1.2 + count_occ bool_dec st.1.1 false.

(** Nothing is ever dropped when [ef] is at least the number of nodes. *)
Definition small (ef : nat) : Prop := exists U, (forall i, P i -> i ∈ U) /\ length U <= ef.
Definition all_kept (st : layer_state) : Prop := forall i, st.1.1 !! i = Some true -> i ∈ st.2.*1.

Lemma drop_worst_spec ef results : 1 <= length results <= S (1 `max` ef) ->
  exists results', drop_worst ef results = Some results' /\ results' ⊆+ results /\
    length results' = (if (ef <? length results)%nat then length results - 1 else length results) /\
    (length results <= ef -> results' = results).
Proof.
  intros Hl. unfold drop_worst. destruct (ef <? length results)%nat eqn:Hlt.
  - pose proof (min_by_elem (imap (fun i r => (i, r.2)) results)) as Hm.
    destruct (min_by _) as [[pos s]|]; [|destruct results; [cbn in Hl; lia|done]].
    destruct (imap_pos snd results pos s Hm) as (r & Hr). cbn [mbind option_bind].
    destruct (swap_remove_spec results pos r Hr) as (rest & -> & Hp). cbn [mbind option_bind].
    assert (length results = S (length rest)) as Hlr by (by apply Permutation_length in Hp).
    exists rest. split_and!; [done| |lia|].
    + transitivity (r :: rest); [by apply submseteq_cons|by apply Permutation_submseteq].
    + apply Nat.ltb_lt in Hlt. lia.
  - exists results. split_and!; done.
Qed.

Lemma small_room ef (results : list (nat * f32)) n : small ef -> Forall (fun r => P r.1) results -> NoDup results.*1 -> P n -> n ∉ results.*1 ->
  length results < ef.
Proof.
  intros (U & HU & Hef) Hall Hnd Hn Hnew. assert (length (n :: results.*1) <= length U) as Hl; [|cbn in Hl; rewrite length_fmap in Hl; lia].
  apply submseteq_length, NoDup_submseteq; [by constructor|]. intros i [->|Hi]%elem_of_cons; [by apply HU|].
  apply list_elem_of_fmap in Hi as (r & -> & Hr). rewrite Forall_forall in Hall. by apply HU, Hall.
Qed.

(** The results and a newly visited node, some of them dropped. *)
Lemma results_sub n s visited (results results' : list (nat * f32)) : P n -> sim_to nodes query n = Some s -> n < length visited ->
  Forall (fun r => P r.1 /\ sim_to nodes query r.1 = Some r.2 /\ visited !! r.1 = Some true) results ->
  NoDup results.*1 -> n ∉ results.*1 -> results' ⊆+ results ++ [(n, s)] ->
  Forall (fun r => P r.1 /\ sim_to nodes query r.1 = Some r.2 /\ <[n:=true]> visited !! r.1 = Some true) results' /\ NoDup results'.*1.
Proof.
  intros Hn Hs Hlt Hres Hnd Hnew Hsub. split.
  - apply Forall_forall. intros r Hr. eapply elem_of_submseteq in Hsub; [|exact Hr].
    apply elem_of_app in Hsub as [Hr'| ->%list_elem_of_singleton].
    + rewrite Forall_forall in Hres. destruct (Hres r Hr') as (? & ? & ?). split_and!; [done..|].
      destruct (decide (r.1 = n)) as [-> |]; [by apply list_lookup_insert_eq|by rewrite list_lookup_insert_ne].
    + cbn. split_and!; [done..|]. by apply list_lookup_insert_eq.
  - eapply submseteq_NoDup; [|exact (fmap_submseteq fst _ _ Hsub)]. rewrite fmap_app. cbn.
    apply NoDup_app. split; [done|]. split; [|apply NoDup_singleton]. intros y Hy ->%list_elem_of_singleton. done.
Qed.

Lemma expand_spec ef nbs st : Forall P nbs -> layer_inv ef st ->
  exists st', expand nodes query ef nbs st = Some st' /\ layer_inv ef st' /\ measure st' <= measure st /\
    (small ef -> all_kept st -> all_kept st' /\ (forall i, i ∈ st.2.*1 \/ i ∈ nbs -> i ∈ st'.2.*1)).
Proof.
  revert st. induction nbs as [|n nbs IH]; intros [[visited cands] results] Hall Hinv; cbn [expand].
  { exists (visited, cands, results). split_and!; [done..|]. intros _ Hk. split; [done|]. intros i [?|?%not_elem_of_nil]; done. }
  apply Forall_cons in Hall as [Hn Hall]. destruct (closed_sim n Hn) as (Hlt & s & Hs).
  destruct (Hinv) as [Hlen Hres Hnd Hsz Hcand]. cbn [fst snd] in *.
  destruct (visited !! n) as [[]|] eqn:Hv; [| |apply lookup_ge_None in Hv; lia]; cbn [mbind option_bind].
  { destruct (IH (visited, cands, results) Hall Hinv) as (st' & He & Hi & Hm & Hk). exists st'. split_and!; [done..|].
    intros Hsm Ha. destruct (Hk Hsm Ha) as [Ha' Hin]. split; [done|]. cbn [fst snd] in *.
    intros i [?|[->|?]%elem_of_cons]; apply Hin; [by left|left; by apply (Ha n)|by right]. }
  rewrite Hs. cbn [mbind option_bind].
  assert (n ∉ results.*1) as Hnew.
  { intros (r & -> & Hr)%list_elem_of_fmap. rewrite Forall_forall in Hres. destruct (Hres r Hr) as (_ & _ & Ht). congruence. }
  pose proof (fun results' => results_sub n s visited results results' Hn Hs ltac:(eapply lookup_lt_Some, Hv) Hres Hnd Hnew) as Hsub.
  assert (count_occ bool_dec (<[n:=true]> visited) false < count_occ bool_dec visited false) as Hcount by (rewrite <- (count_insert visited n Hv); lia).
  destruct ((length results <? ef)%nat || f32_lt (worst_of results) s)%bool eqn:Hroom.
  - destruct (drop_worst_spec ef (results ++ [(n, s)])) as (results' & -> & Hsub' & Hl & Hid); [rewrite length_app; cbn; lia|].
    cbn [mbind option_bind]. rewrite length_app in Hl. cbn [length] in Hl.
    destruct (Hsub _ Hsub') as [Hr' Hn'].
    destruct (IH (<[n:=true]> visited, cands ++ [(n, s)], results') Hall) as (st' & He & Hi & Hm & Hk).
    { split; cbn [fst snd]; [by rewrite length_insert|done|done| |by apply Forall_app; split; [|repeat constructor]].
      destruct (ef <? length results + 1)%nat eqn:Hc; [|apply Nat.ltb_ge in Hc]; lia. }
    exists st'. split_and!; [done..| |].
    { unfold measure in *. cbn [fst snd] in *. rewrite length_app in Hm. cbn in Hm. lia. }
    intros Hsm Ha. assert (results' = results ++ [(n, s)]) as ->.
    { apply Hid. rewrite length_app. cbn. assert (length results < ef); [|lia]. apply (small_room ef results n Hsm); try done.
      eapply Forall_impl; [exact Hres|]. naive_solver. }
    destruct Hk as [Ha' Hin]; [done| |].
    { intros i Hi'. cbn [fst snd] in *. rewrite fmap_app. apply elem_of_app. destruct (decide (i = n)) as [-> |Hne]; [right; by left|].
      rewrite list_lookup_insert_ne in Hi' by done. left. by apply Ha. }
    split; [done|]. cbn [fst snd] in *. rewrite fmap_app in Hin. cbn in Hin. setoid_rewrite elem_of_app in Hin.
    intros i [?|[->|?]%elem_of_cons]; apply Hin; [by left; left|left; right; by left|by right].
  - destruct (IH (<[n:=true]> visited, cands, results) Hall) as (st' & He & Hi & Hm & Hk).
    { split; cbn [fst snd]; try done; [by rewrite length_insert|]. destruct (Hsub results) as [? _]; [|done]. by apply submseteq_inserts_r. }
    exists st'. split_and!; [done..| |].
    { unfold measure in *. cbn [fst snd] in *. lia. }
    intros Hsm Ha. exfalso. apply orb_false_iff in Hroom as [Hroom%Nat.ltb_ge _].
    assert (length results < ef); [|lia]. apply (small_room ef results n Hsm); try done.
    eapply Forall_impl; [exact Hres|]. naive_solver.
Qed.

Lemma layer_inv_pop ef visited cands cands' results c : c :: cands' ≡ₚ cands ->
  layer_inv ef (visited, cands, results) -> layer_inv ef (visited, cands', results) /\ P c.1.
Proof.
  intros Hp [? ? ? ? Hc]. cbn [fst snd] in *. rewrite <- Hp in Hc. apply Forall_cons in Hc as [? ?]. split; [by split|done].
Qed.

Lemma search_loop_spec fuel ef st : layer_inv ef st -> measure st < fuel ->
  exists st', search_loop nodes query fuel ef layer st = Some st'.2 /\ layer_inv ef st' /\
    (small ef -> all_kept st -> forall i, i ∈ st.2.*1 -> i ∈ st'.2.*1).
Proof.
  revert st. induction fuel as [|fuel IH]; intros [[visited cands] results] Hinv Hf; [lia|]. cbn [search_loop].
  pose proof (max_by_elem (imap (fun i c => (i, c.2)) cands)) as Hmax.
  destruct (max_by _) as [[pos sm]|].
  2: { exists (visited, cands, results). by split_and!. }
  destruct (imap_pos snd cands pos sm) as (c & Hc); [by apply Hmax|]. destruct (swap_remove_spec cands pos c Hc) as (cands' & -> & Hp).
  destruct c as [node sim]. cbn [mbind option_bind].
  destruct (layer_inv_pop ef visited cands cands' results _ Hp Hinv) as [Hinv' Hn]. cbn [fst] in Hn.
  destruct (_ && _); [exists (visited, cands', results); by split_and!|].
  destruct (Hclosed node Hn) as (nbs & -> & Hall). cbn [mbind option_bind].
  destruct (expand_spec ef nbs (visited, cands', results) Hall Hinv') as (st & -> & Hi & Hm & Hk). cbn [mbind option_bind].
  assert (length cands = S (length cands')) as Hl by (by apply Permutation_length in Hp).
  destruct (IH st Hi) as (st' & He & Hi' & Hk'); [unfold measure in *; cbn [fst snd] in *; lia|].
  exists st'. split_and!; [done..|]. intros Hsm Ha i Hin. destruct (Hk Hsm Ha) as [Ha' Hin']. apply Hk'; [done..|]. apply Hin'. by left.
Qed.

Lemma not_below_worst n s : f32_lt s (worst_of [(n, s)]) = false.
Proof.
  unfold worst_of. cbn [fmap list_fmap foldl snd]. unfold f32_min. cbn [f32_nan]. destruct (f32_nan s) eqn:Hn; [by destruct s|].
  destruct (f32_lt s (S754_infinity false)) eqn:Hi; [apply f32_lt_irrefl|done].
Qed.

Lemma search_layer_spec ep ef : P ep ->
  exists found, search_layer nodes query ep ef layer = Some found /\
    Forall (fun r => P r.1 /\ sim_to nodes query r.1 = Some r.2) found /\ NoDup found.*1 /\
    (1 <= length found <= 1 `max` ef) /\ desc found /\
    (small ef -> forall i nbs, neighbours_at nodes ep layer = Some nbs -> i = ep \/ i ∈ nbs -> i ∈ found.*1).
Proof.
  intros Hep. destruct (closed_sim ep Hep) as (Hlt & s & Hs). unfold search_layer. apply Nat.ltb_lt in Hlt as Hb.
  rewrite Hb, Hs. cbn [mbind option_bind]. set (visited := <[ep:=true]> (replicate (length nodes) false)).
  assert (layer_inv ef (visited, [(ep, s)], [(ep, s)])) as Hinv.
  { subst visited. split; cbn [fst snd].
    - by rewrite length_insert, length_replicate.
    - apply Forall_singleton. cbn. split_and!; [done..|]. apply list_lookup_insert_eq. by rewrite length_replicate.
    - apply NoDup_singleton.
    - cbn. lia.
    - by apply Forall_singleton. }
  assert (all_kept (visited, [(ep, s)], [(ep, s)])) as Hkept.
  { intros i Hi. cbn [fst snd] in *. subst visited. destruct (decide (i = ep)) as [->|Hne]; [by left|].
    rewrite list_lookup_insert_ne in Hi by done. by apply lookup_replicate in Hi as [? _]. }
  assert (S (count_occ bool_dec visited false) = length nodes) as Hcount.
  { subst visited. rewrite count_insert by (by apply lookup_replicate_2). by rewrite count_replicate. }
  assert (exists st', search_loop nodes query (S (length nodes)) ef layer (visited, [(ep, s)], [(ep, s)]) = Some st'.2 /\
    layer_inv ef st' /\ (small ef -> forall i nbs, neighbours_at nodes ep layer = Some nbs -> i = ep \/ i ∈ nbs -> i ∈ st'.2.*1))
    as (st' & -> & [_ Hres Hnd Hsz _] & Hk).
  { cbn [search_loop]. change (max_by (imap (fun (i : nat) (c : nat * f32) => (i, c.2)) [(ep, s)])) with (Some (0, s)).
    cbv beta iota. change (swap_remove [(ep, s)] 0) with (Some ((ep, s), @nil (nat * f32))). cbn [mbind option_bind].
    rewrite not_below_worst, andb_false_r. destruct (Hclosed ep Hep) as (nbs & Hnbs & Hall). rewrite Hnbs. cbn [mbind option_bind].
    destruct (layer_inv_pop ef visited [(ep, s)] [] [(ep, s)] (ep, s) ltac:(done) Hinv) as [Hinv' _].
    destruct (expand_spec ef nbs (visited, [], [(ep, s)]) Hall Hinv') as (st & -> & Hi & Hm & Hk). cbn [mbind option_bind].
    destruct (search_loop_spec (length nodes) ef st Hi) as (st' & -> & Hi' & Hk'); [unfold measure in *; cbn [fst snd length] in *; lia|].
    exists st'. split_and!; [done..|]. intros Hsm i nbs' [= <-] Hin. destruct (Hk Hsm Hkept) as [Ha' Hin']. apply Hk'; [done..|].
    apply Hin'. cbn. rewrite list_elem_of_singleton. naive_solver. }
  cbn [mbind option_bind]. exists (sort_desc st'.2). split; [done|]. pose proof (sort_desc_perm st'.2) as Hp. split_and!.
  - rewrite Hp. eapply Forall_impl; [exact Hres|]. naive_solver.
  - by rewrite Hp.
  - rewrite Hp. lia.
  - rewrite Hp. lia.
  - apply sort_desc_sorted.
  - intros Hsm i nbs Hn Hi. rewrite Hp. by eapply Hk.
Qed.
End search_spec.

(** ** The graph *)

Definition items_of (nodes : list HnswNode) : list item := (fun nd => (hn_id nd, hn_vector nd)) <$> nodes.

(** The node is part of the layer. *)
Definition has (nodes : list HnswNode) (l i : nat) : Prop := is_Some (neighbours_at nodes i l).

(** Lists of neighbours hold distinct other nodes of the same layer, and not
    more than the layer allows. *)
Definition graph_ok (m : nat) (nodes : list HnswNode) : Prop := forall i l nbs, neighbours_at nodes i l = Some nbs ->
  NoDup nbs /\ ~ i ∈ nbs /\ Forall (has nodes l) nbs /\ length nbs <= max_neighbors m l.

(** [nodes'] has other neighbours of one node at one layer. *)
Record updates (nodes : list HnswNode) (n layer : nat) (nbs : list nat) (nodes' : list HnswNode) : Prop := {
  up_items : items_of nodes' = items_of nodes;
  up_here : neighbours_at nodes' n layer = Some nbs;
  up_else : forall i l, i <> n \/ l <> layer -> neighbours_at nodes' i l = neighbours_at nodes i l
}.

Lemma items_sim nodes nodes' q i : items_of nodes' = items_of nodes -> sim_to nodes' q i = sim_to nodes q i.
Proof.
  intros Hi. unfold sim_to. assert (items_of nodes' !! i = items_of nodes !! i) as Hl by by rewrite Hi.
  unfold items_of in Hl. rewrite !list_lookup_fmap in Hl.
  destruct (nodes' !! i), (nodes !! i); cbn in *; congruence.
Qed.

Lemma items_length nodes nodes' : items_of nodes' = items_of nodes -> length nodes' = length nodes.
Proof. intros Hi. apply (f_equal length) in Hi. unfold items_of in Hi. by rewrite !length_fmap in Hi. Qed.

Lemma has_lt nodes l i : has nodes l i -> i < length nodes.
Proof. intros [nbs Hn]. unfold neighbours_at in Hn. destruct (nodes !! i) eqn:Hi; [|done]. by eapply lookup_lt_Some. Qed.

Lemma has_sim nodes l i q : has nodes l i -> is_Some (sim_to nodes q i).
Proof. intros Hl%has_lt%lookup_lt_is_Some_2. unfold sim_to. destruct Hl as [nd ->]. by eexists. Qed.

Lemma has_below nodes l l' i : l <= l' -> has nodes l' i -> has nodes l i.
Proof.
  intros Hle [nbs Hn]. unfold has, neighbours_at in *. destruct (nodes !! i) as [nd|]; [|done]. cbn in *.
  apply lookup_lt_is_Some_2. apply lookup_lt_Some in Hn. lia.
Qed.

Lemma ok_closed m nodes l : graph_ok m nodes -> closed nodes (has nodes l) l.
Proof. intros Hok i [nbs Hn]. exists nbs. split; [done|]. by eapply Hok. Qed.

Lemma updates_has nodes n layer nbs nodes' l i : has nodes layer n -> updates nodes n layer nbs nodes' -> has nodes' l i <-> has nodes l i.
Proof.
  intros Hh [_ Hn Ho]. unfold has. destruct (decide (i = n /\ l = layer)) as [[-> ->]|Hne].
  - rewrite Hn. split; [by intros _|by eexists].
  - rewrite Ho by lia. done.
Qed.

Lemma updates_trans nodes n layer nbs nbs' nodes1 nodes2 :
  updates nodes n layer nbs nodes1 -> updates nodes1 n layer nbs' nodes2 -> updates nodes n layer nbs' nodes2.
Proof. intros [Hi1 _ Ho1] [Hi2 Hh2 Ho2]. split; [congruence|done|]. intros i l Hne. by rewrite Ho2, Ho1. Qed.

Lemma set_neighbors_spec nodes n layer nbs : has nodes layer n ->
  exists nodes', set_neighbors n layer nbs nodes = Some nodes' /\ updates nodes n layer nbs nodes'.
Proof.
  intros [old Hold]. unfold neighbours_at, set_neighbors in *. destruct (nodes !! n) as [nd|] eqn:Hn; [|done].
  cbn [mbind option_bind] in *. rewrite Hold. cbn [mbind option_bind]. eexists. split; [done|].
  apply lookup_lt_Some in Hn as Hlt. apply lookup_lt_Some in Hold as Hll. split.
  - unfold items_of. rewrite list_fmap_insert. cbn. apply list_insert_id. by rewrite list_lookup_fmap, Hn.
  - unfold neighbours_at. rewrite list_lookup_insert_eq by done. cbn. by rewrite list_lookup_insert_eq.
  - intros i l Hne. unfold neighbours_at. destruct (decide (i = n)) as [->|Hin]; [|by rewrite list_lookup_insert_ne].
    rewrite list_lookup_insert_eq, Hn by done. cbn. rewrite list_lookup_insert_ne; [done|]. naive_solver.
Qed.

(** Distinct nodes have no repetitions to remove. *)
Lemma dedup_nodup l : NoDup l.*1 -> dedup_nodes l = l.
Proof.
  destruct l as [|x l]; [done|]. cbn [dedup_nodes]. intros Hnd. f_equal. revert x Hnd. induction l as [|y l IH]; intros x Hnd; [done|].
  cbn [dedup_after]. cbn in Hnd. apply NoDup_cons in Hnd as [Hx Hnd]. rewrite bool_decide_false by set_solver.
  f_equal. by apply IH.
Qed.

Lemma mapM_sims nodes q nbs : Forall (fun t => is_Some (sim_to nodes q t)) nbs ->
  exists scored, mapM (fun t => s ← sim_to nodes q t; Some (t, s)) nbs = Some scored /\ scored.*1 = nbs.
Proof.
  induction 1 as [|t nbs [s Hs] _ (scored & Hm & Hf)]; [by exists []|]. exists ((t, s) :: scored).
  cbn. rewrite Hs. cbn. rewrite Hm. cbn. by rewrite Hf.
Qed.

Lemma prune_spec nodes n layer cap nbs : neighbours_at nodes n layer = Some nbs -> NoDup nbs -> Forall (has nodes layer) nbs ->
  exists nodes' nbs', prune n layer cap nodes = Some nodes' /\ updates nodes n layer nbs' nodes' /\
    nbs' ⊆+ nbs /\ length nbs' <= cap /\ (length nbs <= cap -> nbs' = nbs).
Proof.
  intros Hn Hnd Hall. unfold prune. rewrite Hn. cbn [mbind option_bind]. destruct (length nbs <=? cap)%nat eqn:Hle.
  { exists nodes, nbs. apply Nat.leb_le in Hle. by repeat split. }
  unfold neighbours_at in Hn. destruct (nodes !! n) as [nd|] eqn:Hnode; [|done]. cbn [mbind option_bind] in *.
  destruct (mapM_sims nodes (hn_vector nd) nbs) as (scored & -> & Hf).
  { eapply Forall_impl; [exact Hall|]. intros t Ht. by eapply has_sim. }
  cbn [mbind option_bind]. set (kept := take cap (sort_desc scored)).
  assert (kept.*1 ⊆+ nbs) as Hsub.
  { subst kept. rewrite <- Hf. apply fmap_submseteq. rewrite <- (sort_desc_perm scored) at 2.
    rewrite <- (take_drop cap (sort_desc scored)) at 2. apply submseteq_inserts_r. done. }
  rewrite dedup_nodup by (by eapply submseteq_NoDup).
  destruct (set_neighbors_spec nodes n layer kept.*1) as (nodes' & Hs & Hu).
  { unfold has, neighbours_at. rewrite Hnode. by eexists. }
  exists nodes', kept.*1. split_and!; [done..| |].
  - subst kept. rewrite length_fmap, length_take. lia.
  - apply Nat.leb_gt in Hle. lia.
Qed.

(** ** Linking a node at one layer *)

Section linking.
Context (m idx l : nat).
#[local] Abbreviation cap := (max_neighbors m l).

(** New neighbours of [t] keep the graph well formed. *)
Lemma graph_ok_update nodes nodes' t nbs : graph_ok m nodes -> has nodes l t -> updates nodes t l nbs nodes' ->
  NoDup nbs -> t ∉ nbs -> Forall (has nodes l) nbs -> length nbs <= cap -> graph_ok m nodes'.
Proof.
  intros Hok Ht Hu Hnd Hnt Hall Hlen i l' nbs' Hn.
  assert (forall k, has nodes' l' k <-> has nodes l' k) as Hiff by (intros k; by eapply updates_has).
  destruct (decide (i = t /\ l' = l)) as [[-> ->]|Hne].
  - rewrite (up_here _ _ _ _ _ Hu) in Hn. injection Hn as <-. split_and!; [done..| |done].
    eapply Forall_impl; [exact Hall|]. intros k. apply Hiff.
  - rewrite (up_else _ _ _ _ _ Hu) in Hn by lia. destruct (Hok i l' nbs' Hn) as (? & ? & Hf & ?). split_and!; [done..| |done].
    eapply Forall_impl; [exact Hf|]. intros k. apply Hiff.
Qed.

Lemma link_back_spec nodes t nbs : graph_ok m nodes -> neighbours_at nodes t l = Some nbs -> has nodes l idx -> t <> idx -> idx ∉ nbs ->
  exists nodes' nbs', link_back idx l cap t nodes = Some nodes' /\ graph_ok m nodes' /\ updates nodes t l nbs' nodes' /\
    nbs' ⊆+ nbs ++ [idx] /\ (length nbs < cap -> nbs' = nbs ++ [idx]).
Proof.
  intros Hok Hn Hi Hne Hnew. unfold link_back. rewrite Hn. cbn [mbind option_bind].
  destruct (Hok t l nbs Hn) as (Hnd & Hnt & Hall & Hlen). assert (has nodes l t) as Ht by (by eexists).
  destruct (set_neighbors_spec nodes t l (nbs ++ [idx]) Ht) as (n1 & -> & Hu1). cbn [mbind option_bind].
  assert (NoDup (nbs ++ [idx])) as Hnd' by (apply NoDup_app; split_and!; [done|set_solver|apply NoDup_singleton]).
  assert (Forall (has nodes l) (nbs ++ [idx])) as Hall' by (apply Forall_app; split; [done|by apply Forall_singleton]).
  destruct (prune_spec n1 t l cap (nbs ++ [idx])) as (n2 & nbs' & -> & Hu2 & Hsub & Hc & Hid); [by apply Hu1|done| |].
  { eapply Forall_impl; [exact Hall'|]. intros k. by eapply updates_has. }
  exists n2, nbs'. pose proof (updates_trans _ _ _ _ _ _ _ Hu1 Hu2) as Hu. split_and!; [done| |done|done|].
  - apply (graph_ok_update nodes n2 t nbs'); try done.
    + by eapply submseteq_NoDup.
    + intros Hin. eapply elem_of_submseteq in Hsub; [|exact Hin]. set_solver.
    + apply Forall_forall. intros k Hk. eapply elem_of_submseteq in Hsub; [|exact Hk]. rewrite Forall_forall in Hall'. by apply Hall'.
  - intros Hlt. apply Hid. rewrite length_app. cbn. lia.
Qed.

(** What linking back leaves of a node's neighbours. *)
Definition linked_back (old new : list nat) : Prop := new ⊆+ old ++ [idx] /\ (length old < cap -> new = old ++ [idx]).

Lemma connect_links_spec targets nodes : graph_ok m nodes -> has nodes l idx -> NoDup targets -> idx ∉ targets ->
  (forall t, t ∈ targets -> exists nbs, neighbours_at nodes t l = Some nbs /\ idx ∉ nbs) ->
  exists nodes', link_all idx l cap targets nodes = Some nodes' /\ graph_ok m nodes' /\ items_of nodes' = items_of nodes /\
    (forall i l', has nodes' l' i <-> has nodes l' i) /\
    (forall i l', i ∉ targets \/ l' <> l -> neighbours_at nodes' i l' = neighbours_at nodes i l') /\
    (forall t nbs, t ∈ targets -> neighbours_at nodes t l = Some nbs -> exists nbs', neighbours_at nodes' t l = Some nbs' /\ linked_back nbs nbs').
Proof.
  revert nodes. induction targets as [|t targets IH]; intros nodes Hok Hi Hnd Hidx Hold; cbn [link_all].
  { exists nodes. split_and!; [done..|]. intros t nbs []%not_elem_of_nil. }
  apply NoDup_cons in Hnd as [Ht Hnd]. destruct (Hold t) as (nbs & Hn & Hnew); [by left|].
  destruct (link_back_spec nodes t nbs Hok Hn Hi) as (n1 & nbs1 & -> & Hok1 & Hu & Hlb); [set_solver|done|]. cbn [mbind option_bind].
  assert (forall i l', has n1 l' i <-> has nodes l' i) as Hhas by (intros; eapply updates_has; [by eexists|done]).
  destruct (IH n1 Hok1) as (n2 & -> & Hok2 & Hit & Hhas2 & Hother & Hlinked); [by apply Hhas|done|set_solver| |].
  { intros t' Ht'. rewrite (up_else _ _ _ _ _ Hu) by set_solver. apply Hold. by right. }
  exists n2. split_and!; [done|done| | | |].
  - rewrite Hit. apply Hu.
  - intros i l'. by rewrite Hhas2.
  - intros i l' Hne. rewrite Hother, (up_else _ _ _ _ _ Hu) by set_solver. done.
  - intros t' nbs' [->|Ht']%elem_of_cons Hn'.
    + exists nbs1. rewrite Hother by by left. split; [apply Hu|]. rewrite Hn in Hn'. by injection Hn' as <-.
    + apply Hlinked; [done|]. by rewrite (up_else _ _ _ _ _ Hu) by set_solver.
Qed.

Lemma connect_spec nodes targets : graph_ok m nodes -> neighbours_at nodes idx l = Some [] -> NoDup targets -> idx ∉ targets ->
  length targets <= cap ->
  (forall t, t ∈ targets -> exists nbs, neighbours_at nodes t l = Some nbs /\ idx ∉ nbs) ->
  exists nodes', connect m idx targets l nodes = Some nodes' /\ graph_ok m nodes' /\ items_of nodes' = items_of nodes /\
    (forall i l', has nodes' l' i <-> has nodes l' i) /\
    neighbours_at nodes' idx l = Some targets /\
    (forall i l', l' <> l -> neighbours_at nodes' i l' = neighbours_at nodes i l') /\
    (forall i, i <> idx -> i ∉ targets -> neighbours_at nodes' i l = neighbours_at nodes i l) /\
    (forall t nbs, t ∈ targets -> neighbours_at nodes t l = Some nbs -> exists nbs', neighbours_at nodes' t l = Some nbs' /\ linked_back nbs nbs').
Proof.
  intros Hok Hn Hnd Hidx Hlen Hold. unfold connect. rewrite Hn. cbn [mbind option_bind app].
  assert (has nodes l idx) as Hi by (by eexists).
  destruct (set_neighbors_spec nodes idx l targets Hi) as (n1 & -> & Hu1). cbn [mbind option_bind].
  assert (forall i l', has n1 l' i <-> has nodes l' i) as Hhas1 by (intros; by eapply updates_has).
  assert (Forall (has nodes l) targets) as Hall.
  { apply Forall_forall. intros t (nbs & Ht & _)%Hold. by eexists. }
  destruct (prune_spec n1 idx l cap targets) as (n2 & nbs2 & -> & Hu2 & _ & _ & Hid); [by apply Hu1|done| |].
  { eapply Forall_impl; [exact Hall|]. intros k. apply Hhas1. }
  cbn [mbind option_bind]. rewrite Hid in Hu2 by done. pose proof (updates_trans _ _ _ _ _ _ _ Hu1 Hu2) as Hu.
  assert (graph_ok m n2) as Hok2 by (by apply (graph_ok_update nodes n2 idx targets)).
  assert (forall i l', has n2 l' i <-> has nodes l' i) as Hhas by (intros; by eapply updates_has).
  destruct (connect_links_spec targets n2 Hok2) as (n3 & -> & Hok3 & Hit & Hhas3 & Hother & Hlinked); [by apply Hhas|done|done| |].
  { intros t Ht. rewrite (up_else _ _ _ _ _ Hu) by set_solver. by apply Hold. }
  exists n3. split_and!; [done|done| | | | | |].
  - rewrite Hit. apply Hu.
  - intros i l'. by rewrite Hhas3.
  - rewrite Hother by by left. apply Hu.
  - intros i l' Hne. rewrite Hother, (up_else _ _ _ _ _ Hu) by by right. done.
  - intros i Hne Hnt. rewrite Hother, (up_else _ _ _ _ _ Hu) by by left. done.
  - intros t nbs Ht Hnt. apply Hlinked; [done|]. rewrite (up_else _ _ _ _ _ Hu) by set_solver. done.
Qed.
End linking.

(** ** Inserting a node *)

(** Every two of the first [k] nodes are linked at the bottom layer. *)
Definition complete (nodes : list HnswNode) (k : nat) : Prop := forall i j, i < k -> j < k -> i <> j ->
  exists nbs, neighbours_at nodes i 0 = Some nbs /\ j ∈ nbs.

(** The new node is unlinked at the layers below [n]. *)
Definition unlinked (nodes : list HnswNode) (idx n : nat) : Prop :=
  (forall l, l < n -> neighbours_at nodes idx l = Some []) /\
  (forall i l nbs, l < n -> neighbours_at nodes i l = Some nbs -> idx ∉ nbs).

Section insertion.
Context (m efc idx : nat) (query : list f32).

(** The nodes of a layer that are already linked. *)
Definition old (nodes : list HnswNode) (l i : nat) : Prop := has nodes l i /\ i <> idx.

Lemma old_closed nodes n l : graph_ok m nodes -> unlinked nodes idx n -> l < n -> closed nodes (old nodes l) l.
Proof.
  intros Hok [_ Hun] Hl i [[nbs Hn] _]. exists nbs. split; [done|]. destruct (Hok i l nbs Hn) as (_ & _ & Hall & _).
  apply Forall_forall. intros j Hj. split; [by rewrite Forall_forall in Hall; apply Hall|]. intros ->. by apply (Hun i l nbs).
Qed.

(** A complete graph of few nodes stays complete. *)
Lemma complete_link nodes nodes' found : graph_ok m nodes -> complete nodes idx -> unlinked nodes idx 1 ->
  S idx = length nodes -> (forall i, i < idx -> has nodes 0 i) -> idx <= m * 2 ->
  (forall i, i < idx -> i ∈ found) -> neighbours_at nodes' idx 0 = Some found ->
  (forall t nbs, t ∈ found -> neighbours_at nodes t 0 = Some nbs -> exists nbs', neighbours_at nodes' t 0 = Some nbs' /\ linked_back m idx 0 nbs nbs') ->
  complete nodes' (S idx).
Proof.
  intros Hok Hc [_ Hun] Hlen Hhas Hm Hf Hidx Hback i j Hi Hj Hne.
  destruct (decide (i = idx)) as [->|Hii]; [exists found; split; [done|]; apply Hf; lia|].
  destruct (Hhas i) as [nbs Hn]; [lia|]. destruct (Hok i 0 nbs Hn) as (Hnd & Hni & Hall & _).
  assert (length nbs < idx) as Hl.
  { assert (length (i :: nbs) <= length (seq 0 idx)) as Hle; [|rewrite length_seq in Hle; cbn in Hle; lia].
    apply submseteq_length, NoDup_submseteq; [by constructor|]. intros y Hy. apply elem_of_seq.
    apply elem_of_cons in Hy as [->|Hy]; [lia|]. rewrite Forall_forall in Hall. pose proof (has_lt _ _ _ (Hall y Hy)).
    assert (y <> idx); [|lia]. intros ->. by apply (Hun i 0 nbs ltac:(lia)). }
  destruct (Hback i nbs) as (nbs' & Hn' & _ & Happ); [apply Hf; lia|done|]. exists nbs'. split; [done|].
  rewrite Happ by (cbn; lia). apply elem_of_app. destruct (decide (j = idx)) as [->|Hji]; [right; by left|left].
  destruct (Hc i j) as (nbs2 & Hn2 & Hj2); [lia..|]. congruence.
Qed.

Lemma insert_layers_spec n ep nodes : graph_ok m nodes -> unlinked nodes idx n -> 2 <= m ->
  (0 < n -> has nodes (n - 1) ep /\ ep <> idx) -> S idx = length nodes ->
  exists nodes', insert_layers m efc idx query n ep nodes = Some nodes' /\ graph_ok m nodes' /\ items_of nodes' = items_of nodes /\
    (forall i l, has nodes' l i <-> has nodes l i) /\ (n = 0 -> nodes' = nodes) /\
    (0 < n -> complete nodes idx -> (forall i, i < idx -> has nodes 0 i) -> idx <= m * 2 -> idx <= efc -> complete nodes' (S idx)).
Proof.
  revert ep nodes. induction n as [|l IH]; intros ep nodes Hok Hun Hm Hep Hlen; cbn [insert_layers].
  { exists nodes. split_and!; [done..|lia]. }
  destruct Hep as [Hep Hne]; [lia|]. rewrite Nat.sub_succ, Nat.sub_0_r in Hep.
  assert (closed nodes (old nodes l) l) as Hcl by (eapply old_closed; [done..|lia]).
  destruct (search_layer_spec nodes query (old nodes l) l Hcl ep efc) as (found & -> & Hall & Hnd & Hsz & _ & Hfull); [done|].
  cbn [mbind option_bind]. destruct found as [|[ep' s] found']; [cbn in Hsz; lia|].
  set (found := (ep', s) :: found') in *. change (head found.*1) with (Some ep'). cbn [mbind option_bind].
  set (targets := take (max_neighbors m l `min` length found) found.*1).
  assert (forall t, t ∈ found.*1 -> old nodes l t) as Hold.
  { intros t (r & -> & Hr)%list_elem_of_fmap. rewrite Forall_forall in Hall. by apply Hall. }
  assert (targets ⊆+ found.*1) as Hsub.
  { subst targets. rewrite <- (take_drop (max_neighbors m l `min` length found) found.*1) at 2. by apply submseteq_inserts_r. }
  assert (forall t, t ∈ targets -> old nodes l t) as Hold' by (intros t Ht; apply Hold; by eapply elem_of_submseteq).
  destruct (connect_spec m idx l nodes targets Hok) as (n1 & -> & Hok1 & Hit1 & Hhas1 & Hh1 & Hlow1 & Hoth1 & Hback1).
  { apply Hun. lia. }
  { by eapply submseteq_NoDup. }
  { intros Hin. by destruct (Hold' idx Hin). }
  { subst targets. rewrite length_take. lia. }
  { intros t Ht. destruct (Hold' t Ht) as [[nbs Hn] _]. exists nbs. split; [done|]. eapply (proj2 Hun); [|done]. lia. }
  cbn [mbind option_bind].
  destruct (Hold ep') as [Hep1 Hne1]; [by left|].
  destruct (IH ep' n1 Hok1) as (n2 & -> & Hok2 & Hit2 & Hhas2 & Hid2 & Hc2).
  { split.
    - intros l' Hl. rewrite Hlow1 by lia. apply Hun. lia.
    - intros i l' nbs Hl Hn. rewrite Hlow1 in Hn by lia. eapply (proj2 Hun); [|done]. lia. }
  { done. }
  { intros Hl. split; [|done]. apply Hhas1. eapply has_below; [|done]. lia. }
  { by rewrite (items_length _ _ Hit1). }
  exists n2. split_and!; [done|done|congruence|intros; by rewrite Hhas2|done|].
  intros _ Hc H0 Hidx Hefc. destruct l as [|l].
  2: { apply Hc2; [lia| |intros; by apply Hhas1, H0|done..]. intros i j ???. rewrite Hlow1 by lia. by apply Hc. }
  rewrite Hid2 by done. assert (forall i, i < idx -> i ∈ found.*1) as Hfound.
  { intros i Hi. destruct Hep as [nbs Hn]. assert (small (old nodes 0) efc) as Hsmall.
    { exists (seq 0 idx). rewrite length_seq. split; [|done]. intros y [Hy%has_lt Hyi]. apply elem_of_seq. lia. }
    apply (Hfull Hsmall i nbs Hn).
    destruct (decide (i = ep)) as [->|Hie]; [by left|right]. pose proof (has_lt nodes 0 ep ltac:(by eexists)).
    destruct (Hc ep i) as (nbs' & Hn' & Hin); [lia..|]. congruence. }
  assert (targets = found.*1) as Htg.
  { subst targets. apply take_ge. assert (length found.*1 <= length (seq 0 idx)) as Hle.
    - apply submseteq_length, NoDup_submseteq; [done|]. intros t Ht. destruct (Hold t Ht) as [Hht Hti].
      apply has_lt in Hht. apply elem_of_seq. lia.
    - rewrite length_seq in Hle. rewrite length_fmap in *. cbn [max_neighbors]. lia. }
  rewrite Htg in *. by apply (complete_link nodes n1 found.*1).
Qed.
End insertion.

(** ** The store *)

(** The nodes are the items in the order of their insertion, the graph is
    well formed, every node is in the bottom layer, and the entry node is in
    every layer a node is in. *)
Record store_ok (s : HnswVectorStore) (items : list item) : Prop := {
  so_m : 2 <= h_m s;
  so_items : items_of (h_nodes s) = items;
  so_graph : graph_ok (h_m s) (h_nodes s);
  so_bottom : forall i, i < length (h_nodes s) -> has (h_nodes s) 0 i;
  so_entry : match h_entry s with
             | None => h_nodes s = []
             | Some e => e < length (h_nodes s) /\ forall i l, has (h_nodes s) l i -> has (h_nodes s) l e
             end
}.

Lemma new_store_ok m efc efs : store_ok (hnsw_new m efc efs) [].
Proof. split; cbn; try done; [lia|]. intros i Hi. lia. Qed.

(** A node's top layer. *)
Lemma has_layers nodes i nd l : nodes !! i = Some nd -> has nodes l i <-> l < length (hn_neighbors nd).
Proof. intros Hi. unfold has, neighbours_at. rewrite Hi. cbn. apply lookup_lt_is_Some. Qed.

Lemma descend_spec nodes q lo n ep : (forall l, closed nodes (has nodes l) l) -> has nodes (lo + n) ep ->
  exists ep', descend nodes q lo (S n) ep = Some ep' /\ has nodes lo ep'.
Proof.
  intros Hcl. revert ep. induction n as [|n IH]; intros ep Hep.
  - cbn [descend]. rewrite Nat.add_0_r in *. destruct (greedy_step_spec nodes q (has nodes lo) lo (Hcl lo) ep Hep) as (e & -> & He).
    by exists e.
  - change (descend nodes q lo (S (S n)) ep) with (ep ← greedy_step nodes q ep (lo + S n); descend nodes q lo (S n) ep).
    destruct (greedy_step_spec nodes q (has nodes (lo + S n)) (lo + S n) (Hcl _) ep Hep) as (e & -> & He). cbn [mbind option_bind].
    apply IH. eapply has_below; [|done]. lia.
Qed.

(** A node appended without links. *)
Section append.
Context (nodes : list HnswNode) (nd : HnswNode) (layer : nat) (Hnd : hn_neighbors nd = replicate (S layer) []).

Lemma append_old i l : i < length nodes -> neighbours_at (nodes ++ [nd]) i l = neighbours_at nodes i l.
Proof. intros Hi. unfold neighbours_at. by rewrite lookup_app_l. Qed.

Lemma append_new l : neighbours_at (nodes ++ [nd]) (length nodes) l = if (l <=? layer)%nat then Some [] else None.
Proof.
  unfold neighbours_at. rewrite lookup_app_r, Nat.sub_diag by done. cbn [lookup list_lookup mbind option_bind]. rewrite Hnd.
  destruct (l <=? layer)%nat eqn:Hl; [apply lookup_replicate_2; apply Nat.leb_le in Hl; lia|].
  apply lookup_replicate_None. apply Nat.leb_gt in Hl. lia.
Qed.

Lemma append_has l i : has (nodes ++ [nd]) l i <-> has nodes l i \/ i = length nodes /\ l <= layer.
Proof.
  destruct (decide (i < length nodes)) as [Hlt|Hge].
  - unfold has. rewrite append_old by done. split; [by left|]. intros [?|[-> _]]; [done|lia].
  - split.
    + intros Hh. right. pose proof (has_lt _ _ _ Hh) as Hl. rewrite length_app in Hl. cbn in Hl.
      assert (i = length nodes) as -> by lia. split; [done|]. destruct Hh as [nbs Hn]. rewrite append_new in Hn.
      destruct (l <=? layer)%nat eqn:Hle; [by apply Nat.leb_le|done].
    + intros [Hh%has_lt|[-> Hl]]; [lia|]. unfold has. rewrite append_new. apply Nat.leb_le in Hl as ->. by eexists.
Qed.

Lemma append_ok m : graph_ok m nodes -> graph_ok m (nodes ++ [nd]).
Proof.
  intros Hok i l nbs Hn. destruct (decide (i < length nodes)) as [Hlt|Hge].
  - rewrite append_old in Hn by done. destruct (Hok i l nbs Hn) as (? & ? & Hall & ?). split_and!; [done..| |done].
    eapply Forall_impl; [exact Hall|]. intros j Hj. apply append_has. by left.
  - assert (has (nodes ++ [nd]) l i) as Hh by by eexists. apply append_has in Hh as [Hh%has_lt|[-> Hl]]; [lia|].
    rewrite append_new in Hn. apply Nat.leb_le in Hl as Hb. rewrite Hb in Hn. injection Hn as <-.
    split_and!; [apply NoDup_nil_2|apply not_elem_of_nil|done|cbn; lia].
Qed.

Lemma append_unlinked m n : graph_ok m nodes -> n <= S layer -> unlinked (nodes ++ [nd]) (length nodes) n.
Proof.
  intros Hok Hn. split.
  - intros l Hl. rewrite append_new. by rewrite (proj2 (Nat.leb_le l layer)) by lia.
  - intros i l nbs Hl Hi Hin. destruct (decide (i < length nodes)) as [Hlt|Hge].
    + rewrite append_old in Hi by done. destruct (Hok i l nbs Hi) as (_ & _ & Hall & _). rewrite Forall_forall in Hall.
      specialize (Hall _ Hin). apply has_lt in Hall. lia.
    + assert (has (nodes ++ [nd]) l i) as Hh by by eexists. apply append_has in Hh as [Hh%has_lt|[-> Hl']]; [lia|].
      rewrite append_new in Hi. rewrite (proj2 (Nat.leb_le l layer)) in Hi by lia. injection Hi as <-. by apply not_elem_of_nil in Hin.
Qed.

Lemma append_complete : complete nodes (length nodes) -> complete (nodes ++ [nd]) (length nodes).
Proof. intros Hc i j ???. rewrite append_old by done. by apply Hc. Qed.
End append.

Section store.
Context `{Ln}.

Lemma hnsw_add_spec s items id v : store_ok s items ->
  exists s', hnsw_add id v s = Some s' /\ store_ok s' (items ++ [(id, v)]) /\
    h_m s' = h_m s /\ ef_construction s' = ef_construction s /\ ef_search s' = ef_search s /\
    (complete (h_nodes s) (length items) -> length items <= h_m s * 2 -> length items <= ef_construction s ->
     complete (h_nodes s') (S (length items))).
Proof.
  intros [Hm Hit Hok Hbot Hent]. unfold hnsw_add. set (layer := assign_layer _ _). set (nd := mkHnsw id v (replicate (S layer) [])).
  assert (length items = length (h_nodes s)) as Hlen by (rewrite <- Hit; unfold items_of; by rewrite length_fmap). rewrite Hlen.
  assert (items_of (h_nodes s ++ [nd]) = items ++ [(id, v)]) as Hit' by (unfold items_of in *; by rewrite fmap_app, Hit).
  pose proof (append_has (h_nodes s) nd layer eq_refl) as Happ.
  assert (forall i, i < length (h_nodes s ++ [nd]) -> has (h_nodes s ++ [nd]) 0 i) as Hbot'.
  { intros i Hi. rewrite length_app in Hi. cbn in Hi. apply Happ.
    destruct (decide (i < length (h_nodes s))); [left; by apply Hbot|right; lia]. }
  pose proof (append_ok (h_nodes s) nd layer eq_refl (h_m s) Hok) as Hok'.
  destruct (h_entry s) as [entry|].
  2: { eexists. split; [done|]. rewrite Hent in *. split_and!; [|done..|].
       - split; try done. split; [cbn; lia|]. intros i l Hh. pose proof (has_lt _ _ _ Hh) as Hl. cbn in Hl. by assert (i = 0) as -> by lia.
       - intros _ _ _ i j Hi Hj Hne. cbn in *. lia. }
  destruct Hent as [Hlt Hent]. rewrite lookup_app_l by done. destruct (lookup_lt_is_Some_2 (h_nodes s) entry Hlt) as [end_ Hend].
  rewrite Hend. cbn [mbind option_bind]. set (top := length (hn_neighbors end_) - 1).
  assert (forall l, has (h_nodes s) l entry <-> l <= top) as Htop.
  { intros l. rewrite (has_layers _ _ _ _ Hend). specialize (Hbot entry Hlt). rewrite (has_layers _ _ _ _ Hend) in Hbot. subst top. lia. }
  assert (exists ep, descend (h_nodes s ++ [nd]) v (S layer) (top - layer) entry = Some ep /\
    has (h_nodes s ++ [nd]) (layer `min` top) ep /\ ep <> length (h_nodes s)) as (ep & -> & Hep & Hne).
  { destruct (top - layer) as [|n] eqn:Hn.
    - exists entry. split; [done|]. split; [|lia]. apply Happ. left. apply Htop. lia.
    - destruct (descend_spec (h_nodes s ++ [nd]) v (S layer) n entry) as (ep & -> & Hep).
      { intros l. by eapply ok_closed. }
      { apply Happ. left. apply Htop. lia. }
      exists ep. split; [done|]. apply Happ in Hep as [Hep|[_ Hc]]; [|lia].
      pose proof (has_lt _ _ _ Hep). split; [|lia]. apply Happ. left. eapply has_below; [|done]. lia. }
  cbn [mbind option_bind].
  destruct (insert_layers_spec (h_m s) (ef_construction s) (length (h_nodes s)) v (S (layer `min` top)) ep (h_nodes s ++ [nd]) Hok')
    as (nodes' & -> & Hokn & Hitn & Hhas & _ & Hcomp); [apply (append_unlinked (h_nodes s) nd layer eq_refl _ _ Hok); lia|done| | |].
  { intros _. by rewrite Nat.sub_succ, Nat.sub_0_r. }
  { rewrite length_app. cbn. lia. }
  cbn [mbind option_bind]. eexists. split; [done|]. pose proof (items_length _ _ Hitn) as Hln. split_and!; [|done..|].
  - split; cbn [h_m h_nodes h_entry]; [done|congruence|done| |].
    + intros i Hi. apply Hhas, Hbot'. by rewrite <- Hln.
    + destruct (top <? layer)%nat eqn:Htl; rewrite Hln, length_app; cbn [length]; (split; [lia|]); intros i l Hh; apply Hhas; apply Hhas in Hh;
        apply Happ; apply Happ in Hh.
      * right. split; [done|]. apply Nat.ltb_lt in Htl. destruct Hh as [Hh%Hent%Htop|[_ Hl]]; lia.
      * left. apply Nat.ltb_ge in Htl. apply Htop. destruct Hh as [Hh%Hent%Htop|[_ Hl]]; lia.
  - intros Hc Hm2 Hef. cbn [h_nodes]. apply Hcomp; [lia| | |done..].
    + by apply (append_complete (h_nodes s) nd).
    + intros i Hi. apply Hbot'. rewrite length_app. lia.
Qed.

Lemma hnsw_build_spec s items more : store_ok s items ->
  exists s', hnsw_build s more = Some s' /\ store_ok s' (items ++ more) /\
    h_m s' = h_m s /\ ef_construction s' = ef_construction s /\ ef_search s' = ef_search s /\
    (complete (h_nodes s) (length items) -> length (items ++ more) <= S (h_m s * 2) ->
     length (items ++ more) <= S (ef_construction s) -> complete (h_nodes s') (length (items ++ more))).
Proof.
  revert s items. induction more as [|[id v] more IH]; intros s items Hs; cbn [hnsw_build].
  { rewrite app_nil_r. exists s. by split_and!. }
  destruct (hnsw_add_spec s items id v Hs) as (s1 & -> & Hs1 & Hm1 & Hc1 & He1 & Hcomp). cbn [mbind option_bind].
  destruct (IH s1 _ Hs1) as (s2 & -> & Hs2 & Hm2 & Hc2 & He2 & Hcomp2). exists s2.
  rewrite <- app_assoc in Hs2, Hcomp2. cbn [app] in Hs2, Hcomp2. split_and!; [done..|congruence|congruence|congruence|].
  intros Hc Hl1 Hl2. apply Hcomp2; [|congruence..]. rewrite length_app in *. cbn [length] in *.
  replace (length items + 1) with (S (length items)) by lia. apply Hcomp; [done|lia|lia].
Qed.
End store.

(** ** Nearest neighbours *)

(** Every item with its similarity to the query. *)
Definition scored (items : list item) (q : list f32) : list (string * f32) := (fun it => (it.1, dot q it.2)) <$> items.

Lemma desc_snd {A B} (l : list (A * f32)) (l' : list (B * f32)) : l'.*2 = l.*2 -> desc l -> desc l'.
Proof.
  revert l'. induction l as [|x l IH]; intros [|y l'] Heq Hd; try done; [by constructor|].
  cbn in Heq. injection Heq as Hxy Heq. apply StronglySorted_inv in Hd as [Hd Hall]. constructor; [by apply IH|].
  rewrite Hxy. clear -Hall Heq. revert l' Heq. induction Hall as [|z l Hz _ IHa]; intros [|y l'] Heq; try done.
  cbn in Heq. injection Heq as Hyz Heq. constructor; [by rewrite Hyz|by apply IHa].
Qed.

Lemma desc_take {A} k (l : list (A * f32)) : desc l -> desc (take k l).
Proof. intros Hd. rewrite <- (take_drop k l) in Hd. by apply StronglySorted_app_1_l in Hd. Qed.

(** Reading distinct positions of a list. *)
Lemma mapM_lookup {A} (l : list A) idxs : Forall (fun i => i < length l) idxs -> NoDup idxs ->
  exists out, mapM (fun i => l !! i) idxs = Some out /\ out ⊆+ l /\ length out = length idxs.
Proof.
  intros Hall Hnd. destruct l as [|d l0] eqn:El; [destruct Hall as [|i ? Hi]; [by exists []|cbn in Hi; lia]|].
  rewrite <- El in *. clear El l0. set (g i := default d (l !! i)).
  assert (mapM (fun i => l !! i) idxs = Some (g <$> idxs)) as ->.
  { clear Hnd. induction Hall as [|i idxs Hi _ IH]; [done|]. destruct (lookup_lt_is_Some_2 l i Hi) as [x Hx].
    cbn. rewrite Hx. cbn. rewrite IH. cbn. subst g. cbn. by rewrite Hx. }
  eexists. split; [done|]. rewrite length_fmap. split; [|done].
  assert (l = g <$> seq 0 (length l)) as Hl.
  { apply list_eq. intros i. rewrite list_lookup_fmap. destruct (decide (i < length l)) as [Hi|Hi].
    - rewrite lookup_seq_lt by done. cbn. subst g. destruct (lookup_lt_is_Some_2 l i Hi) as [x Hx]. cbn. by rewrite Hx.
    - rewrite (proj2 (lookup_ge_None l i)), lookup_seq_ge by lia. done. }
  rewrite Hl at 1. apply fmap_submseteq, NoDup_submseteq; [done|]. intros i Hi. rewrite Forall_forall in Hall.
  apply elem_of_seq. specialize (Hall i Hi). lia.
Qed.

Lemma mapM_take {A B} (f : A -> option B) k l out : mapM f l = Some out -> mapM f (take k l) = Some (take k out).
Proof.
  revert k out. induction l as [|x l IH]; intros k out Hm; [injection Hm as <-; by destruct k|].
  cbn in Hm. destruct (f x) eqn:Hx; [|done]. cbn in Hm. destruct (mapM f l) as [out'|] eqn:Hl; [|done]. cbn in Hm. injection Hm as <-.
  destruct k as [|k]; [done|]. cbn. rewrite Hx. cbn. by rewrite (IH k out' eq_refl).
Qed.

Lemma mapM_rel {A B} (f : A -> option B) (g : nat -> option B) (h : A -> nat) l : Forall (fun x => f x = g (h x)) l ->
  mapM f l = mapM g (h <$> l).
Proof. induction 1 as [|x l Hx _ IH]; [done|]. cbn. by rewrite Hx, IH. Qed.

Lemma mapM_snd (nodes : list HnswNode) (found : list (nat * f32)) out :
  mapM (fun r => nd ← nodes !! r.1; Some (hn_id nd, r.2)) found = Some out -> out.*2 = found.*2.
Proof.
  revert out. induction found as [|r found IH]; intros out Hm; [by injection Hm as <-|].
  cbn in Hm. destruct (nodes !! r.1); [|done]. cbn in Hm. destruct (mapM _ found) as [out'|]; [|done]. cbn in Hm. injection Hm as <-.
  cbn. f_equal. by apply IH.
Qed.

Lemma hnsw_knn_spec s items q k : store_ok s items ->
  exists res, hnsw_knn s q k = Some res /\ length res <= k /\ desc res /\ res ⊆+ scored items q /\
    (items <> [] -> 0 < k -> res <> []) /\
    (complete (h_nodes s) (length items) -> length items <= ef_search s `max` k ->
     exists p, p ≡ₚ scored items q /\ desc p /\ res = take k p).
Proof.
  intros [Hm Hit Hok Hbot Hent]. unfold hnsw_knn.
  assert (length items = length (h_nodes s)) as Hlen by (rewrite <- Hit; unfold items_of; by rewrite length_fmap).
  destruct (h_entry s) as [entry|].
  2: { rewrite Hent in *. destruct items; [|done]. exists []. split_and!; [done|cbn; lia|constructor|done|done|].
       intros _ _. exists []. split_and!; [done|constructor|by destruct k]. }
  destruct Hent as [Hlt Hent]. destruct (lookup_lt_is_Some_2 _ _ Hlt) as [nd Hnd]. rewrite Hnd. cbn [mbind option_bind].
  assert (forall l, closed (h_nodes s) (has (h_nodes s) l) l) as Hcl by (intros l; by eapply ok_closed).
  assert (exists ep, descend (h_nodes s) q 1 (length (hn_neighbors nd) - 1) entry = Some ep /\ has (h_nodes s) 0 ep) as (ep & -> & Hep).
  { destruct (length (hn_neighbors nd) - 1) as [|n] eqn:Hn; [exists entry; split; [done|by apply Hbot]|].
    destruct (descend_spec (h_nodes s) q 1 n entry Hcl) as (ep & -> & Hep); [apply (has_layers _ _ _ _ Hnd); lia|].
    exists ep. split; [done|]. eapply has_below; [|done]. lia. }
  cbn [mbind option_bind].
  destruct (search_layer_spec (h_nodes s) q _ 0 (Hcl 0) ep (ef_search s `max` k) Hep) as (found & -> & Hall & Hndf & Hsz & Hd & Hfull).
  cbn [mbind option_bind].
  assert (Forall (fun r => r.1 < length (scored items q)) found) as Hrange.
  { eapply Forall_impl; [exact Hall|]. intros r [Hr%has_lt _]. unfold scored. rewrite length_fmap. lia. }
  assert (Forall (fun r => (nd ← h_nodes s !! r.1; Some (hn_id nd, r.2)) = scored items q !! r.1) found) as Hread.
  { eapply Forall_impl; [exact Hall|]. intros r [_ Hs]. unfold scored, sim_to in *. rewrite list_lookup_fmap.
    assert (items !! r.1 = (fun nd => (hn_id nd, hn_vector nd)) <$> h_nodes s !! r.1) as -> by (rewrite <- Hit; unfold items_of; by rewrite list_lookup_fmap).
    destruct (h_nodes s !! r.1); [|done]. cbn in *. congruence. }
  destruct (mapM_lookup (scored items q) found.*1) as (p & Hp & Hsub & Hlp); [by apply Forall_fmap|done|].
  rewrite <- (mapM_rel _ (fun i => scored items q !! i) fst _ Hread) in Hp.
  rewrite (mapM_take _ k _ _ Hp). rewrite length_fmap in Hlp. apply mapM_snd in Hp as Hsnd.
  assert (desc p) as Hdp by by eapply desc_snd.
  exists (take k p). split_and!; [done|rewrite length_take; lia|by apply desc_take| | |].
  - etransitivity; [|exact Hsub]. rewrite <- (take_drop k p) at 2. by apply submseteq_inserts_r.
  - intros _ Hk. destruct p as [|x p]; [cbn in Hlp; lia|]. by destruct k; [lia|].
  - intros Hc Hef. exists p. split; [|done]. apply submseteq_length_Permutation; [done|]. unfold scored. rewrite length_fmap, Hlp.
    assert (length (seq 0 (length items)) <= length found.*1) as Hle; [|by rewrite length_seq, length_fmap in Hle].
    apply submseteq_length, NoDup_submseteq; [apply NoDup_seq|]. intros i Hi%elem_of_seq. destruct Hep as [nbs Hn].
    apply (Hfull ltac:(exists (seq 0 (length items)); split; [intros y Hy%has_lt; apply elem_of_seq; lia|by rewrite length_seq]) i nbs Hn).
    destruct (decide (i = ep)) as [->|Hne]; [by left|right]. pose proof (has_lt _ 0 ep ltac:(by eexists)).
    destruct (Hc ep i) as (nbs' & Hn' & Hin); [lia..|]. congruence.
Qed.

(** The [k] most similar items, of equals any. *)
Definition nearest (items : list item) (q : list f32) (k : nat) (res : list (string * f32)) : Prop :=
  exists p, p ≡ₚ scored items q /\ desc p /\ res = take k p.

Lemma flat_nearest items q k : nearest items q k (flat_knn items q k).
Proof. exists (sort_desc (scored items q)). split_and!; [apply sort_desc_perm|apply sort_desc_sorted|done]. Qed.

(** All nearest results have the same similarities. *)
Lemma nearest_unique items q k res res' : nearest items q k res -> nearest items q k res' ->
  f32_key <$> res.*2 = f32_key <$> res'.*2.
Proof.
  intros (p & Hp & Hd & ->) (p' & Hp' & Hd' & ->). rewrite !fmap_take. f_equal.
  assert (forall l : list (string * f32), desc l -> StronglySorted (fun a b => b <= a)%Z (f32_key <$> l.*2)) as Hs.
  { intros l. induction 1 as [|x l _ IH Hall]; [constructor|]. cbn. constructor; [done|]. by apply Forall_fmap, Forall_fmap. }
  assert (AntiSymm eq (fun a b : Z => (b <= a)%Z)) by (intros a b; lia).
  apply (StronglySorted_unique (fun a b => b <= a)%Z); [by apply Hs|by apply Hs|by rewrite Hp, Hp'].
Qed.

Section theorems.
Context `{Ln}.

Lemma build_new m efc efs items : exists s, hnsw_build (hnsw_new m efc efs) items = Some s /\ store_ok s items /\
  h_m s = m `max` 2 /\ ef_search s = efs `max` 1 /\
  (length items <= S (m `max` 2 * 2) -> length items <= S (efc `max` m) -> complete (h_nodes s) (length items)).
Proof.
  destruct (hnsw_build_spec (hnsw_new m efc efs) [] items (new_store_ok m efc efs)) as (s & Hb & Hs & Hm & _ & He & Hc).
  exists s. split_and!; [done..|]. intros H1 H2. apply Hc; [|done..]. intros i j Hi. cbn in Hi. lia.
Qed.

(** C32: the graph index never fails.  For every choice of its parameters,
    whatever numbers the vectors hold (infinities and NaN included) and however
    the platform computes logarithms, inserting any items and searching for any
    query end without an index out of bounds and without looping.  The nodes
    are the items in their order; a node's list of neighbours at a layer holds
    distinct other nodes of that layer, at most [m] of them, [2 m] at the
    bottom; a search returns at most [k] items, the most similar first, each
    with its own similarity and none twice, and finds something whenever there
    is something to find. *)
Theorem hnsw_total m efc efs items :
  exists s, hnsw_build (hnsw_new m efc efs) items = Some s /\ items_of (h_nodes s) = items /\ graph_ok (m `max` 2) (h_nodes s) /\
    forall q k, exists res, hnsw_knn s q k = Some res /\ length res <= k /\ desc res /\ res ⊆+ scored items q /\
      (items <> [] -> 0 < k -> res <> []).
Proof.
  destruct (build_new m efc efs items) as (s & Hb & Hs & Hm & _ & _). exists s. rewrite <- Hm.
  split_and!; [done|apply Hs|apply Hs|]. intros q k. destruct (hnsw_knn_spec s items q k Hs) as (res & ? & ? & ? & ? & ? & _).
  exists res. by split_and!.
Qed.

(** up to a size the approximate index is exact.  With no more items than a
    bottom layer node has places for, plus one, and no more than the lists of
    candidates hold, the graph is complete at the bottom, and the index returns
    the [k] nearest items: the similarities of the exact store, in the same
    order (33 items with the default parameters). *)
Theorem hnsw_exact m efc efs items q k :
  length items <= S (m `max` 2 * 2) -> length items <= S (efc `max` m) -> length items <= (efs `max` 1) `max` k ->
  exists s res, hnsw_build (hnsw_new m efc efs) items = Some s /\ hnsw_knn s q k = Some res /\ nearest items q k res /\
    f32_key <$> res.*2 = f32_key <$> (flat_knn items q k).*2.
Proof.
  intros H1 H2 H3. destruct (build_new m efc efs items) as (s & Hb & Hs & _ & He & Hc).
  destruct (hnsw_knn_spec s items q k Hs) as (res & Hk & _ & _ & _ & _ & Hex). exists s, res.
  assert (nearest items q k res) as Hn by (apply Hex; [by apply Hc|by rewrite He]).
  split_and!; [done..|]. eapply nearest_unique; [done|apply flat_nearest].
Qed.
End theorems.

Section demo.
(** A logarithm that puts some nodes on two layers. *)
#[local] Instance demo_ln : Ln := fun x => if f64_lt x (f64_div (f64_of 1) (f64_of 2)) then f64_opp (f64_of 1) else f64_of 1.

Definition demo_items : list item :=
  [("a", [f32_of 1; f32_of 0]); ("b", [f32_of 0; f32_of 1]); ("c", [f32_lit 3 5; f32_lit 4 5]); ("d", [f32_lit 4 5; f32_lit 3 5]);
   ("e", [f32_of 0; f32_of 1])]%string.

Example demo_layers : (fun s => (fun nd => length (hn_neighbors nd)) <$> h_nodes s) <$> hnsw_build (hnsw_new 2 4 1) demo_items = Some [2; 1; 1; 1; 2].
Proof. vm_compute. reflexivity. Qed.

Lemma hnsw_exact_witness : exists s res, hnsw_build (hnsw_new 2 4 1) demo_items = Some s /\
  hnsw_knn s [f32_of 1; f32_of 0] 5 = Some res /\ head res.*1 = Some "a"%string /\
  f32_key <$> res.*2 = f32_key <$> (flat_knn demo_items [f32_of 1; f32_of 0] 5).*2.
Proof.
  destruct (hnsw_exact 2 4 1 demo_items [f32_of 1; f32_of 0] 5) as (s & res & Hb & Hk & _ & Hf); [cbn; lia..|].
  exists s, res. split_and!; [done..| |done].
  assert (Some s = hnsw_build (hnsw_new 2 4 1) demo_items) as Hs by by symmetry.
  assert ((s ← hnsw_build (hnsw_new 2 4 1) demo_items; r ← hnsw_knn s [f32_of 1; f32_of 0] 5; head r.*1) = Some "a"%string) as He by (vm_compute; reflexivity).
  rewrite <- Hs in He. cbn [mbind option_bind] in He. by rewrite Hk in He.
Defined.
End demo.
