(* ===== verification/Embed.v ===== *)
(** * [sigil-correlate]: semantic triplets and embeddings

    [triplet.rs], [embed.rs] and the lookup embedder of [sidecar.rs].  A token
    is hashed by the standard library's [DefaultHasher], a parameter. *)

From stdpp Require Import gmap strings list.
From Stdlib Require Import SpecFloat.
From S2P Require Import Prelude Utf8 Core Float Graph.

(** ** Triplets *)

Record Triplet : Set := mkTriplet { tr_subject : option EntityRef; tr_action : string; tr_object : option EntityRef }.

(** The actor, or else the host, acts on the target; the verb is that of the
    provenance graph. *)
Definition extract_triplet (ev : Event) : Triplet :=
  mkTriplet (match actor ev with Some a => Some a | None => host ev end) (action_for ev) (target ev).

(** ** Text of an event *)

Definition class_token (c : OcsfClass) : string :=
  match c with
  | Authentication => "authentication"
  | ProcessActivity => "process_activity"
  | FileSystemActivity => "file_system_activity"
  | NetworkActivity => "network_activity"
  | HttpActivity => "http_activity"
  | ApiActivity => "api_activity"
  | DnsActivity => "dns_activity"
  | ModuleActivity => "module_activity"
  | ScheduledJobActivity => "scheduled_job_activity"
  | RegistryKeyActivity => "registry_key_activity"
  | OtherClass _ => "other"
  end.

Definition opt_text {A} (o : option A) (f : A -> string) : string := match o with Some a => f a | None => "" end.

Definition serialize_event (ev : Event) : string :=
  "class=" +:+ class_token (ocsf_class ev) +:+
  opt_text (actor ev) (fun a => " actor=" +:+ kind a +:+ ":" +:+ entity_id a) +:+
  opt_text (target ev) (fun t => " target=" +:+ kind t +:+ ":" +:+ entity_id t) +:+
  opt_text (host ev) (fun h => " host=" +:+ entity_id h) +:+
  opt_text (template_id ev) (fun t => " template=" +:+ show_u64 t) +:+
  (if is_empty_str (message ev) then "" else " msg=" +:+ message ev).

(** ** Embedders *)

(** Anything that turns text into a vector of a fixed length. *)
Class Embedder := { embed_dim : nat; embed : string -> list f32 }.
Definition embed_event `{Embedder} (ev : Event) : list f32 := embed (serialize_event ev).

Definition l2_normalize (v : list f32) : list f32 :=
  let norm := f32_sqrt (f32_sum ((fun x => f32_mul x x) <$> v)) in
  if f32_lt (S754_zero false) norm then (fun x => f32_div x norm) <$> v else v.

(** [hash_token]: the hash of a token, 64 bits. *)
Class TokenHash := hash_token : string -> Z.

Section hashing.
Context `{Casing} `{TokenHash}.

Definition add_token (dim : nat) (v : list f32) (token : string) : list f32 :=
  let h := wrap_u64 (hash_token (to_lowercase token)) in
  let sign := if (Z.land (Z.shiftr h 33) 1 =? 0)%Z then f32_of 1 else SFopp (f32_of 1) in
  alter (fun x => f32_add x sign) (Z.to_nat (h `mod` Z.of_nat dim)) v.

Definition hashing_embed (dim : nat) (text : string) : list f32 :=
  l2_normalize (foldl (add_token dim) (replicate dim (S754_zero false)) (split_whitespace text)).

Definition HashingEmbedder (dim : nat) : Embedder := {| embed_dim := dim `max` 1; embed := hashing_embed (dim `max` 1) |}.

(** [PrecomputedEmbedder]: vectors by text, the hashing embedder for the rest. *)
Definition PrecomputedEmbedder (dim : nat) (map : gmap string (list f32)) : Embedder :=
  {| embed_dim := dim; embed := fun text => match map !! text with Some v => v | None => hashing_embed (dim `max` 1) text end |}.

(** [precompute]: one request to the sidecar for all the events ([rpc], which
    may fail); the dimension is that of its first vector. *)
Definition precompute {E} (rpc : list string -> E + list (list f32)) (events : list Event) (default_dim : nat) : E + Embedder :=
  let texts := serialize_event <$> events in
  match rpc texts with
  | inl e => inl e
  | inr vectors =>
      let dim := default default_dim (length <$> head vectors) in
      inr (PrecomputedEmbedder dim (foldl (fun m tv => <[tv.1 := tv.2]> m) ∅ (zip texts vectors)))
  end.
End hashing.

(** ** Lemmas *)

Lemma l2_normalize_length v : length (l2_normalize v) = length v.
Proof. unfold l2_normalize. destruct (f32_lt _ _); [by rewrite length_fmap|done]. Qed.

Lemma hashing_embed_length `{Casing} `{TokenHash} dim text : length (hashing_embed dim text) = dim.
Proof.
  unfold hashing_embed. rewrite l2_normalize_length. transitivity (length (replicate dim (S754_zero false))); [|by rewrite length_replicate].
  generalize (replicate dim (S754_zero false)). induction (split_whitespace text) as [|t ts IH]; intros v; [done|].
  cbn [foldl]. rewrite IH. unfold add_token. by rewrite length_alter.
Qed.

(** An event the sidecar was asked about is embedded as the sidecar said, when
    it gave one vector for each event. *)
Lemma precompute_spec `{Casing} `{TokenHash} {E} (rpc : list string -> E + list (list f32)) events d vectors i ev :
  rpc (serialize_event <$> events) = inr vectors -> length vectors = length events -> NoDup (serialize_event <$> events) ->
  events !! i = Some ev ->
  exists emb, precompute rpc events d = inr emb /\ Some (embed_event (H := emb) ev) = vectors !! i.
Proof.
  intros Hrpc Hlen Hnd Hev. unfold precompute. rewrite Hrpc. eexists. split; [done|].
  destruct (lookup_lt_is_Some_2 vectors i) as [v Hv]; [rewrite Hlen; by eapply lookup_lt_Some|]. rewrite Hv. f_equal.
  unfold embed_event. cbn [embed PrecomputedEmbedder].
  assert (forall (l : list (string * list f32)) (m : gmap string (list f32)), NoDup l.*1 -> forall k w, (k, w) ∈ l ->
    foldl (fun m tv => <[tv.1 := tv.2]> m) m l !! k = Some w) as Hfold.
  { clear. induction l as [|[k' w'] l IH]; intros m Hl k w Hin; [by apply not_elem_of_nil in Hin|]. cbn in *.
    apply NoDup_cons in Hl as [Hk Hl]. apply elem_of_cons in Hin as [[= -> ->]|Hin]; [|by apply IH].
    clear IH Hl. revert m Hk. induction l as [|[k2 w2] l IHl]; intros m Hk; cbn in *; [by rewrite lookup_insert_eq|].
    rewrite not_elem_of_cons in Hk. destruct Hk as [Hne Hk]. rewrite insert_insert_ne by done. by apply IHl. }
  assert (serialize_event ev = (serialize_event ev, v).1) as Heq by done.
  erewrite Hfold; [done| |].
  - rewrite fst_zip by (rewrite length_fmap; lia). done.
  - apply list_elem_of_lookup. exists i. apply lookup_zip_Some. split; [|done]. by rewrite list_lookup_fmap, Hev.
Qed.
