(* ===== verification/Causal.v ===== *)
(** * [sigil-correlate]: causal graphs and the search for a kill chain

    [attack.rs] (ATT&CK tactics), [causal.rs] (the graph of a campaign's
    events) and [pathselect.rs] (beam search).  An index out of bounds is
    [None]; the beam search carries fuel, one more than the number of nodes,
    which the theorems show to suffice.  The text of a number with a fixed
    number of decimals is a parameter. *)

From stdpp Require Import gmap strings list sorting.
From Stdlib Require Import SpecFloat.
From S2P Require Import Prelude Utf8 Containers Core Float Graph Embed.

(** ** ATT&CK tactics *)

Definition tactic_for_class (c : OcsfClass) : string :=
  match c with
  | Authentication => "credential-access"
  | ProcessActivity => "execution"
  | NetworkActivity => "command-and-control"
  | FileSystemActivity => "collection"
  | HttpActivity => "command-and-control"
  | ApiActivity => "execution"
  | DnsActivity => "command-and-control"
  | ModuleActivity => "defense-evasion"
  | ScheduledJobActivity => "persistence"
  | RegistryKeyActivity => "persistence"
  | OtherClass _ => "unknown"
  end.

Definition technique_tactic (technique : string) : option string :=
  let t := to_ascii_uppercase technique in
  let among := existsb (fun p => starts_with p t) in
  if among ["T1110"; "T1003"; "T1552"] then Some "credential-access"
  else if among ["T1548"; "T1068"; "T1078"] then Some "privilege-escalation"
  else if among ["T1059"; "T1203"] then Some "execution"
  else if among ["T1071"; "T1572"; "T1105"] then Some "command-and-control"
  else if among ["T1041"; "T1048"] then Some "exfiltration"
  else if among ["T1021"; "T1210"] then Some "lateral-movement"
  else None.

Definition tactic_for (technique : option string) (c : OcsfClass) : string :=
  match technique with
  | Some t => default (tactic_for_class c) (technique_tactic t)
  | None => tactic_for_class c
  end.

(** ** The graph *)

Record CausalNode : Type := mkCNode {
  cn_event_id : string; cn_label : string; cn_ts : Timestamp;
  cn_technique : option string; cn_tactic : option string; cn_anomaly : f32
}.
Record CausalEdge : Type := mkCEdge { ce_from : nat; ce_to : nat; ce_score : f32 }.
Record CausalGraph : Type := mkCGraph { cg_nodes : list CausalNode; cg_edges : list CausalEdge }.
Record AttackChain : Type := mkChain { ch_path : list nat; ch_score : f32 }.
Definition outgoing (g : CausalGraph) (n : nat) : list CausalEdge := filter (fun e => ce_from e = n) (cg_edges g).

(** [beam_width] of the code's [CausalConfig] is read by nobody. *)
Record CausalConfig : Set := mkCausalConfig { cc_window_micros : Z; cc_beam_width : nat }.
Definition CausalConfig_default : CausalConfig := mkCausalConfig (30 * 60 * 1000000) 4.

(** [format!("{:.n$}")] of an [f64]. *)
Class FloatFixed := f64_fixed : nat -> f64 -> string.

Definition label_for (ev : Event) : string :=
  class_token (ocsf_class ev) +:+ opt_text (actor ev) (fun a => " " +:+ kind a +:+ ":" +:+ entity_id a).

Definition anomaly_words : list string :=
  ["shadow"; "reverse shell"; "nc -e"; "/bin/sh"; "mimikatz"; "failed password"; "exploit"].

Definition severity_anomaly (s : Severity) : f32 :=
  match s with
  | Critical | Fatal => f32_lit 9 10
  | High => f32_lit 75 100
  | Medium => f32_lit 5 10
  | Low => f32_lit 3 10
  | _ => f32_lit 2 10
  end.

Definition anomaly_score `{Casing} (ev : Event) : f32 :=
  let msg := to_lowercase (message ev) in
  f32_min (foldl (fun s w => if contains w msg then f32_add s (f32_lit 1 10) else s) (severity_anomaly (severity ev)) anomaly_words)
    (f32_of 1).

Definition shared_entities (a b : Event) : list string :=
  filter (fun k => k ∈ entity_key <$> chain b) (entity_key <$> chain a).

(** [x as f32] of an [i64], divided by a million. *)
Definition temporal_score (dt_micros : Z) : f32 :=
  let secs := f32_div (f32_of_Z (Z.max dt_micros 0)) (f32_of_Z 1000000) in
  f32_div (f32_of 1) (f32_add (f32_of 1) (f32_div secs (f32_of 60))).

Definition human_dt `{FloatFixed} (dt_micros : Z) : string :=
  let secs := f64_div (f64_of (Z.max dt_micros 0)) (f64_of 1000000) in
  if f64_lt secs (f64_of 90) then f64_fixed 0 secs +:+ "s" else f64_fixed 1 (f64_div secs (f64_of 60)) +:+ "m".

Record CausalBuild : Type := mkBuild { cb_graph : CausalGraph; cb_reasons : gmap (nat * nat) string }.

Section build.
Context `{Casing} `{FloatFixed} (techniques : gmap string string) (cfg : CausalConfig).

Definition node_of (ev : Event) : CausalNode :=
  let technique := techniques !! ev_id ev in
  mkCNode (ev_id ev) (label_for ev) (ev_ts ev) technique (Some (tactic_for technique (ocsf_class ev))) (anomaly_score ev).

(** [b.ts - a.ts], which wraps. *)
Definition delta (a b : Event) : Z := wrap_i64 (ev_ts b - ev_ts a).

Definition edge_score (a b : Event) : f32 :=
  f32_min (f32_add (f32_add (f32_lit 45 100) (f32_mul (f32_lit 25 100) (temporal_score (delta a b)))) (f32_mul (f32_lit 30 100) (anomaly_score b)))
    (f32_of 1).

(** The edge from the [i]-th to the [j]-th event, with its reason. *)
Definition edge_between (i : nat) (a : Event) (j : nat) (b : Event) : option (CausalEdge * string) :=
  if (cc_window_micros cfg <? delta a b)%Z then None
  else
    let shared := shared_entities a b in
    if is_nil shared then None
    else Some (mkCEdge i j (edge_score a b), "shares " +:+ join ", " shared +:+ "; Δt=" +:+ human_dt (delta a b)).

(** The double loop: [rest] are the events from position [i] on. *)
Fixpoint edges_from (i : nat) (rest : list Event) : list (CausalEdge * string) :=
  match rest with
  | [] => []
  | a :: rest => omap (fun jb => edge_between i a jb.1 jb.2) (imap (fun k b => (S i + k, b)) rest) ++ edges_from (S i) rest
  end.

Definition build_causal_graph (events : list Event) : CausalBuild :=
  let ordered := sort_by_key ev_ts events in
  let edges := edges_from 0 ordered in
  mkBuild (mkCGraph (node_of <$> ordered) edges.*1)
    (foldl (fun m er => <[(ce_from er.1, ce_to er.1) := er.2]> m) ∅ edges).
End build.

(** ** Beam search *)

Abbreviation beam_entry := (list nat * f32)%type.

Section beam.
Context (g : CausalGraph).

Definition node_bonus (n : nat) : option f32 := nd ← cg_nodes g !! n; Some (f32_mul (cn_anomaly nd) (f32_lit 1 10)).

(** The paths one edge longer than one of the beam. *)
Fixpoint extend_edges (path : list nat) (score : f32) (edges : list CausalEdge) : option (list beam_entry) :=
  match edges with
  | [] => Some []
  | e :: edges =>
      if bool_decide (ce_to e ∈ path) then extend_edges path score edges
      else
        bonus ← node_bonus (ce_to e);
        rest ← extend_edges path score edges;
        Some ((path ++ [ce_to e], f32_add (f32_add score (ce_score e)) bonus) :: rest)
  end.

Definition extend_entry (entry : beam_entry) : option (list beam_entry) :=
  last_ ← last entry.1; extend_edges entry.1 entry.2 (outgoing g last_).

Definition extend_beam (beam : list beam_entry) : option (list beam_entry) := ls ← mapM extend_entry beam; Some (concat ls).

Definition better (best c : beam_entry) : beam_entry := if f32_lt best.2 c.2 then c else best.

Fixpoint beam_loop (fuel width : nat) (beam : list beam_entry) (best : beam_entry) : option beam_entry :=
  match fuel with
  | O => None
  | S fuel =>
      candidates ← extend_beam beam;
      if is_nil candidates then Some best
      else beam_loop fuel width (take width (sort_desc candidates)) (foldl better best candidates)
  end.

Definition start_beam : option (list beam_entry) :=
  mapM (fun i => b ← node_bonus i; Some ([i], b)) (seq 0 (length (cg_nodes g))).

(** The last of the greatest single nodes. *)
Definition start_best (beam : list beam_entry) : beam_entry :=
  match max_by (imap (fun i e => (i, e.2)) beam) with
  | Some (i, _) => default ([0], S754_zero false) (beam !! i)
  | None => ([0], S754_zero false)
  end.

Definition beam_search (width : nat) : option AttackChain :=
  if is_nil (cg_nodes g) then Some (mkChain [] (S754_zero false))
  else
    beam ← start_beam;
    best ← beam_loop (S (length (cg_nodes g))) width beam (start_best beam);
    Some (mkChain best.1 best.2).

(** [BeamSearchSelector::new(w)]. *)
Definition beam_select (width : nat) : option AttackChain := beam_search (width `max` 1).
End beam.

(** ** Walks *)

Record graph_wf (g : CausalGraph) : Prop := {
  gw_range : Forall (fun e => ce_from e < length (cg_nodes g) /\ ce_to e < length (cg_nodes g)) (cg_edges g);
  gw_anomaly : Forall (fun nd => valid (cn_anomaly nd)) (cg_nodes g)
}.

(** One more edge, to a node that is not on the path. *)
Inductive step (g : CausalGraph) : beam_entry -> beam_entry -> Prop :=
  | step_intro p s e b : last p = Some (ce_from e) -> e ∈ cg_edges g -> ce_to e ∉ p -> node_bonus g (ce_to e) = Some b ->
      step g (p, s) (p ++ [ce_to e], f32_add (f32_add s (ce_score e)) b).

(** The paths without repetition and their scores. *)
Inductive walk (g : CausalGraph) : beam_entry -> Prop :=
  | walk_one n b : node_bonus g n = Some b -> walk g ([n], b)
  | walk_step x y : walk g x -> step g x y -> walk g y.

Section beam_spec.
Context (g : CausalGraph) (Hwf : graph_wf g).
#[local] Abbreviation size := (length (cg_nodes g)).

Lemma bonus_Some n : n < size -> exists b, node_bonus g n = Some b.
Proof. intros [nd Hnd]%lookup_lt_is_Some_2. unfold node_bonus. rewrite Hnd. by eexists. Qed.
Lemma bonus_lt n b : node_bonus g n = Some b -> n < size.
Proof. unfold node_bonus. destruct (cg_nodes g !! n) eqn:Hn; [|done]. intros _. by eapply lookup_lt_Some. Qed.

Lemma walk_path x : walk g x -> NoDup x.1 /\ Forall (fun n => n < size) x.1 /\ x.1 <> [].
Proof.
  induction 1 as [n b Hb|x y _ IH Hs].
  - split_and!; [apply NoDup_singleton|apply Forall_singleton; by eapply bonus_lt|done].
  - destruct Hs as [p s e b _ _ Hnew Hb]. cbn in *. destruct IH as (Hnd & Hall & _). split_and!.
    + apply NoDup_app. split_and!; [done|set_solver|apply NoDup_singleton].
    + apply Forall_app. split; [done|]. apply Forall_singleton. by eapply bonus_lt.
    + by destruct p.
Qed.

Lemma walk_length x : walk g x -> length x.1 <= size.
Proof.
  intros (Hnd & Hall & _)%walk_path. transitivity (length (seq 0 size)); [|by rewrite length_seq].
  apply submseteq_length, NoDup_submseteq; [done|].
  intros n Hn. rewrite Forall_forall in Hall. apply elem_of_seq. specialize (Hall n Hn). lia.
Qed.

Lemma extend_edges_spec p s edges : Forall (fun e => ce_to e < size) edges ->
  exists l, extend_edges g p s edges = Some l /\ forall y, y ∈ l <->
    exists e b, e ∈ edges /\ ~ ce_to e ∈ p /\ node_bonus g (ce_to e) = Some b /\ y = (p ++ [ce_to e], f32_add (f32_add s (ce_score e)) b).
Proof.
  induction 1 as [|e edges He _ (l & Hl & Hin)]; cbn [extend_edges].
  { exists []. split; [done|]. intros y. split; [by intros ?%not_elem_of_nil|]. intros (e & b & ?%not_elem_of_nil & _). done. }
  case_bool_decide as Hp.
  - exists l. split; [done|]. intros y. rewrite Hin. clear -Hp. set_solver.
  - destruct (bonus_Some _ He) as [b Hb]. rewrite Hb, Hl. cbn. eexists. split; [done|]. intros y.
    rewrite elem_of_cons, Hin. split.
    + intros [->|(e' & b' & ? & ?)]; [exists e, b; split_and!; [by left|done..]|exists e', b'; split; [by right|done]].
    + intros (e' & b' & [->|?]%elem_of_cons & ? & Hb' & ->); [left; congruence|right; by exists e', b'].
Qed.

Lemma extend_entry_spec x : walk g x -> exists l, extend_entry g x = Some l /\ forall y, y ∈ l <-> step g x y.
Proof.
  intros Hw. destruct x as [p s]. destruct (walk_path _ Hw) as (_ & _ & Hne). cbn in Hne. unfold extend_entry. cbn [fst snd].
  destruct (last p) as [n|] eqn:Hlast; [|by apply last_None in Hlast]. cbn [mbind option_bind].
  destruct (extend_edges_spec p s (outgoing g n)) as (l & -> & Hin).
  { apply Forall_forall. intros e [_ He]%list_elem_of_filter. pose proof (gw_range g Hwf) as Hr. rewrite Forall_forall in Hr. by apply Hr. }
  exists l. split; [done|]. intros y. rewrite Hin. unfold outgoing. split.
  - intros (e & b & [<- He]%list_elem_of_filter & Hn & Hb & ->). by constructor.
  - intros Hs. inversion Hs as [? ? e b Hf He Hn Hb]; subst. exists e, b. split_and!; [|done..].
    apply list_elem_of_filter. split; [congruence|done].
Qed.

(** The entries one step on, as a function. *)
Definition next (x : beam_entry) : list beam_entry := default [] (extend_entry g x).

Lemma extend_beam_eq beam : Forall (walk g) beam -> extend_beam g beam = Some (beam ≫= next).
Proof.
  intros Hall. unfold extend_beam. assert (mapM (extend_entry g) beam = Some (next <$> beam)) as ->.
  { induction Hall as [|x beam Hx _ IH]; [done|]. cbn. unfold next at 1. destruct (extend_entry_spec x Hx) as (l & -> & _). cbn.
    by rewrite IH. }
  cbn. f_equal. induction beam as [|x beam IH]; [done|]. cbn. f_equal. apply IH. by apply Forall_cons in Hall as [_ ?].
Qed.

Lemma elem_of_next x y : walk g x -> y ∈ next x <-> step g x y.
Proof. intros Hx. unfold next. by destruct (extend_entry_spec x Hx) as (l & -> & ?). Qed.

Lemma next_walks k beam : Forall (fun x => walk g x /\ length x.1 = k) beam ->
  Forall (fun x => walk g x /\ length x.1 = S k) (beam ≫= next).
Proof.
  intros Hall. apply Forall_forall. intros y (x & Hy & Hx)%list_elem_of_bind. rewrite Forall_forall in Hall.
  destruct (Hall x Hx) as [Hw Hl]. apply elem_of_next in Hy; [|done]. split; [by econstructor|].
  destruct Hy. cbn in *. rewrite length_app, Hl. cbn. lia.
Qed.

(** *** The best entry *)

(** Not below in score. *)
Definition not_below (x y : beam_entry) : Prop := f32_lt x.2 y.2 = false.

Lemma better_fold best l : let r := foldl better best l in
  (r = best \/ r ∈ l) /\ (forall y, not_below best y -> not_below r y) /\ Forall (not_below r) l.
Proof.
  revert best. induction l as [|c l IH]; intros best; cbn [foldl].
  { split_and!; [by left|done|constructor]. }
  destruct (IH (better best c)) as (Hin & Hkeep & Hall). cbv zeta. unfold better in *.
  destruct (f32_lt best.2 c.2) eqn:Hlt; split_and!.
  - destruct Hin as [->|]; right; [by left|by right].
  - intros y Hy. apply Hkeep. unfold not_below in *. destruct (f32_lt c.2 y.2) eqn:Hcy; [|done].
    rewrite (f32_lt_trans _ _ _ Hlt Hcy) in Hy. done.
  - constructor; [|done]. apply Hkeep, f32_lt_irrefl.
  - destruct Hin as [->|]; [by left|right; by right].
  - done.
  - constructor; [by apply Hkeep|done].
Qed.

Lemma beam_loop_spec fuel width k beam best : Forall (fun x => walk g x /\ length x.1 = k) beam -> walk g best ->
  size - k < fuel ->
  exists best', beam_loop g fuel width beam best = Some best' /\ walk g best' /\ (forall y, not_below best y -> not_below best' y).
Proof.
  revert k beam best. induction fuel as [|fuel IH]; intros k beam best Hall Hbest Hf; [lia|]. cbn [beam_loop].
  assert (Forall (walk g) beam) as Hw by (eapply Forall_impl; [exact Hall|]; naive_solver).
  rewrite (extend_beam_eq beam Hw). cbn [mbind option_bind]. pose proof (next_walks k beam Hall) as Hnext.
  destruct (better_fold best (beam ≫= next)) as (Hin & Hkeep & _).
  assert (Forall (fun x => walk g x /\ length x.1 = S k) (take width (sort_desc (beam ≫= next)))) as Htake.
  { apply Forall_take. by rewrite sort_desc_perm. }
  remember (beam ≫= next) as cands eqn:Hcs. destruct cands as [|c0 cs]; [exists best; by split_and!|]. cbn [is_nil].
  assert (S k <= size) as Hk by (apply Forall_cons in Hnext as [[Hc <-] _]; by apply walk_length).
  rewrite Hcs in *. clear Hcs.
  destruct (IH (S k) _ (foldl better best (beam ≫= next)) Htake) as (best' & -> & Hb & Hk'); [|lia|].
  { destruct Hin as [->|Hin]; [done|]. rewrite Forall_forall in Hnext. by apply Hnext. }
  exists best'. split_and!; [done..|]. intros y Hy. by apply Hk', Hkeep.
Qed.

(** All the walks of [k + 1] nodes. *)
Fixpoint level (k : nat) : list beam_entry :=
  match k with
  | O => default [] (start_beam g)
  | S k => level k ≫= next
  end.

Lemma start_beam_spec : exists l, start_beam g = Some l /\ length l = size /\
  forall i x, l !! i = Some x <-> i < size /\ x.1 = [i] /\ node_bonus g i = Some x.2.
Proof.
  unfold start_beam. assert (forall n m, n + m = size -> exists l,
    mapM (fun i => b ← node_bonus g i; Some ([i], b)) (seq n m) = Some l /\ length l = m /\
    forall i x, l !! i = Some x <-> n + i < size /\ x.1 = [n + i] /\ node_bonus g (n + i) = Some x.2) as Hgen; [|by apply (Hgen 0)].
  intros n m. revert n. induction m as [|m IH]; intros n Hnm.
  { exists []. split_and!; [done..|]. intros i x. rewrite lookup_nil. split; [done|]. lia. }
  destruct (IH (S n)) as (l & Hl & Hlen & Hlook); [lia|]. destruct (bonus_Some n) as [b Hb]; [lia|].
  exists (([n], b) :: l). cbn. rewrite Hb. cbn. cbn in Hl. rewrite Hl. cbn. split_and!; [done|by rewrite Hlen|].
  intros [|i] [p s]; cbn.
  - rewrite Nat.add_0_r, Hb. split; [intros [= <- <-]; split_and!; [lia|done..]|]. intros (_ & -> & [= ->]). done.
  - rewrite Hlook. replace (S n + i) with (n + S i) by lia. done.
Qed.

Lemma start_level x : x ∈ level 0 <-> walk g x /\ length x.1 = 1.
Proof.
  cbn [level]. destruct start_beam_spec as (l & -> & Hlen & Hlook). cbn. rewrite list_elem_of_lookup. split.
  - intros (i & (Hi & Hp & Hb)%Hlook). destruct x as [p s]. cbn in *. subst p. split; [by constructor|done].
  - intros [Hw Hl]. destruct Hw as [n b Hb|x y Hx Hs].
    + exists n. apply Hlook. split_and!; [by eapply bonus_lt|done..].
    + destruct (walk_path _ Hx) as (_ & _ & Hne). destruct Hs as [p s e b Hlast _ _ _]. cbn in *. rewrite length_app in Hl. destruct p; cbn in *; [done|lia].
Qed.

Lemma level_spec k x : x ∈ level k <-> walk g x /\ length x.1 = S k.
Proof.
  revert x. induction k as [|k IH]; intros x; [apply start_level|]. cbn [level]. rewrite list_elem_of_bind. split.
  - intros (y & Hx & [Hy Hl]%IH). apply elem_of_next in Hx; [|done]. split; [by econstructor|].
    destruct Hx. cbn in *. rewrite length_app. cbn. lia.
  - intros [Hw Hl]. destruct Hw as [n b Hb|y x Hy Hs]; [done|]. exists y. split; [by apply elem_of_next|]. apply IH. split; [done|].
    destruct Hs. cbn in *. rewrite length_app in Hl. cbn in Hl. lia.
Qed.

Lemma wide_loop fuel width k beam best : beam ≡ₚ level k -> (forall j, length (level (S j)) <= width) -> walk g best ->
  size - S k < fuel -> exists best', beam_loop g fuel width beam best = Some best' /\
    (forall y, not_below best y -> not_below best' y) /\ forall j y, k < j -> y ∈ level j -> not_below best' y.
Proof.
  revert k beam best. induction fuel as [|fuel IH]; intros k beam best Hp Hwide Hbest Hf; [lia|]. cbn [beam_loop].
  assert (Forall (fun x => walk g x /\ length x.1 = S k) beam) as Hall by (rewrite Hp; apply Forall_forall; intros x; apply level_spec).
  assert (Forall (walk g) beam) as Hw by (eapply Forall_impl; [exact Hall|]; naive_solver).
  rewrite (extend_beam_eq beam Hw). cbn [mbind option_bind]. pose proof (next_walks _ beam Hall) as Hnext.
  assert (beam ≫= next ≡ₚ level (S k)) as Hp' by (cbn [level]; by rewrite Hp).
  destruct (better_fold best (beam ≫= next)) as (Hin & Hkeep & Hcand). 
  remember (beam ≫= next) as cands eqn:Hcs. destruct cands as [|c0 cs]; cbn [is_nil].
  { exists best. split_and!; [done..|]. intros j y Hj Hy. exfalso. apply Permutation_nil_l in Hp'.
    clear -Hj Hy Hp'. revert y Hy. induction Hj as [|j Hj IH]; intros y Hy; [rewrite <- Hp' in Hy; by apply not_elem_of_nil in Hy|].
    cbn [level] in Hy. apply list_elem_of_bind in Hy as (x & _ & Hx). by eapply IH. }
  assert (S (S k) <= size) as Hk by (apply Forall_cons in Hnext as [[Hc <-] _]; by apply walk_length).
  remember (c0 :: cs) as cands eqn:Hc. clear Hc c0 cs.
  destruct (IH (S k) (take width (sort_desc cands)) (foldl better best cands)) as (best' & -> & Hk' & Hlev); [|done| |lia|].
  { rewrite take_ge by (rewrite sort_desc_perm, Hp'; apply Hwide). by rewrite sort_desc_perm. }
  { destruct Hin as [->|Hin]; [done|]. rewrite Forall_forall in Hnext. by apply Hnext. }
  exists best'. split_and!; [done|intros y Hy; by apply Hk', Hkeep|]. intros j y Hj Hy.
  destruct (decide (j = S k)) as [->|Hne]; [|apply (Hlev j); [lia|done]].
  apply Hk'. rewrite Forall_forall in Hcand. apply Hcand. by rewrite Hp'.
Qed.

(** The start is a single node that none is above. *)
Lemma start_best_spec l : start_beam g = Some l -> l <> [] ->
  walk g (start_best l) /\ Forall (not_below (start_best l)) l.
Proof.
  intros Hl Hne. destruct start_beam_spec as (l' & Hl' & Hlen & Hlook). rewrite Hl in Hl'. injection Hl' as <-.
  unfold start_best. pose proof (max_by_spec (imap (fun i e => (i, e.2)) l)) as Hm.
  destruct (max_by _) as [[i s]|]; [|by destruct l].
  assert (forall j y, l !! j = Some y -> (f32_key y.2 <= f32_key s)%Z) as Hmax.
  { intros j y Hj. assert ((j, y.2) ∈ imap (fun i e => (i, e.2)) l) as Hin by (apply elem_of_lookup_imap; by exists j, y).
    destruct Hm as (pre & post & Heq & Hpre & Hpost). rewrite Heq in Hin. rewrite Forall_forall in Hpre, Hpost.
    unfold total_cmp in *. apply elem_of_app in Hin as [Hin|[Hin|Hin]%elem_of_cons].
    - specialize (Hpre _ Hin). cbn in Hpre. by apply Z.compare_le_iff in Hpre.
    - injection Hin as -> ->. lia.
    - specialize (Hpost _ Hin). cbn in Hpost. apply Z.compare_gt_iff in Hpost. lia. }
  assert ((i, s) ∈ imap (fun i e => (i, e.2)) l) as Hin by (destruct Hm as (pre & post & -> & _); set_solver).
  apply elem_of_lookup_imap in Hin as (j & x & [= -> ->] & Hx). rewrite Hx. cbn [default].
  assert (forall j y, l !! j = Some y -> valid y.2) as Hvalid.
  { intros j' y (_ & _ & Hb)%Hlook. unfold node_bonus in Hb. destruct (cg_nodes g !! j') as [nd|] eqn:Hnd; [|done].
    cbn in Hb. injection Hb as <-. apply f32_mul_valid; [|apply f32_lit_valid]. exact (Forall_lookup_1 _ _ _ _ (gw_anomaly g Hwf) Hnd). }
  split.
  - apply Hlook in Hx as (_ & Hp & Hb). destruct x as [p b]. cbn in *. subst p. by constructor.
  - apply Forall_forall. intros y Hy. apply list_elem_of_lookup in Hy as [j' Hy]. apply f32_key_ge; [by eapply Hvalid..|by eapply Hmax].
Qed.

(** The search ends with a walk that no single node is above, and that no walk
    is above when the beam is never cut. *)
Lemma beam_search_spec width : cg_nodes g <> [] ->
  exists best, beam_search g width = Some (mkChain best.1 best.2) /\ walk g best /\
    (forall n b, node_bonus g n = Some b -> f32_lt best.2 b = false) /\
    ((forall j, length (level (S j)) <= width) -> forall y, walk g y -> not_below best y).
Proof.
  intros Hne. unfold beam_search. destruct (is_nil (cg_nodes g)) eqn:Hnil; [by destruct (cg_nodes g)|].
  destruct start_beam_spec as (l & Hl & Hlen & Hlook). rewrite Hl. cbn [mbind option_bind].
  assert (l <> []) as Hlne by (intros ->; by destruct (cg_nodes g)). destruct (start_best_spec l Hl Hlne) as [Hw0 Hmax].
  assert (level 0 = l) as Hlev by (cbn; by rewrite Hl).
  assert (Forall (fun x => walk g x /\ length x.1 = 1) l) as Hall by (apply Forall_forall; intros x; rewrite <- Hlev; apply start_level).
  destruct (beam_loop_spec (S size) width 1 l (start_best l) Hall Hw0) as (best & Hb & Hw & Hkeep); [lia|].
  exists best. rewrite Hb. cbn [mbind option_bind]. split_and!; [done..| |].
  - intros n b Hn. apply (Hkeep ([n], b)). rewrite Forall_forall in Hmax. apply Hmax. rewrite <- Hlev. apply start_level.
    split; [by constructor|done].
  - intros Hwide y Hy. destruct (wide_loop (S size) width 0 l (start_best l)) as (best' & Hb' & Hk & Hlevs); [by rewrite Hlev|done|done|lia|].
    rewrite Hb in Hb'. injection Hb' as <-. destruct (walk_path _ Hy) as (_ & _ & Hyne).
    destruct (length y.1) as [|[|j]] eqn:Hj; [by destruct y.1| |].
    + apply Hkeep. rewrite Forall_forall in Hmax. apply Hmax. rewrite <- Hlev. by apply start_level.
    + apply (Hlevs (S j)); [lia|]. by apply level_spec.
Qed.
End beam_spec.

(** ** The graph of a batch *)

Lemma shared_entities_nil a b : is_nil (shared_entities a b) = false <-> exists k, k ∈ entity_key <$> chain a /\ k ∈ entity_key <$> chain b.
Proof.
  unfold shared_entities. split.
  - intros Hn. destruct (filter _ _) as [|k l] eqn:Hf; [done|]. exists k.
    assert (k ∈ filter (fun k => k ∈ entity_key <$> chain b) (entity_key <$> chain a)) as Hk by (rewrite Hf; by left).
    apply list_elem_of_filter in Hk. naive_solver.
  - intros (k & Ha & Hb). assert (k ∈ filter (fun k => k ∈ entity_key <$> chain b) (entity_key <$> chain a)) as Hk by by apply list_elem_of_filter.
    destruct (filter _ _); [by apply not_elem_of_nil in Hk|done].
Qed.

Lemma f32_min_valid x y : valid x -> valid y -> valid (f32_min x y).
Proof. intros Hx Hy. unfold f32_min. repeat case_match; done. Qed.

Lemma f32_min_le x y : f32_nan y = false -> f32_lt y (f32_min x y) = false.
Proof.
  intros Hy. unfold f32_min. destruct (f32_nan x); [apply f32_lt_irrefl|]. rewrite Hy.
  destruct (f32_lt y x) eqn:Hlt; [apply f32_lt_irrefl|done].
Qed.

Lemma anomaly_valid `{Casing} ev : valid (anomaly_score ev).
Proof.
  unfold anomaly_score. apply f32_min_valid; [|apply f32_of_valid].
  assert (valid (severity_anomaly (severity ev))) as Hv by (destruct (severity ev); apply f32_lit_valid).
  revert Hv. generalize (severity_anomaly (severity ev)). induction anomaly_words as [|w ws IH]; intros s Hs; [done|].
  cbn [foldl]. apply IH. destruct (contains _ _); [|done]. apply f32_add_valid; [done|apply f32_lit_valid].
Qed.

Section build_spec.
Context `{Casing} `{FloatFixed} (techniques : gmap string string) (cfg : CausalConfig).

Lemma edge_between_spec i a j b e r : edge_between cfg i a j b = Some (e, r) <->
  (delta a b <= cc_window_micros cfg)%Z /\ (exists k, k ∈ entity_key <$> chain a /\ k ∈ entity_key <$> chain b) /\
  e = mkCEdge i j (edge_score a b) /\ r = "shares " +:+ join ", " (shared_entities a b) +:+ "; Δt=" +:+ human_dt (delta a b).
Proof.
  unfold edge_between. rewrite <- shared_entities_nil. destruct (cc_window_micros cfg <? delta a b)%Z eqn:Hw; [split; [done|lia]|].
  cbv zeta. destruct (is_nil (shared_entities a b)); [split; [done|naive_solver]|]. split.
  - intros [= <- <-]. split_and!; [lia|done..].
  - intros (_ & _ & -> & ->). done.
Qed.

Lemma elem_of_edges i rest er : er ∈ edges_from cfg i rest <->
  exists x y a b, x < y /\ rest !! x = Some a /\ rest !! y = Some b /\ edge_between cfg (i + x) a (i + y) b = Some er.
Proof.
  revert i. induction rest as [|a rest IH]; intros i; cbn [edges_from].
  { split; [by intros ?%not_elem_of_nil|]. intros (x & y & a & b & _ & Ha & _). by rewrite lookup_nil in Ha. }
  rewrite elem_of_app, list_elem_of_omap, IH. split.
  - intros [([j b] & Hj & He)|(x & y & a' & b & Hlt & Ha & Hb & He)].
    + apply elem_of_lookup_imap in Hj as (k & b' & [= -> ->] & Hb). exists 0, (S k), a, b'. cbn in *.
      split_and!; [lia|done..|]. by rewrite Nat.add_0_r, Nat.add_succ_r.
    + exists (S x), (S y), a', b. split_and!; [lia|done..|]. by rewrite !Nat.add_succ_r.
  - intros ([|x] & [|y] & a' & b & Hlt & Ha & Hb & He); try lia; cbn in Ha, Hb.
    + injection Ha as ->. left. exists (S i + y, b). split; [apply elem_of_lookup_imap; by exists y, b|].
      cbn. rewrite Nat.add_0_r, Nat.add_succ_r in He. done.
    + right. exists x, y, a', b. split_and!; [lia|done..|]. by rewrite !Nat.add_succ_r in He.
Qed.

Lemma reasons_spec (edges : list (CausalEdge * string)) ij r :
  (forall er er', er ∈ edges -> er' ∈ edges -> (ce_from er.1, ce_to er.1) = (ce_from er'.1, ce_to er'.1) -> er = er') ->
  foldl (fun (m : gmap (nat * nat) string) er => <[(ce_from er.1, ce_to er.1) := er.2]> m) ∅ edges !! ij = Some r <->
  exists e, (e, r) ∈ edges /\ (ce_from e, ce_to e) = ij.
Proof.
  induction edges as [|er edges IH] using rev_ind; intros Hfun; [|rewrite foldl_app; cbn [foldl]].
  { cbn. rewrite lookup_empty. split; [done|]. intros (e & ?%not_elem_of_nil & _). done. }
  rewrite lookup_insert. setoid_rewrite elem_of_app. setoid_rewrite list_elem_of_singleton. case_decide as Hk.
  - split; [intros [= <-]; exists er.1; split; [right; by destruct er|done]|].
    intros (e & Hin & He). f_equal. assert (er = (e, r)) as ->; [|done]. apply Hfun; [set_solver|set_solver|cbn; congruence].
  - rewrite IH by (intros; apply Hfun; set_solver). split; [intros (e & ? & ?); exists e; auto|].
    intros (e & [Hin|Heq] & He); [by exists e|by subst er].
Qed.

Section ordered.
Context (events : list Event).
#[local] Abbreviation ordered := (sort_by_key ev_ts events).
#[local] Abbreviation built := (build_causal_graph techniques cfg events).

(** Two events of which the second may follow from the first. *)
Definition causal (i j : nat) (a b : Event) : Prop :=
  ordered !! i = Some a /\ ordered !! j = Some b /\ i < j /\ (delta a b <= cc_window_micros cfg)%Z /\
  exists k, k ∈ entity_key <$> chain a /\ k ∈ entity_key <$> chain b.

Lemma built_edge e r : (e, r) ∈ edges_from cfg 0 ordered <-> exists i j a b, causal i j a b /\
  e = mkCEdge i j (edge_score a b) /\ r = "shares " +:+ join ", " (shared_entities a b) +:+ "; Δt=" +:+ human_dt (delta a b).
Proof.
  rewrite elem_of_edges. split.
  - intros (x & y & a & b & Hlt & Ha & Hb & (Hd & Hk & -> & ->)%edge_between_spec). exists x, y, a, b. by repeat split.
  - intros (i & j & a & b & (Ha & Hb & Hlt & Hd & Hk) & -> & ->). exists i, j, a, b. split_and!; [done..|]. by apply edge_between_spec.
Qed.

Lemma built_wf : graph_wf (cb_graph built) /\ Forall (fun e => ce_from e < ce_to e) (cg_edges (cb_graph built)).
Proof.
  assert (Forall (fun e => ce_from e < ce_to e /\ ce_to e < length ordered) (edges_from cfg 0 ordered).*1) as Hr.
  { apply Forall_fmap, Forall_forall. intros [e r] (i & j & a & b & (_ & Hb & Hlt & _) & -> & _)%built_edge.
    cbn. apply lookup_lt_Some in Hb. lia. }
  split; [split|]; cbn.
  - rewrite length_fmap. eapply Forall_impl; [exact Hr|]. cbn. lia.
  - apply Forall_fmap, Forall_true. intros ev. apply anomaly_valid.
  - eapply Forall_impl; [exact Hr|]. cbn. lia.
Qed.

(** A path of a graph whose edges go up goes up. *)
Lemma walk_increasing g x : Forall (fun e => ce_from e < ce_to e) (cg_edges g) -> walk g x -> StronglySorted lt x.1.
Proof.
  intros Hup. induction 1 as [n b _|x y _ IH Hs]; [repeat constructor|]. destruct Hs as [p s e b Hlast He _ _]. cbn in *.
  rewrite Forall_forall in Hup. specialize (Hup e He). apply StronglySorted_app. split_and!; [|done|repeat constructor].
  intros a c Ha ->%list_elem_of_singleton. apply last_Some in Hlast as [p' ->].
  apply StronglySorted_app in IH as (Hlt & _ & _). apply elem_of_app in Ha as [Ha| ->%list_elem_of_singleton]; [|done].
  specialize (Hlt a (ce_from e) Ha ltac:(by left)). lia.
Qed.

(** Each pair of positions has at most one edge. *)
Lemma edges_distinct i rest : NoDup ((fun er => (ce_from er.1, ce_to er.1)) <$> edges_from cfg i rest).
Proof.
  revert i. induction rest as [|a rest IH]; intros i; cbn [edges_from]; [constructor|]. rewrite fmap_app. apply NoDup_app. split_and!; [| |apply IH].
  - assert (forall n l, NoDup ((fun er => (ce_from er.1, ce_to er.1)) <$> omap (fun jb => edge_between cfg i a jb.1 jb.2) (imap (fun k b => (n + k, b)) l))) as Hn; [|apply Hn].
    intros n l. revert n. induction l as [|b l IHl]; intros n; cbn; [constructor|].
    assert (forall er, er ∈ omap (fun jb => edge_between cfg i a jb.1 jb.2) (imap ((fun k b => (n + k, b)) ∘ S) l) -> n < ce_to er.1) as Hgt.
    { intros [e r] ([j b'] & Hj & (_ & _ & -> & _)%edge_between_spec)%list_elem_of_omap.
      apply elem_of_lookup_imap in Hj as (k & ? & [= -> ->] & _). cbn. lia. }
    assert (imap ((fun k b => (n + k, b)) ∘ S) l = imap (fun k b => (S n + k, b)) l) as Heq by (apply imap_ext; intros; cbn; f_equal; lia).
    destruct (edge_between cfg i a (n + 0) b) as [[e r]|] eqn:He; cbn; [constructor|]; [|rewrite Heq; apply IHl..].
    apply edge_between_spec in He as (_ & _ & -> & _). cbn. intros ([e' r'] & Heq' & Hin)%list_elem_of_fmap.
    apply Hgt in Hin. cbn in *. injection Heq' as _ Hto. lia.
  - intros p ([e r] & -> & ([j b'] & Hj & (_ & _ & -> & _)%edge_between_spec)%list_elem_of_omap)%list_elem_of_fmap
      ([e' r'] & Heq & (x & y & a' & b & _ & _ & _ & (_ & _ & -> & _)%edge_between_spec)%elem_of_edges)%list_elem_of_fmap.
    cbn in Heq. injection Heq as Heq _. lia.
Qed.

Lemma edges_functional i rest er er' : er ∈ edges_from cfg i rest -> er' ∈ edges_from cfg i rest ->
  (ce_from er.1, ce_to er.1) = (ce_from er'.1, ce_to er'.1) -> er = er'.
Proof.
  intros Hin Hin' Heq. apply list_elem_of_lookup in Hin as [x Hx]. apply list_elem_of_lookup in Hin' as [y Hy].
  pose proof (edges_distinct i rest) as Hnd. rewrite NoDup_alt in Hnd. assert (x = y) as ->; [|congruence].
  eapply Hnd; rewrite list_lookup_fmap; [by rewrite Hx|rewrite Hy; cbn; by rewrite Heq].
Qed.
End ordered.
End build_spec.

(** ** Theorems *)

(** the causal graph of a batch.  Its nodes are the batch's events in the
    order of their time, events of one time in the order they came; an edge
    goes from one position to a later one exactly when the later event is at
    most the window after the earlier one and shares a host, actor or target
    with it; each such pair has one edge, scored by time and anomaly and never
    above one, and a reason that names the shared entities. *)
Theorem causal_graph_spec `{Casing} `{FloatFixed} techniques cfg events :
  let b := build_causal_graph techniques cfg events in
  let ordered := sort_by_key ev_ts events in
  (ordered ≡ₚ events /\ key_sorted ev_ts ordered /\
   forall t, filter (fun ev => ev_ts ev = t) ordered = filter (fun ev => ev_ts ev = t) events) /\
  cg_nodes (cb_graph b) = node_of techniques <$> ordered /\
  (forall i j s, mkCEdge i j s ∈ cg_edges (cb_graph b) <-> exists x y, causal cfg events i j x y /\ s = edge_score x y) /\
  NoDup ((fun e => (ce_from e, ce_to e)) <$> cg_edges (cb_graph b)) /\
  (forall e, e ∈ cg_edges (cb_graph b) -> f32_lt (f32_of 1) (ce_score e) = false) /\
  (forall i j r, cb_reasons b !! (i, j) = Some r <-> exists x y, causal cfg events i j x y /\
     r = "shares " +:+ join ", " (shared_entities x y) +:+ "; Δt=" +:+ human_dt (delta x y)).
Proof.
  cbv zeta. assert (forall e, e ∈ cg_edges (cb_graph (build_causal_graph techniques cfg events)) <->
    exists i j x y, causal cfg events i j x y /\ e = mkCEdge i j (edge_score x y)) as He.
  { intros e. cbn. rewrite list_elem_of_fmap. split.
    - intros ([e' r] & -> & (i & j & x & y & Hc & -> & _)%built_edge). by exists i, j, x, y.
    - intros (i & j & x & y & Hc & ->). eexists (_, _). split; [|apply built_edge; exists i, j, x, y; split_and!; done]. done. }
  split_and!; [apply sort_by_key_perm|apply sort_by_key_sorted|intros t; apply sort_by_key_stable|done| | | |].
  - intros i j s. rewrite He. split; [intros (? & ? & x & y & Hc & [= -> -> ->]); by exists x, y|].
    intros (x & y & Hc & ->). by exists i, j, x, y.
  - cbn. rewrite <- list_fmap_compose. apply edges_distinct.
  - intros e (i & j & x & y & _ & ->)%He. cbn. by apply f32_min_le.
  - intros i j r. cbn. rewrite reasons_spec by apply edges_functional. split.
    + intros (e & (i' & j' & x & y & Hc & -> & ->)%built_edge & [= -> ->]). by exists x, y.
    + intros (x & y & Hc & ->). eexists. split; [apply built_edge; exists i, j, x, y; split_and!; done|done].
Qed.

(** C38: the search for the kill chain.  On a graph whose edges join its nodes
    the beam search ends, without an index out of bounds, with a path of the
    graph that repeats no node, its score the sum along it in the order of the
    path; no single node scores higher.  When the beam is as wide as the
    paths of each length are many, it is an exhaustive search: no path scores
    higher. *)
Theorem beam_search_optimal g width : graph_wf g -> cg_nodes g <> [] ->
  exists chain, beam_search g width = Some chain /\ walk g (ch_path chain, ch_score chain) /\
    (forall n b, node_bonus g n = Some b -> f32_lt (ch_score chain) b = false) /\
    ((forall j, length (level g (S j)) <= width) -> forall p s, walk g (p, s) -> f32_lt (ch_score chain) s = false).
Proof.
  intros Hwf Hne. destruct (beam_search_spec g Hwf width Hne) as ([p s] & Hb & Hw & Hs & Hopt).
  exists (mkChain p s). split_and!; [done..|]. intros Hwide p' s' Hw'. by apply (Hopt Hwide (p', s')).
Qed.

Section demo.
Definition demo_node (anomaly : f32) : CausalNode := mkCNode "e" "l" 0 None None anomaly.
(** A short way of high score and a long way around it. *)
Definition demo_graph : CausalGraph :=
  mkCGraph (demo_node <$> [f32_lit 2 10; f32_lit 9 10; f32_lit 3 10; f32_lit 2 10])
    [mkCEdge 0 1 (f32_lit 9 10); mkCEdge 0 2 (f32_lit 1 2); mkCEdge 2 3 (f32_lit 1 2)].

Lemma demo_graph_wf : graph_wf demo_graph.
Proof.
  split; [repeat constructor; cbn; lia|]. apply Forall_fmap. repeat (constructor; [apply f32_lit_valid|]). constructor.
Qed.

Lemma beam_search_optimal_witness : exists chain, beam_search demo_graph 3 = Some chain /\ ch_path chain = [0; 2; 3] /\
  forall p s, walk demo_graph (p, s) -> f32_lt (ch_score chain) s = false.
Proof.
  destruct (beam_search_optimal demo_graph 3 demo_graph_wf) as (chain & Hb & _ & _ & Hopt); [done|].
  assert (ch_path <$> beam_search demo_graph 3 = Some [0; 2; 3]) as Hp by (vm_compute; reflexivity).
  rewrite Hb in Hp. injection Hp as Hp. exists chain. split_and!; [done..|]. apply Hopt.
  assert (forall j, level demo_graph (3 + j) = []) as Hz by (induction j as [|j IH]; [vm_compute; reflexivity|cbn [Nat.add level] in *; by rewrite IH]).
  intros [|[|j]]; [apply Nat.leb_le; vm_compute; reflexivity..|]. change (S (S (S j))) with (3 + j). rewrite Hz. cbn. lia.
Defined.
End demo.
