(* ===== verification/Campaigns.v ===== *)
(** * [sigil-correlate/src/campaign.rs]: campaign candidates

    Events are linked when their embeddings are near or they share an entity,
    within a time window; the connected components of the links are the
    candidates.  The orders in which hash maps and sets are read are
    parameters ([HashOrder]); an index out of bounds is [None]. *)

From stdpp Require Import gmap strings list sorting relations.
From Stdlib Require Import SpecFloat.
From S2P Require Import Prelude Containers Core Float Graph Campaign Vectors Embed.

(** [micros]: the largest time between linked events; [knn]: neighbours per
    event; the two links can be switched off. *)
Record CampaignConfig : Type := mkCampaignConfig {
  gc_window_micros : Z; gc_sim_threshold : f32; gc_knn : nat; gc_require_cross_domain : bool;
  gc_semantic_links : bool; gc_entity_links : bool
}.
Definition CampaignConfig_default : CampaignConfig := mkCampaignConfig (30 * 60 * 1000000) (f32_lit 1 2) 10 true true true.

Record CampaignCandidate : Type := mkCandidate {
  ca_id : nat; ca_events : list string; ca_domains : list string; ca_links : nat; ca_score : f32
}.

Abbreviation links_map := (gmap (nat * nat) (f32 * bool)).

(** The order in which the entries of hash tables come. *)
Class HashOrder := {
  id_order : gset string -> list string;
  link_order : links_map -> list ((nat * nat) * (f32 * bool));
  group_order : gmap nat (list nat) -> list (nat * list nat)
}.
Class HashOrderLaws `{HashOrder} : Prop := {
  id_order_perm s : id_order s ≡ₚ elements s;
  link_order_perm m : link_order m ≡ₚ map_to_list m;
  group_order_perm m : group_order m ≡ₚ map_to_list m
}.

(** [f32::MIN]. *)
Definition f32_lowest : f32 := S754_finite true (2 ^ 24 - 1)%positive 104.

Section build.
Context `{Embedder} `{HashOrder} (events : list Event) (cfg : CampaignConfig).

(** [pos]: the last position of an id. *)
Definition positions : gmap string nat := foldl (fun m ie => <[ev_id ie.2 := ie.1]> m) ∅ (imap pair events).
Definition vectors : list (list f32) := embed_event <$> events.
Definition store : FlatVectorStore := (fun ev => (ev_id ev, embed_event ev)) <$> events.
Definition graph : ProvenanceGraph := build events.

(** Whether two times are further apart than the window; the difference and
    its absolute value wrap. *)
Definition apart (s t : Z) : bool := (gc_window_micros cfg <? wrap_i64 (Z.abs (wrap_i64 (s - t))))%Z.

Definition record (a b : nat) (sim : f32) (links : links_map) : option links_map :=
  if bool_decide (a = b) then Some links
  else
    ea ← events !! a; eb ← events !! b;
    if apart (ev_ts ea) (ev_ts eb) then Some links
    else
      let key := if (a <? b)%nat then (a, b) else (b, a) in
      let cross := negb (class_uid (ocsf_class ea) =? class_uid (ocsf_class eb))%Z in
      let best := match links !! key with Some (s, _) => s | None => f32_lowest end in
      Some (<[key := (if f32_lt best sim then sim else best, cross)]> links).

(** The neighbours of one event, as recorded links. *)
Fixpoint record_near (i : nat) (hits : list (string * f32)) (links : links_map) : option links_map :=
  match hits with
  | [] => Some links
  | (id_j, sim) :: hits =>
      if f32_lt sim (gc_sim_threshold cfg) then record_near i hits links
      else
        links ← match positions !! id_j with Some j => record i j sim links | None => Some links end;
        record_near i hits links
  end.

Fixpoint record_shared (i : nat) (v : list f32) (ids : list string) (links : links_map) : option links_map :=
  match ids with
  | [] => Some links
  | id_j :: ids =>
      links ← match positions !! id_j with
              | Some j => w ← vectors !! j; record i j (dot v w) links
              | None => Some links
              end;
      record_shared i v ids links
  end.

Fixpoint semantic_loop (i : nat) (vs : list (list f32)) (links : links_map) : option links_map :=
  match vs with
  | [] => Some links
  | v :: vs => links ← record_near i (flat_knn store v (gc_knn cfg + 1)) links; semantic_loop (S i) vs links
  end.

Fixpoint entity_loop (i : nat) (evs : list Event) (links : links_map) : option links_map :=
  match evs with
  | [] => Some links
  | ev :: evs =>
      v ← vectors !! i;
      links ← record_shared i v (id_order (co_entity_events graph ev)) links;
      entity_loop (S i) evs links
  end.

Definition all_links : option links_map :=
  links ← (if gc_semantic_links cfg then semantic_loop 0 vectors ∅ else Some ∅);
  if gc_entity_links cfg then entity_loop 0 events links else Some links.

(** ** Candidates *)

Definition event_le (a b : Z * string) : bool :=
  (a.1 <? b.1)%Z || ((a.1 =? b.1)%Z && match String.compare a.2 b.2 with Gt => false | _ => true end).

(** [BTreeSet] of the class names. *)
Definition domains_of (members : list nat) : list string :=
  (foldl (fun m i => match events !! i with Some ev => smap_insert (class_token (ocsf_class ev)) tt m | None => m end) [] members).*1.

Definition inside (members : list nat) (l : (nat * nat) * (f32 * bool)) : Prop := l.1.1 ∈ members /\ l.1.2 ∈ members.
#[local] Instance inside_dec members l : Decision (inside members l).
Proof. unfold inside. apply _. Defined.

(** [candidate_score]: the confidence of a group of [members] events over
    [domains] classes, from the similarities of its links. *)
Definition candidate_score (domains members : nat) (edge_sims : list f32) : f32 :=
  let avg_sim := if is_nil edge_sims then f32_of 0 else f32_div (f32_sum edge_sims) (f32_of (length edge_sims)) in
  f32_add (f32_add (f32_of domains) (f32_mul (f32_sub (f32_of members) (f32_of 1)) (f32_lit 1 2))) (f32_max avg_sim (f32_of 0)).

Definition candidate_of (links : links_map) (members : list nat) : option CampaignCandidate :=
  if (length members <? 2)%nat then None
  else
    let domains := domains_of members in
    if gc_require_cross_domain cfg && (length domains <? 2)%nat then None
    else
      let edge_sims := (fun l => l.2.1) <$> filter (inside members) (link_order links) in
      let ids := sort_by event_le (omap (fun i => ev ← events !! i; Some (ev_ts ev, ev_id ev)) members) in
      Some (mkCandidate 0 ids.*2 domains (length edge_sims)
              (candidate_score (length domains) (length members) edge_sims)).

Definition number (i : nat) (c : CampaignCandidate) : CampaignCandidate :=
  mkCandidate i (ca_events c) (ca_domains c) (ca_links c) (ca_score c).

Definition build_campaigns : option (list CampaignCandidate) :=
  if is_nil events then Some []
  else
    links ← all_links;
    comps ← Dsu.components (length events) (link_order links).*1;
    let candidates := omap (fun c => candidate_of links c.2) (group_order comps) in
    Some (imap number (sort_by_key (fun c => - f32_key (ca_score c))%Z candidates)).

(** ** Which events are linked *)

(** The position that stands for an id: the last of its events. *)
Definition stands_for (id : string) (j : nat) : Prop :=
  (exists ev, events !! j = Some ev /\ ev_id ev = id) /\ forall k ev, j < k -> events !! k = Some ev -> ev_id ev <> id.

(** Different events, within the window. *)
Definition linkable (i j : nat) : Prop :=
  i <> j /\ exists a b, events !! i = Some a /\ events !! j = Some b /\ apart (ev_ts a) (ev_ts b) = false.

(** [j] is among the nearest of [i], at similarity [sim], or shares an entity
    with it. *)
Definition near (i j : nat) (sim : f32) : Prop :=
  gc_semantic_links cfg = true /\ exists v id, vectors !! i = Some v /\ (id, sim) ∈ flat_knn store v (gc_knn cfg + 1) /\
    f32_lt sim (gc_sim_threshold cfg) = false /\ stands_for id j.
Definition shares (i j : nat) (sim : f32) : Prop :=
  gc_entity_links cfg = true /\ exists a v w id, events !! i = Some a /\ vectors !! i = Some v /\ vectors !! j = Some w /\
    sim = dot v w /\ stands_for id j /\ id <> ev_id a /\
    exists ev e e', ev ∈ events /\ ev_id ev = id /\ e ∈ Graph.chain a /\ e' ∈ Graph.chain ev /\ entity_key e' = entity_key e.

Definition found (i j : nat) (sim : f32) : Prop := linkable i j /\ (near i j sim \/ shares i j sim).
Definition linked (i j : nat) : Prop := exists sim, found i j sim \/ found j i sim.

(** The greatest of the similarities at which a pair was found; [f32::MIN]
    where none is greater than that. *)
Definition best_of (P : f32 -> Prop) (s : f32) : Prop :=
  (s = f32_lowest \/ P s) /\ forall t, P t -> f32_lt s t = false.

(** The recorded links are those found, each under its smaller position, with
    its best similarity. *)
Definition records (P : nat -> nat -> f32 -> Prop) (links : links_map) : Prop :=
  (forall a b, is_Some (links !! (a, b)) <-> a < b /\ exists sim, P a b sim \/ P b a sim) /\
  forall a b s c, links !! (a, b) = Some (s, c) -> best_of (fun sim => P a b sim \/ P b a sim) s.

Lemma records_ext P Q links : (forall a b s, P a b s <-> Q a b s) -> records P links -> records Q links.
Proof.
  intros HPQ [Hk Hv]. split.
  - intros a b. rewrite Hk. by setoid_rewrite HPQ.
  - intros a b s c Hl. destruct (Hv _ _ _ _ Hl) as [Hs Hb]. split; [by setoid_rewrite HPQ in Hs|].
    intros t Ht. apply Hb. by setoid_rewrite <- HPQ in Ht.
Qed.

End build.

Lemma positions_spec events id j : positions events !! id = Some j <-> stands_for events id j.
Proof.
  unfold positions, stands_for. induction events as [|ev evs IH] using rev_ind; [cbn; split; [done|naive_solver]|].
  rewrite imap_app, foldl_app. cbn. rewrite Nat.add_0_r. destruct (decide (ev_id ev = id)) as [Hid|Hid].
  - subst id. rewrite lookup_insert_eq. split.
    + intros [= <-]. split; [exists ev; by rewrite list_lookup_middle|]. intros k e Hk He%lookup_lt_Some.
      rewrite length_app in He. cbn in He. lia.
    + intros [(e & He & _) Hlast]. f_equal. destruct (decide (j = length evs)) as [->|Hj]; [done|].
      pose proof (lookup_lt_Some _ _ _ He) as Hlt. rewrite length_app in Hlt. cbn in Hlt.
      destruct (Hlast (length evs) ev ltac:(lia)); [by rewrite list_lookup_middle|done].
  - rewrite lookup_insert_ne by done. rewrite IH. split; intros [(e & He & Hide) Hlast].
    + split; [exists e; split; [by apply lookup_app_l_Some|done]|]. intros k e' Hk He'.
      destruct (decide (k < length evs)) as [Hlt|Hge].
      * rewrite lookup_app_l in He' by done. by eapply Hlast.
      * rewrite lookup_app_r in He' by lia. apply list_lookup_singleton_Some in He' as [_ <-]. done.
    + rewrite lookup_snoc_Some in He. destruct He as [[Hlt He]|[_ <-]]; [|done]. split; [by exists e|].
      intros k e' Hk He'. eapply Hlast; [done|]. by apply lookup_app_l_Some.
Qed.

Section links.
Context `{Embedder} `{HashOrder} (events : list Event) (cfg : CampaignConfig).

Lemma best_of_add (P Q : f32 -> Prop) s sim : best_of P s -> (forall t, Q t <-> P t \/ t = sim) ->
  best_of Q (if f32_lt s sim then sim else s).
Proof.
  intros [Hs Hb] HQ. unfold best_of. setoid_rewrite HQ. destruct (f32_lt s sim) eqn:E.
  - split; [auto|]. intros t [Ht| ->]; [|apply f32_lt_irrefl].
    destruct (f32_lt sim t) eqn:E'; [|done]. specialize (Hb _ Ht). by rewrite (f32_lt_trans s sim t) in Hb.
  - split; [naive_solver|]. intros t [Ht| ->]; [by apply Hb|done].
Qed.

(** Recording a pair that is found. *)
Lemma record_spec P i j sim links : records P links -> i < length events -> j < length events ->
  exists links', record events cfg i j sim links = Some links' /\
    records (fun a b s => P a b s \/ (a = i /\ b = j /\ s = sim /\ linkable events cfg i j)) links'.
Proof.
  intros HP Hi Hj. unfold record. case_bool_decide as Hij.
  { exists links. split; [done|]. revert HP. apply records_ext. unfold linkable. naive_solver. }
  destruct (lookup_lt_is_Some_2 _ _ Hi) as [ea Ha], (lookup_lt_is_Some_2 _ _ Hj) as [eb Hb]. rewrite Ha, Hb. cbn [mbind option_bind].
  destruct (apart cfg (ev_ts ea) (ev_ts eb)) eqn:Hap.
  { exists links. split; [done|]. revert HP. apply records_ext. intros a b s. split; [by left|]. intros [?|(_ & _ & _ & _ & x & y & Hx & Hy & E)]; [done|congruence]. }
  set (key := if (i <? j)%nat then (i, j) else (j, i)). destruct HP as [Hk Hv].
  assert (forall a b, key = (a, b) <-> a < b /\ ((a = i /\ b = j) \/ (a = j /\ b = i))) as Hkey.
  { intros a b. subst key. destruct (Nat.ltb_spec i j); (split; [intros [= <- <-]; lia|intros [Hlt [[-> ->]|[-> ->]]]; (done || lia)]). }
  assert (linkable events cfg i j) as Hlk by (split; [done|eauto 6]).
  eexists. split; [done|]. split.
  - intros a b. destruct (decide (key = (a, b))) as [E|E].
    + rewrite <- E, lookup_insert_eq. split; [intros _|eauto]. pose proof (proj1 (Hkey a b) E) as [Hlt Hab]. split; [done|].
      exists sim. destruct Hab as [[-> ->]|[-> ->]]; auto 8.
    + rewrite lookup_insert_ne, Hk by done. split; [naive_solver|]. intros [Hlt [s Hs]]. split; [done|]. exists s.
      rewrite Hkey in E. destruct Hs as [[?|(-> & -> & _)]|[?|(-> & -> & _)]]; tauto.
  - intros a b s c. destruct (decide (key = (a, b))) as [E|E].
    + rewrite <- E, lookup_insert_eq. intros [= <- <-]. rewrite E. apply Hkey in E as [Hlt Hab].
      apply (best_of_add (fun s => P a b s \/ P b a s)).
      * destruct (links !! (a, b)) as [[s c]|] eqn:El; [by eapply Hv|].
        split; [by left|]. intros t Ht. assert (is_Some (links !! (a, b))) as [? ?] by (apply Hk; eauto). congruence.
      * intros t. destruct Hab as [[-> ->]|[-> ->]]; split; try naive_solver; intros [[?|?]|[?|?]]; naive_solver.
    + rewrite lookup_insert_ne by done. intros Hl. pose proof (Hk a b) as [Hk1 _].
      destruct Hk1 as [Hlt _]; [eauto|]. rewrite Hkey in E.
      destruct (Hv _ _ _ _ Hl) as [Hs Hb']. split; [naive_solver|]. intros t [[?|(-> & -> & _)]|[?|(-> & -> & _)]]; eauto; tauto.
Qed.
(** One event's neighbours, and the events that share an entity with it. *)
Lemma stands_for_lt id j : stands_for events id j -> j < length events.
Proof. intros [(ev & Hev & _) _]. by eapply lookup_lt_Some. Qed.

Lemma record_near_spec P i hits links : records P links -> i < length events ->
  exists links', record_near events cfg i hits links = Some links' /\
    records (fun a b s => P a b s \/ (a = i /\ linkable events cfg i b /\ exists id, (id, s) ∈ hits /\
      f32_lt s (gc_sim_threshold cfg) = false /\ stands_for events id b)) links'.
Proof.
  intros HP Hi. revert P links HP. induction hits as [|[id sim] hits IH]; intros P links HP; cbn [record_near].
  { exists links. split; [done|]. revert HP. apply records_ext. intros a b s. split; [by left|].
    intros [?|(_ & _ & id & Hin & _)]; [done|by apply not_elem_of_nil in Hin]. }
  destruct (f32_lt sim (gc_sim_threshold cfg)) eqn:Hsim.
  { destruct (IH P links HP) as (links' & -> & HP'). exists links'. split; [done|]. revert HP'. apply records_ext.
    setoid_rewrite elem_of_cons. intros a b s. split; [intros [?|(-> & Hl & id' & Hin & Hs)]; eauto 10|].
    intros [?|(-> & Hl & id' & [[= -> ->]|Hin] & Hs & Hst)]; [by left|congruence|eauto 10]. }
  destruct (positions events !! id) as [j|] eqn:Hj; cbn [mbind option_bind].
  - apply positions_spec in Hj. destruct (record_spec P i j sim links HP Hi (stands_for_lt _ _ Hj)) as (l1 & -> & H1).
    cbn [mbind option_bind]. destruct (IH _ _ H1) as (l2 & -> & H2). exists l2. split; [done|]. revert H2. apply records_ext.
    setoid_rewrite elem_of_cons. intros a b s. split.
    { intros [[?|(-> & -> & -> & Hl)]|(-> & Hl & id' & Hin & Hs & Hst)]; eauto 12. }
    intros [?|(-> & Hl & id' & [[= -> ->]|Hin] & Hs & Hst)]; [eauto 10| |eauto 12].
    left. right. apply positions_spec in Hj, Hst. assert (b = j) as -> by congruence. done.
  - destruct (IH P links HP) as (links' & -> & HP'). exists links'. split; [done|]. revert HP'. apply records_ext.
    setoid_rewrite elem_of_cons. intros a b s. split; [intros [?|(-> & Hl & id' & Hin & Hs)]; eauto 12|].
    intros [?|(-> & Hl & id' & [[= -> ->]|Hin] & Hs & Hst)]; [eauto| |eauto 12].
    apply positions_spec in Hst. congruence.
Qed.

Lemma vectors_length : length (vectors events) = length events.
Proof. apply length_fmap. Qed.

Lemma record_shared_spec P i v ids links : records P links -> i < length events ->
  exists links', record_shared events cfg i v ids links = Some links' /\
    records (fun a b s => P a b s \/ (a = i /\ linkable events cfg i b /\ exists id w, id ∈ ids /\
      vectors events !! b = Some w /\ s = dot v w /\ stands_for events id b)) links'.
Proof.
  intros HP Hi. revert P links HP. induction ids as [|id ids IH]; intros P links HP; cbn [record_shared].
  { exists links. split; [done|]. revert HP. apply records_ext. intros a b s. split; [by left|].
    intros [?|(_ & _ & id & w & Hin & _)]; [done|by apply not_elem_of_nil in Hin]. }
  destruct (positions events !! id) as [j|] eqn:Hj; cbn [mbind option_bind].
  - apply positions_spec in Hj. pose proof (stands_for_lt _ _ Hj) as Hlt.
    destruct (lookup_lt_is_Some_2 (vectors events) j) as [w Hw]; [by rewrite vectors_length|]. rewrite Hw. cbn [mbind option_bind].
    destruct (record_spec P i j (dot v w) links HP Hi Hlt) as (l1 & -> & H1).
    cbn [mbind option_bind]. destruct (IH _ _ H1) as (l2 & -> & H2). exists l2. split; [done|]. revert H2. apply records_ext.
    setoid_rewrite elem_of_cons. intros a b s. split; [naive_solver|].
    intros [?|(-> & Hl & id' & w' & [->|Hin] & Hw' & -> & Hst)]; [naive_solver| |naive_solver].
    left. right. apply positions_spec in Hj, Hst. assert (b = j) as -> by congruence. naive_solver.
  - destruct (IH P links HP) as (links' & -> & HP'). exists links'. split; [done|]. revert HP'. apply records_ext.
    setoid_rewrite elem_of_cons. intros a b s. split; [naive_solver|].
    intros [?|(-> & Hl & id' & w' & [->|Hin] & Hw' & -> & Hst)]; [naive_solver| |naive_solver].
    apply positions_spec in Hst. congruence.
Qed.

(** The loops over all events. *)
Lemma semantic_loop_spec P i vs links : records P links -> i + length vs <= length events ->
  exists links', semantic_loop events cfg i vs links = Some links' /\
    records (fun a b s => P a b s \/ (exists o v, a = i + o /\ vs !! o = Some v /\ linkable events cfg a b /\
      exists id, (id, s) ∈ flat_knn (store events) v (gc_knn cfg + 1) /\
        f32_lt s (gc_sim_threshold cfg) = false /\ stands_for events id b)) links'.
Proof.
  revert P i links. induction vs as [|v vs IH]; intros P i links HP Hlen; cbn [semantic_loop].
  { exists links. split; [done|]. revert HP. apply records_ext. naive_solver. }
  cbn in Hlen. destruct (record_near_spec P i (flat_knn (store events) v (gc_knn cfg + 1)) links HP ltac:(lia)) as (l1 & -> & H1).
  cbn [mbind option_bind]. destruct (IH _ (S i) _ H1 ltac:(lia)) as (l2 & -> & H2). exists l2. split; [done|]. revert H2. apply records_ext.
  intros a b s. split.
  - intros [[?|(-> & Hl & Hx)]|(o & w & -> & Hw & Hx)]; [by left|right; exists 0, v; rewrite Nat.add_0_r; by split_and!|].
    right. exists (S o), w. split; [lia|]. by split.
  - intros [?|([|o] & w & -> & Hw & Hl & Hx)]; [by left; left| |].
    + rewrite Nat.add_0_r in *. injection Hw as <-. left; right. by split_and!.
    + right. exists o, w. split; [lia|]. by split_and!.
Qed.

Lemma entity_loop_spec P i evs links : records P links -> i + length evs <= length events ->
  exists links', entity_loop events cfg i evs links = Some links' /\
    records (fun a b s => P a b s \/ (exists o ev v, a = i + o /\ evs !! o = Some ev /\ vectors events !! a = Some v /\ linkable events cfg a b /\
      exists id w, id ∈ id_order (co_entity_events (graph events) ev) /\
        vectors events !! b = Some w /\ s = dot v w /\ stands_for events id b)) links'.
Proof.
  revert P i links. induction evs as [|ev evs IH]; intros P i links HP Hlen; cbn [entity_loop].
  { exists links. split; [done|]. revert HP. apply records_ext. naive_solver. }
  cbn in Hlen. destruct (lookup_lt_is_Some_2 (vectors events) i) as [v Hv]; [rewrite vectors_length; lia|]. rewrite Hv. cbn [mbind option_bind].
  destruct (record_shared_spec P i v (id_order (co_entity_events (graph events) ev)) links HP ltac:(lia)) as (l1 & -> & H1).
  cbn [mbind option_bind]. destruct (IH _ (S i) _ H1 ltac:(lia)) as (l2 & -> & H2). exists l2. split; [done|]. revert H2. apply records_ext.
  intros a b s. split.
  - intros [[?|(-> & Hl & Hx)]|(o & e & w & -> & Hw & Hx)]; [by left|right; exists 0, ev, v; rewrite Nat.add_0_r; by split_and!|].
    right. exists (S o), e, w. split; [lia|]. by split.
  - intros [?|([|o] & e & w & -> & He & Hw & Hl & Hx)]; [by left; left| |].
    + rewrite Nat.add_0_r in *. simplify_eq/=. left; right. by split_and!.
    + right. exists o, e, w. split; [lia|]. by split_and!.
Qed.
Context {HL : HashOrderLaws}.

Lemma all_links_spec : exists links, all_links events cfg = Some links /\ records (found events cfg) links.
Proof using HL.
  unfold all_links. assert (records (fun _ _ _ => False) ∅) as H1.
  { split; [|by intros a b s c; rewrite lookup_empty]. intros a b. rewrite lookup_empty.
    split; [by intros []|by intros (_ & _ & [[]|[]])]. }
  assert (exists links, (if gc_semantic_links cfg then semantic_loop events cfg 0 (vectors events) ∅ else Some ∅) = Some links /\
    records (fun a b s => linkable events cfg a b /\ near events cfg a b s) links) as (l1 & -> & H2).
  { unfold near. destruct (gc_semantic_links cfg).
    - destruct (semantic_loop_spec _ 0 (vectors events) _ H1) as (l & -> & Hl); [by rewrite vectors_length|].
      exists l. split; [done|]. revert Hl. apply records_ext. intros a b s. split.
      + intros [[]|(o & v & -> & Hv & Hlk & id & Hid)]. split; [done|]. split; [done|]. exists v, id. by split.
      + intros (Hlk & _ & v & id & Hv & Hid). right. exists a, v. split_and!; [done..|]. by exists id.
    - exists ∅. split; [done|]. revert H1. apply records_ext. naive_solver. }
  cbn [mbind option_bind]. unfold found, shares. destruct (gc_entity_links cfg).
  - destruct (entity_loop_spec _ 0 events _ H2) as (l & -> & Hl); [done|]. exists l. split; [done|]. revert Hl. apply records_ext.
    assert (forall ev id, id ∈ id_order (co_entity_events (graph events) ev) <-> id ∈ co_entity_events (graph events) ev) as Hid.
    { intros ev id. rewrite id_order_perm. apply elem_of_elements. }
    setoid_rewrite Hid. unfold graph. setoid_rewrite co_entity_events_spec. intros a b s. split.
    + intros [[? ?]|(o & ev & v & -> & Hev & Hv & Hlk & id & w & (Hne & ev' & e & e' & Hsh) & Hw & -> & Hst)]; [auto|].
      split; [done|]. right. split; [done|]. exists ev, v, w, id. split_and!; [done..|]. by exists ev', e, e'.
    + intros [Hlk [?|(_ & ev & v & w & id & Hev & Hv & Hw & -> & Hst & Hne & Hsh)]]; [auto|]. right.
      exists a, ev, v. split_and!; [done..|]. exists id, w. by split_and!.
  - exists l1. split; [done|]. revert H2. apply records_ext. naive_solver.
Qed.

(** ** Components and candidates *)

(** The events of one connected component, in the order of the batch. *)
Definition component (l : list nat) : Prop :=
  l <> [] /\ StronglySorted lt l /\
  forall x y, x ∈ l -> y ∈ l <-> y < length events /\ rtsc (linked events cfg) x y.

(** A group of at least two events, over two classes where that is asked. *)
Definition eligible (l : list nat) : Prop :=
  2 <= length l /\ (gc_require_cross_domain cfg = true ->
    exists i j a b, i ∈ l /\ j ∈ l /\ events !! i = Some a /\ events !! j = Some b /\
      class_token (ocsf_class a) <> class_token (ocsf_class b)).

(** What a candidate says of its group. *)
Definition describes (l : list nat) (c : CampaignCandidate) : Prop :=
  (exists evs, evs ≡ₚ omap (fun i => events !! i) l /\ ca_events c = ev_id <$> evs /\
     StronglySorted (fun a b => (ev_ts a < ev_ts b)%Z \/ (ev_ts a = ev_ts b /\ String.compare (ev_id a) (ev_id b) <> Gt)) evs) /\
  (StronglySorted (fun a b => String.compare a b = Lt) (ca_domains c) /\
   forall d, d ∈ ca_domains c <-> exists i ev, i ∈ l /\ events !! i = Some ev /\ d = class_token (ocsf_class ev)) /\
  exists sims : list ((nat * nat) * f32), NoDup sims.*1 /\
    (forall i j, (i, j) ∈ sims.*1 <-> i < j /\ i ∈ l /\ j ∈ l /\ linked events cfg i j) /\
    (forall i j s, ((i, j), s) ∈ sims -> best_of (fun t => found events cfg i j t \/ found events cfg j i t) s) /\
    ca_links c = length sims /\
    ca_score c = candidate_score (length (ca_domains c)) (length l) sims.*2.
Lemma event_le_total a b : event_le a b = true \/ event_le b a = true.
Proof.
  unfold event_le. destruct (Z.ltb_spec a.1 b.1); [by left|]. destruct (Z.ltb_spec b.1 a.1); [by right|]. cbn.
  assert (a.1 = b.1) as -> by lia. rewrite Z.eqb_refl. cbn. rewrite (String.compare_antisym a.2 b.2). destruct (String.compare b.2 a.2); auto.
Qed.

Lemma string_le_trans a b c : String.compare a b <> Gt -> String.compare b c <> Gt -> String.compare a c <> Gt.
Proof.
  intros Hab Hbc. destruct (String.compare a b) eqn:E1; [apply String.compare_eq_iff in E1 as ->; done| |done].
  destruct (String.compare b c) eqn:E2; [apply String.compare_eq_iff in E2 as ->; congruence| |done].
  by rewrite (string_compare_lt_trans _ _ _ E1 E2).
Qed.

Lemma event_le_spec a b : event_le a b = true <-> (a.1 < b.1)%Z \/ (a.1 = b.1 /\ String.compare a.2 b.2 <> Gt).
Proof.
  unfold event_le. rewrite orb_true_iff, andb_true_iff, Z.ltb_lt, Z.eqb_eq. destruct (String.compare a.2 b.2); naive_solver.
Qed.

Lemma event_le_trans a b c : event_le a b = true -> event_le b c = true -> event_le a c = true.
Proof.
  rewrite !event_le_spec. intros [?|[? ?]] [?|[? ?]]; [left; lia..|]. right. split; [congruence|].
  by eapply string_le_trans.
Qed.

Lemma domains_of_spec l : StronglySorted (fun a b => String.compare a b = Lt) (domains_of events l) /\
  forall d, d ∈ domains_of events l <-> exists i ev, i ∈ l /\ events !! i = Some ev /\ d = class_token (ocsf_class ev).
Proof.
  unfold domains_of. cut (forall m : smap unit, smap_wf m ->
    let r := foldl (fun m i => match events !! i with Some ev => smap_insert (class_token (ocsf_class ev)) tt m | None => m end) m l in
    smap_wf r /\ forall d, d ∈ r.*1 <-> d ∈ m.*1 \/ exists i ev, i ∈ l /\ events !! i = Some ev /\ d = class_token (ocsf_class ev)).
  { intros H'. destruct (H' []) as [Hw Hd]; [constructor|]. split; [done|]. intros d. rewrite Hd. cbn. set_solver. }
  induction l as [|i l IH]; intros m Hm; cbn; [set_solver|]. setoid_rewrite elem_of_cons.
  destruct (events !! i) as [ev|] eqn:Hi.
  - destruct (IH _ (smap_insert_wf (class_token (ocsf_class ev)) tt m Hm)) as [Hw Hd]. split; [done|]. intros d. rewrite Hd, smap_insert_elem.
    split; [|naive_solver]. intros [[->|?]|(j & e & ?)]; [right; exists i, ev; auto|by left|right; exists j, e; naive_solver].
  - destruct (IH _ Hm) as [Hw Hd]. split; [done|]. intros d. rewrite Hd. naive_solver.
Qed.

Lemma domains_two l : (2 <= length (domains_of events l))%nat <->
  exists i j a b, i ∈ l /\ j ∈ l /\ events !! i = Some a /\ events !! j = Some b /\
    class_token (ocsf_class a) <> class_token (ocsf_class b).
Proof.
  destruct (domains_of_spec l) as [Hs Hd]. split.
  - destruct (domains_of events l) as [|d1 [|d2 ds]]; cbn; [lia..|]. intros _. apply StronglySorted_inv in Hs as [_ Hf].
    apply Forall_cons in Hf as [Hlt _]. destruct (proj1 (Hd d1)) as (i & a & Hi & Ha & E1); [by left|].
    destruct (proj1 (Hd d2)) as (j & b & Hj & Hb & E2); [right; by left|]. exists i, j, a, b. split_and!; [done..|].
    rewrite <- E1, <- E2. intros ->. by rewrite string_compare_refl in Hlt.
  - intros (i & j & a & b & Hi & Hj & Ha & Hb & Hne).
    assert (class_token (ocsf_class a) ∈ domains_of events l) as HA by (apply Hd; eauto).
    assert (class_token (ocsf_class b) ∈ domains_of events l) as HB by (apply Hd; eauto).
    destruct (domains_of events l) as [|d1 [|d2 ds]]; cbn; [by apply not_elem_of_nil in HA| |lia].
    apply list_elem_of_singleton in HA, HB. congruence.
Qed.
Lemma NoDup_fst_filter {A B} (P : A * B -> Prop) `{!forall x, Decision (P x)} (l : list (A * B)) :
  NoDup l.*1 -> NoDup (filter P l).*1.
Proof. intros Hl. eapply sublist_NoDup; [exact Hl|]. apply fmap_sublist, sublist_filter. Qed.

Lemma StronglySorted_impl {A} (R R' : relation A) l : (forall a b, R a b -> R' a b) -> StronglySorted R l -> StronglySorted R' l.
Proof. intros HR Hs. rewrite <- (list_fmap_id l). by eapply (StronglySorted_fmap id R). Qed.

(** The candidate of a group, when it is a candidate. *)
Lemma candidate_of_spec links l : records (found events cfg) links ->
  match candidate_of events cfg links l with
  | Some c => eligible l /\ describes l c
  | None => ~ eligible l
  end.
Proof using HL.
  intros [Hk Hv]. unfold candidate_of, eligible. destruct (Nat.ltb_spec (length l) 2) as [Hlen|Hlen]; [lia|].
  destruct (gc_require_cross_domain cfg && (length (domains_of events l) <? 2)%nat) eqn:Hreq.
  { apply andb_true_iff in Hreq as [-> Hd%Nat.ltb_lt]. intros [_ He]. specialize (He eq_refl). apply domains_two in He. lia. }
  split.
  { split; [done|]. intros Hc. rewrite Hc in Hreq. cbn in Hreq. apply Nat.leb_gt in Hreq. apply domains_two. lia. }
  assert (link_order links ≡ₚ map_to_list links) as Hord by apply link_order_perm.
  assert (forall i j, (i, j) ∈ (filter (inside l) (link_order links)).*1 <-> i < j /\ i ∈ l /\ j ∈ l /\ linked events cfg i j) as Hin.
  { intros i j. unfold linked. transitivity (i ∈ l /\ j ∈ l /\ is_Some (links !! (i, j))); [|rewrite Hk; tauto].
    rewrite list_elem_of_fmap. setoid_rewrite list_elem_of_filter. setoid_rewrite Hord. unfold inside. split.
    - intros ([[a b] v] & [= -> ->] & [Ha Hb] & Hm%elem_of_map_to_list). cbn in *. eauto.
    - intros (Ha & Hb & v & Hm). exists ((i, j), v). split; [done|]. split; [done|]. by apply elem_of_map_to_list. }
  unfold describes; cbn [ca_events ca_domains ca_links ca_score]. split; [|split].
  - assert (omap (fun i => ev ← events !! i; Some (ev_ts ev, ev_id ev)) l =
      (fun ev => (ev_ts ev, ev_id ev)) <$> omap (fun i => events !! i) l) as ->.
    { clear. induction l as [|i l IH]; [done|]. cbn. destruct (events !! i); cbn; [by rewrite IH|done]. }
    rewrite sort_by_fmap, <- list_fmap_compose. eexists. split; [apply sort_by_perm|]. split; [done|].
    eapply StronglySorted_impl; [|apply sort_by_sorted; [intros; apply event_le_total|intros a b c; apply event_le_trans]].
    intros a b. apply event_le_spec.
  - apply domains_of_spec.
  - exists ((fun e => (e.1, e.2.1)) <$> filter (inside l) (link_order links)). rewrite <- !list_fmap_compose.
    change (fst ∘ _) with (@fst (nat * nat) (f32 * bool)). split_and!.
    + apply NoDup_fst_filter. rewrite Hord. apply NoDup_fst_map_to_list.
    + done.
    + intros i j s (e & He & [_ Hm]%list_elem_of_filter)%list_elem_of_fmap. destruct e as [[a b] [t c]]. cbn in *. simplify_eq. rewrite Hord in Hm.
      apply elem_of_map_to_list in Hm. by eapply Hv.
    + by rewrite !length_fmap.
    + done.
Qed.
Lemma keys_linked links i j : records (found events cfg) links ->
  (i, j) ∈ (link_order links).*1 <-> i < j /\ linked events cfg i j.
Proof using HL.
  intros [Hk _]. unfold linked. rewrite <- (Hk i j), list_elem_of_fmap. setoid_rewrite link_order_perm. split.
  - intros ([[a b] v] & [= -> ->] & Hm%elem_of_map_to_list). cbn. eauto.
  - intros [v Hm]. exists ((i, j), v). split; [done|]. by apply elem_of_map_to_list.
Qed.

Lemma found_range i j s : found events cfg i j s -> i <> j /\ i < length events /\ j < length events.
Proof. intros [(Hne & a & b & Ha & Hb & _) _]. eauto using lookup_lt_Some. Qed.

Lemma rtsc_keys links x y : records (found events cfg) links ->
  rtsc (fun a b => (a, b) ∈ (link_order links).*1) x y <-> rtsc (linked events cfg) x y.
Proof using HL.
  intros Hr. assert (forall a b, linked events cfg a b -> linked events cfg b a) as Hsym.
  { intros a b [s Hs]. exists s. tauto. }
  split; apply Dsu.rtc_map; intros u v.
  - intros [Huv|Huv]; apply keys_linked in Huv as [_ Hl]; try done; apply rtc_once; [by left|by right].
  - intros Huv. assert (linked events cfg u v) as Hl by (destruct Huv; [done|by apply Hsym]).
    apply rtc_once. destruct (lt_eq_lt_dec u v) as [[Hlt|Heq]|Hgt].
    + left. by apply keys_linked.
    + destruct Hl as [s [Hs|Hs]]; apply found_range in Hs as [? _]; congruence.
    + right. apply keys_linked; [done|]. split; [done|by apply Hsym].
Qed.

(** A component is determined by any of its elements. *)
Lemma component_unique l l' x : component l -> component l' -> x ∈ l -> x ∈ l' -> l = l'.
Proof.
  intros (_ & Hs & Hl) (_ & Hs' & Hl') Hx Hx'.
  assert (forall m, StronglySorted lt m -> NoDup m) as Hnd.
  { induction 1 as [|a m Hm IH Hf]; constructor; [|done]. intros Ha. rewrite Forall_forall in Hf. specialize (Hf a Ha). lia. }
  apply (StronglySorted_unique_strong lt); [intros; lia|done..|]. apply NoDup_Permutation; [by apply Hnd..|].
  intros y. by rewrite (Hl x y Hx), (Hl' x y Hx').
Qed.

(** The groups of the union-find are the components. *)
Lemma groups_spec links : records (found events cfg) links ->
  exists comps, Dsu.components (length events) (link_order links).*1 = Some comps /\
    NoDup (group_order comps).*2 /\ forall l, l ∈ (group_order comps).*2 <-> component l.
Proof using HL.
  intros Hr. destruct (Dsu.components_spec (length events) (link_order links).*1) as (comps & Hc & Hcov & Hsort & Hdis & Hcl).
  { apply Forall_forall. intros [i j] [_ [s Hs]]%keys_linked; [|done]. cbn.
    destruct Hs as [Hs|Hs]; apply found_range in Hs; tauto. }
  exists comps. split; [done|].
  assert (forall r l, comps !! r = Some l -> component l) as Hcomp.
  { intros r l Hl. destruct (Hsort r l Hl) as [? ?]. split_and!; [done..|]. intros x y Hx. by rewrite (Hcl r l x y Hl Hx), rtsc_keys. }
  assert (forall l, l ∈ (group_order comps).*2 <-> exists r, comps !! r = Some l) as Hin.
  { intros l. rewrite group_order_perm, list_elem_of_fmap. setoid_rewrite elem_of_map_to_list'. split.
    - intros ([r m] & -> & Hl). by exists r.
    - intros [r Hl]. by exists (r, l). }
  split.
  - rewrite group_order_perm. apply NoDup_fmap_2_strong; [|apply NoDup_map_to_list].
    intros [r l] [r' l'] Hl%elem_of_map_to_list Hl'%elem_of_map_to_list Heq. cbn in *. subst l'.
    destruct (Hsort r l Hl) as [Hne _]. destruct l as [|x l]; [done|].
    by rewrite (Hdis r (x :: l) r' (x :: l) x Hl Hl') by (by left).
  - intros l. rewrite Hin. split; [by intros [r Hl]; eapply Hcomp|]. intros Hl. pose proof Hl as (Hne & _ & Hx).
    destruct l as [|x l]; [done|]. assert (x < length events) as Hlt by (eapply (Hx x x); by left).
    destruct (Hcov x Hlt) as (r & l' & Hr' & Hxl'). exists r. rewrite Hr'. f_equal.
    eapply (component_unique _ _ x); [by eapply Hcomp|done..|by left].
Qed.
End links.

(** ** The theorem *)

(** Selecting a list whose images are described. *)
Lemma omap_described {A B} (f : A -> option B) (Q : A -> Prop) (R : A -> B -> Prop) (l : list A) :
  (forall a, a ∈ l -> match f a with Some b => Q a /\ R a b | None => ~ Q a end) ->
  exists l', l' `sublist_of` l /\ (forall a, a ∈ l' <-> a ∈ l /\ Q a) /\ Forall2 R l' (omap f l).
Proof.
  induction l as [|a l IH]; intros H; [exists []; split_and!; [constructor|set_solver|constructor]|].
  destruct IH as (l' & Hsub & Hin & HR); [intros b Hb; apply H; by right|]. specialize (H a ltac:(by left)). cbn.
  destruct (f a) as [b|].
  - destruct H as [Hq Hr]. exists (a :: l'). split_and!; [by constructor| |by constructor].
    intros c. rewrite !elem_of_cons, Hin. naive_solver.
  - exists l'. split_and!; [by constructor| |done]. intros c. rewrite elem_of_cons, Hin. naive_solver.
Qed.

Lemma Forall2_number {A} (R : A -> CampaignCandidate -> Prop) l cs : (forall a c i, R a c -> R a (number i c)) ->
  Forall2 R l cs -> Forall2 R l (imap number cs).
Proof.
  intros HR Hf. rewrite Forall2_lookup in *. intros i. specialize (Hf i). rewrite list_lookup_imap.
  destruct Hf; constructor. by apply HR.
Qed.

Lemma number_sorted l : StronglySorted (fun a b => (f32_key (ca_score b) <= f32_key (ca_score a))%Z) l ->
  StronglySorted (fun a b => (f32_key (ca_score b) <= f32_key (ca_score a))%Z) (imap number l).
Proof.
  intros Hs. change (imap number l) with (imap (fun i => number (id i)) l). generalize (@id nat).
  induction Hs as [|c l Hs IH Hf]; intros f; [constructor|]. cbn. constructor; [apply (IH (fun i => f (S i)))|].
  rewrite Forall_forall in *. intros d (i & e & -> & He)%elem_of_lookup_imap_1. cbn. eapply Hf. by eapply list_elem_of_lookup_2.
Qed.

Lemma build_campaigns_groups `{Embedder} `{HashOrderLaws} events cfg :
  exists cs groups, build_campaigns events cfg = Some cs /\
    NoDup groups /\ (forall l, l ∈ groups <-> component events cfg l /\ eligible events cfg l) /\
    Forall2 (describes events cfg) groups cs /\
    ca_id <$> cs = seq 0 (length cs) /\
    StronglySorted (fun a b => (f32_key (ca_score b) <= f32_key (ca_score a))%Z) cs.
Proof.
  unfold build_campaigns. destruct (is_nil events) eqn:Hnil.
  { destruct events; [|done]. exists [], []. split; [done|]. split; [constructor|]. split; [|by split_and!; constructor].
    intros l. split; [by intros ?%not_elem_of_nil|]. intros [(Hne & _ & Hx) _]. destruct l as [|x l]; [done|].
    destruct (proj1 (Hx x x ltac:(by left)) ltac:(by left)) as [Hlt _]. cbn in Hlt. lia. }
  destruct (all_links_spec events cfg) as (links & -> & Hr). destruct (groups_spec events cfg links Hr) as (comps & Hc & Hnd & Hin).
  cbn [mbind option_bind]. rewrite Hc. cbn [mbind option_bind].
  destruct (omap_described (candidate_of events cfg links) (eligible events cfg) (describes events cfg) (group_order comps).*2)
    as (groups & Hsub & Hgin & Hdesc).
  { intros l _. by apply candidate_of_spec. }
  assert (omap (candidate_of events cfg links) (group_order comps).*2 = omap (fun c => candidate_of events cfg links c.2) (group_order comps)) as Hom.
  { clear. induction (group_order comps) as [|c m IH]; cbn; [done|]. by rewrite IH. }
  rewrite Hom in Hdesc. set (key := fun c => (- f32_key (ca_score c))%Z). pose proof (sort_by_key_sorted key) as Hs.
  apply Forall2_flip in Hdesc.
  destruct (Permutation_Forall2 (Permutation_sym (sort_by_key_perm key _)) Hdesc) as (groups' & Hp & Hf). apply Forall2_flip in Hf.
  eexists _, groups'. split; [done|]. split_and!.
  - rewrite <- Hp. exact (sublist_NoDup _ _ Hnd Hsub).
  - intros l. by rewrite <- Hp, Hgin, Hin.
  - apply Forall2_number; [done|exact Hf].
  - rewrite length_imap, fmap_imap. rewrite <- (list_fmap_id (seq 0 _)). exact (imap_seq_0 _ (fun i => i)).
  - apply number_sorted. eapply StronglySorted_impl; [|apply Hs]. unfold key. cbn. lia.
Qed.

(** C7: Campaign candidates.  Building the campaigns of a batch never leaves a
    bound: whatever the embedding model, the configuration and the orders in
    which hash tables are read, it returns a list with one candidate for each
    connected component of the linked events that has two events, and two
    classes where that is asked, and no other.  Two events are linked when
    they are within the window and one is among the nearest of the other, at
    the threshold or above, or shares an entity with it.  A candidate lists
    the ids of its events by time and id, the classes they span, without
    repetition and in order, how many pairs of its events are linked, and its
    score from the best similarity of each pair.  The candidates come by
    descending score, and are numbered in that order. *)
Theorem build_campaigns_spec `{Embedder} `{HashOrderLaws} events cfg :
  exists cs groups, build_campaigns events cfg = Some cs /\
    NoDup groups /\ (forall l, l ∈ groups <-> component events cfg l /\ eligible events cfg l) /\
    Forall2 (describes events cfg) groups cs /\
    ca_id <$> cs = seq 0 (length cs) /\
    StronglySorted (fun a b => (f32_key (ca_score b) <= f32_key (ca_score a))%Z) cs.
Proof. apply build_campaigns_groups. Qed.

(** Entries in the order of their keys. *)
#[local] Instance sorted_order : HashOrder := { id_order := elements; link_order := map_to_list; group_order := map_to_list }.
#[local] Instance sorted_order_laws : HashOrderLaws.
Proof. by split. Qed.

(** A log-in, and a process started by the same user a minute later. *)
Definition demo_event (id : string) (ts : Z) (c : OcsfClass) (user : string) : Event :=
  mkEvent id ts ts c "t" Unknown None (Some (mkEntity "user" user None)) None "" [] None [] "".
Definition demo_events : list Event :=
  [demo_event "a" 0 Authentication "root"; demo_event "b" 60000000 ProcessActivity "root"; demo_event "c" 0 FileSystemActivity "www"].
Definition demo_ids : list string := ["a"; "b"].
#[local] Instance demo_embedder : Embedder := { embed_dim := 2; embed := fun _ => [f32_of 0; f32_of 0] }.

Example build_campaigns_witness : exists cs groups, build_campaigns demo_events CampaignConfig_default = Some cs /\
  Forall2 (describes demo_events CampaignConfig_default) groups cs /\ ca_events <$> cs = [demo_ids].
Proof.
  destruct (build_campaigns_spec demo_events CampaignConfig_default) as (cs & groups & Hb & _ & _ & Hf & _).
  exists cs, groups. split_and!; [done..|].
  assert (option_map (map ca_events) (build_campaigns demo_events CampaignConfig_default) = Some [demo_ids]) as Hv by (vm_compute; reflexivity).
  rewrite Hb in Hv. by injection Hv.
Defined.
