(* ===== verification/Incident.v ===== *)
(** * [sigil-correlate/src/incident.rs] and path selection

    The interface of a path selector ([sigil-core/src/plugin.rs]), its two
    implementations (the beam search of [Causal] and the greedy policy of
    [sigil-correlate-rl]) and the assembly of an incident from a campaign
    candidate, proved against the interface.  The greedy rollout carries fuel,
    one more than the number of nodes. *)

From stdpp Require Import gmap strings list sorting.
From Stdlib Require Import SpecFloat.
From S2P Require Import Prelude Utf8 Containers Core Float Graph Embed Causal Campaigns.

(** ** Path selectors *)

(** [trait PathSelector]. *)
Class PathSelector := select : CausalGraph -> option AttackChain.

(** A path of the graph without repetition. *)
Definition simple_path (g : CausalGraph) (p : list nat) : Prop := exists s, walk g (p, s).

(** What the users of a selector rely on. *)
Class PathSelectorLaws `{PathSelector} : Prop := {
  select_empty g : cg_nodes g = [] -> exists c, select g = Some c /\ ch_path c = [];
  select_path g : graph_wf g -> cg_nodes g <> [] -> exists c, select g = Some c /\ simple_path g (ch_path c)
}.

(** [BeamSearchSelector::new(w)]. *)
Definition BeamSearchSelector (width : nat) : PathSelector := fun g => beam_select g width.

(** *** The greedy policy of [sigil-correlate-rl] *)

Section rl.
Context (gamma : f32) (g : CausalGraph).

Definition rl_future (n : nat) : f32 := foldl f32_max (f32_of 0) (ce_score <$> outgoing g n).
Definition rl_q (e : CausalEdge) : f32 := f32_add (ce_score e) (f32_mul gamma (rl_future (ce_to e))).

(** The edge of the highest value to a node that is not on the path, with its value. *)
Fixpoint rl_choose (path : list nat) (edges : list CausalEdge) (best : option (CausalEdge * f32)) : option (CausalEdge * f32) :=
  match edges with
  | [] => best
  | e :: edges =>
      if bool_decide (ce_to e ∈ path) then rl_choose path edges best
      else
        let q := rl_q e in
        let better := match best with Some b => f32_lt b.2 q | None => true end in
        rl_choose path edges (if better then Some (e, q) else best)
  end.

Fixpoint rl_loop (fuel : nat) (path : list nat) (cur : nat) (total : f32) : option AttackChain :=
  match fuel with
  | O => None
  | S fuel =>
      match rl_choose path (outgoing g cur) None with
      | Some (e, _) =>
          bonus ← node_bonus g (ce_to e);
          rl_loop fuel (path ++ [ce_to e]) (ce_to e) (f32_add total (f32_add (ce_score e) bonus))
      | None => Some (mkChain path total)
      end
  end.

Definition rl_rollout (start : nat) : option AttackChain :=
  total ← node_bonus g start; rl_loop (S (length (cg_nodes g))) [start] start total.

Fixpoint rl_best (starts : list nat) (best : AttackChain) : option AttackChain :=
  match starts with
  | [] => Some best
  | n :: starts =>
      chain ← rl_rollout n;
      rl_best starts (if f32_lt (ch_score best) (ch_score chain) then chain else best)
  end.

Definition rl_select : option AttackChain :=
  if is_nil (cg_nodes g) then Some (mkChain [] (S754_zero false))
  else rl_best (seq 0 (length (cg_nodes g))) (mkChain [0] f32_lowest).
End rl.

(** [RlPathSelector::new(gamma)] and its default. *)
Definition RlPathSelector (gamma : f32) : PathSelector := rl_select gamma.
Definition GAMMA : f32 := f32_lit 1 2.

(** ** Incidents *)

Record IncidentStep : Type := mkStep {
  is_event_id : string; is_label : string; is_ts : Z; is_tactic : option string; is_technique : option string; is_anomaly : f32
}.
Record Incident : Type := mkIncident {
  in_id : nat; in_events : list string; in_chain : list IncidentStep; in_tactics : list string;
  in_techniques : list string; in_confidence : f32; in_explanation : list string
}.

(** [format!("{:.2}")] of an [f32]. *)
Class FloatFixed32 := f32_fixed : nat -> f32 -> string.

Definition by_id (all_events : list Event) : gmap string Event := foldl (fun m ev => <[ev_id ev := ev]> m) ∅ all_events.

Definition step_at (g : CausalGraph) (n : nat) : option IncidentStep :=
  nd ← cg_nodes g !! n;
  Some (mkStep (cn_event_id nd) (cn_label nd) (cn_ts nd) (cn_tactic nd) (cn_technique nd) (cn_anomaly nd)).

Definition explain `{FloatFixed32} (b : CausalBuild) (w : nat * nat) : option string :=
  let g := cb_graph b in
  let reason := default "" (cb_reasons b !! w) in
  let score := default (f32_of 0) (ce_score <$> head (filter (fun e => ce_to e = w.2) (outgoing g w.1))) in
  na ← cg_nodes g !! w.1; nb ← cg_nodes g !! w.2;
  Some (cn_label na +:+ " → " +:+ cn_label nb +:+ " (" +:+ reason +:+ "; causal=" +:+ f32_fixed 2 score +:+ ")").

Definition distinct (l : list string) : list string := foldl (fun out x => if bool_decide (x ∈ out) then out else out ++ [x]) [] l.

Definition confidence (steps : list IncidentStep) (tactics : list string) : f32 :=
  if (length steps <? 2)%nat then f32_of 0
  else
    let avg_anomaly := f32_div (f32_sum (is_anomaly <$> steps)) (f32_of (length steps)) in
    let len_term := f32_mul (f32_lit 15 100) (f32_sub (f32_of (length steps)) (f32_of 1)) in
    let tactic_term := f32_mul (f32_lit 10 100) (f32_max (f32_sub (f32_of (length tactics)) (f32_of 1)) (f32_of 0)) in
    f32_clamp (f32_add (f32_add (f32_add (f32_lit 2 10) len_term) tactic_term) (f32_mul (f32_lit 3 10) avg_anomaly))
      (f32_of 0) (f32_lit 99 100).

Section incident.
Context `{Casing} `{FloatFixed} `{FloatFixed32} `{PathSelector}.

Definition build_incident (id : nat) (candidate : CampaignCandidate) (all_events : list Event)
    (techniques : gmap string string) (cfg : CausalConfig) : option Incident :=
  let events := omap (fun id => by_id all_events !! id) (ca_events candidate) in
  let build := build_causal_graph techniques cfg events in
  chain ← select (cb_graph build);
  steps ← mapM (step_at (cb_graph build)) (ch_path chain);
  explanation ← mapM (explain build) (windows2 (ch_path chain));
  let tactics := distinct (omap is_tactic steps) in
  Some (mkIncident id (ca_events candidate) steps tactics (distinct (omap is_technique steps)) (confidence steps tactics) explanation).

(** The incidents of a list of candidates, numbered in their order. *)
Fixpoint build_incidents (i : nat) (candidates : list CampaignCandidate) (all_events : list Event)
    (techniques : gmap string string) (cfg : CausalConfig) : option (list Incident) :=
  match candidates with
  | [] => Some []
  | c :: cs =>
      inc ← build_incident i c all_events techniques cfg;
      rest ← build_incidents (S i) cs all_events techniques cfg;
      Some (inc :: rest)
  end.
End incident.

(** ** The selectors keep the interface *)

Lemma beam_laws width : PathSelectorLaws (H := BeamSearchSelector width).
Proof.
  split; unfold select, BeamSearchSelector, beam_select.
  - intros g Hg. unfold beam_search. rewrite Hg. by eexists.
  - intros g Hwf Hne. destruct (beam_search_spec g Hwf (width `max` 1) Hne) as ([p s] & Hb & Hw & _).
    eexists. split; [exact Hb|]. by exists s.
Qed.

Section rl_spec.
Context (gamma : f32) (g : CausalGraph) (Hwf : graph_wf g).
#[local] Abbreviation size := (length (cg_nodes g)).

(** The edges from [n] to nodes that are not on the path. *)
Definition open_edge (p : list nat) (n : nat) (e : CausalEdge) : Prop := e ∈ outgoing g n /\ ~ ce_to e ∈ p.

(** A path each of whose edges had the highest value of those open. *)
Inductive greedy : list nat -> Prop :=
  | greedy_one n : n < size -> greedy [n]
  | greedy_step p n e : greedy p -> last p = Some n -> open_edge p n e ->
      (forall e', open_edge p n e' -> f32_lt (rl_q gamma g e) (rl_q gamma g e') = false) -> greedy (p ++ [ce_to e]).

Definition stuck (p : list nat) : Prop := forall n e, last p = Some n -> ~ open_edge p n e.

Lemma rl_choose_spec p edges best :
  match rl_choose gamma g p edges best with
  | Some (e, q) =>
      (best = Some (e, q) \/ (e ∈ edges /\ ~ ce_to e ∈ p /\ q = rl_q gamma g e)) /\
      (forall b y, best = Some b -> f32_lt b.2 y = false -> f32_lt q y = false) /\
      forall e', e' ∈ edges -> ~ ce_to e' ∈ p -> f32_lt q (rl_q gamma g e') = false
  | None => best = None /\ forall e, e ∈ edges -> ce_to e ∈ p
  end.
Proof.
  revert best. induction edges as [|e edges IH]; intros best; cbn [rl_choose].
  { destruct best as [[e q]|]; [|split; [done|by intros e ?%not_elem_of_nil]]. split_and!; [by left| |by intros e' ?%not_elem_of_nil].
    by intros b y [= <-]. }
  case_bool_decide as Hp.
  { specialize (IH best). destruct (rl_choose _ _ _ _ _) as [[e1 q]|].
    - destruct IH as (Hin & Hb & Hall). split_and!; [|done|].
      + destruct Hin as [?|[? ?]]; [by left|right; split; [by right|done]].
      + intros e' [->|He']%elem_of_cons; [done|by apply Hall].
    - destruct IH as [Hn Hall]. split; [done|]. intros e' [->|He']%elem_of_cons; [done|by apply Hall]. }
  set (b' := if _ : bool then _ else _). specialize (IH b').
  assert (exists x, b' = Some x /\ f32_lt x.2 (rl_q gamma g e) = false /\
    (forall b y, best = Some b -> f32_lt b.2 y = false -> f32_lt x.2 y = false) /\
    (best = Some x \/ x = (e, rl_q gamma g e))) as (x & Hx & Hxe & Hxb & Hor).
  { subst b'. destruct best as [b|]; [|eexists; split; [done|]; split_and!; auto using f32_lt_irrefl; done].
    destruct (f32_lt b.2 (rl_q gamma g e)) eqn:Hlt; eexists; (split; [done|]); split_and!; auto using f32_lt_irrefl; intros b0 y [= <-] Hy; [|done].
    cbn. destruct (f32_lt (rl_q gamma g e) y) eqn:Hlt'; [|done]. by rewrite (f32_lt_trans _ _ _ Hlt Hlt') in Hy. }
  destruct (rl_choose _ _ _ _ _) as [[e1 q]|]; [|by destruct IH as [? _]; congruence].
  destruct IH as (Hin & Hb & Hall). split_and!.
  - destruct Hin as [Hin|(? & ? & ?)]; [|right; split_and!; [by right|done..]].
    destruct Hor as [Hor| ->]; [left; congruence|]. rewrite Hin in Hx. injection Hx as -> ->. right. split_and!; [by left|done..].
  - intros b y Hbest Hy. eapply Hb; [exact Hx|]. by eapply Hxb.
  - intros e' [->|He']%elem_of_cons He; [|by apply Hall]. by eapply Hb.
Qed.

Lemma rl_loop_spec fuel p n total s : walk g (p, s) -> greedy p -> last p = Some n -> size - length p < fuel ->
  exists c, rl_loop gamma g fuel p n total = Some c /\ simple_path g (ch_path c) /\ greedy (ch_path c) /\ stuck (ch_path c) /\
    p `prefix_of` ch_path c.
Proof.
  revert p n total s. induction fuel as [|fuel IH]; intros p n total s Hw Hg Hlast Hf; [lia|]. cbn [rl_loop].
  pose proof (rl_choose_spec p (outgoing g n) None) as Hc. destruct (rl_choose _ _ _ _ _) as [[e q]|].
  - destruct Hc as ([?|(He & Hnew & ->)] & _ & Hmax); [done|]. pose proof He as [Hfrom Hin]%list_elem_of_filter.
    assert (ce_to e < size) as Hlt by (pose proof (gw_range g Hwf) as Hr; rewrite Forall_forall in Hr; by apply Hr).
    destruct (bonus_Some g _ Hlt) as [b Hb]. rewrite Hb. cbn [mbind option_bind].
    assert (walk g (p ++ [ce_to e], f32_add (f32_add s (ce_score e)) b)) as Hw'.
    { eapply walk_step; [exact Hw|]. constructor; [by rewrite Hlast, <- Hfrom|done..]. }
    pose proof (walk_length g Hwf _ Hw') as Hlen. cbn in Hlen. rewrite length_app in Hlen. cbn in Hlen.
    destruct (IH (p ++ [ce_to e]) (ce_to e) (f32_add total (f32_add (ce_score e) b)) _ Hw') as (c & -> & Hp & Hg' & Hst & Hpre).
    + eapply greedy_step; [done..|]. intros e' [? ?]. by apply Hmax.
    + by rewrite last_snoc.
    + rewrite length_app. cbn. lia.
    + exists c. split_and!; [done..|]. etransitivity; [|exact Hpre]. by exists [ce_to e].
  - eexists. split; [done|]. cbn [ch_path]. split_and!; [by exists s|done| |done].
    intros n' e Hn' [He Hnew]. destruct Hc as [_ Hc]. apply Hnew, Hc. congruence.
Qed.

Lemma rl_rollout_spec n : n < size -> exists c, rl_rollout gamma g n = Some c /\ simple_path g (ch_path c) /\ greedy (ch_path c) /\
  stuck (ch_path c) /\ head (ch_path c) = Some n.
Proof.
  intros Hn. unfold rl_rollout. destruct (bonus_Some g n Hn) as [b Hb]. rewrite Hb. cbn [mbind option_bind].
  destruct (rl_loop_spec (S size) [n] n b b) as (c & -> & Hp & Hg & Hs & [p' Hpre]); [by constructor|by constructor|done|cbn; lia|].
  exists c. split_and!; [done..|]. by rewrite Hpre.
Qed.

Lemma rl_best_spec starts best : Forall (fun n => n < size) starts ->
  exists c, rl_best gamma g starts best = Some c /\
    (c = best \/ exists n, n ∈ starts /\ rl_rollout gamma g n = Some c) /\
    (forall y, f32_lt (ch_score best) y = false -> f32_lt (ch_score c) y = false) /\
    forall n c', n ∈ starts -> rl_rollout gamma g n = Some c' -> f32_lt (ch_score c) (ch_score c') = false.
Proof.
  intros Hall. revert best. induction Hall as [|n starts Hn _ IH]; intros best; cbn [rl_best].
  { exists best. split_and!; [done|by left|done|]. by intros n c' ?%not_elem_of_nil. }
  destruct (rl_rollout_spec n Hn) as (c0 & Hc0 & _). rewrite Hc0. cbn [mbind option_bind].
  set (b := if f32_lt _ _ then c0 else best).
  assert (f32_lt (ch_score b) (ch_score c0) = false /\ forall y, f32_lt (ch_score best) y = false -> f32_lt (ch_score b) y = false) as [Hb0 Hbb].
  { subst b. destruct (f32_lt (ch_score best) (ch_score c0)) eqn:Hlt; [|done]. split; [apply f32_lt_irrefl|].
    intros y Hy. destruct (f32_lt (ch_score c0) y) eqn:Hy'; [|done]. by rewrite (f32_lt_trans _ _ _ Hlt Hy') in Hy. }
  destruct (IH b) as (c & -> & Hin & Hkeep & Hmax). exists c. split_and!; [done| |auto|].
  - destruct Hin as [->|(m & Hm & Hr)]; [|right; exists m; split; [by right|done]].
    subst b. destruct (f32_lt (ch_score best) (ch_score c0)); [right; exists n; split; [by left|done]|by left].
  - intros m c' [->|Hm]%elem_of_cons Hr; [|by eapply Hmax]. apply Hkeep. congruence.
Qed.
End rl_spec.

Lemma rl_select_spec gamma g : graph_wf g -> cg_nodes g <> [] ->
  exists c, rl_select gamma g = Some c /\ simple_path g (ch_path c) /\
    (c = mkChain [0] f32_lowest \/ exists n, rl_rollout gamma g n = Some c /\ greedy gamma g (ch_path c) /\ stuck g (ch_path c)) /\
    forall n c', rl_rollout gamma g n = Some c' -> f32_lt (ch_score c) (ch_score c') = false.
Proof.
  intros Hwf Hne. unfold rl_select. destruct (is_nil (cg_nodes g)) eqn:Hnil; [by destruct (cg_nodes g)|].
  assert (0 < length (cg_nodes g)) as Hpos by (destruct (cg_nodes g); [done|cbn; lia]).
  destruct (rl_best_spec gamma g Hwf (seq 0 (length (cg_nodes g))) (mkChain [0] f32_lowest)) as (c & -> & Hin & _ & Hmax).
  { apply Forall_forall. intros n Hn%elem_of_seq. lia. }
  exists c. split; [done|].
  assert ((c = mkChain [0] f32_lowest /\ simple_path g [0]) \/ exists n, rl_rollout gamma g n = Some c /\ simple_path g (ch_path c) /\
    greedy gamma g (ch_path c) /\ stuck g (ch_path c)) as Hc.
  { destruct Hin as [->|(n & Hn%elem_of_seq & Hr)].
    - left. split; [done|]. destruct (bonus_Some g 0 Hpos) as [b Hb]. exists b. by constructor.
    - right. exists n. destruct (rl_rollout_spec gamma g Hwf n) as (c' & Hr' & ? & ? & ? & _); [lia|].
      rewrite Hr in Hr'. injection Hr' as <-. by split_and!. }
  split_and!.
  - destruct Hc as [[-> Hs]|(n & _ & ? & _)]; done.
  - destruct Hc as [[-> Hs]|(n & ? & _ & ? & ?)]; [by left|right; by exists n].
  - intros n c' Hr. eapply Hmax; [|done]. apply elem_of_seq. split; [lia|]. cbn.
    unfold rl_rollout in Hr. destruct (node_bonus g n) eqn:Hb; [|done]. by eapply bonus_lt.
Qed.

Lemma rl_laws gamma : PathSelectorLaws (H := RlPathSelector gamma).
Proof.
  split; unfold select, RlPathSelector.
  - intros g Hg. unfold rl_select. rewrite Hg. by eexists.
  - intros g Hwf Hne. destruct (rl_select_spec gamma g Hwf Hne) as (c & Hc & Hs & _). by exists c.
Qed.

(** ** Incidents *)

(** The positions of a path, in order, pick a part of the list. *)
Lemma sublist_of_positions {A} (l : list A) p : StronglySorted lt p -> Forall (fun n => n < length l) p ->
  exists sub, mapM (fun n => l !! n) p = Some sub /\ sub `sublist_of` l.
Proof.
  intros Hs Hlt. cut (forall k, Forall (le k) p -> exists sub, mapM (fun n => l !! n) p = Some sub /\ sub `sublist_of` drop k l).
  { intros Hgen. destruct (Hgen 0) as (sub & Hm & Hsub); [apply Forall_forall; lia|]. by exists sub. }
  induction Hs as [|n p Hs IH Hf]; intros k Hk; [exists []; split; [done|apply sublist_nil_l]|].
  apply Forall_cons in Hlt as [Hn Hlt], Hk as [Hkn _]. destruct (lookup_lt_is_Some_2 l n Hn) as [x Hx].
  destruct (IH Hlt (S n)) as (sub & Hm & Hsub); [eapply Forall_impl; [exact Hf|]; cbn; lia|].
  exists (x :: sub). cbn. rewrite Hx. cbn. rewrite Hm. split; [done|]. transitivity (drop n l).
  - rewrite (drop_S l x n Hx). by constructor.
  - replace n with (k + (n - k)) by lia. rewrite <- drop_drop. apply sublist_drop.
Qed.

Lemma sublist_sorted {A} (R : relation A) l l' : l' `sublist_of` l -> StronglySorted R l -> StronglySorted R l'.
Proof.
  induction 1 as [|x l' l Hsub IH|x l' l Hsub IH]; intros Hs; [constructor| |]; apply StronglySorted_inv in Hs as [Hs Hf]; [|auto].
  constructor; [auto|]. rewrite Forall_forall in *. intros y Hy. apply Hf. eapply elem_of_submseteq; [exact Hy|by apply sublist_submseteq].
Qed.

Lemma walk_edge g x k a b : walk g x -> x.1 !! k = Some a -> x.1 !! S k = Some b ->
  exists e, e ∈ cg_edges g /\ ce_from e = a /\ ce_to e = b.
Proof.
  induction 1 as [n s Hb|x y Hw IH Hs]; intros Ha Hb'; [done|]. destruct Hs as [p s e bn Hlast He _ _]. cbn in *.
  destruct (decide (S k < length p)) as [Hlt|Hge].
  - rewrite lookup_app_l in Ha, Hb' by lia. auto.
  - pose proof (lookup_lt_Some _ _ _ Hb') as Hk. rewrite length_app in Hk. cbn in Hk.
    rewrite lookup_app_r in Hb' by lia. replace (S k - length p) with 0 in Hb' by lia. cbn in Hb'. injection Hb' as <-.
    rewrite lookup_app_l in Ha by lia. rewrite last_lookup in Hlast. replace (pred (length p)) with k in Hlast by lia.
    exists e. split_and!; [done|congruence|done].
Qed.

Lemma windows2_lookup {A} (l : list A) k a b : windows2 l !! k = Some (a, b) <-> l !! k = Some a /\ l !! S k = Some b.
Proof.
  revert k. induction l as [|x l IH]; intros k; [split; [done|by intros [? ?]]|]. destruct l as [|y l]; [split; [done|by intros [_ ?]]|].
  destruct k as [|k]; [cbn; naive_solver|]. apply (IH k).
Qed.

Lemma windows2_length {A} (l : list A) : length (windows2 l) = pred (length l).
Proof. induction l as [|x [|y l] IH]; [done..|]. cbn in *. by rewrite IH. Qed.

Lemma distinct_spec l : NoDup (distinct l) /\ forall x, x ∈ distinct l <-> x ∈ l.
Proof.
  unfold distinct. cut (forall out, NoDup out -> let r := foldl (fun out x => if bool_decide (x ∈ out) then out else out ++ [x]) out l in
    NoDup r /\ forall x, x ∈ r <-> x ∈ out \/ x ∈ l).
  { intros Hgen. destruct (Hgen []) as [Hn Hx]; [constructor|]. split; [done|]. intros x. rewrite Hx. set_solver. }
  induction l as [|y l IH]; intros out Hout; cbn; [set_solver|]. case_bool_decide as Hy.
  - destruct (IH out Hout) as [Hn Hx]. split; [done|]. set_solver.
  - destruct (IH (out ++ [y])) as [Hn Hx]; [apply NoDup_app; split_and!; [done|set_solver|apply NoDup_singleton]|].
    split; [done|]. intros x. rewrite Hx. set_solver.
Qed.

Lemma clamp_bounds a lo hi : f32_lt hi lo = false -> f32_lt (f32_clamp a lo hi) lo = false /\ f32_lt hi (f32_clamp a lo hi) = false.
Proof.
  intros Hle. unfold f32_clamp. destruct (f32_lt a lo) eqn:Ha.
  - rewrite Hle. split; [apply f32_lt_irrefl|done].
  - destruct (f32_lt hi a) eqn:Hb; [|done]. split; [done|apply f32_lt_irrefl].
Qed.

Lemma confidence_bounds steps tactics :
  f32_lt (confidence steps tactics) (f32_of 0) = false /\ f32_lt (f32_lit 99 100) (confidence steps tactics) = false.
Proof.
  unfold confidence. case_match; [split; vm_compute; reflexivity|]. apply clamp_bounds. vm_compute. reflexivity.
Qed.

Section assembly.
Context `{Casing} `{FloatFixed} `{FloatFixed32} `{PathSelectorLaws}.

(** The step of an event. *)
Definition step_of (techniques : gmap string string) (ev : Event) : IncidentStep :=
  mkStep (ev_id ev) (label_for ev) (ev_ts ev) (Some (tactic_for (techniques !! ev_id ev) (ocsf_class ev))) (techniques !! ev_id ev) (anomaly_score ev).

(** The events of a candidate, as the incident sees them, in order of time. *)
Definition known_events (candidate : CampaignCandidate) (all_events : list Event) : list Event :=
  sort_by_key ev_ts (omap (fun id => by_id all_events !! id) (ca_events candidate)).

(** Why one event follows another. *)
Definition explanation_of (a b : Event) : string :=
  label_for a +:+ " → " +:+ label_for b +:+ " (shares " +:+ join ", " (shared_entities a b) +:+ "; Δt=" +:+ human_dt (delta a b) +:+
  "; causal=" +:+ f32_fixed 2 (edge_score a b) +:+ ")".

Section one.
Context (techniques : gmap string string) (cfg : CausalConfig) (events : list Event).
#[local] Abbreviation ordered := (sort_by_key ev_ts events).
#[local] Abbreviation built := (build_causal_graph techniques cfg events).

Lemma step_at_built n ev : ordered !! n = Some ev -> step_at (cb_graph built) n = Some (step_of techniques ev).
Proof. intros Hn. unfold step_at. cbn. rewrite list_lookup_fmap, Hn. done. Qed.

Lemma explain_built i j a b : ordered !! i = Some a -> ordered !! j = Some b ->
  (exists e, e ∈ cg_edges (cb_graph built) /\ ce_from e = i /\ ce_to e = j) ->
  explain built (i, j) = Some (explanation_of a b) /\ (delta a b <= cc_window_micros cfg)%Z /\ shared_entities a b <> [].
Proof.
  intros Ha Hb (e & He & Hi & Hj).
  assert (forall e r, (e, r) ∈ edges_from cfg 0 ordered -> ce_from e = i -> ce_to e = j ->
    ce_score e = edge_score a b /\ r = "shares " +:+ join ", " (shared_entities a b) +:+ "; Δt=" +:+ human_dt (delta a b) /\
    (delta a b <= cc_window_micros cfg)%Z /\ shared_entities a b <> []) as Hedge.
  { intros e' r' (i' & j' & a' & b' & (Ha' & Hb' & _ & Hd & Hk) & -> & ->)%built_edge. cbn. intros -> ->. simplify_eq.
    split_and!; [done..|]. apply shared_entities_nil in Hk. by intros Hn; rewrite Hn in Hk. }
  cbn in He. apply list_elem_of_fmap in He as ([e0 r] & -> & Her). cbn in Hi, Hj.
  destruct (Hedge e0 r Her Hi Hj) as (Hs & Hr & Hd & Hsh). split; [|done].
  unfold explain. cbn [fst snd].
  assert (cb_reasons built !! (i, j) = Some r) as ->.
  { cbn. apply reasons_spec; [apply edges_functional|]. exists e0. split; [done|congruence]. }
  assert (exists e1, head (filter (fun e => ce_to e = j) (outgoing (cb_graph built) i)) = Some e1 /\ ce_score e1 = edge_score a b) as (e1 & -> & Hs1).
  { assert (e0 ∈ filter (fun e => ce_to e = j) (outgoing (cb_graph built) i)) as Hin.
    { apply list_elem_of_filter. split; [done|]. apply list_elem_of_filter. split; [done|]. cbn. apply list_elem_of_fmap. by exists (e0, r). }
    destruct (filter _ _) as [|e1 es] eqn:Hf; [by apply not_elem_of_nil in Hin|]. exists e1. split; [done|].
    assert (e1 ∈ filter (fun e => ce_to e = j) (outgoing (cb_graph built) i)) as Hin1 by (rewrite Hf; by left).
    apply list_elem_of_filter in Hin1 as [Hj1 [Hi1 Hin1]%list_elem_of_filter]. cbn in Hin1.
    apply list_elem_of_fmap in Hin1 as ([e1' r1] & -> & Hin1). by destruct (Hedge e1' r1 Hin1 Hi1 Hj1). }
  cbn. rewrite !list_lookup_fmap, Ha, Hb. cbn. rewrite Hs1, Hr. unfold explanation_of. f_equal. rewrite <- !string_app_assoc. reflexivity.
Qed.
End one.
(** An incident, described by the events of its chain. *)
Definition incident_of (techniques : gmap string string) (cfg : CausalConfig) (candidate : CampaignCandidate)
    (all_events : list Event) (inc : Incident) : Prop :=
  exists evs, evs `sublist_of` known_events candidate all_events /\
    (evs = [] <-> known_events candidate all_events = []) /\
    in_chain inc = step_of techniques <$> evs /\
    length (in_explanation inc) = pred (length evs) /\
    forall k a b, evs !! k = Some a -> evs !! S k = Some b ->
      (delta a b <= cc_window_micros cfg)%Z /\ shared_entities a b <> [] /\ in_explanation inc !! k = Some (explanation_of a b).

Lemma explain_all techniques cfg events path evs : let g := cb_graph (build_causal_graph techniques cfg events) in
  simple_path g path -> mapM (fun n => sort_by_key ev_ts events !! n) path = Some evs ->
  exists texts, mapM (explain (build_causal_graph techniques cfg events)) (windows2 path) = Some texts /\
    length texts = pred (length evs) /\
    forall k a b, evs !! k = Some a -> evs !! S k = Some b ->
      (delta a b <= cc_window_micros cfg)%Z /\ shared_entities a b <> [] /\ texts !! k = Some (explanation_of a b).
Proof.
  cbv zeta. intros [s Hw] Hm. apply mapM_Some in Hm as Hf. pose proof (Forall2_length _ _ _ Hf) as Hlen.
  assert (forall k i j, windows2 path !! k = Some (i, j) <-> path !! k = Some i /\ path !! S k = Some j) as Hwin by (intros; apply windows2_lookup).
  assert (forall k i j a b, path !! k = Some i -> path !! S k = Some j -> evs !! k = Some a -> evs !! S k = Some b ->
    explain (build_causal_graph techniques cfg events) (i, j) = Some (explanation_of a b) /\ (delta a b <= cc_window_micros cfg)%Z /\ shared_entities a b <> []) as Hex.
  { intros k i j a b Hi Hj Ha Hb. pose proof (Forall2_lookup_lr _ _ _ _ _ _ Hf Hi Ha) as Hia. pose proof (Forall2_lookup_lr _ _ _ _ _ _ Hf Hj Hb) as Hjb.
    apply explain_built; [done..|]. by eapply (walk_edge _ (path, s)). }
  assert (forall k, k < length (windows2 path) -> exists a b t, evs !! k = Some a /\ evs !! S k = Some b /\
    (explain (build_causal_graph techniques cfg events)) <$> (windows2 path !! k) = Some (Some t)) as Hk.
  { intros k [[i j] Hij]%lookup_lt_is_Some_2. pose proof (proj1 (Hwin k i j) Hij) as [Hi Hj].
    destruct (Forall2_lookup_l _ _ _ _ _ Hf Hi) as (a & Ha & _), (Forall2_lookup_l _ _ _ _ _ Hf Hj) as (b & Hb & _).
    exists a, b, (explanation_of a b). split_and!; [done..|]. rewrite Hij. cbn. f_equal. by eapply Hex. }
  assert (exists texts, mapM (explain (build_causal_graph techniques cfg events)) (windows2 path) = Some texts) as [texts Ht].
  { apply mapM_is_Some. apply Forall_lookup. intros k w Hw'. destruct (Hk k) as (a & b & t & _ & _ & Het); [by eapply lookup_lt_Some|].
    rewrite Hw' in Het. cbn in Het. injection Het as Het. by exists t. }
  exists texts. split; [done|]. apply mapM_Some in Ht. pose proof (Forall2_length _ _ _ Ht) as Hlt.
  pose proof (windows2_length path) as Hwl.
  split; [lia|]. intros k a b Ha Hb.
  destruct (Forall2_lookup_r _ _ _ _ _ Hf Ha) as (i & Hi & _), (Forall2_lookup_r _ _ _ _ _ Hf Hb) as (j & Hj & _).
  destruct (Hex k i j a b Hi Hj Ha Hb) as (Hexp & Hd & Hs). split_and!; [done..|].
  destruct (Forall2_lookup_l _ _ _ _ _ Ht (proj2 (Hwin k i j) (conj Hi Hj))) as (t & Htk & He). cbn in He. congruence.
Qed.

Lemma build_incident_total id candidate all_events techniques cfg :
  exists inc, build_incident id candidate all_events techniques cfg = Some inc /\
    in_id inc = id /\ in_events inc = ca_events candidate /\ incident_of techniques cfg candidate all_events inc /\
    in_tactics inc = distinct (omap is_tactic (in_chain inc)) /\ in_techniques inc = distinct (omap is_technique (in_chain inc)) /\
    in_confidence inc = confidence (in_chain inc) (in_tactics inc).
Proof.
  unfold build_incident, incident_of, known_events. set (events := omap _ (ca_events candidate)). set (b := build_causal_graph techniques cfg events).
  destruct (built_wf techniques cfg events) as [Hwfb Hupb].
  assert (exists c, select (cb_graph b) = Some c /\ ((ch_path c = [] /\ events = []) \/ (simple_path (cb_graph b) (ch_path c) /\ events <> []))) as (c & Hc & Hcase).
  { destruct (decide (events = [])) as [He|He].
    - destruct (select_empty (cb_graph b)) as (c & Hc & Hp); [subst b; rewrite He; done|]. exists c. split; [done|]. by left.
    - destruct (select_path (cb_graph b)) as (c & Hc & Hp); [done| |exists c; split; [done|by right]].
      cbn. intros Hn%fmap_nil_inv. apply He. pose proof (sort_by_key_perm ev_ts events) as Hp. rewrite Hn in Hp. by apply Permutation_nil_l in Hp. }
  rewrite Hc. cbn [mbind option_bind].
  assert (StronglySorted lt (ch_path c) /\ Forall (fun n => n < length (sort_by_key ev_ts events)) (ch_path c)) as [Hs Hlt].
  { destruct Hcase as [[-> _]|[[s Hw] _]]; [split; constructor|]. split.
    - eapply (walk_increasing (cb_graph b) (ch_path c, s)); done.
    - pose proof (walk_path (cb_graph b) Hwfb _ Hw) as (_ & Hf & _). cbn in Hf. by rewrite length_fmap in Hf. }
  destruct (sublist_of_positions _ _ Hs Hlt) as (evs & Hm & Hsub).
  assert (mapM (step_at (cb_graph b)) (ch_path c) = Some (step_of techniques <$> evs)) as ->.
  { apply mapM_Some in Hm. apply mapM_Some. apply Forall2_fmap_r. eapply Forall2_impl; [exact Hm|]. cbn. intros n ev. apply step_at_built. }
  cbn [mbind option_bind].
  assert (exists texts, mapM (explain b) (windows2 (ch_path c)) = Some texts /\ length texts = pred (length evs) /\
    forall k x y, evs !! k = Some x -> evs !! S k = Some y ->
      (delta x y <= cc_window_micros cfg)%Z /\ shared_entities x y <> [] /\ texts !! k = Some (explanation_of x y)) as (texts & -> & Hlen & Htexts).
  { destruct Hcase as [[Hp _]|[Hp _]]; [|by apply explain_all]. rewrite Hp in *. injection Hm as <-. by exists []. }
  cbn [mbind option_bind]. eexists. split; [done|]. cbn. split_and!; [done..| |done|done|done].
  exists evs. split_and!; [done| |done|done|done]. split.
  - intros ->. destruct Hcase as [[_ ->]|[[s Hw] _]]; [done|]. pose proof (walk_path (cb_graph b) Hwfb _ Hw) as (_ & _ & Hne). cbn in Hne.
    apply mapM_Some, Forall2_length in Hm. by destruct (ch_path c).
  - intros Hn. rewrite Hn in Hsub. by apply sublist_nil_r in Hsub.
Qed.
End assembly.

(** ** Theorems *)

(** C8: Incidents.  Whatever lawful selector is given (the beam search of any
    width and the greedy policy are), an incident is assembled for every
    candidate without an index out of bounds.  It keeps the candidate's event
    ids; its chain is a part of the candidate's known events in the order of
    their time, empty only when none is known; each event of the chain is at
    most the window after the one before it and shares a host, actor or target
    with it, and the explanation says so, one line for each such step; its
    tactics and techniques are those of the chain, each once; its confidence
    is between 0 and 0.99. *)
Theorem build_incident_spec `{Casing} `{FloatFixed} `{FloatFixed32} `{PathSelectorLaws} id candidate all_events techniques cfg :
  exists inc, build_incident id candidate all_events techniques cfg = Some inc /\
    in_id inc = id /\ in_events inc = ca_events candidate /\
    incident_of techniques cfg candidate all_events inc /\
    StronglySorted (fun a b => (is_ts a <= is_ts b)%Z) (in_chain inc) /\
    (NoDup (in_tactics inc) /\ forall t, t ∈ in_tactics inc <-> exists s, s ∈ in_chain inc /\ is_tactic s = Some t) /\
    (NoDup (in_techniques inc) /\ forall t, t ∈ in_techniques inc <-> exists s, s ∈ in_chain inc /\ is_technique s = Some t) /\
    f32_lt (in_confidence inc) (f32_of 0) = false /\ f32_lt (f32_lit 99 100) (in_confidence inc) = false.
Proof.
  destruct (build_incident_total id candidate all_events techniques cfg) as (inc & Hb & Hid & Hev & Hof & Ht & Hq & Hc).
  exists inc. rewrite Ht, Hq, Hc. split_and!; try done; try apply distinct_spec; try apply confidence_bounds.
  - destruct Hof as (evs & Hsub & _ & -> & _). eapply (StronglySorted_fmap _ (fun a b => (ev_ts a <= ev_ts b)%Z)); [done|].
    eapply sublist_sorted; [exact Hsub|]. apply sort_by_key_sorted.
  - intros t. destruct (distinct_spec (omap is_tactic (in_chain inc))) as [_ Hx]. by rewrite Hx, list_elem_of_omap.
  - intros t. destruct (distinct_spec (omap is_technique (in_chain inc))) as [_ Hx]. by rewrite Hx, list_elem_of_omap.
Qed.

(** The greedy policy.  It is a lawful path selector for every discount.
    On a graph whose edges join its nodes, the chain it selects has a score
    that no episode from any node exceeds; unless no episode scores above the
    least number, it is an episode: a path without repetition, each step along
    an edge of the highest value among those that lead to a new node, which
    ends only where there is none. *)
Theorem rl_select_greedy gamma g : PathSelectorLaws (H := RlPathSelector gamma) /\
  (graph_wf g -> cg_nodes g <> [] ->
   exists c, rl_select gamma g = Some c /\ simple_path g (ch_path c) /\
     (c = mkChain [0] f32_lowest \/ exists n, rl_rollout gamma g n = Some c /\ greedy gamma g (ch_path c) /\ stuck g (ch_path c)) /\
     forall n c', rl_rollout gamma g n = Some c' -> f32_lt (ch_score c) (ch_score c') = false).
Proof. split; [apply rl_laws|apply rl_select_spec]. Qed.

Section demo.
#[local] Existing Instance demo_lower.
#[local] Instance demo_fixed : FloatFixed := fun _ _ => "0".
#[local] Instance demo_fixed32 : FloatFixed32 := fun _ _ => "0.00".
#[local] Instance demo_selector : PathSelector := BeamSearchSelector 4.
#[local] Instance demo_selector_laws : PathSelectorLaws := beam_laws 4.

Definition demo_candidate : CampaignCandidate := mkCandidate 0 ["a"; "b"] [] 1 (f32_of 0).

Lemma build_incident_witness : exists inc, build_incident 0 demo_candidate demo_events ∅ CausalConfig_default = Some inc /\
  is_event_id <$> in_chain inc = ["a"; "b"] /\ in_tactics inc = ["credential-access"; "execution"] /\
  StronglySorted (fun a b => (is_ts a <= is_ts b)%Z) (in_chain inc).
Proof.
  destruct (build_incident_spec 0 demo_candidate demo_events ∅ CausalConfig_default) as (inc & Hb & _ & _ & _ & Hs & _).
  exists inc. assert (option_map (fun inc => (map is_event_id (in_chain inc), in_tactics inc))
    (build_incident 0 demo_candidate demo_events ∅ CausalConfig_default) = Some (["a"; "b"], ["credential-access"; "execution"])) as Hv
    by (vm_compute; reflexivity).
  rewrite Hb in Hv. injection Hv as Hv1 Hv2. by split_and!.
Defined.

(** The greedy policy takes the dear edge at once, and misses the better way. *)
Lemma rl_select_greedy_witness : exists c, rl_select GAMMA demo_graph = Some c /\ simple_path demo_graph (ch_path c) /\
  forall n c', rl_rollout GAMMA demo_graph n = Some c' -> f32_lt (ch_score c) (ch_score c') = false.
Proof.
  destruct (rl_select_greedy GAMMA demo_graph) as [_ Hr]. destruct (Hr demo_graph_wf ltac:(discriminate)) as (c & Hc & Hp & _ & Hmax). exact (ex_intro _ c (conj Hc (conj Hp Hmax))).
Defined.
End demo.
