(* ===== verification/Metrics.v ===== *)
(** * [sigil-eval/src/metrics.rs]: scores of detection, grouping and chains

    Precision and recall, the adjusted Rand index, mutual information and the
    edit distance between kill chains.  An index out of bounds or a failed
    assertion is [None].  The natural logarithm and the orders in which hash
    tables are read are parameters. *)

From stdpp Require Import gmap strings list sorting.
From Stdlib Require Import SpecFloat.
From S2P Require Import Prelude Containers Float Vectors.

(** ** More [f64] arithmetic *)

Definition f64_sub : f64 -> f64 -> f64 := SFsub 53 1024.
Definition f64_sqrt : f64 -> f64 := SFsqrt 53 1024.
Definition f64_abs : f64 -> f64 := SFabs.
Definition f64_eq : f64 -> f64 -> bool := SFeqb.
Definition f64_clamp (a lo hi : f64) : f64 := let a := if f64_lt a lo then lo else a in if f64_lt hi a then hi else a.
Definition f64_sum : list f64 -> f64 := foldl f64_add (S754_zero true).
Definition f64_of_nat (n : nat) : f64 := f64_of (Z.of_nat n).
(** The literal [n/d], for [n] and [d] that are [f64] themselves. *)
Definition f64_lit (n d : Z) : f64 := f64_div (f64_of n) (f64_of d).

(** ** Precision and recall *)

Record PrF1 : Type := mkPrF1 { precision : f64; recall : f64; f1 : f64 }.

Definition ratio (num den : nat) : f64 :=
  if bool_decide (den = 0) then f64_of 0 else f64_div (f64_of_nat num) (f64_of_nat den).

Definition prf1 (tp fp fn : nat) : PrF1 :=
  let precision := ratio tp (tp + fp) in
  let recall := ratio tp (tp + fn) in
  let f1 := if f64_lt (f64_of 0) (f64_add precision recall)
            then f64_div (f64_mul (f64_mul (f64_of 2) precision) recall) (f64_add precision recall) else f64_of 0 in
  mkPrF1 precision recall f1.

Definition set_prf1 (predicted truth : list string) : PrF1 :=
  let tset := list_to_set (C := gset string) truth in
  let pset := list_to_set (C := gset string) predicted in
  let tp := size (pset ∩ tset) in
  prf1 tp (size pset - tp) (size tset - tp).

(** ** Clusterings *)

Definition comb2 (n : Z) : Z := wrap_u64 (n * Z.max (n - 1) 0) / 2.

Abbreviation label := Z.

Record Contingency : Type := mkContingency { joint : gmap (label * label) Z; ai : gmap label Z; bj : gmap label Z }.

(** [*m.entry(k).or_insert(0) += 1]. *)
Definition count {K} `{Countable K} (k : K) (m : gmap K Z) : gmap K Z := <[k := (default 0 (m !! k) + 1)%Z]> m.

Fixpoint contingency_loop (ab : list (label * label)) (c : Contingency) : Contingency :=
  match ab with
  | [] => c
  | (x, y) :: ab => contingency_loop ab (mkContingency (count (x, y) (joint c)) (count x (ai c)) (count y (bj c)))
  end.
Definition contingency (a b : list label) : Contingency := contingency_loop (zip a b) (mkContingency ∅ ∅ ∅).

(** The order in which a table of counts is read. *)
Class CountOrder := {
  joint_order : gmap (label * label) Z -> list ((label * label) * Z);
  count_order : gmap label Z -> list (label * Z)
}.
Class CountOrderLaws `{CountOrder} : Prop := {
  joint_order_perm m : joint_order m ≡ₚ map_to_list m;
  count_order_perm m : count_order m ≡ₚ map_to_list m
}.

(** [sum::<u64>()]. *)
Definition sum_u64 (l : list Z) : Z := foldl (fun s v => wrap_u64 (s + v)) 0%Z l.

Section clusterings.
Context `{CountOrder}.

Definition adjusted_rand_index (a b : list label) : option f64 :=
  if bool_decide (length a = length b) then
    let n := Z.of_nat (length a) in
    Some
      (if bool_decide (n = 0%Z) then f64_of 1
       else
         let c := contingency a b in
         let sum_ij := sum_u64 (comb2 ∘ snd <$> joint_order (joint c)) in
         let sum_ai := sum_u64 (comb2 ∘ snd <$> count_order (ai c)) in
         let sum_bj := sum_u64 (comb2 ∘ snd <$> count_order (bj c)) in
         let total := f64_of (comb2 n) in
         let expected := f64_div (f64_mul (f64_of sum_ai) (f64_of sum_bj)) total in
         let max_index := f64_mul (f64_lit 1 2) (f64_add (f64_of sum_ai) (f64_of sum_bj)) in
         if f64_lt (f64_abs (f64_sub max_index expected)) (f64_lit 1 1000000000000) then f64_of 1
         else f64_div (f64_sub (f64_of sum_ij) expected) (f64_sub max_index expected))
  else None.

Context `{Ln}.

Fixpoint mi_loop (c : Contingency) (n : f64) (entries : list ((label * label) * Z)) (mi : f64) : option f64 :=
  match entries with
  | [] => Some mi
  | ((x, y), nij) :: entries =>
      cx ← ai c !! x; cy ← bj c !! y;
      let pij := f64_div (f64_of nij) n in
      let pi := f64_div (f64_of cx) n in
      let pj := f64_div (f64_of cy) n in
      mi_loop c n entries (f64_add mi (f64_mul pij (f64_ln (f64_div pij (f64_mul pi pj)))))
  end.

Definition entropy (n : f64) (counts : list (label * Z)) : f64 :=
  f64_opp (f64_sum ((fun kv => f64_mul (f64_div (f64_of kv.2) n) (f64_ln (f64_div (f64_of kv.2) n))) <$> counts)).

Definition normalized_mutual_info (a b : list label) : option f64 :=
  if bool_decide (length a = length b) then
    let n := f64_of_nat (length a) in
    if f64_eq n (f64_of 0) then Some (f64_of 1)
    else
      let c := contingency a b in
      mi ← mi_loop c n (joint_order (joint c)) (f64_of 0);
      let ha := entropy n (count_order (ai c)) in
      let hb := entropy n (count_order (bj c)) in
      Some
        (if f64_eq ha (f64_of 0) && f64_eq hb (f64_of 0) then f64_of 1
         else if f64_eq ha (f64_of 0) || f64_eq hb (f64_of 0) then f64_of 0
         else f64_clamp (f64_div mi (f64_sqrt (f64_mul ha hb))) (f64_of 0) (f64_of 1))
  else None.
End clusterings.

Definition alert_reduction_ratio (alerts incidents : nat) : f64 :=
  if bool_decide (alerts = 0) then f64_of 0
  else f64_sub (f64_of 1) (f64_div (f64_of_nat incidents) (f64_of_nat alerts)).

(** ** Edit distance *)

Abbreviation table := (list (list nat)).

Definition cell (dp : table) (i j : nat) : option nat := row ← dp !! i; row !! j.

(** [dp[i][j] = v]. *)
Definition set_cell (dp : table) (i j v : nat) : option table :=
  row ← dp !! i; _ ← row !! j; Some (<[i := <[j := v]> row]> dp).

Definition init_table (m n : nat) : table :=
  alter (imap (fun j _ => j)) 0 (imap (fun i row => <[0 := i]> row) (replicate (m + 1) (replicate (n + 1) 0))).

Section distance.
Context {A : Type} `{EqDecision A} (a b : list A).

Definition fill_cell (dp : table) (i j : nat) : option table :=
  x ← a !! (i - 1); y ← b !! (j - 1);
  let cost := if bool_decide (x = y) then 0 else 1 in
  up ← cell dp (i - 1) j; left ← cell dp i (j - 1); diag ← cell dp (i - 1) (j - 1);
  set_cell dp i j (((up + 1) `min` (left + 1)) `min` (diag + cost)).

Fixpoint fill_row (dp : table) (i : nat) (js : list nat) : option table :=
  match js with [] => Some dp | j :: js => dp ← fill_cell dp i j; fill_row dp i js end.

Fixpoint fill_rows (dp : table) (is_ : list nat) : option table :=
  match is_ with [] => Some dp | i :: is_ => dp ← fill_row dp i (seq 1 (length b)); fill_rows dp is_ end.

Definition sequence_edit_distance : option nat :=
  dp ← fill_rows (init_table (length a) (length b)) (seq 1 (length a));
  cell dp (length a) (length b).

Definition normalized_chain_similarity : option f64 :=
  let max_len := length a `max` length b in
  if bool_decide (max_len = 0) then Some (f64_of 1)
  else d ← sequence_edit_distance; Some (f64_sub (f64_of 1) (f64_div (f64_of_nat d) (f64_of_nat max_len))).
End distance.

(** ** Edits *)

(** [edits a b k]: [k] insertions, deletions and substitutions turn [a] into [b]. *)
Inductive edits {A} : list A -> list A -> nat -> Prop :=
  | edits_nil : edits [] [] 0
  | edits_keep x a b k : edits a b k -> edits (x :: a) (x :: b) k
  | edits_substitute x y a b k : edits a b k -> edits (x :: a) (y :: b) (S k)
  | edits_delete x a b k : edits a b k -> edits (x :: a) b (S k)
  | edits_insert y a b k : edits a b k -> edits a (y :: b) (S k).

Section edits.
Context {A : Type} `{EqDecision A}.
Implicit Types a b : list A.

Lemma edits_app a b k a' b' k' : edits a b k -> edits a' b' k' -> edits (a ++ a') (b ++ b') (k + k').
Proof. induction 1; intros H'; cbn; [done|constructor; auto..]. Qed.

Lemma edits_reverse a b k : edits a b k -> edits (reverse a) (reverse b) k.
Proof.
  induction 1 as [|x a b k _ IH|x y a b k _ IH|x a b k _ IH|y a b k _ IH]; rewrite ?reverse_cons; [constructor| | | |].
  - rewrite <- (Nat.add_0_r k). apply edits_app; [done|]. repeat constructor.
  - rewrite <- Nat.add_1_r. apply edits_app; [done|]. repeat constructor.
  - rewrite <- (app_nil_r (reverse b)), <- Nat.add_1_r. apply edits_app; [done|]. repeat constructor.
  - rewrite <- (app_nil_r (reverse a)), <- Nat.add_1_r. apply edits_app; [done|]. repeat constructor.
Qed.

(** The recursion of the table, from the end of the lists. *)
Fixpoint dist (p : list A) : list A -> nat :=
  fix go (q : list A) : nat :=
    match p, q with
    | [], _ => length q
    | _, [] => length p
    | x :: p', y :: q' => ((dist p' q + 1) `min` (go q' + 1)) `min` (dist p' q' + if bool_decide (x = y) then 0 else 1)
    end.

Lemma dist_nil_l q : dist [] q = length q.
Proof. by destruct q. Qed.
Lemma dist_nil_r p : dist p [] = length p.
Proof. by destruct p. Qed.
Lemma dist_cons x p y q : dist (x :: p) (y :: q) =
  ((dist p (y :: q) + 1) `min` (dist (x :: p) q + 1)) `min` (dist p q + if bool_decide (x = y) then 0 else 1).
Proof. done. Qed.

Lemma edits_dist p q : edits p q (dist p q).
Proof.
  revert q. induction p as [|x p IH]; intros q.
  - rewrite dist_nil_l. induction q; by constructor.
  - induction q as [|y q IHq]; [rewrite dist_nil_r; cbn; constructor; rewrite <- dist_nil_r; apply IH|].
    rewrite dist_cons. assert (edits (x :: p) (y :: q) (dist p (y :: q) + 1)) as H1 by (rewrite Nat.add_1_r; by constructor).
    assert (edits (x :: p) (y :: q) (dist (x :: p) q + 1)) as H2 by (rewrite Nat.add_1_r; by constructor).
    assert (edits (x :: p) (y :: q) (dist p q + if bool_decide (x = y) then 0 else 1)) as H3.
    { case_bool_decide; [subst; rewrite Nat.add_0_r; by constructor|rewrite Nat.add_1_r; by constructor]. }
    revert H1 H2 H3. generalize (dist p (y :: q) + 1) (dist (x :: p) q + 1) (dist p q + if bool_decide (x = y) then 0 else 1).
    intros u v w H1 H2 H3. destruct (Nat.min_dec (u `min` v) w) as [->| ->]; [|done]. by destruct (Nat.min_dec u v) as [->| ->].
Qed.

Lemma dist_step_l x p q : dist (x :: p) q <= S (dist p q).
Proof. destruct q as [|y q]; [rewrite !dist_nil_r; cbn; lia|rewrite dist_cons; lia]. Qed.
Lemma dist_step_r p y q : dist p (y :: q) <= S (dist p q).
Proof. destruct p as [|x p]; [rewrite !dist_nil_l; cbn; lia|rewrite dist_cons; lia]. Qed.

Lemma dist_least p q k : edits p q k -> dist p q <= k.
Proof.
  induction 1 as [|x a b k _ IH|x y a b k _ IH|x a b k _ IH|y a b k _ IH]; [done| | | |].
  - rewrite dist_cons, bool_decide_true by done. lia.
  - rewrite dist_cons. case_bool_decide; lia.
  - pose proof (dist_step_l x a b). lia.
  - pose proof (dist_step_r a y b). lia.
Qed.
End edits.

(** ** The table *)

Section table.
Context {A : Type} `{EqDecision A} (a b : list A).

(** The distance of two prefixes. *)
Definition prefix_dist (i j : nat) : nat := dist (reverse (take i a)) (reverse (take j b)).

Lemma prefix_dist_0 i j : i = 0 \/ j = 0 -> i <= length a -> j <= length b -> prefix_dist i j = i + j.
Proof.
  intros [->| ->] Hi Hj; unfold prefix_dist; rewrite ?take_0; cbn [reverse rev_append].
  - change (reverse []) with (@nil A). rewrite dist_nil_l, length_reverse, length_take. lia.
  - change (reverse []) with (@nil A). rewrite dist_nil_r, length_reverse, length_take. lia.
Qed.

Lemma prefix_dist_S i j x y : a !! i = Some x -> b !! j = Some y ->
  prefix_dist (S i) (S j) = ((prefix_dist i (S j) + 1) `min` (prefix_dist (S i) j + 1)) `min`
    (prefix_dist i j + if bool_decide (x = y) then 0 else 1).
Proof.
  intros Hx Hy. unfold prefix_dist. rewrite (take_S_r a i x), (take_S_r b j y), !reverse_app by done. exact (dist_cons _ _ _ _).
Qed.

(** The cells on the edges and those before [(i, j)] in the order of the loops
    hold their distances. *)
Definition filled (dp : table) (i j : nat) : Prop :=
  length dp = S (length a) /\ (forall r row, dp !! r = Some row -> length row = S (length b)) /\
  forall r c, r <= length a -> c <= length b -> r = 0 \/ c = 0 \/ r < i \/ (r = i /\ c < j) -> cell dp r c = Some (prefix_dist r c).

Lemma cell_set dp i j v : i <= length a -> j <= length b -> filled dp i j -> 0 < j ->
  v = prefix_dist i j -> exists dp', set_cell dp i j v = Some dp' /\ filled dp' i (S j).
Proof.
  intros Hi Hj (Hlen & Hrow & Hcell) Hpos ->. unfold set_cell.
  destruct (lookup_lt_is_Some_2 dp i) as [row Hr]; [lia|]. rewrite Hr. cbn [mbind option_bind].
  pose proof (Hrow _ _ Hr) as Hl. destruct (lookup_lt_is_Some_2 row j) as [old Ho]; [lia|]. rewrite Ho. cbn [mbind option_bind].
  eexists. split; [done|]. split_and!.
  - by rewrite length_insert.
  - intros r row' Hr'. destruct (decide (r = i)) as [->|Hne].
    + rewrite list_lookup_insert_eq in Hr' by lia. injection Hr' as <-. by rewrite length_insert.
    + rewrite list_lookup_insert_ne in Hr' by done. eauto.
  - intros r c Hra Hcb Hrc. unfold cell. destruct (decide (r = i)) as [->|Hne].
    + rewrite list_lookup_insert_eq by lia. cbn. destruct (decide (c = j)) as [->|Hnj].
      * by rewrite list_lookup_insert_eq by lia.
      * rewrite list_lookup_insert_ne by done. assert (cell dp i c = Some (prefix_dist i c)) as Hc by (apply Hcell; lia).
        unfold cell in Hc. rewrite Hr in Hc. exact Hc.
    + rewrite list_lookup_insert_ne by done. apply Hcell; [done..|]. lia.
Qed.

Lemma fill_cell_spec dp i j : 0 < i <= length a -> 0 < j <= length b -> filled dp i j ->
  exists dp', fill_cell a b dp i j = Some dp' /\ filled dp' i (S j).
Proof.
  intros Hi Hj Hf. destruct i as [|i]; [lia|]. destruct j as [|j]; [lia|]. unfold fill_cell. cbn [Nat.sub]. rewrite !Nat.sub_0_r.
  destruct (lookup_lt_is_Some_2 a i) as [x Hx]; [lia|]. destruct (lookup_lt_is_Some_2 b j) as [y Hy]; [lia|].
  rewrite Hx, Hy. cbn [mbind option_bind]. pose proof Hf as (_ & _ & Hcell).
  rewrite (Hcell i (S j)), (Hcell (S i) j), (Hcell i j) by lia. cbn [mbind option_bind].
  apply cell_set; [lia|lia|done|lia|]. by rewrite (prefix_dist_S i j x y).
Qed.

Lemma fill_row_spec k dp i j : 0 < i <= length a -> 0 < j -> j + k <= S (length b) -> filled dp i j ->
  exists dp', fill_row a b dp i (seq j k) = Some dp' /\ filled dp' i (j + k).
Proof.
  revert dp j. induction k as [|k IH]; intros dp j Hi Hj Hk Hf; cbn [seq fill_row].
  { exists dp. by rewrite Nat.add_0_r. }
  destruct (fill_cell_spec dp i j Hi ltac:(lia) Hf) as (dp1 & -> & Hf1). cbn [mbind option_bind].
  destruct (IH dp1 (S j) Hi ltac:(lia) ltac:(lia) Hf1) as (dp2 & -> & Hf2). exists dp2. by rewrite Nat.add_succ_r.
Qed.

Lemma fill_rows_spec k dp i : 0 < i -> i + k <= S (length a) -> filled dp i 0 ->
  exists dp', fill_rows a b dp (seq i k) = Some dp' /\ filled dp' (i + k) 0.
Proof.
  revert dp i. induction k as [|k IH]; intros dp i Hi Hk Hf; cbn [seq fill_rows].
  { exists dp. by rewrite Nat.add_0_r. }
  assert (filled dp i 1) as Hf1.
  { destruct Hf as (? & ? & Hcell). split_and!; [done..|]. intros r c ? ? ?. apply Hcell; lia. }
  destruct (fill_row_spec (length b) dp i 1 ltac:(lia) ltac:(lia) ltac:(lia) Hf1) as (dp1 & -> & Hf2). cbn [mbind option_bind].
  destruct (IH dp1 (S i)) as (dp2 & -> & Hf3); [lia|lia| |exists dp2; by rewrite Nat.add_succ_r].
  destruct Hf2 as (? & ? & Hcell). split_and!; [done..|]. intros r c ? ? ?. apply Hcell; lia.
Qed.

Lemma init_filled : filled (init_table (length a) (length b)) 1 0.
Proof.
  unfold init_table. assert (forall r, r <= length a ->
    imap (fun i row => <[0 := i]> row) (replicate (length a + 1) (replicate (length b + 1) 0)) !! r =
      Some (<[0 := r]> (replicate (length b + 1) 0))) as Hrows.
  { intros r Hr. rewrite list_lookup_imap, lookup_replicate_2 by lia. done. }
  split_and!.
  - rewrite length_alter, length_imap, length_replicate. lia.
  - intros r row Hr. destruct (decide (r = 0)) as [->|Hne].
    + rewrite list_lookup_alter_eq, Hrows in Hr by lia. injection Hr as <-. rewrite length_imap, length_insert, length_replicate. lia.
    + rewrite list_lookup_alter_ne in Hr by done. pose proof (lookup_lt_Some _ _ _ Hr) as Hlt. rewrite length_imap, length_replicate in Hlt.
      rewrite Hrows in Hr by lia. injection Hr as <-. rewrite length_insert, length_replicate. lia.
  - intros r c Hr Hc Hrc. unfold cell. destruct (decide (r = 0)) as [->|Hne].
    + rewrite list_lookup_alter_eq, Hrows by lia. cbn. rewrite list_lookup_imap.
      destruct (lookup_lt_is_Some_2 (<[0 := 0]> (replicate (length b + 1) 0)) c) as [v ->]; [rewrite length_insert, length_replicate; lia|].
      cbn. by rewrite prefix_dist_0 by lia.
    + assert (c = 0) as -> by lia. rewrite list_lookup_alter_ne, Hrows by lia. cbn [mbind option_bind].
      rewrite list_lookup_insert_eq by (rewrite length_replicate; lia). rewrite prefix_dist_0 by lia. f_equal. lia.
Qed.

Lemma edit_distance_total : sequence_edit_distance a b = Some (dist (reverse a) (reverse b)).
Proof.
  unfold sequence_edit_distance. destruct (fill_rows_spec (length a) _ 1 ltac:(lia) ltac:(lia) init_filled) as (dp & -> & _ & _ & Hcell).
  cbn [mbind option_bind]. rewrite Hcell by lia. unfold prefix_dist. by rewrite !take_ge by lia.
Qed.
End table.

(** ** Exact [f64] results *)

Lemma f64_div_self s m e : f64_div (S754_finite s m e) (S754_finite s m e) = f64_of 1.
Proof.
  unfold f64_div, SFdiv, SFdiv_core_binary. rewrite !Z.sub_diag. change (Z.min (fexp 53 1024 0) 0) with (-53)%Z.
  change (0 - -53)%Z with 53%Z. cbn match. change (Z.shiftl (Zpos m) 53) with (Zpos (Pos.iter xO m 53)).
  assert (Z.div_eucl (Zpos (Pos.iter xO m 53)) (Zpos m) = (2 ^ 53, 0))%Z as ->.
  { assert (Zpos (Pos.iter xO m 53) = Zpos m * 2 ^ 53)%Z as Hm by (rewrite <- Z.shiftl_mul_pow2 by lia; done).
    pose proof (Z_div_mod (Zpos (Pos.iter xO m 53)) (Zpos m) ltac:(lia)) as Hd. destruct (Z.div_eucl _ _) as [q r]. destruct Hd as [Hq Hr].
    assert (q = 2 ^ 53)%Z as -> by nia. f_equal. lia. }
  rewrite xorb_nilpotent. unfold new_location, new_location_even, new_location_odd.
  destruct (Z.even (Zpos m)); reflexivity.
Qed.

(** A number below 2^53 is kept. *)
Lemma digits2_iter p k : Zpos (digits2_pos (Pos.iter xO p k)) = (Zpos (digits2_pos p) + Zpos k)%Z.
Proof.
  induction k as [|k IH] using Pos.peano_ind; [cbn; lia|]. rewrite Pos.iter_succ. cbn [digits2_pos]. rewrite !Pos2Z.inj_succ, IH. lia.
Qed.

Lemma round_normal m e : Zpos (digits2_pos m) = 53%Z -> (-1074 <= e <= 971)%Z ->
  binary_round_aux 53 1024 false (Zpos m) e loc_Exact = S754_finite false m e.
Proof.
  intros Hd He. unfold binary_round_aux. assert (shr_fexp 53 1024 (Zpos m) e loc_Exact = (Build_shr_record (Zpos m) false false, e)) as Hs.
  { unfold shr_fexp. cbn [Zdigits2]. rewrite Hd. replace (fexp 53 1024 (53 + e) - e)%Z with 0%Z by (unfold fexp, emin; lia). done. }
  rewrite Hs. cbn [shr_m loc_of_shr_record round_nearest_even]. rewrite Hs. cbn [shr_m].
  replace (e <=? 1024 - 53)%Z with true by lia. done.
Qed.

Lemma f64_of_small n : (0 < n < 2 ^ 53)%Z -> exists m e, f64_of n = S754_finite false m e /\ Zpos (digits2_pos m) = 53%Z /\ (-53 <= e <= 0)%Z.
Proof.
  intros [Hp Hn]. destruct n as [|p|p]; [lia| |lia]. unfold f64_of, binary_normalize, binary_round, shl_align.
  assert (0 < Zpos (digits2_pos p) <= 53)%Z as Hd.
  { rewrite digits2_log2. assert (Z.log2 (Zpos p) < 53)%Z by (apply Z.log2_lt_pow2; lia). pose proof (Z.log2_nonneg (Zpos p)). lia. }
  replace (fexp 53 1024 (Zpos (digits2_pos p) + 0) - 0)%Z with (Zpos (digits2_pos p) - 53)%Z by (unfold fexp, emin; lia).
  replace (fexp 53 1024 (Zpos (digits2_pos p) + 0))%Z with (Zpos (digits2_pos p) - 53)%Z by (unfold fexp, emin; lia).
  destruct (Zpos (digits2_pos p) - 53)%Z as [|k|k] eqn:Hk; [|lia|].
  - exists p, 0%Z. split; [apply round_normal; lia|lia].
  - exists (Pos.iter xO p k), (Zneg k). rewrite digits2_iter. split; [apply round_normal; rewrite ?digits2_iter; lia|lia].
Qed.

(** Half of a double. *)
Lemma f64_half_double m e : Zpos (digits2_pos m) = 53%Z -> (-900 <= e <= 900)%Z ->
  f64_mul (f64_lit 1 2) (f64_add (S754_finite false m e) (S754_finite false m e)) = S754_finite false m e.
Proof.
  intros Hd He. assert (f64_add (S754_finite false m e) (S754_finite false m e) = S754_finite false m (e + 1)) as ->.
  { unfold f64_add, SFadd. rewrite Z.min_id. unfold shl_align. rewrite Z.sub_diag. cbn [fst cond_Zopp].
    change (Zpos m + Zpos m)%Z with (Zpos (m + m)). rewrite Pos.add_diag. unfold binary_normalize, binary_round, shl_align.
    cbn [digits2_pos]. rewrite Pos2Z.inj_succ, Hd.
    replace (fexp 53 1024 (Z.succ 53 + e) - e)%Z with 1%Z by (unfold fexp, emin; lia).
    unfold binary_round_aux, shr_fexp. cbn [Zdigits2 digits2_pos]. rewrite Pos2Z.inj_succ, Hd.
    replace (fexp 53 1024 (Z.succ 53 + e) - e)%Z with 1%Z by (unfold fexp, emin; lia).
    cbn [shr shr_record_of_loc SpecFloat.iter_pos shr_1 shr_m shr_r shr_s orb loc_of_shr_record round_nearest_even Zdigits2]. rewrite Hd.
    replace (fexp 53 1024 (53 + (e + 1)) - (e + 1))%Z with 0%Z by (unfold fexp, emin; lia). cbn [shr shr_m shr_record_of_loc].
    replace (e + 1 <=? 1024 - 53)%Z with true by lia. done. }
  change (f64_lit 1 2) with (S754_finite false 4503599627370496 (-53)).
  unfold f64_mul, SFmul. cbn [xorb].
  change (4503599627370496 * m)%positive with (Pos.iter xO m 52).
  unfold binary_round_aux, shr_fexp. cbn [Zdigits2]. rewrite digits2_iter, Hd.
  replace (fexp 53 1024 (53 + 52 + (-53 + (e + 1))) - (-53 + (e + 1)))%Z with 52%Z by (unfold fexp, emin; lia).
  change (shr (shr_record_of_loc (Zpos (Pos.iter xO m 52)) loc_Exact) (-53 + (e + 1)) 52) with (Build_shr_record (Zpos m) false false, (-53 + (e + 1) + 52)%Z).
  cbn [shr_m loc_of_shr_record round_nearest_even Zdigits2]. rewrite Hd.
  replace (fexp 53 1024 (53 + (-53 + (e + 1) + 52)) - (-53 + (e + 1) + 52))%Z with 0%Z by (unfold fexp, emin; lia).
  cbn [shr shr_m shr_record_of_loc]. replace (-53 + (e + 1) + 52)%Z with e by lia. replace (e <=? 1024 - 53)%Z with true by lia. done.
Qed.

Lemma f64_mul_comm x y : f64_mul x y = f64_mul y x.
Proof. unfold f64_mul. destruct x as [[]|[]| |[]], y as [[]|[]| |[]]; cbn [SFmul xorb]; try done; by rewrite Pos.mul_comm, Z.add_comm. Qed.
Lemma f64_add_comm x y : f64_add x y = f64_add y x.
Proof. unfold f64_add. destruct x as [[]|[]| |[]], y as [[]|[]| |[]]; cbn [SFadd]; try done; by rewrite Z.min_comm, Z.add_comm. Qed.

(** ** Counts *)

Definition zsum : list Z -> Z := foldr Z.add 0%Z.

#[local] Instance zsum_perm : Proper (Permutation ==> eq) zsum.
Proof. induction 1; cbn; lia. Qed.

Lemma sum_u64_zsum l : sum_u64 l = wrap_u64 (zsum l).
Proof.
  unfold sum_u64. cut (forall s, wrap_u64 s = s -> foldl (fun s v => wrap_u64 (s + v)) s l = wrap_u64 (s + zsum l)); [intros Hg; by rewrite Hg|].
  induction l as [|v l IH]; intros s Hs; cbn; [by rewrite Z.add_0_r|]. unfold wrap_u64 in *. rewrite IH by (by rewrite Z.mod_mod).
  rewrite Zplus_mod_idemp_l. f_equal. lia.
Qed.

Section counts.
Context {K : Type} `{Countable K}.
Implicit Types m : gmap K Z.

Definition counts_of (l : list K) : gmap K Z := foldl (fun m k => count k m) ∅ l.
Definition values m : list Z := (map_to_list m).*2.

(** The pairs of elements in one group. *)
Definition pairs_of m : Z := zsum (comb2 <$> values m).

Lemma values_insert m k v : m !! k = None -> values (<[k := v]> m) ≡ₚ v :: values m.
Proof. intros Hk. unfold values. by rewrite map_to_list_insert. Qed.

Lemma values_count m k : exists v l, values (count k m) ≡ₚ (v + 1)%Z :: l /\ ((values m ≡ₚ v :: l) \/ (v = 0%Z /\ values m ≡ₚ l)).
Proof.
  unfold count. destruct (m !! k) as [v|] eqn:Hk; cbn [default from_option].
  - exists v, (values (delete k m)). rewrite <- insert_delete_eq, values_insert by apply lookup_delete_eq. split; [done|]. left.
    rewrite <- (insert_delete_id m k v Hk) at 1. by rewrite values_insert by apply lookup_delete_eq.
  - exists 0%Z, (values m). rewrite values_insert by done. auto.
Qed.

Lemma counts_total l : Forall (Z.lt 0) (values (counts_of l)) /\ zsum (values (counts_of l)) = Z.of_nat (length l).
Proof.
  unfold counts_of. induction l as [|k l [Hp Ht]] using rev_ind.
  { change (foldl _ ∅ []) with (∅ : gmap K Z). unfold values. rewrite map_to_list_empty. split; [constructor|done]. }
  rewrite foldl_app, length_app. cbn [foldl length].
  destruct (values_count (foldl (fun m k => count k m) ∅ l) k) as (v & r & Hv & [Hm|[-> Hm]]); rewrite Hv; rewrite Hm in Hp, Ht; cbn in *.
  - apply Forall_cons in Hp as [Hp0 Hp]. split; [constructor; [lia|done]|lia].
  - split; [constructor; [lia|done]|lia].
Qed.
End counts.

(** A renaming of the labels. *)
Lemma counts_fmap {K1 K2} `{Countable K1} `{Countable K2} (f : K1 -> K2) `{!Inj (=) (=) f} (l : list K1) :
  values (counts_of (f <$> l)) ≡ₚ values (counts_of l).
Proof.
  assert (counts_of (f <$> l) = kmap f (counts_of l)) as ->.
  { unfold counts_of. induction l as [|k l IH] using rev_ind; [cbn; by rewrite kmap_empty|].
    rewrite fmap_app, !foldl_app, IH. cbn. unfold count. by rewrite lookup_kmap, kmap_insert by done. }
  unfold values. rewrite (map_to_list_kmap f), <- list_fmap_compose. done.
Qed.

Lemma pairs_fmap {K1 K2} `{Countable K1} `{Countable K2} (f : K1 -> K2) (l : list K1) :
  Inj (=) (=) f -> pairs_of (counts_of (f <$> l)) = pairs_of (counts_of l).
Proof. intros Hf. unfold pairs_of. by rewrite counts_fmap. Qed.

Lemma contingency_counts a b : length a = length b ->
  contingency a b = mkContingency (counts_of (zip a b)) (counts_of a) (counts_of b).
Proof.
  intros Hlen. unfold contingency, counts_of.
  assert (forall ab j x y, contingency_loop ab (mkContingency j x y) =
    mkContingency (foldl (fun m k => count k m) j ab) (foldl (fun m k => count k m) x ab.*1) (foldl (fun m k => count k m) y ab.*2)) as Hl.
  { induction ab as [|[u v] ab IH]; intros j x y; [done|]. cbn. apply IH. }
  rewrite Hl, fst_zip, snd_zip by lia. done.
Qed.

(** The pairs that fall in one group are no more than all pairs. *)
Lemma comb2_small n : (0 <= n <= 2 ^ 27)%Z -> comb2 n = (n * (n - 1) / 2)%Z.
Proof.
  intros Hn. unfold comb2. assert (n * Z.max (n - 1) 0 = n * (n - 1))%Z as -> by (destruct (Z.eq_dec n 0%Z); [subst; done|f_equal; lia]).
  unfold wrap_u64. rewrite Z.mod_small; [done|]. split; [destruct (Z.eq_dec n 0%Z); [subst; lia|nia]|].
  assert (n * (n - 1) <= 2 ^ 27 * 2 ^ 27)%Z; [nia|lia].
Qed.

Lemma pairs_bound cs n : Forall (Z.lt 0) cs -> zsum cs = n -> (n <= 2 ^ 27)%Z -> (0 <= zsum (comb2 <$> cs) <= comb2 n)%Z.
Proof.
  intros Hpos. revert n. induction Hpos as [|c cs Hc Hcs IH]; intros n Hn Hb; cbn in Hn; [subst; done|].
  assert (0 <= zsum cs)%Z as Hs by (clear -Hcs; induction Hcs; cbn; lia). cbn.
  specialize (IH _ eq_refl ltac:(lia)). rewrite (comb2_small c), (comb2_small n) by lia. rewrite (comb2_small (zsum cs)) in IH by lia.
  assert (forall z, (z * (z - 1)) mod 2 = 0)%Z as Heven.
  { intros z. rewrite Z.mul_mod by lia. pose proof (Z.mod_pos_bound z 2 ltac:(lia)).
    rewrite Zminus_mod. assert (z mod 2 = 0 \/ z mod 2 = 1)%Z as [->| ->] by lia; done. }
  pose proof (Z_div_exact_full_2 _ 2 ltac:(lia) (Heven c)). pose proof (Z_div_exact_full_2 _ 2 ltac:(lia) (Heven n)).
  pose proof (Z_div_exact_full_2 _ 2 ltac:(lia) (Heven (zsum cs))). nia.
Qed.

(** ** The index of two clusterings *)

Definition ari_value (n sum_ij sum_ai sum_bj : Z) : f64 :=
  let expected := f64_div (f64_mul (f64_of sum_ai) (f64_of sum_bj)) (f64_of (comb2 n)) in
  let max_index := f64_mul (f64_lit 1 2) (f64_add (f64_of sum_ai) (f64_of sum_bj)) in
  if f64_lt (f64_abs (f64_sub max_index expected)) (f64_lit 1 1000000000000) then f64_of 1
  else f64_div (f64_sub (f64_of sum_ij) expected) (f64_sub max_index expected).

Lemma ari_eq `{CountOrderLaws} a b : length a = length b -> a <> [] ->
  adjusted_rand_index a b = Some (ari_value (Z.of_nat (length a)) (wrap_u64 (pairs_of (counts_of (zip a b))))
    (wrap_u64 (pairs_of (counts_of a))) (wrap_u64 (pairs_of (counts_of b)))).
Proof.
  intros Hlen Hne. unfold adjusted_rand_index. rewrite bool_decide_true by done. cbv zeta.
  rewrite bool_decide_false by (destruct a; cbn; [done|lia]). rewrite contingency_counts by done. cbn [joint ai bj].
  rewrite !sum_u64_zsum, joint_order_perm, !count_order_perm. unfold pairs_of, values. by rewrite <- !list_fmap_compose.
Qed.

Lemma ari_value_comm n s x y : ari_value n s x y = ari_value n s y x.
Proof. unfold ari_value. by rewrite (f64_mul_comm (f64_of x)), (f64_add_comm (f64_of x)). Qed.

Lemma f64_div_nan_or_one d : f64_lt (f64_abs d) (f64_lit 1 1000000000000) = false -> f64_div d d = f64_of 1 \/ f64_div d d = S754_nan.
Proof.
  destruct d as [s|s| |s m e]; intros Hd; [|right; by destruct s|by right|left; apply f64_div_self].
  exfalso. revert Hd. vm_compute. done.
Qed.

Lemma ari_value_same n s : (0 <= s < 2 ^ 53)%Z -> (0 < comb2 n < 2 ^ 53)%Z -> ari_value n s s s = f64_of 1 \/ ari_value n s s s = S754_nan.
Proof.
  intros Hs Hn. unfold ari_value. destruct (decide (s = 0)%Z) as [->|Hne].
  { destruct (f64_of_small (comb2 n) Hn) as (m & e & -> & _). left. reflexivity. }
  destruct (f64_of_small s) as (m & e & -> & Hd & He); [lia|]. rewrite f64_half_double by (done || lia).
  destruct (f64_lt _ _) eqn:Hlt; [by left|]. by apply f64_div_nan_or_one.
Qed.

(** The adjusted Rand index.  It fails only on clusterings of different
    length.  It does not depend on the order of the clusterings, on the names
    of the labels in either, or on the orders in which hash tables are read.
    Two equal clusterings never score a number other than one; of a single
    element, the score is not a number. *)
Theorem rand_index_spec `{CountOrderLaws} (a b : list label) :
  (length a <> length b -> adjusted_rand_index a b = None) /\
  (length a = length b -> exists r, adjusted_rand_index a b = Some r /\ adjusted_rand_index b a = Some r /\
     (forall (f g : label -> label), Inj (=) (=) f -> Inj (=) (=) g -> adjusted_rand_index (f <$> a) (g <$> b) = Some r) /\
     (forall (O : CountOrder), CountOrderLaws -> adjusted_rand_index (H := O) a b = Some r)) /\
  ((Z.of_nat (length a) <= 2 ^ 27)%Z -> exists r, adjusted_rand_index a a = Some r /\ (r = f64_of 1 \/ r = S754_nan)) /\
  (length a = 1 -> length b = 1 -> adjusted_rand_index a b = Some S754_nan).
Proof.
  split; [intros Hlen; unfold adjusted_rand_index; by rewrite bool_decide_false|].
  split; [|split].
  - intros Hlen. destruct (decide (a = [])) as [->|Hne].
    { destruct b; [|done]. exists (f64_of 1). by split_and!. }
    assert (b <> []) as Hneb by (intros ->; by destruct a).
    rewrite (ari_eq a b), (ari_eq b a) by done. eexists. split; [done|]. split_and!.
    + assert (zip b a = (fun p => (p.2, p.1)) <$> zip a b) as ->.
      { clear. revert b. induction a as [|x a IH]; intros [|y b]; [done..|]. cbn. by rewrite IH. }
      assert (Inj (=) (=) (fun p : label * label => (p.2, p.1))) as Hinj by (intros [] []; cbn; congruence).
      rewrite (pairs_fmap _ _ Hinj), ari_value_comm, Hlen. done.
    + intros f g Hf Hg. rewrite (ari_eq (f <$> a) (g <$> b)) by (rewrite ?length_fmap; try done; by destruct a).
      assert (zip (f <$> a) (g <$> b) = prod_map f g <$> zip a b) as ->.
      { clear. revert b. induction a as [|x a IH]; intros [|y b]; [done..|]. cbn. by rewrite IH. }
      rewrite length_fmap. rewrite (pairs_fmap (prod_map f g)), (pairs_fmap f), (pairs_fmap g) by (done || apply _). done.
    + intros O HO. by rewrite (ari_eq a b).
  - intros Hn. destruct (decide (a = [])) as [->|Hne]; [exists (f64_of 1); split; [done|by left]|].
    rewrite (ari_eq a a) by done. eexists. split; [done|].
    assert (zip a a = (fun x => (x, x)) <$> a) as -> by (clear; induction a as [|x a IH]; [done|]; cbn; by rewrite IH).
    assert (Inj (=) (=) (fun x : label => (x, x))) as Hinj by (intros ? ?; congruence).
    rewrite (pairs_fmap _ _ Hinj).
    destruct (counts_total a) as [Hp Ht]. pose proof (pairs_bound _ _ Hp Ht Hn) as Hb. fold (pairs_of (counts_of a)) in Hb.
    assert (comb2 (Z.of_nat (length a)) < 2 ^ 53)%Z as Hc.
    { rewrite comb2_small by lia. apply Z.div_lt_upper_bound; [lia|]. assert (0 < Z.of_nat (length a))%Z by (destruct a; [done|cbn; lia]). nia. }
    assert (wrap_u64 (pairs_of (counts_of a)) = pairs_of (counts_of a)) as -> by (apply Z.mod_small; lia).
    destruct (decide (length a = 1)) as [H1|H1].
    { rewrite H1 in *. change (comb2 (Z.of_nat 1)) with 0%Z in Hb. assert (pairs_of (counts_of a) = 0)%Z as -> by lia. right. reflexivity. }
    apply ari_value_same; [lia|]. split; [|done]. rewrite comb2_small by lia.
    assert (length a <> 0) by (by destruct a). apply Z.div_str_pos. nia.
  - intros Ha Hb. destruct a as [|x [|]]; try done. destruct b as [|y [|]]; try done. rewrite (ari_eq [x] [y]) by done. f_equal.
    assert (forall {K} `{Countable K} (k : K), pairs_of (counts_of [k]) = 0%Z) as Hz.
    { intros K ? ? k. destruct (counts_total [k]) as [Hp Ht]. pose proof (pairs_bound _ _ Hp Ht ltac:(cbn; lia)) as Hb'.
      change (comb2 (Z.of_nat (length [k]))) with 0%Z in Hb'. unfold pairs_of. lia. }
    cbn [zip zip_with]. rewrite !Hz. reflexivity.
Qed.

(** The edit distance of kill chains.  The table algorithm never leaves its
    bounds and returns the least number of insertions, deletions and
    substitutions that turn one chain into the other. *)
Theorem edit_distance_spec (a b : list string) :
  exists d, sequence_edit_distance a b = Some d /\ edits a b d /\ forall k, edits a b k -> d <= k.
Proof.
  rewrite edit_distance_total. eexists. split; [done|]. split.
  - rewrite <- (reverse_involutive a), <- (reverse_involutive b) at 1. apply edits_reverse, edits_dist.
  - intros k Hk. by apply dist_least, edits_reverse.
Qed.

Section demo.
#[local] Instance sorted_counts : CountOrder := { joint_order := map_to_list; count_order := map_to_list }.
#[local] Instance sorted_counts_laws : CountOrderLaws.
Proof. by split. Qed.

(** Two groups of two, under other names. *)
Lemma rand_index_spec_witness : adjusted_rand_index [0; 0; 1; 1]%Z [0; 0; 1; 1]%Z = Some (f64_of 1) /\
  adjusted_rand_index (Z.add 5 <$> [0; 0; 1; 1]%Z) (Z.add 7 <$> [0; 0; 1; 1]%Z) = Some (f64_of 1).
Proof.
  destruct (rand_index_spec [0; 0; 1; 1]%Z [0; 0; 1; 1]%Z) as (_ & Hr & _). destruct (Hr eq_refl) as (r & Ha & _ & Hf & _).
  assert (adjusted_rand_index [0; 0; 1; 1]%Z [0; 0; 1; 1]%Z = Some (f64_of 1)) as Hv by (vm_compute; reflexivity).
  split; [done|]. rewrite Hf; [congruence|intros x y Hxy; lia..].
Defined.
End demo.
