(* ===== verification/Harness.v ===== *)
(** * [sigil-eval]: scenarios and the evaluation harness

    [scenario.rs] (labelled scenarios and the synthetic generator) and
    [harness.rs] (the variants, their scores and the aggregation over seeds),
    over the correlation of [Campaigns] and [Incident] and the metrics of
    [Metrics].  The clock is a parameter, as is everything that those files
    leave open. *)

From stdpp Require Import gmap strings list sorting.
From Stdlib Require Import SpecFloat.
From S2P Require Import Prelude Utf8 Containers Core Float Graph Vectors Embed Causal Campaigns Incident Metrics.

(** ** Scenarios *)

Record LabeledEvent : Type := mkLabeled {
  le_event : Event; le_campaign : option label; le_malicious : bool; le_technique : option string
}.
Record Scenario : Type := mkScenario {
  sn_name : string; sn_events : list LabeledEvent; truth_chain : list string; truth_techniques : list string
}.

(** The generator of pseudo-random numbers: its state, and a number with the
    state after it. *)
Abbreviation Lcg := Z.
Definition lcg_next (s : Lcg) : Z * Lcg :=
  let s := wrap_u64 (s * 6364136223846793005 + 1442695040888963407) in (Z.shiftr s 16, s).
Definition lcg_pick (xs : list string) (s : Lcg) : option (string * Lcg) :=
  let '(n, s) := lcg_next s in x ← xs !! Z.to_nat (n mod Z.of_nat (length xs)); Some (x, s).

Definition BASE_TS : Z := 1700000000000000.
Definition STEP : Z := 30000000.

Section synthetic.
(** The time at which the [n]-th event of the scenario is created. *)
Context (now : nat -> Timestamp).

Definition stages : list (string * OcsfClass * string * string * option (string * string)) :=
  [("atk-1", Authentication, "T1110.001", "Failed password for mallory", None);
   ("atk-2", ProcessActivity, "T1548.003", "sudo USER=root COMMAND=/bin/bash", None);
   ("atk-3", FileSystemActivity, "T1003.008", "read /etc/shadow", Some ("file", "/etc/shadow"));
   ("atk-4", NetworkActivity, "T1041", "exfil to 9.9.9.9", Some ("ip", "9.9.9.9"))].

Definition stage_event (i : nat) (stage : string * OcsfClass * string * string * option (string * string)) : LabeledEvent :=
  let '(id, class, technique, msg, target) := stage in
  mkLabeled
    (mkEvent id (BASE_TS + Z.of_nat i * STEP) (now i) class "acme" High (Some (EntityRef_new "host" "web01"))
       (Some (EntityRef_new "user" "mallory")) ((fun kv => EntityRef_new kv.1 kv.2) <$> target) msg [] None [] "")
    (Some 1%Z) true (Some technique).

Definition noise_hosts : list string := ["db01"; "app02"; "mail03"; "ci04"].
Definition noise_msgs : list string := ["nightly backup ok"; "health check passed"; "cron job finished"; "cache warmed"].

Definition noise_event (k : nat) (ts : Z) (host msg : string) : LabeledEvent :=
  mkLabeled
    (mkEvent ("bng-" +:+ show_u64 (Z.of_nat k)) ts (now (4 + k)) (OtherClass 1008) "acme" Informational (Some (EntityRef_new "host" host))
       None None msg [] None [] "")
    None false None.

Fixpoint noise_loop (ks : list nat) (rng : Lcg) : option (list LabeledEvent) :=
  match ks with
  | [] => Some []
  | k :: ks =>
      let '(n, rng) := lcg_next rng in
      '(host, rng) ← lcg_pick noise_hosts rng;
      '(msg, rng) ← lcg_pick noise_msgs rng;
      rest ← noise_loop ks rng;
      Some (noise_event k (BASE_TS + Z.rem (wrap_i64 n) (8 * STEP)) host msg :: rest)
  end.

Definition synthetic (seed : Z) : option Scenario :=
  noise ← noise_loop (seq 0 12) (Z.lxor seed 24301);
  Some (mkScenario ("synthetic@" +:+ show_u64 seed) (imap stage_event stages ++ noise)
          ((fun s => s.1.1.1.1) <$> stages) ((fun s => s.1.1.2) <$> stages)).
End synthetic.

(** ** Variants *)

Inductive Variant : Set := Combined | ProvenanceOnly | SemanticOnly | SigmaOnly.
#[export] Instance Variant_eq_dec : EqDecision Variant.
Proof. solve_decision. Defined.
Definition variant_label (v : Variant) : string :=
  match v with
  | Combined => "combined" | ProvenanceOnly => "provenance-only" | SemanticOnly => "semantic-only" | SigmaOnly => "sigma-only"
  end.

Record VariantResult : Type := mkVariantResult {
  vr_variant : string; vr_ari : f64; vr_nmi : f64; vr_alert_reduction : f64; vr_technique_f1 : f64; vr_chain_similarity : f64; vr_incidents : nat
}.
Record EvalReport : Type := mkReport { er_scenario : string; er_alerts : nat; er_rows : list VariantResult }.

Definition wrap_u32 (z : Z) : Z := z mod 2 ^ 32.

(** Labels of the baseline: every malicious event is an incident of its own. *)
Fixpoint sigma_labels (i : nat) (evs : list LabeledEvent) (next : label) (pred : list label) : option (list label) :=
  match evs with
  | [] => Some pred
  | le :: evs =>
      if le_malicious le then _ ← pred !! i; sigma_labels (S i) evs (wrap_u32 (next + 1)) (<[i := next]> pred)
      else sigma_labels (S i) evs next pred
  end.

(** Labels of a grouping: events of the [ci]-th candidate get [ci + 1]. *)
Fixpoint mark_events (index : gmap string nat) (l : label) (ids : list string) (pred : list label) : option (list label) :=
  match ids with
  | [] => Some pred
  | id :: ids =>
      match index !! id with
      | Some i => _ ← pred !! i; mark_events index l ids (<[i := l]> pred)
      | None => mark_events index l ids pred
      end
  end.
Fixpoint mark_candidates (index : gmap string nat) (ci : nat) (cands : list CampaignCandidate) (pred : list label) : option (list label) :=
  match cands with
  | [] => Some pred
  | c :: cands =>
      pred ← mark_events index (wrap_u32 (wrap_u32 (Z.of_nat ci) + 1)) (ca_events c) pred;
      mark_candidates index (S ci) cands pred
  end.

Section eval.
Context `{Casing} `{TokenHash} `{FloatFixed} `{FloatFixed32} `{HashOrder} `{CountOrder} `{Ln}.

(** The techniques and the chain of the best candidate. *)
Definition top_chain (events : list Event) (techniques : gmap string string) (base : CampaignConfig) (cands : list CampaignCandidate) :
    option (list string * list string) :=
  match cands with
  | top :: _ =>
      let cfg := mkCausalConfig (gc_window_micros base) (cc_beam_width CausalConfig_default) in
      inc ← build_incident (H2 := BeamSearchSelector 4) 0 top events techniques cfg;
      Some (in_techniques inc, is_event_id <$> in_chain inc)
  | [] => Some ([], [])
  end.

(** What a variant predicts: labels, the number of incidents, the techniques and
    the chain of the best one. *)
Definition predict (variant : Variant) (events : list Event) (index : gmap string nat) (techniques : gmap string string)
    (scenario : Scenario) (alerts : nat) (base : CampaignConfig) : option (list label * nat * list string * list string) :=
  match variant with
  | SigmaOnly =>
      pred ← sigma_labels 0 (sn_events scenario) 2 (replicate (length events) 0%Z);
      Some (pred, alerts, truth_techniques scenario, [])
  | _ =>
      let cfg := mkCampaignConfig (gc_window_micros base) (gc_sim_threshold base) (gc_knn base) (gc_require_cross_domain base)
                   (bool_decide (variant <> ProvenanceOnly)) (bool_decide (variant <> SemanticOnly)) in
      cands ← build_campaigns (H := HashingEmbedder 128) events cfg;
      pred ← mark_candidates index 0 cands (replicate (length events) 0%Z);
      '(techs, chain) ← top_chain events techniques base cands;
      Some (pred, length cands, techs, chain)
  end.

Definition score_variant (variant : Variant) (events : list Event) (index : gmap string nat) (truth_labels : list label)
    (techniques : gmap string string) (scenario : Scenario) (alerts : nat) (base : CampaignConfig) : option VariantResult :=
  '(pred_labels, incidents, pred_techniques, pred_chain) ← predict variant events index techniques scenario alerts base;
  ari ← adjusted_rand_index pred_labels truth_labels;
  nmi ← normalized_mutual_info pred_labels truth_labels;
  chain_similarity ← normalized_chain_similarity pred_chain (truth_chain scenario);
  Some (mkVariantResult (variant_label variant) ari nmi (alert_reduction_ratio alerts incidents)
          (f1 (set_prf1 pred_techniques (truth_techniques scenario))) chain_similarity incidents).

Definition base_config : CampaignConfig := mkCampaignConfig (60 * 60 * 1000000) (f32_lit 1 4) 10 true true true.

Definition run_eval (scenario : Scenario) : option EvalReport :=
  let events := le_event <$> sn_events scenario in
  let index := positions events in
  let truth_labels := (fun le => default 0%Z (le_campaign le)) <$> sn_events scenario in
  let techniques : gmap string string :=
    foldl (fun m le => match le_technique le with Some t => <[ev_id (le_event le) := t]> m | None => m end) ∅ (sn_events scenario) in
  let alerts := length (filter (fun le => le_malicious le = true) (sn_events scenario)) in
  rows ← mapM (fun v => score_variant v events index truth_labels techniques scenario alerts base_config)
    [Combined; ProvenanceOnly; SemanticOnly; SigmaOnly];
  Some (mkReport (sn_name scenario) alerts rows).

(** ** Aggregation over seeds *)

Record MetricSummary : Type := mkSummary { ms_mean : f64; ms_ci95 : f64 }.

Definition t_table : list Z :=
  [12706; 4303; 3182; 2776; 2571; 2447; 2365; 2306; 2262; 2228; 2201; 2179; 2160;
   2145; 2131; 2120; 2110; 2101; 2093; 2086; 2080; 2074; 2069; 2064; 2060; 2056;
   2052; 2048; 2045; 2042]%Z.
Definition t_critical_95 (df : nat) : option f64 :=
  if bool_decide (df = 0) then Some (S754_infinity false)
  else if (df <=? 30)%nat then t ← t_table !! (df - 1); Some (f64_lit t 1000)
  else Some (f64_lit 196 100).

Definition from_samples (samples : list f64) : option MetricSummary :=
  let n := length samples in
  let mean := f64_div (f64_sum samples) (f64_of_nat n) in
  if (n <? 2)%nat then Some (mkSummary mean (f64_of 0))
  else
    let var := f64_div (f64_sum ((fun x => f64_mul (f64_sub x mean) (f64_sub x mean)) <$> samples)) (f64_sub (f64_of_nat n) (f64_of 1)) in
    let se := f64_sqrt (f64_div var (f64_of_nat n)) in
    t ← t_critical_95 (n - 1); Some (mkSummary mean (f64_mul t se)).

Record VariantSummary : Type := mkVariantSummary {
  vs_variant : string; vs_ari : MetricSummary; vs_nmi : MetricSummary; vs_alert_reduction : MetricSummary;
  vs_technique_f1 : MetricSummary; vs_chain_similarity : MetricSummary
}.
Record MultiSeedReport : Type := mkMulti { mr_scenario : string; mr_seeds : list nat; mr_rows : list VariantSummary }.

Definition pick (reports : list EvalReport) (v : string) (get : VariantResult -> f64) : option MetricSummary :=
  from_samples (reports ≫= fun r => get <$> filter (fun row => vr_variant row = v) (er_rows r)).

Definition summarize (reports : list EvalReport) (v : string) : option VariantSummary :=
  ari ← pick reports v vr_ari; nmi ← pick reports v vr_nmi; red ← pick reports v vr_alert_reduction;
  tf1 ← pick reports v vr_technique_f1; sim ← pick reports v vr_chain_similarity;
  Some (mkVariantSummary v ari nmi red tf1 sim).

Definition run_eval_multi (scenarios : list Scenario) : option MultiSeedReport :=
  reports ← mapM run_eval scenarios;
  let variants := default [] ((fun r => vr_variant <$> er_rows r) <$> head reports) in
  rows ← mapM (summarize reports) variants;
  Some (mkMulti (default "" (sn_name <$> head scenarios)) (seq 0 (length scenarios)) rows).

(** ** Display *)

Definition pad_left (w : nat) (s : string) : string := join "" (replicate (w - length (chars s)) " ") +:+ s.
Definition pad_right (w : nat) (s : string) : string := s +:+ join "" (replicate (w - length (chars s)) " ").
Definition show_nat (n : nat) : string := show_u64 (Z.of_nat n).
Definition newline : string := String "010" "".

Definition report_row (r : VariantResult) : string :=
  join " " [pad_right 16 (vr_variant r); pad_left 6 (f64_fixed 2 (vr_ari r)); pad_left 6 (f64_fixed 2 (vr_nmi r));
            pad_left 10 (f64_fixed 2 (vr_alert_reduction r)); pad_left 8 (f64_fixed 2 (vr_technique_f1 r));
            pad_left 10 (f64_fixed 2 (vr_chain_similarity r)); pad_left 10 (show_nat (vr_incidents r))] +:+ newline.
Definition show_report (r : EvalReport) : string :=
  "scenario: " +:+ er_scenario r +:+ "  (" +:+ show_nat (er_alerts r) +:+ " alerts)" +:+ newline +:+
  join " " [pad_right 16 "variant"; pad_left 6 "ARI"; pad_left 6 "NMI"; pad_left 10 "reduction"; pad_left 8 "tech-F1";
            pad_left 10 "chain-sim"; pad_left 10 "incidents"] +:+ newline +:+
  join "" (report_row <$> er_rows r).

Definition show_summary (m : MetricSummary) : string := f64_fixed 2 (ms_mean m) +:+ "±" +:+ f64_fixed 2 (ms_ci95 m).
Definition summary_row (r : VariantSummary) : string :=
  join " " [pad_right 16 (vs_variant r); pad_left 12 (show_summary (vs_ari r)); pad_left 12 (show_summary (vs_nmi r));
            pad_left 12 (show_summary (vs_alert_reduction r)); pad_left 12 (show_summary (vs_technique_f1 r));
            pad_left 12 (show_summary (vs_chain_similarity r))] +:+ newline.
Definition show_multi (r : MultiSeedReport) : string :=
  "scenario: " +:+ mr_scenario r +:+ "  (" +:+ show_nat (length (mr_seeds r)) +:+ " seeds, mean ± 95% CI)" +:+ newline +:+
  join " " [pad_right 16 "variant"; pad_left 12 "ARI"; pad_left 12 "NMI"; pad_left 12 "reduction"; pad_left 12 "tech-F1";
            pad_left 12 "chain-sim"] +:+ newline +:+
  join "" (summary_row <$> mr_rows r).
End eval.

(** ** The harness always reports *)

Lemma sigma_labels_total i evs next pred : i + length evs <= length pred ->
  exists pred', sigma_labels i evs next pred = Some pred' /\ length pred' = length pred.
Proof.
  revert i next pred. induction evs as [|le evs IH]; intros i next pred Hl; cbn in *; [by exists pred|].
  destruct (le_malicious le).
  - destruct (lookup_lt_is_Some_2 pred i) as [x ->]; [lia|]. cbn [mbind option_bind].
    destruct (IH (S i) (wrap_u32 (next + 1)) (<[i := next]> pred)) as (p & Hp & Hlen); [rewrite length_insert; lia|].
    exists p. split; [exact Hp|]. by rewrite Hlen, length_insert.
  - apply IH. lia.
Qed.

Lemma mark_events_total events l ids pred : length pred = length events ->
  exists pred', mark_events (positions events) l ids pred = Some pred' /\ length pred' = length events.
Proof.
  revert pred. induction ids as [|id ids IH]; intros pred Hl; cbn [mark_events]; [by exists pred|].
  destruct (positions events !! id) as [i|] eqn:Hi; [|by apply IH].
  apply positions_spec in Hi as [(ev & Hev & _) _]. apply lookup_lt_Some in Hev.
  destruct (lookup_lt_is_Some_2 pred i) as [x ->]; [lia|]. cbn [mbind option_bind]. apply IH. by rewrite length_insert.
Qed.

Lemma mark_candidates_total events ci cands pred : length pred = length events ->
  exists pred', mark_candidates (positions events) ci cands pred = Some pred' /\ length pred' = length events.
Proof.
  revert ci pred. induction cands as [|c cands IH]; intros ci pred Hl; cbn [mark_candidates]; [by exists pred|].
  destruct (mark_events_total events (wrap_u32 (wrap_u32 (Z.of_nat ci) + 1)) (ca_events c) pred Hl) as (p & -> & Hp).
  cbn [mbind option_bind]. by apply IH.
Qed.

Section total.
Context `{Casing} `{TokenHash} `{FloatFixed} `{FloatFixed32} `{HashOrderLaws} `{CountOrderLaws} `{Ln}.

Lemma ari_total a b : length a = length b -> is_Some (adjusted_rand_index a b).
Proof. intros Hl. unfold adjusted_rand_index. rewrite bool_decide_true by done. by eexists. Qed.

Lemma counts_lookup {K} `{Countable K} (l : list K) k : is_Some (counts_of l !! k) <-> k ∈ l.
Proof.
  unfold counts_of. induction l as [|x l IH] using rev_ind.
  { change (foldl _ ∅ []) with (∅ : gmap K Z). rewrite lookup_empty. split; [by intros []|by intros ?%not_elem_of_nil]. }
  rewrite foldl_app, elem_of_app, list_elem_of_singleton, <- IH. cbn. unfold count.
  destruct (decide (x = k)) as [->|Hne]; [rewrite lookup_insert_eq; split; [by right|eauto]|].
  rewrite lookup_insert_ne by done. split; [by left|by intros [?| ->]].
Qed.

Lemma mi_loop_total c n entries mi : Forall (fun e => is_Some (ai c !! e.1.1) /\ is_Some (bj c !! e.1.2)) entries ->
  is_Some (mi_loop c n entries mi).
Proof.
  intros Hall. revert mi. induction Hall as [|[[x y] v] entries [[cx Hx] [cy Hy]] _ IH]; intros mi; [by eexists|].
  cbn [mi_loop]. cbn in Hx, Hy. rewrite Hx, Hy. cbn [mbind option_bind]. apply IH.
Qed.

Lemma nmi_total a b : length a = length b -> is_Some (normalized_mutual_info a b).
Proof.
  intros Hl. unfold normalized_mutual_info. rewrite bool_decide_true by done. cbv zeta. destruct (f64_eq _ _); [by eexists|].
  rewrite contingency_counts by done. cbn [joint ai bj].
  destruct (mi_loop_total (mkContingency (counts_of (zip a b)) (counts_of a) (counts_of b)) (f64_of_nat (length a))
    (joint_order (counts_of (zip a b))) (f64_of 0)) as [mi Hmi].
  { apply Forall_forall. intros [[x y] v] Hin. rewrite joint_order_perm in Hin. apply elem_of_map_to_list in Hin. cbn.
    assert ((x, y) ∈ zip a b) as Hz by (apply counts_lookup; eauto). rewrite !counts_lookup.
    apply elem_of_zip_l in Hz as Hx. by apply elem_of_zip_r in Hz. }
  rewrite Hmi. cbn. by eexists.
Qed.

Lemma chain_similarity_total (a b : list string) : is_Some (normalized_chain_similarity a b).
Proof. unfold normalized_chain_similarity. cbv zeta. case_bool_decide; [by eexists|]. rewrite edit_distance_total. by eexists. Qed.

Lemma predict_total v scenario techniques alerts base : let events := le_event <$> sn_events scenario in
  exists pred inc techs chain, predict v events (positions events) techniques scenario alerts base = Some (pred, inc, techs, chain) /\
    length pred = length events.
Proof.
  cbv zeta. set (events := le_event <$> sn_events scenario).
  assert (forall cfg, exists cands pred techs chain, build_campaigns (H := HashingEmbedder 128) events cfg = Some cands /\
    mark_candidates (positions events) 0 cands (replicate (length events) 0%Z) = Some pred /\ length pred = length events /\
    top_chain events techniques base cands = Some (techs, chain)) as Hgroup.
  { intros cfg. destruct (build_campaigns_groups (H := HashingEmbedder 128) events cfg) as (cands & groups & Hc & _).
    destruct (mark_candidates_total events 0 cands (replicate (length events) 0%Z)) as (pred & Hm & Hlen); [by rewrite length_replicate|].
    destruct cands as [|top cands]; [by exists [], pred, [], []|].
    pose proof (beam_laws 4). destruct (build_incident_total (H2 := BeamSearchSelector 4) 0 top events techniques
      (mkCausalConfig (gc_window_micros base) (cc_beam_width CausalConfig_default))) as (inc & Hi & _).
    exists (top :: cands), pred, (in_techniques inc), (is_event_id <$> in_chain inc). split_and!; [done..|]. unfold top_chain. by rewrite Hi. }
  unfold predict. destruct v.
  1-3: edestruct Hgroup as (cands & pred & techs & chain & -> & Hm & Hlen & Hi); cbn [mbind option_bind]; rewrite Hm; cbn [mbind option_bind];
    rewrite Hi; by exists pred, (length cands), techs, chain.
  destruct (sigma_labels_total 0 (sn_events scenario) 2 (replicate (length events) 0%Z)) as (pred & -> & Hlen).
  { unfold events. by rewrite length_replicate, length_fmap. }
  exists pred, alerts, (truth_techniques scenario), []. split; [done|]. by rewrite Hlen, length_replicate.
Qed.

Lemma score_variant_total v scenario techniques alerts base truth_labels :
  let events := le_event <$> sn_events scenario in length truth_labels = length events ->
  exists r, score_variant v events (positions events) truth_labels techniques scenario alerts base = Some r /\ vr_variant r = variant_label v.
Proof.
  cbv zeta. intros Hlen. unfold score_variant.
  destruct (predict_total v scenario techniques alerts base) as (pred & inc & techs & chain & -> & Hp). cbn [mbind option_bind].
  destruct (ari_total pred truth_labels) as [ari ->]; [by rewrite Hlen|]. cbn [mbind option_bind].
  destruct (nmi_total pred truth_labels) as [nmi ->]; [by rewrite Hlen|]. cbn [mbind option_bind].
  destruct (chain_similarity_total chain (truth_chain scenario)) as [sim ->]. cbn. by eexists.
Qed.
Lemma run_eval_total scenario : exists report, run_eval scenario = Some report /\
  vr_variant <$> er_rows report = ["combined"; "provenance-only"; "semantic-only"; "sigma-only"] /\
  er_alerts report = length (filter (fun le => le_malicious le = true) (sn_events scenario)) /\
  forall i v, [Combined; ProvenanceOnly; SemanticOnly; SigmaOnly] !! i = Some v ->
    score_variant v (le_event <$> sn_events scenario) (positions (le_event <$> sn_events scenario))
      ((fun le => default 0%Z (le_campaign le)) <$> sn_events scenario)
      (foldl (fun m le => match le_technique le with Some t => <[ev_id (le_event le) := t]> m | None => m end) ∅ (sn_events scenario))
      scenario (er_alerts report) base_config = er_rows report !! i.
Proof.
  unfold run_eval. cbv zeta. set (techniques := foldl _ ∅ (sn_events scenario)). set (alerts := length (filter _ (sn_events scenario))).
  set (truth := (fun le => default 0%Z (le_campaign le)) <$> sn_events scenario).
  assert (length truth = length (le_event <$> sn_events scenario)) as Hlen by (unfold truth; by rewrite !length_fmap).
  assert (forall v, exists r, score_variant v (le_event <$> sn_events scenario) (positions (le_event <$> sn_events scenario)) truth techniques scenario alerts base_config = Some r /\
    vr_variant r = variant_label v) as Hv by (intros v; by apply score_variant_total).
  destruct (Hv Combined) as (r1 & H1' & L1), (Hv ProvenanceOnly) as (r2 & H2' & L2), (Hv SemanticOnly) as (r3 & H3' & L3), (Hv SigmaOnly) as (r4 & H4' & L4).
  exists (mkReport (sn_name scenario) alerts [r1; r2; r3; r4]). split_and!.
  - cbn [mapM]. by rewrite H1', H2', H3', H4'.
  - cbn. by rewrite L1, L2, L3, L4.
  - done.
  - intros [|[|[|[|i]]]] v; cbn; by intros [= <-].
Qed.
End total.

(** ** The synthetic scenario *)

Section synthetic_spec.
Context (now : nat -> Timestamp).

(** A benign event, on a host that is not the attacked one. *)
Definition is_noise (k : nat) (le : LabeledEvent) : Prop :=
  exists ts host msg, le = noise_event now k ts host msg /\ host ∈ noise_hosts /\ (BASE_TS <= ts < BASE_TS + 8 * STEP)%Z.

Lemma lcg_pick_total xs s : xs <> [] -> exists x s', lcg_pick xs s = Some (x, s') /\ x ∈ xs.
Proof.
  intros Hne. unfold lcg_pick. destruct (lcg_next s) as [n s']. assert (0 < length xs) by (destruct xs; [done|cbn; lia]).
  pose proof (Z.mod_pos_bound n (Z.of_nat (length xs)) ltac:(lia)).
  destruct (lookup_lt_is_Some_2 xs (Z.to_nat (n mod Z.of_nat (length xs)))) as [x Hx]; [lia|]. rewrite Hx. cbn.
  exists x, s'. split; [done|]. by eapply list_elem_of_lookup_2.
Qed.

Lemma lcg_next_range s : (0 <= (lcg_next s).1 < 2 ^ 48)%Z.
Proof.
  unfold lcg_next, wrap_u64. cbn [fst]. rewrite Z.shiftr_div_pow2 by lia.
  pose proof (Z.mod_pos_bound (s * 6364136223846793005 + 1442695040888963407) (2 ^ 64) ltac:(lia)).
  split; [apply Z.div_pos; lia|]. apply Z.div_lt_upper_bound; lia.
Qed.

Lemma noise_loop_total ks rng : exists l, noise_loop now ks rng = Some l /\ Forall2 is_noise ks l.
Proof.
  revert rng. induction ks as [|k ks IH]; intros rng; cbn [noise_loop]; [exists []; by split; [|constructor]|].
  pose proof (lcg_next_range rng) as Hr. destruct (lcg_next rng) as [n rng1]. cbn [fst] in Hr.
  destruct (lcg_pick_total noise_hosts rng1) as (host & rng2 & -> & Hh); [done|]. cbn [mbind option_bind].
  destruct (lcg_pick_total noise_msgs rng2) as (msg & rng3 & -> & _); [done|]. cbn [mbind option_bind].
  destruct (IH rng3) as (l & -> & Hl). cbn. eexists. split; [done|]. constructor; [|done].
  eexists _, host, msg. split; [done|]. split; [done|]. rewrite wrap_i64_id by (unfold in_i64, i64_min, i64_max; lia).
  pose proof (Z.rem_bound_pos n (8 * STEP) ltac:(lia) ltac:(unfold STEP; lia)). lia.
Qed.
End synthetic_spec.

(** ** The graph does not depend on the casing beyond ASCII *)

Section ascii.
Context (C1 C2 : Casing) (F1 F2 : FloatFixed) (techniques : gmap string string) (cfg : CausalConfig).

Definition ascii_event (ev : Event) : Prop := all_bytes is_ascii (message ev) = true.

Lemma anomaly_ascii ev : ascii_event ev -> anomaly_score (H := C1) ev = anomaly_score (H := C2) ev.
Proof. intros Ha. unfold anomaly_score. by rewrite !to_lowercase_ascii. Qed.

Lemma edge_ascii i a j b : ascii_event b ->
  fst <$> edge_between (H := C1) (H0 := F1) cfg i a j b = fst <$> edge_between (H := C2) (H0 := F2) cfg i a j b.
Proof.
  intros Hb. unfold edge_between. destruct (cc_window_micros cfg <? delta a b)%Z; [done|]. cbv zeta.
  destruct (is_nil (shared_entities a b)); [done|]. cbn. unfold edge_score. by rewrite (anomaly_ascii b).
Qed.

Lemma edges_ascii i rest : Forall ascii_event rest ->
  (edges_from (H := C1) (H0 := F1) cfg i rest).*1 = (edges_from (H := C2) (H0 := F2) cfg i rest).*1.
Proof.
  intros Hall. revert i. induction Hall as [|a rest _ Hrest IH]; intros i; cbn [edges_from]; [done|]. rewrite !fmap_app, IH. f_equal.
  assert (forall n, (omap (fun jb => edge_between (H := C1) (H0 := F1) cfg i a jb.1 jb.2) (imap (fun k b => (n + k, b)) rest)).*1 =
    (omap (fun jb => edge_between (H := C2) (H0 := F2) cfg i a jb.1 jb.2) (imap (fun k b => (n + k, b)) rest)).*1) as Hn; [|apply Hn].
  clear IH. induction Hrest as [|b rest Hb _ IH]; intros n; [done|]. cbn [imap omap list_omap].
  rewrite !(imap_ext ((fun k b => (n + k, b)) ∘ S) (fun k b => (S n + k, b)) rest) by (intros; cbn; f_equal; lia). specialize (IH (S n)).
  cbn [fst snd]. pose proof (edge_ascii i a (n + 0) b Hb) as He.
  destruct (edge_between (H := C1) (H0 := F1) cfg i a (n + 0) b) as [e1|], (edge_between (H := C2) (H0 := F2) cfg i a (n + 0) b) as [e2|]; cbn in He; try done.
  rewrite !fmap_cons, IH. congruence.
Qed.

Lemma graph_ascii evs : Forall ascii_event evs ->
  cb_graph (build_causal_graph (H := C1) (H0 := F1) techniques cfg evs) = cb_graph (build_causal_graph (H := C2) (H0 := F2) techniques cfg evs).
Proof.
  intros Hall. rewrite <- (sort_by_key_perm ev_ts) in Hall. unfold build_causal_graph. cbn [cb_graph]. rewrite (edges_ascii 0 _ Hall). f_equal.
  induction Hall as [|ev evs' Hev _ IH]; [done|]. rewrite !fmap_cons, IH. f_equal. unfold node_of. by rewrite anomaly_ascii.
Qed.
End ascii.

(** The chain of an incident is that of its graph. *)
Lemma incident_chain `{Casing} `{FloatFixed} `{FloatFixed32} `{PathSelector} id c all techniques cfg inc :
  build_incident id c all techniques cfg = Some inc ->
  (chain ← select (cb_graph (build_causal_graph techniques cfg (omap (fun id => by_id all !! id) (ca_events c))));
   mapM (step_at (cb_graph (build_causal_graph techniques cfg (omap (fun id => by_id all !! id) (ca_events c))))) (ch_path chain)) = Some (in_chain inc) /\
  in_techniques inc = distinct (omap is_technique (in_chain inc)).
Proof.
  unfold build_incident. intros (chain & -> & (steps & Hs & (texts & _ & [= <-])%bind_Some)%bind_Some)%bind_Some. cbn [mbind option_bind in_chain in_techniques]. by split.
Qed.

(** The benign events as a function of their number. *)
Lemma noise_function now s n l : Forall2 (is_noise now) (seq s n) l ->
  exists f : nat -> Z * string * string, l = (fun k => noise_event now k (f k).1.1 (f k).1.2 (f k).2) <$> seq s n /\
    forall k, s <= k < s + n -> (f k).1.2 ∈ noise_hosts.
Proof.
  revert s l. induction n as [|n IH]; intros s l Hl; cbn in Hl.
  { apply Forall2_nil_inv_l in Hl as ->. exists (fun _ => (0%Z, "", "")). split; [done|lia]. }
  apply Forall2_cons_inv_l in Hl as (le & l' & (ts & host & msg & -> & Hh & _) & Hl & ->).
  destruct (IH _ _ Hl) as (f & -> & Hf). exists (fun k => if decide (k = s) then (ts, host, msg) else f k). split.
  - cbn. rewrite decide_True by done. f_equal. apply list_fmap_ext. intros i k Hk%list_elem_of_lookup_2. apply elem_of_seq in Hk.
    by rewrite decide_False by lia.
  - intros k Hk. case_decide; [done|]. apply Hf. lia.
Qed.

Section report.
Context `{Casing} `{TokenHash} `{FloatFixed} `{FloatFixed32} `{HashOrderLaws} `{CountOrderLaws} `{Ln}.
Context (now : nat -> Timestamp) (f : nat -> Z * string * string) (Hhosts : forall k, 0 <= k < 12 -> (f k).1.2 ∈ noise_hosts).

Definition scenario_events : list LabeledEvent :=
  imap (stage_event now) stages ++ ((fun k => noise_event now k (f k).1.1 (f k).1.2 (f k).2) <$> seq 0 12).
Definition all_events : list Event := le_event <$> scenario_events.
Definition provenance_config : CampaignConfig := mkCampaignConfig (60 * 60 * 1000000) (f32_lit 1 4) 10 true false true.
Definition attack_ids : list string := ["atk-1"; "atk-2"; "atk-3"; "atk-4"].

Lemma attack_positions i id : attack_ids !! i = Some id -> positions all_events !! id = Some i.
Proof. destruct i as [|[|[|[|i]]]]; intros [= <-]; reflexivity. Qed.

Definition attack_keys : list string := ["host:web01"; "user:mallory"; "file:/etc/shadow"; "ip:9.9.9.9"].
Definition noise_keys : list string := ["host:db01"; "host:app02"; "host:mail03"; "host:ci04"].

Lemma event_cases i ev : all_events !! i = Some ev ->
  (i < 4 /\ attack_ids !! i = Some (ev_id ev) /\ Forall (fun e => entity_key e ∈ attack_keys) (Graph.chain ev)) \/
  (4 <= i < 16 /\ ev_id ev = ("bng-" +:+ show_u64 (Z.of_nat (i - 4)))%string /\ ocsf_class ev = OtherClass 1008 /\
   Forall (fun e => entity_key e ∈ noise_keys) (Graph.chain ev)).
Proof.
  intros Hev. destruct (decide (i < 4)) as [Hlt|Hge].
  - left. split; [done|]. destruct i as [|[|[|[|i]]]]; [..|lia]; injection Hev as <-; (split; [reflexivity|]);
      repeat constructor; apply (bool_decide_unpack _); reflexivity.
  - right. assert (all_events = (le_event <$> imap (stage_event now) stages) ++
      (le_event <$> ((fun k => noise_event now k (f k).1.1 (f k).1.2 (f k).2) <$> seq 0 12))) as Hall by (unfold all_events, scenario_events; apply fmap_app).
    rewrite Hall in Hev. rewrite lookup_app_r in Hev by (rewrite length_fmap, length_imap; cbn; lia).
    rewrite length_fmap, length_imap in Hev. change (length stages) with 4 in Hev.
    rewrite !list_lookup_fmap in Hev. destruct (seq 0 12 !! (i - 4)) as [k|] eqn:Hk; [|done]. injection Hev as <-.
    apply lookup_seq in Hk as [Hk Hlt]. cbn in Hk. subst k. split; [lia|]. split; [done|]. split; [done|].
    cbn. apply Forall_singleton. pose proof (Hhosts (i - 4) ltac:(lia)) as Hh.
    unfold noise_hosts in Hh. rewrite !elem_of_cons, elem_of_nil in Hh.
    destruct Hh as [->|[->|[->|[->|[]]]]]; apply (bool_decide_unpack _); reflexivity.
Qed.

Lemma all_length : length all_events = 16.
Proof. reflexivity. Qed.

Lemma keys_apart k : k ∈ attack_keys -> k ∈ noise_keys -> False.
Proof.
  unfold attack_keys, noise_keys. rewrite !elem_of_cons, !elem_of_nil. naive_solver.
Qed.

(** Links join attack to attack and noise to noise. *)
Lemma linked_side i j : linked (H := HashingEmbedder 128) all_events provenance_config i j -> (i < 4 <-> j < 4) /\ i < 16 /\ j < 16.
Proof.
  assert (forall i j s, found (H := HashingEmbedder 128) all_events provenance_config i j s -> (i < 4 <-> j < 4) /\ i < 16 /\ j < 16) as Hf.
  { clear i j. intros i j s [(_ & a & b & Ha & Hb & _) [[Hn _]|(_ & a' & v & w & id & Ha' & _ & _ & _ & Hst & _ & ev & e & e' & Hev & Hid & He & He' & Hk)]]; [done|].
    rewrite Ha in Ha'. injection Ha' as <-. apply list_elem_of_lookup in Hev as [m Hm].
    pose proof Hst as [(b' & Hb' & Hbid) _]. rewrite Hb in Hb'. injection Hb' as <-.
    assert (m = j) as ->.
    { apply positions_spec in Hst. assert (forall x ev, all_events !! x = Some ev -> positions all_events !! ev_id ev = Some x) as Hpos.
      { intros x ex Hx. assert (x < 16) as Hlt by (rewrite <- all_length; by eapply lookup_lt_Some).
        do 16 (destruct x as [|x]; [injection Hx as <-; reflexivity|]). lia. }
      rewrite <- Hid in Hst. rewrite (Hpos m ev Hm) in Hst. congruence. }
    rewrite Hb in Hm. injection Hm as ->.
    destruct (event_cases i a Ha) as [(Hi & _ & Hka)|(Hi & _ & _ & Hka)], (event_cases j ev Hb) as [(Hj & _ & Hkb)|(Hj & _ & _ & Hkb)]; try lia;
      rewrite Forall_forall in Hka, Hkb; specialize (Hka e He); specialize (Hkb e' He'); rewrite Hk in Hkb;
      exfalso; by eapply keys_apart. }
  intros [s [Hs|Hs]]; destruct (Hf _ _ _ Hs) as (? & ? & ?); split_and!; tauto || lia.
Qed.
#[local] Abbreviation joined := (linked (H := HashingEmbedder 128) all_events provenance_config).
#[local] Abbreviation group := (component (H := HashingEmbedder 128) all_events provenance_config).

Lemma attack_event i : i < 4 -> exists ev, all_events !! i = Some ev /\ attack_ids !! i = Some (ev_id ev) /\
  EntityRef_new "host" "web01" ∈ Graph.chain ev /\ ev_ts ev = (BASE_TS + Z.of_nat i * STEP)%Z.
Proof.
  intros Hi. destruct i as [|[|[|[|i]]]]; [..|lia]; eexists; (split; [reflexivity|]); (split; [reflexivity|]); (split; [by left|reflexivity]).
Qed.

Lemma attack_linked i j : i < 4 -> j < 4 -> i <> j -> joined i j.
Proof.
  intros Hi Hj Hij. destruct (attack_event i Hi) as (a & Ha & Hida & Hha & Hta). destruct (attack_event j Hj) as (b & Hb & Hidb & Hhb & Htb).
  eexists. left. split.
  - split; [done|]. exists a, b. split_and!; [done..|]. rewrite Hta, Htb.
    destruct i as [|[|[|[|i]]]], j as [|[|[|[|j]]]]; try lia; reflexivity.
  - right. split; [done|]. exists a, (embed_event (H := HashingEmbedder 128) a), (embed_event (H := HashingEmbedder 128) b), (ev_id b).
    split; [done|]. unfold vectors. rewrite !list_lookup_fmap, Ha, Hb. split; [done|]. split; [done|]. split; [done|]. split.
    { apply positions_spec. by apply attack_positions. }
    split.
    { intros Heq. rewrite Heq in Hidb. apply Hij. eapply NoDup_lookup; [|exact Hida|exact Hidb]. by apply (bool_decide_unpack _). }
    exists b, (EntityRef_new "host" "web01"), (EntityRef_new "host" "web01"). split_and!; [by eapply list_elem_of_lookup_2|done..].
Qed.

Lemma side_closed i j : rtsc joined i j -> i < 4 <-> j < 4.
Proof.
  induction 1 as [|x y z Hxy _ IH]; [done|]. rewrite <- IH. destruct Hxy as [Hxy|Hxy]; apply linked_side in Hxy; tauto.
Qed.

Lemma attack_group : group [0; 1; 2; 3].
Proof.
  split; [done|]. split; [repeat constructor|]. intros x y Hx.
  assert (forall n, n ∈ [0; 1; 2; 3] <-> n < 4) as Hn.
  { intros n. rewrite !elem_of_cons, elem_of_nil. lia. }
  rewrite Hn in *. rewrite all_length. split.
  - intros Hy. split; [lia|]. destruct (decide (x = y)) as [->|Hne]; [constructor|]. apply rtc_once. left. by apply attack_linked.
  - intros [_ Hr]. by apply side_closed in Hr as <-.
Qed.

(** The attack is the only group over two classes. *)
Lemma eligible_groups l : group l /\ eligible all_events provenance_config l <-> l = [0; 1; 2; 3].
Proof.
  split; [|intros ->; split; [apply attack_group|]].
  - intros [Hg [_ Hcross]]. destruct (Hcross eq_refl) as (i & j & a & b & Hi & Hj & Ha & Hb & Hne).
    assert (i < 4 \/ 4 <= i) as [Hlt|Hge] by lia.
    + eapply component_unique; [exact Hg|apply attack_group|exact Hi|]. rewrite !elem_of_cons, elem_of_nil. lia.
    + exfalso. assert (4 <= j) as Hgj.
      { pose proof Hg as (_ & _ & Hm). apply (Hm i j Hi) in Hj as [_ Hr]. apply side_closed in Hr. lia. }
      destruct (event_cases i a Ha) as [(? & _)|(_ & _ & Hca & _)], (event_cases j b Hb) as [(? & _)|(_ & _ & Hcb & _)]; try lia.
      apply Hne. by rewrite Hca, Hcb.
  - split; [cbn; lia|]. intros _. exists 0, 1. eexists _, _. split; [by left|]. split; [right; by left|]. split; [reflexivity|]. split; [reflexivity|]. done.
Qed.

Lemma provenance_campaigns : exists c, build_campaigns (H := HashingEmbedder 128) all_events provenance_config = Some [c] /\ ca_events c = attack_ids.
Proof.
  destruct (build_campaigns_groups (H := HashingEmbedder 128) all_events provenance_config) as (cs & groups & -> & Hnd & Hin & Hf & _).
  assert (groups = [[0; 1; 2; 3]]) as ->.
  { setoid_rewrite eligible_groups in Hin. destruct groups as [|l1 [|l2 ls]].
    - specialize (Hin [0; 1; 2; 3]). destruct Hin as [_ Hin]. by specialize (Hin eq_refl); apply not_elem_of_nil in Hin.
    - f_equal. apply Hin. by left.
    - exfalso. apply NoDup_cons in Hnd as [Hnd _]. apply Hnd. rewrite (proj1 (Hin l1)) by (by left). rewrite (proj1 (Hin l2)) by (right; by left). by left. }
  apply Forall2_cons_inv_l in Hf as (c & cs' & Hd & Hf & ->). apply Forall2_nil_inv_l in Hf as ->. exists c. split; [done|].
  destruct Hd as ((evs & Hp & -> & Hs) & _).
  assert (exists e0 e1 e2 e3, omap (fun i => all_events !! i) [0; 1; 2; 3] = [e0; e1; e2; e3] /\ ev_id <$> [e0; e1; e2; e3] = attack_ids /\
    ev_ts <$> [e0; e1; e2; e3] = [BASE_TS; BASE_TS + STEP; BASE_TS + 2 * STEP; BASE_TS + 3 * STEP]%Z) as (e0 & e1 & e2 & e3 & Ho & Hids & Hts).
  { do 4 eexists. split; [reflexivity|]. split; reflexivity. }
  rewrite Ho in Hp. injection Hts as H0' H1' H2' H3'. rewrite <- Hids. f_equal. unfold STEP in *.
  refine (StronglySorted_unique_strong _ _ _ _ Hs _ Hp).
  - intros x y Hx Hy [?|[? _]] [?|[? _]]; try lia. rewrite Hp in Hx. rewrite !elem_of_cons, elem_of_nil in Hx, Hy.
    destruct Hx as [->|[->|[->|[->|[]]]]], Hy as [->|[->|[->|[->|[]]]]]; try done; lia.
  - repeat (apply SSorted_cons; [|repeat (apply Forall_cons_2; [left; lia|]); apply Forall_nil_2]). apply SSorted_nil.
Qed.
(** The causal graph of the attack, in ASCII. *)
Definition attack_techniques : gmap string string := list_to_map (zip attack_ids ((fun s => s.1.1.2) <$> stages)).
Definition eval_causal : CausalConfig := mkCausalConfig (60 * 60 * 1000000) 4.

Lemma attack_known c : ca_events c = attack_ids ->
  omap (fun id => by_id all_events !! id) (ca_events c) = le_event <$> imap (stage_event now) stages.
Proof. intros ->. reflexivity. Qed.

Lemma attack_chain : let g := cb_graph (build_causal_graph (H := demo_lower) (H0 := fun _ _ => "") attack_techniques eval_causal (le_event <$> imap (stage_event now) stages)) in
  (chain ← beam_select g 4; steps ← mapM (step_at g) (ch_path chain); Some (is_event_id <$> steps, distinct (omap is_technique steps)))
  = Some (attack_ids, (fun s => s.1.1.2) <$> stages).
Proof. vm_compute. reflexivity. Qed.
Definition demo_scenario (name : string) : Scenario :=
  mkScenario name scenario_events ((fun s => s.1.1.1.1) <$> stages) ((fun s => s.1.1.2) <$> stages).

Lemma provenance_top c : ca_events c = attack_ids ->
  top_chain all_events attack_techniques base_config [c] = Some ((fun s => s.1.1.2) <$> stages, attack_ids).
Proof.
  intros Hc. pose proof (beam_laws 4) as Hlaws. unfold top_chain. cbv zeta. change (mkCausalConfig _ _) with eval_causal.
  destruct (build_incident_total (H2 := BeamSearchSelector 4) 0 c all_events attack_techniques eval_causal) as (inc & Hi & _).
  rewrite Hi. cbn [mbind option_bind]. apply incident_chain in Hi as [Hchain ->]. rewrite (attack_known c Hc) in Hchain.
  rewrite (graph_ascii _ demo_lower _ (fun _ _ => "")) in Hchain by (by repeat constructor).
  pose proof attack_chain as Ha. cbv zeta in Ha. unfold select, BeamSearchSelector in Hchain.
  destruct (beam_select _ 4) as [chain|]; [|done]. cbn [mbind option_bind] in Hchain, Ha. rewrite Hchain in Ha.
  cbn [mbind option_bind] in Ha. injection Ha as H1' H2'. by rewrite H1', H2'.
Qed.

(** The labels found, and the true ones. *)
Definition attack_labels : list label := replicate 4 1%Z ++ replicate 12 0%Z.

Lemma provenance_predict name : predict ProvenanceOnly all_events (positions all_events) attack_techniques (demo_scenario name) 4 base_config =
  Some (attack_labels, 1, (fun s => s.1.1.2) <$> stages, attack_ids).
Proof.
  unfold predict. change (mkCampaignConfig _ _ _ _ _ _) with provenance_config. destruct provenance_campaigns as (c & -> & Hc).
  cbn [mbind option_bind]. cbn [mark_candidates]. rewrite Hc.
  assert (mark_events (positions all_events) (wrap_u32 (wrap_u32 (Z.of_nat 0) + 1)) attack_ids (replicate (length all_events) 0%Z) = Some attack_labels) as -> by reflexivity.
  cbn [mbind option_bind]. by rewrite (provenance_top c Hc).
Qed.

Lemma sigma_predict name : predict SigmaOnly all_events (positions all_events) attack_techniques (demo_scenario name) 4 base_config =
  Some ([2; 3; 4; 5]%Z ++ replicate 12 0%Z, 4, (fun s => s.1.1.2) <$> stages, []).
Proof. reflexivity. Qed.

Lemma attack_ari : adjusted_rand_index attack_labels attack_labels = Some (f64_of 1).
Proof. rewrite ari_eq by done. vm_compute. reflexivity. Qed.
Lemma sigma_ari : exists r, adjusted_rand_index ([2; 3; 4; 5]%Z ++ replicate 12 0%Z) attack_labels = Some r /\ f64_lt r (f64_of 1) = true.
Proof. rewrite ari_eq by done. eexists. split; [reflexivity|]. vm_compute. reflexivity. Qed.

Lemma attack_report name : exists report p s, run_eval (demo_scenario name) = Some report /\ er_alerts report = 4 /\
  er_rows report !! 1 = Some p /\ er_rows report !! 3 = Some s /\
  (vr_ari p = f64_of 1 /\ vr_technique_f1 p = f64_of 1 /\ vr_chain_similarity p = f64_of 1 /\ vr_incidents p = 1 /\ vr_alert_reduction p = f64_lit 3 4) /\
  (f64_lt (vr_ari s) (f64_of 1) = true /\ vr_chain_similarity s = f64_of 0 /\ vr_incidents s = 4 /\ vr_alert_reduction s = f64_of 0).
Proof.
  destruct (run_eval_total (demo_scenario name)) as (report & Hr & _ & Halerts & Hrows).
  change (length _) with 4 in Halerts. rewrite Halerts in Hrows.
  pose proof (Hrows 1 ProvenanceOnly eq_refl) as Hp. pose proof (Hrows 3 SigmaOnly eq_refl) as Hs. clear Hrows.
  change (le_event <$> sn_events (demo_scenario name)) with all_events in *.
  change ((fun le => default 0%Z (le_campaign le)) <$> sn_events (demo_scenario name)) with attack_labels in *.
  change (foldl _ ∅ (sn_events (demo_scenario name))) with attack_techniques in *.
  unfold score_variant in Hp, Hs. rewrite provenance_predict in Hp. rewrite sigma_predict in Hs. cbn [mbind option_bind] in Hp, Hs.
  rewrite attack_ari in Hp. destruct sigma_ari as (r & Hra & Hlt). rewrite Hra in Hs. cbn [mbind option_bind] in Hp, Hs.
  destruct (nmi_total attack_labels attack_labels eq_refl) as [nmi Hn]. rewrite Hn in Hp.
  destruct (nmi_total ([2; 3; 4; 5]%Z ++ replicate 12 0%Z) attack_labels eq_refl) as [nmi' Hn']. rewrite Hn' in Hs. cbn [mbind option_bind] in Hp, Hs.
  change (truth_chain (demo_scenario name)) with attack_ids in *. change (truth_techniques (demo_scenario name)) with ((fun s => s.1.1.2) <$> stages) in *.
  assert (normalized_chain_similarity attack_ids attack_ids = Some (f64_of 1)) as E1 by (vm_compute; reflexivity).
  assert (normalized_chain_similarity [] attack_ids = Some (f64_of 0)) as E2 by (vm_compute; reflexivity).
  rewrite E1 in Hp. rewrite E2 in Hs. cbn [mbind option_bind] in Hp, Hs.
  exists report. eexists _, _. split; [exact Hr|]. split; [done|]. split; [symmetry; exact Hp|]. split; [symmetry; exact Hs|].
  split; cbn [vr_ari vr_technique_f1 vr_chain_similarity vr_incidents vr_alert_reduction]; split_and!; try done; vm_compute; reflexivity.
Qed.
End report.

(** The evaluation harness.  On every scenario the harness ends with a
    report of one row for each of the four variants, none of its assertions
    and indices failing.  On the synthetic intrusion, whatever the seed, the
    clock, the hash functions and the logarithm, shared entities alone recover
    the attack: one incident, the right grouping, every technique, and the
    kill chain in order; the baseline without correlation groups worse, leaves
    the four alerts apart and reconstructs nothing. *)
Theorem evaluation_spec `{Casing} `{TokenHash} `{FloatFixed} `{FloatFixed32} `{HashOrderLaws} `{CountOrderLaws} `{Ln} :
  (forall scenario, exists report, run_eval scenario = Some report /\
     vr_variant <$> er_rows report = ["combined"; "provenance-only"; "semantic-only"; "sigma-only"]) /\
  forall now seed, exists scenario report p s, synthetic now seed = Some scenario /\ run_eval scenario = Some report /\ er_alerts report = 4 /\
    er_rows report !! 1 = Some p /\ er_rows report !! 3 = Some s /\
    (vr_ari p = f64_of 1 /\ vr_technique_f1 p = f64_of 1 /\ vr_chain_similarity p = f64_of 1 /\ vr_incidents p = 1 /\ vr_alert_reduction p = f64_lit 3 4) /\
    (f64_lt (vr_ari s) (vr_ari p) = true /\ vr_chain_similarity s = f64_of 0 /\ vr_incidents s = 4 /\ vr_alert_reduction s = f64_of 0).
Proof.
  split.
  - intros scenario. destruct (run_eval_total scenario) as (report & Hr & Hv & _). by exists report.
  - intros now seed. unfold synthetic. destruct (noise_loop_total now (seq 0 12) (Z.lxor seed 24301)) as (noise & Hn & Hf).
    rewrite Hn. cbn [mbind option_bind]. destruct (noise_function now 0 12 noise Hf) as (f & -> & Hhosts).
    destruct (attack_report now f Hhosts ("synthetic@" +:+ show_u64 seed)) as (report & p & s & Hr & Ha & Hp & Hs & Hrow & Hrow').
    eexists _, report, p, s. rewrite (proj1 Hrow). exact (conj eq_refl (conj Hr (conj Ha (conj Hp (conj Hs (conj (conj eq_refl (proj2 Hrow)) Hrow')))))).
Qed.

Section demo.
#[local] Existing Instance demo_lower.
#[local] Instance demo_token_hash : TokenHash := fun s => Z.of_nat (String.length s).
#[local] Instance demo_fixed : FloatFixed := fun _ _ => "0".
#[local] Instance demo_fixed32 : FloatFixed32 := fun _ _ => "0".
#[local] Instance demo_ln : Ln := fun x => x.
#[local] Instance demo_hash_order : HashOrder := { id_order := elements; link_order := map_to_list; group_order := map_to_list }.
#[local] Instance demo_hash_order_laws : HashOrderLaws.
Proof. by split. Qed.
#[local] Instance demo_count_order : CountOrder := { joint_order := map_to_list; count_order := map_to_list }.
#[local] Instance demo_count_order_laws : CountOrderLaws.
Proof. by split. Qed.

Lemma evaluation_spec_witness : exists scenario report p, synthetic Z.of_nat 7 = Some scenario /\ run_eval scenario = Some report /\
  er_rows report !! 1 = Some p /\ vr_ari p = f64_of 1.
Proof.
  destruct evaluation_spec as [_ Hs]. destruct (Hs Z.of_nat 7%Z) as (scenario & report & p & s & Hsy & Hr & _ & Hp & _ & (Ha & _) & _).
  exact (ex_intro _ scenario (ex_intro _ report (ex_intro _ p (conj Hsy (conj Hr (conj Hp Ha)))))).
Defined.
End demo.
