(* ===== verification/Host.v ===== *)
(** * The endpoint an agent runs on

    What [sigil-agent] reads of the operating system: files, processes,
    sockets and directories, as the crates [sysinfo], [netstat2] and
    [std::fs] hand them over, with the helpers of [collector/mod.rs].  Names
    and paths are byte strings; the text forms the agent sends replace bytes
    that are no UTF-8. *)

From stdpp Require Import gmap strings list.
From S2P Require Import Prelude Utf8 Containers Core EdrMap.

(** ** What the system hands over *)

(** A file as [std::fs::metadata] and [read] show it. *)
Record FileNode : Set := mkNode { fn_regular : bool; fn_readable : bool; fn_content : string; fn_mode : Z }.
Abbreviation Files := (gmap string FileNode).

(** [sysinfo::Process]. *)
Record OsProcess : Set := mkOs {
  os_pid : Z; os_parent : option Z; os_name : string; os_exe : option string; os_cmd : list string; os_user : option string
}.

(** [netstat2]: a TCP socket with its addresses as text, or another one. *)
Inductive Socket : Set :=
  | Tcp (local : string) (lport : Z) (remote : string) (rport : Z) (pids : list Z)
  | Udp (local : string) (lport : Z).

Definition file_len (n : FileNode) : Z := Z.of_nat (String.length (fn_content n)).

(** SHA-256 as lowercase hexadecimal. *)
Class Sha256 := sha256_hex : string -> string.

(** [sha256_file]: nothing when the file is missing, unreadable or too large. *)
Definition sha256_file `{Sha256} (files : Files) (path : string) (max_bytes : Z) : option string :=
  n ← files !! path;
  if negb (fn_regular n) || bool_decide (max_bytes < file_len n)%Z then None
  else if fn_readable n then Some (sha256_hex (fn_content n)) else None.

(** [PathBuf::join] of a relative name, on a Unix system. *)
Definition path_join (dir name : string) : string :=
  if is_empty_str dir || ends_with "/" dir then dir +:+ name else (dir +:+ "/" +:+ name)%string.

(** ** Fresh events *)

(** [kind as i32]. *)
Definition kind_number (k : EventKind) : Z :=
  match k with
  | Unspecified => 0 | ProcessStart => 1 | ProcessStop => 2 | FileCreate => 3 | FileModify => 4 | FileDelete => 5
  | NetworkConnect => 6 | DnsQuery => 7 | ModuleLoad => 8 | RegistrySet => 9 | PersistenceAdd => 10
  end.

Lemma event_kind_number k : event_kind (kind_number k) = k.
Proof. by destruct k. Qed.

(** [Process::default], [EndpointEvent::default]. *)
Definition Process_default : Process := mkProcess 0 0 "" "" "" "" "".

(** An event waiting for its number. *)
Abbreviation draft := (nat -> EndpointEvent).

Section events.
(** The identifiers and clock readings of an agent, in order. *)
Context (ulid : nat -> string) (now : nat -> Z).

(** [new_event], the [n]th of the agent. *)
Definition new_event (k : EventKind) (n : nat) : EndpointEvent :=
  mkEndpoint (ulid n) (now n) (kind_number k) None None None None None None None None "" [].

Definition with_process (p : Process) (d : draft) : draft := fun n =>
  let e := d n in
  mkEndpoint (ee_id e) (ee_ts e) (ee_kind e) (Some p) (ee_parent e) (ee_file e) (ee_network e) (ee_dns e) (ee_module e)
    (ee_registry e) (ee_persistence e) (ee_user e) (ee_extra e).
Definition with_parent (p : Process) (d : draft) : draft := fun n =>
  let e := d n in
  mkEndpoint (ee_id e) (ee_ts e) (ee_kind e) (ee_process e) (Some p) (ee_file e) (ee_network e) (ee_dns e) (ee_module e)
    (ee_registry e) (ee_persistence e) (ee_user e) (ee_extra e).
Definition with_file (f : FileInfo) (d : draft) : draft := fun n =>
  let e := d n in
  mkEndpoint (ee_id e) (ee_ts e) (ee_kind e) (ee_process e) (ee_parent e) (Some f) (ee_network e) (ee_dns e) (ee_module e)
    (ee_registry e) (ee_persistence e) (ee_user e) (ee_extra e).
Definition with_network (i : NetworkInfo) (d : draft) : draft := fun n =>
  let e := d n in
  mkEndpoint (ee_id e) (ee_ts e) (ee_kind e) (ee_process e) (ee_parent e) (ee_file e) (Some i) (ee_dns e) (ee_module e)
    (ee_registry e) (ee_persistence e) (ee_user e) (ee_extra e).
Definition with_persistence (i : PersistenceInfo) (d : draft) : draft := fun n =>
  let e := d n in
  mkEndpoint (ee_id e) (ee_ts e) (ee_kind e) (ee_process e) (ee_parent e) (ee_file e) (ee_network e) (ee_dns e) (ee_module e)
    (ee_registry e) (Some i) (ee_user e) (ee_extra e).
Definition with_user (u : string) (d : draft) : draft := fun n =>
  let e := d n in
  mkEndpoint (ee_id e) (ee_ts e) (ee_kind e) (ee_process e) (ee_parent e) (ee_file e) (ee_network e) (ee_dns e) (ee_module e)
    (ee_registry e) (ee_persistence e) u (ee_extra e).

(** Drafts numbered from [n], in order. *)
Definition stamp (n : nat) (l : list draft) : list EndpointEvent := imap (fun i d => d (n + i)) l.

Lemma stamp_length n l : length (stamp n l) = length l.
Proof. apply length_imap. Qed.

Lemma stamp_cons n d l : stamp n (d :: l) = d n :: stamp (S n) l.
Proof.
  unfold stamp. rewrite imap_cons, Nat.add_0_r. f_equal. apply imap_ext. intros i x _. cbn. by rewrite Nat.add_succ_r.
Qed.

Lemma stamp_app n l k : stamp n (l ++ k) = stamp n l ++ stamp (n + length l) k.
Proof. unfold stamp. rewrite imap_app. f_equal. apply imap_ext. intros i x _. cbn. by rewrite Nat.add_assoc. Qed.

Lemma elem_of_stamp n l e : e ∈ stamp n l -> exists i d, n <= i < n + length l /\ d ∈ l /\ e = d i.
Proof.
  intros (i & He)%list_elem_of_lookup. unfold stamp in He. rewrite list_lookup_imap in He.
  apply fmap_Some in He as (d & Hd & ->). exists (n + i), d.
  pose proof (lookup_lt_Some _ _ _ Hd). split_and!; [lia|lia|by eapply list_elem_of_lookup_2|done].
Qed.
End events.

(** A stand-in for SHA-256 in the examples. *)
Definition demo_sha : Sha256 := fun s => s.
