(* ===== verification/Collect.v ===== *)
(** * [sigil-agent/src/collector]: what an agent reports

    The four collectors with the baseline each keeps, and the thread that
    polls them.  A poll reads the system, drafts its events and numbers them;
    the order in which a [HashMap] hands out the processes that are gone is a
    parameter. *)

From stdpp Require Import gmap strings list.
From S2P Require Import Prelude Utf8 Containers Core EdrMap Host.

(** ** Collectors *)

(** *** [process.rs] *)

Record Known : Set := mkKnown { kn_name : string; kn_path : string }.
Record ProcessCollector : Type := mkPC { pc_known : gmap Z Known; pc_primed : bool }.
Definition ProcessCollector_default : ProcessCollector := mkPC ∅ false.

Class PidOrder := pid_order : gmap Z Known -> list (Z * Known).
Class PidOrderLaws `{PidOrder} : Prop := pid_order_perm m : pid_order m ≡ₚ map_to_list m.

Definition PROCESS_HASH_MAX : Z := 50 * 1024 * 1024.

(** The text of an executable's path, empty when there is none. *)
Definition exe_text (p : OsProcess) : string := default "" (from_utf8_lossy <$> os_exe p).
Definition known_of (p : OsProcess) : Known := mkKnown (from_utf8_lossy (os_name p)) (exe_text p).
Definition find_process (all : list OsProcess) (i : Z) : option OsProcess :=
  head (filter (fun p => os_pid p = i) all).

Section process.
Context `{Sha256} (ulid : nat -> string) (now : nat -> Z).

Definition process_info (files : Files) (p : OsProcess) : Process :=
  mkProcess (os_pid p) (default 0%Z (os_parent p)) (from_utf8_lossy (os_name p)) (exe_text p)
    (join " " (from_utf8_lossy <$> os_cmd p))
    (default "" (os_exe p ≫= fun path => sha256_file files path PROCESS_HASH_MAX))
    (default "" (os_user p)).

Definition start_event (files : Files) (all : list OsProcess) (p : OsProcess) : draft :=
  let info := process_info files p in
  let d := with_process info (with_user (p_user info) (new_event ulid now ProcessStart)) in
  if bool_decide (ppid info = 0%Z) then d
  else match find_process all (ppid info) with
       | Some parent => with_parent (mkProcess (ppid info) 0 (from_utf8_lossy (os_name parent)) (exe_text parent) "" "" "") d
       | None => d
       end.

Definition stop_event (ik : Z * Known) : draft :=
  with_process (mkProcess ik.1 0 (kn_name ik.2) (kn_path ik.2) "" "" "") (new_event ulid now ProcessStop).

(** The loop over the processes: the new baseline, and the starts. *)
Fixpoint process_loop (c : ProcessCollector) (files : Files) (all rest : list OsProcess) (current : gmap Z Known)
    (events : list draft) : gmap Z Known * list draft :=
  match rest with
  | [] => (current, events)
  | p :: rest =>
      let current := <[os_pid p := known_of p]> current in
      let events := if pc_primed c && bool_decide (pc_known c !! os_pid p = None) then events ++ [start_event files all p] else events in
      process_loop c files all rest current events
  end.

Definition process_poll `{PidOrder} (files : Files) (all : list OsProcess) (c : ProcessCollector) : ProcessCollector * list draft :=
  let '(current, events) := process_loop c files all all ∅ [] in
  let gone := filter (fun ik => current !! ik.1 = None) (pid_order (pc_known c)) in
  (mkPC current true, if pc_primed c then events ++ (stop_event <$> gone) else events).
End process.

(** *** [network.rs] *)

Record NetworkCollector : Type := mkNC { nc_seen : gset string; nc_primed : bool }.
Definition NetworkCollector_default : NetworkCollector := mkNC ∅ false.

(** The connections among the sockets, with the process of each. *)
Record Connection : Set := mkConn { cn_local : string; cn_lport : Z; cn_remote : string; cn_rport : Z; cn_pid : Z }.
Definition connection (s : Socket) : option Connection :=
  match s with
  | Udp _ _ => None
  | Tcp l lp r rp pids =>
      if bool_decide (rp = 0%Z) || bool_decide (r = "0.0.0.0") || bool_decide (r = "::") then None
      else Some (mkConn l lp r rp (default 0%Z (head pids)))
  end.
Definition connection_key (c : Connection) : string :=
  cn_local c +:+ ":" +:+ show_u64 (cn_lport c) +:+ "->" +:+ cn_remote c +:+ ":" +:+ show_u64 (cn_rport c) +:+ "/" +:+ show_u64 (cn_pid c).

Section network.
Context (ulid : nat -> string) (now : nat -> Z).

Definition connect_event (c : Connection) : draft :=
  let d := with_network (mkNetwork "tcp" (cn_local c) (cn_lport c) (cn_remote c) (cn_rport c) "outbound") (new_event ulid now NetworkConnect) in
  if bool_decide (cn_pid c = 0%Z) then d else with_process (mkProcess (cn_pid c) 0 "" "" "" "" "") d.

Fixpoint network_loop (c : NetworkCollector) (sockets : list Socket) (current : gset string) (events : list draft) :
    gset string * list draft :=
  match sockets with
  | [] => (current, events)
  | s :: sockets =>
      match connection s with
      | None => network_loop c sockets current events
      | Some conn =>
          let key := connection_key conn in
          network_loop c sockets ({[key]} ∪ current)
            (if nc_primed c && bool_decide (key ∉ nc_seen c) then events ++ [connect_event conn] else events)
      end
  end.

(** [None]: the sockets cannot be read. *)
Definition network_poll (sockets : option (list Socket)) (c : NetworkCollector) : NetworkCollector * list draft :=
  match sockets with
  | None => (c, [])
  | Some sockets => let '(current, events) := network_loop c sockets ∅ [] in (mkNC current true, events)
  end.
End network.

(** *** [persistence.rs], on Linux *)

Record PersistenceCollector : Type := mkPsC { psc_seen : gset string; psc_primed : bool }.
Definition PersistenceCollector_default : PersistenceCollector := mkPsC ∅ false.

Record Location : Set := mkLoc { loc_kind : string; loc_dir : string }.
Definition locations : list Location :=
  [mkLoc "cron" "/etc/cron.d"; mkLoc "cron" "/var/spool/cron/crontabs";
   mkLoc "systemd" "/etc/systemd/system"; mkLoc "systemd" "/lib/systemd/system"].

(** [read_dir]: [None] when the directory cannot be read, and so for each entry. *)
Abbreviation ReadDir := (string -> option (list (option string))).

(** The entries of a location that can be read: name and path, as text. *)
Definition entry_path (l : Location) (name : string) : string := from_utf8_lossy (path_join (loc_dir l) name).
Definition entry_key (l : Location) (name : string) : string := loc_kind l +:+ "::" +:+ entry_path l name.

Section persistence.
Context (ulid : nat -> string) (now : nat -> Z).

Definition add_event (l : Location) (name : string) : draft :=
  with_persistence (mkPersistence (loc_kind l) (from_utf8_lossy name) (entry_path l name)) (new_event ulid now PersistenceAdd).

Fixpoint entries_loop (c : PersistenceCollector) (l : Location) (entries : list (option string)) (current : gset string)
    (events : list draft) : gset string * list draft :=
  match entries with
  | [] => (current, events)
  | None :: entries => entries_loop c l entries current events
  | Some name :: entries =>
      let key := entry_key l name in
      entries_loop c l entries ({[key]} ∪ current)
        (if psc_primed c && bool_decide (key ∉ psc_seen c) then events ++ [add_event l name] else events)
  end.

Fixpoint locations_loop (c : PersistenceCollector) (read_dir : ReadDir) (ls : list Location) (current : gset string)
    (events : list draft) : gset string * list draft :=
  match ls with
  | [] => (current, events)
  | l :: ls =>
      match read_dir (loc_dir l) with
      | None => locations_loop c read_dir ls current events
      | Some entries =>
          let '(current, events) := entries_loop c l entries current events in
          locations_loop c read_dir ls current events
      end
  end.

Definition persistence_poll (read_dir : ReadDir) (c : PersistenceCollector) : PersistenceCollector * list draft :=
  let '(current, events) := locations_loop c read_dir locations ∅ [] in (mkPsC current true, events).
End persistence.

(** *** [file.rs] *)

Inductive NotifyKind : Set := NCreate | NModify | NRemove | NOther.
Record NotifyEvent : Set := mkNotify { nt_kind : NotifyKind; nt_paths : list string }.

Definition FILE_HASH_MAX : Z := 25 * 1024 * 1024.
Definition file_kind (k : NotifyKind) : option EventKind :=
  match k with NCreate => Some FileCreate | NModify => Some FileModify | NRemove => Some FileDelete | NOther => None end.

Section file.
Context `{Sha256} (ulid : nat -> string) (now : nat -> Z).

Definition file_event (files : Files) (k : EventKind) (path : string) : draft :=
  let hash := match k with FileDelete => "" | _ => default "" (sha256_file files path FILE_HASH_MAX) end in
  with_file (mkFile (from_utf8_lossy path) hash (default 0%Z (file_len <$> files !! path)) "") (new_event ulid now k).

(** Everything the watcher sent since the last poll; errors are skipped. *)
Fixpoint file_poll (files : Files) (queue : list (result NotifyEvent)) : list draft :=
  match queue with
  | [] => []
  | Err _ :: queue => file_poll files queue
  | Ok e :: queue =>
      match file_kind (nt_kind e) with
      | None => file_poll files queue
      | Some k => (file_event files k <$> nt_paths e) ++ file_poll files queue
      end
  end.
End file.

(** ** What a poll reports *)

Definition baseline (all : list OsProcess) : gmap Z Known := foldl (fun m p => <[os_pid p := known_of p]> m) ∅ all.
Definition pids (all : list OsProcess) : gset Z := list_to_set (os_pid <$> all).

Lemma baseline_dom all : dom (baseline all) = pids all.
Proof.
  unfold baseline, pids. cut (forall m : gmap Z Known, dom (foldl (fun m p => <[os_pid p := known_of p]> m) m all) = dom m ∪ list_to_set (os_pid <$> all)).
  { intros Hg. rewrite Hg. set_solver. }
  induction all as [|p all IH]; intros m; cbn; [set_solver|]. rewrite IH, dom_insert_L. set_solver.
Qed.

Section process_spec.
Context `{Sha256} `{PidOrderLaws} (ulid : nat -> string) (now : nat -> Z).

Lemma process_loop_spec c files all rest current events :
  process_loop ulid now c files all rest current events =
  (foldl (fun m p => <[os_pid p := known_of p]> m) current rest,
   if pc_primed c then events ++ (start_event ulid now files all <$> filter (fun p => pc_known c !! os_pid p = None) rest) else events).
Proof.
  revert current events. induction rest as [|p rest IH]; intros current events; cbn [process_loop foldl].
  { destruct (pc_primed c); [|done]. by rewrite app_nil_r. }
  rewrite IH. f_equal. destruct (pc_primed c); [|done]. cbn [andb]. rewrite filter_cons.
  case_bool_decide; rewrite ?decide_True, ?decide_False by done; [|done]. cbn. by rewrite <- app_assoc.
Qed.

(** The processes that are new, and those that are gone. *)
Definition started (known : gmap Z Known) (all : list OsProcess) : list OsProcess :=
  filter (fun p => known !! os_pid p = None) all.
Definition stopped (known : gmap Z Known) (all : list OsProcess) : list (Z * Known) :=
  filter (fun ik => baseline all !! ik.1 = None) (pid_order known).

Lemma process_poll_spec files all c :
  process_poll ulid now files all c =
  (mkPC (baseline all) true,
   if pc_primed c then (start_event ulid now files all <$> started (pc_known c) all) ++ (stop_event ulid now <$> stopped (pc_known c) all) else []).
Proof.
  unfold process_poll. rewrite process_loop_spec. cbn [app]. by destruct (pc_primed c).
Qed.

(** Someone who follows the events: the processes that run. *)
Definition follow (live : gset Z) (e : EndpointEvent) : gset Z :=
  match event_kind (ee_kind e), ee_process e with
  | ProcessStart, Some p => {[pid p]} ∪ live
  | ProcessStop, Some p => live ∖ {[pid p]}
  | _, _ => live
  end.

Lemma start_event_spec files all p n : let e := start_event ulid now files all p n in
  event_kind (ee_kind e) = ProcessStart /\ ee_process e = Some (process_info files p) /\
  ee_user e = p_user (process_info files p) /\ ee_id e = ulid n /\ ee_ts e = now n.
Proof. unfold start_event. case_bool_decide; [done|]. by destruct (find_process _ _). Qed.

Lemma follow_starts files all ps n live :
  foldl follow live (stamp n (start_event ulid now files all <$> ps)) = live ∪ pids ps.
Proof.
  revert n live. induction ps as [|p ps IH]; intros n live; [cbn; set_solver|].
  rewrite fmap_cons, stamp_cons. cbn [foldl]. rewrite IH. unfold follow at 1.
  destruct (start_event_spec files all p n) as (-> & -> & _). unfold pids. cbn. set_solver.
Qed.

Lemma follow_stops iks n live :
  foldl follow live (stamp n (stop_event ulid now <$> iks)) = live ∖ list_to_set iks.*1.
Proof.
  revert n live. induction iks as [|ik iks IH]; intros n live; [cbn; set_solver|].
  rewrite fmap_cons, stamp_cons. cbn [foldl]. rewrite IH. unfold follow at 1. cbn. set_solver.
Qed.

Lemma started_pids known all : pids (started known all) = pids all ∖ dom known.
Proof.
  unfold pids, started. apply set_eq. intros i. rewrite elem_of_difference, !elem_of_list_to_set, !list_elem_of_fmap, not_elem_of_dom.
  setoid_rewrite list_elem_of_filter. naive_solver.
Qed.

Lemma stopped_pids known all : list_to_set (stopped known all).*1 = dom known ∖ pids all.
Proof.
  unfold stopped. apply set_eq. intros i. rewrite elem_of_difference, elem_of_list_to_set, list_elem_of_fmap, <- baseline_dom, not_elem_of_dom.
  setoid_rewrite list_elem_of_filter. setoid_rewrite pid_order_perm. rewrite elem_of_dom. split.
  - intros ([j k] & -> & Hn & Hin%elem_of_map_to_list). cbn in *. eauto.
  - intros [[k Hk] Hn]. exists (i, k). split_and!; [done|done|]. by apply elem_of_map_to_list.
Qed.

(** A run of the collector from its [n]th event. *)
Fixpoint process_run (n : nat) (c : ProcessCollector) (snaps : list (Files * list OsProcess)) : list (list EndpointEvent) :=
  match snaps with
  | [] => []
  | (files, all) :: snaps =>
      let '(c, drafts) := process_poll ulid now files all c in
      stamp n drafts :: process_run (n + length drafts) c snaps
  end.

(** The events of a poll, given the processes of the poll before. *)
Definition process_changes (n : nat) (prev : list OsProcess) (files : Files) (all : list OsProcess) : list EndpointEvent :=
  stamp n ((start_event ulid now files all <$> started (baseline prev) all) ++ (stop_event ulid now <$> stopped (baseline prev) all)).

Lemma follow_changes n prev files all : foldl follow (pids prev) (process_changes n prev files all) = pids all.
Proof.
  unfold process_changes. rewrite stamp_app, foldl_app, follow_starts, follow_stops, started_pids, stopped_pids, baseline_dom.
  apply set_eq. intros i. destruct (decide (i ∈ pids all)), (decide (i ∈ pids prev)); set_solver.
Qed.

(** The lists of events of the polls after [prev]. *)
Inductive reports : nat -> list OsProcess -> list (Files * list OsProcess) -> list (list EndpointEvent) -> Prop :=
  | reports_nil n prev : reports n prev [] []
  | reports_cons n prev files all snaps rest :
      reports (n + length (process_changes n prev files all)) all snaps rest ->
      reports n prev ((files, all) :: snaps) (process_changes n prev files all :: rest).

Lemma process_run_reports snaps n prev : reports n prev snaps (process_run n (mkPC (baseline prev) true) snaps).
Proof.
  revert n prev. induction snaps as [|[files all] snaps IH]; intros n prev; cbn [process_run]; [constructor|].
  rewrite process_poll_spec. cbn [pc_primed pc_known]. rewrite <- (stamp_length n). constructor. apply IH.
Qed.

Lemma reports_follow n prev snaps rs : reports n prev snaps rs ->
  foldl follow (pids prev) (concat rs) = pids (default prev (snd <$> last snaps)).
Proof.
  induction 1 as [|n prev files all snaps rest Hr IH]; [done|]. cbn [concat]. rewrite foldl_app, follow_changes, IH.
  rewrite last_cons. destruct (last snaps); done.
Qed.

(** What an event of a poll says. *)
Lemma change_means n prev files all e : e ∈ process_changes n prev files all ->
  (exists p, p ∈ all /\ (os_pid p ∉ pids prev) /\ event_kind (ee_kind e) = ProcessStart /\ ee_process e = Some (process_info files p)) \/
  (exists i k, baseline prev !! i = Some k /\ (i ∉ pids all) /\ event_kind (ee_kind e) = ProcessStop /\
     ee_process e = Some (mkProcess i 0 (kn_name k) (kn_path k) "" "" "")).
Proof.
  unfold process_changes. intros (m & d & _ & [Hd|Hd]%elem_of_app & ->)%elem_of_stamp.
  - left. apply list_elem_of_fmap in Hd as (p & -> & [Hp Hin]%list_elem_of_filter). exists p.
    destruct (start_event_spec files all p m) as (-> & -> & _). rewrite <- baseline_dom, not_elem_of_dom. done.
  - right. apply list_elem_of_fmap in Hd as ([i k] & -> & [Hp Hin]%list_elem_of_filter). rewrite (pid_order_perm (baseline prev)) in Hin.
    exists i, k. apply elem_of_map_to_list in Hin. by rewrite <- baseline_dom, not_elem_of_dom.
Qed.
End process_spec.

(** ** Connections and entries: only what is new *)

Section inventory.
Context (ulid : nat -> string) (now : nat -> Z).

Definition open_keys (sockets : list Socket) : gset string := list_to_set (connection_key <$> omap connection sockets).

Lemma network_loop_spec c sockets current events : network_loop ulid now c sockets current events =
  (list_to_set (connection_key <$> omap connection sockets) ∪ current,
   if nc_primed c then events ++ (connect_event ulid now <$> filter (fun k => connection_key k ∉ nc_seen c) (omap connection sockets)) else events).
Proof.
  revert current events. induction sockets as [|s sockets IH]; intros current events; cbn [network_loop].
  { f_equal; [set_solver|]. destruct (nc_primed c); [|done]. by rewrite app_nil_r. }
  cbn [omap list_omap]. destruct (connection s) as [k|]; [|apply IH]. rewrite IH. f_equal; [cbn; set_solver|]. destruct (nc_primed c); [|done].
  cbn [andb]. rewrite filter_cons, bool_decide_decide. destruct (decide _); [|done].
  cbn. by rewrite <- app_assoc.
Qed.

Lemma network_poll_spec sockets c : network_poll ulid now (Some sockets) c =
  (mkNC (open_keys sockets) true,
   if nc_primed c then connect_event ulid now <$> filter (fun k => connection_key k ∉ nc_seen c) (omap connection sockets) else []).
Proof. unfold network_poll. rewrite network_loop_spec. unfold open_keys. f_equal. f_equal. set_solver. Qed.

(** The entries of all locations that can be read. *)
Definition entries_of (read_dir : ReadDir) (l : Location) : list (Location * string) :=
  (fun name => (l, name)) <$> omap id (default [] (read_dir (loc_dir l))).
Definition entries (read_dir : ReadDir) : list (Location * string) := mbind (entries_of read_dir) locations.
Definition entry_keys (es : list (Location * string)) : gset string := list_to_set ((fun e => entry_key e.1 e.2) <$> es).

#[local] Abbreviation added c es :=
  ((fun e => add_event ulid now e.1 e.2) <$> filter (fun e : Location * string => entry_key e.1 e.2 ∉ psc_seen c) es).

Lemma entries_loop_spec c l names current events : entries_loop ulid now c l names current events =
  (entry_keys ((fun name => (l, name)) <$> omap id names) ∪ current,
   if psc_primed c then events ++ added c ((fun name => (l, name)) <$> omap id names) else events).
Proof.
  revert current events. induction names as [|[name|] names IH]; intros current events; cbn [entries_loop].
  - f_equal; [set_solver|]. destruct (psc_primed c); [|done]. by rewrite app_nil_r.
  - rewrite IH. change (omap id (Some name :: names)) with (name :: omap id names).
    f_equal; [unfold entry_keys; cbn; by rewrite (assoc_L (∪)), (comm_L (∪) _ {[_]})|]. destruct (psc_primed c); [|done]. rewrite fmap_cons, filter_cons, bool_decide_decide. cbn [andb fst snd].
    destruct (decide _); [|done]. rewrite fmap_cons. cbn [fst snd]. by rewrite <- app_assoc.
  - apply IH.
Qed.

Lemma entry_keys_app a b : entry_keys (a ++ b) = entry_keys a ∪ entry_keys b.
Proof. unfold entry_keys. by rewrite fmap_app, list_to_set_app_L. Qed.

Lemma locations_loop_spec c read_dir ls current events : locations_loop ulid now c read_dir ls current events =
  (entry_keys (mbind (entries_of read_dir) ls) ∪ current,
   if psc_primed c then events ++ added c (mbind (entries_of read_dir) ls) else events).
Proof.
  revert current events. induction ls as [|l ls IH]; intros current events; cbn [locations_loop].
  { cbn. f_equal; [unfold entry_keys; cbn; set_solver|]. destruct (psc_primed c); [|done]. by rewrite app_nil_r. }
  rewrite bind_cons. destruct (read_dir (loc_dir l)) as [names|] eqn:Hr.
  - rewrite entries_loop_spec, IH. unfold entries_of at 3 5. rewrite Hr. cbn [default from_option id].
    rewrite entry_keys_app. f_equal; [by rewrite (assoc_L (∪)), (comm_L (∪) (entry_keys (_ <$> _)))|]. destruct (psc_primed c); [|done].
    by rewrite filter_app, fmap_app, <- app_assoc.
  - rewrite IH. unfold entries_of at 3 5. rewrite Hr. done.
Qed.

Lemma persistence_poll_spec read_dir c : persistence_poll ulid now read_dir c =
  (mkPsC (entry_keys (entries read_dir)) true, if psc_primed c then added c (entries read_dir) else []).
Proof. unfold persistence_poll. rewrite locations_loop_spec. f_equal. f_equal. apply (right_id_L _ _). Qed.
End inventory.

(** ** The thread that polls *)

Inductive Collector : Type :=
  | CProcess (c : ProcessCollector)
  | CFile
  | CNetwork (c : NetworkCollector)
  | CPersistence (c : PersistenceCollector).

(** [CollectorToggles], and the collectors [run] of [main.rs] builds: the
    file collector is left out when its watcher cannot be made. *)
Record CollectorToggles : Set := mkToggles { tg_process : bool; tg_file : bool; tg_network : bool; tg_persistence : bool }.
Definition CollectorToggles_default : CollectorToggles := mkToggles true true true true.
Definition build_collectors (t : CollectorToggles) (watcher : bool) : list Collector :=
  (if tg_process t then [CProcess ProcessCollector_default] else []) ++
  (if tg_file t && watcher then [CFile] else []) ++
  (if tg_network t then [CNetwork NetworkCollector_default] else []) ++
  (if tg_persistence t then [CPersistence PersistenceCollector_default] else []).

(** The system at one poll; the last field is what the watcher sent. *)
Record Observation : Type := mkObs {
  ob_files : Files; ob_procs : list OsProcess; ob_sockets : option (list Socket); ob_dirs : ReadDir;
  ob_notify : list (result NotifyEvent)
}.

(** The telemetry channel: what was sent; sending fails once it is closed. *)
Record Thread : Type := mkThread {
  th_collectors : list Collector; th_polls : nat; th_sent : list EndpointEvent; th_running : bool
}.

Section thread.
Context `{Sha256} `{PidOrder} (ulid : nat -> string) (now : nat -> Z).
Context (observe : nat -> Observation) (channel_open : nat -> bool).

Definition poll (o : Observation) (c : Collector) : Collector * list draft :=
  match c with
  | CProcess c => let '(c, l) := process_poll ulid now (ob_files o) (ob_procs o) c in (CProcess c, l)
  | CFile => (CFile, file_poll ulid now (ob_files o) (ob_notify o))
  | CNetwork c => let '(c, l) := network_poll ulid now (ob_sockets o) c in (CNetwork c, l)
  | CPersistence c => let '(c, l) := persistence_poll ulid now (ob_dirs o) c in (CPersistence c, l)
  end.

(** [blocking_send] of each event, until one fails. *)
Fixpoint forward (sent evs : list EndpointEvent) : list EndpointEvent * bool :=
  match evs with
  | [] => (sent, true)
  | e :: evs => if channel_open (length sent) then forward (sent ++ [e]) evs else (sent, false)
  end.

(** One pass over the collectors; those polled come first. *)
Fixpoint round (polls : nat) (polled cs : list Collector) (sent : list EndpointEvent) : Thread :=
  match cs with
  | [] => mkThread polled polls sent true
  | c :: cs =>
      let '(c, drafts) := poll (observe polls) c in
      let '(sent, running) := forward sent (stamp (length sent) drafts) in
      if running : bool then round (S polls) (polled ++ [c]) cs sent else mkThread (polled ++ c :: cs) (S polls) sent false
  end.

Definition thread_step (t : Thread) : Thread :=
  if th_running t then round (th_polls t) [] (th_collectors t) (th_sent t) else t.

(** [spawn]: without collectors no thread is started, and the sender is dropped. *)
Definition spawn (cs : list Collector) : Thread := mkThread cs 0 [] (negb (is_nil cs)).
Definition thread_after (rounds : nat) (cs : list Collector) : Thread := Nat.iter rounds thread_step (spawn cs).
End thread.

(** ** Following a thread *)

Section thread_spec.
Context `{Sha256} `{PidOrderLaws} (ulid : nat -> string) (now : nat -> Z).
Context (observe : nat -> Observation) (channel_open : nat -> bool).

#[local] Abbreviation poll := (poll ulid now).
#[local] Abbreviation round := (round ulid now observe channel_open).
#[local] Abbreviation thread_after := (thread_after ulid now observe channel_open).

Definition other (c : Collector) : Prop := match c with CProcess _ => False | _ => True end.
Definition quiet (d : draft) : Prop := forall n live, follow live (d n) = live.

Lemma quiet_kind d : (forall n, event_kind (ee_kind (d n)) <> ProcessStart /\ event_kind (ee_kind (d n)) <> ProcessStop) -> quiet d.
Proof. intros Hd n live. destruct (Hd n). unfold follow. by destruct (event_kind _). Qed.

Lemma quiet_stamp n l live : Forall quiet l -> foldl follow live (stamp n l) = live.
Proof.
  intros Hl. revert n. induction Hl as [|d l Hd _ IH]; intros n; [done|]. rewrite stamp_cons. cbn [foldl]. by rewrite Hd.
Qed.

Lemma file_poll_quiet files queue : Forall quiet (file_poll ulid now files queue).
Proof.
  induction queue as [|[e|] queue IH]; cbn [file_poll]; [done| |done]. destruct (file_kind (nt_kind e)) as [k|] eqn:Hk; [|done].
  apply Forall_app. split; [|done]. apply Forall_fmap, Forall_forall. intros path _. apply quiet_kind. intros n. cbn.
  rewrite event_kind_number. by destruct (nt_kind e); simplify_eq/=.
Qed.

Lemma poll_other o c : other c -> other (poll o c).1 /\ Forall quiet (poll o c).2.
Proof.
  destruct c as [c| |c|c]; intros Hc; [done|..]; cbn [Collect.poll].
  - split; [done|]. apply file_poll_quiet.
  - destruct (ob_sockets o) as [s|]; [|done]. rewrite network_poll_spec. split; [done|]. cbn [snd]. destruct (nc_primed c); [|done].
    apply Forall_fmap, Forall_forall. intros k _. apply quiet_kind. intros n. cbn. unfold connect_event. by case_bool_decide.
  - rewrite persistence_poll_spec. split; [done|]. cbn [snd]. destruct (psc_primed c); [|done].
    apply Forall_fmap, Forall_forall. intros k _. by apply quiet_kind.
Qed.

Lemma forward_spec sent evs : forward channel_open sent evs = (sent ++ evs, true) \/
  exists part rest, evs = part ++ rest /\ rest <> [] /\ forward channel_open sent evs = (sent ++ part, false).
Proof.
  revert sent. induction evs as [|e evs IH]; intros sent; cbn [forward]; [left; by rewrite app_nil_r|].
  destruct (channel_open (length sent)).
  - destruct (IH (sent ++ [e])) as [->|(part & rest & -> & Hr & ->)]; [left; by rewrite <- app_assoc|right].
    exists (e :: part), rest. by rewrite <- app_assoc.
  - right. exists [], (e :: evs). by rewrite app_nil_r.
Qed.

Lemma round_others polls polled cs sent live : Forall other cs ->
  let t := round polls polled cs sent in
  th_running t = true ->
  (exists cs', th_collectors t = polled ++ cs' /\ length cs' = length cs /\ Forall other cs') /\
  th_polls t = polls + length cs /\ foldl follow live (th_sent t) = foldl follow live sent /\ sent `prefix_of` th_sent t.
Proof.
  intros Hcs. revert polls polled sent. induction Hcs as [|c cs Hc Hcs IH]; intros polls polled sent; cbn [Collect.round].
  { intros _. cbn. split_and!; [exists []; by rewrite app_nil_r|lia|done|done]. }
  destruct (poll_other (observe polls) c Hc) as [Hc' Hq]. destruct (poll (observe polls) c) as [c' drafts]. cbn in Hc', Hq.
  destruct (forward_spec sent (stamp (length sent) drafts)) as [->|(? & ? & _ & _ & ->)]; [|done]. intros Hrun.
  destruct (IH _ _ _ Hrun) as ((cs' & -> & Hlen & Ho) & -> & -> & Hpre). split_and!.
  - exists (c' :: cs'). rewrite <- app_assoc. cbn. split_and!; [done|lia|by constructor].
  - cbn. lia.
  - rewrite foldl_app. by apply quiet_stamp.
  - etransitivity; [by eexists|exact Hpre].
Qed.

(** After a round a thread knows the processes of its last look at them. *)
Record view (t : Thread) (size : nat) (rounds : nat) : Prop := {
  vw_cs : exists c rest, th_collectors t = CProcess c :: rest /\ Forall other rest /\ length rest = size /\
    match rounds with
    | O => c = ProcessCollector_default
    | S r => c = mkPC (baseline (ob_procs (observe (r * S size)))) true
    end;
  vw_polls : th_polls t = rounds * S size;
  vw_sent : match rounds with
    | O => th_sent t = []
    | S r => foldl follow (pids (ob_procs (observe 0))) (th_sent t) = pids (ob_procs (observe (r * S size)))
    end
}.

Lemma view_step t size rounds : view t size rounds -> th_running (thread_step ulid now observe channel_open t) = true ->
  view (thread_step ulid now observe channel_open t) size (S rounds).
Proof.
  intros [(c & rest & Hcs & Ho & Hsize & Hc) Hpolls Hsent]. unfold thread_step. destruct (th_running t) eqn:Hr; [|congruence].
  rewrite Hcs, Hpolls. cbn [Collect.round Collect.poll]. rewrite process_poll_spec. cbn [fst snd app].
  set (o := observe (rounds * S size)). set (drafts := if pc_primed c then _ else _).
  destruct (forward_spec (th_sent t) (stamp (length (th_sent t)) drafts)) as [->|(? & ? & _ & _ & ->)]; [|done].
  cbv beta iota zeta. intros Hrun. destruct (round_others (S (rounds * S size)) [CProcess (mkPC (baseline (ob_procs o)) true)] rest
    (th_sent t ++ stamp (length (th_sent t)) drafts) (pids (ob_procs (observe 0))) Ho Hrun) as ((cs' & Hcs' & Hlen & Ho') & Hp & Hs & _).
  split; rewrite ?Hcs', ?Hp, ?Hs; cbn [app].
  - eexists _, cs'. split_and!; [done|done|lia|done].
  - lia.
  - rewrite foldl_app. destruct rounds as [|r].
    + rewrite Hsent. subst drafts c. cbn. done.
    + rewrite Hsent. subst drafts c. cbn [pc_primed pc_known]. apply follow_changes.
Qed.

Lemma running_before t : th_running (thread_step ulid now observe channel_open t) = true -> th_running t = true.
Proof. unfold thread_step. destruct (th_running t) eqn:Hr; congruence. Qed.

Lemma view_after toggles watcher rounds : tg_process toggles = true ->
  let cs := build_collectors toggles watcher in
  th_running (thread_after rounds cs) = true -> view (thread_after rounds cs) (pred (length cs)) rounds.
Proof.
  intros Ht cs. induction rounds as [|r IH].
  - intros _. unfold cs, build_collectors. rewrite Ht. split; [|done|done]. eexists _, _. split; [done|]. split_and!; [|done|done].
    by destruct (tg_file toggles && watcher), (tg_network toggles), (tg_persistence toggles); repeat constructor.
  - intros Hrun. cbn [Collect.thread_after] in *. unfold Collect.thread_after in *. cbn [Nat.iter] in *.
    apply view_step; [|done]. apply IH. by eapply running_before.
Qed.

(** C24: an agent whose process collector is enabled keeps its listener up to
    date: while the telemetry channel takes events, applying every start and
    stop the agent has sent, in order and among the events of all other
    collectors, to the processes of its first look gives exactly the
    processes of its last look. *)
Theorem telemetry_follows_processes toggles watcher rounds : tg_process toggles = true ->
  let cs := build_collectors toggles watcher in
  let t := thread_after (S rounds) cs in
  th_running t = true ->
  foldl follow (pids (ob_procs (observe 0))) (th_sent t) = pids (ob_procs (observe (rounds * length cs))).
Proof.
  intros Ht cs t Hrun. pose proof (view_after toggles watcher (S rounds) Ht Hrun) as [_ _ Hs]. fold cs in Hs.
  assert (S (pred (length cs)) = length cs) as Hlen by (subst cs; unfold build_collectors; by rewrite Ht).
  by rewrite Hlen in Hs.
Qed.
End thread_spec.

(** *** The collectors one by one *)

Section changes.
Context `{Sha256} `{PidOrderLaws} (ulid : nat -> string) (now : nat -> Z).

(** A collector of connections, or of entries, after the polls so far. *)
Definition network_after (hist : list (option (list Socket))) : NetworkCollector :=
  foldl (fun c s => (network_poll ulid now s c).1) NetworkCollector_default hist.
Definition persistence_after (hist : list ReadDir) : PersistenceCollector :=
  foldl (fun c r => (persistence_poll ulid now r c).1) PersistenceCollector_default hist.

Lemma network_after_spec hist : network_after hist =
  match last (omap id hist) with Some s => mkNC (open_keys s) true | None => NetworkCollector_default end.
Proof.
  induction hist as [|s hist IH] using rev_ind; [done|]. unfold network_after in *. rewrite foldl_app. cbn [foldl].
  rewrite IH, omap_app. destruct s as [s|].
  - rewrite network_poll_spec. cbn. by rewrite last_snoc.
  - cbn. by rewrite app_nil_r.
Qed.

Lemma persistence_after_spec hist : persistence_after hist =
  match last hist with Some r => mkPsC (entry_keys (entries r)) true | None => PersistenceCollector_default end.
Proof.
  induction hist as [|r hist IH] using rev_ind; [done|]. unfold persistence_after in *. rewrite foldl_app. cbn [foldl].
  by rewrite persistence_poll_spec, last_snoc.
Qed.

(** Every collector primes itself silently and then reports changes only.
    The process collector: nothing at first, then at each poll a start for
    each process whose number was not there at the poll before and a stop for
    each number that is gone, and about no other number.  The network
    collector: the connections that were not open at the last poll that could
    read the sockets.  The persistence collector: the entries that the poll
    before did not see. *)
Theorem collectors_report_changes n files0 all0 snaps hist sockets rhist read_dir :
  (exists rs, process_run ulid now n ProcessCollector_default ((files0, all0) :: snaps) = [] :: rs /\
     reports ulid now n all0 snaps rs) /\
  (forall m prev files all e, e ∈ process_changes ulid now m prev files all ->
     (exists p, p ∈ all /\ (os_pid p ∉ pids prev) /\ event_kind (ee_kind e) = ProcessStart /\ ee_process e = Some (process_info files p)) \/
     (exists i k, baseline prev !! i = Some k /\ (i ∉ pids all) /\ event_kind (ee_kind e) = ProcessStop /\
        ee_process e = Some (mkProcess i 0 (kn_name k) (kn_path k) "" "" ""))) /\
  (network_poll ulid now sockets (network_after hist)).2 =
    match sockets, last (omap id hist) with
    | Some s, Some prev => connect_event ulid now <$> filter (fun k => connection_key k ∉ open_keys prev) (omap connection s)
    | _, _ => []
    end /\
  (persistence_poll ulid now read_dir (persistence_after rhist)).2 =
    match last rhist with
    | Some prev => (fun e => add_event ulid now e.1 e.2) <$> filter (fun e => entry_key e.1 e.2 ∉ entry_keys (entries prev)) (entries read_dir)
    | None => []
    end.
Proof.
  split_and!.
  - cbn [process_run]. rewrite process_poll_spec. cbn [pc_primed ProcessCollector_default length]. rewrite Nat.add_0_r.
    eexists. split; [done|]. apply process_run_reports.
  - apply change_means.
  - rewrite network_after_spec. destruct sockets as [s|]; [|done]. rewrite network_poll_spec. by destruct (last (omap id hist)).
  - rewrite persistence_after_spec, persistence_poll_spec. by destruct (last rhist).
Qed.
End changes.

(** A number taken over by another program between two polls goes unseen:
    neither the stop of the old process nor the start of the new is sent. *)
Lemma reused_pids_unseen `{Sha256} `{PidOrderLaws} ulid now n prev files all : pids prev = pids all ->
  process_changes ulid now n prev files all = [].
Proof.
  intros Heq. unfold process_changes, started, stopped.
  assert (filter (fun p => baseline prev !! os_pid p = None) all = []) as ->.
  { apply elem_of_nil_inv. intros p [Hn Hp]%list_elem_of_filter. apply not_elem_of_dom in Hn. rewrite baseline_dom, Heq in Hn.
    apply Hn. unfold pids. apply elem_of_list_to_set, list_elem_of_fmap. eauto. }
  assert (filter (fun ik => baseline all !! ik.1 = None) (pid_order (baseline prev)) = []) as ->; [|done].
  apply elem_of_nil_inv. intros [i k] [Hn Hin]%list_elem_of_filter. rewrite (pid_order_perm (baseline prev)) in Hin.
  apply elem_of_map_to_list, elem_of_dom_2 in Hin. apply not_elem_of_dom in Hn. rewrite baseline_dom in *. cbn in *. by rewrite Heq in Hin.
Qed.

(** ** A host for the examples *)

Definition demo_order : PidOrder := map_to_list.
Lemma demo_order_laws : @PidOrderLaws demo_order.
Proof. by intros m. Qed.

Definition demo_process (i : Z) (name : string) : OsProcess := mkOs i (Some 1%Z) name (Some ("/usr/bin/" +:+ name)) [name] (Some "0").
Definition demo_observe (k : nat) : Observation :=
  mkObs {[ "/usr/bin/nc" := mkNode true true "ELF" 493 ]}
    (demo_process 1 "init" :: if (k <? 3)%nat then [demo_process 7 "sshd"] else [demo_process 9 "nc"])
    (Some [Tcp "10.0.0.2" 22 "10.0.0.9" 4444 [Z.of_nat k]; Tcp "0.0.0.0" 22 "0.0.0.0" 0 []])
    (fun dir => if bool_decide (dir = "/etc/cron.d") then Some (if (k <? 3)%nat then [] else [Some "evil"]) else None) [].
Definition demo_ulid (n : nat) : string := show_u64 (Z.of_nat n).

Definition demo_collectors : list Collector := build_collectors (mkToggles true false true true) true.
Definition demo_thread_after (rounds : nat) : Thread :=
  @thread_after demo_sha demo_order demo_ulid Z.of_nat demo_observe (fun _ => true) rounds demo_collectors.

Example demo_thread :
  map (fun e => (event_kind_name (event_kind (ee_kind e)), option_map pid (ee_process e))) (th_sent (demo_thread_after 2)) =
  [("process_start", Some 9%Z); ("process_stop", Some 7%Z); ("network_connect", Some 4%Z); ("persistence_add", None)].
Proof. vm_compute. reflexivity. Qed.

Lemma telemetry_follows_processes_witness : th_running (demo_thread_after 2) = true /\
  foldl follow (pids (ob_procs (demo_observe 0))) (th_sent (demo_thread_after 2)) = pids (ob_procs (demo_observe (1 * length demo_collectors))).
Proof.
  assert (th_running (demo_thread_after 2) = true) as Hrun by (vm_compute; reflexivity). split; [exact Hrun|].
  exact (@telemetry_follows_processes demo_sha demo_order demo_order_laws demo_ulid Z.of_nat demo_observe (fun _ => true)
    (mkToggles true false true true) true 1 eq_refl Hrun).
Defined.

Definition demo_sockets : list Socket := [Tcp "a" 1 "b" 2 [3%Z]; Udp "a" 53].
Lemma collectors_report_changes_witness : omap connection demo_sockets = [mkConn "a" 1 "b" 2 3] /\
  (network_poll demo_ulid Z.of_nat (Some demo_sockets) (network_after demo_ulid Z.of_nat [Some []; None])).2 =
  connect_event demo_ulid Z.of_nat <$> filter (fun k => connection_key k ∉ open_keys []) (omap connection demo_sockets).
Proof.
  split; [reflexivity|].
  exact (proj1 (proj2 (proj2 (@collectors_report_changes demo_sha demo_order demo_order_laws demo_ulid Z.of_nat 0 ∅ [] [] [Some []; None]
    (Some demo_sockets) [] (fun _ => None))))).
Defined.
