(* ===== verification/Respond.v ===== *)
(** * [sigil-agent/src/response]: what an agent does when it is told to

    The executors of the response commands over the state of the host: its
    files, processes and firewall, and the agent's isolation flag.  Every
    call of the system succeeds, or fails with an error's text, as a list of
    outcomes says; an exhausted list is a run without failures.  Files are
    found by the path as it is written.  The firewall tool of Linux, [nft],
    is a parameter.  [None] is a panic. *)

From stdpp Require Import gmap strings list.
From S2P Require Import Prelude Utf8 Containers Core Text Columnar Edr EdrMap Host.

(** ** The host *)

Record World (F : Type) : Type := mkWorld {
  w_files : Files; w_procs : list OsProcess; w_firewall : F; w_isolated : bool; w_outcomes : list (option string)
}.
Arguments mkWorld {F}.
Arguments w_files {F}.
Arguments w_procs {F}.
Arguments w_firewall {F}.
Arguments w_isolated {F}.
Arguments w_outcomes {F}.

(** [nft -f -] and [nft delete table inet sigil_isolate]: the new firewall,
    or nothing when the tool refuses. *)
Class Nft (F : Type) := { nft_load : string -> F -> option F; nft_delete : F -> option F }.
(** A firewall has the table [sigil_isolate] after it was loaded, and not
    after it was deleted. *)
Class NftLaws (F : Type) `{Nft F} := {
  has_table : F -> Prop;
  load_has rules f f' : nft_load rules f = Some f' -> has_table f';
  delete_has f f' : nft_delete f = Some f' -> ~ has_table f'
}.

(** [ResponseCtx]; its flag is the world's. *)
Record ResponseCtx : Set := mkCtx { quarantine_dir : string; control_host : string }.

(** ** Paths on a Unix system *)

Fixpoint drop_dots (rev_components : list string) : list string :=
  match rev_components with "." :: cs => drop_dots cs | cs => cs end%string.

(** [Path::file_name]: the last component unless it is a parent directory. *)
Definition path_file_name (path : string) : option string :=
  match drop_dots (rev (filter (fun c => c <> ""%string) (split_on "/" path))) with
  | [] => None
  | c :: _ => if bool_decide (c = ".."%string) then None else Some c
  end.

(** The part before the last dot, if that is not the first character. *)
Fixpoint before_last_dot (s : string) : option string :=
  match s with
  | EmptyString => None
  | String c r =>
      match before_last_dot r with
      | Some b => Some (String c b)
      | None => if bool_decide (c = "."%char) then Some ""%string else None
      end
  end.
Definition file_stem (name : string) : string :=
  match before_last_dot name with Some (String c b) => String c b | _ => name end.

(** ** One call of the system *)

Section respond.
Context {F : Type} `{Nft F} `{Sha256} `{Casing} `{JsonText}.

Definition Act (A : Type) : Type := World F -> World F * A.

Definition set_files (fs : Files) (w : World F) : World F :=
  mkWorld fs (w_procs w) (w_firewall w) (w_isolated w) (w_outcomes w).
Definition set_procs (l : list OsProcess) (w : World F) : World F :=
  mkWorld (w_files w) l (w_firewall w) (w_isolated w) (w_outcomes w).
Definition set_firewall (f : F) (w : World F) : World F :=
  mkWorld (w_files w) (w_procs w) f (w_isolated w) (w_outcomes w).
Definition set_isolated (b : bool) (w : World F) : World F :=
  mkWorld (w_files w) (w_procs w) (w_firewall w) b (w_outcomes w).

(** The outcome of the next call. *)
Definition attempt : Act (option string) := fun w =>
  match w_outcomes w with
  | [] => (w, None)
  | o :: l => (mkWorld (w_files w) (w_procs w) (w_firewall w) (w_isolated w) l, o)
  end.

(** A call that changes the world when it succeeds. *)
Definition call (f : World F -> World F) : Act (option string) := fun w =>
  let '(w, o) := attempt w in (match o with None => f w | Some _ => w end, o).

Definition reply : Type := bool * string.
Abbreviation no text := (false, text).

(** ** [kill.rs] *)

Definition KILL_HASH_MAX : Z := 200 * 1024 * 1024.

Definition kill_one (p : OsProcess) : Act bool := fun w =>
  let '(w, o) := call (fun w => set_procs (filter (fun q => os_pid q <> os_pid p) (w_procs w)) w) w in
  (w, bool_decide (o = None)).

(** The processes whose image has the hash, and how many were killed. *)
Definition image_matches (files : Files) (target : string) (p : OsProcess) : bool :=
  match os_exe p with Some exe => bool_decide (sha256_file files exe KILL_HASH_MAX = Some target) | None => false end.

Fixpoint kill_matching (target : string) (procs : list OsProcess) (matched killed : nat) : Act (nat * nat) := fun w =>
  match procs with
  | [] => (w, (matched, killed))
  | p :: procs =>
      if image_matches (w_files w) target p then
        let '(w, k) := kill_one p w in
        kill_matching target procs (S matched) (if k : bool then S killed else killed) w
      else kill_matching target procs matched killed w
  end.

Definition show_nat (n : nat) : string := show_u64 (Z.of_nat n).

Definition kill_run (kill : option (Z * string)) : Act (option reply) := fun w =>
  match kill with
  | None => (w, Some (no "missing kill params"))
  | Some (i, hash) =>
      if bool_decide (i <> 0%Z) then
        match head (filter (fun p => os_pid p = i) (w_procs w)) with
        | Some p =>
            let '(w, ok) := kill_one p w in
            (w, Some (if ok : bool then (true, "killed pid " +:+ show_u64 i) else no ("failed to kill pid " +:+ show_u64 i)))
        | None => (w, Some (no ("no process with pid " +:+ show_u64 i)))
        end
      else if negb (is_empty_str hash) then
        let target := to_lowercase hash in
        let '(w, (matched, killed)) := kill_matching target (w_procs w) 0 0 w in
        if bool_decide (matched = 0) then
          let n := String.length target `min` 12 in
          (w, if is_char_boundary target n then Some (no ("no running process matched hash " +:+ String.substring 0 n target)) else None)
        else (w, Some (true, "killed " +:+ show_nat killed +:+ "/" +:+ show_nat matched +:+ " process(es) matching hash"))
      else (w, Some (no "kill requires a pid or hash_sha256"))
  end%string.

(** ** [quarantine.rs] *)

Definition copy_file (src dst : string) (w : World F) : World F :=
  match w_files w !! src with Some n => set_files (<[dst := n]> (w_files w)) w | None => w end.
Definition remove_file (src : string) (w : World F) : World F := set_files (delete src (w_files w)) w.
Definition rename_file (src dst : string) (w : World F) : World F := remove_file src (copy_file src dst w).
Definition chmod_000 (path : string) (w : World F) : World F :=
  match w_files w !! path with
  | Some n => set_files (<[path := mkNode (fn_regular n) (fn_readable n) (fn_content n) 0]> (w_files w)) w
  | None => w
  end.
Definition write_file (path content : string) (w : World F) : World F :=
  set_files (<[path := mkNode true true content 420]> (w_files w)) w.

(** Where the file goes, and the note that says where it was. *)
Definition quarantined_name (ulid path : string) : string :=
  ulid +:+ "-" +:+ default "file"%string (from_utf8_lossy <$> path_file_name path).
Definition quarantine_path (dir ulid path : string) : string := path_join dir (quarantined_name ulid path).
Definition sidecar_path (dir ulid path : string) : string :=
  path_join dir (file_stem (quarantined_name ulid path) +:+ ".meta.json").
Definition sidecar (path hash : string) : value :=
  VObject [("hash_sha256", VString hash); ("original_path", VString path)]%string.

(** [rename], or a copy and the removal of the original. *)
Definition move_file (src dst : string) : Act (option string) := fun w =>
  let '(w, o) := call (rename_file src dst) w in
  match o with
  | None => (w, None)
  | Some _ =>
      let '(w, o) := call (copy_file src dst) w in
      match o with
      | Some e => (w, Some ("copy to quarantine: " +:+ e)%string)
      | None =>
          let '(w, o) := call (remove_file src) w in
          (w, (fun e => "remove original after copy: " +:+ e)%string <$> o)
      end
  end.

Definition quarantine_run (ulid dir : string) (q : option (string * string)) : Act reply := fun w =>
  match q with
  | None => (w, no "missing quarantine params")
  | Some (path, hash) =>
      if is_empty_str path then (w, no "quarantine requires a path")
      else if bool_decide (w_files w !! path = None) then (w, no ("no such file: " +:+ path))
      else
        let '(w, o) := attempt w in
        match o with
        | Some e => (w, no ("create quarantine dir: " +:+ e))
        | None =>
            let dst := quarantine_path dir ulid path in
            let '(w, o) := move_file path dst w in
            match o with
            | Some e => (w, no e)
            | None =>
                let '(w, _) := call (chmod_000 dst) w in
                let '(w, _) := call (write_file (sidecar_path dir ulid path) (json_text (sidecar path hash))) w in
                (w, (true, "quarantined " +:+ path +:+ " -> " +:+ dst))
            end
        end
  end%string.

(** ** [fetch.rs] *)

Definition fetch_run (fetch : option (string * Z)) : Act (reply * string) := fun w =>
  match fetch with
  | None => (w, (no "missing fetch params", ""))
  | Some (path, max_bytes) =>
      if is_empty_str path then (w, (no "fetch requires a path", ""))
      else
        let max := if bool_decide (max_bytes = 0%Z) then (1024 * 1024)%Z else max_bytes in
        let '(w, o) := attempt w in
        match o, w_files w !! path with
        | None, Some n =>
            let truncated := bool_decide (max < file_len n)%Z in
            let bytes := if truncated then String.substring 0 (Z.to_nat max) (fn_content n) else fn_content n in
            (w, ((true, "read " +:+ show_nat (String.length bytes) +:+ " bytes from " +:+ path +:+ if truncated then " (truncated)" else ""), bytes))
        | Some e, _ => (w, (no ("read " +:+ path +:+ ": " +:+ e), ""))
        | None, None => (w, (no ("read " +:+ path +:+ ": No such file or directory (os error 2)"), ""))
        end
  end%string.

(** ** [isolate.rs], on Linux *)

Definition allowlist (isolate : option (list string)) (control_host : string) : list string :=
  ["127.0.0.1"; "::1"]%string ++ (if is_empty_str control_host then [] else [control_host]) ++ default [] isolate.

Definition newline : string := String "010" "".
Definition accept_rule (a : string) : string := "    ip daddr " +:+ a +:+ " accept" +:+ newline.
Definition ruleset (allow : list string) : string :=
  ("table inet sigil_isolate {" +:+ newline +:+ "  chain output {" +:+ newline +:+
   "    type filter hook output priority 0; policy drop;" +:+ newline +:+ "    ct state established,related accept" +:+ newline +:+
   "    oifname " +:+ String "034" "lo" +:+ String "034" " accept" +:+ newline +:+
   foldr (fun a r => accept_rule a +:+ r) EmptyString allow +:+ "  }" +:+ newline +:+ "}" +:+ newline)%string.

(** Starting the tool, then waiting for it. *)
Definition run_nft (step : F -> option F) (on_spawn on_wait on_exit ok : string) : Act reply := fun w =>
  let '(w, o) := attempt w in
  match o with
  | Some e => (w, no (on_spawn +:+ e))
  | None =>
      let '(w, o) := attempt w in
      match o with
      | Some e => (w, no (on_wait +:+ e))
      | None =>
          match step (w_firewall w) with
          | Some f => (set_firewall f w, (true, ok))
          | None => (w, no (on_exit +:+ "exit status: 1"))
          end
      end
  end%string.

Definition isolate_apply (allow : list string) : Act reply :=
  run_nft (nft_load (ruleset allow)) "spawn nft: " "nft wait: " "nft exited " ("host isolated (allow: " +:+ join ", " allow +:+ ")").
Definition isolate_clear : Act reply :=
  run_nft nft_delete "nft: " "nft: " "nft delete table inet sigil_isolate exited " "nft delete table inet sigil_isolate ok".
Definition isolate (iso : option (list string)) (control_host : string) : Act reply := isolate_apply (allowlist iso control_host).
Definition unisolate : Act reply := isolate_clear.

(** ** [mod.rs] *)

(** [ulid]: the identifier a quarantined file gets. *)
Definition execute (ulid : string) (cmd : Command) (ctx : ResponseCtx) : Act (option CommandResult) := fun w =>
  let result (r : reply) (payload : string) := Some (mkResult (c_id cmd) r.1 r.2 payload) in
  match c_type cmd with
  | KillProcess =>
      let '(w, r) := kill_run (c_kill cmd) w in (w, r ≫= fun r => result r ""%string)
  | QuarantineFile =>
      let '(w, r) := quarantine_run ulid (quarantine_dir ctx) (c_quarantine cmd) w in (w, result r ""%string)
  | IsolateHost =>
      let '(w, r) := isolate (c_isolate cmd) (control_host ctx) w in
      (if r.1 : bool then set_isolated true w else w, result r ""%string)
  | UnisolateHost =>
      let '(w, r) := unisolate w in
      (if r.1 : bool then set_isolated false w else w, result r ""%string)
  | FetchFile =>
      let '(w, (r, payload)) := fetch_run (c_fetch cmd) w in (w, result r payload)
  | CmdUnspecified => (w, result (no "unspecified command"%string) ""%string)
  end.
End respond.

(** ** Quarantine *)

Lemma before_last_dot_spec s : match before_last_dot s with
  | Some b => exists e, s = b +:+ "." +:+ e /\ before_last_dot e = None
  | None => True
  end.
Proof.
  induction s as [|c s IH]; [done|]. cbn [before_last_dot]. destruct (before_last_dot s) as [b|] eqn:Hb.
  - destruct IH as (e & -> & He). by exists e.
  - case_bool_decide; [|done]. subst. by exists s.
Qed.

Lemma string_app_cancel (a b c : string) : a +:+ b = a +:+ c -> b = c.
Proof. induction a as [|x a IH]; cbn; [done|]. intros [= ?]. auto. Qed.

Lemma path_join_inj dir a b : path_join dir a = path_join dir b -> a = b.
Proof.
  unfold path_join. destruct (_ || _); intros Heq; [by eapply string_app_cancel|].
  apply string_app_cancel in Heq. cbn in Heq. by injection Heq.
Qed.

Lemma too_long a b : 0 < String.length b -> a +:+ b <> a.
Proof. intros Hb Heq%(f_equal String.length). rewrite string_length_app in Heq. lia. Qed.

(** The note never takes the place of the file. *)
Lemma sidecar_apart name : file_stem name +:+ ".meta.json" <> name.
Proof.
  unfold file_stem. pose proof (before_last_dot_spec name) as Hs. destruct (before_last_dot name) as [[|c b]|] eqn:Hb.
  - apply (too_long name ".meta.json"). cbn. lia.
  - destruct Hs as (e & -> & He). intros Heq%string_app_cancel. change (".meta.json" = String "." e)%string in Heq. by injection Heq as <-.
  - apply (too_long name ".meta.json"). cbn. lia.
Qed.

Section quarantine.
Context {F : Type} `{JsonText}.

#[local] Abbreviation same_rest w w' :=
  (w_procs w' = w_procs w /\ w_firewall w' = w_firewall w /\ w_isolated w' = w_isolated w).

Lemma attempt_spec (w : World F) : let '(w', o) := attempt w in
  w_files w' = w_files w /\ same_rest w w' /\ (w_outcomes w = [] -> o = None /\ w_outcomes w' = []).
Proof. unfold attempt. destruct w as [fs ps f i [|o l]]; by cbn. Qed.

Lemma call_files (f : Files -> Files) (g : World F -> World F) w :
  (forall w, g w = set_files (f (w_files w)) w) -> let '(w', o) := call g w in
  w_files w' = match o with Some _ => w_files w | None => f (w_files w) end /\ same_rest w w' /\ (w_outcomes w = [] -> o = None /\ w_outcomes w' = []).
Proof.
  intros Hg. unfold call. pose proof (attempt_spec w) as Ha. destruct (attempt w) as [w1 o]. destruct Ha as (Hf & Hr & Ho).
  destruct o; [by rewrite Hf|]. rewrite Hg. cbn. by rewrite Hf.
Qed.

Definition copied (src dst : string) (fs : Files) : Files :=
  match fs !! src with Some n => <[dst := n]> fs | None => fs end.

(** The three ways a move ends: done, not begun or with a copy left behind. *)
Lemma move_file_spec src dst n (w : World F) : w_files w !! src = Some n -> src <> dst ->
  let '(w', o) := move_file src dst w in
  match o with
  | None => w_files w' = <[dst := n]> (delete src (w_files w))
  | Some _ => w_files w' = w_files w \/ w_files w' = <[dst := n]> (w_files w)
  end /\
  same_rest w w' /\ (w_outcomes w = [] -> o = None /\ w_outcomes w' = []).
Proof.
  intros Hn Hne. unfold move_file.
  assert (forall fs : Files, fs !! src = Some n -> delete src (copied src dst fs) = <[dst := n]> (delete src fs)) as Hdel.
  { intros fs Hfs. unfold copied. rewrite Hfs. by rewrite delete_insert_ne. }
  pose proof (call_files (fun fs => delete src (copied src dst fs)) (rename_file src dst) w) as Hc.
  destruct (call _ w) as [w1 o1]. destruct Hc as (Hf1 & Hr1 & Ho1).
  { intros u. unfold rename_file, remove_file, copy_file, copied. by destruct (w_files u !! src). }
  destruct o1 as [e1|]; [|by rewrite Hf1, Hdel].
  pose proof (call_files (copied src dst) (copy_file src dst) w1) as Hc. destruct (call _ w1) as [w2 o2]. destruct Hc as (Hf2 & Hr2 & Ho2).
  { intros u. unfold copy_file, copied. destruct (w_files u !! src); [done|by destruct u]. }
  assert (w_outcomes w <> []) as Hout by (intros Hw; by destruct (Ho1 Hw)).
  destruct o2 as [e2|].
  { rewrite Hf1 in Hf2. split; [by left|]. split; [intuition congruence|done]. }
  unfold copied in Hf2. rewrite Hf1, Hn in Hf2.
  pose proof (call_files (delete src) (remove_file src) w2) as Hc. destruct (call _ w2) as [w3 o3]. destruct Hc as (Hf3 & Hr3 & Ho3); [done|].
  rewrite Hf2 in Hf3. split; [|split; [intuition congruence|done]]. destruct o3 as [e3|]; cbn; [by right|].
  by rewrite Hf3, delete_insert_ne.
Qed.

Definition locked (n : FileNode) : FileNode := mkNode (fn_regular n) (fn_readable n) (fn_content n) 0.

(** After the move: permissions and the note, each of which may fail. *)
Lemma seal_spec dst side n text (w : World F) : w_files w !! dst = Some n -> side <> dst ->
  let '(w1, _) := call (chmod_000 dst) w in
  let '(w', _) := call (write_file side text) w1 in
  (exists m, w_files w' !! dst = Some m /\ (m = n \/ m = locked n)) /\
  w_files w' !! side ∈ [w_files w !! side; Some (mkNode true true text 420)] /\
  (forall p, p <> dst -> p <> side -> w_files w' !! p = w_files w !! p) /\ same_rest w w' /\
  (w_outcomes w = [] -> w_files w' !! dst = Some (locked n) /\ w_files w' !! side = Some (mkNode true true text 420)).
Proof.
  intros Hn Hne.
  pose proof (call_files (fun fs => match fs !! dst with Some m => <[dst := locked m]> fs | None => fs end) (chmod_000 dst) w) as Hc.
  destruct (call _ w) as [w1 o1]. destruct Hc as (Hf1 & Hr1 & Ho1).
  { intros u. unfold chmod_000. destruct (w_files u !! dst); [done|by destruct u]. }
  pose proof (call_files (<[side := mkNode true true text 420]>) (write_file side text) w1) as Hc.
  destruct (call _ w1) as [w2 o2]. destruct Hc as (Hf2 & Hr2 & Ho2); [done|]. rewrite Hn in Hf1.
  assert (w_files w1 = match o1 with Some _ => w_files w | None => <[dst := locked n]> (w_files w) end) as Hf1' by done. clear Hf1. rename Hf1' into Hf1.
  assert (exists m, w_files w1 !! dst = Some m /\ (m = n \/ m = locked n)) as (m & Hm & Hor).
  { rewrite Hf1. destruct o1; [by exists n; split; [|left]|]. exists (locked n). split; [by rewrite lookup_insert_eq|by right]. }
  assert (forall p, p <> dst -> w_files w1 !! p = w_files w !! p) as Hrest.
  { intros p Hp. rewrite Hf1. destruct o1; [done|by rewrite lookup_insert_ne]. }
  split_and!.
  - exists m. split; [|done]. rewrite Hf2. destruct o2; [done|by rewrite lookup_insert_ne].
  - rewrite Hf2. destruct o2; [rewrite Hrest by done; by left|]. rewrite lookup_insert_eq. right. by left.
  - intros p Hp Hp'. rewrite Hf2. destruct o2; [by apply Hrest|]. rewrite lookup_insert_ne by done. by apply Hrest.
  - intuition congruence.
  - intuition congruence.
  - intuition congruence.
  - intros Hw. destruct (Ho1 Hw) as [-> Hw1]. destruct (Ho2 Hw1) as [-> _]. rewrite Hf2, Hf1.
    by rewrite lookup_insert_eq, lookup_insert_ne, lookup_insert_eq.
Qed.

Lemma quarantine_spec `{JsonParse} `{!JsonLaws} ulid dir path hash n (w : World F) :
  let dst := quarantine_path dir ulid path in
  let side := sidecar_path dir ulid path in
  path <> "" -> w_files w !! path = Some n -> w_files w !! dst = None -> w_files w !! side = None ->
  let '(w', (ok, _)) := quarantine_run ulid dir (Some (path, hash)) w in
  (if ok : bool then
     w_files w' !! path = None /\
     (exists m, w_files w' !! dst = Some m /\ (m = n \/ m = locked n)) /\
     (forall s, w_files w' !! side = Some s -> json_parse (fn_content s) = inl (sidecar path hash))
   else w_files w' !! path = Some n) /\
  (forall p, p <> path -> p <> dst -> p <> side -> w_files w' !! p = w_files w !! p) /\ same_rest w w' /\
  (w_outcomes w = [] -> ok = true /\ w_files w' !! dst = Some (locked n) /\ is_Some (w_files w' !! side)).
Proof.
  intros dst side Hp Hn Hdst Hside. unfold quarantine_run. fold dst side.
  assert (path <> dst) as Hpd by (intros Heq; congruence). assert (path <> side) as Hps by (intros Heq; congruence).
  assert (side <> dst) as Hsd by (unfold side, dst; intros Heq%path_join_inj; by eapply sidecar_apart).
  destruct (is_empty_str path) eqn:He; [by destruct path|]. rewrite bool_decide_false by congruence.
  pose proof (attempt_spec w) as Ha. destruct (attempt w) as [w0 [e|]]; destruct Ha as (Hf0 & Hr0 & Ho0).
  { rewrite Hf0. split; [done|]. split; [done|]. split; [done|]. intros Hw. by destruct (Ho0 Hw). }
  pose proof (move_file_spec path dst n w0) as Hm. rewrite Hf0 in Hm. destruct (move_file path dst w0) as [w1 o1].
  destruct Hm as (Hf1 & Hr1 & Ho1); [done..|]. destruct o1 as [e|].
  { split; [|split; [|split; [intuition congruence|]]].
    - destruct Hf1 as [->| ->]; [done|by rewrite lookup_insert_ne].
    - intros p ? ? ?. destruct Hf1 as [->| ->]; [done|by rewrite lookup_insert_ne].
    - intros Hw. destruct (Ho0 Hw) as [_ Hw0]. by destruct (Ho1 Hw0). }
  pose proof (seal_spec dst side n (json_text (sidecar path hash)) w1) as Hs. rewrite Hf1, lookup_insert_eq in Hs.
  destruct (call (chmod_000 dst) w1) as [w2 o2]. destruct (call (write_file side _) w2) as [w3 o3].
  destruct Hs as (Hd & Hsi & Hrest & Hr3 & Ho3); [done..|]. split; [|split; [|split; [intuition congruence|]]].
  - split_and!; [|done|].
    + rewrite Hrest by done. by rewrite lookup_insert_ne, lookup_delete_eq.
    + intros c Hc. rewrite lookup_insert_ne, lookup_delete_ne, Hside in Hsi by done. rewrite Hc in Hsi.
      apply elem_of_cons in Hsi as [?|[= ->]%list_elem_of_singleton]; [done|]. apply parse_text. cbn. split; [|done]. repeat constructor.
  - intros p ? ? ?. rewrite Hrest by done. by rewrite lookup_insert_ne, lookup_delete_ne.
  - intros Hw. destruct (Ho0 Hw) as [_ Hw0]. destruct (Ho1 Hw0) as [_ Hw1]. destruct (Ho3 Hw1) as [? ->]. eauto.
Qed.

(** C22: quarantining a file never loses it.  Whatever calls of the system
    fail, a failed command leaves the file where it was, and a successful one
    takes it away from there and keeps its content in the quarantine
    directory; a note that was written parses back to the path the file came
    from, no other file changes, and without failures the copy has no
    permissions left and the note is there. *)
Theorem quarantine_keeps_file `{JsonParse} `{!JsonLaws} ulid dir path hash n (w : World F) :
  let dst := quarantine_path dir ulid path in
  let side := sidecar_path dir ulid path in
  path <> "" -> w_files w !! path = Some n -> w_files w !! dst = None -> w_files w !! side = None ->
  let '(w', (ok, _)) := quarantine_run ulid dir (Some (path, hash)) w in
  (if ok : bool then
     w_files w' !! path = None /\
     (exists m, w_files w' !! dst = Some m /\ (m = n \/ m = locked n)) /\
     (forall s, w_files w' !! side = Some s -> json_parse (fn_content s) = inl (sidecar path hash))
   else w_files w' !! path = Some n) /\
  (forall p, p <> path -> p <> dst -> p <> side -> w_files w' !! p = w_files w !! p) /\ same_rest w w' /\
  (w_outcomes w = [] -> ok = true /\ w_files w' !! dst = Some (locked n) /\ is_Some (w_files w' !! side)).
Proof. apply quarantine_spec. Qed.
End quarantine.

(** ** Isolation *)

Section isolation.
Context {F : Type} `{NftLaws F} `{Sha256} `{Casing} `{JsonText}.

(** The commands an agent carries out one after the other; one that panics
    leaves no reply. *)
Fixpoint execute_all (ctx : ResponseCtx) (cmds : list (string * Command)) : Act (F := F) (list (option CommandResult)) := fun w =>
  match cmds with
  | [] => (w, [])
  | (ulid, cmd) :: cmds =>
      let '(w, r) := execute ulid cmd ctx w in
      let '(w, rs) := execute_all ctx cmds w in (w, r :: rs)
  end.

Definition flag_honest (w : World F) : Prop := w_isolated w = true <-> has_table (w_firewall w).

(** What leaves firewall and flag as they are. *)
Definition keeps_firewall {A} (m : Act (F := F) A) : Prop := forall w, w_firewall (m w).1 = w_firewall w /\ w_isolated (m w).1 = w_isolated w.

Lemma call_keeps f : (forall w, w_firewall (f w) = w_firewall w /\ w_isolated (f w) = w_isolated w) -> keeps_firewall (call f).
Proof.
  intros Hf w. unfold call, attempt. destruct w as [fs ps fw i [|o l]]; cbn; [apply Hf|]. destruct o; [done|apply Hf].
Qed.

Lemma kill_matching_keeps target ps m k : keeps_firewall (kill_matching target ps m k).
Proof.
  revert m k. induction ps as [|p ps IH]; intros m k w; cbn [kill_matching]; [done|]. destruct (image_matches _ _ _); [|apply IH].
  unfold kill_one. pose proof (call_keeps (fun w => set_procs (filter (fun q => os_pid q <> os_pid p) (w_procs w)) w) ltac:(done) w) as [Hf Hi].
  destruct (call _ w) as [w1 o]. cbn in *. specialize (IH (S m) (if bool_decide (o = None) then S k else k) w1). by destruct IH as [-> ->].
Qed.

Lemma kill_keeps kill : keeps_firewall (kill_run kill).
Proof.
  intros w. unfold kill_run. destruct kill as [[i hash]|]; [|done]. case_bool_decide.
  - destruct (head _) as [p|]; [|done]. unfold kill_one.
    pose proof (call_keeps (fun w => set_procs (filter (fun q => os_pid q <> os_pid p) (w_procs w)) w) ltac:(done) w) as Hk.
    by destruct (call _ w) as [w1 o].
  - destruct (negb _); [|done]. pose proof (kill_matching_keeps (to_lowercase hash) (w_procs w) 0 0 w) as Hk.
    destruct (kill_matching _ _ _ _ w) as [w1 [m k]]. by case_bool_decide.
Qed.

Lemma quarantine_keeps ulid dir q : keeps_firewall (quarantine_run ulid dir q).
Proof.
  intros w. unfold quarantine_run. destruct q as [[path hash]|]; [|done]. destruct (is_empty_str path); [done|].
  case_bool_decide; [done|]. pose proof (attempt_spec w) as Ha. destruct (attempt w) as [w0 [e|]]; [by destruct Ha as (_ & (_ & ? & ?) & _)|].
  destruct Ha as (_ & (_ & Hf0 & Hi0) & _).
  assert (forall src dst, keeps_firewall (move_file src dst)) as Hmove.
  { intros src dst u. unfold move_file.
    assert (forall src dst (w : World F), w_firewall (copy_file src dst w) = w_firewall w /\ w_isolated (copy_file src dst w) = w_isolated w) as Hc.
    { intros s d v. unfold copy_file. by destruct (w_files v !! s). }
    pose proof (call_keeps (rename_file src dst) ltac:(intros v; cbn; apply Hc) u) as [Hf1 Hi1]. destruct (call _ u) as [w1 [|]]; [|done].
    pose proof (call_keeps (copy_file src dst) ltac:(apply Hc) w1) as [Hf2 Hi2]. destruct (call _ w1) as [w2 [|]]; cbn in *; [split; congruence|].
    pose proof (call_keeps (remove_file src) ltac:(done) w2) as [Hf3 Hi3]. destruct (call _ w2) as [w3 o3]. cbn in *. split; congruence. }
  pose proof (Hmove path (quarantine_path dir ulid path) w0) as [Hf1 Hi1]. destruct (move_file _ _ w0) as [w1 [|]]; cbn in *; [split; congruence|].
  pose proof (call_keeps (chmod_000 (quarantine_path dir ulid path)) ltac:(intros v; unfold chmod_000; by destruct (w_files v !! _)) w1) as [Hf2 Hi2].
  destruct (call _ w1) as [w2 o2].
  pose proof (call_keeps (write_file (sidecar_path dir ulid path) (json_text (sidecar path hash))) ltac:(done) w2) as [Hf3 Hi3].
  destruct (call _ w2) as [w3 o3]. cbn in *. split; congruence.
Qed.

Lemma fetch_keeps fetch : keeps_firewall (fetch_run fetch).
Proof.
  intros w. unfold fetch_run. destruct fetch as [[path max]|]; [|done]. destruct (is_empty_str path); [done|].
  pose proof (attempt_spec w) as Ha. destruct (attempt w) as [w0 o]. destruct Ha as (_ & (_ & Hf & Hi) & _).
  by destruct o, (w_files w0 !! path).
Qed.

(** The tool either refuses and nothing changes, or its step is taken. *)
Lemma run_nft_spec step a b c d (w : World F) : let '(w', r) := run_nft step a b c d w in
  w_isolated w' = w_isolated w /\
  if r.1 : bool then step (w_firewall w) = Some (w_firewall w') else w_firewall w' = w_firewall w.
Proof.
  unfold run_nft. pose proof (attempt_spec w) as Ha. destruct (attempt w) as [w0 [e|]]; destruct Ha as (_ & (_ & Hf0 & Hi0) & _); [done|].
  pose proof (attempt_spec w0) as Ha. destruct (attempt w0) as [w1 [e|]]; destruct Ha as (_ & (_ & Hf1 & Hi1) & _); [split; cbn; congruence|].
  destruct (step (w_firewall w1)) as [f|] eqn:Hs; cbn; split; congruence.
Qed.

Lemma execute_honest ulid cmd ctx w : flag_honest w -> flag_honest (execute ulid cmd ctx w).1.
Proof.
  unfold flag_honest, execute. intros Hw. destruct (c_type cmd).
  - done.
  - pose proof (kill_keeps (c_kill cmd) w) as [Hf Hi]. destruct (kill_run _ w) as [w1 r]. cbn in *. by rewrite Hf, Hi.
  - pose proof (quarantine_keeps ulid (quarantine_dir ctx) (c_quarantine cmd) w) as [Hf Hi]. destruct (quarantine_run _ _ _ w) as [w1 r].
    cbn in *. by rewrite Hf, Hi.
  - unfold isolate, isolate_apply. pose proof (run_nft_spec (nft_load (ruleset (allowlist (c_isolate cmd) (control_host ctx)))) "spawn nft: " "nft wait: "
      "nft exited " ("host isolated (allow: " +:+ join ", " (allowlist (c_isolate cmd) (control_host ctx)) +:+ ")") w) as Hn.
    destruct (run_nft _ _ _ _ _ w) as [w1 [[] m]]; destruct Hn as [Hi Hs]; cbn in *; [|by rewrite Hi, Hs].
    split; [intros _; by eapply load_has|done].
  - unfold unisolate, isolate_clear. pose proof (run_nft_spec nft_delete "nft: " "nft: " "nft delete table inet sigil_isolate exited "
      "nft delete table inet sigil_isolate ok" w) as Hn.
    destruct (run_nft _ _ _ _ _ w) as [w1 [[] m]]; destruct Hn as [Hi Hs]; cbn in *; [|by rewrite Hi, Hs].
    split; [done|]. intros Ht. by destruct (delete_has _ _ Hs).
  - pose proof (fetch_keeps (c_fetch cmd) w) as [Hf Hi]. destruct (fetch_run _ w) as [w1 [r pl]]. cbn in *. by rewrite Hf, Hi.
Qed.



Lemma contains_right p a s : contains p s = true -> contains p (a +:+ s) = true.
Proof. rewrite !contains_spec. intros (u & v & ->). exists (a +:+ u), v. by rewrite <- string_app_assoc. Qed.
Lemma contains_left p a s : contains p s = true -> contains p (s +:+ a) = true.
Proof. rewrite !contains_spec. intros (u & v & ->). exists u, (v +:+ a). by rewrite <- !string_app_assoc. Qed.

(** Each address of the list has its own rule. *)
Lemma ruleset_accepts allow a : a ∈ allow -> contains (accept_rule a) (ruleset allow) = true.
Proof.
  intros Ha. unfold ruleset. do 12 apply contains_right. apply contains_left.
  induction allow as [|b allow IH]; [by apply not_elem_of_nil in Ha|]. cbn [foldr]. apply elem_of_cons in Ha as [->|Ha].
  - apply contains_left, contains_spec. exists EmptyString, EmptyString. by rewrite string_app_nil_r.
  - by apply contains_right, IH.
Qed.
End isolation.

(** ** Killing *)

Section kill.
Context {F : Type} `{Nft F} `{Sha256} `{Casing}.

Definition without (i : Z) (ps : list OsProcess) : list OsProcess := filter (fun q => os_pid q <> i) ps.

Lemma kill_one_spec p (w : World F) : let '(w', k) := kill_one p w in
  w_files w' = w_files w /\ w_procs w' = (if k : bool then without (os_pid p) (w_procs w) else w_procs w) /\
  (w_outcomes w = [] -> k = true /\ w_outcomes w' = []).
Proof.
  unfold kill_one, call, attempt. destruct w as [fs ps fw i [|[o|] l]]; cbn; try (split_and!; try done; by intros []).
Qed.

(** What remains after a loop over [ps]: everything that does not match. *)
Lemma kill_matching_spec target ps m k (w : World F) : let '(w', (m', k')) := kill_matching target ps m k w in
  w_files w' = w_files w /\
  m' = m + length (filter (fun p => image_matches (w_files w) target p = true) ps) /\ k <= k' <= k + (m' - m) /\
  w_procs w' `sublist_of` w_procs w /\
  (forall q, q ∈ w_procs w -> (forall p, p ∈ ps -> image_matches (w_files w) target p = true -> os_pid p <> os_pid q) -> q ∈ w_procs w') /\
  (w_outcomes w = [] -> k' = k + (m' - m) /\ forall p q, p ∈ ps -> image_matches (w_files w) target p = true -> q ∈ w_procs w' -> os_pid q <> os_pid p).
Proof.
  revert m k w. induction ps as [|p ps IH]; intros m k w; cbn [kill_matching].
  { cbn. split_and!; [done|lia..|done|done|]. intros _. split; [lia|]. by intros ? ? ?%not_elem_of_nil. }
  rewrite filter_cons. destruct (image_matches (w_files w) target p) eqn:Hm.
  - pose proof (kill_one_spec p w) as Hk. destruct (kill_one p w) as [w1 b]. destruct Hk as (Hf & Hp & Ho).
    specialize (IH (S m) (if b then S k else k) w1). destruct (kill_matching target ps _ _ w1) as [w2 [m2 k2]].
    destruct IH as (Hf2 & Hm2 & Hk2 & Hs2 & Hq2 & Ho2). rewrite Hf in *. rewrite decide_True by done. cbn [length].
    assert (w_procs w1 `sublist_of` w_procs w) as Hsub by (rewrite Hp; destruct b; [apply sublist_filter|done]).
    split_and!; [done|lia|destruct b; lia|destruct b; lia|by etransitivity| |].
    + intros q Hq Hne. apply Hq2; [|intros p' Hp'; apply Hne; by right]. rewrite Hp. destruct b; [|done].
      apply list_elem_of_filter. split; [|done]. intros Heq. by apply (Hne p); [left|done|].
    + intros Hw. destruct (Ho Hw) as [-> Hw1]. destruct (Ho2 Hw1) as [-> Hall]. split; [lia|].
      intros p' q [->|Hp']%elem_of_cons Hi Hq; [|by eapply Hall].
      assert (q ∈ w_procs w1) as Hq1 by (eapply elem_of_submseteq; [exact Hq|by apply sublist_submseteq]).
      rewrite Hp in Hq1. by apply list_elem_of_filter in Hq1 as [? _].
  - specialize (IH m k w). destruct (kill_matching target ps m k w) as [w2 [m2 k2]].
    destruct IH as (Hf2 & Hm2 & Hk2 & Hs2 & Hq2 & Ho2). rewrite decide_False by congruence. split_and!; [done|done|lia|lia|done| |].
    + intros q Hq Hne. apply Hq2; [done|]. intros p' Hp'. apply Hne. by right.
    + intros Hw. destruct (Ho2 Hw) as [? Hall]. split; [done|]. intros p' q [->|Hp']%elem_of_cons Hi; [congruence|by apply Hall].
Qed.

Lemma kill_matching_none target ps m k (w : World F) : filter (fun p => image_matches (w_files w) target p = true) ps = [] ->
  kill_matching target ps m k w = (w, (m, k)).
Proof.
  induction ps as [|p ps IH]; cbn [kill_matching]; [done|]. rewrite filter_cons. destruct (image_matches _ _ p); [by rewrite decide_True|].
  by rewrite decide_False.
Qed.

(** The text of a missing hash is cut at its twelfth byte. *)
Definition cuts_char (target : string) : Prop := is_char_boundary target (String.length target `min` 12) = false.
Definition targets (w : World F) (hash : string) : list OsProcess :=
  filter (fun p => image_matches (w_files w) (to_lowercase hash) p = true) (w_procs w).

(** A kill command ends what it names and nothing else.  By number: a
    success takes away the process of that number, a failure none.  By hash:
    every process whose image has another hash stays, and without failures
    none that matches is left; the reply is a success as soon as one process
    matches, even when none could be killed, and when none matches the agent
    panics if the twelfth byte of the hash is inside a character. *)
Theorem kill_exact i hash (w : World F) : let '(w', r) := kill_run (Some (i, hash)) w in
  if decide (i <> 0%Z) then
    exists ok m, r = Some (ok, m) /\ (ok = true -> i ∈ (os_pid <$> w_procs w)) /\
      w_procs w' = (if ok : bool then without i (w_procs w) else w_procs w)
  else
    (hash = "" -> w' = w) /\
    (hash <> "" -> targets w hash = [] -> w' = w /\ (r = None <-> cuts_char (to_lowercase hash))) /\
    (hash <> "" -> targets w hash <> [] -> exists m, r = Some (true, m)) /\
    w_procs w' `sublist_of` w_procs w /\
    (forall q, q ∈ w_procs w -> (forall p, p ∈ targets w hash -> os_pid p <> os_pid q) -> q ∈ w_procs w') /\
    (hash <> "" -> w_outcomes w = [] -> forall p q, p ∈ targets w hash -> q ∈ w_procs w' -> os_pid q <> os_pid p).
Proof.
  unfold kill_run. case_bool_decide as Hi.
  { destruct (head _) as [p|] eqn:Hp.
    - pose proof (kill_one_spec p w) as Hk. destruct (kill_one p w) as [w1 b]. destruct Hk as (_ & Hps & _). rewrite decide_True by done.
      apply head_Some in Hp as [l Hl]. assert (p ∈ filter (fun p => os_pid p = i) (w_procs w)) as [<- Hin]%list_elem_of_filter by (rewrite Hl; by left).
      destruct b; (eexists _, _; split; [done|]); split; try done. intros _. by apply list_elem_of_fmap_2.
    - rewrite decide_True by done. eexists false, _. by split_and!. }
  destruct (is_empty_str hash) eqn:He; cbn [negb].
  { assert (hash = "") as -> by by destruct hash. rewrite decide_False by tauto. by split_and!. }
  assert (hash <> "") as Hne by (by intros ->). pose proof (kill_matching_spec (to_lowercase hash) (w_procs w) 0 0 w) as Hk.
  destruct (kill_matching _ _ _ _ w) as [w1 [m k]] eqn:Hrun. destruct Hk as (Hf & Hm & Hkk & Hs & Hq & Ho). fold (targets w hash) in Hm.
  assert (forall q, q ∈ w_procs w -> (forall p, p ∈ targets w hash -> os_pid p <> os_pid q) -> q ∈ w_procs w1) as Hq'.
  { intros q Hin Hall. apply Hq; [done|]. intros p Hp Hi'. by apply Hall, list_elem_of_filter. }
  assert (w_outcomes w = [] -> forall p q, p ∈ targets w hash -> q ∈ w_procs w1 -> os_pid q <> os_pid p) as Ho'.
  { intros Hw p q [Hp1 Hp2]%list_elem_of_filter Hin. by apply (proj2 (Ho Hw)). }
  case_bool_decide as Hz; rewrite decide_False by tauto.
  - split; [done|]. split; [|split; [|by split_and!]].
    + intros _ Hnil. rewrite (kill_matching_none _ _ _ _ w Hnil) in Hrun. injection Hrun as <- _ _.
      split; [done|]. unfold cuts_char. by destruct (is_char_boundary _ _).
    + intros _ Hsome. destruct (targets w hash); [done|cbn in Hm; lia].
  - split; [done|]. split; [|split; [by eexists|by split_and!]]. intros _ Hnil. rewrite Hnil in Hm. by cbn in Hm.
Qed.
End kill.

(** ** A host for the examples *)

(** A firewall with at most one table, and a tool that takes every rule set. *)
Definition demo_nft : Nft (option string) :=
  {| nft_load rules _ := Some (Some rules); nft_delete f := match f with Some _ => Some None | None => None end |}.
#[program] Definition demo_nft_laws : @NftLaws (option string) demo_nft := {| has_table f := is_Some f |}.
Next Obligation. intros rules f f' [= <-]. by eexists. Defined.
Next Obligation. intros [r|] f' Hf; [|done]. injection Hf as <-. by intros [? ?]. Defined.

Definition demo_isolate : Command := mkCommand "c1" IsolateHost None None (Some ["10.0.0.0/8"]) None.
Definition demo_ctx : ResponseCtx := mkCtx "/q" "siem".


Definition demo_file : FileNode := mkNode true true "MZ" 493.
Definition demo_world : World (option string) := mkWorld {[ "/tmp/evil.sh" := demo_file ]} [] None false [None; Some "EXDEV"; None; Some "EBUSY"].

Lemma quarantine_keeps_file_witness :
  let w' := (@quarantine_run (option string) demo_json_text "01H" "/q" (Some ("/tmp/evil.sh", "")) demo_world).1 in
  quarantine_path "/q" "01H" "/tmp/evil.sh" = "/q/01H-evil.sh" /\
  w_files w' !! "/tmp/evil.sh" = Some demo_file.
Proof.
  intros w'. split; [vm_compute; reflexivity|].
  exact (proj1 (@quarantine_keeps_file (option string) demo_json_text demo_json_parse demo_json_laws "01H" "/q" "/tmp/evil.sh" "" demo_file
    demo_world ltac:(done) eq_refl eq_refl eq_refl)).
Defined.

(** A process that cannot be killed is reported as a success. *)
Example kill_reported_as_success :
  (@kill_run (option string) demo_sha demo_lower (Some (0%Z, "ELF"))
     (mkWorld {[ "/bin/x" := mkNode true true "elf" 493 ]} [mkOs 5 None "x" (Some "/bin/x") [] None] None false [Some "EPERM"])).2 =
  Some (true, "killed 0/1 process(es) matching hash").
Proof. vm_compute. reflexivity. Qed.
