(* ===== verification/Uplink.v ===== *)
(** * [sigil-agent]: settings, identity and the control stream

    [config.rs], the commands of [main.rs] and the session of [transport.rs]
    as a machine over what its [select!] picks: a telemetry event, a timer, a
    message of the gateway, the end of a command that runs in the background.
    Sending fails once the stream has dropped its receiver.  A command that is
    cut off by the end of its session still runs, but its reply goes nowhere. *)

From stdpp Require Import gmap strings list.
From S2P Require Import Prelude Utf8 Containers Core Text Serde Edr EdrMap Host Collect Respond.

(** ** Settings *)

Record AgentConfig : Set := mkAgentConfig {
  server_url : string; ac_enrollment_token : string; watch_paths : list string; ac_quarantine_dir : string;
  tls_ca : option string; state_file : option string; poll_interval_secs : Z; batch_size : nat; ac_collectors : CollectorToggles
}.

(** The defaults, on Linux. *)
Definition default_watch_paths : list string := ["/etc"; "/usr/local/bin"; "/tmp"].
Definition default_quarantine : string := "./sigil-quarantine".
Definition default_poll_secs : Z := 5.
Definition default_batch : nat := 256.

(** [AgentConfig::minimal]. *)
Definition minimal (url token : string) : AgentConfig :=
  mkAgentConfig url token default_watch_paths default_quarantine None None default_poll_secs default_batch CollectorToggles_default.

Definition state_path (cfg : AgentConfig) : string := default "./sigil-agent-state.json" (state_file cfg).

(** [AgentIdentity], saved as JSON text and loaded again. *)
Record AgentIdentity : Set := mkIdentity { ai_agent_id : string; ai_session_token : string; ai_server_url : string }.

Definition identity_load `{Serde AgentIdentity} (files : Files) (path : string) : option AgentIdentity :=
  n ← files !! path;
  if fn_readable n && valid_utf8 (fn_content n) then de (fn_content n) else None.
Definition identity_save `{Serde AgentIdentity} (i : AgentIdentity) (path : string) (files : Files) : Files :=
  <[path := mkNode true true (ser i) 420]> files.

(** The settings [enroll] uses: those of the file, or minimal ones, with the
    arguments of the command line put over them; [None] when no server is
    named. *)
Definition enroll_config (file : option AgentConfig) (server token : option string) : option AgentConfig :=
  let cfg := default (minimal (default "" server) (default "" token)) file in
  let cfg := match server with
    | Some s => mkAgentConfig s (ac_enrollment_token cfg) (watch_paths cfg) (ac_quarantine_dir cfg) (tls_ca cfg) (state_file cfg)
                  (poll_interval_secs cfg) (batch_size cfg) (ac_collectors cfg)
    | None => cfg
    end in
  let cfg := match token with
    | Some t => mkAgentConfig (server_url cfg) t (watch_paths cfg) (ac_quarantine_dir cfg) (tls_ca cfg) (state_file cfg)
                  (poll_interval_secs cfg) (batch_size cfg) (ac_collectors cfg)
    | None => cfg
    end in
  if is_empty_str (server_url cfg) then None else Some cfg.

(** [host_only]: the host of a URL. *)
Definition until_slash_colon (s : string) : string := (span (fun c => negb (bool_decide (c = "/"%char)) && negb (bool_decide (c = ":"%char))) s).1.
Definition host_only (url : string) : string :=
  let no_scheme := match split_once "://" url with
    | Some (_, rest) => match split_once "://" rest with Some (a, _) => a | None => rest end
    | None => url
    end in
  until_slash_colon no_scheme.

Definition host_fingerprint `{Sha256} (hostname os : string) : string := sha256_hex (hostname +:+ os).

(** The request of [transport::enroll], and the identity its reply gives. *)
Definition enroll_request `{Sha256} (cfg : AgentConfig) (hostname : option string) (os : string) (os_version : option string)
    (version : string) : EnrollRequest :=
  let hostname := default "unknown" hostname in
  mkEnrollReq (ac_enrollment_token cfg) hostname os (default "" os_version) version (host_fingerprint hostname os).
Definition identity_of (cfg : AgentConfig) (reply : EnrollReply) : AgentIdentity :=
  mkIdentity (rp_agent_id reply) (rp_session_token reply) (server_url cfg).

Definition response_ctx (cfg : AgentConfig) : ResponseCtx := mkCtx (ac_quarantine_dir cfg) (host_only (server_url cfg)).

(** ** Messages *)

Inductive AgentMessage : Type :=
  | MHello (agent_id session_token : string)
  | MHeartbeat (ts : Z) (isolated : bool)
  | MTelemetry (events : list EndpointEvent)
  | MResult (r : CommandResult).

Inductive ServerMessage : Type :=
  | SHelloAck (ok : bool)
  | SCommand (cmd : Command)
  | SHeartbeatAck
  | SNone.

(** ** One session *)

(** What the stream to the gateway took, whether it takes more, the events
    not yet sent and the commands that run, each with whether this session
    received it. *)
Record Session (F : Type) : Type := mkSession {
  ss_up : list AgentMessage; ss_open : bool; ss_batch : list EndpointEvent; ss_tasks : list (bool * string * Command); ss_world : World F
}.
Arguments mkSession {F}.
Arguments ss_up {F}.
Arguments ss_open {F}.
Arguments ss_batch {F}.
Arguments ss_tasks {F}.
Arguments ss_world {F}.

(** What [select!] picks; the last two are the end of a command's task and
    the gateway's stream going away. *)
Inductive pick : Type :=
  | Telemetry (ev : option EndpointEvent)
  | Flush
  | HeartbeatTick (ts : Z)
  | Down (ulid : string) (m : option (result ServerMessage))
  | TaskDone (k : nat)
  | StreamGone.

Section session.
Context {F : Type} `{Nft F} `{Sha256} `{Casing} `{JsonText}.
Context (cfg : AgentConfig) (identity : AgentIdentity).

Definition set_batch (b : list EndpointEvent) (s : Session F) : Session F :=
  mkSession (ss_up s) (ss_open s) b (ss_tasks s) (ss_world s).
Definition set_tasks (l : list (bool * string * Command)) (s : Session F) : Session F :=
  mkSession (ss_up s) (ss_open s) (ss_batch s) l (ss_world s).
Definition set_world (w : World F) (s : Session F) : Session F :=
  mkSession (ss_up s) (ss_open s) (ss_batch s) (ss_tasks s) w.

(** [up_tx.send]. *)
Definition send_up (m : AgentMessage) (s : Session F) : Session F * bool :=
  if ss_open s then (mkSession (ss_up s ++ [m]) (ss_open s) (ss_batch s) (ss_tasks s) (ss_world s), true) else (s, false).

Definition send_batch (s : Session F) : Session F * bool :=
  send_up (MTelemetry (ss_batch s)) (set_batch [] s).

(** The session goes on, or ends with a result. *)
Definition cont (sb : Session F * bool) : Session F * option (result unit) :=
  (sb.1, if sb.2 then None else Some (Err Other)).

(** A task runs its command and sends the reply, if the stream of the
    session that received the command takes it. *)
Definition finish_task (k : nat) (s : Session F) : Session F :=
  match ss_tasks s !! k with
  | None => s
  | Some (current, ulid, cmd) =>
      let '(w, r) := execute ulid cmd (response_ctx cfg) (ss_world s) in
      let s := set_world w (set_tasks (take k (ss_tasks s) ++ drop (S k) (ss_tasks s)) s) in
      match r with Some r => if current : bool then (send_up (MResult r) s).1 else s | None => s end
  end.

Definition session_step (p : pick) (s : Session F) : Session F * option (result unit) :=
  match p with
  | Telemetry None => (s, Some (Ok ()))
  | Telemetry (Some ev) =>
      let s := set_batch (ss_batch s ++ [ev]) s in
      if (batch_size cfg <=? length (ss_batch s))%nat then cont (send_batch s) else (s, None)
  | Flush => if is_nil (ss_batch s) then (s, None) else cont (send_batch s)
  | HeartbeatTick ts => cont (send_up (MHeartbeat ts (w_isolated (ss_world s))) s)
  | Down ulid (Some (Ok (SCommand cmd))) => (set_tasks (ss_tasks s ++ [(true, ulid, cmd)]) s, None)
  | Down _ (Some (Ok _)) => (s, None)
  | Down _ (Some (Err _)) => (s, Some (Err Other))
  | Down _ None => (s, Some (Ok ()))
  | TaskDone k => (finish_task k s, None)
  | StreamGone => (mkSession (ss_up s) false (ss_batch s) (ss_tasks s) (ss_world s), None)
  end.

Fixpoint session_loop (ps : list pick) (s : Session F) : Session F * option (result unit) :=
  match ps with
  | [] => (s, None)
  | p :: ps => match session_step p s with (s, None) => session_loop ps s | ended => ended end
  end.

(** The handshake: whether the gateway was reached, and what came back. *)
Definition hello_reply (m : option (result ServerMessage)) : result unit :=
  match m with Some (Ok (SHelloAck true)) => Ok () | _ => Err Other end.

Definition session_once (reached : bool) (ack : option (result ServerMessage)) (ps : list pick) (w : World F)
    (tasks : list (bool * string * Command)) : Session F * option (result unit) :=
  let s := mkSession [] true [] ((fun t => (false, t.1.2, t.2)) <$> tasks) w in
  if reached then
    let '(s, _) := send_up (MHello (ai_agent_id identity) (ai_session_token identity)) s in
    match hello_reply ack with Ok _ => session_loop ps s | Err e => (s, Some (Err e)) end
  else (s, Some (Err Other)).

(** [run]: one session after the other; the host and the commands that still
    run are carried over. *)
Fixpoint agent_run (sessions : list (bool * option (result ServerMessage) * list pick)) (w : World F)
    (tasks : list (bool * string * Command)) : list (Session F * option (result unit)) :=
  match sessions with
  | [] => []
  | (reached, ack, ps) :: sessions =>
      let '(s, e) := session_once reached ack ps w tasks in
      (s, e) :: match e with Some _ => agent_run sessions (ss_world s) (ss_tasks s) | None => [] end
  end.
End session.

(** The pause of [run] after each session, in seconds, given how
    the sessions ended. *)
Fixpoint pauses (backoff : Z) (ends : list (result unit)) : list Z :=
  match ends with
  | [] => []
  | e :: ends =>
      let pause := match e with Ok _ => 1%Z | Err _ => backoff end in
      pause :: pauses (Z.min (pause * 2) 30) ends
  end.

(** ** What a session does with its telemetry *)

Definition arrivals (ps : list pick) : list EndpointEvent := omap (fun p => match p with Telemetry (Some ev) => Some ev | _ => None end) ps.
Definition telemetry (up : list AgentMessage) : list EndpointEvent :=
  concat ((fun m => match m with MTelemetry es => es | _ => [] end) <$> up).

Lemma telemetry_app a b : telemetry (a ++ b) = telemetry a ++ telemetry b.
Proof. unfold telemetry. by rewrite fmap_app, concat_app. Qed.

Section accounts.
Context {F : Type} `{Nft F} `{Sha256} `{Casing} `{JsonText}.
Context (cfg : AgentConfig) (identity : AgentIdentity).

Definition most : nat := 1 `max` batch_size cfg.

(** What holds of the messages sent so far, with the commands received. *)
Record session_inv (got : list pick) (s : Session F) : Prop := {
  sv_batch : length (ss_batch s) < most;
  sv_sent b : MTelemetry b ∈ ss_up s -> b <> [] /\ length b <= most;
  sv_tasks u c : (true, u, c) ∈ ss_tasks s -> Down u (Some (Ok (SCommand c))) ∈ got;
  sv_results r : MResult r ∈ ss_up s -> exists u c, Down u (Some (Ok (SCommand c))) ∈ got /\ cr_id r = c_id c
}.

Lemma session_inv_got got p s : session_inv got s -> session_inv (got ++ [p]) s.
Proof.
  intros [Hb Hs Ht Hr]. split; [done|done| |].
  - intros u c Hin. apply elem_of_app. left. by apply Ht.
  - intros r (u & c & Hin & Hid)%Hr. exists u, c. split; [|done]. apply elem_of_app. by left.
Qed.

Lemma send_up_inv got m s : session_inv got s ->
  (forall b, m = MTelemetry b -> b <> [] /\ length b <= most) ->
  (forall r, m = MResult r -> exists u c, Down u (Some (Ok (SCommand c))) ∈ got /\ cr_id r = c_id c) ->
  session_inv got (send_up m s).1.
Proof.
  intros [Hb Hs Ht Hr] Hm Hm'. unfold send_up. destruct (ss_open s); [|done]. split; cbn; [done| |done|].
  - intros b [Hin|<-%list_elem_of_singleton]%elem_of_app; auto.
  - intros r [Hin|<-%list_elem_of_singleton]%elem_of_app; auto.
Qed.

Lemma execute_id ulid cmd ctx (w : World F) w' r : execute ulid cmd ctx w = (w', Some r) -> cr_id r = c_id cmd.
Proof.
  unfold execute. destruct (c_type cmd).
  - by intros [= _ <-].
  - destruct (kill_run (c_kill cmd) w) as [w1 [k|]]; [|done]. by intros [= _ <-].
  - destruct (quarantine_run _ _ _ w) as [w1 k]. by intros [= _ <-].
  - destruct (isolate _ _ w) as [w1 k]. by intros [= _ <-].
  - destruct (unisolate w) as [w1 k]. by intros [= _ <-].
  - destruct (fetch_run _ w) as [w1 [k pl]]. by intros [= _ <-].
Qed.

Lemma finish_task_inv got k s : session_inv got s -> session_inv got (finish_task cfg k s) /\
  telemetry (ss_up (finish_task cfg k s)) = telemetry (ss_up s) /\ ss_batch (finish_task cfg k s) = ss_batch s.
Proof.
  intros Hs. unfold finish_task. destruct (ss_tasks s !! k) as [[[cur ulid] cmd]|] eqn:Hk; [|done].
  destruct (execute ulid cmd (response_ctx cfg) (ss_world s)) as [w r] eqn:He.
  set (s' := set_world w _). assert (session_inv got s') as Hs'.
  { destruct Hs as [Hb Hsent Ht Hr]. split; [done|done| |done]. intros u c [Hin|Hin]%elem_of_app; apply Ht.
    - eapply elem_of_submseteq; [exact Hin|apply sublist_submseteq, sublist_take].
    - eapply elem_of_submseteq; [exact Hin|apply sublist_submseteq, sublist_drop]. }
  destruct r as [r|]; [|done]. destruct cur; [|done]. split.
  - apply send_up_inv; [done|done|]. intros r' [= <-]. exists ulid, cmd. split; [|by eapply execute_id].
    destruct Hs as [_ _ Ht _]. apply Ht. by eapply list_elem_of_lookup_2.
  - unfold send_up. destruct (ss_open s'); [|done]. cbn [fst ss_up ss_batch]. rewrite telemetry_app. split; [apply app_nil_r|done].
Qed.

Lemma finish_batch k s : ss_batch (finish_task cfg k s) = ss_batch s.
Proof.
  unfold finish_task. destruct (ss_tasks s !! k) as [[[cur ulid] cmd]|]; [|done]. destruct (execute _ _ _ _) as [w [r|]]; [|done].
  destruct cur; [|done]. unfold send_up. by destruct (ss_open _).
Qed.

(** Sending a batch that holds something: it is taken, or it is gone. *)
Lemma send_batch_spec got s : session_inv got (set_batch [] s) -> ss_batch s <> [] -> length (ss_batch s) <= most ->
  let '(s', e) := cont (send_batch s) in
  session_inv got s' /\ ss_batch s' = [] /\
  telemetry (ss_up s') = telemetry (ss_up s) ++ match e with Some _ => [] | None => ss_batch s end.
Proof.
  intros Hs Hne Hlen. unfold send_batch, cont. pose proof (send_up_inv got (MTelemetry (ss_batch s)) _ Hs) as Hu.
  unfold send_up in *. cbn [ss_open set_batch ss_up] in *. destruct (ss_open s); cbn [fst snd] in *.
  - split; [apply Hu; [by intros b [= <-]|done]|]. split; [done|]. cbn [ss_up]. rewrite telemetry_app. cbn. by rewrite app_nil_r.
  - by rewrite app_nil_r.
Qed.

Lemma session_step_spec got p s : session_inv got s ->
  let '(s', e) := session_step cfg p s in
  session_inv (got ++ [p]) s' /\
  exists lost, telemetry (ss_up s') ++ ss_batch s' ++ lost = telemetry (ss_up s) ++ ss_batch s ++ arrivals [p] /\
    length (ss_batch s' ++ lost) <= most /\ (e = None -> lost = []).
Proof.
  intros Hs. pose proof (session_inv_got got p s Hs) as Hs1. pose proof (sv_batch _ _ Hs) as Hb.
  assert (forall s' e, telemetry (ss_up s') = telemetry (ss_up s) -> ss_batch s' = ss_batch s -> arrivals [p] = [] ->
    session_inv (got ++ [p]) s' -> (session_inv (got ++ [p]) s' /\
    exists lost, telemetry (ss_up s') ++ ss_batch s' ++ lost = telemetry (ss_up s) ++ ss_batch s ++ arrivals [p] /\
    length (ss_batch s' ++ lost) <= most /\ (e = None (A := result unit) -> lost = []))) as Hsame.
  { intros s' e Ht Hbat Ha Hinv. split; [done|]. exists []. rewrite Ht, Hbat, Ha, !app_nil_r. split_and!; [done|lia|done]. }
  assert (forall s0, ss_up s0 = ss_up s -> ss_batch s0 = ss_batch s ++ arrivals [p] -> ss_batch s0 <> [] -> length (ss_batch s0) <= most ->
    session_inv (got ++ [p]) (set_batch [] s0) -> let '(s', e) := cont (send_batch s0) in session_inv (got ++ [p]) s' /\
    exists lost, telemetry (ss_up s') ++ ss_batch s' ++ lost = telemetry (ss_up s) ++ ss_batch s ++ arrivals [p] /\
    length (ss_batch s' ++ lost) <= most /\ (e = None -> lost = [])) as Hsend.
  { intros s0 Hup Hbat Hne Hlen Hinv. pose proof (send_batch_spec _ s0 Hinv Hne Hlen) as Hsp. destruct (cont _) as [s' e].
    destruct Hsp as (Hi & Hb' & Ht). split; [done|]. rewrite Hb'. destruct e.
    - exists (ss_batch s0). rewrite Ht, app_nil_r, Hup, Hbat. cbn [app]. split_and!; [done|by rewrite <- Hbat|done].
    - exists []. rewrite Ht, Hup, Hbat. cbn [app length]. rewrite app_nil_r. split_and!; [done|lia|done]. }
  assert (forall b, length b < most -> session_inv (got ++ [p]) (set_batch b s)) as Hset.
  { intros b Hlt. destruct Hs1 as [_ Hx1 Hx2 Hx3]. by split. }
  destruct p as [[ev|]| |ts|u [[[| | |]|e]|]|k|]; cbn [session_step].
  - destruct (_ <=? _) eqn:Hfull.
    + apply Hsend; cbn [ss_up ss_batch set_batch]; [done|done|by destruct (ss_batch s)| |].
      * rewrite length_app. cbn. lia.
      * apply (Hset []). unfold most. cbn. lia.
    + apply Nat.leb_gt in Hfull. cbn [ss_batch set_batch] in Hfull. split; [apply Hset; unfold most; lia|].
      exists []. cbn [ss_up ss_batch set_batch]. rewrite !app_nil_r. split_and!; [done|unfold most; lia|done].
  - by apply Hsame.
  - destruct (is_nil (ss_batch s)) eqn:Hn; [by apply Hsame|]. apply Hsend; [done|cbn; by rewrite app_nil_r|by destruct (ss_batch s)|lia|].
    apply Hset. unfold most. cbn. lia.
  - unfold cont. pose proof (send_up_inv (got ++ [HeartbeatTick ts]) (MHeartbeat ts (w_isolated (ss_world s))) s Hs1) as Hu.
    apply Hsame; [| |done|by apply Hu]; unfold send_up; destruct (ss_open s); try done. cbn [fst ss_up]. rewrite telemetry_app. apply app_nil_r.
  - by apply Hsame.
  - apply Hsame; [done|done|done|]. destruct Hs1 as [Hx1 Hx2 Hx3 Hx4]. split; [done|done| |done].
    intros u' c [Hin|[= -> ->]%list_elem_of_singleton]%elem_of_app; [by apply Hx3|]. apply elem_of_app. right. by left.
  - by apply Hsame.
  - by apply Hsame.
  - by apply Hsame.
  - by apply Hsame.
  - destruct (finish_task_inv _ k s Hs1) as (? & ? & ?). by apply Hsame.
  - apply Hsame; [done|done|done|]. destruct Hs1 as [Hx1 Hx2 Hx3 Hx4]. by split.
Qed.

Lemma session_loop_spec ps got s : session_inv got s -> let '(s', e) := session_loop cfg ps s in
  exists used rest lost, ps = used ++ rest /\ (e = None -> rest = [] /\ lost = []) /\ session_inv (got ++ used) s' /\
    telemetry (ss_up s') ++ ss_batch s' ++ lost = telemetry (ss_up s) ++ ss_batch s ++ arrivals used /\
    length (ss_batch s' ++ lost) <= most.
Proof.
  revert got s. induction ps as [|p ps IH]; intros got s Hs; cbn [session_loop].
  { exists [], [], []. rewrite !app_nil_r. pose proof (sv_batch _ _ Hs). split_and!; [done|done|done|done|lia]. }
  pose proof (session_step_spec got p s Hs) as Hp. destruct (session_step cfg p s) as [s1 [e|]]; destruct Hp as (Hs1 & lost & Heq & Hlen & Hl).
  - exists [p], ps, lost. by split_and!.
  - rewrite (Hl eq_refl), app_nil_r in Heq. specialize (IH _ s1 Hs1). destruct (session_loop cfg ps s1) as [s2 e2].
    destruct IH as (used & rest & lost2 & -> & He & Hinv & Heq2 & Hlen2). exists (p :: used), rest, lost2.
    split_and!; [done|done|by rewrite <- app_assoc in Hinv| |done].
    rewrite Heq2. change (arrivals (p :: used)) with (arrivals ([p] ++ used)). unfold arrivals at 2. rewrite omap_app.
    rewrite !app_assoc. f_equal. rewrite <- app_assoc. exact Heq.
Qed.

Lemma session_once_spec reached ack ps w tasks : let '(s, e) := session_once cfg identity reached ack ps w tasks in
  exists used rest unsent, ps = used ++ rest /\ (e = None -> rest = []) /\
    arrivals used = telemetry (ss_up s) ++ unsent /\ length unsent <= most /\
    (is_ok (hello_reply ack) && reached = false -> used = []) /\
    (forall b, MTelemetry b ∈ ss_up s -> b <> [] /\ length b <= most) /\
    (forall r, MResult r ∈ ss_up s -> exists u c, Down u (Some (Ok (SCommand c))) ∈ used /\ cr_id r = c_id c).
Proof.
  unfold session_once. destruct reached; cbn [send_up ss_open].
  2: { exists [], ps, []. cbn. split_and!; [done|done|done|lia|done|..]; by intros ? ?%not_elem_of_nil. }
  destruct (hello_reply ack) as [[]|e].
  2: { exists [], ps, []. cbn. split_and!; [done|done|done|lia|done|..]; by intros ? ?%list_elem_of_singleton. }
  set (s0 := mkSession _ _ _ _ _). assert (session_inv [] s0) as Hs0.
  { subst s0. split; cbn.
    - unfold most. lia.
    - by intros b ?%list_elem_of_singleton.
    - intros u c Hin. by apply list_elem_of_fmap in Hin as (? & ? & _).
    - by intros r ?%list_elem_of_singleton. }
  pose proof (session_loop_spec ps [] s0 Hs0) as Hl. destruct (session_loop cfg ps s0) as [s e].
  destruct Hl as (used & rest & lost & -> & He & [_ Hsent _ Hres] & Heq & Hlen). exists used, rest, (ss_batch s ++ lost).
  split_and!; [done|by intros [-> _]%He|by rewrite Heq|done|done|done|done].
Qed.
End accounts.

(** The pauses keep doubling up to half a minute; a session that ended without an
    error starts them anew. *)
Lemma pauses_spec b ends : (1 <= b <= 30)%Z -> Forall (fun z => 1 <= z <= 30)%Z (pauses b ends) /\
  length (pauses b ends) = length ends /\
  forall k z, pauses b ends !! k = Some z ->
    (ends !! k = Some (Ok ()) -> z = 1%Z) /\
    forall e, ends !! S k = Some (Err e) -> pauses b ends !! S k = Some (Z.min (z * 2) 30).
Proof.
  revert b. induction ends as [|e ends IH]; intros b Hb; cbn [pauses]; [split_and!; [constructor|done|done]|].
  set (pause := match e with Ok _ => 1%Z | Err _ => b end). assert (1 <= pause <= 30)%Z as Hp by (subst pause; destruct e; lia).
  destruct (IH (Z.min (pause * 2) 30) ltac:(lia)) as (Hf & Hlen & Hk). split_and!.
  - by constructor.
  - cbn. by rewrite Hlen.
  - intros [|k] z Hz; [|by apply Hk]. injection Hz as <-. split; [by intros [= ->]|]. intros e' He. destruct ends as [|e'' ends]; [done|].
    cbn in He. injection He as ->. done.
Qed.

(** C25: an agent's sessions account for its telemetry.  In every session of a
    run, what the collectors handed over up to its end is, in order and without
    repetition, what the stream took followed by at most one batch that was
    not sent; nothing is read before the handshake succeeded; no batch is empty
    or larger than the limit; each reply answers a command received in that
    session.  The pauses between sessions are between one and thirty seconds. *)
Theorem uplink_accounts {F} `{Nft F} `{Sha256} `{Casing} `{JsonText} cfg identity sessions (w : World F) tasks :
  let runs := agent_run cfg identity sessions w tasks in
  Forall2 (fun (c : bool * option (result ServerMessage) * list pick) (se : Session F * option (result unit)) =>
    exists used rest unsent, c.2 = used ++ rest /\ (se.2 = None -> rest = []) /\
      arrivals used = telemetry (ss_up se.1) ++ unsent /\ length unsent <= most cfg /\
      (is_ok (hello_reply c.1.2) && c.1.1 = false -> used = []) /\
      (forall b, MTelemetry b ∈ ss_up se.1 -> b <> [] /\ length b <= most cfg) /\
      (forall r, MResult r ∈ ss_up se.1 -> exists u c, Down u (Some (Ok (SCommand c))) ∈ used /\ cr_id r = c_id c))
    (take (length runs) sessions) runs /\
  (forall ends, Forall (fun z => 1 <= z <= 30)%Z (pauses 1 ends)).
Proof.
  cbv zeta. split; [|intros ends; by apply (pauses_spec 1)].
  revert w tasks. induction sessions as [|[[reached ack] ps] sessions IH]; intros w tasks; cbn [agent_run]; [constructor|].
  pose proof (session_once_spec cfg identity reached ack ps w tasks) as Hs. destruct (session_once _ _ _ _ _ _ _) as [s e].
  cbn [length take]. constructor; [exact Hs|]. destruct e; [apply IH|constructor].
Qed.
