(* ===== verification/Link.v ===== *)
(** * An agent and its gateway

    The gateway's side of a control stream ([session] of
    [sigil-edr/src/server.rs]: what it does with each message of an agent)
    composed with the agent of [Uplink]: telemetry from a collector to the
    node, a response command from the operator to the host and back, and an
    identity from enrollment to the next session.  The stream delivers what
    was sent in order, up to the point where it breaks. *)

From stdpp Require Import gmap strings list.
From S2P Require Import Prelude Utf8 Containers Core Text Columnar Serde Store Edr EdrMap Host Collect Respond Uplink.

(** ** The gateway's inbound messages *)

Section gateway.
Context {S : Type} `{SavedStore S}.
Context `{SerdeValue TokenRecord} `{SerdeValue AgentRecord} `{SerdeValue CommandRecord}.
(** The encoding of [raw], the identifiers and clock readings of the gateway,
    and what each stream belongs to. *)
Context (encode_to_vec : EndpointEvent -> string) (ulid : nat -> string) (clock : nat -> Timestamp).
Context (tenant : string) (agent hostname : string).

(** The [n]th event, for the node. *)
Definition to_node (n : nat) (ee : EndpointEvent) : Event :=
  to_event encode_to_vec (ulid n) (clock (2 * n)) (clock (2 * n + 1)) agent hostname tenant ee.
Definition to_nodes (n : nat) (es : list EndpointEvent) : list Event := imap (fun k => to_node (n + k)) es.

(** One message: the state, the events sent on, the messages sent back. *)
Definition inbound (n : nat) (now : Timestamp) (m : AgentMessage) (e : Edr S) : Edr S * list Event * list ServerMessage :=
  match m with
  | MHeartbeat _ isolated => (registry_heartbeat now e agent isolated, [], [SHeartbeatAck])
  | MTelemetry events => (e, to_nodes n events, [])
  | MResult r => (match record_result now e r with Ok e' => e' | Err _ => e end, [], [])
  | MHello _ _ => (e, [], [])
  end.

Fixpoint inbound_all (n : nat) (now : nat -> Timestamp) (ms : list AgentMessage) (e : Edr S) : Edr S * list Event :=
  match ms with
  | [] => (e, [])
  | m :: ms =>
      let '(e, evs, _) := inbound n (now 0) m e in
      let '(e, evs') := inbound_all (n + length evs) (fun k => now (k + 1)) ms e in (e, evs ++ evs')
  end.

Lemma to_nodes_app n a b : to_nodes n (a ++ b) = to_nodes n a ++ to_nodes (n + length a) b.
Proof. unfold to_nodes. rewrite imap_app. f_equal. apply imap_ext. intros i x _. cbn. by rewrite Nat.add_assoc. Qed.

Lemma to_nodes_length n a : length (to_nodes n a) = length a.
Proof. apply length_imap. Qed.

Lemma inbound_all_events n now ms e : (inbound_all n now ms e).2 = to_nodes n (telemetry ms).
Proof.
  revert n now e. induction ms as [|m ms IH]; intros n now e; cbn [inbound_all]; [done|].
  change (telemetry (m :: ms)) with (telemetry ([m] ++ ms)). rewrite telemetry_app, to_nodes_app.
  destruct m as [a t|ts i|es|r]; cbn [inbound].
  all: match goal with |- context [inbound_all ?n ?now ?ms' ?e] => specialize (IH n now e); destruct (inbound_all n now ms' e) as [e' evs'] end.
  all: cbn [snd] in *; rewrite IH; cbn [length app]; rewrite ?Nat.add_0_r; try done.
  change (telemetry [MTelemetry es]) with (es ++ []). by rewrite app_nil_r, to_nodes_length.
Qed.
End gateway.

(** ** Telemetry *)

Lemma telemetry_prefix a b : a `prefix_of` b -> telemetry a `prefix_of` telemetry b.
Proof. intros [c ->]. rewrite telemetry_app. by eexists. Qed.

Section telemetry.
Context {F S : Type} `{Nft F} `{Sha256} `{Casing} `{JsonText} `{SavedStore S}.
Context `{SerdeValue TokenRecord} `{SerdeValue AgentRecord} `{SerdeValue CommandRecord}.

(** C21: telemetry from the agent to the node.  When the gateway took any
    beginning of what the agent's session put on the stream, the events that
    reached the node are the first ones that the collectors handed to the
    session, in order, each once and each attributed to that agent; when it
    took everything, at most one batch of them is missing. *)
Theorem telemetry_end_to_end cfg identity reached ack ps (w : World F) tasks encode_to_vec ulid clock tenant agent hostname n now taken
    (e : Edr S) :
  let '(s, _) := session_once cfg identity reached ack ps w tasks in
  taken `prefix_of` ss_up s ->
  exists used rest k, ps = used ++ rest /\
    (inbound_all encode_to_vec ulid clock tenant agent hostname n now taken e).2 =
      to_nodes encode_to_vec ulid clock tenant agent hostname n (take k (arrivals used)) /\
    (taken = ss_up s -> length (arrivals used) <= k + most cfg).
Proof.
  pose proof (session_once_spec cfg identity reached ack ps w tasks) as Hs. destruct (session_once _ _ _ _ _ _ _) as [s en].
  destruct Hs as (used & rest & unsent & -> & _ & Heq & Hlen & _). intros Hpre. exists used, rest, (length (telemetry taken)).
  rewrite inbound_all_events. destruct (telemetry_prefix _ _ Hpre) as [t Ht]. split_and!; [done| |].
  - rewrite Heq, Ht, <- app_assoc, take_app_length. done.
  - intros ->. rewrite Heq, length_app. lia.
Qed.
End telemetry.

(** ** Commands *)

Section commands.
Context {F S : Type} `{NftLaws F} `{Sha256} `{Casing} `{JsonText} `{JsonParse} `{!JsonLaws} `{SavedStoreLaws S}.
Context `{SerdeValueLaws TokenRecord} `{SerdeValueLaws AgentRecord} `{SerdeValueLaws CommandRecord}.
Implicit Types (e : Edr S) (w : World F).

(** What a command that succeeded has done to the host. *)
Definition done_on_host (t : CommandType) (p : CommandParams) (ulid : string) (ctx : ResponseCtx) w w' (payload : string) : Prop :=
  match t with
  | KillProcess => match cp_pid p with Some i => i <> 0%Z -> i ∈ (os_pid <$> w_procs w) /\ (i ∉ (os_pid <$> w_procs w')) | None => True end
  | QuarantineFile => forall path n, cp_path p = Some path -> w_files w !! path = Some n ->
      w_files w !! quarantine_path (quarantine_dir ctx) ulid path = None -> w_files w !! sidecar_path (quarantine_dir ctx) ulid path = None ->
      w_files w' !! path = None /\
      exists m, w_files w' !! quarantine_path (quarantine_dir ctx) ulid path = Some m /\ fn_content m = fn_content n
  | IsolateHost => has_table (w_firewall w') /\ w_isolated w' = true
  | UnisolateHost => ~ has_table (w_firewall w') /\ w_isolated w' = false
  | FetchFile => forall path, cp_path p = Some path -> exists n, w_files w !! path = Some n /\ (exists rest, fn_content n = payload +:+ rest) /\
      (Z.of_nat (String.length payload) <= match cp_max_bytes p with Some 0 | None => 1024 * 1024 | Some m => Z.max m 0 end)%Z
  | CmdUnspecified => False
  end.

Lemma substring_prefix n s : exists rest, s = String.substring 0 n s +:+ rest /\ String.length (String.substring 0 n s) <= n.
Proof.
  revert n. induction s as [|c s IH]; intros [|n]; cbn.
  1,2: by exists ""; split; [|lia].
  { exists (String c s). split; [done|lia]. }
  destruct (IH n) as (rest & Hr & Hl). exists rest. split; [by rewrite string_app_cons, <- Hr|lia].
Qed.

Lemma kill_done i hash w w' ok m : i <> 0%Z -> kill_run (Some (i, hash)) w = (w', Some (ok, m)) -> ok = true ->
  i ∈ (os_pid <$> w_procs w) /\ (i ∉ (os_pid <$> w_procs w')).
Proof.
  intros Hi. unfold kill_run. rewrite bool_decide_true by done. destruct (head _) as [p|] eqn:Hp; [|intros [= _ <- _]; done].
  apply head_Some in Hp as [l Hl]. assert (p ∈ filter (fun p => os_pid p = i) (w_procs w)) as [<- Hin]%list_elem_of_filter by (rewrite Hl; by left).
  pose proof (kill_one_spec p w) as Hk. destruct (kill_one p w) as [w1 [|]]; [|by intros [= _ <- _]]. destruct Hk as (_ & Hps & _). intros [= <- _ _] _.
  split; [by apply list_elem_of_fmap_2|]. rewrite Hps. intros (q & Hq & [Hne _]%list_elem_of_filter)%list_elem_of_fmap. by apply Hne.
Qed.

Lemma fetch_done path max w w' m payload : fetch_run (Some (path, max)) w = (w', ((true, m), payload)) ->
  exists n, w_files w !! path = Some n /\ (exists rest, fn_content n = payload +:+ rest) /\
    (Z.of_nat (String.length payload) <= if bool_decide (max = 0) then 1024 * 1024 else Z.max max 0)%Z.
Proof.
  unfold fetch_run. destruct (is_empty_str path); [done|]. pose proof (attempt_spec w) as Ha. destruct (attempt w) as [w1 [er|]]; [done|].
  destruct Ha as (Hf & _). rewrite Hf. destruct (w_files w !! path) as [n|] eqn:Hn; [|done]. intros [= _ _ <-]. exists n. split; [done|].
  set (mx := if bool_decide (max = 0%Z) then _ else max). case_bool_decide as Ht.
  - destruct (substring_prefix (Z.to_nat mx) (fn_content n)) as (rest & Hr & Hl). split; [by exists rest|]. subst mx. case_bool_decide; lia.
  - unfold file_len in Ht. split; [exists ""; by rewrite string_app_nil_r|]. subst mx. case_bool_decide; lia.
Qed.

Lemma execute_done t ctype p i ulid ctx w w' r : parse_command_type ctype = Ok t ->
  execute ulid (build_command i t p) ctx w = (w', Some r) ->
  cr_id r = i /\ (cr_ok r = true -> done_on_host t p ulid ctx w w' (cr_payload r)).
Proof.
  intros Ht He. split; [rewrite (execute_id _ _ _ _ _ _ He); by destruct t|]. intros Hok.
  destruct t; cbn [build_command done_on_host] in *; unfold execute in He; cbn [c_type c_kill c_quarantine c_isolate c_fetch c_id] in He.
  - unfold parse_command_type in Ht. by repeat case_bool_decide.
  - destruct (cp_pid p) as [pid|]; [|done]. intros Hp. cbn [default from_option id] in He.
    destruct (kill_run _ w) as [w1 [[ok m]|]] eqn:Hk; [|done]. injection He as <- <-. by eapply kill_done.
  - intros path n Hpath Hn Hd Hs. rewrite Hpath in He. cbn [default from_option id] in He.
    pose proof (quarantine_spec ulid (quarantine_dir ctx) path (default "" (cp_hash_sha256 p)) n w) as Hq.
    assert (path <> "") as Hne.
    { intros ->. unfold quarantine_run in He. cbn in He. injection He as _ <-. done. }
    specialize (Hq Hne Hn Hd Hs). unfold default, from_option, id in Hq, He.
    destruct (quarantine_run _ _ _ w) as [w1 [ok m]]. injection He as <- <-. cbn in Hok. subst ok.
    destruct Hq as ((Hgone & (m' & Hm & Hor) & _) & _). split; [done|]. exists m'. split; [done|]. by destruct Hor as [-> | ->].
  - unfold isolate, isolate_apply in He.
    match type of He with context [run_nft ?s ?a ?b ?c ?d w] => pose proof (run_nft_spec s a b c d w) as Hn; destruct (run_nft s a b c d w) as [w1 [ok m]] end.
    cbn [fst] in He, Hn. destruct ok; injection He as <- <-; [|done]. destruct Hn as [_ Hl]. split; [by eapply load_has|done].
  - unfold unisolate, isolate_clear in He.
    match type of He with context [run_nft ?s ?a ?b ?c ?d w] => pose proof (run_nft_spec s a b c d w) as Hn; destruct (run_nft s a b c d w) as [w1 [ok m]] end.
    cbn [fst] in He, Hn. destruct ok; injection He as <- <-; [|done]. destruct Hn as [_ Hl]. split; [by eapply delete_has|done].
  - intros path Hpath. rewrite Hpath in He. cbn [default from_option id] in He.
    destruct (fetch_run _ w) as [w1 [[ok m] payload]] eqn:Hf. injection He as <- <-. cbn in *. subst ok.
    apply fetch_done in Hf as (n & Hn & Hr & Hl). exists n. split_and!; [done|done|].
    revert Hl. destruct (cp_max_bytes p) as [[|z|z]|]; cbn [default from_option id]; case_bool_decide; lia.
Qed.


(** enrolling once is enough.  The identity that an agent saves after the
    gateway accepted its enrollment, read back from its file, opens a session
    with that gateway. *)
Theorem saved_identity_opens_session `{Se : Serde AgentIdentity} `{!SerdeLaws AgentIdentity} now now' ulid token e e' cfg hostname os os_version version reply files path :
  st_wf (store e) -> token <> "" ->
  gateway_enroll now ulid token e (enroll_request cfg hostname os os_version version) = Ok (e', Some reply) ->
  valid_utf8 (ser (identity_of cfg reply)) = true ->
  identity_load (identity_save (identity_of cfg reply) path files) path = Some (identity_of cfg reply) /\
  (gateway_hello now' e' (ai_agent_id (identity_of cfg reply)) (ai_session_token (identity_of cfg reply))).2 = true.
Proof.
  intros Hw Htok He Hu. split.
  { unfold identity_load, identity_save. rewrite lookup_insert_eq.
    cbn [mbind option_bind fn_readable fn_content andb]. rewrite Hu. apply de_ser. }
  unfold gateway_enroll in He. destruct (token_valid _ _) as [[]|]; [|done..]. cbn in He. injection He as <- <-.
  unfold gateway_hello, validate_session. cbn. rewrite get_agent_persist by done. rewrite decide_True by done. cbn.
  rewrite bool_decide_true by done. by destruct token.
Qed.
End commands.

(** ** Examples *)

#[export] Instance AgentIdentity_eq_dec : EqDecision AgentIdentity.
Proof. solve_decision. Defined.
#[export] Instance AgentIdentity_countable : Countable AgentIdentity.
Proof.
  refine (inj_countable' (fun i => (ai_agent_id i, ai_session_token i, ai_server_url i)) (fun '(a, b, c) => mkIdentity a b c) _). by intros [].
Defined.

Section demo.
#[local] Existing Instances demo_so demo_so_laws demo_token demo_token_laws demo_agent demo_agent_laws demo_cmd demo_cmd_laws.
#[local] Existing Instances demo_nft demo_nft_laws demo_sha demo_lower demo_json_text demo_json_parse demo_json_laws.
#[local] Instance demo_identity : Serde AgentIdentity := countable_serde AgentIdentity.
#[local] Instance demo_identity_laws : SerdeLaws AgentIdentity := countable_serde_laws AgentIdentity.

Definition demo_cfg : AgentConfig := minimal "http://siem:50055" "t0k".

(** The session is cut off with one event unsent. *)
Definition demo_event (n : nat) : EndpointEvent := new_event demo_ulid Z.of_nat FileCreate n.
Definition demo_picks : list pick :=
  [Telemetry (Some (demo_event 0)); Telemetry (Some (demo_event 1)); Flush; Telemetry (Some (demo_event 2)); Down "" (Some (Err Io)); Flush].
Definition demo_session : Session (option string) * option (result unit) :=
  session_once demo_cfg (mkIdentity "a1" "s3" "http://siem:50055") true (Some (Ok (SHelloAck true))) demo_picks (mkWorld ∅ [] None false []) [].

Example demo_session_sends : length (telemetry (ss_up demo_session.1)) = 2 /\ length (ss_batch demo_session.1) = 1.
Proof. vm_compute. by split. Qed.

Lemma telemetry_end_to_end_witness :
  exists used rest k, demo_picks = used ++ rest /\
    (inbound_all (fun _ => "") demo_ulid Z.of_nat "default" "a1" "web" 0 Z.of_nat (ss_up demo_session.1) demo_live).2 =
      to_nodes (fun _ => "") demo_ulid Z.of_nat "default" "a1" "web" 0 (take k (arrivals used)) /\
    (ss_up demo_session.1 = ss_up demo_session.1 -> length (arrivals used) <= k + most demo_cfg).
Proof.
  exact (telemetry_end_to_end demo_cfg (mkIdentity "a1" "s3" "http://siem:50055") true (Some (Ok (SHelloAck true))) demo_picks
    (mkWorld ∅ [] None false []) [] (fun _ => "") demo_ulid Z.of_nat "default" "a1" "web" 0 Z.of_nat (ss_up demo_session.1) demo_live
    (reflexivity _)).
Defined.


Lemma saved_identity_opens_session_witness :
  exists e', gateway_enroll 5 "agent1" "sess" demo_edr0 (enroll_request demo_cfg (Some "web-1") "linux" None "0.3") = Ok (e', Some (mkEnrollReply "agent1" "sess" 30)) /\
    (gateway_hello 6 e' "agent1" "sess").2 = true.
Proof.
  assert (token_valid (store demo_edr0) "t0k" = Ok true) as Ht by exact demo_token_valid.
  assert (exists e', gateway_enroll 5 "agent1" "sess" demo_edr0 (enroll_request demo_cfg (Some "web-1") "linux" None "0.3") =
    Ok (e', Some (mkEnrollReply "agent1" "sess" 30))) as [e' He].
  { unfold gateway_enroll. cbn [enroll_request enrollment_token ac_enrollment_token demo_cfg minimal]. rewrite Ht. by eexists. }
  exists e'. split; [exact He|].
  exact (proj2 (saved_identity_opens_session 5 6 "agent1" "sess" demo_edr0 e' demo_cfg (Some "web-1") "linux" None "0.3"
    (mkEnrollReply "agent1" "sess" 30) ∅ "state" demo_edr0_wf ltac:(done) He ltac:(vm_compute; reflexivity))).
Defined.
End demo.
