(* ===== verification/Routes.v ===== *)
(** * [sigil-api/src/lib.rs]: the router and the read handlers

    The routes with the guard each is under, the bodies and query parameters
    of the requests, and the handlers that [Api] leaves out: login, counts,
    search, incidents and coverage.  axum's look-up of a path, the hot index
    and the analytical engine are parameters; a reply is its status and what
    it holds. *)

From stdpp Require Import gmap strings list sorting.
From S2P Require Import Prelude Utf8 Text Containers Core Serde Yaml SigmaMatcher SigmaEngine Store.
From S2P Require Import Edr Columnar Segments Dsl Config Plan Auth ConfigExt Api ApiSpec.
From S2P Require Import Graph Float Campaign Vectors Embed Causal Campaigns Incident Metrics Harness.

Local Open Scope string_scope.

(** ** Routes *)

Inductive Method : Set := GET | POST | PUT | PATCH | DELETE.
#[export] Instance Method_eq_dec : EqDecision Method.
Proof. solve_decision. Defined.

Inductive Handler : Set :=
  | login_handler | health | metrics_handler | ui
  | me_handler | count | search | search_fields | search_histogram | alerts_handler | alerts_bulk_patch | alert_patch
  | incidents_handler | rules_handler | rule_create | rule_update | rule_delete | rule_test | attack_coverage
  | saved_list | saved_create | saved_update | saved_delete
  | edr_agents | edr_agent | edr_action | edr_commands | edr_tokens | edr_token_create | edr_stream_agents
  | config_get | config_put | config_validate | system_handler | eval_handler | sql_handler | query_handler
  | stream_alerts | openapi_handler.
#[export] Instance Handler_eq_dec : EqDecision Handler.
Proof. solve_decision. Defined.

Abbreviation routes := (list (string * list (Method * Handler))).

Definition public_routes : routes :=
  [("/auth/login", [(POST, login_handler)]);
   ("/health", [(GET, health)])].

Definition protected_routes : routes :=
  [("/me", [(GET, me_handler)]);
   ("/count", [(GET, count)]);
   ("/search", [(GET, search)]);
   ("/search/fields", [(GET, search_fields)]);
   ("/search/histogram", [(GET, search_histogram)]);
   ("/alerts", [(GET, alerts_handler); (PATCH, alerts_bulk_patch)]);
   ("/alerts/:fp", [(PATCH, alert_patch)]);
   ("/incidents", [(GET, incidents_handler)]);
   ("/rules", [(GET, rules_handler); (POST, rule_create)]);
   ("/rules/:id", [(PUT, rule_update); (DELETE, rule_delete)]);
   ("/rules/:id/test", [(POST, rule_test)]);
   ("/attack/coverage", [(GET, attack_coverage)]);
   ("/saved/:kind", [(GET, saved_list); (POST, saved_create)]);
   ("/saved/:kind/:id", [(PUT, saved_update); (DELETE, saved_delete)]);
   ("/edr/agents", [(GET, edr_agents)]);
   ("/edr/agents/:id", [(GET, edr_agent)]);
   ("/edr/agents/:id/actions", [(POST, edr_action)]);
   ("/edr/commands", [(GET, edr_commands)]);
   ("/edr/enroll-tokens", [(GET, edr_tokens); (POST, edr_token_create)]);
   ("/edr/stream/agents", [(GET, edr_stream_agents)]);
   ("/config", [(GET, config_get); (PUT, config_put)]);
   ("/config/validate", [(POST, config_validate)]);
   ("/system", [(GET, system_handler)]);
   ("/eval", [(GET, eval_handler)]);
   ("/sql", [(GET, sql_handler)]);
   ("/query", [(GET, query_handler)]);
   ("/stream/alerts", [(GET, stream_alerts)]);
   ("/openapi.json", [(GET, openapi_handler)])].

Definition top_routes : routes := [("/health", [(GET, health)]); ("/metrics", [(GET, metrics_handler)])].

Definition legacy_routes : routes :=
  [("/", [(GET, ui)]);
   ("/ui", [(GET, ui)]);
   ("/count", [(GET, count)]);
   ("/search", [(GET, search)]);
   ("/alerts", [(GET, alerts_handler)]);
   ("/incidents", [(GET, incidents_handler)]);
   ("/rules", [(GET, rules_handler)]);
   ("/system", [(GET, system_handler)]);
   ("/eval", [(GET, eval_handler)]);
   ("/sql", [(GET, sql_handler)]);
   ("/query", [(GET, query_handler)])].

(** A pattern against a path, segment by segment: [:name] takes one segment
    that is not empty. *)
Fixpoint match_segments (pattern path : list string) : option (list string) :=
  match pattern, path with
  | [], [] => Some []
  | p :: ps, s :: ss =>
      match p with
      | String ":" _ => if is_empty_str s then None else rest ← match_segments ps ss; Some (s :: rest)
      | _ => if bool_decide (p = s) then match_segments ps ss else None
      end
  | _, _ => None
  end.

Definition segments (path : string) : list string := split_on "/" path.
Definition match_path (pattern path : string) : option (list string) := match_segments (segments pattern) (segments path).

(** axum's look-up of a path among the routes: the methods of the route it
    takes, and the parameters of the path. *)
Class PathRouter : Type := find_route : routes -> string -> option (list (Method * Handler) * list string).

(** [nest]: the routes below a prefix. *)
Definition nest (prefix : string) (rs : routes) : routes := (fun r => (prefix +:+ r.1, r.2)) <$> rs.

(** [router]: the routes that run under the guard, and the others. *)
Definition guarded : routes := nest "/api/v1" protected_routes.
Definition unguarded (auth_enabled : bool) : routes :=
  (top_routes ++ nest "/api/v1" public_routes ++ if auth_enabled then [] else legacy_routes)%list.

Inductive routed : Set := NotFound | NoMethod (guarded_ : bool) | Route (guarded_ : bool) (h : Handler) (params : list string).

Definition pick_method (g : bool) (m : Method) (r : list (Method * Handler) * list string) : routed :=
  match filter (fun mh => mh.1 = m) r.1 with
  | mh :: _ => Route g mh.2 r.2
  | [] => NoMethod g
  end.

Definition router `{PathRouter} (auth_enabled : bool) (m : Method) (path : string) : routed :=
  match find_route guarded path with
  | Some r => pick_method true m r
  | None => match find_route (unguarded auth_enabled) path with
            | Some r => pick_method false m r
            | None => NotFound
            end
  end.

(** ** Bodies and query parameters *)

(** An optional field: absent or null is [None]. *)
Definition opt_field {A} (read : value -> option A) (m : fields_t) (key : string) : option (option A) :=
  match fields_get m key with
  | None | Some VNull => Some None
  | Some v => a ← read v; Some (Some a)
  end.
Definition field {A} (read : value -> option A) (m : fields_t) (key : string) : option A := fields_get m key ≫= read.
(** With [#[serde(default)]] on a field that is not optional. *)
Definition field_or {A} (d : A) (read : value -> option A) (m : fields_t) (key : string) : option A :=
  match fields_get m key with None => Some d | Some v => read v end.

Definition read_string (v : value) : option string := match v with VString s => Some s | _ => None end.
Definition read_bool (v : value) : option bool := match v with VBool b => Some b | _ => None end.
Definition read_value (v : value) : option value := Some v.
Definition read_uint (bound : Z) (v : value) : option Z :=
  match v with VNumber (NInt z) => if ((0 <=? z) && (z <=? bound))%Z then Some z else None | _ => None end.
Definition read_list {A} (read : value -> option A) (v : value) : option (list A) :=
  match v with VArray l => mapM read l | _ => None end.
Definition read_map {A} (read : value -> option A) (v : value) : option (smap A) :=
  match v with
  | VObject m => l ← mapM (fun kv => a ← read kv.2; Some (kv.1, a)) m; Some (foldl (fun m kv => smap_insert kv.1 kv.2 m) [] l)
  | _ => None
  end.
Definition u32_max : Z := 2 ^ 32 - 1.

Definition EdrActionBody (m : fields_t) : option (string * CommandParams) :=
  action ← field read_string m "type";
  pid ← opt_field (read_uint u32_max) m "pid";
  hash ← opt_field read_string m "hash_sha256";
  path ← opt_field read_string m "path";
  max_bytes ← opt_field (read_uint u64_max) m "max_bytes";
  allow ← opt_field (read_list read_string) m "allowlist_cidrs";
  Some (action, mkParams pid hash path max_bytes allow).

Definition AlertPatchBody_of (m : fields_t) : option AlertPatchBody :=
  status ← opt_field read_string m "status";
  assignee ← opt_field read_string m "assignee";
  note ← opt_field read_string m "note";
  Some (mkPatchBody status assignee note).

Definition RuleTestCaseBody (v : value) : option TestCaseBody :=
  match v with
  | VObject m =>
      name ← field read_string m "name";
      message ← field_or "" read_string m "message";
      fields ← field_or [] (read_map read_string) m "fields";
      expect_match ← field read_bool m "expect_match";
      Some (mkCaseBody name message fields expect_match)
  | _ => None
  end.

Section bodies.
(** [Config] out of JSON, as serde derives it. *)
Context (config_of_json : value -> option Config).

Definition ConfigInput_of (m : fields_t) : option ConfigInput :=
  match field read_string m "yaml" with
  | Some yaml => Some (InYaml yaml)
  | None => c ← field config_of_json m "config"; Some (InStructured c)
  end.

(** The limit of a query, when it is a number. *)
Definition limit_of (query : smap string) : option (option nat) :=
  match smap_get query "limit" with
  | None => Some None
  | Some s => n ← parse_u64 s; Some (Some (Z.to_nat n))
  end.

(** The request a handler of [Api] gets; [None]: the extractors refuse.  A
    body is an object (serde would also read an array of the fields). *)
Definition decode_request (h : Handler) (params : list string) (query : smap string) (body : option value) : option Req :=
  let object := match body with Some (VObject m) => Some m | _ => None end in
  match h, params with
  | me_handler, _ => Some GetMe
  | alerts_handler, _ => limit ← limit_of query; Some (GetAlerts limit (smap_get query "technique"))
  | alert_patch, [fp] => m ← object; b ← AlertPatchBody_of m; Some (PatchAlert fp b)
  | alerts_bulk_patch, _ =>
      m ← object; fps ← field (read_list read_string) m "fingerprints"; b ← AlertPatchBody_of m; Some (PatchAlerts fps b)
  | rules_handler, _ => Some GetRules
  | rule_create, _ => m ← object; yaml ← field read_string m "yaml"; Some (PostRule yaml)
  | rule_update, [id] => m ← object; yaml ← field read_string m "yaml"; Some (PutRule id yaml)
  | rule_delete, [id] => Some (DeleteRule id)
  | rule_test, [id] =>
      m ← object; yaml ← opt_field read_string m "yaml"; cases ← field (read_list RuleTestCaseBody) m "cases"; Some (TestRule id yaml cases)
  | saved_list, [kind] => Some (GetSaved kind)
  | saved_create, [kind] => m ← object; name ← opt_field read_string m "name"; b ← field read_value m "body"; Some (PostSaved kind name b)
  | saved_update, [kind; id] => m ← object; name ← opt_field read_string m "name"; b ← field read_value m "body"; Some (PutSaved kind id name b)
  | saved_delete, [kind; id] => Some (DeleteSaved kind id)
  | edr_agents, _ => Some GetAgents
  | edr_agent, [id] => Some (GetAgent id)
  | edr_action, [id] => m ← object; '(action, p) ← EdrActionBody m; Some (PostAction id action p)
  | edr_commands, _ => limit ← limit_of query; Some (GetCommands (smap_get query "agent") limit)
  | edr_tokens, _ => Some GetTokens
  | edr_token_create, _ => m ← object; label ← opt_field read_string m "label"; Some (PostToken label)
  | config_get, _ => Some GetConfig
  | config_validate, _ => m ← object; b ← ConfigInput_of m; Some (ValidateConfig b)
  | config_put, _ => m ← object; b ← ConfigInput_of m; Some (PutConfig b)
  | query_handler, _ => Some (GetQuery (smap_get query "q"))
  | search_histogram, _ => Some (GetHistogram (smap_get query "q") (smap_get query "interval"))
  | _, _ => None
  end.
End bodies.

(** ** Replies *)

Record SourceInfo : Set := mkSource { sy_id : string; sy_kind : string; sy_codec : string }.
Record PipelineInfo : Set := mkPipelineInfo { py_id : string; py_from : list string; py_route : list string }.
Record SystemInfo : Set := mkSystemInfo {
  si_roles : list string; si_transport : string; si_nodes : list string; si_shards : Z; si_replication : Z;
  si_sources : list SourceInfo; si_pipelines : list PipelineInfo;
  si_retention_hot : string; si_retention_warm : string; si_retention_cold : string;
  si_index_path : string; si_cold_path : string; si_rule_count : nat; si_auth_enabled : bool; si_persistence : bool
}.

Record Coverage : Set := mkCoverage { co_technique : string; co_tactic : string; co_covered : bool; co_observed : bool }.

Inductive contents : Type :=
  | C_error
  | C_login (token : string) (ttl : Z) (user : AuthUser)
  | C_health (auth_enabled persistence : bool)
  | C_metrics (text : string)
  | C_count (events alerts : nat)
  | C_events (l : list Event)
  | C_fields (l : list Columnar.Field)
  | C_incidents (l : list Incident)
  | C_coverage (covered observed : nat) (techniques : list Coverage)
  | C_eval (r : EvalReport)
  | C_table (sql : string) (columns : list string) (rows : list value)
  | C_system (s : SystemInfo)
  | C_page | C_stream | C_openapi.

(** A reply of [Api], one of the handlers below, a request the extractors
    refuse, or a panic of the handler. *)
Inductive Reply : Type := FromApi (r : Response) | Plain (status : Z) (c : contents) | Refused | Aborted.

(** ** The read handlers *)

Section handlers.
Context `{PathRouter} (default_hasher : string -> Timestamp -> list string -> Z).
Context `{Serde AlertRecord, Serde SavedObject}.
Context `{SerdeValue TokenRecord, SerdeValue AgentRecord, SerdeValue CommandRecord}.
Context `{JsonText, RegexEngine, Casing, YamlText, ConfigSerde, Jwt, Argon2}.
Context `{TokenHash} `{HashOrder} `{FloatFixed} `{FloatFixed32} `{CountOrder} `{Ln}.
Context (is_correlation_doc : string -> bool) (parse_yaml : string -> result SigmaRule) (is_dir : string -> bool).
Context (config_of_json : value -> option Config).
(** The hot index (its count and its search), the analytical engine, the
    metrics text, and the clock of a synthetic scenario. *)
Context (index_count : result nat) (index_search : string -> nat -> result (list Event)).
Context (analytics : string -> result (list string * list value)) (metrics : option string) (now : nat -> Timestamp).

Definition login_reply (env : Env) (a : Api) (username password : string) : Reply :=
  match authenticate (ap_auth a) username password with
  | Some user =>
      match issue (ap_auth a) (en_secs env) user with
      | Some token => Plain 200 (C_login token (as_ttl (ap_auth a)) user)
      | None => Plain 500 C_error
      end
  | None => Plain 401 C_error
  end.

Definition count_reply (a : Api) : Reply :=
  match index_count with Ok n => Plain 200 (C_count n (alerts_len a)) | Err _ => Plain 500 C_error end.

Definition search_reply (q : option string) (limit : option nat) : Reply :=
  match index_search (default "" q) (page limit) with Ok l => Plain 200 (C_events l) | Err _ => Plain 500 C_error end.

(** The technique of an event: that of the first record with one that names it. *)
Definition record_techniques (recs : list AlertRecord) : gmap string string :=
  foldl (fun m r => match a_technique (ar_alert r) with
                    | Some t => foldl (fun m ev => match m !! ev with Some _ => m | None => <[ev := t]> m end) m (a_events (ar_alert r))
                    | None => m
                    end) ∅ recs.

Definition DAY_MICROS : Z := 24 * 60 * 60 * 1000000.
Definition RECORDS : nat := Z.to_nat 100000.
Definition INCIDENT_EVENTS : nat := Z.to_nat 5000.

Definition incidents_reply (env : Env) (a : Api) : Reply :=
  match index_search "" INCIDENT_EVENTS with
  | Err _ => Plain 500 C_error
  | Ok events =>
      let techniques := record_techniques (Api.records default_hasher (en_now env) a RECORDS None) in
      let d := CampaignConfig_default in
      let cfg := mkCampaignConfig DAY_MICROS (gc_sim_threshold d) (gc_knn d) (gc_require_cross_domain d) (gc_semantic_links d) (gc_entity_links d) in
      match build_campaigns (H := HashingEmbedder 128) events cfg with
      | None => Aborted
      | Some candidates =>
          match build_incidents (H2 := BeamSearchSelector 4) 0 candidates events techniques
                  (mkCausalConfig DAY_MICROS (cc_beam_width CausalConfig_default)) with
          | None => Aborted
          | Some l => Plain 200 (C_incidents l)
          end
      end
  end.

Definition coverage_reply (env : Env) (a : Api) : Reply :=
  let covered : gset string := list_to_set (omap ri_technique (rule_infos (ap_engine a))) in
  let observed : gset string :=
    list_to_set (omap (fun r => a_technique (ar_alert r)) (Api.records default_hasher (en_now env) a RECORDS None)) in
  let row t := mkCoverage t (tactic_for (Some t) (OtherClass 0)) (bool_decide (t ∈ covered)) (bool_decide (t ∈ observed)) in
  Plain 200 (C_coverage (size covered) (size observed) (row <$> merge_sort String.le (elements (covered ∪ observed)))).

Definition eval_reply (seed : option Z) : Reply :=
  match (s ← synthetic now (default 1%Z seed); run_eval s) with Some r => Plain 200 (C_eval r) | None => Aborted end.

Definition run_analytics (sql shown : string) : Reply :=
  match analytics sql with Ok (columns, rows) => Plain 200 (C_table shown columns rows) | Err _ => Plain 500 C_error end.

Definition sql_reply (q : option string) : Reply :=
  match q with Some sql => if is_blank sql then Plain 400 C_error else run_analytics sql sql | None => Plain 400 C_error end.

(** The statement [Api] found is run; its other replies stay. *)
Definition analytics_reply (shown : string -> string) (r : Response) : Reply :=
  match body r with P_sql sql => run_analytics sql (shown sql) | _ => FromApi r end.

(** ** One request *)

Record HttpReq : Type := mkHttpReq {
  hq_method : Method; hq_path : string; hq_auth : Request; hq_query : smap string; hq_body : option value
}.

Definition seed_of (query : smap string) : option (option Z) :=
  match smap_get query "seed" with None => Some None | Some s => n ← parse_u64 s; Some (Some n) end.

Definition run_handler (env : Env) (a : Api) (system_info : SystemInfo) (user : AuthUser) (h : Handler) (params : list string) (q : HttpReq) :
    Api * Reply :=
  match h with
  | login_handler =>
      (a, match hq_body q with
          | Some (VObject m) =>
              match field read_string m "username", field read_string m "password" with
              | Some u, Some p => login_reply env a u p
              | _, _ => Refused
              end
          | _ => Refused
          end)
  | health => (a, Plain 200 (C_health (as_enabled (ap_auth a)) (ap_persistent a)))
  | metrics_handler => (a, match metrics with Some t => Plain 200 (C_metrics t) | None => Plain 404 C_error end)
  | count => (a, count_reply a)
  | search => (a, match limit_of (hq_query q) with Some limit => search_reply (smap_get (hq_query q) "q") limit | None => Refused end)
  | search_fields => (a, Plain 200 (C_fields event_schema))
  | incidents_handler => (a, incidents_reply env a)
  | attack_coverage => (a, coverage_reply env a)
  | system_handler => (a, Plain 200 (C_system system_info))
  | eval_handler => (a, match seed_of (hq_query q) with Some seed => eval_reply seed | None => Refused end)
  | sql_handler => (a, sql_reply (smap_get (hq_query q) "q"))
  | ui => (a, Plain 200 C_page)
  | stream_alerts | edr_stream_agents => (a, Plain 200 C_stream)
  | openapi_handler => (a, Plain 200 C_openapi)
  | query_handler => (a, analytics_reply (fun sql => sql) (Api.query_handler (smap_get (hq_query q) "q")))
  | search_histogram =>
      (a, analytics_reply (fun _ => "histogram interval=" +:+ default "1h" (smap_get (hq_query q) "interval"))
            (json (P_sql (histogram_sql (smap_get (hq_query q) "q") (smap_get (hq_query q) "interval")))))
  | _ =>
      match decode_request config_of_json h params (hq_query q) (hq_body q) with
      | Some r => let '(a, r) := handle default_hasher is_correlation_doc parse_yaml is_dir env a user r in (a, FromApi r)
      | None => (a, Refused)
      end
  end.

(** The guard runs before the handler of a guarded route; whether it also runs
    before a method the route does not have is refused is up to axum. *)
Definition serve_http (method_guarded : bool) (env : Env) (a : Api) (system_info : SystemInfo) (q : HttpReq) : Api * Reply :=
  let guard (k : AuthUser -> Api * Reply) : Api * Reply :=
    match require_auth (ap_auth a) (en_secs env) (hq_auth q) with
    | Unauthorized => (a, FromApi unauthorized)
    | Run_as user => k user
    end in
  match router (as_enabled (ap_auth a)) (hq_method q) (hq_path q) with
  | NotFound => (a, Plain 404 C_error)
  | NoMethod g => if g && method_guarded then guard (fun _ => (a, Plain 405 C_error)) else (a, Plain 405 C_error)
  | Route true h params => guard (fun user => run_handler env a system_info user h params q)
  | Route false h params => run_handler env a system_info system h params q
  end.
End handlers.

(** ** The routes do not overlap *)

Definition is_param (seg : string) : bool := match seg with String ":" _ => true | _ => false end.

(** Two patterns that no path fits: of different lengths, or with different
    words somewhere. *)
Fixpoint apart (p q : list string) : bool :=
  match p, q with
  | [], [] => false
  | x :: p, y :: q => (negb (is_param x) && negb (is_param y) && negb (bool_decide (x = y))) || apart p q
  | _, _ => true
  end.

Lemma match_cons p ps s ss :
  match_segments (p :: ps) (s :: ss) =
  if is_param p then (if is_empty_str s then None else rest ← match_segments ps ss; Some (s :: rest))
  else if bool_decide (p = s) then match_segments ps ss else None.
Proof. cbn. destruct p as [|c p]; [done|]. by destruct (ascii_dec c ":") as [->|]; [|destruct c as [[] [] [] [] [] [] [] []]]. Qed.

Lemma apart_match p q path : apart p q = true -> is_Some (match_segments p path) -> match_segments q path = None.
Proof.
  revert q path. induction p as [|x p IH]; intros [|y q] [|s path]; try done; cbn [apart]; [by intros _ [? ?]..|].
  rewrite !match_cons. intros Ha Hm.
  destruct (is_param x) eqn:Hx, (is_param y) eqn:Hy; cbn [negb andb orb] in Ha.
  - destruct (is_empty_str s); [by destruct Hm|]. destruct (match_segments p path) eqn:Hp; [|by destruct Hm]. by rewrite (IH q path).
  - case_bool_decide; [|done]. destruct (is_empty_str s); [by destruct Hm|].
    destruct (match_segments p path) eqn:Hp; [|by destruct Hm]. by apply IH.
  - destruct (is_empty_str s); [done|]. case_bool_decide; [|by destruct Hm]. by rewrite (IH q path).
  - apply orb_true_iff in Ha as [Hne|Ha].
    + case_bool_decide as Hxs; [|by destruct Hm]. subst s. by rewrite bool_decide_false by (apply negb_true_iff, bool_decide_eq_false in Hne; congruence).
    + case_bool_decide; [|by destruct Hm]. case_bool_decide; [|done]. by apply IH.
Qed.

(** Every pattern of a table is apart from the others. *)
Fixpoint all_apart (l : list (list string)) : bool :=
  match l with [] => true | p :: l => forallb (apart p) l && all_apart l end.

(** What axum documents of the look-up, for routes that no path can confuse: it
    takes a route of the table, and that one whose pattern the path fits, with
    the segments at the names of the pattern (their escapes decoded). *)
Class PathRouterLaws `{PathRouter} : Prop := {
  find_route_in rs path r : all_apart (segments <$> rs.*1) = true -> find_route rs path = Some r -> exists pattern, (pattern, r.1) ∈ rs;
  find_route_fits rs pattern ms path ps : all_apart (segments <$> rs.*1) = true -> (pattern, ms) ∈ rs ->
    match_path pattern path = Some ps -> free_of "%" path = true -> find_route rs path = Some (ms, ps)
}.

Lemma apart_sym p q : apart p q = apart q p.
Proof.
  revert q. induction p as [|x p IH]; intros [|y q]; [done..|]. cbn [apart]. rewrite (IH q). f_equal.
  rewrite (andb_comm (negb (is_param x))). f_equal. f_equal. by apply bool_decide_ext.
Qed.

(** A look-up with these laws: the first route whose pattern fits. *)
Fixpoint first_route (rs : routes) (path : string) : option (list (Method * Handler) * list string) :=
  match rs with
  | [] => None
  | (pattern, methods) :: rs =>
      match match_path pattern path with Some params => Some (methods, params) | None => first_route rs path end
  end.

Lemma first_route_in rs path r : first_route rs path = Some r -> exists pattern, (pattern, r.1) ∈ rs.
Proof.
  induction rs as [|[pattern ms] rs IH]; [done|]. cbn [first_route]. destruct (match_path pattern path) as [ps|].
  - intros [= <-]. exists pattern. by left.
  - intros (p & Hin)%IH. exists p. by right.
Qed.

Lemma first_route_fits rs pattern ms path ps : all_apart (segments <$> rs.*1) = true ->
  (pattern, ms) ∈ rs -> match_path pattern path = Some ps -> first_route rs path = Some (ms, ps).
Proof.
  induction rs as [|[p m] rs IH]; [by intros _ ?%not_elem_of_nil|]. cbn [fmap list_fmap all_apart first_route].
  intros [Hf Ha]%andb_true_iff Hin Hm. apply elem_of_cons in Hin as [[= -> ->]|Hin]; [by rewrite Hm|].
  replace (match_path p path) with (@None (list string)); [by apply IH|]. symmetry.
  assert (apart (segments p) (segments pattern) = true) as Hap.
  { rewrite forallb_forall in Hf. apply Hf. apply list_elem_of_In. apply list_elem_of_fmap. exists pattern. split; [done|].
    apply list_elem_of_fmap. by exists (pattern, ms). }
  rewrite apart_sym in Hap. unfold match_path in *. eapply apart_match; [exact Hap|by rewrite Hm].
Qed.

Definition first_router : PathRouter := first_route.
Lemma first_router_laws : PathRouterLaws (H := first_router).
Proof. split; [intros rs path r _; apply first_route_in|intros rs pattern ms path ps Ha Hin Hm _; by apply (first_route_fits rs pattern)]. Qed.

(** ** Theorems *)

Lemma guarded_apart : all_apart (segments <$> guarded.*1) = true.
Proof. vm_compute; reflexivity. Qed.
Lemma unguarded_apart b : all_apart (segments <$> (unguarded b).*1) = true.
Proof. by destruct b; vm_compute. Qed.

(** The handlers a table leads to. *)
Definition handlers_of (rs : routes) : list Handler := concat ((fun r => r.2.*2) <$> rs).

Lemma pick_method_handlers g m r rs pattern : (pattern, r.1) ∈ rs ->
  match pick_method g m r with Route g' h params => g' = g /\ h ∈ handlers_of rs /\ params = r.2 | NoMethod g' => g' = g | NotFound => False end.
Proof.
  intros Hin. unfold pick_method. destruct (filter _ r.1) as [|mh l] eqn:Hf; [done|]. split; [done|]. split; [|done].
  assert (mh ∈ filter (fun mh => mh.1 = m) r.1) as [_ Hmh]%list_elem_of_filter by (rewrite Hf; by left).
  unfold handlers_of. apply list_elem_of_In, in_concat. exists (r.1.*2). split.
  - apply list_elem_of_In, list_elem_of_fmap. by exists (pattern, r.1).
  - apply list_elem_of_In, list_elem_of_fmap. by exists mh.
Qed.

(** Where the router sends a request. *)
Lemma router_cases `{PathRouterLaws} auth_enabled m path :
  match router auth_enabled m path with
  | NotFound => find_route guarded path = None /\ find_route (unguarded auth_enabled) path = None
  | NoMethod g => True
  | Route true h _ => h ∈ handlers_of guarded
  | Route false h _ => h ∈ handlers_of (unguarded auth_enabled)
  end.
Proof.
  unfold router. destruct (find_route guarded path) as [r|] eqn:Hg.
  - destruct (find_route_in _ _ _ guarded_apart Hg) as (p & Hp). pose proof (pick_method_handlers true m r _ p Hp) as Hm.
    destruct (pick_method true m r) as [|?|g h ps]; [done..|]. destruct Hm as (-> & Hh & _). done.
  - destruct (find_route (unguarded auth_enabled) path) as [r|] eqn:Hu; [|done].
    destruct (find_route_in _ _ _ (unguarded_apart _) Hu) as (p & Hp). pose proof (pick_method_handlers false m r _ p Hp) as Hm.
    destruct (pick_method false m r) as [|?|g h ps]; [done..|]. destruct Hm as (-> & Hh & _). done.
Qed.

Definition open_handlers : list Handler := [login_handler; health; metrics_handler].
Definition legacy_handlers : list Handler :=
  [ui; count; search; alerts_handler; incidents_handler; rules_handler; system_handler; eval_handler; sql_handler; query_handler].

Lemma unguarded_handlers b h : h ∈ handlers_of (unguarded b) -> h ∈ open_handlers \/ (b = false /\ h ∈ legacy_handlers).
Proof.
  assert (forallb (fun h => bool_decide (h ∈ open_handlers)) (handlers_of (unguarded true)) = true) as Ht by (vm_compute; reflexivity).
  assert (forallb (fun h => bool_decide (h ∈ open_handlers \/ h ∈ legacy_handlers)) (handlers_of (unguarded false)) = true) as Hf by (vm_compute; reflexivity).
  rewrite forallb_forall in Ht, Hf. intros Hh%list_elem_of_In. destruct b.
  - left. apply Ht in Hh. by apply bool_decide_eq_true in Hh.
  - apply Hf in Hh. apply bool_decide_eq_true in Hh as [?|?]; [by left|by right].
Qed.

Section claims.
Context `{PathRouterLaws} (default_hasher : string -> Timestamp -> list string -> Z).
Context `{Serde AlertRecord, Serde SavedObject}.
Context `{SerdeValue TokenRecord, SerdeValue AgentRecord, SerdeValue CommandRecord}.
Context `{JsonText, RegexEngine, Casing, YamlText, ConfigSerde, Jwt, Argon2}.
Context `{TokenHash} `{HashOrder} `{FloatFixed} `{FloatFixed32} `{CountOrder} `{Ln}.
Context (is_correlation_doc : string -> bool) (parse_yaml : string -> result SigmaRule) (is_dir : string -> bool).
Context (config_of_json : value -> option Config).
Context (index_count : result nat) (index_search : string -> nat -> result (list Event)).
Context (analytics : string -> result (list string * list value)) (metrics : option string) (now : nat -> Timestamp).

#[local] Abbreviation http := (serve_http default_hasher is_correlation_doc parse_yaml is_dir config_of_json index_count index_search
  analytics metrics now).
#[local] Abbreviation runs := (run_handler default_hasher is_correlation_doc parse_yaml is_dir config_of_json index_count index_search
  analytics metrics now).


(** The coverage lists each technique of a rule or of an alert once, in order,
    and says where it comes from. *)
Lemma coverage_spec env a : exists n m rows, coverage_reply default_hasher env a = Plain 200 (C_coverage n m rows) /\
  NoDup (co_technique <$> rows) /\
  (forall t, t ∈ co_technique <$> rows <-> (exists r, r ∈ ap_engine a /\ technique r = Some t) \/
     exists r, r ∈ Api.records default_hasher (en_now env) a RECORDS None /\ a_technique (ar_alert r) = Some t) /\
  forall c, c ∈ rows ->
    (co_covered c = true <-> exists r, r ∈ ap_engine a /\ technique r = Some (co_technique c)) /\
    (co_observed c = true <->
       exists r, r ∈ Api.records default_hasher (en_now env) a RECORDS None /\ a_technique (ar_alert r) = Some (co_technique c)).
Proof.
  unfold coverage_reply. set (recs := Api.records _ _ _ _ _). set (covered := list_to_set (omap ri_technique _)).
  set (observed := list_to_set (omap (fun r => a_technique (ar_alert r)) recs)).
  assert (forall t, t ∈ covered <-> exists r, r ∈ ap_engine a /\ technique r = Some t) as Hc.
  { intros t. unfold covered, rule_infos. rewrite elem_of_list_to_set, list_elem_of_omap. split.
    - intros (i & (r & -> & Hr)%list_elem_of_fmap & Ht). by exists r.
    - intros (r & Hr & Ht). eexists. split; [apply list_elem_of_fmap; by exists r|done]. }
  assert (forall t, t ∈ observed <-> exists r, r ∈ recs /\ a_technique (ar_alert r) = Some t) as Ho.
  { intros t. unfold observed. rewrite elem_of_list_to_set, list_elem_of_omap. done. }
  set (row := fun t => mkCoverage t _ _ _). eexists _, _, _. split; [done|].
  assert (co_technique <$> (row <$> merge_sort String.le (elements (covered ∪ observed))) = merge_sort String.le (elements (covered ∪ observed))) as Hid.
  { rewrite <- list_fmap_compose. rewrite <- (list_fmap_id (merge_sort _ _)) at 2. done. }
  rewrite Hid. split; [|split].
  - rewrite merge_sort_Permutation. apply NoDup_elements.
  - intros t. by rewrite merge_sort_Permutation, elem_of_elements, elem_of_union, Hc, Ho.
  - intros c (t & -> & _)%list_elem_of_fmap. cbn. by rewrite !bool_decide_eq_true, Hc, Ho.
Qed.
End claims.

Section demo.
#[local] Existing Instances demo_json demo_lower demo_regex demo_yaml ApiSpec.demo_alert_serde ApiSpec.demo_saved_serde.
#[local] Existing Instances ApiSpec.demo_token_value ApiSpec.demo_agent_value ApiSpec.demo_command_value.
#[local] Existing Instances ApiSpec.no_config_serde ApiSpec.no_jwt ApiSpec.no_argon2.
#[local] Instance demo_token_hash : TokenHash := fun s => Z.of_nat (String.length s).
#[local] Instance demo_fixed : FloatFixed := fun _ _ => "0".
#[local] Instance demo_fixed32 : FloatFixed32 := fun _ _ => "0".
#[local] Existing Instances first_router first_router_laws.
#[local] Instance demo_ln : Ln := fun x => x.
#[local] Instance demo_hash_order : HashOrder := { id_order := elements; link_order := map_to_list; group_order := map_to_list }.
#[local] Instance demo_count_order : CountOrder := { joint_order := map_to_list; count_order := map_to_list }.

Definition demo_info : SystemInfo := mkSystemInfo [] "inproc" ["local"] 8 1 [] [] "" "" "" "" "" 0 true true.
Definition demo_get (path : string) : HttpReq := mkHttpReq GET path (Auth.mkRequest None None) [] None.

End demo.
