(* ===== verification/Replay.v ===== *)
(** * [sigil-cli]: replaying, correlating and hunting files

    The commands that work on history: a file of records through decoding,
    normalisation, template mining, the rules, the hot index and a cold
    segment ([run.rs]), the campaigns and incidents of a file, and the hunt
    over the columnar store ([main.rs]).  The YAML parser, the listing of a
    rules directory and the reading of a file are parameters. *)

From stdpp Require Import gmap strings list.
From S2P Require Import Prelude Utf8 Containers Core Yaml SigmaMatcher SigmaEngine SigmaCorrelation.
From S2P Require Import Cluster Serde Store Columnar Segments Tiering Text Config Codec Cef Float Template.
From S2P Require Import Normalize Enrich Detect ColdTier Graph Campaign Vectors Embed Causal Campaigns Incident Pipeline.

(** ** Loading rules *)

(** What the host offers: the bytes of a file, the YAML files under a
    directory, and what [serde_yaml] makes of a text. *)
Record Machine : Type := mkMachine {
  h_read : string -> result string;
  h_yaml_files : string -> result (list (string * string));
  h_is_correlation : string -> bool;
  h_rule : string -> result SigmaRule;
  h_correlation : string -> result CorrelationRule
}.

Section rules.
Context `{JsonText} `{RegexEngine} `{Casing} `{YamlText}.

(** [CorrelationEngine::load_dir] on the files read; [None] where compiling a
    rule panics. *)
Fixpoint load_correlations (is_corr : string -> bool) (parse : string -> result CorrelationRule) (files : list (string * string))
    (rules : list CompiledCorrelation) (report : LoadReport) : option (CorrelationEngine * LoadReport) :=
  match files with
  | [] => Some (CorrelationEngine_new rules, report)
  | (path, text) :: files =>
      if negb (is_corr text) then load_correlations is_corr parse files rules report
      else
        r ← match parse text with Ok rule => corr_from_rule rule | Err e => Some (Err e) end;
        match r with
        | Ok rule => load_correlations is_corr parse files (rules ++ [rule]) (SigmaEngine.mkReport (S (SigmaEngine.loaded report)) (SigmaEngine.failed report))
        | Err e => load_correlations is_corr parse files rules (SigmaEngine.mkReport (SigmaEngine.loaded report) (SigmaEngine.failed report ++ [(path, e)]))
        end
  end.

Definition load_rules (h : Machine) (dir : string) : result (list CompiledRule * LoadReport) :=
  files ← h_yaml_files h dir;
  Ok (load_files (h_is_correlation h) (h_rule h) files).

Definition load_correlation_rules (h : Machine) (dir : string) : option (result (CorrelationEngine * LoadReport)) :=
  match h_yaml_files h dir with
  | Err e => Some (Err e)
  | Ok files => er ← load_correlations (h_is_correlation h) (h_correlation h) files [] (SigmaEngine.mkReport 0 []); Some (Ok er)
  end.

Definition build_engine (h : Machine) (cfg : Config) : result (list CompiledRule) :=
  if negb (sc_enabled (cf_sigma cfg)) then Ok []
  else match sc_rules_dir (cf_sigma cfg) with
       | None => Ok []
       | Some dir => er ← load_rules h dir; Ok er.1
       end.

Definition build_correlations (h : Machine) (cfg : Config) : option (result CorrelationEngine) :=
  match sc_enabled (cf_sigma cfg), sc_rules_dir (cf_sigma cfg) with
  | true, Some dir => r ← load_correlation_rules h dir; Some (er ← r; Ok er.1)
  | _, _ => Some (Ok (CorrelationEngine_new []))
  end.
End rules.

(** The certificate and the key of the endpoint gateway, when both are set and
    both can be read. *)
Definition load_edr_tls (h : Machine) (cfg : Config) : option (string * string) :=
  match ec_tls_cert (cf_edr cfg), ec_tls_key (cf_edr cfg) with
  | Some c, Some k =>
      match h_read h c, h_read h k with
      | Ok cert, Ok key => Some (cert, key)
      | _, _ => None
      end
  | _, _ => None
  end.

(** ** Decoding a file *)

Section files.
Context {C : Type} `{ColdTier C}.
Context `{JsonText} `{JsonParse} `{RegexEngine} `{Casing}.
Context (ulid : nat -> string) (clock : nat -> Z) (h : Machine).

#[local] Existing Instances M_ret M_bind.
Definition lift_result {A} (r : result A) : M (C := C) A := fun n =>
  (n, match r with Ok a => Done a | Err e => Failed e end).
Definition lift_option {A} (o : option A) : M (C := C) A := fun n =>
  (n, match o with Some a => Done a | None => Panicked end).

(** The records of one line: normalised, then mined. *)
Fixpoint decode_records (records : list Rec) (miner : TemplateMiner) : M (C := C) (TemplateMiner * list Event) :=
  match records with
  | [] => mret (miner, [])
  | r :: rs =>
      t ← tick;
      ev ← lift_option (normalize (ulid t) (clock t) TENANT r);
      let '(miner, mined) := mine (message ev) miner in
      '(miner, evs) ← decode_records rs miner;
      mret (miner, with_template (m_template_id mined) ev :: evs)
  end.

(** The lines of the file, the empty ones apart. *)
Fixpoint decode_lines (codec : string -> list Rec) (lines : list string) (miner : TemplateMiner) :
    M (C := C) (TemplateMiner * list Event) :=
  match lines with
  | [] => mret (miner, [])
  | line :: lines =>
      if is_empty_str line then decode_lines codec lines miner
      else
        '(miner, evs) ← decode_records (codec line) miner;
        '(miner, rest) ← decode_lines codec lines miner;
        mret (miner, evs ++ rest)
  end.

Definition decode_file (path kind : string) (miner : TemplateMiner) : M (C := C) (TemplateMiner * list Event) :=
  content ← lift_result (h_read h path);
  decode_lines (build_codec kind) (split_on newline content) miner.

(** ** Replay *)

Record ReplayOutcome : Type := mkReplay { ro_events : nat; ro_alerts : list Alert }.

(** [TemplateMiner::default]. *)
Definition default_miner : TemplateMiner := new_miner (f32_div (f32_of 1) (f32_of 2)).

(** The alerts of the events, in their order; the clock is read where an event
    has no time. *)
Fixpoint eval_events (engine : list CompiledRule) (events : list Event) : M (C := C) (list Alert) :=
  match events with
  | [] => mret []
  | ev :: events =>
      t ← tick;
      rest ← eval_events engine events;
      mret (engine_eval engine (clock t) ev ++ rest)
  end.

Fixpoint add_documents (events : list Event) : M (C := C) unit :=
  match events with
  | [] => mret ()
  | ev :: events => index_add ev ;; add_documents events
  end.

(** [EventIndex::index_events]. *)
Definition index_events (events : list Event) : M (C := C) unit :=
  if is_nil events then mret () else add_documents events ;; index_commit.

Definition write_cold (events : list Event) : M (C := C) unit :=
  t1 ← tick;
  t2 ← tick;
  c ← gets n_cold;
  let '(c, r) := cold_write (clock t1) (clock t2) events c in
  update (set_cold c) ;;
  lift_result r.

Definition replay_file (engine : list CompiledRule) (path kind : string) : M (C := C) ReplayOutcome :=
  '(_, events) ← decode_file path kind default_miner;
  alerts ← eval_events engine events;
  index_events events ;;
  write_cold events ;;
  mret (mkReplay (length events) alerts).

(** ** Campaigns and incidents of a file *)

(** The technique of an event: that of its first alert with one. *)
Definition note_technique (id : string) (m : gmap string string) (a : Alert) : gmap string string :=
  match a_technique a with
  | Some t => match m !! id with Some _ => m | None => <[id := t]> m end
  | None => m
  end.

Fixpoint techniques_of (engine : list CompiledRule) (events : list Event) (m : gmap string string) : M (C := C) (gmap string string) :=
  match events with
  | [] => mret m
  | ev :: events =>
      t ← tick;
      techniques_of engine events (foldl (note_technique (ev_id ev)) m (engine_eval engine (clock t) ev))
  end.

Record Analysis : Type := mkAnalysis { an_candidates : list CampaignCandidate; an_incidents : list Incident }.

Context `{TokenHash} `{HashOrder} `{FloatFixed} `{FloatFixed32}.

Definition analyze_file (engine : list CompiledRule) (path kind : string) (campaign_cfg : CampaignConfig)
    (causal_cfg : CausalConfig) : M (C := C) Analysis :=
  '(_, events) ← decode_file path kind default_miner;
  techniques ← techniques_of engine events ∅;
  candidates ← lift_option (build_campaigns (H := HashingEmbedder 128) events campaign_cfg);
  incidents ← lift_option (build_incidents (H2 := BeamSearchSelector 4) 0 candidates events techniques causal_cfg);
  mret (mkAnalysis candidates incidents).

(** [cmd_correlate]: the configurations its flags give. *)
Definition correlate_config (window : option string) (all_domains : bool) : result (CampaignConfig * CausalConfig) :=
  let d := CampaignConfig_default in
  w ← match window with None => Ok (gc_window_micros d) | Some w => ok_or (parse_duration_micros w) Prelude.Config end;
  Ok (mkCampaignConfig w (gc_sim_threshold d) (gc_knn d) (if all_domains then false else gc_require_cross_domain d)
        (gc_semantic_links d) (gc_entity_links d),
      mkCausalConfig w (cc_beam_width CausalConfig_default)).
End files.

(** ** The hunt *)

Section hunt.
Context `{JsonText} `{JsonParse} `{RegexEngine} `{Casing} `{YamlText} `{Arrow} `{Serde (list SegmentMeta)}.
Context (h : Machine).

(** [--from] and [--to], or the span of [--last] before the end; the
    subtraction wraps. *)
Definition hunt_window (last : string) (from to : option Z) (now : Z) : result (Z * Z) :=
  let end_ := default now to in
  match from with
  | Some f => Ok (f, end_)
  | None => span ← ok_or (parse_duration_micros last) Prelude.Config; Ok (wrap_i64 (end_ - span), end_)
  end.

Definition hunt_dir (rules : option string) (cfg : Config) : result string :=
  ok_or (match rules with Some d => Some d | None => sc_rules_dir (cf_sigma cfg) end) Prelude.Config.

(** The rules first, then the window, then the store: [open_archive] is the
    object store of the configuration, [clock] the clock during the hunt;
    [None] where loading a correlation panics. *)
Definition cmd_hunt (cfg : Config) (rules : option string) (last : string) (from to : option Z) (now : Z) (clock : nat -> Z)
    (open_archive : result (option ObjectColdStore)) (s : list fault * ColumnarStore) :
    option (list fault * ColumnarStore * result (Z * Z * HuntOutcome)) :=
  match (dir ← hunt_dir rules cfg; er ← load_rules h dir; Ok (dir, er.1)) with
  | Err e => Some (s, Err e)
  | Ok (dir, engine) =>
      r ← load_correlation_rules h dir;
      Some (match (er ← r; w ← hunt_window last from to now; a ← open_archive; store ← reopen a s.2; Ok (er.1, w, store)) with
            | Err e => (s, Err e)
            | Ok (corr, (start, end_), store) =>
                match read_range start end_ (s.1, store) with
                | (s', Ok events) => (s', Ok (start, end_, (retro_hunt engine corr clock events).1))
                | (s', Err e) => (s', Err e)
                end
            end)
  end.
End hunt.

(** ** Detection does not see what the archive drops *)

Section archived.
Context `{JsonText} `{RegexEngine} `{Casing}.

Lemma resolve_field_columnar ev name : resolve_field (columnar_event ev) name = resolve_field ev name.
Proof.
  unfold resolve_field. cbn [fields columnar_event]. destruct (fields_get (fields ev) name); [done|].
  destruct (_ <$> _); [|done]. unfold resolve_alias. cbn [message actor host target columnar_event].
  by destruct (actor ev), (host ev), (target ev).
Qed.

Lemma haystack_columnar ev : event_haystack (columnar_event ev) = event_haystack ev.
Proof.
  unfold event_haystack. cbn [message fields actor host target columnar_event].
  by destruct (actor ev), (host ev), (target ev).
Qed.

Lemma cond_columnar c ev : cond_eval c (columnar_event ev) = cond_eval c ev.
Proof. unfold cond_eval. by rewrite resolve_field_columnar. Qed.

Lemma sel_columnar ev hay : forall s, sel_eval s (columnar_event ev) hay = sel_eval s ev hay.
Proof.
  fix IH 1. intros [conds|items|preds]; cbn [sel_eval]; [| |done].
  - induction conds as [|c conds IHc]; [done|]. cbn [forallb]. by rewrite cond_columnar, IHc.
  - induction items as [|i items IHi]; [done|]. cbn [existsb]. by rewrite IH, IHi.
Qed.

Lemma matches_columnar rule ev : matches rule (columnar_event ev) = matches rule ev.
Proof.
  unfold matches. rewrite haystack_columnar. cbv zeta. f_equal.
  assert ((fun sel => sel_eval sel (columnar_event ev) (event_haystack ev)) <$> selections rule =
          (fun sel => sel_eval sel ev (event_haystack ev)) <$> selections rule) as Hs; [|exact Hs].
  apply map_fmap_ext. intros n s _. apply sel_columnar.
Qed.

Lemma engine_eval_columnar rules now ev : engine_eval rules now (columnar_event ev) = engine_eval rules now ev.
Proof.
  unfold engine_eval, to_alert. cbn [ev_id ev_ts columnar_event]. f_equal.
  apply list_filter_iff. intros r. by rewrite matches_columnar.
Qed.

(** The clock only dates the alerts of events without a time. *)
Lemma engine_eval_stamped rules now ev : ev_ts ev <> 0%Z -> engine_eval rules now ev = engine_eval rules 0 ev.
Proof. intros Hts. unfold engine_eval. apply list_fmap_ext. intros i r _. unfold to_alert. by rewrite !bool_decide_true. Qed.

Lemma process_columnar e clock ev base : process e clock (columnar_event ev) base = process e clock ev base.
Proof.
  assert (forall rule, group_key rule (columnar_event ev) = group_key rule ev) as Hkey.
  { intros rule. unfold group_key. f_equal. apply list_fmap_ext. intros i f. by rewrite resolve_field_columnar. }
  assert (forall rule now, new_entry rule now (columnar_event ev) = new_entry rule now ev) as Hent.
  { intros rule now. unfold new_entry. cbn [ev_id columnar_event]. destruct (cc_field (k_condition rule)) as [f|]; [|done].
    cbn [mbind option_bind]. by rewrite resolve_field_columnar. }
  unfold process. assert (forall rules ws, process_rules rules ws clock (columnar_event ev) base = process_rules rules ws clock ev base) as Hp.
  { induction rules as [|r rules IH]; intros [|w ws]; [done..|]. cbn [process_rules]. rewrite IH. unfold process_rule.
    by rewrite Hkey, Hent. }
  by rewrite Hp.
Qed.

Lemma hunt_loop_columnar engine corr clock n events out :
  hunt_loop engine corr clock n (columnar_event <$> events) out = hunt_loop engine corr clock n events out.
Proof.
  revert corr n out. induction events as [|ev events IH]; intros corr n out; [done|]. cbn [fmap list_fmap hunt_loop].
  rewrite engine_eval_columnar, process_columnar. by destruct (process _ _ _ _).
Qed.

Lemma sort_columnar events : sort_by_ts (columnar_event <$> events) = columnar_event <$> sort_by_ts events.
Proof.
  unfold sort_by_ts. induction events as [|ev events IH]; [done|]. cbn [fmap list_fmap sort_by_key foldr]. fold (sort_by_key (A := Event)).
  change (foldr _ [] (columnar_event <$> events)) with (sort_by_key ev_ts (columnar_event <$> events)). rewrite IH.
  change (foldr _ [] events) with (sort_by_key ev_ts events). generalize (sort_by_key ev_ts events). intros l.
  induction l as [|e l IHl]; [done|]. cbn. destruct (ev_ts ev <=? ev_ts e)%Z; [done|]. cbn. by rewrite IHl.
Qed.

(** A hunt over what the archive gives back is a hunt over the events written. *)
Lemma retro_hunt_columnar engine corr clock events :
  retro_hunt engine corr clock (columnar_event <$> events) = retro_hunt engine corr clock events.
Proof. unfold retro_hunt. by rewrite sort_columnar, hunt_loop_columnar, length_fmap. Qed.
End archived.

(** The events of a library in a time range, as they were written. *)
Definition lib_window (start end_ : Z) (l : lib) : list Event := filter (in_range start end_) (concat l.*2).

Lemma lib_read_window start end_ l : lib_read start end_ l = columnar_event <$> lib_window start end_ l.
Proof.
  unfold lib_read, lib_window. induction l as [|[id es] l IH]; [done|]. cbn [fmap list_fmap concat]. cbn [snd] in *.
  rewrite IH, filter_app, fmap_app. f_equal. clear. induction es as [|e es IH]; [done|].
  cbn [fmap list_fmap]. rewrite !filter_cons, IH. change (in_range start end_ (columnar_event e)) with (in_range start end_ e).
  by destruct (decide (in_range start end_ e)), (decide (in_range start end_ (columnar_event e))).
Qed.

(** ** The runs *)

Section runs.
Context `{JsonText} `{JsonParse} `{RegexEngine} `{Casing} `{ColdTier ColumnarStore}.
Context (ulid : nat -> string) (clock : nat -> Z) (h : Machine).
#[local] Abbreviation node := (Node ColumnarStore).

(** An event made of a record. *)
Definition decoded (r : Rec) (ev : Event) : Prop :=
  exists t e tid, normalize (ulid t) (clock t) TENANT r = Some e /\ ev = with_template tid e.

Definition file_records (kind content : string) : list Rec :=
  concat (build_codec kind <$> filter (fun line => is_empty_str line = false) (split_on newline content)).

Lemma decode_records_app a b miner (n : node) :
  decode_records ulid clock (a ++ b) miner n =
  match decode_records ulid clock a miner n with
  | (n', Done (miner', x)) =>
      match decode_records ulid clock b miner' n' with
      | (n'', Done (miner'', y)) => (n'', Done (miner'', x ++ y))
      | (n'', Failed e) => (n'', Failed e)
      | (n'', Panicked) => (n'', Panicked)
      end
  | (n', Failed e) => (n', Failed e)
  | (n', Panicked) => (n', Panicked)
  end.
Proof.
  revert miner n. induction a as [|r a IH]; intros miner n; cbn [app decode_records].
  { unfold mret, M_ret. destruct (decode_records ulid clock b miner n) as [n' [[m' y]|e|]]; done. }
  unfold mbind, M_bind, tick, lift_option. cbn [fst snd].
  destruct (normalize _ _ _ r) as [ev|]; [|done]. destruct (mine (message ev) miner) as [miner' mined].
  rewrite IH. destruct (decode_records ulid clock a miner' _) as [n1 [[m1 x]|e|]]; [|done..].
  unfold mret, M_ret. by destruct (decode_records ulid clock b m1 n1) as [n2 [[m2 y]|e|]].
Qed.

(** The lines are decoded as one list of records. *)
Lemma decode_lines_records codec lines miner (n : node) :
  decode_lines ulid clock codec lines miner n =
  decode_records ulid clock (concat (codec <$> filter (fun line => is_empty_str line = false) lines)) miner n.
Proof.
  revert miner n. induction lines as [|line lines IH]; intros miner n; [done|]. cbn [decode_lines]. rewrite filter_cons.
  destruct (is_empty_str line) eqn:Hl; [by rewrite decide_False; [|done]|]. rewrite decide_True by done.
  cbn [fmap list_fmap concat]. rewrite decode_records_app. unfold mbind, M_bind, mret, M_ret.
  destruct (decode_records ulid clock (codec line) miner n) as [n1 [[m1 x]|e|]]; [|done..].
  rewrite IH. by destruct (decode_records ulid clock (concat _) m1 n1) as [n2 [[m2 y]|e|]].
Qed.

Lemma decode_run rs miner (n : node) : (forall r t, r ∈ rs -> normalize (ulid t) (clock t) TENANT r <> None) ->
  exists t miner' evs, decode_records ulid clock rs miner n = (set_time t n, Done (miner', evs)) /\ n_time n <= t /\
    Forall2 decoded rs evs /\
    template_id <$> evs = (fun m => Some (m_template_id m)) <$> (mine_all (message <$> evs) miner).2.
Proof.
  revert miner n. induction rs as [|r rs IH]; intros miner n Hn; cbn [decode_records].
  { exists (n_time n), miner, []. split; [by destruct n|]. split; [done|]. split; [constructor|done]. }
  unfold mbind, M_bind, tick, lift_option. cbn [fst snd].
  destruct (normalize (ulid (n_time n)) (clock (n_time n)) TENANT r) as [ev|] eqn:He; [|by destruct (Hn r (n_time n)); [left|]].
  destruct (mine (message ev) miner) as [miner1 mined] eqn:Hm.
  destruct (IH miner1 (set_time (S (n_time n)) n)) as (t & miner' & evs & -> & Ht & Hd & Htid); [intros r' t' Hr'; apply Hn; by right|].
  cbn [n_time set_time] in Ht. exists t, miner', (with_template (m_template_id mined) ev :: evs). split; [done|]. split; [lia|].
  split; [constructor; [by exists (n_time n), ev, (m_template_id mined)|done]|].
  cbn [fmap list_fmap mine_all message with_template template_id]. rewrite Hm. rewrite Htid.
  by destruct (mine_all (message <$> evs) miner1).
Qed.

Lemma eval_events_run engine events (n : node) : Forall (fun ev => ev_ts ev <> 0%Z) events ->
  exists t, eval_events clock engine events n = (set_time t n, Done (concat (engine_eval engine 0 <$> events))) /\ n_time n <= t.
Proof.
  intros Hts. revert n. induction Hts as [|ev events Hev _ IH]; intros n; cbn [eval_events].
  { exists (n_time n). split; [by destruct n|done]. }
  unfold mbind, M_bind, tick. cbn [fst snd]. destruct (IH (set_time (S (n_time n)) n)) as (t & -> & Ht).
  exists t. cbn [n_time set_time] in Ht. split; [|lia]. unfold mret, M_ret. cbn [fmap list_fmap concat]. by rewrite (engine_eval_stamped engine (clock (n_time n))).
Qed.

Lemma add_documents_run events (n : node) : n_index_faults n = [] ->
  add_documents events n = (set_hot (mkHot (staged (n_hot n) ++ events) (searchable (n_hot n))) n, Done ()).
Proof.
  revert n. induction events as [|ev events IH]; intros n Hn; cbn [add_documents].
  { rewrite app_nil_r. destruct n as [[??] ???????]. done. }
  unfold mbind, M_bind, index_add, index_call. rewrite Hn. rewrite IH by done. cbn [n_hot set_hot staged searchable].
  by rewrite <- app_assoc.
Qed.
End runs.

(** ** Theorems *)

Section claims.
Context `{Jl : JsonLaws} `{RegexEngine} `{Casing} `{YamlText} `{Al : ArrowLaws} `{Sl : SerdeLaws (list SegmentMeta)}.
Context (ulid : nat -> string) (clock : nat -> Z) (h : Machine).

(** The records of the file can be stored, and the clock can name and date. *)
Record replayable (rs : list Rec) (l : lib) : Prop := {
  rp_normal r : r ∈ rs -> exact (VObject (rec_fields r)) /\ ~ panics (rec_fields r) (message_of (rec_fields r));
  rp_clock t : clock t <> 0%Z /\ ulid_like (clock t) ∉ l.*1
}.

Lemma exact_smap m : exact (VObject m) -> smap_wf m.
Proof. by intros [Hm _]. Qed.

Lemma normal_record r t : exact (VObject (rec_fields r)) -> ~ panics (rec_fields r) (message_of (rec_fields r)) ->
  normalize (ulid t) (clock t) TENANT r <> None.
Proof.
  intros Hx Hp Hn. pose proof (normalize_cases (ulid t) (clock t) TENANT r (exact_smap _ Hx)) as Hc. cbn zeta in Hc.
  by rewrite Hn in Hc.
Qed.

Lemma decoded_event r ev : exact (VObject (rec_fields r)) -> decoded ulid clock r ev ->
  exact_event ev /\ raw ev = rec_raw r /\ message ev = message_of (rec_fields r) /\ fields ev = rec_fields r /\ exists t, ev_ts ev = clock t.
Proof.
  intros Hx (t & e & tid & He & ->). pose proof (normalize_cases (ulid t) (clock t) TENANT r (exact_smap _ Hx)) as Hc. cbn zeta in Hc.
  rewrite He in Hc. destruct Hc as (_ & c & hh & a & tt & _ & _ & ->). split; [exact Hx|]. cbn. split_and!; [done..|by exists t].
Qed.

(** C14: Replaying a file.  Where the file can be read and its records can be
    stored, and no call fails, a replay returns: it counts one event for each
    record of the non-empty lines, in order, with the raw text, the fields and
    the message of the record and the templates the miner gives that stream of
    messages; its alerts are those of the rules over these events, in order;
    every event added so far is searchable in the hot index, the new ones
    last; and the store holds one more batch with exactly these events, or the
    same batches when the file has no record. *)
Theorem replay_spec engine path kind content (n : Node ColumnarStore) l :
  h_read h path = Ok content -> n_index_faults n = [] -> stored (n_cold n) l ->
  replayable (file_records kind content) l ->
  let rs := file_records kind content in
  exists events n', replay_file ulid clock h engine path kind n =
      (n', Done (mkReplay (length rs) (concat (engine_eval engine 0 <$> events)))) /\
    Forall2 (fun r ev => decoded ulid clock r ev /\ raw ev = rec_raw r /\ fields ev = rec_fields r /\ message ev = message_of (rec_fields r)) rs events /\
    template_id <$> events = (fun m => Some (m_template_id m)) <$> (mine_all ((fun r => message_of (rec_fields r)) <$> rs) default_miner).2 /\
    (if is_nil rs then n_hot n' = n_hot n /\ stored (n_cold n') l
     else n_hot n' = mkHot [] (searchable (n_hot n) ++ staged (n_hot n) ++ events) /\
       exists t, stored (n_cold n') (l ++ [(ulid_like (clock t), events)])).
Proof.
  intros Hread Hnf Hst [Hnorm Hclk] rs. unfold replay_file, decode_file, mbind, M_bind, lift_result. rewrite Hread.
  rewrite decode_lines_records. fold (file_records kind content). fold rs. fold rs in Hnorm. clearbody rs.
  destruct (decode_run ulid clock rs default_miner n) as (t & miner & evs & -> & Ht & Hd & Htid).
  { intros r t Hr. destruct (Hnorm r Hr). by apply normal_record. }
  assert (Forall2 (fun r ev => exact_event ev /\ ev_ts ev <> 0%Z /\ decoded ulid clock r ev /\ raw ev = rec_raw r /\
    fields ev = rec_fields r /\ message ev = message_of (rec_fields r)) rs evs) as Hev.
  { clear -Hd Hnorm Hclk. induction Hd as [|r ev rs evs Hrev Hd IH]; constructor.
    - destruct (decoded_event r ev) as (? & ? & ? & ? & t & Hts); [by apply Hnorm; left|done|].
      split_and!; try done. rewrite Hts. apply Hclk.
    - apply IH. intros r' Hr'. apply Hnorm. by right. }
  destruct (eval_events_run clock engine evs (set_time t n)) as (t2 & -> & Ht2).
  { clear -Hev. induction Hev as [|r ev rs evs (_ & Hts & _) _ IH]; by constructor. }
  assert (message <$> evs = (fun r => message_of (rec_fields r)) <$> rs) as Hmsg.
  { clear -Hev. induction Hev as [|r ev rs evs (_ & _ & _ & _ & _ & Hm) _ IH]; [done|]. cbn. by rewrite Hm, IH. }
  pose proof (Forall2_length _ _ _ Hd) as Hlen. rewrite Hmsg in Htid.
  exists evs. unfold index_events, write_cold, mbind, M_bind, gets, update, tick, lift_result, mret, M_ret. cbn [fst snd].
  destruct rs as [|r rs]; [symmetry in Hlen; apply nil_length_inv in Hlen as ->|destruct evs as [|ev evs]; [done|]]; cbn [is_nil].
  - cbn. eexists. split; [done|]. split; [constructor|]. by split.
  - set (all := ev :: evs) in *. rewrite add_documents_run by done. unfold index_commit, index_call.
    cbn [n_index_faults set_hot set_time n_hot staged searchable n_cold n_time set_faults]. rewrite Hnf.
    cbn [n_time n_cold set_hot set_time fst snd].
    destruct (cold_write_ok (n_cold n) l (clock t2) (clock (S t2)) all) as (c & Hw & Hst'); [done|done| |apply Hclk|].
    { clear -Hev. induction Hev as [|r' ev' rs' evs' (Hx & _) _ IH]; by constructor. }
    rewrite Hw, <- Hlen. eexists. split; [done|]. split; [|split; [done|split; [done|by exists t2]]].
    eapply Forall2_impl; [exact Hev|]. cbn. tauto.
Qed.

(** C15: Hunting through the archive.  Over a store that holds some batches,
    with the rules of the directory loaded, the hunt command takes the window
    [from, to], where [to] is the present if absent and [from] defaults to a
    span before [to], and refuses a span it cannot read without touching the
    store; otherwise it leaves the store with the same batches and reports
    what the rules and the reference semantics of the correlations say of the
    original events of the window in time order, though the archive keeps
    only part of each event: every event is scanned once, the alerts of the
    rules are those of the live detection that no correlation suppresses, and
    the correlation alerts are those of the whole history of the window. *)
Theorem hunt_spec cfg rules last from to now hclock (w : ColumnarStore) l dir engine report correlations creport :
  stored w l -> hunt_dir rules cfg = Ok dir -> load_rules h dir = Ok (engine, report) ->
  load_correlation_rules h dir = Some (Ok (CorrelationEngine_new correlations, creport)) ->
  Forall span_ok correlations -> Forall (fun ev => 0 < ev_ts ev <= i64_max)%Z (concat l.*2) ->
  match hunt_window last from to now with
  | Err e => cmd_hunt h cfg rules last from to now hclock (Ok (archive w)) ([], w) = Some ([], w, Err e) /\
      from = None /\ parse_duration_micros last = None
  | Ok (start, end_) =>
      (end_ = default now to /\ (from = Some start \/
        from = None /\ exists span, parse_duration_micros last = Some span /\ start = wrap_i64 (end_ - span))) /\
      exists w' out, cmd_hunt h cfg rules last from to now hclock (Ok (archive w)) ([], w) = Some ([], w', Ok (start, end_, out)) /\
        stored w' l /\
        let window := lib_window start end_ l in
        let corr := CorrelationEngine_new correlations in
        scanned out = length window /\
        h_alerts out = filter (fun a => suppressed corr (a_rule_id a) = false) (concat (engine_eval engine 0 <$> sort_by_ts window)) /\
        h_correlation_alerts out = concat (run_spec correlations ((fun _ => ∅) <$> correlations) (hunt_inputs engine hclock 0 (sort_by_ts window)))
  end.
Proof.
  intros Hst Hdir Hrules Hcorr Hspan Hts. destruct (reopen_stored w l Hst) as (w' & Hopen & Hst').
  unfold cmd_hunt. rewrite Hdir. cbn [mbind result_bind]. rewrite Hrules. cbn [mbind result_bind fst].
  rewrite Hcorr. cbn [mbind option_bind result_bind fst snd].
  destruct (hunt_window last from to now) as [[start end_]|e] eqn:Hw.
  - split.
    { unfold hunt_window in Hw. destruct from as [f|]; [injection Hw as -> ->; by split; [|left]|].
      destruct (parse_duration_micros last) as [span|]; [|done]. injection Hw as <- <-. split; [done|]. right. eauto. }
    rewrite Hopen. cbn [mbind result_bind fst snd]. rewrite (read_range_ok w' l start end_ (proj1 Hst')), lib_read_window, retro_hunt_columnar.
    eexists w', _. split; [done|]. split; [done|]. cbv zeta.
    assert (Forall (fun ev => 0 < ev_ts ev <= i64_max)%Z (lib_window start end_ l)) as Hf.
    { apply Forall_forall. intros ev [_ Hev]%list_elem_of_filter. rewrite Forall_forall in Hts. by apply Hts. }
    rewrite (retro_hunt_spec engine correlations hclock _ Hspan Hf). cbn [scanned h_alerts h_correlation_alerts]. split; [done|]. split; [|done].
    do 2 f_equal. assert (Forall (fun ev => ev_ts ev <> 0%Z) (sort_by_ts (lib_window start end_ l))) as Hs.
    { rewrite sort_by_ts_perm. eapply Forall_impl; [exact Hf|]. cbn. lia. }
    clear -Hs. generalize 0%nat. induction Hs as [|ev evs Hev _ IH]; intros k; [done|]. cbn [hunt_inputs fmap list_fmap snd].
    by rewrite IH, engine_eval_stamped.
  - split; [done|]. unfold hunt_window in Hw. destruct from; [done|]. by destruct (parse_duration_micros last).
Qed.

(** The techniques of the rules an event matches, in order. *)
Definition rule_techniques (engine : list CompiledRule) (ev : Event) : list string :=
  omap technique (filter (fun r => matches r ev = true) engine).

Lemma note_techniques id (m : gmap string string) engine now ev :
  foldl (note_technique id) m (engine_eval engine now ev) =
  match m !! id, head (rule_techniques engine ev) with None, Some t => <[id := t]> m | _, _ => m end.
Proof.
  unfold engine_eval, rule_techniques. revert m. induction (filter _ engine) as [|r rs IH]; intros m; [by destruct (m !! id)|].
  cbn [fmap list_fmap foldl omap list_omap]. rewrite IH. unfold note_technique. cbn [a_technique to_alert].
  destruct (technique r) as [t|]; [|done]. cbn [head]. destruct (m !! id) as [t'|] eqn:Hm; [by rewrite Hm|].
  by rewrite lookup_insert_eq.
Qed.

Lemma techniques_run engine events m (n : Node ColumnarStore) :
  exists t m', techniques_of clock engine events m n = (set_time t n, Done m') /\ n_time n <= t /\
    forall id, m' !! id = match m !! id with
      | Some t => Some t
      | None => head (concat (rule_techniques engine <$> filter (fun ev => ev_id ev = id) events))
      end.
Proof.
  revert m n. induction events as [|ev events IH]; intros m n; cbn [techniques_of].
  { exists (n_time n), m. split; [by destruct n|]. split; [done|]. intros id. by destruct (m !! id). }
  unfold mbind, M_bind, tick. cbn [fst snd]. rewrite note_techniques.
  edestruct IH as (t & m' & -> & Ht & Hm'). exists t, m'. cbn [n_time set_time] in Ht. split; [done|]. split; [lia|].
  intros id. rewrite Hm', filter_cons. case_decide as Hid.
  - subst id. cbn [fmap list_fmap concat]. destruct (m !! ev_id ev) as [t'|] eqn:Hm; [by rewrite Hm|].
    destruct (rule_techniques engine ev) as [|t' ts]; cbn [head app]; [by rewrite Hm|]. by rewrite lookup_insert_eq.
  - destruct (m !! ev_id ev) as [t'|]; [done|]. destruct (head (rule_techniques engine ev)); [|done].
    by rewrite lookup_insert_ne.
Qed.

Context `{TokenHash} `{HashOrderLaws} `{FloatFixed} `{FloatFixed32}.

Lemma incidents_run events techniques cfg i cands :
  exists incs, build_incidents (H2 := BeamSearchSelector 4) i cands events techniques cfg = Some incs /\
    Forall2 (fun ic inc => in_id inc = ic.1 /\ in_events inc = ca_events ic.2 /\ incident_of techniques cfg ic.2 events inc)
      (imap (fun k c => (i + k, c)) cands) incs.
Proof.
  revert i. induction cands as [|c cands IH]; intros i; [by exists []; repeat constructor|]. cbn [build_incidents].
  pose proof (beam_laws 4). destruct (build_incident_total (H2 := BeamSearchSelector 4) i c events techniques cfg)
    as (inc & -> & Hid & Hev & Hof & _).
  destruct (IH (S i)) as (incs & -> & Hf). exists (inc :: incs). split; [done|]. rewrite imap_cons. constructor.
  - cbn. rewrite Nat.add_0_r. by split_and!.
  - erewrite imap_ext; [exact Hf|]. intros k x _. cbn. f_equal. lia.
Qed.

(** Correlating a file.  Where the file can be read and no record makes
    the normaliser panic, the analysis returns, writes nothing, and has the
    campaign candidates of the events of the file and one incident for each
    candidate, numbered and of the same events in that order.  The chain of an
    incident is a part of its events in time order, not empty when there is
    one, each within the window of the next and sharing an entity with it, and
    its steps are tagged with the technique of the first matching rule that
    has one, over the events with that id in the order of the file. *)
Theorem analyze_file_spec engine path kind content (n : Node ColumnarStore) campaign_cfg causal_cfg :
  h_read h path = Ok content ->
  Forall (fun r => exact (VObject (rec_fields r)) /\ ~ panics (rec_fields r) (message_of (rec_fields r))) (file_records kind content) ->
  exists events t techniques a, analyze_file ulid clock h engine path kind campaign_cfg causal_cfg n = (set_time t n, Done a) /\
    Forall2 (decoded ulid clock) (file_records kind content) events /\
    build_campaigns (H := HashingEmbedder 128) events campaign_cfg = Some (an_candidates a) /\
    (forall id, techniques !! id = head (concat (rule_techniques engine <$> filter (fun ev => ev_id ev = id) events))) /\
    Forall2 (fun ic inc => in_id inc = ic.1 /\ in_events inc = ca_events ic.2 /\ incident_of techniques causal_cfg ic.2 events inc)
      (imap pair (an_candidates a)) (an_incidents a).
Proof.
  intros Hread Hrs. unfold analyze_file, decode_file, mbind, M_bind, lift_result. rewrite Hread.
  rewrite decode_lines_records. fold (file_records kind content).
  destruct (decode_run ulid clock (file_records kind content) default_miner n) as (t & miner & evs & -> & _ & Hd & _).
  { intros r t Hr. rewrite Forall_forall in Hrs. destruct (Hrs r Hr). by apply normal_record. }
  destruct (techniques_run engine evs ∅ (set_time t n)) as (t2 & techniques & -> & _ & Htech).
  destruct (build_campaigns_groups (H := HashingEmbedder 128) evs campaign_cfg) as (cands & groups & Hc & _).
  destruct (incidents_run evs techniques causal_cfg 0 cands) as (incs & Hi & Hf).
  unfold lift_option. rewrite Hc, Hi. exists evs, t2, techniques, (mkAnalysis cands incs). by split_and!.
Qed.
End claims.

(** ** Witnesses *)

Section demo.
#[local] Existing Instances demo_json_text demo_json_parse demo_json_laws demo_arrow demo_arrow_laws.
#[local] Existing Instances demo_lower demo_regex.
#[local] Instance demo_yaml_text : YamlText := demo_yaml.
#[local] Existing Instances Tiering.demo_serde Tiering.demo_serde_laws.
#[local] Instance demo_token_hash : TokenHash := fun s => Z.of_nat (String.length s).
#[local] Instance demo_hash_order : HashOrder := { id_order := elements; link_order := map_to_list; group_order := map_to_list }.
#[local] Instance demo_hash_order_laws : HashOrderLaws.
Proof. by split. Qed.
#[local] Instance demo_fixed : FloatFixed := fun _ _ => "0".
#[local] Instance demo_fixed32 : FloatFixed32 := fun _ _ => "0".

Definition demo_ulid (t : nat) : string := "id".
Definition demo_clock (t : nat) : Z := 5.
Definition demo_content : string := "hello" +:+ String newline (String newline "bye").
Definition demo_correlation : CorrelationRule := {|
  cr_title := "Twice"; cr_id := Some "twice"; cr_level := None; cr_tags := [];
  cr_correlation := {| cs_kind := EventCount; cs_rules := ["rule-ssh-failed"]; cs_group_by := []; cs_timespan := "10m";
    cs_condition := Some (mkCount None None (Some 2) None None None)%Z; cs_generate := false |} |}.
Definition demo_machine : Machine := {|
  h_read _ := Ok demo_content; h_yaml_files _ := Ok [("a.yml", "rule"); ("b.yml", "correlation")];
  h_is_correlation text := bool_decide (text = "correlation"); h_rule _ := Ok ssh_rule; h_correlation _ := Ok demo_correlation |}.
Definition demo_node : Node ColumnarStore :=
  fresh_node empty_store [] (CorrelationEngine_new []) default_miner [].

Lemma demo_replayable : replayable demo_clock (file_records "raw" demo_content) [].
Proof.
  split; [|intros t; split; [done|by intros ?%not_elem_of_nil]].
  change (file_records "raw" demo_content) with [mkRec (str_field "message" "hello" []) "hello"; mkRec (str_field "message" "bye" []) "bye"].
  intros r Hr. assert (all_bytes is_ascii (message_of (rec_fields r)) = true) as Ha.
  { rewrite !elem_of_cons in Hr. destruct Hr as [->|[->|[]%not_elem_of_nil]]; reflexivity. }
  split; [|intros (_ & _ & Hoff); by apply (ascii_safe (message_of (rec_fields r)))].
  rewrite !elem_of_cons in Hr. destruct Hr as [->|[->|[]%not_elem_of_nil]]; cbn; repeat constructor.
Qed.

Lemma replay_spec_witness : exists events n', replay_file demo_ulid demo_clock demo_machine [] "in.log" "raw" demo_node = (n', Done (mkReplay 2 [])) /\
  raw <$> events = ["hello"; "bye"]%string /\ searchable (n_hot n') = events.
Proof.
  destruct (replay_spec demo_ulid demo_clock demo_machine [] "in.log" "raw" demo_content demo_node [] eq_refl eq_refl empty_stored demo_replayable)
    as (events & n' & Hr & Hf & _ & Hh & _).
  exists events, n'. split; [|split].
  - rewrite Hr. assert (concat (engine_eval [] 0 <$> events) = []) as ->; [|reflexivity]. clear. by induction events.
  - clear -Hf. inversion Hf as [|? ? ? ? (_ & Hr1 & _) Hf1]; subst. inversion Hf1 as [|? ? ? ? (_ & Hr2 & _) Hf2]; subst. inversion Hf2; subst.
    cbn. by rewrite Hr1, Hr2.
  - by rewrite Hh.
Defined.

Lemma analyze_file_spec_witness : exists t a, analyze_file demo_ulid demo_clock demo_machine [] "in.log" "raw" CampaignConfig_default CausalConfig_default demo_node =
  (set_time t demo_node, Done a).
Proof.
  destruct (analyze_file_spec demo_ulid demo_clock demo_machine [] "in.log" "raw" demo_content demo_node CampaignConfig_default CausalConfig_default eq_refl)
    as (events & t & techniques & a & Ha & _); [|by exists t, a].
  apply Forall_forall. exact (rp_normal _ _ _ demo_replayable).
Defined.

(** Two failed logins in the archive, hunted with the rule and a correlation
    that asks for two. *)
Definition demo_logins : list Event := [failed_login "e2" "root" 200; failed_login "e1" "root" 100]%Z.
Definition demo_archive : ColumnarStore := (write_segment 5 6 demo_logins ([], empty_store)).1.2.

Lemma demo_archived : stored demo_archive [(ulid_like 5, demo_logins)].
Proof.
  destruct (write_clean empty_store [] 5 6 demo_logins empty_stored) as (w & m & He & _ & _ & Hst); [done| | |].
  - repeat constructor.
  - by intros ?%not_elem_of_nil.
  - unfold demo_archive. by rewrite He.
Qed.

Lemma hunt_spec_witness : exists w' out corr rep,
  load_correlation_rules demo_machine "rules" = Some (Ok (CorrelationEngine_new [corr], rep)) /\
  cmd_hunt demo_machine (empty_config 1) (Some "rules") "24h" (Some 0%Z) None 1000 (fun _ => 1000%Z) (Ok (archive demo_archive)) ([], demo_archive) =
  Some ([], w', Ok (0%Z, 1000%Z, out)) /\ scanned out = 2 /\ k_timespan corr = 600000000%Z.
Proof.
  destruct (load_correlation_rules demo_machine "rules") as [[[[rules ws sup] rep]|e]|] eqn:Hc; [|exfalso; vm_compute in Hc; discriminate..].
  assert (exists corr, rules = [corr] /\ CorrelationEngine_new [corr] = mkEngine rules ws sup /\ span_ok corr /\ k_timespan corr = 600000000%Z) as (corr & -> & He & Hs & Hk).
  { vm_compute in Hc. injection Hc as <- <- <- _. eexists. split; [reflexivity|]. split; [vm_compute; reflexivity|]. split; [split; vm_compute; congruence|vm_compute; reflexivity]. }
  destruct (load_rules demo_machine "rules") as [[engine report]|e] eqn:Hl; [|vm_compute in Hl; discriminate].
  rewrite <- He in Hc.
  destruct (hunt_spec demo_machine (empty_config 1) (Some "rules") "24h" (Some 0%Z) None 1000 (fun _ => 1000%Z) demo_archive
    [(ulid_like 5, demo_logins)] "rules" engine report [corr] rep demo_archived eq_refl Hl Hc) as (_ & w' & out & Hr & _ & Hn & _).
  - by apply Forall_singleton.
  - repeat (apply Forall_cons; split; [split; vm_compute; congruence|]). constructor.
  - exists w', out, corr, rep. split; [by rewrite <- He|]. split; [exact Hr|]. split; [rewrite Hn; reflexivity|exact Hk].
Defined.
End demo.
