(* ===== verification/Outputs.v ===== *)
(** * [sigil-cli/src/output.rs], [output/*.rs]: alert outputs

    Every alert goes to the file and to each configured service; what a
    service answers is only logged.  A sink is what its struct holds; the
    requests sent and the text of the file are the world.  Writing the file
    may fail, leaving a part of the line. *)

From stdpp Require Import gmap strings list.
From S2P Require Import Prelude Utf8 Core Text Columnar Serde Store Config.

Local Open Scope string_scope.

(** ** Payloads *)

Definition alert_title (a : Alert) : string := if is_empty_str (a_title a) then a_rule_id a else a_title a.

Definition severity_label (s : Severity) : string :=
  match s with
  | Unknown => "unknown"
  | Informational => "informational"
  | Low => "low"
  | Medium => "medium"
  | High => "high"
  | Critical => "critical"
  | Fatal => "fatal"
  end.

(** An optional text after a prefix. *)
Definition prefixed (prefix : string) (o : option string) : string := match o with Some t => prefix +:+ t | None => "" end.

Definition slack_body (a : Alert) : value :=
  VObject [("text", VString (":rotating_light: *" +:+ alert_title a +:+ "* [" +:+ severity_label (a_severity a) +:+ "] — rule `"
                       +:+ a_rule_id a +:+ "`" +:+ prefixed " · ATT&CK " (a_technique a)))].

Definition pd_severity (s : Severity) : string :=
  match s with
  | Critical | Fatal => "critical"
  | High => "error"
  | Medium => "warning"
  | _ => "info"
  end.

Definition pagerduty_body (routing_key : string) (a : Alert) : value :=
  VObject [("dedup_key", VString (a_rule_id a)); ("event_action", VString "trigger");
           ("payload", VObject
              [("custom_details", VObject
                  [("events", VArray (VString <$> a_events a)); ("rule_id", VString (a_rule_id a));
                   ("technique", match a_technique a with Some t => VString t | None => VNull end)]);
               ("severity", VString (pd_severity (a_severity a))); ("source", VString "sigil"); ("summary", VString (alert_title a))]);
           ("routing_key", VString routing_key)].

Definition jira_body (project issue_type : string) (a : Alert) : value :=
  let description := "Sigil alert from rule `" +:+ a_rule_id a +:+ "` (severity " +:+ severity_label (a_severity a) +:+ ")"
                       +:+ prefixed ", ATT&CK " (a_technique a) +:+ "." +:+ String "010" "Events: " +:+ join ", " (a_events a) in
  VObject [("fields", VObject
     [("description", VString description); ("issuetype", VObject [("name", VString issue_type)]);
      ("project", VObject [("key", VString project)]); ("summary", VString ("[Sigil] " +:+ alert_title a))])].

Definition in_quotes (s : string) : string := String "034" (s +:+ String "034" "").

Definition misp_body (a : Alert) : value :=
  let name t := VObject [("name", VString t)] in
  let tags := name ("sigil:rule=" +:+ in_quotes (a_rule_id a)) ::
                match a_technique a with Some t => [name ("misp-galaxy:mitre-attack-pattern=" +:+ in_quotes t)] | None => [] end in
  let attribute e := VObject [("category", VString "Other"); ("type", VString "comment"); ("value", VString e)] in
  VObject [("Event", VObject [("Attribute", VArray (attribute <$> a_events a)); ("Tag", VArray tags);
                              ("info", VString ("[Sigil] " +:+ alert_title a))])].

(** ** Sinks *)

Inductive credential : Set := NoCredential | Basic (user token : string) | Header (key : string).
Inductive payload : Set := TheAlert (a : Alert) | Json (v : value).
Record Request : Set := mkRequest { rq_sink : string; rq_url : string; rq_credential : credential; rq_body : payload }.

(** The sinks; Jira keeps the rules it has seen. *)
Inductive OutputSink : Type :=
  | WebhookSink (url : string)
  | SlackSink (url : string)
  | PagerDutySink (routing_key url : string)
  | JiraSink (cfg : JiraOutput) (issue_type : string) (seen : gset string)
  | MispSink (cfg : MispOutput).

Definition PagerDuty_new (cfg : PagerDutyOutput) : OutputSink :=
  PagerDutySink (pd_routing_key cfg) (default "https://events.pagerduty.com/v2/enqueue" (pd_url cfg)).
Definition Jira_new (cfg : JiraOutput) : OutputSink := JiraSink cfg (default "Task" (ji_issue_type cfg)) ∅.

Definition sink_name (s : OutputSink) : string :=
  match s with
  | WebhookSink _ => "webhook" | SlackSink _ => "slack" | PagerDutySink _ _ => "pagerduty" | JiraSink _ _ _ => "jira" | MispSink _ => "misp"
  end.

(** [first_for_rule]: whether the rule is new, and the set with it. *)
Definition first_for_rule (rule_id : string) (seen : gset string) : bool * gset string :=
  (negb (bool_decide (rule_id ∈ seen)), {[rule_id]} ∪ seen).

(** [OutputSink::emit]: the request it makes, if any. *)
Definition sink_emit (s : OutputSink) (a : Alert) : OutputSink * option Request :=
  let send url credential body := Some (mkRequest (sink_name s) url credential body) in
  match s with
  | WebhookSink url => (s, send url NoCredential (TheAlert a))
  | SlackSink url => (s, send url NoCredential (Json (slack_body a)))
  | PagerDutySink key url => (s, send url NoCredential (Json (pagerduty_body key a)))
  | JiraSink cfg issue_type seen =>
      let '(new, seen) := first_for_rule (a_rule_id a) seen in
      (JiraSink cfg issue_type seen,
       if new then send (trim_end_matches "/" (ji_url cfg) +:+ "/rest/api/2/issue") (Basic (ji_user cfg) (ji_token cfg))
                     (Json (jira_body (ji_project cfg) issue_type a))
       else None)
  | MispSink cfg => (s, send (trim_end_matches "/" (mi_url cfg) +:+ "/events/add") (Header (mi_api_key cfg)) (Json (misp_body a)))
  end.

(** ** Outputs *)

Record Outputs : Type := mkSinks { o_file : option string; o_sinks : list OutputSink }.

Definition Outputs_new (cfg : AlertOutputs) : Outputs :=
  mkSinks (ao_file cfg)
    (option_list (WebhookSink <$> ao_webhook cfg) ++ option_list (SlackSink <$> ao_slack cfg) ++
     option_list (PagerDuty_new <$> ao_pagerduty cfg) ++ option_list (Jira_new <$> ao_jira cfg) ++
     option_list (MispSink <$> ao_misp cfg)).

Definition outputs_is_empty (o : Outputs) : bool := bool_decide (o_file o = None) && is_nil (o_sinks o).

(** What comes back for a request, and whether [log_result] warns. *)
Inductive reply : Set := Status (code : Z) | NoReply.
Definition log_result (r : reply) : bool :=
  match r with Status code => negb ((200 <=? code) && (code <? 300))%Z | NoReply => true end.

(** The world: the text of the file, the requests sent, the warnings logged;
    the next file writes ([Some k]: fails after [k] bytes, an exhausted list
    is a run without failure), and the reply to each request in turn. *)
Record World : Type := mkWorld {
  w_text : string; w_sent : list Request; w_warnings : list string; w_writes : list (option nat); w_replies : nat -> reply
}.

Section emit.
Context `{Serde Alert}.

Definition alert_line (a : Alert) : string := ser a +:+ String "010" "".

Definition append_jsonl (a : Alert) (w : World) : World * result unit :=
  let rest := tail (w_writes w) in
  match mjoin (head (w_writes w)) with
  | None => (mkWorld (w_text w +:+ alert_line a) (w_sent w) (w_warnings w) rest (w_replies w), Ok ())
  | Some k => (mkWorld (w_text w +:+ String.substring 0 k (alert_line a)) (w_sent w) (w_warnings w) rest (w_replies w), Err Io)
  end.

Definition log_warning (sink : string) (w : World) : World :=
  mkWorld (w_text w) (w_sent w) (w_warnings w ++ [sink]) (w_writes w) (w_replies w).

(** A request, its reply logged. *)
Definition post (r : Request) (w : World) : World :=
  let bad := log_result (w_replies w (length (w_sent w))) in
  let w := mkWorld (w_text w) (w_sent w ++ [r]) (w_warnings w) (w_writes w) (w_replies w) in
  if bad then log_warning (rq_sink r) w else w.

Fixpoint emit_sinks (sinks : list OutputSink) (a : Alert) (w : World) : list OutputSink * World :=
  match sinks with
  | [] => ([], w)
  | s :: sinks =>
      let '(s, r) := sink_emit s a in
      let w := match r with Some r => post r w | None => w end in
      let '(sinks, w) := emit_sinks sinks a w in
      (s :: sinks, w)
  end.

Definition emit (o : Outputs) (a : Alert) (w : World) : Outputs * World :=
  let w := match o_file o with
           | None => w
           | Some _ => match append_jsonl a w with (w, Ok _) => w | (w, Err _) => log_warning "file" w end
           end in
  let '(sinks, w) := emit_sinks (o_sinks o) a w in
  (mkSinks (o_file o) sinks, w).

Fixpoint emit_all (o : Outputs) (alerts : list Alert) (w : World) : Outputs * World :=
  match alerts with
  | [] => (o, w)
  | a :: alerts => let '(o, w) := emit o a w in emit_all o alerts w
  end.
End emit.

(** ** What the sinks owe an alert *)

(** The requests for one alert, in the order of the configuration; no ticket
    for a rule that has one. *)
Definition webhook_request (a : Alert) (url : string) : Request := mkRequest "webhook" url NoCredential (TheAlert a).
Definition slack_request (a : Alert) (url : string) : Request := mkRequest "slack" url NoCredential (Json (slack_body a)).
Definition pagerduty_request (a : Alert) (c : PagerDutyOutput) : Request :=
  mkRequest "pagerduty" (default "https://events.pagerduty.com/v2/enqueue" (pd_url c)) NoCredential (Json (pagerduty_body (pd_routing_key c) a)).
Definition jira_request (a : Alert) (c : JiraOutput) : Request :=
  mkRequest "jira" (trim_end_matches "/" (ji_url c) +:+ "/rest/api/2/issue") (Basic (ji_user c) (ji_token c))
    (Json (jira_body (ji_project c) (default "Task" (ji_issue_type c)) a)).
Definition misp_request (a : Alert) (c : MispOutput) : Request :=
  mkRequest "misp" (trim_end_matches "/" (mi_url c) +:+ "/events/add") (Header (mi_api_key c)) (Json (misp_body a)).

Definition requests_for (cfg : AlertOutputs) (ticketed : bool) (a : Alert) : list Request :=
  option_list (webhook_request a <$> ao_webhook cfg) ++ option_list (slack_request a <$> ao_slack cfg) ++
  option_list (pagerduty_request a <$> ao_pagerduty cfg) ++
  (if ticketed then [] else option_list (jira_request a <$> ao_jira cfg)) ++ option_list (misp_request a <$> ao_misp cfg).

(** Those of a run, after the rules [earlier]. *)
Fixpoint requests_of (cfg : AlertOutputs) (earlier : list string) (alerts : list Alert) : list Request :=
  match alerts with
  | [] => []
  | a :: alerts => requests_for cfg (bool_decide (a_rule_id a ∈ earlier)) a ++ requests_of cfg (a_rule_id a :: earlier) alerts
  end.

(** The first alert of each rule not in [earlier]. *)
Fixpoint tickets (earlier : list string) (alerts : list Alert) : list Alert :=
  match alerts with
  | [] => []
  | a :: alerts => (if bool_decide (a_rule_id a ∈ earlier) then [] else [a]) ++ tickets (a_rule_id a :: earlier) alerts
  end.

Lemma tickets_spec earlier alerts :
  tickets earlier alerts `sublist_of` alerts /\ NoDup (a_rule_id <$> tickets earlier alerts) /\
  forall id, id ∈ a_rule_id <$> tickets earlier alerts <-> id ∈ a_rule_id <$> alerts /\ id ∉ earlier.
Proof.
  revert earlier. induction alerts as [|a alerts IH]; intros earlier; cbn [tickets fmap list_fmap].
  { split_and!; [done|constructor|]. intros id. set_solver. }
  destruct (IH (a_rule_id a :: earlier)) as (Hs & Hn & Hi). case_bool_decide as Ha; cbn [app].
  - split_and!; [by apply sublist_cons|done|]. intros id. rewrite Hi. set_solver.
  - split_and!; [by apply sublist_skip| |].
    + cbn [fmap list_fmap]. apply NoDup_cons. split; [|done]. rewrite Hi. set_solver.
    + intros id. cbn [fmap list_fmap]. rewrite !elem_of_cons, Hi. destruct (decide (id = a_rule_id a)) as [->|]; set_solver.
Qed.

Lemma option_list_sink {A} (f : A -> Request) (o : option A) name b : (forall x, rq_sink (f x) = name) -> bool_decide (name = "jira") = b ->
  filter (fun r => rq_sink r = "jira") (option_list (f <$> o)) = if b then option_list (f <$> o) else [].
Proof.
  intros Hn Hb. destruct o as [x|]; [|by destruct b]. change (option_list (f <$> Some x)) with [f x]. rewrite filter_cons, Hn.
  rewrite <- Hb. destruct (decide (name = "jira")); [rewrite bool_decide_true|rewrite bool_decide_false]; done.
Qed.

Lemma requests_tickets cfg earlier alerts :
  filter (fun r => rq_sink r = "jira") (requests_of cfg earlier alerts) =
  concat ((fun a => option_list (jira_request a <$> ao_jira cfg)) <$> tickets earlier alerts).
Proof.
  revert earlier. induction alerts as [|a alerts IH]; intros earlier; [done|]. cbn [requests_of tickets].
  rewrite filter_app, fmap_app, concat_app, IH. f_equal. unfold requests_for. rewrite !filter_app.
  rewrite (option_list_sink _ _ "webhook" false), (option_list_sink _ _ "slack" false), (option_list_sink _ _ "pagerduty" false),
    (option_list_sink _ _ "misp" false) by done. cbn [app]. rewrite app_nil_r.
  case_bool_decide; [done|]. rewrite (option_list_sink _ _ "jira" true) by done. cbn. by rewrite app_nil_r.
Qed.

(** ** A run of the outputs *)

Section runs.
Context `{Serde Alert} (cfg : AlertOutputs).

Definition sinks_at (seen : gset string) : list OutputSink :=
  option_list (WebhookSink <$> ao_webhook cfg) ++ option_list (SlackSink <$> ao_slack cfg) ++
  option_list (PagerDuty_new <$> ao_pagerduty cfg) ++
  option_list ((fun j => JiraSink j (default "Task" (ji_issue_type j)) seen) <$> ao_jira cfg) ++
  option_list (MispSink <$> ao_misp cfg).

Definition post_all (rs : list Request) (w : World) : World := foldl (fun w r => post r w) w rs.

Lemma emit_sinks_app l l' a w :
  emit_sinks (l ++ l') a w =
  let '(x, w) := emit_sinks l a w in let '(y, w) := emit_sinks l' a w in ((x ++ y)%list, w).
Proof.
  revert w. induction l as [|s l IH]; intros w; cbn [app emit_sinks]; [by destruct (emit_sinks l' a w)|].
  destruct (sink_emit s a) as [s' r]. rewrite IH. destruct (emit_sinks l a _) as [x w1]. by destruct (emit_sinks l' a w1).
Qed.

Lemma emit_sinks_at seen a w :
  emit_sinks (sinks_at seen) a w =
  (sinks_at ({[a_rule_id a]} ∪ seen), post_all (requests_for cfg (bool_decide (a_rule_id a ∈ seen)) a) w).
Proof.
  unfold sinks_at, requests_for, post_all. rewrite !foldl_app, !emit_sinks_app.
  destruct (ao_webhook cfg), (ao_slack cfg), (ao_pagerduty cfg), (ao_jira cfg), (ao_misp cfg); cbn;
    by case_bool_decide.
Qed.

Lemma post_frame r w : w_text (post r w) = w_text w /\ w_sent (post r w) = (w_sent w ++ [r])%list /\ w_writes (post r w) = w_writes w.
Proof. unfold post. by destruct (log_result _). Qed.

Lemma post_all_frame rs w :
  w_text (post_all rs w) = w_text w /\ w_sent (post_all rs w) = (w_sent w ++ rs)%list /\ w_writes (post_all rs w) = w_writes w.
Proof.
  revert w. induction rs as [|r rs IH]; intros w; cbn [post_all foldl]; [by rewrite app_nil_r|].
  destruct (IH (post r w)) as (Ht & Hs & Hw). unfold post_all in *. destruct (post_frame r w) as (Ht' & Hs' & Hw').
  by rewrite Ht, Hs, Hw, Ht', Hs', Hw', <- app_assoc.
Qed.

(** What one write leaves of a line. *)
Definition left_of (fault : option nat) (a : Alert) : string :=
  match fault with None => alert_line a | Some k => String.substring 0 k (alert_line a) end.

(** The pieces left by the writes of a run. *)
Fixpoint pieces (writes : list (option nat)) (alerts : list Alert) : string :=
  match alerts with
  | [] => ""
  | a :: alerts => left_of (mjoin (head writes)) a +:+ pieces (tail writes) alerts
  end.

Lemma emit_run file seen a w : exists w',
  emit (mkSinks file (sinks_at seen)) a w = (mkSinks file (sinks_at ({[a_rule_id a]} ∪ seen)), w') /\
  w_sent w' = (w_sent w ++ requests_for cfg (bool_decide (a_rule_id a ∈ seen)) a)%list /\
  match file with
  | None => w_text w' = w_text w /\ w_writes w' = w_writes w
  | Some _ => w_text w' = w_text w +:+ left_of (mjoin (head (w_writes w))) a /\ w_writes w' = tail (w_writes w)
  end.
Proof.
  unfold emit. cbn [o_file o_sinks]. destruct file as [f|].
  - unfold append_jsonl. set (m := mjoin (head (w_writes w))). unfold left_of. destruct m as [k|]; rewrite emit_sinks_at; eexists; (split; [done|]);
      (edestruct post_all_frame as (-> & -> & ->)); done.
  - rewrite emit_sinks_at. eexists. split; [done|]. by edestruct post_all_frame as (-> & -> & ->).
Qed.

Lemma emit_all_run file earlier (seen : gset string) alerts w : (forall id, id ∈ seen <-> id ∈ earlier) ->
  exists o w', emit_all (mkSinks file (sinks_at seen)) alerts w = (o, w') /\
    w_sent w' = (w_sent w ++ requests_of cfg earlier alerts)%list /\
    w_text w' = w_text w +:+ (if file is Some _ then pieces (w_writes w) alerts else "").
Proof.
  revert earlier seen w. induction alerts as [|a alerts IH]; intros earlier seen w Hseen; cbn [emit_all].
  { eexists _, w. split; [done|]. cbn. rewrite app_nil_r. destruct file; by rewrite string_app_nil_r. }
  destruct (emit_run file seen a w) as (w1 & -> & Hs & Hf).
  destruct (IH (a_rule_id a :: earlier) ({[a_rule_id a]} ∪ seen) w1) as (o & w' & -> & Hs' & Ht').
  { intros id. rewrite elem_of_cons, <- Hseen. set_solver. }
  exists o, w'. split; [done|]. cbn [requests_of pieces]. split.
  - rewrite Hs', Hs, <- app_assoc. do 2 f_equal. f_equal. apply bool_decide_ext, Hseen.
  - rewrite Ht'. destruct file; destruct Hf as [-> Hw]; [|done]. by rewrite Hw, string_app_assoc.
Qed.

Lemma Outputs_new_at : Outputs_new cfg = mkSinks (ao_file cfg) (sinks_at ∅).
Proof. done. Qed.
End runs.

(** ** Theorems *)

(** The JSON text of an alert: one line, not empty, that reads back. *)
Class AlertText `{Serde Alert} : Prop := {
  alert_reads a : de (ser a) = Some a;
  alert_one_line a : free_of "010" (ser a) = true;
  alert_not_empty a : is_empty_str (ser a) = false
}.

Lemma pieces_read `{AlertText} alerts writes : Forall (fun f => f = None) (take (length alerts) writes) ->
  omap de (filter (fun l => is_empty_str l = false) (split_on "010" (pieces writes alerts))) = alerts.
Proof.
  revert writes. induction alerts as [|a alerts IH]; intros writes Hw; [done|]. cbn [pieces].
  assert (mjoin (head writes) = None /\ Forall (fun f => f = None) (take (length alerts) (tail writes))) as [Hh Ht].
  { destruct writes as [|f writes]; [split; [done|]; by destruct (length alerts)|]. cbn in Hw. by apply Forall_cons in Hw as [-> Hw]. }
  rewrite Hh. unfold left_of, alert_line. rewrite <- string_app_assoc. change (String "010" "" +:+ ?t) with (String "010" t).
  rewrite split_on_app by apply alert_one_line. rewrite filter_cons, decide_True by apply alert_not_empty.
  cbn [omap list_omap]. rewrite alert_reads. f_equal. by apply IH.
Qed.

(** C16: Alert outputs.  Whatever the services answer, a run of alerts
    through new outputs sends each configured service its request for every
    alert, alert by alert and in the fixed order of the sinks, except that
    Jira is sent one ticket for each rule, that of its first alert; no failure
    of one sink keeps an alert from another.  The file, if any, gains one
    piece for each alert in order, the whole line where the write succeeds,
    and where all do the lines read back as the alerts. *)
Theorem outputs_deliver `{AlertText} cfg alerts w : exists o w',
  emit_all (Outputs_new cfg) alerts w = (o, w') /\
  w_sent w' = (w_sent w ++ requests_of cfg [] alerts)%list /\
  (exists first, first `sublist_of` alerts /\ NoDup (a_rule_id <$> first) /\
     (forall id, id ∈ a_rule_id <$> first <-> id ∈ a_rule_id <$> alerts) /\
     filter (fun r => rq_sink r = "jira") (requests_of cfg [] alerts) =
       concat ((fun a => option_list (jira_request a <$> ao_jira cfg)) <$> first)) /\
  (ao_file cfg = None -> w_text w' = w_text w) /\
  (is_Some (ao_file cfg) -> w_text w' = w_text w +:+ pieces (w_writes w) alerts /\
     (Forall (fun f => f = None) (take (length alerts) (w_writes w)) ->
        omap de (filter (fun l => is_empty_str l = false) (split_on "010" (pieces (w_writes w) alerts))) = alerts)).
Proof.
  destruct (emit_all_run cfg (ao_file cfg) [] ∅ alerts w) as (o & w' & He & Hs & Ht); [set_solver|].
  exists o, w'. split; [exact He|]. split; [exact Hs|]. split; [|split].
  - destruct (tickets_spec [] alerts) as (Hsub & Hnd & Hin). exists (tickets [] alerts). split; [done|]. split; [done|].
    split; [intros id; rewrite Hin; set_solver|]. apply requests_tickets.
  - intros Hf. by rewrite Ht, Hf, string_app_nil_r.
  - intros [f Hf]. rewrite Ht, Hf. split; [done|]. apply pieces_read.
Qed.

(** A ticket that Jira did not take is not asked for again: the rule is marked
    before the request, whose outcome is only logged. *)
Lemma jira_not_retried `{AlertText} j a w : (forall n, w_replies w n = NoReply) ->
  exists o w', emit_all (mkSinks None [Jira_new j]) [a; a] w = (o, w') /\
    w_sent w' = (w_sent w ++ [jira_request a j])%list /\ w_warnings w' = (w_warnings w ++ ["jira"])%list.
Proof.
  intros Hr. unfold emit_all, emit, emit_sinks, Jira_new, sink_emit, first_for_rule. cbn [o_file o_sinks].
  rewrite (bool_decide_false (a_rule_id a ∈ (∅ : gset string))) by set_solver.
  rewrite (bool_decide_true (a_rule_id a ∈ ({[a_rule_id a]} ∪ ∅ : gset string))) by set_solver. cbn [negb].
  unfold post, log_result. rewrite Hr. eexists _, _. split; [done|]. by split.
Qed.

Section demo.
#[local] Instance demo_alert_serde : Serde Alert :=
  {| ser a := String "A" (bits (encode a)); de s := match s with String _ r => decode (unbits r) | EmptyString => None end |}.

Lemma bits_line p : free_of "010" (bits p) = true.
Proof. induction p as [p IH|p IH|]; [exact IH..|done]. Qed.

#[local] Instance demo_alert_text : AlertText.
Proof.
  split; intros a; [|exact (bits_line (encode a))|done]. cbn. by rewrite unbits_bits, decode_encode.
Qed.

Definition demo_outputs : AlertOutputs :=
  Config.mkOutputs (Some "alerts.jsonl") None (Some "http://chat") None (Some (mkJira "http://j/" "SEC" "bot" "t" None)) None.
Definition demo_alert (rule : string) : Alert := mkAlert rule "Title" High None ["e"] 1.
Definition demo_world : World := mkWorld "" [] [] [None; Some 3] (fun _ => NoReply).

Lemma outputs_deliver_witness : exists o w',
  emit_all (Outputs_new demo_outputs) [demo_alert "r"; demo_alert "r"] demo_world = (o, w') /\
  rq_sink <$> w_sent w' = ["slack"; "jira"; "slack"].
Proof.
  destruct (outputs_deliver demo_outputs [demo_alert "r"; demo_alert "r"] demo_world) as (o & w' & He & Hs & _).
  exists o, w'. split; [exact He|]. rewrite Hs. reflexivity.
Defined.
End demo.
