(* ===== verification/Cli.v ===== *)
(** * [sigil-cli/src/main.rs]: the commands

    What each command does with its arguments, its exit code, and the
    requests the fleet commands send; printing is what the command returns.
    The analytical engine, the HTTP client and the opening of files are
    parameters. *)

From stdpp Require Import gmap strings list.
From S2P Require Import Auth ConfigExt Api Routes.
From S2P Require Import Prelude Utf8 Containers Core Yaml SigmaMatcher SigmaEngine SigmaCorrelation Cluster.
From S2P Require Import Serde Store Edr Text Columnar Tiering Dsl Config Plan Codec Float Metrics Harness Template Normalize ColdTier.
From S2P Require Import Graph Campaign Vectors Embed Causal Campaigns Incident Pipeline Replay Outputs.

Import Cluster.Shard Cluster.Roles.
Local Open Scope string_scope.

Inductive ExitCode : Set := SUCCESS | FAILURE.

(** ** [query] *)

Definition DSL_VERBS : list string := ["search"; "where"; "stats"; "fields"; "sort"; "head"].

Definition looks_like_dsl (q : string) : bool :=
  if contains "|" q then true
  else bool_decide (to_ascii_lowercase (default "" (head (split_whitespace q))) ∈ DSL_VERBS).

(** The statement, and whether it was lowered. *)
Definition query_sql (query : string) (lang : option string) : result (bool * string) :=
  is_dsl ← match lang with
           | Some l => if bool_decide (l = "dsl") then Ok true else if bool_decide (l = "sql") then Ok false else Err Prelude.Config
           | None => Ok (looks_like_dsl query)
           end;
  sql ← (if is_dsl : bool then lower query else Ok query);
  Ok (is_dsl, sql).

(** [table]: [Analytics::sql], the printed table. *)
Definition cmd_query (table : string -> result string) (query : string) (lang : option string) : result (list string * ExitCode) :=
  '(is_dsl, sql) ← query_sql query lang;
  t ← table sql;
  Ok (((if is_dsl : bool then ["-- lowered to SQL: " +:+ sql] else []) ++ [t])%list, SUCCESS).

(** ** [config] *)

Inductive ConfigAction : Set := ValidateAction | PlanAction | ApplyAction | DiffAction | SchemaAction.

Section config.
Context `{YamlText, ConfigSerde} (is_dir : string -> bool).

(** The text of the configuration file, when it can be read. *)
Definition config_load (file : option string) : result Config :=
  text ← ok_or file Prelude.Config; parse text.
Definition load_and_validate (file : option string) : result (Config * ValidationReport) :=
  c ← config_load file; Ok (c, validate is_dir c).

(** The snapshot is the state. *)
Definition cmd_config (io : Disk) (action : ConfigAction) (file snapshot : option string) : option string * result ExitCode :=
  match action with
  | ValidateAction => (snapshot, cr ← load_and_validate file; Ok (if report_ok cr.2 then SUCCESS else FAILURE))
  | PlanAction =>
      (snapshot, cr ← load_and_validate file;
                 if negb (report_ok cr.2) then Ok FAILURE else _ ← plan io snapshot cr.1; Ok SUCCESS)
  | ApplyAction =>
      match load_and_validate file with
      | Err e => (snapshot, Err e)
      | Ok (c, report) =>
          if negb (report_ok report) then (snapshot, Ok FAILURE)
          else let '(snapshot, r) := apply io snapshot c in (snapshot, _ ← r; Ok SUCCESS)
      end
  | DiffAction =>
      (snapshot, c ← config_load file; d ← drift io snapshot c; Ok (if diff_is_empty d then SUCCESS else FAILURE))
  | SchemaAction => (snapshot, Ok SUCCESS)
  end.
End config.

(** [main]: an error is a failure. *)
Definition exit_code {A} (r : result (A * ExitCode)) : ExitCode := match r with Ok (_, c) => c | Err _ => FAILURE end.

(** ** [cluster] *)

Record ClusterReport : Set := mkClusterReport {
  clr_roles : list string; clr_monolith : bool; clr_unknown : list string; clr_transport : string; clr_nodes : list string;
  clr_shards : Z; clr_replication : Z; clr_shard : Z; clr_placement : list string
}.

Definition cluster_nodes (c : ClusterConfig) : list string := if is_nil (cc_nodes c) then ["local"] else cc_nodes c.

Definition cmd_cluster (finish : string -> option Z -> Z) (c : ClusterConfig) : ClusterReport :=
  let '(roles, unknown) := from_targets (cc_targets c) in
  let shards := default 8%Z (cc_shards c) in
  let replication := default 1%Z (cc_replication c) in
  let map := ShardMap_new shards replication (cluster_nodes c) in
  let shard := shard_for finish map "tenant=default" 0 in
  mkClusterReport (role_as_str <$> roles) (is_monolith roles) unknown (default "inproc" (transport_kind c)) (cluster_nodes c)
    shards replication shard (nodes_for map shard).

(** ** [eval] *)

Section eval.
Context `{Casing} `{TokenHash} `{FloatFixed} `{FloatFixed32} `{HashOrder} `{CountOrder} `{Ln} (now : nat -> Timestamp).

(** [seed..seed + seeds]; the sum wraps. *)
Definition seed_range (seed seeds : Z) : list Z :=
  (fun k => (seed + Z.of_nat k)%Z) <$> seq 0 (Z.to_nat (wrap_u64 (seed + seeds) - seed)).

Definition cmd_eval (seed seeds : Z) : option string :=
  if (1 <? seeds)%Z then
    scenarios ← mapM (synthetic now) (seed_range seed seeds);
    r ← run_eval_multi scenarios;
    Some (show_multi r)
  else s ← synthetic now seed; r ← run_eval s; Some (show_report r).
End eval.

(** ** [edr] *)

Inductive EdrAction : Set :=
  | Agents
  | Agent (id : string)
  | Action (agent action_type : string) (params : CommandParams)
  | Commands (agent : option string)
  | Token (label : option string).

Record HttpRequest : Set := mkHttp { ht_post : bool; ht_url : string; ht_bearer : option string; ht_body : option value }.

(** The arguments of [edr action]; [--allow] may be absent, not empty. *)
Definition action_params (pid : option Z) (hash path : option string) (max_bytes : option Z) (allow : list string) : CommandParams :=
  mkParams pid hash path max_bytes (if is_nil allow then None else Some allow).

Definition insert_opt (key : string) (v : option value) (m : fields_t) : fields_t :=
  match v with Some v => fields_insert key v m | None => m end.

Definition action_body (action_type : string) (p : CommandParams) : value :=
  VObject
    (insert_opt "allowlist_cidrs" ((fun l => VArray (VString <$> l)) <$> cp_allowlist_cidrs p)
      (insert_opt "max_bytes" ((fun z => VNumber (NInt z)) <$> cp_max_bytes p)
        (insert_opt "path" (VString <$> cp_path p)
          (insert_opt "hash_sha256" (VString <$> cp_hash_sha256 p)
            (insert_opt "pid" ((fun z => VNumber (NInt z)) <$> cp_pid p) [("type", VString action_type)]))))).

Definition edr_request (api : string) (token : option string) (a : EdrAction) : HttpRequest :=
  match a with
  | Agents => mkHttp false (api +:+ "/edr/agents") token None
  | Agent id => mkHttp false (api +:+ "/edr/agents/" +:+ id) token None
  | Action agent action_type p => mkHttp true (api +:+ "/edr/agents/" +:+ agent +:+ "/actions") token (Some (action_body action_type p))
  | Commands agent => mkHttp false (api +:+ "/edr/commands" +:+ prefixed "?agent=" agent) token None
  | Token label => mkHttp true (api +:+ "/edr/enroll-tokens") token (Some (VObject [("label", VString (default "cli" label))]))
  end.

(** [edr_send]: the reply's status and text, if any; what is printed and the
    exit code.  [pretty]: the text of a JSON reply, laid out. *)
Definition edr_send (pretty : string -> option string) (reply : option (Z * string)) : result (string * ExitCode) :=
  match reply with
  | None => Err Backend
  | Some (status, text) =>
      Ok (default text (pretty text), if ((200 <=? status) && (status <? 300))%Z then SUCCESS else FAILURE)
  end.

(** ** [replay] *)

Section replay.
Context {C : Type} `{ColdTier C}.
Context `{JsonText} `{JsonParse} `{RegexEngine} `{Casing} `{YamlText} `{Serde Alert}.
Context (ulid : nat -> string) (clock : nat -> Z) (h : Machine).

(** The stores are open; the alerts of the replay go to the outputs. *)
Definition cmd_replay (cfg : Config) (file kind : string) (n : Node C) (w : World) : Node C * World * outcome ReplayOutcome :=
  match build_engine h cfg with
  | Err e => (n, w, Failed e)
  | Ok engine =>
      match replay_file ulid clock h engine file kind n with
      | (n, Done o) =>
          let outputs := Outputs_new (sc_outputs (cf_sigma cfg)) in
          (n, if is_nil (ro_alerts o) || outputs_is_empty outputs then w else (emit_all outputs (ro_alerts o) w).2, Done o)
      | (n, Failed e) => (n, w, Failed e)
      | (n, Panicked) => (n, w, Panicked)
      end
  end.

Context `{TokenHash} `{HashOrder} `{FloatFixed} `{FloatFixed32}.

(** [correlate]: what is printed is the analysis. *)
Definition cmd_correlate (cfg : Config) (file kind : string) (window : option string) (all_domains : bool) (n : Node C) :
    Node C * outcome Analysis :=
  match (engine ← build_engine h cfg; cc ← correlate_config window all_domains; Ok (engine, cc)) with
  | Err e => (n, Failed e)
  | Ok (engine, (campaign_cfg, causal_cfg)) => analyze_file ulid clock h engine file kind campaign_cfg causal_cfg n
  end.
End replay.

(** ** The language of a query *)

Definition stage_verb (s : Stage) : string :=
  match s with
  | Search _ => "search" | Where _ _ _ | Contains _ _ => "where" | Stats _ _ => "stats" | Fields _ => "fields" | Sort _ _ => "sort" | Head _ => "head"
  end.

Lemma print_stage_verb s : exists rest, print_stage s = stage_verb s +:+ String " " rest.
Proof.
  destruct s as [term|col op value|col value|[a|] [|b by_]|cols|col desc|n]; cbn [print_stage stage_verb];
    eexists; reflexivity.
Qed.

Lemma pipeline_looks_like_dsl l : l <> [] -> looks_like_dsl (print_pipeline l) = true.
Proof.
  destruct l as [|s l]; [done|]. intros _. unfold looks_like_dsl, print_pipeline. destruct l as [|s' l].
  - cbn [fmap list_fmap Prelude.join]. destruct (contains "|" (print_stage s)); [done|].
    destruct (print_stage_verb s) as [rest ->]. rewrite split_whitespace_space.
    assert (split_whitespace (stage_verb s) = [stage_verb s]) as -> by by destruct s.
    cbn [app head default]. destruct s; reflexivity.
  - cbn [fmap list_fmap Prelude.join]. replace (contains "|" _) with true; [done|]. symmetry. apply contains_spec.
    exists (print_stage s +:+ " "), (" " +:+ Prelude.join " | " (print_stage s' :: (print_stage <$> l))).
    by rewrite <- !string_app_assoc.
Qed.

(** The language of a query.  Any pipeline of well-formed stages, written
    out, is taken for the pipe language without being told, and lowered to the
    statement its stages build; a text with no bar whose first word is not a
    verb of that language is passed on as it is; a language that is named is
    obeyed, and any other name is refused. *)
Theorem query_language q :
  (forall l, l <> [] -> Forall stage_ok l ->
     query_sql (print_pipeline l) None = Ok (true, render (foldl run_stage Builder_default l))) /\
  (free_of "|" q = true -> to_ascii_lowercase (default "" (head (split_whitespace q))) ∉ DSL_VERBS -> query_sql q None = Ok (false, q)) /\
  query_sql q (Some "sql") = Ok (false, q) /\
  query_sql q (Some "dsl") = (sql ← lower q; Ok (true, sql)) /\
  (forall lang, lang <> "sql" -> lang <> "dsl" -> query_sql q (Some lang) = Err Prelude.Config).
Proof.
  unfold query_sql. split_and!; [| |done|done|].
  - intros l Hne Hl. rewrite pipeline_looks_like_dsl by done. cbn [mbind result_bind]. by rewrite lower_pipeline.
  - intros Hf Hw. unfold looks_like_dsl. destruct (contains "|" q) eqn:Hc; [|by rewrite bool_decide_false].
    apply contains_spec in Hc as (u & v & ->). rewrite !free_of_app in Hf. by rewrite andb_false_r in Hf.
  - intros lang H1 H2. by rewrite !bool_decide_false.
Qed.

(** SQL that concatenates with bars is taken for a pipeline, and refused. *)
Lemma sql_with_bars_refused :
  query_sql "SELECT actor || host FROM events" None = Err Parse /\
  query_sql "SELECT actor || host FROM events" (Some "sql") = Ok (false, "SELECT actor || host FROM events").
Proof. split; vm_compute; reflexivity. Qed.

Lemma query_language_witness :
  query_sql "search failed | head 5" None = Ok (true, "SELECT * FROM events WHERE message ILIKE '%failed%' LIMIT 5") /\
  query_sql "SELECT 1" None = Ok (false, "SELECT 1").
Proof.
  destruct (query_language "SELECT 1") as (Hp & Hq & _). split.
  - apply (Hp [Search ["failed"]; Head 5]); [done|]. by repeat constructor.
  - apply Hq; [reflexivity|]. by apply (bool_decide_unpack _).
Defined.

(** ** The configuration commands *)

Section config_spec.
Context `{YamlText, ConfigSerde} (is_dir : string -> bool).

End config_spec.

Section config_demo.
#[local] Existing Instances Plan.demo_text Plan.demo_serde.

End config_demo.

(** ** The fleet commands reach the API *)

(** What an action asks of the API. *)
Definition edr_req_of (a : EdrAction) : Req :=
  match a with
  | Agents => GetAgents
  | Agent id => GetAgent id
  | Action agent action_type p => PostAction agent action_type p
  | Commands agent => GetCommands agent None
  | Token label => PostToken (Some (default "cli" label))
  end.

(** An identifier of letters, digits, [-] and [_], which an address carries as
    it is. *)
Definition plain_char (c : ascii) : bool := is_ascii_alphanumeric c || bool_decide (c ∈ ["-"; "_"]%char).
Definition plain_segment (s : string) : Prop := s <> "" /\ all_bytes plain_char s = true.
Definition params_ok (p : CommandParams) : Prop :=
  (forall z, cp_pid p = Some z -> 0 <= z < 2 ^ 32)%Z /\ (forall z, cp_max_bytes p = Some z -> 0 <= z < 2 ^ 64)%Z.
Definition action_ok (a : EdrAction) : Prop :=
  match a with
  | Agents | Token _ | Commands None => True
  | Agent id | Commands (Some id) => plain_segment id
  | Action agent _ p => plain_segment agent /\ params_ok p
  end.

(** The path and the query of a target; no escapes. *)
Definition split_target (target : string) : string * smap string :=
  match split_once "?" target with
  | None => (target, [])
  | Some (path, query) => (path, foldl (fun m kv => smap_insert kv.1 kv.2 m) [] (omap (split_once "=") (split_on "&" query)))
  end.

Lemma plain_free c s : plain_char c = false -> plain_segment s -> free_of c s = true.
Proof.
  intros Hc [_ Hs]. unfold free_of. revert Hs. induction s as [|d s IH]; [done|]. cbn [all_bytes]. rewrite !andb_true_iff.
  intros [Hd Hs]. split; [|by apply IH]. apply negb_true_iff, bool_decide_eq_false. congruence.
Qed.

Lemma exact_object m : exact (VObject m) <-> smap_wf m /\ Forall (fun kv => exact kv.2) m.
Proof.
  cbn [exact]. apply and_iff_compat_l. induction m as [|[k v] m IH]; [by split|]. rewrite Forall_cons. cbn [snd]. by rewrite IH.
Qed.

Lemma exact_insert k v m : exact v -> exact (VObject m) -> exact (VObject (fields_insert k v m)).
Proof.
  rewrite !exact_object. intros Hv [Hwf Hf]. split; [by apply smap_insert_wf|]. clear Hwf.
  induction Hf as [|[k' v'] m Hx Hf IH]; cbn [smap_insert]; [by repeat constructor|]. repeat case_match; by repeat constructor.
Qed.

Lemma exact_insert_opt k v m : (forall x, v = Some x -> exact x) -> exact (VObject m) -> exact (VObject (insert_opt k v m)).
Proof. intros Hv Hm. destruct v as [v|]; [|done]. apply exact_insert; [by apply Hv|done]. Qed.

Lemma get_insert_opt_ne k v m j : k <> j -> fields_get (insert_opt k v m) j = fields_get m j.
Proof. intros Hk. destruct v; [|done]. cbn [insert_opt]. rewrite smap_get_insert. by rewrite decide_False. Qed.
Lemma get_insert_opt_eq k v m : fields_get m k = None -> fields_get (insert_opt k v m) k = v.
Proof. intros Hm. destruct v; [|done]. cbn [insert_opt]. rewrite smap_get_insert. by rewrite decide_True. Qed.

(** A key of a body built field by field. *)
Ltac find_field :=
  repeat (rewrite get_insert_opt_ne by discriminate); try (apply get_insert_opt_eq; repeat (rewrite get_insert_opt_ne by discriminate)); reflexivity.

Lemma exact_strings l : exact (VArray (VString <$> l)).
Proof. induction l as [|s l IH]; [done|]. by split. Qed.

Lemma action_body_exact action_type p : exact (action_body action_type p).
Proof.
  assert (forall A (o : option A) (f : A -> value), (forall a, exact (f a)) -> forall x, f <$> o = Some x -> exact x) as Ho.
  { intros A [a|] f Hf x Hx; [|done]. by injection Hx as <-. }
  unfold action_body. repeat apply exact_insert_opt; try by apply Ho.
  - apply Ho. apply exact_strings.
  - rewrite exact_object. split; [repeat constructor|by repeat constructor].
Qed.

Lemma read_strings l : mapM read_string (VString <$> l) = Some l.
Proof. induction l as [|s l IH]; [done|]. cbn. cbn in IH. by rewrite IH. Qed.

Lemma opt_field_written {A} (read : value -> option A) (enc : A -> value) m key (o : option A) :
  fields_get m key = enc <$> o -> (forall a, o = Some a -> enc a <> VNull /\ read (enc a) = Some a) -> opt_field read m key = Some o.
Proof.
  intros Hg Ho. unfold opt_field. rewrite Hg. destruct o as [a|]; [|done]. destruct (Ho a eq_refl) as [Hn Hr]. cbn [fmap option_fmap option_map].
  destruct (enc a); try done; by rewrite Hr.
Qed.

(** The body the client writes is the one the handler reads. *)
Lemma action_body_reads action_type p : params_ok p -> exists m, action_body action_type p = VObject m /\ EdrActionBody m = Some (action_type, p).
Proof.
  intros [Hpid Hmax]. eexists. split; [done|]. set (m := insert_opt "allowlist_cidrs" _ _).
  assert (fields_get m "type" = Some (VString action_type) /\
    fields_get m "pid" = (fun z => VNumber (NInt z)) <$> cp_pid p /\ fields_get m "hash_sha256" = VString <$> cp_hash_sha256 p /\
    fields_get m "path" = VString <$> cp_path p /\ fields_get m "max_bytes" = (fun z => VNumber (NInt z)) <$> cp_max_bytes p /\
    fields_get m "allowlist_cidrs" = (fun l => VArray (VString <$> l)) <$> cp_allowlist_cidrs p) as (Ht & Hp & Hh & Hq & Hb & Ha).
  { unfold m. split_and!; find_field. }
  assert (forall (bound : Z) o, (forall z, o = Some z -> 0 <= z <= bound)%Z ->
    forall z, o = Some z -> VNumber (NInt z) <> VNull /\ read_uint bound (VNumber (NInt z)) = Some z) as Hu.
  { intros bound o Hz z Hs%Hz. split; [done|]. unfold read_uint. by rewrite (proj2 (andb_true_iff _ _)) by (split; lia). }
  unfold EdrActionBody, field. rewrite Ht. cbn [mbind option_bind read_string].
  rewrite (opt_field_written (read_uint Routes.u32_max) _ m "pid" _ Hp) by (apply Hu; intros z Hz%Hpid; unfold Routes.u32_max; lia). cbn [mbind option_bind].
  rewrite (opt_field_written read_string _ m "hash_sha256" _ Hh) by done. cbn [mbind option_bind].
  rewrite (opt_field_written read_string _ m "path" _ Hq) by done. cbn [mbind option_bind].
  rewrite (opt_field_written (read_uint u64_max) _ m "max_bytes" _ Hb) by (apply Hu; intros z Hz%Hmax; unfold u64_max; lia). cbn [mbind option_bind].
  rewrite (opt_field_written (read_list read_string) _ m "allowlist_cidrs" _ Ha) by (intros l _; split; [done|apply read_strings]). cbn [mbind option_bind].
  by destruct p.
Qed.

(** The request, as it comes to a handler: the handler, the parameters of the
    path, the query and the body. *)
Record Arrival : Type := mkArrival { av_handler : Handler; av_params : list string; av_query : smap string; av_body : option value }.

Definition arrives `{PathRouter} (origin : string) (r : HttpRequest) (v : Arrival) : Prop :=
  exists target, ht_url r = origin +:+ target /\
    (forall b, router b (if ht_post r then POST else GET) (split_target target).1 = Route true (av_handler v) (av_params v)) /\
    (split_target target).2 = av_query v /\ ht_body r = av_body v.

Definition slashed (segs : list string) : string := Prelude.join "/" ("" :: "api" :: "v1" :: "edr" :: segs).

Lemma slashed_free c segs : c <> "/"%char -> free_of c "apiv1edr" = true -> Forall (fun s => free_of c s = true) segs -> free_of c (slashed segs) = true.
Proof.
  intros Hc Hw Hf. unfold slashed. assert (Forall (fun s => free_of c s = true) ("" :: "api" :: "v1" :: "edr" :: segs)) as Hall.
  { change "apiv1edr" with ("api" +:+ "v1" +:+ "edr") in Hw. rewrite !free_of_app in Hw. apply andb_true_iff in Hw as [? [? ?]%andb_true_iff].
    by repeat constructor. }
  revert Hall. generalize ("" :: "api" :: "v1" :: "edr" :: segs). intros l Hl.
  assert (free_of c "/" = true) as Hs by (unfold free_of; cbn; by rewrite bool_decide_false).
  induction Hl as [|w l Hw' Hl IH]; [done|]. destruct l as [|w' l]; [done|].
  change (Prelude.join "/" (w :: w' :: l)) with (w +:+ "/" +:+ Prelude.join "/" (w' :: l)). by rewrite !free_of_app, Hw', Hs, IH.
Qed.

Lemma plain_slashed c segs : plain_char c = false -> c <> "/"%char -> free_of c "apiv1edr" = true -> Forall plain_segment segs ->
  free_of c (slashed segs) = true.
Proof. intros Hc Hne Hw Hf. apply slashed_free; [done|done|]. eapply Forall_impl; [exact Hf|]. intros s. by apply plain_free. Qed.

(** A guarded route takes an address of plain segments that fits it. *)
Lemma guarded_route `{PathRouterLaws} m h pattern ms segs params : (pattern, ms) ∈ guarded -> Forall plain_segment segs ->
  match_segments (segments pattern) ("" :: "api" :: "v1" :: "edr" :: segs) = Some params -> filter (fun mh => mh.1 = m) ms = [(m, h)] ->
  forall b, router b m (slashed segs) = Route true h params.
Proof.
  intros Hin Hf Hm Hms b. unfold router. rewrite (find_route_fits guarded pattern ms (slashed segs) params); [|apply guarded_apart|done| |by apply plain_slashed].
  - unfold pick_method. cbn [fst snd]. by rewrite Hms.
  - unfold match_path, segments at 2, slashed. rewrite split_join; [done..|]. repeat constructor. eapply Forall_impl; [exact Hf|]. intros s. by apply plain_free.
Qed.

Lemma parse_plain segs : Forall plain_segment segs -> split_target (slashed segs) = (slashed segs, []).
Proof. intros Hf. unfold split_target. by rewrite split_once_free by by apply plain_slashed. Qed.

Lemma commands_target id : plain_segment id ->
  split_target (slashed ["commands"] +:+ "?agent=" +:+ id) = (slashed ["commands"], [("agent", id)]).
Proof.
  intros Hid. unfold split_target. change (split_once "?" _) with (Some (slashed ["commands"], "agent=" +:+ id)). cbv iota beta.
  rewrite split_on_free; [reflexivity|]. by rewrite free_of_app, (plain_free "&" id).
Qed.

(** Membership in a concrete table. *)
Ltac in_table := apply (bool_decide_unpack _); vm_compute; exact I.
(** Segments that are words or known to be plain. *)
Ltac words := repeat first [assumption | apply Forall_nil_2 | apply Forall_cons_2 | (split; [discriminate|reflexivity])].

(** C20: Fleet commands reach the API.  For a base address that ends in
    [/api/v1] and plain identifiers, every fleet command of the command line
    sends its token and a request that the router, with authentication on or
    off, hands under the guard to the handler the command means, with the path
    parameters, the query and a JSON body that read back as exactly the
    command: for a response action the agent, the type and all parameters,
    present or absent, up to the bounds of their integers. *)
Theorem edr_commands_arrive `{PathRouterLaws} `{JsonLaws} origin token a : action_ok a ->
  ht_bearer (edr_request (origin +:+ "/api/v1") token a) = token /\
  exists v, arrives origin (edr_request (origin +:+ "/api/v1") token a) v /\
    (forall b, av_body v = Some b -> json_parse (json_text b) = inl b) /\
    forall config_of_json, decode_request config_of_json (av_handler v) (av_params v) (av_query v) (av_body v) = Some (edr_req_of a).
Proof.
  intros Ha. split; [by destruct a|]. unfold arrives.
  destruct a as [|id|agent ty p|[id|]|label]; cbn [action_ok edr_request ht_url ht_post ht_body edr_req_of] in *; rewrite <- !string_app_assoc.
  - exists (mkArrival Routes.edr_agents [] [] None). split; [|done]. exists (slashed ["agents"]). rewrite parse_plain by words.
    split; [reflexivity|]. split; [|by split]. apply (guarded_route GET _ "/api/v1/edr/agents" [(GET, Routes.edr_agents)]); [in_table|words|reflexivity..].
  - exists (mkArrival Routes.edr_agent [id] [] None). split; [|done]. exists (slashed ["agents"; id]). rewrite parse_plain by words.
    split; [reflexivity|]. split; [|by split]. apply (guarded_route GET _ "/api/v1/edr/agents/:id" [(GET, Routes.edr_agent)]); [in_table|words| |done].
    destruct Ha as [? _]. destruct id; [done|vm_compute; reflexivity].
  - destruct Ha as [Hag Hp]. exists (mkArrival Routes.edr_action [agent] [] (Some (action_body ty p))). split; [|split].
    + exists (slashed ["agents"; agent; "actions"]). rewrite parse_plain by words. split; [reflexivity|]. split; [|by split].
      apply (guarded_route POST _ "/api/v1/edr/agents/:id/actions" [(POST, Routes.edr_action)]); [in_table|words| |done].
      destruct Hag as [? _]. destruct agent; [done|vm_compute; reflexivity].
    + intros b [= <-]. apply parse_text, action_body_exact.
    + intros cfg. destruct (action_body_reads ty p Hp) as (m & -> & Hm). cbn [decode_request av_handler av_params av_body av_query].
      cbn [mbind option_bind]. by rewrite Hm.
  - exists (mkArrival Routes.edr_commands [] [("agent", id)] None). split; [|done]. exists (slashed ["commands"] +:+ "?agent=" +:+ id).
    rewrite commands_target by done. split; [reflexivity|]. split; [|by split].
    apply (guarded_route GET _ "/api/v1/edr/commands" [(GET, Routes.edr_commands)]); [in_table|words|reflexivity..].
  - exists (mkArrival Routes.edr_commands [] [] None). split; [|done]. exists (slashed ["commands"]). rewrite parse_plain by words.
    split; [reflexivity|]. split; [|by split]. apply (guarded_route GET _ "/api/v1/edr/commands" [(GET, Routes.edr_commands)]); [in_table|words|reflexivity..].
  - exists (mkArrival Routes.edr_token_create [] [] (Some (VObject [("label", VString (default "cli" label))]))). split; [|split; [|done]].
    + exists (slashed ["enroll-tokens"]). rewrite parse_plain by words. split; [reflexivity|]. split; [|by split].
      apply (guarded_route POST _ "/api/v1/edr/enroll-tokens" [(GET, Routes.edr_tokens); (POST, Routes.edr_token_create)]); [in_table|words|reflexivity..].
    + intros b [= <-]. apply parse_text. by repeat constructor.
Qed.

Section edr_demo.
#[local] Existing Instances demo_json_text demo_json_parse demo_json_laws first_router first_router_laws.

Lemma edr_commands_arrive_witness :
  let p := action_params (Some 42%Z) None None (Some 4096%Z) ["10.0.0.0/8"] in
  exists v, arrives "http://siem:8080" (edr_request "http://siem:8080/api/v1" (Some "t") (Action "a1" "isolate_host" p)) v /\
    decode_request (fun _ => None) (av_handler v) (av_params v) (av_query v) (av_body v) = Some (PostAction "a1" "isolate_host" p).
Proof.
  intros p. assert (action_ok (Action "a1" "isolate_host" p)) as Hok.
  { split; [by repeat split|]. split; intros z [= <-]; lia. }
  destruct (edr_commands_arrive "http://siem:8080" (Some "t") _ Hok) as (_ & v & Hv & _ & Hd). exists v. split; [exact Hv|exact (Hd (fun _ => None))].
Defined.
End edr_demo.
