(* ===== verification/Startup.v ===== *)
(** * [sigil-cli/src/run.rs]: starting, feeding and stopping a node

    What [run] starts from a configuration: the checks, the engines, the
    inputs with their routing, the endpoint gateway and the API; the frames an
    input sends; and the loop as what it selects until it ends.  The state of
    the endpoint gateway is built elsewhere: whether that worked is a
    parameter, as is the opening of the stores. *)

From stdpp Require Import gmap strings list.
From S2P Require Import Auth ConfigExt Api Routes.
From S2P Require Import Prelude Utf8 Containers Core Yaml SigmaMatcher SigmaEngine SigmaCorrelation Cluster.
From S2P Require Import Serde Store Edr Text Columnar Segments Tiering Config Codec Tailer Float Template Normalize Plugin Enrich Detect ColdTier.
From S2P Require Import Pipeline Replay.
Import Cluster.Roles.

Local Open Scope string_scope.

(** ** Inputs *)

(** A spawned input task: the codec and flags of its frames, and where it
    reads. *)
Record InputTask : Set := mkTask { it_id : string; it_codec : string; it_index : bool; it_sigma : bool; it_file : bool; it_source : string }.

Section inputs.
Context `{YamlText}.

Definition spawn_file_input (i : InputConfig) (index sigma : bool) : option InputTask :=
  path ← setting_str i "path"; Some (mkTask (in_id i) (cd_kind (in_codec i)) index sigma true path).
Definition spawn_syslog_input (i : InputConfig) (index sigma : bool) : option InputTask :=
  listen ← setting_str i "listen"; Some (mkTask (in_id i) (cd_kind (in_codec i)) index sigma false listen).

(** One turn of the loop over the inputs; other kinds are skipped. *)
Definition spawn_input (cfg : Config) (run_index active : bool) (i : InputConfig) : option InputTask :=
  let index := should_index cfg run_index (in_id i) in
  let sigma := should_sigma cfg run_index active (in_id i) in
  if bool_decide (in_kind i = "file") then spawn_file_input i index sigma
  else if bool_decide (in_kind i = "syslog") then spawn_syslog_input i index sigma
  else None.
End inputs.

Definition task_frame (t : InputTask) (bytes : string) : RawFrame := mkFrame (it_codec t) (it_index t) (it_sigma t) bytes.

(** A file task: one frame for each line of each poll; a failed poll sends
    nothing, and the next one goes on. *)
Fixpoint file_frames (t : InputTask) (polls : list PollFaults) (tailer : Tailer) : Tailer * list RawFrame :=
  match polls with
  | [] => (tailer, [])
  | io :: polls =>
      let '(tailer, r) := poll_lines io tailer in
      let '(tailer, frames) := file_frames t polls tailer in
      (tailer, ((match r with Ok lines => task_frame t <$> lines | Err _ => [] end) ++ frames)%list)
  end.

(** ** Starting *)

(** What a node runs: the roles, the inputs, the constants of the loop, the
    gateway with its TLS identity, the API, and whether it outlives its
    inputs. *)
Record NodePlan `{RegexEngine} : Type := mkPlan {
  np_roles : RoleSet; np_tasks : list InputTask; np_setup : Setup; np_engine : list CompiledRule; np_corr : CorrelationEngine;
  np_gateway : option (string * option (string * string)); np_api : option SystemInfo; np_serves_long : bool
}.

Definition build_system_info (cfg : Config) (roles : list string) (rule_count : nat) (auth_enabled persistence : bool) : SystemInfo :=
  let c := cf_cluster cfg in
  mkSystemInfo roles (default "inproc" (transport_kind c)) (if is_nil (cc_nodes c) then ["local"] else cc_nodes c)
    (default 8%Z (cc_shards c)) (default 1%Z (cc_replication c))
    ((fun i => mkSource (in_id i) (in_kind i) (cd_kind (in_codec i))) <$> cf_inputs cfg)
    ((fun p => mkPipelineInfo (pl_id p) (pl_from p) (pl_route p)) <$> cf_pipelines cfg)
    (rt_hot (ic_retention (cf_index cfg))) (rt_warm (ic_retention (cf_index cfg))) (rt_cold (ic_retention (cf_index cfg)))
    (resolved_path (cf_index cfg)) (resolved_cold_path (cf_index cfg)) rule_count auth_enabled persistence.

Section start.
Context `{JsonText} `{RegexEngine} `{Casing} `{YamlText} `{FloatText}.
Context (h : Machine) (is_dir : string -> bool).

(** [opened]: the stores; [edr_new]: [EdrState::new].  [None] where compiling a
    correlation panics. *)
Definition start_node (cfg : Config) (opened edr_new : result unit) : option (result (NodePlan)) :=
  if negb (report_ok (validate is_dir cfg)) then Some (Err Prelude.Config)
  else
    match (_ ← opened; build_engine h cfg) with
    | Err e => Some (Err e)
    | Ok engine =>
        corr ← build_correlations h cfg;
        Some (corr ← corr;
          let detectors := build_detector_chain (h_read h) cfg in
          let active := sigma_active cfg (length engine) detectors in
          let roles := (from_targets (cc_targets (cf_cluster cfg))).1 in
          let run_index := role_runs roles Index in
          let run_query := role_runs roles Query in
          let edr := ec_enabled (cf_edr cfg) && match edr_new with Ok _ => true | Err _ => false end in
          Ok (mkPlan _ roles (omap (spawn_input cfg run_index active) (cf_inputs cfg))
                (mkSetup (build_enrich_chain (h_read h) cfg) detectors active
                   (parse_duration_micros (rt_cold (ic_retention (cf_index cfg)))) (parse_duration_micros (rt_warm (ic_retention (cf_index cfg)))))
                engine corr
                (if edr && run_index then Some (ec_listen (cf_edr cfg), load_edr_tls h cfg) else None)
                (if run_query then Some (build_system_info cfg (role_as_str <$> roles) (length engine) (ac_enabled (cf_auth cfg)) true) else None)
                (run_query || edr)))
    end.
End start.

(** ** The loop and its end *)

(** What the loop selects: an input of [Pipeline], the end of all inputs, or
    the interrupt. *)
Inductive loop_event `{RegexEngine} : Type := Handle (i : node_input) | Drained | Interrupt.

(** Still in the loop, or out of it. *)
Inductive loop_state : Set := Looping | Left_ (interrupted : bool).
(** After the loop: done, or waiting for the interrupt to serve queries. *)
Inductive node_end : Set := Running | Stopped | Serving.

Section loop.
Context {C : Type} `{ColdTier C}.
Context `{JsonText} `{JsonParse} `{RegexEngine} `{Casing} `{RegexReplace} `{Log2} `{CountOrder} `{FloatText}.
Context (ulid : nat -> string) (clock : nat -> Z).

#[local] Existing Instances M_ret M_bind.

Fixpoint select_loop (st : Setup) (serves_long : bool) (evs : list loop_event) : M (C := C) loop_state :=
  match evs with
  | [] => mret Looping
  | Handle i :: evs => handle_input ulid clock st i ;; select_loop st serves_long evs
  | Drained :: evs => if serves_long then select_loop st serves_long evs else mret (Left_ false)
  | Interrupt :: _ => mret (Left_ true)
  end.

Definition run_node (st : Setup) (run_query serves_long : bool) (evs : list loop_event) : M (C := C) node_end :=
  s ← select_loop st serves_long evs;
  match s with
  | Looping => mret Running
  | Left_ interrupted =>
      index_commit ;;
      roll clock ;;
      mret (if negb interrupted && run_query then Serving else Stopped)
  end.

(** The inputs handled before the loop ends, and how it does, if it does. *)
Fixpoint until_end (serves_long : bool) (evs : list loop_event) : list node_input * option bool :=
  match evs with
  | [] => ([], None)
  | Handle i :: evs => let '(l, e) := until_end serves_long evs in (i :: l, e)
  | Drained :: evs => if serves_long then until_end serves_long evs else ([], Some false)
  | Interrupt :: _ => ([], Some true)
  end.
End loop.

(** ** Theorems *)

Section spec.
Context `{JsonText} `{RegexEngine} `{Casing} `{YamlText} `{FloatText}.
Context (h : Machine) (is_dir : string -> bool).

(** An input and the task it has. *)
Definition task_of (cfg : Config) (run_index active : bool) (i : InputConfig) (t : InputTask) : Prop :=
  it_id t = in_id i /\ it_codec t = cd_kind (in_codec i) /\
  it_index t = should_index cfg run_index (in_id i) /\ it_sigma t = should_sigma cfg run_index active (in_id i) /\
  ((in_kind i = "file" /\ it_file t = true /\ setting_str i "path" = Some (it_source t)) \/
   (in_kind i = "syslog" /\ it_file t = false /\ setting_str i "listen" = Some (it_source t))).

Lemma spawn_inputs cfg run_index active inputs :
  (forall i, i ∈ inputs -> (in_kind i = "file" -> is_Some (setting_str i "path")) /\ (in_kind i = "syslog" -> is_Some (setting_str i "listen"))) ->
  Forall2 (task_of cfg run_index active) (filter (fun i => in_kind i ∈ IMPLEMENTED_INPUTS) inputs) (omap (spawn_input cfg run_index active) inputs).
Proof.
  induction inputs as [|i inputs IH]; intros Hw; [constructor|]. rewrite filter_cons, omap_list_cons.
  specialize (IH (fun j Hj => Hw j (list_elem_of_further _ _ _ Hj))). destruct (Hw i (list_elem_of_here _ _)) as [Hf Hs].
  unfold spawn_input. destruct (decide (in_kind i = "file")) as [Hk|Hk].
  - rewrite bool_decide_true, decide_True by (done || rewrite Hk; by apply (bool_decide_unpack _)).
    destruct (Hf Hk) as [path Hp]. unfold spawn_file_input. rewrite Hp. cbn [mbind option_bind]. constructor; [|done].
    split_and!; [done..|]. by left.
  - rewrite (bool_decide_false (in_kind i = "file")) by done. destruct (decide (in_kind i = "syslog")) as [Hl|Hl].
    + rewrite bool_decide_true, decide_True by (done || rewrite Hl; by apply (bool_decide_unpack _)).
      destruct (Hs Hl) as [listen Hp]. unfold spawn_syslog_input. rewrite Hp. cbn [mbind option_bind]. constructor; [|done].
      split_and!; [done..|]. by right.
    + rewrite bool_decide_false by done. rewrite decide_False; [done|].
      unfold IMPLEMENTED_INPUTS. rewrite !elem_of_cons. intros [?|[?|[]%not_elem_of_nil]]; done.
Qed.

(** What a node starts.  A configuration with a defect starts nothing.
    Otherwise, when the stores open and the rules load, every declared input
    of a kind that exists has one task, in order and with its codec and its
    source; its frames are indexed when the node has the index role and the
    input is routed to the index, or none is; they are matched when the node
    has the index role, detection is on and the input is routed to it.  The
    gateway runs exactly on index nodes with a working endpoint module, the
    API exactly on query nodes, and the node outlives its inputs exactly when
    it has the API or the endpoint module. *)
Theorem start_node_spec cfg opened edr_new r : start_node h is_dir cfg opened edr_new = Some r ->
  (~ config_wf cfg -> r = Err Prelude.Config) /\
  forall p, r = Ok p ->
    config_wf cfg /\ opened = Ok () /\ build_engine h cfg = Ok (np_engine p) /\ build_correlations h cfg = Some (Ok (np_corr p)) /\
    np_roles p = (from_targets (cc_targets (cf_cluster cfg))).1 /\
    (let run_index := role_runs (np_roles p) Index in
     let active := st_sigma (np_setup p) in
     let edr := ec_enabled (cf_edr cfg) && bool_decide (edr_new = Ok ()) in
     active = sigma_active cfg (length (np_engine p)) (st_detectors (np_setup p)) /\
     Forall2 (task_of cfg run_index active) (filter (fun i => in_kind i ∈ IMPLEMENTED_INPUTS) (cf_inputs cfg)) (np_tasks p) /\
     (forall t, t ∈ np_tasks p -> it_index t = true \/ it_sigma t = true -> run_index = true) /\
     (is_Some (np_gateway p) <-> edr = true /\ run_index = true) /\
     (is_Some (np_api p) <-> role_runs (np_roles p) Query = true) /\
     (np_serves_long p = true <-> is_Some (np_api p) \/ edr = true)).
Proof.
  unfold start_node. pose proof (report_ok_wf is_dir cfg) as Hwf. destruct (report_ok (validate is_dir cfg)); cbn [negb].
  2: { intros [= <-]. split; [done|]. intros p Hp. done. }
  destruct opened as [[]|e]; cbn [mbind result_bind]; [|intros [= <-]; split; [intros Hn; tauto|done]].
  destruct (build_engine h cfg) as [engine|e] eqn:He; [|intros [= <-]; split; [intros Hn; tauto|done]].
  destruct (build_correlations h cfg) as [[corr|e]|] eqn:Hc; cbn [mbind option_bind result_bind]; [| |done].
  2: { intros [= <-]. split; [intros Hn; tauto|done]. }
  intros [= <-]. split; [intros Hn; tauto|]. intros p [= <-]. cbn [np_roles np_tasks np_setup np_engine np_corr np_gateway np_api np_serves_long].
  assert (config_wf cfg) as Hw by by apply Hwf. split; [done|]. split; [done|]. split; [done|]. split; [done|]. split; [done|]. cbv zeta.
  cbn [st_sigma st_detectors]. split; [done|].
  assert (bool_decide (edr_new = Ok ()) = match edr_new with Ok _ => true | Err _ => false end) as Hedr.
  { by destruct edr_new as [[]|e]; case_bool_decide. }
  rewrite Hedr. set (edr := ec_enabled _ && _). set (roles := (from_targets _).1). set (active := sigma_active _ _ _).
  assert (Forall2 (task_of cfg (role_runs roles Index) active) (filter (fun i => in_kind i ∈ IMPLEMENTED_INPUTS) (cf_inputs cfg))
    (omap (spawn_input cfg (role_runs roles Index) active) (cf_inputs cfg))) as Htasks.
  { apply spawn_inputs. intros i Hi. by destruct (wf_input cfg Hw i Hi) as (_ & ? & ?). }
  split; [done|]. split; [|split; [|split]].
  - intros t Ht Hor. apply list_elem_of_lookup in Ht as [k Hk]. destruct (Forall2_lookup_r _ _ _ _ _ Htasks Hk) as (i & _ & _ & _ & Hi & Hs & _).
    unfold should_index, should_sigma in *. rewrite Hi, Hs in Hor. destruct (role_runs roles Index); [done|]. by destruct Hor.
  - destruct edr, (role_runs roles Index); cbn; split; (done || by intros [? ?] || by intros [] || by eexists).
  - destruct (role_runs roles Query); split; (done || by intros [? ?] || by eexists).
  - destruct edr, (role_runs roles Query); cbn; split; try done; try (by intros [[? ?]|]); try (by left; eexists); try by right.
Qed.
End spec.

Section loop_spec.
Context {C : Type} `{ColdTier C}.
Context `{JsonText} `{JsonParse} `{RegexEngine} `{Casing} `{RegexReplace} `{Log2} `{CountOrder} `{FloatText}.
Context (ulid : nat -> string) (clock : nat -> Z).

Lemma select_loop_run st serves_long evs (n : Node C) :
  select_loop ulid clock st serves_long evs n =
  match run_loop ulid clock st (until_end serves_long evs).1 n with
  | (n', Done _) => (n', Done (match (until_end serves_long evs).2 with Some i => Left_ i | None => Looping end))
  | (n', Failed e) => (n', Failed e)
  | (n', Panicked) => (n', Panicked)
  end.
Proof.
  revert n. induction evs as [|[i| |] evs IH]; intros n; [done| | |done].
  - cbn [select_loop until_end]. destruct (until_end serves_long evs) as [l e]. cbn [run_loop fst snd] in *.
    unfold mbind, M_bind, Pipeline.M_bind. destruct (handle_input ulid clock st i n) as [n' [[]|?|]]; [|done..]. apply IH.
  - cbn [select_loop until_end]. by destruct serves_long.
Qed.

Lemma until_end_spec serves_long evs :
  ((until_end serves_long evs).2 = None <-> ~ In Interrupt evs /\ (serves_long = false -> ~ In Drained evs)) /\
  ((until_end serves_long evs).2 = Some false -> serves_long = false).
Proof.
  induction evs as [|[i| |] evs [IH1 IH2]]; cbn [until_end].
  - split; [split; [|done]|done]. intros _. split; [by intros []|by intros _ []].
  - destruct (until_end serves_long evs) as [l e]. cbn [snd] in *. rewrite IH1. split; [|exact IH2]. split; intros [H1' H2']; split.
    + intros [?|?]; [discriminate|by apply H1'].
    + intros Hs [?|?]; [discriminate|by apply (H2' Hs)].
    + intros ?. apply H1'. by right.
    + intros Hs ?. apply (H2' Hs). by right.
  - destruct serves_long; [|split; [|done]; split; [done|intros [_ Hd]; destruct (Hd eq_refl); by left]].
    split; [|done]. rewrite IH1. split; intros [H1' H2']; split; try done.
    + intros [?|?]; [discriminate|by apply H1'].
    + intros ?. apply H1'. by right.
  - cbn. split; [|done]. split; [done|]. intros [Hn _]. destruct Hn. by left.
Qed.

(** C12: How a node ends.  A node with the API or the endpoint module runs
    until it is interrupted, whatever its inputs do; any other also ends when
    its inputs have.  Until then it handles what it selects, one after the
    other; at the end it has done exactly what [Pipeline.run] does with the
    inputs handled before, the final commit and roll included, and stops.  The
    wait for an interrupt that the code has after the loop is never reached. *)
Theorem node_run_spec st run_query serves_long evs (n : Node C) : (run_query = true -> serves_long = true) ->
  let '(inputs, ending) := until_end serves_long evs in
  (ending = None <-> ~ In Interrupt evs /\ (serves_long = false -> ~ In Drained evs)) /\
  run_node ulid clock st run_query serves_long evs n =
  match ending, (if ending is Some _ then run ulid clock st inputs n else run_loop ulid clock st inputs n) with
  | Some _, (n', Done _) => (n', Done Stopped)
  | None, (n', Done _) => (n', Done Running)
  | _, (n', Failed e) => (n', Failed e)
  | _, (n', Panicked) => (n', Panicked)
  end.
Proof.
  intros Hq. destruct (until_end_spec serves_long evs) as [H1' H2']. pose proof (select_loop_run st serves_long evs n) as Hs.
  destruct (until_end serves_long evs) as [inputs ending]. cbn [fst snd] in *. split; [done|].
  unfold run_node, run, mbind, M_bind, Pipeline.M_bind. rewrite Hs. destruct (run_loop ulid clock st inputs n) as [n' [[]|e|]]; [|by destruct ending..].
  destruct ending as [interrupted|]; [|done]. destruct (index_commit n') as [n1 [[]|e|]]; [|done..].
  destruct (roll clock n1) as [n2 [[]|e|]]; [|done..]. unfold mret, M_ret.
  destruct interrupted; [done|]. rewrite H2' in Hq by done. by destruct run_query; [specialize (Hq eq_refl)|].
Qed.
End loop_spec.

(** ** Witnesses *)

Section demo.
#[local] Existing Instances demo_json_text demo_json_parse demo_arrow demo_lower demo_regex.
#[local] Existing Instances Tiering.demo_serde.
#[local] Instance demo_yaml_text : YamlText := demo_yaml.
#[local] Instance demo_floats : FloatText := {| f64_text _ := EmptyString; f64_parse _ := None |}.
#[local] Instance demo_replace : RegexReplace := fun _ _ s => s.
#[local] Instance demo_log2 : Log2 := fun x => x.
#[local] Instance demo_order : CountOrder := fun l => l.

Definition demo_inputs : list InputConfig :=
  [mkInput "in" "file" CodecConfig_default [("path", YString "/var/log/x")]; mkInput "q" "kafka" CodecConfig_default []].
Definition demo_config : Config :=
  mkConfig 1 ClusterConfig_default demo_inputs [] IndexConfig_default SigmaConfig_default (mkAuth false "" 60 [])
    None None YNull EdrConfig_default YNull [].

Lemma start_node_spec_witness : exists p, start_node demo_machine (fun _ => true) demo_config (Ok ()) (Ok ()) = Some (Ok p) /\
  length (np_tasks p) = 1 /\ is_Some (np_api p) /\ ~ is_Some (np_gateway p).
Proof.
  destruct (start_node demo_machine (fun _ => true) demo_config (Ok ()) (Ok ())) as [r|] eqn:Hs; [|exfalso; vm_compute in Hs; discriminate].
  destruct (start_node_spec demo_machine (fun _ => true) demo_config (Ok ()) (Ok ()) r Hs) as [_ Hp].
  destruct r as [p|e]; [|exfalso; vm_compute in Hs; discriminate]. exists p. split; [done|].
  destruct (Hp p eq_refl) as (_ & _ & _ & _ & Hr & _ & Ht & _ & Hg & Ha & _). split; [|split].
  - rewrite <- (Forall2_length _ _ _ Ht). reflexivity.
  - apply Ha. rewrite Hr. reflexivity.
  - intros [Hd _]%Hg. vm_compute in Hd. discriminate.
Defined.

Definition quiet_setup : Setup := mkSetup [] [] false None None.
Definition demo_events : list loop_event :=
  [Handle (FromInput (mkFrame "raw" true false "hello")); Drained; Handle CommitTick; Interrupt; Handle RolloverTick].

Lemma node_run_spec_witness : (run_node (fun _ => "id") (fun _ => 5%Z) quiet_setup true true demo_events demo_node).2 = Done Stopped.
Proof.
  pose proof (node_run_spec (fun _ => "id") (fun _ => 5%Z) quiet_setup true true demo_events demo_node (fun H => H)) as Hn.
  destruct (until_end true demo_events) as [inputs ending] eqn:He. injection He as <- <-. destruct Hn as [_ Hn].
  assert ((run (fun _ => "id") (fun _ => 5%Z) quiet_setup [FromInput (mkFrame "raw" true false "hello"); CommitTick] demo_node).2 = Done ()) as Ho
    by (vm_compute; reflexivity).
  destruct (run _ _ _ _ demo_node) as [n' o]. cbn [snd] in Ho. subst o. by rewrite Hn.
Defined.
End demo.
