(* ===== verification/HotIndex.v ===== *)
(** * [sigil-index/src/lib.rs, analytics.rs]: the hot tier and SQL

    The documents of the full-text index, adding, committing and searching,
    and the rows of a SQL result.  Tantivy's query parser and collector and
    the SQL engine are parameters with what they document; [Pipeline.Hot] is
    the abstract state the index implements. *)

From stdpp Require Import gmap strings list sorting.
From S2P Require Import Auth ConfigExt Api Routes.
From S2P Require Import Prelude Utf8 Text Containers Core SigmaMatcher SigmaEngine SigmaCorrelation Serde Config Normalize Columnar Segments Tiering ColdTier Float Pipeline Replay.

Local Open Scope string_scope.

(** ** Documents *)

Inductive Field : Set :=
  | F_id | F_ts | F_ocsf_class | F_severity | F_tenant | F_host | F_actor | F_target | F_message | F_event_json.
#[export] Instance Field_eq_dec : EqDecision Field.
Proof. solve_decision. Defined.

(** The options of a field: indexed whole or as text, fast, stored. *)
Inductive field_kind : Set := WholeText | TokenText | StoredText | FastI64 | FastU64.

Definition build_schema : list (Field * string * field_kind) :=
  [(F_id, "id", WholeText); (F_ts, "ts", FastI64); (F_ocsf_class, "ocsf_class", FastU64); (F_severity, "severity", FastU64);
   (F_tenant, "tenant", WholeText); (F_host, "host", WholeText); (F_actor, "actor", TokenText); (F_target, "target", TokenText);
   (F_message, "message", TokenText); (F_event_json, "event_json", StoredText)].

Inductive field_value : Set := FText (s : string) | FI64 (z : Z) | FU64 (z : Z).
Abbreviation Document := (list (Field * field_value)).

Definition get_first (f : Field) (d : Document) : option field_value := head ((filter (fun kv => kv.1 = f) d).*2).
(** The fast field a search sorts by. *)
Definition doc_ts (d : Document) : Z := match get_first F_ts d with Some (FI64 z) => z | _ => 0%Z end.

(** The fields a query is matched against. *)
Definition DEFAULT_FIELDS : list Field := [F_message; F_host; F_actor; F_target].

(** Tantivy: a query parsed over some fields, its words joined by "and", says
    which documents it matches; a collector takes the [limit] documents with
    the latest time. *)
Class Tantivy : Type := {
  parse_query : list Field -> string -> option (Document -> bool);
  top_docs : nat -> list Document -> list Document
}.
Class TantivyLaws `{Tantivy} : Prop := {
  top_docs_spec limit docs : exists rest, (top_docs limit docs ++ rest)%list ≡ₚ docs /\
    StronglySorted (fun a b => doc_ts b <= doc_ts a)%Z (top_docs limit docs) /\
    Forall (fun d => Forall (fun e => doc_ts e <= doc_ts d)%Z rest) (top_docs limit docs) /\
    length (top_docs limit docs) = min limit (length docs)
}.

(** ** The index *)

(** Documents added but not committed, committed, and those the reader sees;
    the reader is reloaded by hand. *)
Record EventIndex : Set := mkIndex { ix_pending : list Document; ix_committed : list Document; ix_visible : list Document }.

Definition EventIndex_new : EventIndex := mkIndex [] [] [].

(** Whether a call of the writer, and the reload of the reader, fail. *)
Record index_io : Set := mkIndexIo { writer_fails : bool; reload_fails : bool }.
Definition index_ok : index_io := mkIndexIo false false.

Section index.
Context `{Tantivy} `{Serde Event}.

Definition opt_text (f : Field) (o : option string) : Document := match o with Some s => [(f, FText s)] | None => [] end.

Definition event_doc (ev : Event) : Document :=
  ([(F_id, FText (ev_id ev)); (F_ts, FI64 (ev_ts ev)); (F_ocsf_class, FU64 (class_uid (ocsf_class ev)));
   (F_severity, FU64 (severity_id (severity ev))); (F_tenant, FText (tenant ev))] ++
  opt_text F_host (entity_id <$> host ev) ++ opt_text F_actor (entity_id <$> actor ev) ++ opt_text F_target (entity_id <$> target ev) ++
  [(F_message, FText (message ev)); (F_event_json, FText (ser ev))])%list.

Definition add (io : index_io) (ev : Event) (ix : EventIndex) : EventIndex * result unit :=
  if writer_fails io then (ix, Err Backend)
  else (mkIndex (ix_pending ix ++ [event_doc ev]) (ix_committed ix) (ix_visible ix), Ok ()).

Definition commit (io : index_io) (ix : EventIndex) : EventIndex * result unit :=
  if writer_fails io then (ix, Err Backend)
  else
    let committed := (ix_committed ix ++ ix_pending ix)%list in
    if reload_fails io then (mkIndex [] committed (ix_visible ix), Err Backend) else (mkIndex [] committed committed, Ok ()).

(** The loop of [index_events]: the fate of each document, then of the
    commit. *)
Fixpoint add_all (ios : list index_io) (events : list Event) (ix : EventIndex) : list index_io * EventIndex * result unit :=
  match events with
  | [] => (ios, ix, Ok ())
  | ev :: events =>
      let io := default index_ok (head ios) in
      match add io ev ix with
      | (ix, Err e) => (tail ios, ix, Err e)
      | (ix, Ok _) => add_all (tail ios) events ix
      end
  end.

Definition index_events (ios : list index_io) (events : list Event) (ix : EventIndex) : EventIndex * result unit :=
  if is_nil events then (ix, Ok ())
  else match add_all ios events ix with
       | (_, ix, Err e) => (ix, Err e)
       | (ios, ix, Ok _) => commit (default index_ok (head ios)) ix
       end.

(** An index opened again sees what was committed. *)
Definition reopen_index (ix : EventIndex) : EventIndex := mkIndex [] (ix_committed ix) (ix_committed ix).

Definition count (ix : EventIndex) : nat := length (ix_visible ix).

(** The event stored in a document. *)
Definition doc_event (d : Document) : result Event :=
  match get_first F_event_json d with
  | Some (FText json) => ok_or (de json) Prelude.Parse
  | _ => Err Backend
  end.

Record SearchQuery : Set := mkQuery { sq_text : string; sq_limit : nat }.
Definition SearchQuery_default : SearchQuery := mkQuery "" 50.

Definition search (q : SearchQuery) (ix : EventIndex) : result (list Event) :=
  hits ← (if is_blank (sq_text q) then Ok (ix_visible ix)
          else m ← ok_or (parse_query DEFAULT_FIELDS (sq_text q)) Prelude.Parse; Ok (filter (fun d => m d = true) (ix_visible ix)));
  mapM doc_event (top_docs (max (sq_limit q) 1) hits).
End index.

(** ** The rows of a SQL result *)

Module Sql.

(** The types of a column that have a JSON form; any other by its name. *)
Inductive DataType : Set := Utf8 | Utf8View | LargeUtf8 | Int64 | Int32 | UInt32 | UInt64 | Float64 | Boolean | OtherType (debug : string).
Inductive cell : Set := CNull | CString (s : string) | CInt (z : Z) | CFloat (x : f64) | CBool (b : bool) | COther.
Record RecordBatch : Set := mkRecordBatch { rb_columns : list (string * DataType * list cell); rb_rows : nat }.

Section rows.
Context `{FloatText}.

(** A cell whose value is not of the type of its column is null. *)
Definition cell_to_json (t : DataType) (c : cell) : value :=
  match t, c with
  | _, CNull => VNull
  | (Utf8 | Utf8View | LargeUtf8), CString s => VString s
  | (Int64 | Int32 | UInt32 | UInt64), CInt z => VNumber (NInt z)
  | Float64, CFloat x => value_of_f64 x
  | Boolean, CBool b => VBool b
  | OtherType debug, _ => VString debug
  | _, _ => VNull
  end.

Definition row_to_json (columns : list (string * DataType * list cell)) (row : nat) : value :=
  VObject (foldl (fun obj col => fields_insert col.1.1 (cell_to_json col.1.2 (default CNull (col.2 !! row))) obj) [] columns).

Definition batches_to_json (batches : list RecordBatch) : list value :=
  concat ((fun b => row_to_json (rb_columns b) <$> seq 0 (rb_rows b)) <$> batches).

(** What the engine runs a statement over: the segments of a directory, or an
    empty table of the event schema. *)
Inductive events_table : Set := Segments (dir : string) | NoSegments.
(** The engine: the names of the columns, the batches and the printed table. *)
Class SqlEngine : Type := run_sql : events_table -> string -> result (list string * list RecordBatch * string).
Context `{SqlEngine}.

Record QueryResult : Set := mkQueryResult { qr_columns : list string; qr_rows : list value; qr_table : string }.

Definition is_parquet (name : string) : bool := ends_with ".parquet" name && negb (bool_decide (name = ".parquet")).
(** [listing]: the names in the directory, when it can be read. *)
Definition has_segments (listing : option (list string)) : bool := match listing with Some names => existsb is_parquet names | None => false end.

Definition sql (cold_dir : string) (listing : option (list string)) (query : string) : result QueryResult :=
  '(columns, batches, table) ← run_sql (if has_segments listing then Segments cold_dir else NoSegments) query;
  Ok (mkQueryResult columns (batches_to_json batches) table).

Lemma row_fields (columns : list (string * DataType * list cell)) row obj key :
  fields_get (foldl (fun obj col => fields_insert col.1.1 (cell_to_json col.1.2 (default CNull (col.2 !! row))) obj) obj columns) key =
  match last (filter (fun col => col.1.1 = key) columns) with
  | Some col => Some (cell_to_json col.1.2 (default CNull (col.2 !! row)))
  | None => fields_get obj key
  end.
Proof.
  revert obj. induction columns as [|col columns IH]; intros obj; [done|]. cbn [foldl]. rewrite IH, filter_cons.
  rewrite smap_get_insert. destruct (decide (col.1.1 = key)) as [Hk|Hk].
  - destruct (filter _ columns) as [|c l]; [done|]. rewrite last_cons_cons. destruct (last (c :: l)) eqn:Hlast; [done|by apply last_None in Hlast].
  - by destruct (last (filter _ columns)).
Qed.

(** One row for each row of each batch, in order; under the name of a column
    the row has the cell of the last column of that name. *)
Lemma batches_to_json_spec batches :
  length (batches_to_json batches) = sum_list (rb_rows <$> batches) /\
  (forall b, batches = [b] -> forall row, row < rb_rows b -> batches_to_json batches !! row = Some (row_to_json (rb_columns b) row)) /\
  forall columns row key, exists obj, row_to_json columns row = VObject obj /\
    fields_get obj key = (fun col : string * DataType * list cell => cell_to_json col.1.2 (default CNull (col.2 !! row))) <$> last (filter (fun col => col.1.1 = key) columns).
Proof.
  split; [|split].
  - induction batches as [|b batches IH]; [done|]. unfold batches_to_json in *. cbn [fmap list_fmap concat sum_list].
    by rewrite length_app, length_fmap, length_seq, IH.
  - intros b -> row Hr. unfold batches_to_json. cbn [fmap list_fmap concat]. rewrite app_nil_r, list_lookup_fmap, lookup_seq_lt by done. done.
  - intros columns row key. eexists. split; [reflexivity|]. rewrite row_fields. by destruct (last _).
Qed.
End rows.
End Sql.

(** ** Lemmas *)

Section laws.
Context `{TantivyLaws} `{Serde Event}.

(** The event can be read back from its JSON. *)
Definition reads_back (ev : Event) : Prop := de (ser ev) = Some ev.

Lemma event_doc_ts ev : doc_ts (event_doc ev) = ev_ts ev.
Proof. reflexivity. Qed.

Lemma opt_text_skip f g o d : f <> g -> get_first g (opt_text f o ++ d)%list = get_first g d.
Proof. intros Hne. destruct o; [|done]. unfold get_first. cbn [opt_text app]. by rewrite filter_cons, decide_False. Qed.

Lemma doc_event_doc ev : reads_back ev -> doc_event (event_doc ev) = Ok ev.
Proof.
  intros Hev. unfold doc_event, event_doc. assert (get_first F_event_json (event_doc ev) = Some (FText (ser ev))) as Hg.
  { transitivity (get_first F_event_json (opt_text F_host (entity_id <$> host ev) ++ opt_text F_actor (entity_id <$> actor ev) ++
      opt_text F_target (entity_id <$> target ev) ++ [(F_message, FText (message ev)); (F_event_json, FText (ser ev))])%list); [reflexivity|].
    by rewrite !opt_text_skip. }
  unfold event_doc in Hg. rewrite Hg. by rewrite Hev.
Qed.

Lemma docs_events evs : Forall reads_back evs -> mapM doc_event (event_doc <$> evs) = Ok evs.
Proof. induction 1 as [|ev evs Hev _ IH]; [done|]. cbn [fmap list_fmap mapM]. rewrite doc_event_doc by done. cbn [mbind result_bind]. by rewrite IH. Qed.

(** The index holds the state [Pipeline] gives it. *)
Record indexed (ix : EventIndex) (h : Hot) : Prop := {
  ixd_pending : ix_pending ix = event_doc <$> staged h;
  ixd_committed : ix_committed ix = event_doc <$> searchable h;
  ixd_visible : ix_visible ix = event_doc <$> searchable h
}.

Lemma indexed_new : indexed EventIndex_new (mkHot [] []).
Proof. done. Qed.

Lemma add_indexed ev ix h : indexed ix h -> (add index_ok ev ix).2 = Ok () /\ indexed (add index_ok ev ix).1 (mkHot (staged h ++ [ev]) (searchable h)).
Proof. intros [Hp Hc Hv]. split; [done|]. split; cbn; [by rewrite Hp, fmap_app|done..]. Qed.

Lemma commit_indexed ix h : indexed ix h -> (commit index_ok ix).2 = Ok () /\ indexed (commit index_ok ix).1 (mkHot [] (searchable h ++ staged h)).
Proof. intros [Hp Hc Hv]. split; [done|]. split; cbn; [done|by rewrite Hp, Hc, fmap_app..]. Qed.

Lemma add_all_indexed evs ix h : indexed ix h ->
  exists ix', add_all [] evs ix = ([], ix', Ok ()) /\ indexed ix' (mkHot (staged h ++ evs) (searchable h)).
Proof.
  revert ix h. induction evs as [|ev evs IH]; intros ix h Hix; [exists ix; rewrite app_nil_r; by destruct h|].
  cbn [add_all head default tail]. destruct (add_indexed ev ix h Hix) as [Hr Hi]. destruct (add index_ok ev ix) as [ix1 r]. cbn [fst snd] in *. subst r.
  destruct (IH _ _ Hi) as (ix' & He & Hi'). exists ix'. cbn [staged searchable] in Hi'. by rewrite <- app_assoc in Hi'.
Qed.

Lemma index_events_indexed evs ix h : indexed ix h -> (index_events [] evs ix).2 = Ok () /\
  indexed (index_events [] evs ix).1 (if is_nil evs then h else mkHot [] (searchable h ++ staged h ++ evs)).
Proof.
  intros Hix. unfold index_events. destruct (is_nil evs); [done|]. destruct (add_all_indexed evs ix h Hix) as (ix' & -> & Hi).
  exact (commit_indexed _ _ Hi).
Qed.

Lemma mapped_top {A} (f : A -> Document) (l : list A) top rest : (top ++ rest)%list ≡ₚ f <$> l ->
  exists a b, top = f <$> a /\ rest = f <$> b /\ (a ++ b)%list ≡ₚ l.
Proof.
  intros (k & Hk & Hp)%Permutation_map_inv. symmetry in Hk. apply fmap_app_inv in Hk as (a & b & -> & -> & ->). by exists a, b.
Qed.

Lemma sorted_fmap {A B} (f : A -> B) (R : relation B) l : StronglySorted R (f <$> l) -> StronglySorted (fun a b => R (f a) (f b)) l.
Proof.
  induction l as [|x l IH]; cbn; intros Hs; inversion Hs as [|? ? Hs' Hf]; subst; constructor; [by apply IH|].
  by rewrite Forall_fmap in Hf.
Qed.

Lemma filter_docs (m : Document -> bool) (l : list Event) :
  filter (fun d => m d = true) (event_doc <$> l) = event_doc <$> filter (fun ev => m (event_doc ev) = true) l.
Proof.
  induction l as [|ev l IH]; [done|]. cbn [fmap list_fmap]. rewrite !filter_cons, IH. by destruct (decide (m (event_doc ev) = true)).
Qed.

(** What a query matches. *)
Definition query_of (text : string) : option (Document -> bool) :=
  if is_blank text then Some (fun _ => true) else parse_query DEFAULT_FIELDS text.

(** The [n] newest of some events, newest first. *)
Definition newest (n : nat) (l evs : list Event) : Prop :=
  exists rest, (evs ++ rest)%list ≡ₚ l /\ StronglySorted (fun a b => ev_ts b <= ev_ts a)%Z evs /\
    Forall (fun a => Forall (fun b => ev_ts b <= ev_ts a)%Z rest) evs /\ length evs = min n (length l).

Lemma search_indexed q ix h : indexed ix h -> Forall reads_back (searchable h) ->
  match query_of (sq_text q) with
  | None => search q ix = Err Prelude.Parse
  | Some m => exists evs, search q ix = Ok evs /\
      newest (max (sq_limit q) 1) (filter (fun ev => m (event_doc ev) = true) (searchable h)) evs
  end.
Proof.
  intros [_ _ Hv] Hrb. unfold search, query_of. rewrite Hv.
  assert (forall m : Document -> bool, exists evs,
    mapM doc_event (top_docs (max (sq_limit q) 1) (filter (fun d => m d = true) (event_doc <$> searchable h))) = Ok evs /\
    newest (max (sq_limit q) 1) (filter (fun ev => m (event_doc ev) = true) (searchable h)) evs) as Hm.
  { intros m. rewrite filter_docs. set (l := filter _ (searchable h)).
    destruct (top_docs_spec (max (sq_limit q) 1) (event_doc <$> l)) as (rest & Hp & Hs & Hf & Hl).
    destruct (mapped_top _ _ _ _ Hp) as (a & b & Ha & -> & Hab). rewrite Ha in *.
    assert (Forall reads_back a) as Hra.
    { rewrite Forall_forall in *. intros ev Hev. apply Hrb. assert (ev ∈ l) as Hin by (rewrite <- Hab; apply elem_of_app; by left).
      by apply list_elem_of_filter in Hin as [_ ?]. }
    exists a. split; [by apply docs_events|]. exists b. split; [done|]. rewrite !length_fmap in Hl.
    split; [|split; [|done]].
    - apply sorted_fmap in Hs. exact Hs.
    - rewrite Forall_fmap in Hf. eapply Forall_impl; [exact Hf|]. cbn. intros x Hx. by rewrite Forall_fmap in Hx. }
  destruct (is_blank (sq_text q)); cbn [mbind result_bind].
  - destruct (Hm (fun _ => true)) as (evs & He & Hn). exists evs. split; [|done]. rewrite <- He. do 2 f_equal.
    symmetry. clear. induction (event_doc <$> searchable h) as [|d l IH]; [done|]. rewrite filter_cons, decide_True by done. by rewrite IH.
  - destruct (parse_query DEFAULT_FIELDS (sq_text q)) as [m|]; [|done]. exact (Hm m).
Qed.
End laws.

(** ** The hot tier *)

(** [EventIndex::search] as the handlers of the API call it. *)
Definition api_search `{Tantivy} `{Serde Event} (ix : EventIndex) (text : string) (limit : nat) : result (list Event) :=
  search (mkQuery text limit) ix.

(** A batch the pipeline indexes without failure. *)
Lemma index_events_hot {C} `{RegexEngine} `{ColdTier C} evs (n n' : Node C) : Replay.index_events evs n = (n', Done ()) ->
  n_hot n' = if is_nil evs then n_hot n else mkHot [] (searchable (n_hot n) ++ staged (n_hot n) ++ evs).
Proof.
  unfold Replay.index_events. destruct (is_nil evs); [by intros [= <-]|]. unfold mbind, Pipeline.M_bind.
  destruct (Replay.add_documents evs n) as [n1 [[]|e|]] eqn:Ha; [|done..]. intros Hc.
  assert (n_hot n1 = mkHot (staged (n_hot n) ++ evs) (searchable (n_hot n))) as Hn1.
  { clear Hc. revert n Ha. induction evs as [|ev evs IH]; intros n; cbn [Replay.add_documents].
    - intros [= <-]. rewrite app_nil_r. by destruct (n_hot n).
    - unfold mbind, Pipeline.M_bind, index_add, index_call. destruct (n_index_faults n) as [|[] l]; [|done|]; intros Ha%IH; rewrite Ha; cbn; by rewrite <- app_assoc. }
  unfold index_commit, index_call in Hc. destruct (n_index_faults n1) as [|[] l]; [|done|]; injection Hc as <-; cbn; rewrite Hn1; cbn; done.
Qed.

Section claims.
Context {C : Type} `{RegexEngine} `{ColdTier C}.
Context `{TantivyLaws} `{Serde Event}.

(** C13: The hot tier.  The index of documents implements the hot tier of the
    pipeline: adding an event, committing, and indexing a batch, where the
    pipeline does them without failure, take an index that holds its state to
    one that holds the next; an index opened again holds what was committed.
    Over such an index the API counts the committed events, and a search
    replies with the newest events that match, all of their contents read
    back from the index, newest first, as many as the bounded limit asks for
    when there are as many, matching every event for a blank query; a query
    the parser refuses is an error reply. *)
Theorem hot_tier_refines ix (n : Node C) : indexed ix (n_hot n) ->
  (forall ev n', index_add ev n = (n', Done ()) -> exists ix', add index_ok ev ix = (ix', Ok ()) /\ indexed ix' (n_hot n')) /\
  (forall n', index_commit n = (n', Done ()) -> exists ix', commit index_ok ix = (ix', Ok ()) /\ indexed ix' (n_hot n')) /\
  (forall evs n', Replay.index_events evs n = (n', Done ()) ->
     exists ix', index_events [] evs ix = (ix', Ok ()) /\ indexed ix' (n_hot n')) /\
  indexed (reopen_index ix) (mkHot [] (searchable (n_hot n))) /\
  (Forall reads_back (searchable (n_hot n)) ->
   count ix = length (searchable (n_hot n)) /\
   forall q limit,
     match query_of (default "" q) with
     | None => search_reply (api_search ix) q limit = Plain 500 C_error
     | Some m => exists evs, search_reply (api_search ix) q limit = Plain 200 (C_events evs) /\
         newest (page limit) (filter (fun ev => m (event_doc ev) = true) (searchable (n_hot n))) evs
     end).
Proof.
  intros Hix. split; [|split; [|split; [|split]]].
  - intros ev n' Ha. unfold index_add, index_call in Ha. destruct (add_indexed ev ix (n_hot n) Hix) as [Hr Hi].
    eexists. split; [reflexivity|]. destruct (n_index_faults n) as [|[] l]; [|done|]; by injection Ha as <-.
  - intros n' Ha. unfold index_commit, index_call in Ha. destruct (commit_indexed ix (n_hot n) Hix) as [Hr Hi].
    eexists. split; [reflexivity|]. destruct (n_index_faults n) as [|[] l]; [|done|]; by injection Ha as <-.
  - intros evs n' Ha. destruct (index_events_indexed evs ix (n_hot n) Hix) as [Hr Hi]. destruct (index_events [] evs ix) as [ix' r].
    cbn [fst snd] in *. subst r. exists ix'. split; [done|]. by rewrite (index_events_hot evs n n' Ha).
  - split; [done|apply Hix|apply Hix].
  - intros Hrb. split; [unfold count; by rewrite (ixd_visible ix (n_hot n) Hix), length_fmap|]. intros q limit.
    pose proof (search_indexed (mkQuery (default "" q) (page limit)) ix (n_hot n) Hix Hrb) as Hs. cbn [sq_text sq_limit] in Hs.
    unfold search_reply, api_search. destruct (query_of (default "" q)) as [m|]; [|by rewrite Hs].
    destruct Hs as (evs & -> & Hn). exists evs. split; [done|]. unfold page in *.
    by rewrite Nat.max_l in Hn by lia.
Qed.
End claims.

(** ** Witnesses *)

Section demo.
#[local] Existing Instances demo_json_text demo_json_parse demo_json_laws demo_arrow demo_arrow_laws demo_regex Tiering.demo_serde Tiering.demo_serde_laws.

Definition later (a b : Document) : Prop := (doc_ts b <= doc_ts a)%Z.
#[local] Instance later_dec : RelDecision later.
Proof. intros a b. apply Z_le_dec. Defined.
#[local] Instance later_total : Total later.
Proof. intros a b. unfold later. lia. Qed.
#[local] Instance later_trans : Transitive later.
Proof. intros a b c. unfold later. lia. Qed.

(** One word, found anywhere in a field; an open bracket is refused. *)
Definition demo_parse_query (fs : list Field) (text : string) : option (Document -> bool) :=
  if contains "(" text then None
  else Some (fun d => existsb (fun kv => bool_decide (kv.1 ∈ fs) && match kv.2 with FText s => contains text s | _ => false end) d).
#[local] Instance demo_tantivy : Tantivy := {| parse_query := demo_parse_query; top_docs n docs := take n (merge_sort later docs) |}.
#[local] Instance demo_tantivy_laws : TantivyLaws.
Proof.
  split. intros n docs. cbn [top_docs demo_tantivy]. exists (drop n (merge_sort later docs)). rewrite take_drop.
  pose proof (StronglySorted_merge_sort later docs) as Hs. rewrite <- (take_drop n) in Hs at 1.
  split; [apply merge_sort_Permutation|]. split; [by eapply StronglySorted_app_1_l|]. split.
  - apply Forall_forall. intros d Hd. apply Forall_forall. intros e He. exact (StronglySorted_app_1_elem_of _ _ _ _ _ Hs Hd He).
  - rewrite length_take. by rewrite merge_sort_Permutation.
Qed.

Definition demo_events : list Event := [failed_login "e1" "root" 100; failed_login "e2" "alice" 200]%Z.
#[local] Instance demo_event_serde : Serde Event := {| ser := ev_id; de id := head (filter (fun ev => ev_id ev = id) demo_events) |}.

Definition demo_index : EventIndex := (index_events [] demo_events EventIndex_new).1.
Definition demo_hot_node : Node Segments.ColumnarStore := set_hot (mkHot [] demo_events) demo_node.

Lemma hot_tier_refines_witness :
  indexed demo_index (n_hot demo_hot_node) /\ exists evs, search_reply (api_search demo_index) (Some "e1") None = Plain 200 (C_events evs).
Proof.
  assert (indexed demo_index (n_hot demo_hot_node)) as Hix by (split; vm_compute; reflexivity). split; [exact Hix|].
  destruct (hot_tier_refines demo_index demo_hot_node Hix) as (_ & _ & _ & _ & Hs). destruct Hs as [_ Hs]; [repeat constructor; vm_compute; reflexivity|].
  destruct (Hs (Some "e1") None) as (evs & He & _). exists evs. exact He.
Defined.
End demo.
